(* ===== verification/_CoqProject ===== *)
-Q . S2P
Prelude.v
MachineInt.v
Floats.v
State.v
Chars.v
TypeData.v
Unify.v
SubOrder.v
Sup.v
TypeContext.v
Diagnostic.v
Lexer.v
StrLiteral.v
AstToken.v
ParserLexer.v
IntLiteral.v
Utf8.v
Ast.v
AstPos.v
Builtins.v
Scope.v
DocString.v
Calculation.v
Printer.v
PrinterLaws.v
ParserState.v
ParserExpr.v
ParserStmt.v
Units.v
TypeParser.v
ParserFrame.v
ParserRun.v
ParserGrammar.v
ParserComplete.v
ParserFaults.v
Value.v
ValueCmp.v
ValueBin.v
ValueList.v
Heap.v
ValueHeap.v
ValueUnion.v
UnionSpec.v
TreeStore.v
UnionRefine.v
CopyRefine.v
UnionLaws.v
ValueAug.v
TypeString.v
TypeAnnotation.v
SubSpec.v
TypeParserLaws.v
OperatorSound.v
Resolver.v
ResolverWalk.v
ResolverStmt.v
ResolverFrame.v
ResolverGlobal.v
ResolverProgram.v
Walker.v
WalkerLaws.v
WalkerSound.v
PreIdentifier.v
PreConfig.v
PreConfigLaws.v
MergeLaws.v
MergeSpec.v
MergeSound.v
PreProcess.v
MultiAssign.v
TypeAlias.v
