(* ===== verification/Prelude.v ===== *)
(** * Verification of the KCL compiler and virtual machine

    KCL is a configuration language: a program is lexed, parsed, resolved (types are inferred
    and checked), compiled to LLVM and run against a runtime library of dynamic values, whose
    central operation is the union of configurations.  This library models parts of each
    stage as they are written in [src/kclvm] and proves what makes them correct.

    ** Conventions

    Rust code is a pure function or a state-passing function.  A panic (an [unwrap], an
    index out of range, an explicit [panic!], a borrow error) is [Panic] of the type
    [outcome] below, with the message of the code where it has one; methods on [&mut self]
    run in the state monad of [State].  Machine integers are [Z] with their ranges and
    wrap-around written out ([MachineInt]; [oc] is the flag of overflow checks, which the
    debug build has on); [f64] is the correctly rounded double of the Standard Library
    ([Floats]); a text under the cursor of a lexer is a list of code points ([Chars]), a
    [String] is its bytes ([Utf8]).  An [IndexMap] is an association list in insertion
    order.  What the code takes from other crates is a class or a parameter ([UnicodeTables],
    [CharNames], [BigDigits], [DiGraph], [Regexes], [TypeRegexes], [DocRegex], [DebugTables], the power of doubles,
    compiled schema functions), with named laws where a theorem needs them and a concrete
    instance in the theorem's witness.

    ** The parts

    Lexing and parsing.  [Lexer] is [kclvm/lexer/src]: cursor and scanners, one token at a
    time.  [StrLiteral] and [IntLiteral] evaluate literals ([parser/src/lexer/string.rs],
    [parser/src/parser/int.rs]).  [AstToken] is the token type and the cursor of the parser
    ([ast/src/token.rs], [token_stream.rs]).  [ParserLexer] is [parser/src/lexer]: it turns
    the tokens of [Lexer] into syntax tokens, evaluates literals through [StrLiteral],
    matches delimiters and computes indentation.

    The parser.  [Ast] is the syntax tree ([ast/src/ast.rs]); [ParserState] the parser's state,
    its tokens, errors and precedences ([parser/src/parser/{mod,precedence}.rs],
    [parser/src/session]); [ParserExpr] and [ParserStmt] are its methods, one definition each
    ([expr.rs]; [ty.rs], [stmt.rs], [module.rs]).  [ParserFrame] is what every method
    satisfies, from one walk over all of them; [ParserRun] holds the rules to run a method
    with enough fuel; [ParserGrammar] is the grammar of expressions as inductive judgments
    over tokens and trees, and [ParserComplete] shows that the parser implements it;
    [ParserFaults] are inputs on which the parser hangs or panics.

    The printer.  [Printer] prints a tree with its comments ([ast_pretty/src/{lib,node}.rs]);
    its methods recur structurally.  [PrinterLaws] holds what every method does to the
    printer, by induction on the tree.

    Types.  [TypeData] is [sema/src/ty/{mod,constants,constructor,into}.rs]; [Unify] is
    [unify.rs], with subtyping as a relation over what is below a primitive type; [SubSpec]
    has the relation that the code documents; [SubOrder] and [Sup] are the order of subtyping
    and the least upper bound; [TypeContext] is [context.rs] and [walker.rs].

    The resolver.  [Diagnostic] is [error/src]: positions and the set of reports.
    [Calculation] gives the types of operators ([sema/src/resolver/calculation.rs]);
    [OperatorSound] joins it to the runtime's operations and to membership in a type.
    [AstPos] gives the spans of nodes ([ast/src/pos.rs]), [Builtins] the tables of builtins
    ([sema/src/builtin]), [Scope] the scopes ([resolver/scope.rs]; shared cells are indices of
    an arena), [DocString] the documentation strings ([resolver/doc.rs]), [Units] the
    arithmetic of units ([runtime/src/units]), [TypeParser] the types that strings and
    annotations denote ([ty/parser.rs], [ty/into.rs]).  [Resolver] is the state of the resolver
    with the operations that do not walk the tree ([resolver/{mod,scope,var,attr,ty,loop,para,
    config}.rs]); [ResolverWalk] and [ResolverStmt] are its walk, one definition per method
    ([node.rs], [schema.rs], [arg.rs]), by recursion on the tree; [ResolverGlobal] scans the
    packages and follows the imports ([global.rs], [import.rs], [mod.rs]).  [ResolverFrame]
    is what the walk keeps, by induction on the tree, and [ResolverProgram] what the global
    methods keep, with the end of the imports.

    Runtime values.  [Value] is the value type and its one-level operations
    ([runtime/src/api/kclvm.rs], [value/val_{kind,as_val,is_in,logic,len}.rs]); [ValueCmp]
    compares and finds conflicts ([val_cmp.rs], [val_is_in.rs], [unification/subsume.rs]);
    [ValueBin] is arithmetic ([val_bin.rs], [val_unary.rs], [val_overflow.rs]); [ValueList]
    slices, looks up paths and iterates ([val_list.rs], [val_get_set.rs], [iter.rs]).

    References.  [Heap] is the store of [Rc<RefCell<Value>>] cells with the dynamic borrow
    rules; a value that is only read is a tree, a value that is written is a location.
    [ValueHeap] holds the writing operations ([val_list.rs], [val_dict.rs], [val_schema.rs],
    [val_clone.rs]), [ValueUnion] the union ([val_union.rs]) and [ValueAug] the augmented
    assignments ([val_bin_aug.rs]).  [UnionSpec] says what the union means on trees;
    [TreeStore], [UnionRefine] and [CopyRefine] show that the code on references computes
    it; [UnionLaws] reads that on dicts and on equal operands.

    Types at run time.  [TypeString] is the check of a value against a type string
    ([val_type.rs]); [TypeAnnotation] joins it to [TypeData]: the compiler prints a type,
    the compiled program checks the text.

    ** What is shown

    Lexing: the tokens of a text partition it; the parser's lexer returns a stream with
    matched delimiters and, where no line begins with a hidden token, balanced
    indentation; literals denote what was quoted, integers wrap where they wrap.
    Parsing: on the tokens of an expression of the grammar the parser returns its tree,
    which is the only one, and stops where the expression does; a module's parse keeps
    what was there before; blocks without indentation
    and lambdas without names never end. Printing: a statement is printed in place, the
    text of a module has each of its comments once and in order, and a string literal
    reads back where it can. Types: subsumption decides the documented relation,
    but for string literals that name a type, and is a preorder; [sup] is the least upper bound, with the cases where the code loses it;
    widening is sound; the dependency graph finds exactly the cycles. Values: arithmetic
    is exact or panics; division is floored; slices and subscripts are those of the
    sequence; equality and the orderings agree; the conflict check is symmetric and
    decides compatibility. References: the union refines the union of trees and writes
    only the cells of its left operand; the operator [|] leaves its operands as they
    were; the union of dicts is computed entry by entry, and
    uniting a value with a copy of it gives the value; augmented assignments agree
    with the operators where they are meant to. Runtime types: the check terminates on
    every string, and on the printed form of a type it is membership in the type. The
    printed form of a type reads back as the type in the resolver. Operators: the type that the
    resolver gives is a type of the value, with the operators where it is not, and an
    accepted operator fails on overflow and zero divisors only. Scopes: a lookup finds the
    nearest enclosing name. The
    resolver walks a statement in place, whatever scopes and contexts are opened in it, and
    checks a program to its end, circular imports included. Documentation strings are read to their end. A quantity is the
    number times its unit. The
    counterexamples found on the way are the findings of the manifest.

    ** Fuel

    Recursion that is not structural takes fuel, and a theorem says how much is enough:
    the lexers one more than the length of the text, [check_type] one more than the length
    of the type string, the union and the deep copy one more than the depth of the value.
    A method of the parser with fuel [n + 1] runs its loops and recursive calls with fuel [n];
    the theorems say that some fuel is enough on the grammar ([rets]), that none is for the
    inputs that hang, and that more fuel changes no result.  The check of a package takes one
    more than the number of imports of the program.
    Running out of fuel is a [Panic] of its own, which the same theorems exclude.

    ** Not modelled

    The mutating walkers of the syntax tree ([ast/src/walker.rs]), the resolver's lints and its
    rewriting of type aliases ([ty_alias.rs]), the preprocessing of programs, code generation
    ([compiler], which emits LLVM through a binding), the C interface of the runtime
    ([value/api.rs], one wrapper per operation, and the files generated from it), formatting
    and serialisation (serde), string methods that depend on Unicode case tables, the
    runtime's standard library (platform and third-party calls), loading of programs and
    settings from the file system, services, tools and the language server are outside it:
    they are glue over what is modelled, pure I/O, or calls of code that is not in the
    repository. *)

From Stdlib Require Export ZArith Lia Bool.
From stdpp Require Export base decidable option list strings pretty numbers sets gmap.

#[global] Open Scope Z_scope.

(** ** Outcomes: a value, or a panic of the Rust code *)

Inductive outcome (A : Type) : Type :=
| Ok (a : A)
| Panic (msg : string).
Arguments Ok {A} a.
Arguments Panic {A} msg.

#[export] Instance outcome_ret : MRet outcome := fun A a => Ok a.
#[export] Instance outcome_bind : MBind outcome :=
  fun A B f m => match m with Ok a => f a | Panic s => Panic s end.
#[export] Instance outcome_fmap : FMap outcome :=
  fun A B f m => match m with Ok a => Ok (f a) | Panic s => Panic s end.

(** The code did not panic. *)
Definition is_ok {A} (m : outcome A) : Prop := exists a, m = Ok a.

#[export] Instance outcome_eq_dec {A} `{EqDecision A} : EqDecision (outcome A).
Proof. solve_decision. Defined.

#[export] Instance is_ok_dec {A} (m : outcome A) : Decision (is_ok m).
Proof.
  destruct m as [a|s].
  - left. by exists a.
  - right. intros [a Ha]. discriminate Ha.
Defined.

Create HintDb kcl.

Section Outcome.
Context {A B : Type}.
Implicit Types (m : outcome A) (f : A -> outcome B).

Lemma is_ok_Ok (a : A) : is_ok (Ok a).
Proof. by exists a. Qed.

Lemma bind_Ok_inv m f b : m ≫= f = Ok b -> exists a, m = Ok a /\ f a = Ok b.
Proof. destruct m as [a|s]; simpl; [eauto | discriminate]. Qed.

Lemma is_ok_bind m f :
  is_ok m -> (forall a, m = Ok a -> is_ok (f a)) -> is_ok (m ≫= f).
Proof. intros [a ->] Hf. simpl. by apply Hf. Qed.
End Outcome.

#[export] Hint Resolve is_ok_Ok : kcl.

(** ** [Iterator::all] and [Iterator::any] with a fallible predicate: both stop
    at the first element that decides the result. *)

Definition all_m {A} (f : A -> outcome bool) : list A -> outcome bool :=
  fix go l :=
    match l with
    | [] => Ok true
    | x :: l' => match f x with
                 | Ok true => go l'
                 | Ok false => Ok false
                 | Panic s => Panic s
                 end
    end.

Definition any_m {A} (f : A -> outcome bool) : list A -> outcome bool :=
  fix go l :=
    match l with
    | [] => Ok false
    | x :: l' => match f x with
                 | Ok true => Ok true
                 | Ok false => go l'
                 | Panic s => Panic s
                 end
    end.

Section AllAny.
Context {A : Type}.
Implicit Types (f g : A -> outcome bool) (h : A -> bool) (l : list A).

Lemma all_m_is_ok f l : Forall (fun x => is_ok (f x)) l -> is_ok (all_m f l).
Proof. induction 1 as [|x l [[] Hx] _ IH]; simpl; rewrite ?Hx; eauto with kcl. Qed.

Lemma any_m_is_ok f l : Forall (fun x => is_ok (f x)) l -> is_ok (any_m f l).
Proof. induction 1 as [|x l [[] Hx] _ IH]; simpl; rewrite ?Hx; eauto with kcl. Qed.

Lemma all_m_true f l : all_m f l = Ok true <-> Forall (fun x => f x = Ok true) l.
Proof.
  induction l as [|x l IH]; simpl; [naive_solver|].
  rewrite list.Forall_cons, <- IH. clear IH. destruct (f x) as [[]|]; naive_solver.
Qed.

Lemma any_m_true f l :
  Forall (fun x => is_ok (f x)) l ->
  any_m f l = Ok true <-> Exists (fun x => f x = Ok true) l.
Proof.
  induction 1 as [|x l [b Hx] _ IH]; simpl; [rewrite Exists_nil; naive_solver|].
  rewrite Exists_cons, <- IH, Hx. clear IH. destruct b; naive_solver.
Qed.

Lemma any_m_true_inv f l : any_m f l = Ok true -> Exists (fun x => f x = Ok true) l.
Proof.
  induction l as [|x l IH]; simpl; [discriminate|].
  rewrite Exists_cons. destruct (f x) as [[]|]; naive_solver.
Qed.

Lemma all_m_pure f h l :
  Forall (fun x => f x = Ok (h x)) l -> all_m f l = Ok (forallb h l).
Proof. induction 1 as [|x l Hx _ IH]; simpl; [done|]. rewrite Hx. by destruct (h x). Qed.

Lemma any_m_pure f h l :
  Forall (fun x => f x = Ok (h x)) l -> any_m f l = Ok (existsb h l).
Proof. induction 1 as [|x l Hx _ IH]; simpl; [done|]. rewrite Hx. by destruct (h x). Qed.
End AllAny.

(** ** Structural equality of lists, options and insertion-ordered maps
    (Rust's derived [PartialEq] and the one of [IndexMap]) *)

Definition list_eqb {A} (f : A -> A -> bool) : list A -> list A -> bool :=
  fix go l1 l2 :=
    match l1, l2 with
    | [], [] => true
    | x :: l1', y :: l2' => f x y && go l1' l2'
    | _, _ => false
    end.

Definition option_eqb {A} (f : A -> A -> bool) (o1 o2 : option A) : bool :=
  match o1, o2 with
  | None, None => true
  | Some x, Some y => f x y
  | _, _ => false
  end.

(** An [IndexMap<String, V>] is the list of its entries in insertion order, with
    distinct keys. *)
Definition index_map (V : Type) := list (string * V).

Fixpoint im_get {V} (k : string) (m : list (string * V)) : option V :=
  match m with
  | [] => None
  | (k', v) :: m' => if bool_decide (k = k') then Some v else im_get k m'
  end.

(** [IndexMap::insert]: an existing key keeps its place. *)
Fixpoint im_insert {V} (k : string) (v : V) (m : list (string * V)) : list (string * V) :=
  match m with
  | [] => [(k, v)]
  | (k', v') :: m' =>
      if bool_decide (k = k') then (k', v) :: m' else (k', v') :: im_insert k v m'
  end.

Definition im_contains {V} (k : string) (m : list (string * V)) : bool :=
  match im_get k m with Some _ => true | None => false end.

(** [IndexMap]'s equality: same length, and every entry of the first is in the second. *)
Definition im_eqb {V} (f : V -> V -> bool) (m1 m2 : list (string * V)) : bool :=
  Nat.eqb (length m1) (length m2) &&
  forallb (fun kv => match im_get kv.1 m2 with Some v2 => f kv.2 v2 | None => false end) m1.

Lemma list_eqb_true {A} (f : A -> A -> bool) l l' :
  list_eqb f l l' = true <-> Forall2 (fun x y => f x y = true) l l'.
Proof.
  revert l'. induction l as [|x l IH]; intros [|y l']; simpl.
  - by split.
  - split; [done|inversion 1].
  - split; [done|inversion 1].
  - rewrite andb_true_iff, IH. split; [naive_solver|inversion 1; naive_solver].
Qed.

Lemma nth_error_lookup {A} (l : list A) i : nth_error l i = l !! i.
Proof. revert i. induction l as [|x l IH]; intros [|i]; simpl; auto. Qed.

Section IndexMap.
Context {V : Type}.
Implicit Types (m : list (string * V)) (k : string) (v : V).

Lemma im_get_insert_eq k v m : im_get k (im_insert k v m) = Some v.
Proof.
  induction m as [|[k' v'] m IH]; simpl.
  - by rewrite bool_decide_eq_true_2.
  - case_bool_decide as Hk; simpl.
    + by rewrite bool_decide_eq_true_2.
    + by rewrite bool_decide_eq_false_2.
Qed.

Lemma im_get_insert_ne k k' v m : k <> k' -> im_get k (im_insert k' v m) = im_get k m.
Proof.
  intros Hne. induction m as [|[k2 v2] m IH]; simpl.
  - by rewrite bool_decide_eq_false_2.
  - destruct (bool_decide_reflect (k' = k2)) as [->|Hk]; simpl.
    + by rewrite !bool_decide_eq_false_2 by done.
    + by rewrite IH.
Qed.

Lemma im_get_In k v m : im_get k m = Some v -> In (k, v) m.
Proof.
  induction m as [|[k2 v2] m IH]; simpl; [done|].
  case_bool_decide; naive_solver.
Qed.

Lemma im_get_None k m : im_get k m = None <-> k ∉ map fst m.
Proof.
  induction m as [|[k2 v2] m IH]; simpl; [set_solver|].
  case_bool_decide; set_solver.
Qed.

Lemma im_insert_keys k v m :
  map fst (im_insert k v m) =
  if im_contains k m then map fst m else map fst m ++ [k].
Proof.
  unfold im_contains.
  induction m as [|[k2 v2] m IH]; simpl; [done|].
  case_bool_decide; simpl; [done|]. rewrite IH. by destruct (im_get k m).
Qed.

Lemma im_insert_NoDup k v m : NoDup (map fst m) -> NoDup (map fst (im_insert k v m)).
Proof.
  intros Hm. rewrite im_insert_keys. unfold im_contains.
  destruct (im_get k m) eqn:E; [done|].
  apply im_get_None in E. apply NoDup_app. split_and!; [done| |apply NoDup_singleton].
  set_solver.
Qed.
Lemma im_In_get k v m : NoDup (map fst m) -> In (k, v) m -> im_get k m = Some v.
Proof.
  induction m as [|[k2 v2] m IH]; simpl; [done|].
  rewrite NoDup_cons. intros [Hk Hm] [[= -> ->]|Hin]; [by rewrite bool_decide_eq_true_2|].
  destruct (bool_decide_reflect (k = k2)) as [->|Hne]; [|by apply IH].
  destruct Hk. apply list_elem_of_In, in_map_iff. by exists (k2, v).
Qed.

Lemma im_contains_true k m : im_contains k m = true <-> In k (map fst m).
Proof.
  unfold im_contains. destruct (im_get k m) as [v|] eqn:E.
  - apply im_get_In in E. split; [|done]. intros _. apply in_map_iff. by exists (k, v).
  - apply im_get_None in E. rewrite list_elem_of_In in E. by split.
Qed.

Lemma im_contains_get k m : im_contains k m = true <-> exists v, im_get k m = Some v.
Proof. unfold im_contains. destruct (im_get k m); naive_solver. Qed.

(** Two maps of the same size whose first keys all occur in the second have the same keys. *)
Lemma im_keys_incl m m' :
  NoDup (map fst m) -> length m = length m' ->
  incl (map fst m) (map fst m') -> incl (map fst m') (map fst m).
Proof.
  intros Hm Hl Hi. apply NoDup_length_incl; [by apply NoDup_ListNoDup| |done].
  rewrite !length_map. lia.
Qed.

Lemma im_eqb_true f m m' :
  NoDup (map fst m) ->
  im_eqb f m m' = true <->
  length m = length m' /\
  forall k v, im_get k m = Some v -> exists v', im_get k m' = Some v' /\ f v v' = true.
Proof.
  intros Hm. unfold im_eqb. rewrite andb_true_iff, Nat.eqb_eq, forallb_forall.
  split; intros [Hl H]; (split; [done|]).
  - intros k v Hk%im_get_In. specialize (H _ Hk). simpl in H.
    destruct (im_get k m') as [v'|]; [eauto|done].
  - intros [k v] Hin%im_In_get; [|done]. destruct (H k v Hin) as (v' & E & Hv). simpl. by rewrite E.
Qed.
End IndexMap.

Create Rewrite HintDb kcl_rw.
#[export] Hint Rewrite @im_get_insert_eq : kcl_rw.
#[export] Hint Resolve im_insert_NoDup : kcl.

(** ** Byte strings ([str] is its UTF-8 encoding) *)

(** [starts_with] with a string pattern. *)
Fixpoint starts_with (p s : string) : bool :=
  match p, s with
  | EmptyString, _ => true
  | String c p', String d s' => bool_decide (c = d) && starts_with p' s'
  | String _ _, EmptyString => false
  end.

(** [s.contains(p)] with a string pattern. *)
Fixpoint str_contains (s p : string) : bool :=
  starts_with p s ||
  match s with
  | EmptyString => false
  | String _ s' => str_contains s' p
  end.

Fixpoint str_join (sep : string) (l : list string) : string :=
  match l with
  | [] => ""
  | [s] => s
  | s :: l' => s +:+ sep +:+ str_join sep l'
  end.

Section Strings.
Implicit Types (p q s : string) (c : Ascii.ascii).

(** [simpl] does not unfold stdpp's [+:+]; these are its equations. *)
Lemma str_app_cons c p q : String c p +:+ q = String c (p +:+ q).
Proof. reflexivity. Qed.

Lemma str_app_nil q : "" +:+ q = q.
Proof. reflexivity. Qed.

Lemma str_app_assoc p q s : (p +:+ q) +:+ s = p +:+ (q +:+ s).
Proof. induction p as [|c p IH]; [done|]. by rewrite !str_app_cons, IH. Qed.

Lemma str_app_nil_r p : p +:+ "" = p.
Proof. induction p as [|c p IH]; [done|]. by rewrite str_app_cons, IH. Qed.

Lemma starts_with_app p s : starts_with p (p +:+ s) = true.
Proof.
  induction p as [|c p IH]; [done|]. rewrite str_app_cons. simpl.
  by rewrite bool_decide_eq_true_2.
Qed.

Lemma starts_with_spec p s : starts_with p s = true <-> exists s', s = p +:+ s'.
Proof.
  split.
  - revert s. induction p as [|c p IH]; intros s; simpl; [by exists s|].
    destruct s as [|d s]; [done|].
    intros [->%bool_decide_eq_true_1 [s' ->]%IH]%andb_true_iff. by exists s'.
  - intros [s' ->]. apply starts_with_app.
Qed.

Lemma str_contains_eq s p :
  str_contains s p =
  starts_with p s || match s with EmptyString => false | String _ s' => str_contains s' p end.
Proof. by destruct s. Qed.

Lemma str_contains_spec s p :
  str_contains s p = true <-> exists s1 s2, s = s1 +:+ p +:+ s2.
Proof.
  split.
  - induction s as [|c s IH]; simpl; rewrite orb_true_iff, starts_with_spec.
    + intros [[s' Hs]|?]; [by exists "", s' | done].
    + intros [[s' ->]|(s1 & s2 & ->)%IH]; [by exists "", s' | by exists (String c s1), s2].
  - intros (s1 & s2 & ->).
    induction s1 as [|c s1 IH]; rewrite str_contains_eq, orb_true_iff.
    + left. rewrite str_app_nil. apply starts_with_app.
    + right. rewrite str_app_cons. exact IH.
Qed.
End Strings.

(** ** Finite strict orders *)

Section Maximal.
Context (n : nat) (R : nat -> nat -> Prop) `{!forall i j, Decision (R i j)}.
Context (R_irrefl : forall i, (i < n)%nat -> ~ R i i).
Context (R_trans : forall i j k,
  (i < n)%nat -> (j < n)%nat -> (k < n)%nat -> R i j -> R j k -> R i k).

Definition above (i : nat) : gset nat := filter (R i) (set_seq 0 n).

Lemma elem_of_above i j : j ∈ above i <-> R i j /\ (j < n)%nat.
Proof. unfold above. rewrite elem_of_filter, elem_of_set_seq. naive_solver lia. Qed.

(** Every index is a maximal one or below one. *)
Lemma below_maximal i :
  (i < n)%nat -> exists j, (j < n)%nat /\ (i = j \/ R i j) /\ forall k, (k < n)%nat -> ~ R j k.
Proof.
  remember (above i) as X eqn:EX. revert i EX.
  induction (set_wf X) as [X _ IH]. intros i -> Hi.
  destruct (decide (above i = ∅)) as [E|[j [Hij Hj]%elem_of_above]%set_choose_L].
  - exists i. split_and!; [done|by left|]. intros k Hk HR.
    assert (k ∈ above i) by (by apply elem_of_above). set_solver.
  - destruct (IH (above j)) with (i := j) as (m & Hm & Hjm & Hmax); [|done|done|].
    + split.
      * intros k [Hjk Hk]%elem_of_above. apply elem_of_above. eauto.
      * intros Hsub. assert (Hjj : j ∈ above j) by (by apply Hsub, elem_of_above).
        apply elem_of_above in Hjj as [Hjj _]. by apply (R_irrefl j).
    + exists m. split_and!; [done| |done]. right. destruct Hjm as [->|]; eauto.
Qed.
End Maximal.

(** ** Tactics of the development *)

(** Case analysis on the scrutinees of the matches of the goal, with equations. *)
Ltac break_match :=
  match goal with
  | |- context [match ?x with _ => _ end] =>
      lazymatch x with context [match _ with _ => _ end] => fail | _ => destruct x eqn:? end
  end.

(** The same for a hypothesis. *)
Ltac break_match_in H :=
  match type of H with
  | context [match ?x with _ => _ end] =>
      lazymatch x with context [match _ with _ => _ end] => fail | _ => destruct x eqn:? end
  end.

(** Take a monadic equation [m ≫= f = Ok b] apart. *)
Ltac inv_bind H :=
  let a := fresh "a" in let H1 := fresh H in
  apply bind_Ok_inv in H as (a & H1 & H).
