(* ===== verification/MachineInt.v ===== *)
(** * Machine integers

    Rust's [i64], [i32], [i128], [u32] and [usize] (64-bit targets) are [Z] with
    their range and wrap-around written out.  An arithmetic operator of the source
    ([a + b], [0 - a], ...) panics on overflow when the crate is built with overflow
    checks (debug profile) and wraps otherwise (release profile): the flag
    [overflow_checks] selects the build. *)

From S2P Require Import Prelude.

Definition i32_min : Z := - 2 ^ 31.
Definition i32_max : Z := 2 ^ 31 - 1.
Definition i64_min : Z := - 2 ^ 63.
Definition i64_max : Z := 2 ^ 63 - 1.
Definition u32_max : Z := 2 ^ 32 - 1.
Definition usize_max : Z := 2 ^ 64 - 1.
(** The length of an allocation. *)
Definition isize_max : Z := 2 ^ 63 - 1.

Definition in_i32 (z : Z) : bool := (i32_min <=? z) && (z <=? i32_max).
Definition in_i64 (z : Z) : bool := (i64_min <=? z) && (z <=? i64_max).

(** Two's complement truncation to [w] bits, signed and unsigned ([as] casts). *)
Definition wrap_s (w z : Z) : Z := (z + 2 ^ (w - 1)) mod 2 ^ w - 2 ^ (w - 1).
Definition wrap_u (w z : Z) : Z := z mod 2 ^ w.
Definition as_i32 : Z -> Z := wrap_s 32.
Definition as_i64 : Z -> Z := wrap_s 64.
Definition as_u32 : Z -> Z := wrap_u 32.
Definition as_usize : Z -> Z := wrap_u 64.

(** The [checked_*] methods of [i64] and [i32]: [None] when the result does not fit. *)
Definition check64 (z : Z) : option Z := if in_i64 z then Some z else None.
Definition check32 (z : Z) : option Z := if in_i32 z then Some z else None.

(** [checked_shl]/[checked_shr]: [None] only when the shift amount reaches the width;
    bits shifted out are lost. *)
Definition checked_shl (w a n : Z) : option Z :=
  if n <? w then Some (wrap_s w (Z.shiftl a n)) else None.
Definition checked_shr (w a n : Z) : option Z :=
  if n <? w then Some (Z.shiftr a n) else None.

(** [checked_div]: no result for a zero divisor or for [MIN / -1]. *)
Definition checked_div (check : Z -> option Z) (a b : Z) : option Z :=
  if b =? 0 then None else check (Z.quot a b).

Definition is_none_opt {A} (o : option A) : bool :=
  match o with None => true | Some _ => false end.

(** A plain [i64] operator whose exact result is [z]. *)
Definition arith64 (overflow_checks : bool) (z : Z) : outcome Z :=
  if in_i64 z then Ok z
  else if overflow_checks then Panic "attempt to compute with overflow"
  else Ok (as_i64 z).

(** [a / b] and [a % b] on [i64] panic on a zero divisor and on [MIN / -1], in every build. *)
Definition div64 (a b : Z) : outcome Z :=
  if b =? 0 then Panic "attempt to divide by zero"
  else if in_i64 (Z.quot a b) then Ok (Z.quot a b) else Panic "attempt to divide with overflow".
Definition rem64 (a b : Z) : outcome Z :=
  if b =? 0 then Panic "attempt to calculate the remainder with a divisor of zero"
  else if in_i64 (Z.quot a b) then Ok (Z.rem a b)
  else Panic "attempt to calculate the remainder with overflow".

Section Ranges.
Implicit Types z a b : Z.

Lemma in_i64_spec z : in_i64 z = true <-> i64_min <= z <= i64_max.
Proof. unfold in_i64. rewrite andb_true_iff. lia. Qed.

Lemma in_i64_false z : in_i64 z = false <-> z < i64_min \/ i64_max < z.
Proof. unfold in_i64. rewrite andb_false_iff. lia. Qed.

Lemma in_i32_spec z : in_i32 z = true <-> i32_min <= z <= i32_max.
Proof. unfold in_i32. rewrite andb_true_iff. lia. Qed.

Lemma wrap_s_range w z : 0 < w -> - 2 ^ (w - 1) <= wrap_s w z < 2 ^ (w - 1).
Proof.
  intros Hw. unfold wrap_s.
  assert (H2 : 2 ^ w = 2 * 2 ^ (w - 1)).
  { rewrite <- Z.pow_succ_r by lia. f_equal. lia. }
  pose proof (Z.mod_pos_bound (z + 2 ^ (w - 1)) (2 ^ w)). lia.
Qed.

Lemma wrap_s_id w z : 0 < w -> - 2 ^ (w - 1) <= z < 2 ^ (w - 1) -> wrap_s w z = z.
Proof.
  intros Hw Hz. unfold wrap_s.
  assert (H2 : 2 ^ w = 2 * 2 ^ (w - 1)).
  { rewrite <- Z.pow_succ_r by lia. f_equal. lia. }
  rewrite Z.mod_small; lia.
Qed.

Lemma as_i64_in z : in_i64 (as_i64 z) = true.
Proof.
  apply in_i64_spec. unfold i64_min, i64_max, as_i64.
  pose proof (wrap_s_range 64 z). lia.
Qed.

Lemma as_i64_id z : in_i64 z = true -> as_i64 z = z.
Proof.
  rewrite in_i64_spec. unfold i64_min, i64_max, as_i64. intros Hz. apply wrap_s_id; lia.
Qed.

Lemma as_i32_id z : in_i32 z = true -> as_i32 z = z.
Proof.
  rewrite in_i32_spec. unfold i32_min, i32_max, as_i32. intros Hz. apply wrap_s_id; lia.
Qed.

Lemma arith64_in oc z r : arith64 oc z = Ok r -> in_i64 r = true.
Proof.
  unfold arith64. destruct (in_i64 z) eqn:E; [by intros [= <-]|].
  destruct oc; [discriminate|]. intros [= <-]. apply as_i64_in.
Qed.

Lemma arith64_exact oc z : in_i64 z = true -> arith64 oc z = Ok z.
Proof. intros H. unfold arith64. by rewrite H. Qed.

Lemma i32_in_i64 z : in_i32 z = true -> in_i64 z = true.
Proof. rewrite in_i32_spec, in_i64_spec. unfold i32_min, i32_max, i64_min, i64_max. lia. Qed.
End Ranges.

#[export] Hint Resolve as_i64_in arith64_in arith64_exact i32_in_i64 : kcl.
