(* ===== verification/Floats.v ===== *)
(** * IEEE 754 doubles

    Rust's [f64] is the executable specification float of the standard library at
    precision 53 and maximal exponent 1024, so every float operation of the source
    that is modelled is computed and correctly rounded (to nearest, ties to even). *)

From S2P Require Import Prelude MachineInt.
From Stdlib Require Export SpecFloat.

Definition f64 := spec_float.
Definition f64_prec : Z := 53.
Definition f64_emax : Z := 1024.

Definition f64_add : f64 -> f64 -> f64 := SFadd f64_prec f64_emax.
Definition f64_sub : f64 -> f64 -> f64 := SFsub f64_prec f64_emax.
Definition f64_mul : f64 -> f64 -> f64 := SFmul f64_prec f64_emax.
Definition f64_div : f64 -> f64 -> f64 := SFdiv f64_prec f64_emax.
Definition f64_eqb : f64 -> f64 -> bool := SFeqb.
Definition f64_ltb : f64 -> f64 -> bool := SFltb.
Definition f64_leb : f64 -> f64 -> bool := SFleb.

Definition f64_zero : f64 := S754_zero false.

(** [m * 2 ^ e], rounded. *)
Definition f64_make (m e : Z) : f64 := binary_normalize f64_prec f64_emax m e false.

(** [z as f64] for an integer. *)
Definition f64_of_Z (z : Z) : f64 := f64_make z 0.

(** The integer part of a finite float (truncation toward zero), [None] on infinities
    and NaN. *)
Definition f64_trunc (x : f64) : option Z :=
  match x with
  | S754_zero _ => Some 0
  | S754_finite s m e =>
      let a := Z.shiftl (Zpos m) e in
      Some (if s then - a else a)
  | S754_infinity _ | S754_nan => None
  end.

(** [x as i64]: truncation, saturating at the bounds; NaN is 0. *)
Definition f64_as_i64 (x : f64) : Z :=
  match x with
  | S754_nan => 0
  | S754_infinity s => if s then i64_min else i64_max
  | _ => match f64_trunc x with
         | Some z => Z.max i64_min (Z.min i64_max z)
         | None => 0
         end
  end.

(** [x.floor()]. *)
Definition f64_floor (x : f64) : f64 :=
  match x with
  | S754_finite s m e =>
      if 0 <=? e then x
      else
        let q := Z.shiftr (if s then Zneg m else Zpos m) (- e) in
        if (q =? 0) then S754_zero s else f64_of_Z q
  | _ => x
  end.

(** [x % y]: the exact remainder of the truncated division, with the sign of [x]. *)
Definition f64_rem (x y : f64) : f64 :=
  match x, y with
  | S754_nan, _ | _, S754_nan | S754_infinity _, _ | _, S754_zero _ => S754_nan
  | _, S754_infinity _ => x
  | S754_zero _, _ => x
  | S754_finite sx mx ex, S754_finite _ my ey =>
      let e := Z.min ex ey in
      let r := Z.rem (Z.shiftl (Zpos mx) (ex - e)) (Z.shiftl (Zpos my) (ey - e)) in
      if r =? 0 then S754_zero sx else f64_make (if sx then - r else r) e
  end.

(** [f32::MAX as f64] = (2 - 2^-23) * 2^127 and its opposite. *)
Definition f32_max_as_f64 : f64 := f64_make (2 ^ 24 - 1) 104.
Definition f32_min_as_f64 : f64 := f64_make (- (2 ^ 24 - 1)) 104.

Definition f64_is_nan (x : f64) : bool := match x with S754_nan => true | _ => false end.

Section FloatFacts.
Implicit Types x y : f64.

Lemma f64_eqb_refl x : f64_is_nan x = false -> f64_eqb x x = true.
Proof.
  unfold f64_eqb, SFeqb. destruct x as [s|s| |s m e]; simpl; try (by destruct s); [done|].
  intros _. destruct s; rewrite Z.compare_refl, Pos.compare_cont_refl; done.
Qed.

Lemma f64_eqb_sym x y : f64_eqb x y = f64_eqb y x.
Proof.
  unfold f64_eqb, SFeqb. destruct x as [s|s| |s m e], y as [s'|s'| |s' m' e']; simpl;
    try (by destruct s); try (by destruct s'); try (by destruct s, s'); try done.
  change (Pos.compare_cont Eq m' m) with (Pos.compare m' m).
  change (Pos.compare_cont Eq m m') with (Pos.compare m m').
  rewrite (Z.compare_antisym e e'), (Pos.compare_antisym m m').
  destruct s, s', (Z.compare e e'), (Pos.compare m m'); reflexivity.
Qed.
Lemma f64_eqb_true x y :
  f64_eqb x y = true <->
  (x = y /\ f64_is_nan x = false) \/ (exists s s', x = S754_zero s /\ y = S754_zero s').
Proof.
  split.
  - unfold f64_eqb, SFeqb. destruct x as [s|s| |s m e], y as [s'|s'| |s' m' e']; simpl;
      try (by destruct s); try (by destruct s'); try (by destruct s, s'); try done.
    + intros _. right. eauto.
    + destruct s, s'; try done; intros _; by left.
    + destruct s, s'; try done; destruct (Z.compare_spec e e') as [->| |]; try done;
        change (Pos.compare_cont Eq m m') with (Pos.compare m m');
        destruct (Pos.compare_spec m m') as [->| |]; try done; intros _; by left.
  - intros [[-> Hn]|(s & s' & -> & ->)]; [by apply f64_eqb_refl|done].
Qed.

Lemma f64_eqb_trans x y z : f64_eqb x y = true -> f64_eqb y z = true -> f64_eqb x z = true.
Proof.
  rewrite !f64_eqb_true.
  intros [[-> Hn]|(s & s' & -> & ->)] [[<- Hm]|(t & t' & E & ->)]; [by left| | |].
  - right. eauto.
  - right. eauto.
  - right. eauto.
Qed.

Lemma SFcompare_antisym x y :
  SFcompare y x = option_map CompOpp (SFcompare x y).
Proof.
  destruct x as [s|s| |s m e], y as [s'|s'| |s' m' e']; simpl;
    try (by destruct s); try (by destruct s'); try (by destruct s, s'); try done.
  change (Pos.compare_cont Eq m' m) with (Pos.compare m' m).
  change (Pos.compare_cont Eq m m') with (Pos.compare m m').
  rewrite (Z.compare_antisym e e'), (Pos.compare_antisym m m').
  by destruct s, s', (Z.compare e e'), (Pos.compare m m').
Qed.

Lemma SFcompare_total x y :
  f64_is_nan x = false -> f64_is_nan y = false -> exists c, SFcompare x y = Some c.
Proof. destruct x, y; simpl; try discriminate; eauto. Qed.

(** Without NaN the comparisons are those of one total order. *)
Lemma f64_leb_ltb_eqb x y : f64_leb x y = f64_ltb x y || f64_eqb x y.
Proof. unfold f64_leb, f64_ltb, f64_eqb, SFleb, SFltb, SFeqb. by destruct (SFcompare x y) as [[]|]. Qed.

Lemma f64_leb_antisym x y :
  f64_is_nan x = false -> f64_is_nan y = false -> f64_leb y x = negb (f64_ltb x y).
Proof.
  intros Hx Hy. destruct (SFcompare_total x y Hx Hy) as [c E].
  unfold f64_leb, f64_ltb, SFleb, SFltb. rewrite SFcompare_antisym, E. by destruct c.
Qed.

Lemma f64_ltb_neq x y : f64_ltb x y = true -> f64_eqb x y = false.
Proof. unfold f64_ltb, f64_eqb, SFltb, SFeqb. by destruct (SFcompare x y) as [[]|]. Qed.

(** Rounding never produces NaN from an integer. *)
Definition shr_nonneg (r : shr_record) : Prop := 0 <= shr_m r.

Lemma iter_pos_inv {A} (P : A -> Prop) (f : A -> A) n a :
  (forall b, P b -> P (f b)) -> P a -> P (iter_pos f n a).
Proof. intros Hf. revert a. induction n as [n IH|n IH|]; intros a Ha; simpl; auto. Qed.

Lemma shr_1_nonneg r : shr_nonneg r -> shr_nonneg (shr_1 r).
Proof. unfold shr_nonneg. destruct r as [[|[]|] ? ?]; simpl; try lia. Qed.

Lemma shr_fexp_nonneg m e l : 0 <= m -> shr_nonneg (fst (shr_fexp f64_prec f64_emax m e l)).
Proof.
  intros Hm. unfold shr_fexp, shr.
  assert (H0 : shr_nonneg (shr_record_of_loc m l)).
  { unfold shr_nonneg. by destruct l as [|[]]. }
  destruct (_ - _); simpl; [done| |done].
  apply iter_pos_inv; [apply shr_1_nonneg|done].
Qed.

Lemma binary_round_aux_nan s m e l :
  0 <= m -> f64_is_nan (binary_round_aux f64_prec f64_emax s m e l) = false.
Proof.
  intros Hm. unfold binary_round_aux.
  pose proof (shr_fexp_nonneg m e l Hm) as H1.
  destruct (shr_fexp f64_prec f64_emax m e l) as [r e1]. simpl in H1. unfold shr_nonneg in H1.
  set (m2 := round_nearest_even _ _).
  assert (H2 : 0 <= m2).
  { unfold m2, round_nearest_even. destruct (loc_of_shr_record r) as [|[]];
      try destruct (Z.even _); lia. }
  pose proof (shr_fexp_nonneg m2 e1 loc_Exact H2) as H3.
  destruct (shr_fexp f64_prec f64_emax m2 e1 loc_Exact) as [r' e2]. simpl in H3.
  unfold shr_nonneg in H3. destruct (shr_m r'); simpl; [done| |lia].
  by destruct (e2 <=? _).
Qed.

Lemma f64_of_Z_not_nan z : f64_is_nan (f64_of_Z z) = false.
Proof.
  unfold f64_of_Z, f64_make, binary_normalize, binary_round.
  destruct z as [|p|p]; [done| |]; destruct (shl_align _ _ _); by apply binary_round_aux_nan.
Qed.

(** Integers of at most 53 bits are converted exactly. *)
Lemma digits2_iter_xO p d : Zpos (digits2_pos (Pos.iter xO p d)) = Zpos (digits2_pos p) + Zpos d.
Proof.
  induction d as [|d IH] using Pos.peano_ind; simpl; [lia|].
  rewrite Pos.iter_succ. simpl. lia.
Qed.

Lemma iter_xO_value p d : Zpos (Pos.iter xO p d) = Zpos p * 2 ^ Zpos d.
Proof.
  induction d as [|d IH] using Pos.peano_ind; simpl; [lia|].
  rewrite Pos.iter_succ, Pos2Z.inj_xO, IH, Pos2Z.inj_succ, Z.pow_succ_r by lia. lia.
Qed.

Lemma digits2_bound p n : 0 <= n -> Zpos p < 2 ^ n -> Zpos (digits2_pos p) <= n.
Proof.
  revert n. induction p as [p IH|p IH|]; intros n Hn Hp; simpl.
  - assert (Hn1 : 1 <= n) by (destruct (decide (n = 0)) as [->|]; simpl in *; lia).
    specialize (IH (n - 1)). replace n with (Z.succ (n - 1)) in Hp by lia.
    rewrite Z.pow_succ_r in Hp by lia. lia.
  - assert (Hn1 : 1 <= n) by (destruct (decide (n = 0)) as [->|]; simpl in *; lia).
    specialize (IH (n - 1)). replace n with (Z.succ (n - 1)) in Hp by lia.
    rewrite Z.pow_succ_r in Hp by lia. lia.
  - destruct (decide (n = 0)) as [->|]; simpl in *; lia.
Qed.

Lemma binary_round_aux_exact s m e :
  f64_emax - f64_prec >= e -> 3 - f64_emax - f64_prec <= e ->
  Zpos (digits2_pos m) = f64_prec ->
  binary_round_aux f64_prec f64_emax s (Zpos m) e loc_Exact = S754_finite s m e.
Proof.
  intros He1 He2 Hm. unfold binary_round_aux, shr_fexp, fexp, emin. cbn [Zdigits2].
  rewrite Hm. replace (Z.max _ _ - e) with 0 by lia. simpl.
  rewrite Hm. replace (Z.max _ _ - e) with 0 by lia. simpl.
  by rewrite (proj2 (Z.leb_le _ _)) by lia.
Qed.

Lemma binary_round_exact s p :
  Zpos p < 2 ^ 53 ->
  exists m e, binary_round f64_prec f64_emax s p 0 = S754_finite s m e /\
    e <= 0 /\ Zpos m = Zpos p * 2 ^ (- e).
Proof.
  intros Hp. pose proof (digits2_bound p 53 ltac:(lia) Hp) as Hd.
  unfold binary_round, fexp, emin, f64_prec, f64_emax.
  replace (Z.max _ _) with (Zpos (digits2_pos p) - 53) by lia. unfold shl_align.
  rewrite Z.sub_0_r. destruct (Zpos (digits2_pos p) - 53) as [|d|d] eqn:E; [|lia|].
  - exists p, 0. split_and!; [|lia|lia].
    apply (binary_round_aux_exact s p 0); unfold f64_prec, f64_emax; lia.
  - exists (Pos.iter xO p d), (Zneg d). split_and!; [|lia|apply iter_xO_value].
    apply binary_round_aux_exact; unfold f64_prec, f64_emax; rewrite ?digits2_iter_xO; lia.
Qed.

Lemma f64_trunc_of_Z z : - 2 ^ 53 < z < 2 ^ 53 -> f64_trunc (f64_of_Z z) = Some z.
Proof.
  intros Hz. unfold f64_of_Z, f64_make, binary_normalize.
  assert (Hsh : forall m e p, e <= 0 -> Zpos m = Zpos p * 2 ^ (- e) -> Z.shiftl (Zpos m) e = Zpos p).
  { intros m e p He ->. replace e with (- (- e)) at 2 by lia.
    rewrite Z.shiftl_opp_r, Z.shiftr_div_pow2 by lia. apply Z.div_mul. lia. }
  destruct z as [|p|p]; [done| |].
  - destruct (binary_round_exact false p) as (m & e & -> & He & Hm); [lia|].
    cbn [f64_trunc]. by rewrite (Hsh m e p).
  - destruct (binary_round_exact true p) as (m & e & -> & He & Hm); [lia|].
    cbn [f64_trunc]. by rewrite (Hsh m e p).
Qed.

Lemma f64_eqb_trunc x y : f64_eqb x y = true -> f64_trunc x = f64_trunc y.
Proof. rewrite f64_eqb_true. by intros [[-> _]|(?&?&->&->)]. Qed.

Lemma f64_of_Z_inj a b :
  - 2 ^ 53 < a < 2 ^ 53 -> - 2 ^ 53 < b < 2 ^ 53 -> f64_eqb (f64_of_Z a) (f64_of_Z b) = true -> a = b.
Proof. intros Ha Hb E%f64_eqb_trunc. rewrite !f64_trunc_of_Z in E by lia. by injection E. Qed.
End FloatFacts.

(** ** Decimal rendering

    Rust prints the shortest digit string that reads back as the same float, the
    closest one to the exact value when several have that length.  [f64_digits] searches
    for it: the value is [0.d1...dn * 10^k].  Seventeen digits always suffice for a
    double. *)

Definition z_digits (z : Z) : string := pretty (Z.to_N z).

Fixpoint str_zeros (n : nat) : string :=
  match n with O => "" | S n' => "0" +:+ str_zeros n' end.

(** The decimal exponent [k] with [10^(k-1) <= num/den < 10^k]. *)
Fixpoint small_exponent (fuel : nat) (num den : Z) (k : Z) : Z :=
  match fuel with
  | O => k
  | S f => if num * 10 <? den then small_exponent f (num * 10) den (k - 1) else k
  end.

Definition decimal_exponent (num den : Z) : Z :=
  if den <=? num then Z.of_nat (String.length (z_digits (num / den)))
  else small_exponent 400 num den 0.

(** Does [d * 10^t] round to the float [m * 2^e]?  The rounding interval of the float
    closes at the midpoints when the mantissa is even. *)
Definition reads_back (m e d t : Z) : bool :=
  let lower_num := if (m =? 2 ^ 52) && (-1074 <? e) then 4 * m - 1 else 4 * m - 2 in
  let upper_num := 4 * m + 2 in
  let scale2 x := if 0 <=? e - 2 then x * 2 ^ (e - 2) else x in
  let den2 := if 0 <=? e - 2 then 1 else 2 ^ (2 - e) in
  let dnum := if 0 <=? t then d * 10 ^ t else d in
  let dden := if 0 <=? t then 1 else 10 ^ (- t) in
  let le a b := if Z.even m then a <=? b else a <? b in
  le (scale2 lower_num * dden) (dnum * den2) && le (dnum * den2) (scale2 upper_num * dden).

Fixpoint shortest (fuel : nat) (n : Z) (m e num den k : Z) : Z * Z :=
  let t := k - n in
  let snum := if 0 <=? t then num else num * 10 ^ (- t) in
  let sden := if 0 <=? t then den * 10 ^ t else den in
  let d := snum / sden in
  let r := snum mod sden in
  let lo := reads_back m e d t in
  let hi := reads_back m e (d + 1) t in
  match fuel with
  | O => (d, t)
  | S f =>
      if lo && (negb hi || (2 * r <=? sden)) then (d, t)
      else if hi then (d + 1, t)
      else shortest f (n + 1) m e num den k
  end.

(** The digits and the exponent [t]: the value prints as [digits * 10^t]. *)
Definition f64_digits (m : positive) (e : Z) : string * Z :=
  let num := if 0 <=? e then Zpos m * 2 ^ e else Zpos m in
  let den := if 0 <=? e then 1 else 2 ^ (- e) in
  let '(d, t) := shortest 17 1 (Zpos m) e num den (decimal_exponent num den) in
  (z_digits d, t).

Definition sign_str (s : bool) : string := if s then "-" else "".

(** [format!("{}", x)]: never an exponent, no fraction for integral values. *)
Definition f64_display (x : f64) : string :=
  match x with
  | S754_nan => "NaN"
  | S754_infinity s => sign_str s +:+ "inf"
  | S754_zero s => sign_str s +:+ "0"
  | S754_finite s m e =>
      let '(ds, t) := f64_digits m e in
      let n := Z.of_nat (String.length ds) in
      sign_str s +:+
      (if 0 <=? t then ds +:+ str_zeros (Z.to_nat t)
       else if 0 <? n + t then
         String.substring 0 (Z.to_nat (n + t)) ds +:+ "." +:+
         String.substring (Z.to_nat (n + t)) (Z.to_nat (- t)) ds
       else "0." +:+ str_zeros (Z.to_nat (- (n + t))) +:+ ds)
  end.

(** [format!("{:e}", x)]: one digit before the point, then the exponent. *)
Definition f64_lower_exp (x : f64) : string :=
  match x with
  | S754_nan => "NaN"
  | S754_infinity s => sign_str s +:+ "inf"
  | S754_zero s => sign_str s +:+ "0e0"
  | S754_finite s m e =>
      let '(ds, t) := f64_digits m e in
      let n := Z.of_nat (String.length ds) in
      sign_str s +:+ String.substring 0 1 ds +:+
      (if 1 <? n then "." +:+ String.substring 1 (String.length ds - 1) ds else "") +:+
      "e" +:+ pretty (n + t - 1)
  end.

Example f64_display_ex :
  f64_display <$>
    [f64_of_Z 1; f64_make 5 (-1); f64_div (f64_of_Z (-1)) (f64_of_Z 10);
     f64_div (f64_of_Z 2) (f64_of_Z 3); f64_of_Z (10 ^ 22); f64_make 1 (-44)]
  = ["1"; "2.5"; "-0.1"; "0.6666666666666666"; "10000000000000000000000";
     "0.00000000000005684341886080802"].
Proof. vm_compute. reflexivity. Qed.

(** ** Reading decimals

    [str::parse::<f64>()] rounds the exact value of the decimal to the nearest double. *)
Definition f64_of_decimal (neg : bool) (digits exp10 : Z) : f64 :=
  match digits with
  | Zpos m =>
      if 0 <=? exp10 then binary_normalize f64_prec f64_emax (if neg then - (Zpos m * 10 ^ exp10) else Zpos m * 10 ^ exp10) 0 neg
      else
        let '(mz, ez, lz) := SFdiv_core_binary f64_prec f64_emax (Zpos m) 0 (10 ^ (- exp10)) 0 in
        binary_round_aux f64_prec f64_emax neg mz ez lz
  | _ => S754_zero neg
  end.
Example f64_of_decimal_ex :
  map f64_display [f64_of_decimal false 15 (-1); f64_of_decimal true 1 (-1); f64_of_decimal false 123456789 3] =
    ["1.5"; "-0.1"; "123456789000"].
Proof. vm_compute. done. Qed.
