(* ===== verification/State.v ===== *)
(** * State passing with panics

    Methods that take [&mut self] are functions from the state to an outcome of a result
    and the new state. *)

From S2P Require Import Prelude MachineInt.

Definition st (S A : Type) : Type := S -> outcome (A * S).

#[export] Instance st_ret {S} : MRet (st S) := fun A a s => Ok (a, s).
#[export] Instance st_bind {S} : MBind (st S) :=
  fun A B f m s => match m s with Ok (a, s') => f a s' | Panic e => Panic e end.

(** Read through a function of the state, run a state update, panic, lift an outcome. *)
Definition gets {S A} (f : S -> A) : st S A := fun s => Ok (f s, s).
Definition modify {S} (f : S -> S) : st S unit := fun s => Ok (tt, f s).
Definition panic {S A} (e : string) : st S A := fun _ => Panic e.
Definition lift {S A} (o : outcome A) : st S A :=
  fun s => match o with Ok a => Ok (a, s) | Panic e => Panic e end.
Definition when {S} (b : bool) (m : st S unit) : st S unit :=
  if b then m else mret tt.

(** [debug_assert!]: evaluated in debug builds only. *)
Definition debug_assert {S} (debug_assertions : bool) (p : S -> bool) : st S unit :=
  fun s => if debug_assertions && negb (p s) then Panic "assertion failed" else Ok (tt, s).

Section St.
Context {S A B : Type}.
Implicit Types (m : st S A) (f : A -> st S B) (s : S).

Lemma st_bind_ok m f s a s' : m s = Ok (a, s') -> (m ≫= f) s = f a s'.
Proof. intros H. unfold mbind, st_bind. by rewrite H. Qed.

Lemma st_bind_inv m f s b s'' :
  (m ≫= f) s = Ok (b, s'') -> exists a s', m s = Ok (a, s') /\ f a s' = Ok (b, s'').
Proof.
  unfold mbind, st_bind. destruct (m s) as [[a s']|e]; [eauto|discriminate].
Qed.

Lemma debug_assert_ok d (p : S -> bool) s : p s = true -> debug_assert d p s = Ok (tt, s).
Proof. intros Hp. unfold debug_assert. by rewrite Hp, andb_false_r. Qed.
End St.

(** Run one step of a state computation whose result is known. *)
Ltac st_step H := rewrite (st_bind_ok _ _ _ _ _ H).

(** ** Weakest preconditions: the computation returns, and its result and final state
    satisfy the postcondition. *)

Definition wp {S A} (m : st S A) (s : S) (Q : A -> S -> Prop) : Prop :=
  match m s with Ok (a, s') => Q a s' | Panic _ => False end.

Section Wp.
Context {S A B : Type}.
Implicit Types (m : st S A) (f : A -> st S B) (s : S) (Q : A -> S -> Prop) (R : B -> S -> Prop).

Lemma wp_bind m f s R : wp m s (fun a s' => wp (f a) s' R) -> wp (m ≫= f) s R.
Proof. unfold wp, mbind, st_bind. by destruct (m s) as [[a s']|e]. Qed.

Lemma wp_ret (a : A) s Q : Q a s -> wp (mret a) s Q.
Proof. done. Qed.

Lemma wp_gets (g : S -> A) s Q : Q (g s) s -> wp (gets g) s Q.
Proof. done. Qed.

Lemma wp_modify (g : S -> S) s (Q : unit -> S -> Prop) : Q tt (g s) -> wp (modify g) s Q.
Proof. done. Qed.

Lemma wp_debug_assert d (p : S -> bool) s (Q : unit -> S -> Prop) :
  p s = true -> Q tt s -> wp (debug_assert d p) s Q.
Proof. intros Hp HQ. unfold wp. by rewrite debug_assert_ok. Qed.

Lemma wp_mono m s Q (Q' : A -> S -> Prop) :
  wp m s Q -> (forall a s', Q a s' -> Q' a s') -> wp m s Q'.
Proof. unfold wp. destruct (m s) as [[a s']|e]; auto. Qed.

Lemma wp_ok m s Q : wp m s Q <-> exists a s', m s = Ok (a, s') /\ Q a s'.
Proof.
  unfold wp. destruct (m s) as [[a s']|e]; split; [eauto|naive_solver|done|naive_solver].
Qed.
End Wp.

(** Symbolic execution of the combinators at the head of a [wp]. *)
Ltac wp_step :=
  lazymatch goal with
  | |- wp (mbind _ _) _ _ => apply wp_bind
  | |- wp (mret _) _ _ => apply wp_ret
  | |- wp (gets _) _ _ => apply wp_gets
  | |- wp (modify _) _ _ => apply wp_modify
  | |- wp (if ?b then _ else _) _ _ => destruct b eqn:?
  end.
