(* ===== verification/Chars.v ===== *)
(** * Characters and UTF-8 text

    A [char] is its code point; a [&str] is the list of its characters.  Byte offsets into
    a text are sums of encoded lengths, and slicing at an offset that is not on a character
    boundary panics, as in Rust.  The Unicode tables live in external crates: they are the
    parameter [UnicodeTables]. *)

From Stdlib Require Export Ascii.
From S2P Require Import Prelude MachineInt.

Definition char := Z.
Definition text := list char.

(** The code point of an ASCII literal. *)
Definition ch (c : Ascii.ascii) : char := Z.of_N (Ascii.N_of_ascii c).
Arguments ch c%_char.

Definition is_ascii (c : char) : bool := (0 <=? c) && (c <? 128).
Definition in_range (lo c hi : char) : bool := (lo <=? c) && (c <=? hi).
Definition is_digit10 (c : char) : bool := in_range (ch "0") c (ch "9").

(** [char::len_utf8]. *)
Definition len_utf8 (c : char) : Z :=
  if c <? 128 then 1 else if c <? 2048 then 2 else if c <? 65536 then 3 else 4.

(** [str::len]: the number of bytes. *)
Definition str_len (s : text) : Z := foldr (fun c n => len_utf8 c + n) 0 s.

(** [&s[n..]] and [&s[..n]]. *)
Fixpoint drop_bytes (n : Z) (s : text) : outcome text :=
  if n =? 0 then Ok s
  else match s with
       | [] => Panic "byte index out of bounds"
       | c :: s' =>
           if n <? len_utf8 c then Panic "byte index is not a char boundary"
           else drop_bytes (n - len_utf8 c) s'
       end.

Fixpoint take_bytes (n : Z) (s : text) : outcome text :=
  if n =? 0 then Ok []
  else match s with
       | [] => Panic "byte index out of bounds"
       | c :: s' =>
           if n <? len_utf8 c then Panic "byte index is not a char boundary"
           else t ← take_bytes (n - len_utf8 c) s'; Ok (c :: t)
       end.

(** [&s[a..b]]. *)
Definition slice (a b : Z) (s : text) : outcome text :=
  if b <? a then Panic "slice index starts after its end"
  else t ← drop_bytes a s; take_bytes (b - a) t.

(** [char::to_digit]. *)
Definition to_digit (radix : Z) (c : char) : option Z :=
  let d := if in_range (ch "0") c (ch "9") then c - ch "0"
           else if in_range (ch "a") c (ch "z") then c - ch "a" + 10
           else if in_range (ch "A") c (ch "Z") then c - ch "A" + 10
           else radix in
  if d <? radix then Some d else None.

(** [char::from_u32]: surrogates and values past the last code point are no characters. *)
Definition char_from_u32 (n : Z) : option char :=
  if (in_range 55296 n 57343) || (1114111 <? n) then None else Some n.

(** The characters of an ASCII literal. *)
Definition txt (s : string) : text := map ch (String.list_ascii_of_string s).

Class UnicodeTables := {
  is_id_start : char -> bool;
  is_id_continue : char -> bool;
  is_emoji : char -> bool;
  character_by_name : text -> option char;
}.

(** What the tables say of ASCII: identifiers are made of letters, digits and [_]. *)
Class UnicodeLaws (U : UnicodeTables) : Prop := {
  id_start_ascii : forall c, is_ascii c = true ->
    is_id_start c = in_range (ch "a") c (ch "z") || in_range (ch "A") c (ch "Z") || (c =? ch "_");
  id_continue_ascii : forall c, is_ascii c = true ->
    is_id_continue c = is_id_start c || is_digit10 c;
  id_start_continue : forall c, is_id_start c = true -> is_id_continue c = true;
}.

(** An instance without any identifier or emoji outside ASCII. *)
Definition ascii_id_start (c : char) : bool :=
  in_range (ch "a") c (ch "z") || in_range (ch "A") c (ch "Z") || (c =? ch "_").
Definition ascii_tables : UnicodeTables := {|
  is_id_start := ascii_id_start;
  is_id_continue := fun c => ascii_id_start c || is_digit10 c;
  is_emoji := fun _ => false;
  character_by_name := fun _ => None;
|}.

#[export] Instance ascii_tables_laws : UnicodeLaws ascii_tables.
Proof.
  split; [reflexivity..|]. intros c Hc. simpl in *. by rewrite Hc.
Qed.

Section Texts.
Implicit Types (c : char) (s t : text).

Lemma len_utf8_pos c : 1 <= len_utf8 c <= 4.
Proof. unfold len_utf8. repeat case_match; lia. Qed.

Lemma str_len_nonneg s : 0 <= str_len s.
Proof. induction s as [|c s IH]; simpl; [lia|]. pose proof (len_utf8_pos c). lia. Qed.

Lemma str_len_cons c s : str_len (c :: s) = len_utf8 c + str_len s.
Proof. done. Qed.

Lemma str_len_app s t : str_len (s ++ t) = str_len s + str_len t.
Proof. induction s as [|c s IH]; simpl; [done|]. rewrite IH. lia. Qed.

Lemma str_len_nil_inv s : str_len s = 0 -> s = [].
Proof.
  destruct s as [|c s]; [done|]. simpl. pose proof (len_utf8_pos c).
  pose proof (str_len_nonneg s). lia.
Qed.

Lemma str_len_pos s : s <> [] -> 1 <= str_len s.
Proof.
  destruct s as [|c s]; [done|]. simpl. pose proof (len_utf8_pos c).
  pose proof (str_len_nonneg s). lia.
Qed.

Lemma drop_bytes_app s t : drop_bytes (str_len s) (s ++ t) = Ok t.
Proof.
  induction s as [|c s IH]; simpl; [by destruct t|].
  pose proof (len_utf8_pos c). pose proof (str_len_nonneg s).
  rewrite (proj2 (Z.eqb_neq _ _)), (proj2 (Z.ltb_ge _ _)) by lia.
  by replace (len_utf8 c + str_len s - len_utf8 c) with (str_len s) by lia.
Qed.

Lemma take_bytes_app s t : take_bytes (str_len s) (s ++ t) = Ok s.
Proof.
  induction s as [|c s IH]; simpl; [by destruct t|].
  pose proof (len_utf8_pos c). pose proof (str_len_nonneg s).
  rewrite (proj2 (Z.eqb_neq _ _)), (proj2 (Z.ltb_ge _ _)) by lia.
  replace (len_utf8 c + str_len s - len_utf8 c) with (str_len s) by lia. by rewrite IH.
Qed.

Lemma slice_app s t u a b :
  a = str_len s -> b = a + str_len t -> slice a b (s ++ t ++ u) = Ok t.
Proof.
  intros -> ->. unfold slice. pose proof (str_len_nonneg t).
  rewrite (proj2 (Z.ltb_ge _ _)), drop_bytes_app by lia. simpl.
  replace (str_len s + str_len t - str_len s) with (str_len t) by lia.
  apply take_bytes_app.
Qed.
End Texts.

(** ** The [Debug] form of strings *)

(** What is printed as it is by the [Debug] form, beyond ASCII. *)
Class DebugTables := { debug_printable : char -> bool }.

Definition hex_digit (d : Z) : char := if d <? 10 then ch "0" + d else ch "a" + (d - 10).
Fixpoint hex_digits (fuel : nat) (z : Z) (acc : text) : text :=
  match fuel with
  | O => acc
  | S fuel' =>
      let acc := hex_digit (z mod 16) :: acc in
      if z <? 16 then acc else hex_digits fuel' (z / 16) acc
  end.

Section Debug.
Context `{DebugTables}.

(** [format!("{:?}", s)] for a string. *)
Definition debug_char (c : char) : text :=
  if c =? 0 then txt "\0" else if c =? 9 then txt "\t" else if c =? 10 then txt "\n"
  else if c =? 13 then txt "\r" else if (c =? 34) || (c =? ch "\") then [ch "\"; c]
  else if (if is_ascii c then in_range 32 c 126 else debug_printable c) then [c]
  else txt "\u{" ++ hex_digits 8 c [] ++ [ch "}"].
Definition debug_str (s : text) : text := 34 :: flat_map debug_char s ++ [34].
End Debug.

(** Only ASCII is printable. *)
#[export] Instance ascii_debug : DebugTables := {| debug_printable := fun _ => false |}.
