(* ===== verification/TypeData.v ===== *)
(** * Types of the semantic model: data, flags, constructors and strings

    Models [kclvm/sema/src/ty/{mod,constants,constructor,into}.rs]: the [Type] value
    (a kind, an alias mark and a word of flags that caches the kind), the constructors
    that build it, the predicates that read the flags, the downcasts that panic on the
    wrong kind, and the two renderings of a type.  The invariant is [wf_ty]: the flags
    of every type reachable through lists, dicts and unions are the ones its kind
    determines.  Every constructor establishes it, and under it no downcast guarded by
    its flag test can panic. *)

From S2P Require Import Prelude MachineInt Floats.

(** ** Data *)

Record position := mkPosition {
  filename : string;
  line : Z;
  column : option Z
}.

Definition dummy_pos : position :=
  {| filename := ""; line := 1; column := None |}.

Inductive ModuleKind := User | System | Plugin.

Record module_type := mkModuleType {
  mod_pkgpath : string;
  imported : list string;
  mod_kind : ModuleKind
}.

Inductive DecoratorTarget := DSchema | DAttribute.

Record decorator := mkDecorator {
  target : DecoratorTarget;
  dec_name : string;
  dec_key : string
}.

Record number_multiplier_type := mkNumberMultiplier {
  nm_value : f64;
  raw_value : Z;
  binary_suffix : string;
  is_literal_nm : bool
}.

#[local] Unset Elimination Schemes.

Inductive type_kind :=
| KNone
| KAny
| KBool
| KBoolLit (b : bool)
| KInt
| KIntLit (n : Z)
| KFloat
| KFloatLit (x : f64)
| KStr
| KStrLit (s : string)
| KList (item_ty : ty)
| KDict (key_ty val_ty : ty)
| KUnion (types : list ty)
| KSchema (schema : schema_type)
| KNumberMultiplier (nm : number_multiplier_type)
| KFunction (func : function_type)
| KVoid
| KModule (m : module_type)
| KNamed (name : string)

with ty := mkType (kind : type_kind) (is_type_alias : bool) (flags : Z)

with schema_type := mkSchemaType
  (name pkgpath filename doc : string)
  (is_instance is_mixin is_protocol is_rule : bool)
  (base protocol : option schema_type)
  (mixins : list schema_type)
  (attrs : list (string * schema_attr))
  (func : function_type)
  (index_signature : option schema_index_signature)
  (decorators : list decorator)

with schema_attr := mkSchemaAttr
  (is_optional has_default : bool) (attr_ty : ty) (pos : position) (attr_doc : option string)

with schema_index_signature := mkIndexSignature
  (key_name : option string) (is_key_ty is_val_ty : ty) (any_other : bool)

with function_type := mkFunctionType
  (fn_doc : string) (params : list parameter) (self_ty : option ty) (return_ty : ty)
  (is_variadic : bool) (kw_only_index : option Z)

with parameter := mkParameter (p_name : string) (p_ty : ty) (p_has_default : bool).

#[local] Set Elimination Schemes.

Definition kind (t : ty) : type_kind := let 'mkType k _ _ := t in k.
Definition is_type_alias (t : ty) : bool := let 'mkType _ a _ := t in a.
Definition flags (t : ty) : Z := let 'mkType _ _ f := t in f.

Definition sch_name (s : schema_type) : string :=
  let 'mkSchemaType n _ _ _ _ _ _ _ _ _ _ _ _ _ _ := s in n.
Definition sch_pkgpath (s : schema_type) : string :=
  let 'mkSchemaType _ p _ _ _ _ _ _ _ _ _ _ _ _ _ := s in p.
Definition sch_is_instance (s : schema_type) : bool :=
  let 'mkSchemaType _ _ _ _ i _ _ _ _ _ _ _ _ _ _ := s in i.
Definition sch_base (s : schema_type) : option schema_type :=
  let 'mkSchemaType _ _ _ _ _ _ _ _ b _ _ _ _ _ _ := s in b.
Definition sch_protocol (s : schema_type) : option schema_type :=
  let 'mkSchemaType _ _ _ _ _ _ _ _ _ p _ _ _ _ _ := s in p.
Definition sch_attrs (s : schema_type) : list (string * schema_attr) :=
  let 'mkSchemaType _ _ _ _ _ _ _ _ _ _ _ a _ _ _ := s in a.
Definition sch_index_signature (s : schema_type) : option schema_index_signature :=
  let 'mkSchemaType _ _ _ _ _ _ _ _ _ _ _ _ _ i _ := s in i.
Definition sch_with_attrs (s : schema_type) (a : list (string * schema_attr)) : schema_type :=
  let 'mkSchemaType n p f d i m pr r b po mi _ fn ix de := s in
  mkSchemaType n p f d i m pr r b po mi a fn ix de.
Definition sch_with_name (s : schema_type) (n : string) : schema_type :=
  let 'mkSchemaType _ p f d i m pr r b po mi a fn ix de := s in
  mkSchemaType n p f d i m pr r b po mi a fn ix de.
Definition sch_with_instance (s : schema_type) (i : bool) : schema_type :=
  let 'mkSchemaType n p f d _ m pr r b po mi a fn ix de := s in
  mkSchemaType n p f d i m pr r b po mi a fn ix de.

Definition attr_ty (a : schema_attr) : ty := let 'mkSchemaAttr _ _ t _ _ := a in t.
Definition attr_with_ty (a : schema_attr) (t : ty) : schema_attr :=
  let 'mkSchemaAttr o d _ p c := a in mkSchemaAttr o d t p c.
Definition is_key_ty (i : schema_index_signature) : ty :=
  let 'mkIndexSignature _ k _ _ := i in k.
Definition is_val_ty (i : schema_index_signature) : ty :=
  let 'mkIndexSignature _ _ v _ := i in v.

(** ** Type flags *)

Module TypeFlags.
Definition VOID : Z := Z.shiftl 1 0.
Definition INT : Z := Z.shiftl 1 1.
Definition FLOAT : Z := Z.shiftl 1 2.
Definition STR : Z := Z.shiftl 1 3.
Definition BOOL : Z := Z.shiftl 1 4.
Definition ANY : Z := Z.shiftl 1 5.
Definition NONE : Z := Z.shiftl 1 6.
Definition LIST : Z := Z.shiftl 1 7.
Definition DICT : Z := Z.shiftl 1 8.
Definition SCHEMA : Z := Z.shiftl 1 9.
Definition UNION : Z := Z.shiftl 1 10.
Definition LITERAL : Z := Z.shiftl 1 11.
Definition NUMBER_MULTIPLIER : Z := Z.shiftl 1 12.
Definition FUNCTION : Z := Z.shiftl 1 13.
Definition MODULE : Z := Z.shiftl 1 14.
Definition NAMED : Z := Z.shiftl 1 15.

(** [bitflags]' [contains]: every bit of [flag] is set in [f]. *)
Definition contains (f flag : Z) : bool := Z.land f flag =? flag.
End TypeFlags.

Definition contains_flags (t : ty) (flag : Z) : bool := TypeFlags.contains (flags t) flag.

(** ** String constants *)

Definition INT_TYPE_STR : string := "int".
Definition FLOAT_TYPE_STR : string := "float".
Definition STR_TYPE_STR : string := "str".
Definition BOOL_TYPE_STR : string := "bool".
Definition ANY_TYPE_STR : string := "any".
Definition NONE_TYPE_STR : string := "NoneType".
Definition FUNCTION_TYPE_STR : string := "function".
Definition NUMBER_MULTIPLIER_TYPE_STR : string := "number_multiplier".
Definition NUMBER_MULTIPLIER_PKG_TYPE_STR : string := "units.NumberMultiplier".
Definition MODULE_TYPE_STR : string := "module".
Definition VOID_TYPE_STR : string := "void".
Definition NAME_CONSTANT_TRUE : string := "True".
Definition NAME_CONSTANT_FALSE : string := "False".
Definition NAME_CONSTANT_NONE : string := "None".
Definition NAME_CONSTANT_UNDEFINED : string := "Undefined".
Definition NAME_CONSTANTS : list string :=
  [NAME_CONSTANT_NONE; NAME_CONSTANT_UNDEFINED; NAME_CONSTANT_TRUE; NAME_CONSTANT_FALSE].
Definition BUILTIN_TYPES : list string :=
  [INT_TYPE_STR; FLOAT_TYPE_STR; STR_TYPE_STR; BOOL_TYPE_STR].
Definition MAIN_PKG : string := "__main__".
Definition SCHEMA_MEMBER_FUNCTIONS : list string := ["instances"].

(** ** Type constants and constructors *)

Definition VOID : ty := mkType KVoid false TypeFlags.VOID.
Definition INT : ty := mkType KInt false TypeFlags.INT.
Definition FLOAT : ty := mkType KFloat false TypeFlags.FLOAT.
Definition STR : ty := mkType KStr false TypeFlags.STR.
Definition BOOL : ty := mkType KBool false TypeFlags.BOOL.
Definition ANY : ty := mkType KAny false TypeFlags.ANY.
Definition NONE : ty := mkType KNone false TypeFlags.NONE.

Definition union_of (types : list ty) : ty := mkType (KUnion types) false TypeFlags.UNION.
Definition list_of (item_ty : ty) : ty := mkType (KList item_ty) false TypeFlags.LIST.
Definition dict_of (key_ty val_ty : ty) : ty :=
  mkType (KDict key_ty val_ty) false TypeFlags.DICT.
Definition bool_lit (val : bool) : ty :=
  mkType (KBoolLit val) false (Z.lor TypeFlags.BOOL TypeFlags.LITERAL).
Definition int_lit (num : Z) : ty :=
  mkType (KIntLit num) false (Z.lor TypeFlags.INT TypeFlags.LITERAL).
Definition float_lit (num : f64) : ty :=
  mkType (KFloatLit num) false (Z.lor TypeFlags.FLOAT TypeFlags.LITERAL).
Definition str_lit (val : string) : ty :=
  mkType (KStrLit val) false (Z.lor TypeFlags.STR TypeFlags.LITERAL).
Definition named (val : string) : ty := mkType (KNamed val) false TypeFlags.NAMED.
Definition number_multiplier (value : f64) (raw : Z) (suffix : string) : ty :=
  mkType (KNumberMultiplier
            {| nm_value := value; raw_value := raw; binary_suffix := suffix;
               is_literal_nm := true |})
    false TypeFlags.NUMBER_MULTIPLIER.
Definition number_multiplier_non_lit_ty : ty :=
  mkType (KNumberMultiplier
            {| nm_value := f64_zero; raw_value := 0; binary_suffix := "";
               is_literal_nm := false |})
    false TypeFlags.NUMBER_MULTIPLIER.
Definition function_of (self_ty : option ty) (return_ty : ty) (params : list parameter)
    (doc : string) (is_variadic : bool) (kw_only_index : option Z) : ty :=
  mkType (KFunction (mkFunctionType doc params self_ty return_ty is_variadic kw_only_index))
    false TypeFlags.FUNCTION.
Definition module_of (pkgpath : string) (imp : list string) (k : ModuleKind) : ty :=
  mkType (KModule {| mod_pkgpath := pkgpath; imported := imp; mod_kind := k |})
    false TypeFlags.MODULE.
Definition schema_of (s : schema_type) : ty := mkType (KSchema s) false TypeFlags.SCHEMA.
Definition iterable : ty := union_of [STR; dict_of ANY ANY; list_of ANY].
Definition number : ty := union_of [INT; FLOAT; STR].

Definition ZERO_LIT_TYPES : list ty := [int_lit 0; float_lit f64_zero; bool_lit false].

(** ** Predicates on the flags *)

Definition is_any (t : ty) : bool := contains_flags t TypeFlags.ANY.
Definition is_int (t : ty) : bool := contains_flags t TypeFlags.INT.
Definition is_float (t : ty) : bool := contains_flags t TypeFlags.FLOAT.
Definition is_bool (t : ty) : bool := contains_flags t TypeFlags.BOOL.
Definition is_str (t : ty) : bool := contains_flags t TypeFlags.STR.
Definition is_literal (t : ty) : bool := contains_flags t TypeFlags.LITERAL.
Definition is_none (t : ty) : bool := contains_flags t TypeFlags.NONE.
Definition is_void (t : ty) : bool := contains_flags t TypeFlags.VOID.
Definition is_list (t : ty) : bool := contains_flags t TypeFlags.LIST.
Definition is_dict (t : ty) : bool := contains_flags t TypeFlags.DICT.
Definition is_schema (t : ty) : bool := contains_flags t TypeFlags.SCHEMA.
Definition is_union (t : ty) : bool := contains_flags t TypeFlags.UNION.
Definition is_func (t : ty) : bool := contains_flags t TypeFlags.FUNCTION.
Definition is_number_multiplier (t : ty) : bool :=
  contains_flags t TypeFlags.NUMBER_MULTIPLIER.
Definition is_module (t : ty) : bool := contains_flags t TypeFlags.MODULE.

Definition is_none_or_any (t : ty) : bool := is_none t || is_any t.
Definition is_number (t : ty) : bool :=
  contains_flags t TypeFlags.INT || contains_flags t TypeFlags.FLOAT
  || contains_flags t TypeFlags.BOOL.
Definition is_dict_or_schema (t : ty) : bool := is_dict t || is_schema t.
Definition is_iterable (t : ty) : bool := is_str t || is_list t || is_dict t || is_schema t.

(** These read the kind. *)
Fixpoint is_key (t : ty) : bool :=
  match t with
  | mkType k _ _ =>
      match k with
      | KStr | KStrLit _ => true
      | KUnion types => forallb is_key types
      | _ => false
      end
  end.

Definition is_primitive (t : ty) : bool :=
  match kind t with KBool | KInt | KFloat | KStr => true | _ => false end.

Definition is_schema_def (t : ty) : bool :=
  match kind t with KSchema s => negb (sch_is_instance s) | _ => false end.

Definition is_assignable_type (t : ty) : bool :=
  match kind t with
  | KNone | KAny | KBool | KBoolLit _ | KInt | KIntLit _ | KFloat | KFloatLit _ | KStr
  | KStrLit _ | KList _ | KDict _ _ | KUnion _ | KSchema _ | KNumberMultiplier _
  | KFunction _ => true
  | KVoid | KModule _ | KNamed _ => false
  end.

(** ** Equality ([#[derive(PartialEq)]]) *)

Definition position_eqb (p q : position) : bool :=
  bool_decide (filename p = filename q) && (line p =? line q) &&
  option_eqb Z.eqb (column p) (column q).

Definition module_kind_eqb (a b : ModuleKind) : bool :=
  match a, b with
  | User, User | System, System | Plugin, Plugin => true
  | _, _ => false
  end.

Definition module_type_eqb (a b : module_type) : bool :=
  bool_decide (mod_pkgpath a = mod_pkgpath b) &&
  list_eqb (fun x y => bool_decide (x = y)) (imported a) (imported b) &&
  module_kind_eqb (mod_kind a) (mod_kind b).

Definition decorator_eqb (a b : decorator) : bool :=
  match target a, target b with
  | DSchema, DSchema | DAttribute, DAttribute => true
  | _, _ => false
  end && bool_decide (dec_name a = dec_name b) && bool_decide (dec_key a = dec_key b).

Definition number_multiplier_eqb (a b : number_multiplier_type) : bool :=
  f64_eqb (nm_value a) (nm_value b) && (raw_value a =? raw_value b) &&
  bool_decide (binary_suffix a = binary_suffix b) &&
  Bool.eqb (is_literal_nm a) (is_literal_nm b).

Definition string_eqb (a b : string) : bool := bool_decide (a = b).

Fixpoint kind_eqb (a b : type_kind) {struct a} : bool :=
  match a, b with
  | KNone, KNone | KAny, KAny | KBool, KBool | KInt, KInt | KFloat, KFloat | KStr, KStr
  | KVoid, KVoid => true
  | KBoolLit x, KBoolLit y => Bool.eqb x y
  | KIntLit x, KIntLit y => x =? y
  | KFloatLit x, KFloatLit y => f64_eqb x y
  | KStrLit x, KStrLit y => string_eqb x y
  | KList x, KList y => ty_eqb x y
  | KDict k v, KDict k' v' => ty_eqb k k' && ty_eqb v v'
  | KUnion x, KUnion y => list_eqb ty_eqb x y
  | KSchema x, KSchema y => schema_eqb x y
  | KNumberMultiplier x, KNumberMultiplier y => number_multiplier_eqb x y
  | KFunction x, KFunction y => function_eqb x y
  | KModule x, KModule y => module_type_eqb x y
  | KNamed x, KNamed y => string_eqb x y
  | _, _ => false
  end

with ty_eqb (a b : ty) {struct a} : bool :=
  match a, b with
  | mkType k al f, mkType k' al' f' => kind_eqb k k' && Bool.eqb al al' && (f =? f')
  end

with schema_eqb (a b : schema_type) {struct a} : bool :=
  match a, b with
  | mkSchemaType n p f d i m pr r ba po mi at_ fn ix de,
    mkSchemaType n' p' f' d' i' m' pr' r' ba' po' mi' at' fn' ix' de' =>
      string_eqb n n' && string_eqb p p' && string_eqb f f' && string_eqb d d' &&
      Bool.eqb i i' && Bool.eqb m m' && Bool.eqb pr pr' && Bool.eqb r r' &&
      option_eqb schema_eqb ba ba' && option_eqb schema_eqb po po' &&
      list_eqb schema_eqb mi mi' && im_eqb schema_attr_eqb at_ at' &&
      function_eqb fn fn' && option_eqb index_signature_eqb ix ix' &&
      list_eqb decorator_eqb de de'
  end

with schema_attr_eqb (a b : schema_attr) {struct a} : bool :=
  match a, b with
  | mkSchemaAttr o d t p c, mkSchemaAttr o' d' t' p' c' =>
      Bool.eqb o o' && Bool.eqb d d' && ty_eqb t t' && position_eqb p p' &&
      option_eqb string_eqb c c'
  end

with index_signature_eqb (a b : schema_index_signature) {struct a} : bool :=
  match a, b with
  | mkIndexSignature n k v o, mkIndexSignature n' k' v' o' =>
      option_eqb string_eqb n n' && ty_eqb k k' && ty_eqb v v' && Bool.eqb o o'
  end

with function_eqb (a b : function_type) {struct a} : bool :=
  match a, b with
  | mkFunctionType d ps s r v k, mkFunctionType d' ps' s' r' v' k' =>
      string_eqb d d' && list_eqb parameter_eqb ps ps' && option_eqb ty_eqb s s' &&
      ty_eqb r r' && Bool.eqb v v' && option_eqb Z.eqb k k'
  end

with parameter_eqb (a b : parameter) {struct a} : bool :=
  match a, b with
  | mkParameter n t h, mkParameter n' t' h' =>
      string_eqb n n' && ty_eqb t t' && Bool.eqb h h'
  end.

(** ** Schema types *)

Definition ty_str_with_pkgpath (s : schema_type) : string :=
  if string_eqb (sch_pkgpath s) "" || string_eqb (sch_pkgpath s) MAIN_PKG then sch_name s
  else "@" +:+ sch_pkgpath s +:+ "." +:+ sch_name s.

Definition is_member_functions (s : schema_type) (name : string) : bool :=
  negb (sch_is_instance s) && existsb (string_eqb name) SCHEMA_MEMBER_FUNCTIONS.

Definition set_type_of_attr (s : schema_type) (attr : string) (t : ty) : schema_type :=
  match im_get attr (sch_attrs s) with
  | Some a => sch_with_attrs s (im_insert attr (attr_with_ty a t) (sch_attrs s))
  | None =>
      sch_with_attrs s
        (im_insert attr (mkSchemaAttr true false t dummy_pos None) (sch_attrs s))
  end.

Fixpoint get_obj_of_attr (s : schema_type) (attr : string) {struct s} : option schema_attr :=
  match s with
  | mkSchemaType _ _ _ _ _ _ _ _ base protocol _ attrs _ _ _ =>
      match im_get attr attrs with
      | Some a => Some a
      | None =>
          match base with
          | Some b => get_obj_of_attr b attr
          | None => match protocol with
                    | Some p => get_obj_of_attr p attr
                    | None => None
                    end
          end
      end
  end.

Definition get_type_of_attr (s : schema_type) (attr : string) : option ty :=
  attr_ty <$> get_obj_of_attr s attr.

Definition schema_key_ty (s : schema_type) : ty := STR.
Definition schema_val_ty (s : schema_type) : ty :=
  match sch_index_signature s with Some ix => is_val_ty ix | None => ANY end.

(** ** Renderings *)

Definition bool_str (b : bool) : string := if b then "true" else "false".

Definition nm_ty_str (nm : number_multiplier_type) : string :=
  if is_literal_nm nm then
    NUMBER_MULTIPLIER_TYPE_STR +:+ "(" +:+ pretty (raw_value nm) +:+ binary_suffix nm +:+ ")"
  else NUMBER_MULTIPLIER_TYPE_STR.

Fixpoint ty_str (t : ty) {struct t} : string :=
  match t with
  | mkType k _ _ =>
      match k with
      | KNone => NONE_TYPE_STR
      | KAny => ANY_TYPE_STR
      | KBool => BOOL_TYPE_STR
      | KBoolLit v => BOOL_TYPE_STR +:+ "(" +:+ bool_str v +:+ ")"
      | KInt => INT_TYPE_STR
      | KIntLit v => INT_TYPE_STR +:+ "(" +:+ pretty v +:+ ")"
      | KFloat => FLOAT_TYPE_STR
      | KFloatLit v => FLOAT_TYPE_STR +:+ "(" +:+ f64_display v +:+ ")"
      | KStr => STR_TYPE_STR
      | KStrLit v => STR_TYPE_STR +:+ "(" +:+ v +:+ ")"
      | KList item => "[" +:+ ty_str item +:+ "]"
      | KDict key val => "{" +:+ ty_str key +:+ ":" +:+ ty_str val +:+ "}"
      | KUnion types => str_join "|" (map ty_str types)
      | KSchema s => sch_name s
      | KNumberMultiplier nm => nm_ty_str nm
      | KFunction _ => FUNCTION_TYPE_STR
      | KVoid => VOID_TYPE_STR
      | KModule m => MODULE_TYPE_STR +:+ " '" +:+ mod_pkgpath m +:+ "'"
      | KNamed name => name
      end
  end.

(** [v.replace('"', "\\\"")]: a backslash in front of every double quote. *)
Fixpoint escape_quotes (s : string) : string :=
  match s with
  | EmptyString => EmptyString
  | String c s' =>
      if bool_decide (c = Ascii.ascii_of_nat 34)
      then String (Ascii.ascii_of_nat 92) (String c (escape_quotes s'))
      else String c (escape_quotes s')
  end.

Definition quote_char : string := String (Ascii.ascii_of_nat 34) "".

Fixpoint into_type_annotation_str (t : ty) {struct t} : string :=
  match t with
  | mkType k _ _ =>
      match k with
      | KNone => NAME_CONSTANT_NONE
      | KBoolLit v => if v then NAME_CONSTANT_TRUE else NAME_CONSTANT_FALSE
      | KIntLit v => pretty v
      | KFloatLit v =>
          let float_str := f64_display v in
          if negb (str_contains float_str ".") then float_str +:+ ".0" else float_str
      | KStrLit v => quote_char +:+ escape_quotes v +:+ quote_char
      | KList item => "[" +:+ into_type_annotation_str item +:+ "]"
      | KDict key val =>
          "{" +:+ into_type_annotation_str key +:+ ":" +:+ into_type_annotation_str val +:+ "}"
      | KUnion types => str_join "|" (map into_type_annotation_str types)
      | KSchema s => ty_str_with_pkgpath s
      | KNumberMultiplier nm =>
          if is_literal_nm nm then
            NUMBER_MULTIPLIER_TYPE_STR +:+ "(" +:+ pretty (raw_value nm) +:+
            binary_suffix nm +:+ ")"
          else NUMBER_MULTIPLIER_PKG_TYPE_STR
      | _ => ty_str t
      end
  end.

Definition index_signature_ty_str (i : schema_index_signature) : string :=
  let 'mkIndexSignature key_name kt vt any_other := i in
  let key_name_str := match key_name with
                      | Some name => "[" +:+ name +:+ ": "
                      | None => "["
                      end in
  let any_other_str := if any_other then "..." else "" in
  key_name_str +:+ any_other_str +:+ (ty_str kt +:+ "]: " +:+ ty_str vt).

(** ** Downcasts: each panics ([bug!]) on the wrong kind *)

Definition list_item_ty (t : ty) : outcome ty :=
  match kind t with
  | KList item => Ok item
  | _ => Panic ("invalid list type " +:+ ty_str t)
  end.

Definition dict_entry_ty (t : ty) : outcome (ty * ty) :=
  match kind t with
  | KDict key val => Ok (key, val)
  | _ => Panic ("invalid dict type " +:+ ty_str t)
  end.

Definition config_key_ty (t : ty) : outcome ty :=
  match kind t with
  | KDict key _ => Ok key
  | KSchema s => Ok (schema_key_ty s)
  | _ => Panic ("invalid config type " +:+ ty_str t)
  end.

Definition config_val_ty (t : ty) : outcome ty :=
  match kind t with
  | KDict _ val => Ok val
  | KSchema s => Ok (schema_val_ty s)
  | _ => Panic ("invalid config type " +:+ ty_str t)
  end.

Definition union_types (t : ty) : outcome (list ty) :=
  match kind t with
  | KUnion types => Ok types
  | _ => Panic ("invalid " +:+ ty_str t +:+ " into union type")
  end.

Definition into_schema_type (t : ty) : outcome schema_type :=
  match kind t with
  | KSchema s => Ok s
  | _ => Panic ("invalid type " +:+ ty_str t +:+ " into schema type")
  end.

Definition into_number_multiplier (t : ty) : outcome number_multiplier_type :=
  match kind t with
  | KNumberMultiplier nm => Ok nm
  | _ => Panic ("invalid type " +:+ ty_str t +:+ " into number multiplier type")
  end.

(** ** Induction over lists, dicts and unions

    The subterms the unification code walks through are the item of a list, the key and
    the value of a dict and the members of a union; one case covers all kinds. *)

Definition walk_all (P : ty -> Prop) (k : type_kind) : Prop :=
  match k with
  | KList item => P item
  | KDict key val => P key /\ P val
  | KUnion types => Forall P types
  | _ => True
  end.

(** ** The flags invariant *)

(** The flags word each kind is built with. *)
Definition kind_flags (k : type_kind) : Z :=
  match k with
  | KNone => TypeFlags.NONE
  | KAny => TypeFlags.ANY
  | KBool => TypeFlags.BOOL
  | KBoolLit _ => Z.lor TypeFlags.BOOL TypeFlags.LITERAL
  | KInt => TypeFlags.INT
  | KIntLit _ => Z.lor TypeFlags.INT TypeFlags.LITERAL
  | KFloat => TypeFlags.FLOAT
  | KFloatLit _ => Z.lor TypeFlags.FLOAT TypeFlags.LITERAL
  | KStr => TypeFlags.STR
  | KStrLit _ => Z.lor TypeFlags.STR TypeFlags.LITERAL
  | KList _ => TypeFlags.LIST
  | KDict _ _ => TypeFlags.DICT
  | KUnion _ => TypeFlags.UNION
  | KSchema _ => TypeFlags.SCHEMA
  | KNumberMultiplier _ => TypeFlags.NUMBER_MULTIPLIER
  | KFunction _ => TypeFlags.FUNCTION
  | KVoid => TypeFlags.VOID
  | KModule _ => TypeFlags.MODULE
  | KNamed _ => TypeFlags.NAMED
  end.

Fixpoint wf_ty (t : ty) : bool :=
  match t with
  | mkType k _ f =>
      (f =? kind_flags k) &&
      match k with
      | KList item => wf_ty item
      | KDict key val => wf_ty key && wf_ty val
      | KUnion types => forallb wf_ty types
      | _ => true
      end
  end.

Lemma ty_ind (P : ty -> Prop) :
  (forall k a f, walk_all P k -> P (mkType k a f)) -> forall t, P t.
Proof.
  intros step. fix IH 1. intros [k a f]. apply step.
  destruct k; simpl; try exact I; [apply IH | split; apply IH |].
  induction types as [|t ts IHts]; constructor; [apply IH | exact IHts].
Qed.

Lemma wf_flags t : wf_ty t = true -> flags t = kind_flags (kind t).
Proof. destruct t as [k a f]. simpl. intros [Hf _]%andb_true_iff. simpl. lia. Qed.

Lemma wf_walk t : wf_ty t = true -> walk_all (fun s => wf_ty s = true) (kind t).
Proof.
  destruct t as [k a f]. simpl. intros [_ Hk]%andb_true_iff.
  destruct k; simpl; try exact I; [done | by apply andb_true_iff in Hk |].
  apply List.Forall_forall. by apply forallb_forall.
Qed.

Lemma wf_mk k a f :
  f = kind_flags k -> walk_all (fun s => wf_ty s = true) k -> wf_ty (mkType k a f) = true.
Proof.
  intros -> Hk. simpl. rewrite Z.eqb_refl. simpl.
  destruct k; simpl in *; try reflexivity; [done | by apply andb_true_iff |].
  apply forallb_forall. by apply List.Forall_forall.
Qed.

(** Under the invariant, the flag tests read the kind. *)
Section FlagTests.
Context (t : ty) (Hwf : wf_ty t = true).

Ltac flag_test :=
  unfold is_any, is_int, is_float, is_bool, is_str, is_literal, is_none, is_void, is_list,
    is_dict, is_schema, is_union, is_number_multiplier, contains_flags;
  rewrite (wf_flags t Hwf); destruct (kind t); reflexivity.

Lemma wf_is_any : is_any t = match kind t with KAny => true | _ => false end.
Proof. flag_test. Qed.
Lemma wf_is_none : is_none t = match kind t with KNone => true | _ => false end.
Proof. flag_test. Qed.
Lemma wf_is_void : is_void t = match kind t with KVoid => true | _ => false end.
Proof. flag_test. Qed.
Lemma wf_is_union : is_union t = match kind t with KUnion _ => true | _ => false end.
Proof. flag_test. Qed.
Lemma wf_is_schema : is_schema t = match kind t with KSchema _ => true | _ => false end.
Proof. flag_test. Qed.
Lemma wf_is_list : is_list t = match kind t with KList _ => true | _ => false end.
Proof. flag_test. Qed.
Lemma wf_is_dict : is_dict t = match kind t with KDict _ _ => true | _ => false end.
Proof. flag_test. Qed.
Lemma wf_is_number_multiplier :
  is_number_multiplier t = match kind t with KNumberMultiplier _ => true | _ => false end.
Proof. flag_test. Qed.
Lemma wf_is_int : is_int t = match kind t with KInt | KIntLit _ => true | _ => false end.
Proof. flag_test. Qed.
Lemma wf_is_float :
  is_float t = match kind t with KFloat | KFloatLit _ => true | _ => false end.
Proof. flag_test. Qed.
Lemma wf_is_bool : is_bool t = match kind t with KBool | KBoolLit _ => true | _ => false end.
Proof. flag_test. Qed.
Lemma wf_is_str : is_str t = match kind t with KStr | KStrLit _ => true | _ => false end.
Proof. flag_test. Qed.
Lemma wf_is_literal :
  is_literal t =
  match kind t with
  | KBoolLit _ | KIntLit _ | KFloatLit _ | KStrLit _ => true | _ => false end.
Proof. flag_test. Qed.
End FlagTests.

Create Rewrite HintDb ty_flags.
#[export] Hint Rewrite wf_is_any wf_is_none wf_is_void wf_is_union wf_is_schema wf_is_list
  wf_is_dict wf_is_number_multiplier wf_is_int wf_is_float wf_is_bool wf_is_str wf_is_literal
  using assumption : ty_flags.
