(* ===== verification/Unify.v ===== *)
(** * Subtyping and least upper bounds

    Models [kclvm/sema/src/ty/unify.rs]. *)

From S2P Require Import Prelude MachineInt Floats TypeData.

Definition equal (ty_lhs ty_rhs : ty) : bool := kind_eqb (kind ty_lhs) (kind ty_rhs).

Fixpoint is_sub_schema_of (schema_ty_lhs : schema_type) (schema_ty_rhs : schema_type)
    {struct schema_ty_lhs} : bool :=
  if string_eqb (ty_str_with_pkgpath schema_ty_lhs) (ty_str_with_pkgpath schema_ty_rhs)
  then true
  else match sch_base schema_ty_lhs with
       | Some base => is_sub_schema_of base schema_ty_rhs
       | None => false
       end.

(** The number multiplier case of [subsume]. *)
Definition subsume_number_multiplier (ty_lhs ty_rhs : number_multiplier_type) : bool :=
  if is_literal_nm ty_lhs && is_literal_nm ty_rhs then
    (raw_value ty_lhs =? raw_value ty_rhs) &&
    string_eqb (binary_suffix ty_lhs) (binary_suffix ty_rhs)
  else if is_literal_nm ty_lhs && negb (is_literal_nm ty_rhs) then true
  else is_literal_nm ty_lhs || negb (is_literal_nm ty_rhs).

(** The literal case of [subsume]. *)
Definition subsume_literal (ty_lhs ty_rhs : ty) : bool :=
  if is_literal ty_rhs then kind_eqb (kind ty_lhs) (kind ty_rhs)
  else if is_primitive ty_rhs then
    if is_float ty_rhs && negb (is_str ty_lhs) then true
    else str_contains (ty_str ty_lhs) (ty_str ty_rhs)
  else false.

(** The recursion decreases the left type, or keeps it and decreases the right one
    (the members of a right-hand union), hence the two nested fixpoints. *)
Fixpoint subsume (ty_lhs : ty) : ty -> bool -> outcome bool :=
  fix subsume_lhs (ty_rhs : ty) (check_left_any : bool) {struct ty_rhs} : outcome bool :=
  if (check_left_any && is_any ty_lhs) || (is_any ty_rhs || is_none ty_lhs) then Ok true
  else if is_union ty_lhs then
    match kind ty_lhs with
    | KUnion types => all_m (fun t => subsume t ty_rhs false) types
    | _ => Panic ("invalid " +:+ ty_str ty_lhs +:+ " into union type")
    end
  else if is_union ty_rhs then
    match kind ty_rhs with
    | KUnion types => any_m (fun t => subsume_lhs t false) types
    | _ => Panic ("invalid " +:+ ty_str ty_rhs +:+ " into union type")
    end
  else if is_schema ty_lhs then
    match kind ty_rhs with
    | KSchema ty_rhs_schema =>
        s ← into_schema_type ty_lhs;
        Ok (is_sub_schema_of s ty_rhs_schema)
    | _ => Ok false
    end
  else if is_int ty_lhs && is_float ty_rhs then Ok true
  else if is_number_multiplier ty_lhs && is_number_multiplier ty_rhs then
    nl ← into_number_multiplier ty_lhs;
    nr ← into_number_multiplier ty_rhs;
    Ok (subsume_number_multiplier nl nr)
  else if is_primitive ty_lhs && is_primitive ty_rhs then
    Ok (kind_eqb (kind ty_lhs) (kind ty_rhs))
  else if is_literal ty_lhs then Ok (subsume_literal ty_lhs ty_rhs)
  else if is_list ty_lhs && is_list ty_rhs then
    match kind ty_lhs with
    | KList item_lhs =>
        item_rhs ← list_item_ty ty_rhs;
        subsume item_lhs item_rhs check_left_any
    | _ => Panic ("invalid list type " +:+ ty_str ty_lhs)
    end
  else if is_dict ty_lhs && is_dict ty_rhs then
    match kind ty_lhs with
    | KDict ty_lhs_key ty_lhs_val =>
        '(ty_rhs_key, ty_rhs_val) ← dict_entry_ty ty_rhs;
        k ← subsume ty_lhs_key ty_rhs_key check_left_any;
        if (k : bool) then subsume ty_lhs_val ty_rhs_val check_left_any else Ok false
    | _ => Panic ("invalid dict type " +:+ ty_str ty_lhs)
    end
  else Ok (equal ty_lhs ty_rhs).

Definition assignable_to (t expected_ty : ty) : outcome bool :=
  if negb (is_assignable_type t) then Ok false else subsume t expected_ty true.

Definition is_upper_bound (lhs_ty rhs_ty : ty) : outcome bool := subsume rhs_ty lhs_ty false.

Definition has_any_type (types : list ty) : bool := existsb is_any types.

(** ** The declarative subtype relation

    Subtyping stated on kinds and without the order of the tests: [any] on the right and
    [none] on the left always, [any] on the left when the flag is set, unions member by
    member, schemas along the chain of bases, numbers, literals, and lists and dicts
    covariantly.  Its parameter [lit] says which literals are below which primitive types:
    [SubSpec] takes what the code documents, here it is what the code tests. *)

Inductive extends (s : schema_type) (s' : schema_type) : Prop :=
| extends_here :
    ty_str_with_pkgpath s = ty_str_with_pkgpath s' -> extends s s'
| extends_base b :
    sch_base s = Some b -> extends b s' -> extends s s'.

Definition int_kind (k : type_kind) : bool :=
  match k with KInt | KIntLit _ => true | _ => false end.
Definition float_kind (k : type_kind) : bool :=
  match k with KFloat | KFloatLit _ => true | _ => false end.
Definition prim_kind (k : type_kind) : bool :=
  match k with KBool | KInt | KFloat | KStr => true | _ => false end.
Definition lit_kind (k : type_kind) : bool :=
  match k with KBoolLit _ | KIntLit _ | KFloatLit _ | KStrLit _ => true | _ => false end.
Definition rigid_kind (k : type_kind) : bool :=
  match k with KFunction _ | KModule _ | KVoid | KNamed _ => true | _ => false end.

(** The test of the code: the rendering of the literal contains the name of the type. *)
Definition spelled (l r : ty) : Prop := str_contains (ty_str l) (ty_str r) = true.

Inductive SubBy (lit : ty -> ty -> Prop) : bool -> ty -> ty -> Prop :=
| Sub_any c l r : kind r = KAny -> SubBy lit c l r
| Sub_none c l r : kind l = KNone -> SubBy lit c l r
| Sub_left_any l r : kind l = KAny -> SubBy lit true l r
| Sub_union_l c l r ts :
    kind l = KUnion ts -> (forall t, t ∈ ts -> SubBy lit false t r) -> SubBy lit c l r
| Sub_union_r c l r ts t :
    kind r = KUnion ts -> t ∈ ts -> SubBy lit false l t -> SubBy lit c l r
| Sub_schema c l r s s' :
    kind l = KSchema s -> kind r = KSchema s' -> extends s s' -> SubBy lit c l r
| Sub_int_float c l r :
    int_kind (kind l) = true -> float_kind (kind r) = true -> SubBy lit c l r
| Sub_number_multiplier c l r m m' :
    kind l = KNumberMultiplier m -> kind r = KNumberMultiplier m' ->
    is_literal_nm m' = false \/
    (is_literal_nm m = true /\ raw_value m = raw_value m' /\
     binary_suffix m = binary_suffix m') ->
    SubBy lit c l r
| Sub_prim c l r : prim_kind (kind l) = true -> kind l = kind r -> SubBy lit c l r
| Sub_lit_lit c l r :
    lit_kind (kind l) = true -> kind_eqb (kind l) (kind r) = true -> SubBy lit c l r
| Sub_lit_float c l r :
    lit_kind (kind l) = true -> (forall s, kind l <> KStrLit s) -> kind r = KFloat -> SubBy lit c l r
| Sub_lit_prim c l r :
    lit_kind (kind l) = true -> prim_kind (kind r) = true -> lit l r -> SubBy lit c l r
| Sub_list c l r x y :
    kind l = KList x -> kind r = KList y -> SubBy lit c x y -> SubBy lit c l r
| Sub_dict c l r k v k' v' :
    kind l = KDict k v -> kind r = KDict k' v' -> SubBy lit c k k' -> SubBy lit c v v' -> SubBy lit c l r
| Sub_rigid c l r :
    rigid_kind (kind l) = true -> kind_eqb (kind l) (kind r) = true -> SubBy lit c l r.
Notation TextSub := (SubBy spelled).

Definition union_kind (k : type_kind) : bool := match k with KUnion _ => true | _ => false end.

(** ** Unfolding lemmas *)

Lemma subsume_eq l r c :
  subsume l r c =
  if (c && is_any l) || (is_any r || is_none l) then Ok true
  else if is_union l then
    types ← union_types l; all_m (fun t => subsume t r false) types
  else if is_union r then
    types ← union_types r; any_m (fun t => subsume l t false) types
  else if is_schema l then
    match kind r with
    | KSchema rs => s ← into_schema_type l; Ok (is_sub_schema_of s rs)
    | _ => Ok false
    end
  else if is_int l && is_float r then Ok true
  else if is_number_multiplier l && is_number_multiplier r then
    nl ← into_number_multiplier l; nr ← into_number_multiplier r;
    Ok (subsume_number_multiplier nl nr)
  else if is_primitive l && is_primitive r then Ok (kind_eqb (kind l) (kind r))
  else if is_literal l then Ok (subsume_literal l r)
  else if is_list l && is_list r then
    il ← list_item_ty l; ir ← list_item_ty r; subsume il ir c
  else if is_dict l && is_dict r then
    '(kl, vl) ← dict_entry_ty l; '(kr, vr) ← dict_entry_ty r;
    k ← subsume kl kr c;
    if (k : bool) then subsume vl vr c else Ok false
  else Ok (equal l r).
Proof.
  destruct l as [kl al fl], r as [kr ar fr]. destruct kl, kr; reflexivity.
Qed.

(** ** Totality: no panic and a result, under the flags invariant *)

(** [subsume] on well-formed types, as a case analysis on the kinds. *)
Lemma subsume_kind l r c :
  wf_ty l = true -> wf_ty r = true ->
  subsume l r c =
  match kind l, kind r with
  | _, KAny | KNone, _ => Ok true
  | KUnion ts, _ => all_m (fun t => subsume t r false) ts
  | KAny, KUnion ts =>
      if c then Ok true else any_m (fun t => subsume l t false) ts
  | KAny, _ => Ok c
  | _, KUnion ts => any_m (fun t => subsume l t false) ts
  | KSchema s, KSchema s' => Ok (is_sub_schema_of s s')
  | KSchema _, _ => Ok false
  | (KInt | KIntLit _), (KFloat | KFloatLit _) => Ok true
  | KNumberMultiplier m, KNumberMultiplier m' => Ok (subsume_number_multiplier m m')
  | (KBoolLit _ | KIntLit _ | KFloatLit _ | KStrLit _), _ => Ok (subsume_literal l r)
  | KList x, KList y => subsume x y c
  | KDict k v, KDict k' v' =>
      b ← subsume k k' c; if (b : bool) then subsume v v' c else Ok false
  | _, _ => Ok (kind_eqb (kind l) (kind r))
  end.
Proof.
  intros Hl Hr. rewrite subsume_eq.
  unfold union_types, into_schema_type, into_number_multiplier, list_item_ty, dict_entry_ty,
    equal, is_primitive.
  autorewrite with ty_flags.
  destruct (kind l) eqn:El, (kind r) eqn:Er, c; try reflexivity; simpl; rewrite ?El, ?Er;
    reflexivity.
Qed.

Lemma wf_elem ts t : Forall (fun s => wf_ty s = true) ts -> t ∈ ts -> wf_ty t = true.
Proof. rewrite Forall_forall. auto. Qed.

#[export] Hint Resolve wf_elem : kcl.

Lemma subsume_is_ok_aux l :
  wf_ty l = true -> forall r c, wf_ty r = true -> is_ok (subsume l r c).
Proof.
  induction l as [k a f IHl] using ty_ind. intros Hl r.
  induction r as [k' a' f' IHr] using ty_ind. intros c Hr.
  rewrite subsume_kind by done.
  pose proof (wf_walk _ Hl) as Wl. pose proof (wf_walk _ Hr) as Wr. simpl kind in *.
  assert (Hall : forall ts, k = KUnion ts ->
    is_ok (all_m (fun t => subsume t (mkType k' a' f') false) ts)).
  { intros ts ->. simpl in *. apply all_m_is_ok, Forall_forall. intros t Ht.
    rewrite Forall_forall in IHl, Wl. auto. }
  assert (Hany : forall ts, k' = KUnion ts ->
    is_ok (any_m (fun t => subsume (mkType k a f) t false) ts)).
  { intros ts ->. simpl in *. apply any_m_is_ok, Forall_forall. intros t Ht.
    rewrite Forall_forall in IHr, Wr. auto. }
  destruct k, k'; eauto with kcl; try (destruct c; by eauto with kcl).
  simpl in *. apply is_ok_bind; [apply IHl; tauto|].
  intros [] _; [apply IHl; tauto | eauto with kcl].
Qed.

(** The boolean behind the outcome. *)
Lemma subsume_ok_cases l r c :
  wf_ty l = true -> wf_ty r = true -> subsume l r c = Ok true \/ subsume l r c = Ok false.
Proof.
  intros Hl Hr. destruct (subsume_is_ok_aux l Hl r c Hr) as [[] ->]; auto.
Qed.

Lemma extends_spec s s' : is_sub_schema_of s s' = true <-> extends s s'.
Proof.
  split.
  - revert s. fix IH 1. intros [n p fn d i m pr r ba po mi at_ fu ix de]. simpl.
    unfold string_eqb. case_bool_decide as E; [intros _; by apply extends_here|].
    destruct ba as [b|]; [|discriminate].
    intros Hb. eapply extends_base; [reflexivity | by apply IH].
  - induction 1 as [s s' E | s s' b Hb _ IH].
    + destruct s; simpl; unfold string_eqb. by rewrite bool_decide_eq_true_2.
    + destruct s; simpl in *. subst. rewrite IH. by destruct (string_eqb _ _).
Qed.

Lemma number_multiplier_spec m m' :
  subsume_number_multiplier m m' = true <->
  is_literal_nm m' = false \/
  (is_literal_nm m = true /\ raw_value m = raw_value m' /\
   binary_suffix m = binary_suffix m').
Proof.
  unfold subsume_number_multiplier, string_eqb.
  destruct (is_literal_nm m), (is_literal_nm m'); simpl;
    rewrite ?andb_true_iff, ?Z.eqb_eq, ?bool_decide_eq_true; naive_solver.
Qed.

Lemma subsume_literal_spec l r :
  wf_ty l = true -> wf_ty r = true -> lit_kind (kind l) = true ->
  subsume_literal l r = true <->
  (lit_kind (kind r) = true /\ kind_eqb (kind l) (kind r) = true) \/
  (prim_kind (kind r) = true /\
   ((kind r = KFloat /\ forall s, kind l <> KStrLit s) \/
    str_contains (ty_str l) (ty_str r) = true)).
Proof.
  intros Hl Hr Hlit. unfold subsume_literal, is_primitive.
  autorewrite with ty_flags.
  destruct (kind l) eqn:El; try discriminate Hlit; destruct (kind r) eqn:Er; simpl;
    naive_solver.
Qed.

Lemma kind_eqb_lit k k' : kind_eqb k k' = true -> lit_kind k = lit_kind k'.
Proof. by destruct k, k'. Qed.

(** ** The code computes the declarative relation *)

(** A left union is below [r] when its members are. *)
Lemma subsume_union_l l r c ts :
  wf_ty l = true -> wf_ty r = true -> kind l = KUnion ts ->
  subsume l r c = Ok true <-> forall t, t ∈ ts -> subsume t r false = Ok true.
Proof.
  intros Hl Hr El.
  pose proof (wf_walk _ Hl) as Wl. rewrite El in Wl. simpl in Wl.
  rewrite subsume_kind, El by done.
  assert (Hall : all_m (fun t => subsume t r false) ts = Ok true <->
                 forall t, t ∈ ts -> subsume t r false = Ok true)
    by (rewrite all_m_true, Forall_forall; done).
  destruct (kind r) eqn:Er; try exact Hall.
  split; [|done]. intros _ t Ht. rewrite subsume_kind, Er by eauto with kcl.
  by destruct (kind t).
Qed.

(** A type that is neither a union nor [any]/[none] is below a right union when it is
    below one of its members. *)
Lemma subsume_union_r l r c ts :
  wf_ty l = true -> wf_ty r = true -> kind r = KUnion ts -> union_kind (kind l) = false ->
  (c && is_any l || is_none l) = false ->
  subsume l r c = Ok true <-> exists t, t ∈ ts /\ subsume l t false = Ok true.
Proof.
  intros Hl Hr Er Hu Hc.
  pose proof (wf_walk _ Hr) as Wr. rewrite Er in Wr. simpl in Wr.
  assert (Hany : any_m (fun t => subsume l t false) ts = Ok true <->
                 exists t, t ∈ ts /\ subsume l t false = Ok true).
  { rewrite any_m_true, Exists_exists; [done|]. rewrite Forall_forall in Wr |- *.
    intros t Ht. apply subsume_is_ok_aux; auto. }
  rewrite wf_is_any, wf_is_none in Hc by done.
  rewrite subsume_kind, Er by done. revert Hu Hc.
  destruct (kind l); try discriminate; try (intros _ _; exact Hany).
  - rewrite orb_true_r. discriminate.
  - rewrite andb_true_r, orb_false_r. intros _ ->. exact Hany.
Qed.

(** Being below a member of a union is enough. *)
Lemma subsume_member l r c ts t :
  wf_ty l = true -> wf_ty r = true -> kind r = KUnion ts -> t ∈ ts ->
  subsume l t false = Ok true -> subsume l r c = Ok true.
Proof.
  revert c. induction l as [k a f IHl] using ty_ind. intros c Hl Hr Er Ht Hs.
  pose proof (wf_walk _ Hl) as Wl. pose proof (wf_walk _ Hr) as Wr.
  rewrite Er in Wr. simpl in Wr.
  assert (Hwt : wf_ty t = true) by eauto with kcl.
  destruct (union_kind k) eqn:Ek.
  - destruct k as [| | | | | | | | | | | | us | | | | | |]; try discriminate.
    apply (subsume_union_l _ r c us); [done..|]. simpl in *. intros u Hu.
    rewrite Forall_forall in IHl, Wl. apply IHl; auto.
    eapply (subsume_union_l (mkType (KUnion us) a f) t false us); eauto.
  - destruct (c && is_any (mkType k a f) || is_none (mkType k a f)) eqn:Hc.
    + rewrite subsume_eq. apply orb_true_iff in Hc as [-> | ->]; simpl; [done|].
      by rewrite !orb_true_r.
    + apply (subsume_union_r _ r c ts); eauto.
Qed.

Lemma subsume_sound l :
  wf_ty l = true -> forall r c, wf_ty r = true -> subsume l r c = Ok true -> TextSub c l r.
Proof.
  induction l as [k a f IHl] using ty_ind. intros Hl r.
  induction r as [k' a' f' IHr] using ty_ind. intros c Hr Hs.
  pose proof (wf_walk _ Hl) as Wl. pose proof (wf_walk _ Hr) as Wr. simpl kind in Wl, Wr.
  assert (HU : forall ts, k = KUnion ts -> TextSub c (mkType k a f) (mkType k' a' f')).
  { intros ts ->. eapply Sub_union_l; [done|]. simpl in *. intros t Ht.
    rewrite Forall_forall in IHl, Wl. apply IHl; auto.
    eapply (subsume_union_l (mkType (KUnion ts) a f) _ c ts); eauto. }
  assert (HR : forall ts, k' = KUnion ts -> union_kind k = false ->
    TextSub c (mkType k a f) (mkType k' a' f')).
  { intros ts -> Hk.
    destruct (c && is_any (mkType k a f) || is_none (mkType k a f)) eqn:Hc.
    - rewrite wf_is_any, wf_is_none in Hc by done. simpl in Hc.
      apply orb_true_iff in Hc as [[-> Hc]%andb_true_iff | Hc];
        destruct k; try discriminate; [by apply Sub_left_any | by apply Sub_none].
    - apply (subsume_union_r _ _ c ts) in Hs as (t & Ht & Hs); [|done..].
      simpl in *. rewrite Forall_forall in IHr, Wr. eapply Sub_union_r; eauto. }
  destruct (union_kind k) eqn:Ek.
  { destruct k; try discriminate. eauto. }
  destruct (union_kind k') eqn:Ek'.
  { destruct k'; try discriminate. eauto. }
  rewrite subsume_kind in Hs by done. simpl kind in Hs.
  destruct (lit_kind k) eqn:Elit.
  { assert (H : kind (mkType k' a' f') = KAny \/ subsume_literal (mkType k a f) (mkType k' a' f') = true
                \/ (int_kind k = true /\ float_kind k' = true)).
    { destruct k, k'; try discriminate; simplify_eq; naive_solver. }
    destruct H as [H | [H | [H1 H2]]]; [by apply Sub_any | | by apply Sub_int_float].
    apply subsume_literal_spec in H as [[? ?] | [? [[? ?] | ?]]]; [..|done|done|done].
    - by apply Sub_lit_lit.
    - by apply Sub_lit_float.
    - by apply Sub_lit_prim. }
  destruct k eqn:Ekk, k' eqn:Ekk'; try discriminate; simplify_eq;
    try (by apply Sub_any); try (by apply Sub_none); try (by apply Sub_left_any);
    try (by apply Sub_prim); try (by apply Sub_int_float); try (by apply Sub_rigid).
  - eapply Sub_list; [done..|]. apply IHl; [apply Wl | apply Wr | done].
  - simpl in *. inv_bind Hs. destruct a0; [|done].
    eapply Sub_dict; [done..| |]; apply IHl; tauto.
  - eapply Sub_schema; [done..|]. apply extends_spec. congruence.
  - eapply Sub_number_multiplier; [done..|]. apply number_multiplier_spec. congruence.
Qed.

Lemma subsume_complete c l r :
  TextSub c l r -> wf_ty l = true -> wf_ty r = true -> subsume l r c = Ok true.
Proof.
  induction 1 as [c l r Er | c l r El | l r El | c l r ts El _ IH | c l r ts t Er Ht _ IH
    | c l r s s' El Er E | c l r El Er | c l r m m' El Er E | c l r El E | c l r El E
    | c l r El Hs Er | c l r El Er E | c l r x y El Er _ IH
    | c l r k v k' v' El Er _ IHk _ IHv | c l r El E]; intros Hl Hr;
    pose proof (wf_walk _ Hl) as Wl; pose proof (wf_walk _ Hr) as Wr.
  - rewrite subsume_kind, Er by done. by destruct (kind l).
  - rewrite subsume_kind, El by done. by destruct (kind r).
  - rewrite subsume_kind, El by done. by destruct (kind r).
  - apply (subsume_union_l _ _ c ts); [done..|]. rewrite El in Wl. simpl in Wl.
    intros t Ht. apply IH; eauto with kcl.
  - rewrite Er in Wr. simpl in Wr. eapply subsume_member; eauto with kcl.
  - rewrite subsume_kind, El, Er by done. f_equal. by apply extends_spec.
  - rewrite subsume_kind by done. destruct (kind l), (kind r); done.
  - rewrite subsume_kind, El, Er by done. f_equal. by apply number_multiplier_spec.
  - rewrite subsume_kind, <- E by done. by destruct (kind l).
  - assert (Hlit : subsume_literal l r = true).
    { apply subsume_literal_spec; [done..|]. left. by rewrite <- (kind_eqb_lit _ _ E). }
    rewrite subsume_kind by done. destruct (kind l), (kind r); try done; congruence.
  - assert (Hlit : subsume_literal l r = true).
    { apply subsume_literal_spec; [done..|]. right. rewrite Er. auto. }
    rewrite subsume_kind, Er by done. destruct (kind l); try done; congruence.
  - assert (Hlit : subsume_literal l r = true).
    { apply subsume_literal_spec; [done..|]. right. auto. }
    rewrite subsume_kind by done. destruct (kind l), (kind r); try done; congruence.
  - rewrite subsume_kind, El, Er by done. rewrite El in Wl. rewrite Er in Wr. by apply IH.
  - rewrite subsume_kind, El, Er by done. rewrite El in Wl. rewrite Er in Wr.
    simpl in *. rewrite IHk, IHv by tauto. done.
  - rewrite subsume_kind by done. destruct (kind l), (kind r); try done; simpl in *; congruence.
Qed.
