(* ===== verification/SubOrder.v ===== *)
(** * Subsumption as an order

    Subsumption is reflexive and transitive on the types of one program: schemas drawn
    from one class table, no function types, and no literal whose rendering mentions the
    name of a primitive type other than its own.  The last restriction is needed: the
    code compares a literal with a primitive type by a substring test on the renderings. *)

From S2P Require Import Prelude MachineInt Floats TypeData Unify.

(** ** The fragment *)

(** The class table: the full name of every schema, and the one of its base. *)
Abbreviation class_table := (gmap string (option string)).

Fixpoint registered (env : class_table) (s : schema_type) : Prop :=
  match s with
  | mkSchemaType _ _ _ _ _ _ _ _ base _ _ _ _ _ _ =>
      env !! ty_str_with_pkgpath s = Some (ty_str_with_pkgpath <$> base) /\
      match base with Some b => registered env b | None => True end
  end.

(** The primitive type a literal belongs to. *)
Definition own_prim (k : type_kind) : type_kind :=
  match k with
  | KBoolLit _ => KBool
  | KIntLit _ => KInt
  | KFloatLit _ => KFloat
  | KStrLit _ => KStr
  | _ => k
  end.

Definition primitives : list ty := [BOOL; INT; FLOAT; STR].

(** The rendering of a literal mentions no other primitive type. *)
Definition lit_clean (t : ty) : bool :=
  forallb (fun p => kind_eqb (kind p) (own_prim (kind t)) ||
                    negb (str_contains (ty_str t) (ty_str p))) primitives.

Fixpoint plain (env : class_table) (t : ty) : Prop :=
  match t with
  | mkType k _ _ =>
      match k with
      | KBoolLit _ | KIntLit _ | KFloatLit _ | KStrLit _ => lit_clean t = true
      | KSchema s => registered env s
      | KFunction _ => False
      | KList item => plain env item
      | KDict key val => plain env key /\ plain env val
      | KUnion types => Forall id (map (plain env) types)
      | _ => True
      end
  end.

Definition good (env : class_table) (t : ty) : Prop := wf_ty t = true /\ plain env t.

(** ** Basic facts *)

Lemma plain_walk env t : plain env t -> walk_all (plain env) (kind t).
Proof.
  destruct t as [[] a f]; simpl; try done. by rewrite Forall_map.
Qed.

Lemma good_walk env t : good env t -> walk_all (good env) (kind t).
Proof.
  intros [Hw%wf_walk Hp%plain_walk]. destruct (kind t); simpl in *; try done.
  - unfold good. tauto.
  - rewrite Forall_forall in *. intros u Hu. split; auto.
Qed.

Lemma good_elem env ts t : Forall (good env) ts -> t ∈ ts -> good env t.
Proof. rewrite Forall_forall. auto. Qed.

#[export] Hint Resolve good_elem : kcl.

Lemma list_eqb_string_eq (a b : list string) :
  list_eqb (fun x y => bool_decide (x = y)) a b = true -> a = b.
Proof.
  revert b. induction a as [|x a IH]; intros [|y b]; simpl; try done.
  intros [->%bool_decide_eq_true_1 ->%IH]%andb_true_iff. done.
Qed.

Lemma module_type_eqb_eq a b : module_type_eqb a b = true -> a = b.
Proof.
  unfold module_type_eqb. destruct a as [p i k], b as [p' i' k']. simpl.
  intros [[->%bool_decide_eq_true_1 ->%list_eqb_string_eq]%andb_true_iff Hk]%andb_true_iff.
  by destruct k, k'.
Qed.

Lemma extends_trans env s s' s'' :
  registered env s -> registered env s' -> extends s s' -> extends s' s'' -> extends s s''.
Proof.
  intros Hs Hs' H1 H2. revert s Hs Hs' H1.
  induction H2 as [s' s'' E | s' s'' b' Hb' _ IH]; intros s Hs Hs' H1.
  - clear Hs'. revert E. induction H1 as [s s' E' | s s' b Hb _ IH]; intros E.
    + apply extends_here. congruence.
    + eapply extends_base; [done|]. apply IH; [|done].
      destruct s as [? ? ? ? ? ? ? ? ba]. simpl in Hb. subst ba. apply Hs.
  - assert (Hr' : registered env b').
    { destruct s'. simpl in Hb'. subst. apply Hs'. }
    revert Hb'. induction H1 as [s s' E' | s s' b Hb _ IH2]; intros Hb'.
    + destruct s as [? ? ? ? ? ? ? ? ba], s' as [? ? ? ? ? ? ? ? ba'].
      simpl in Hb'. subst ba'. destruct Hs as [Hs1 Hs2], Hs' as [Hs1' _].
      rewrite <- E', Hs1 in Hs1'. simpl in Hs1'.
      destruct ba as [b|]; [|discriminate]. simpl in Hs1'.
      eapply extends_base; [reflexivity|]. apply IH; [done|done|]. apply extends_here.
      by injection Hs1'.
    + eapply extends_base; [done|]. apply IH2; try done.
      destruct s as [? ? ? ? ? ? ? ? ba]. simpl in Hb. subst ba. apply Hs.
Qed.

Lemma str_contains_prefix p s : str_contains (p +:+ s) p = true.
Proof. apply str_contains_spec. by exists "", s. Qed.

Lemma kind_eqb_prim k k' : prim_kind k = true -> kind_eqb k k' = true -> k' = k.
Proof. by destruct k, k'. Qed.

Lemma lit_clean_prim l r :
  lit_clean l = true -> prim_kind (kind r) = true ->
  str_contains (ty_str l) (ty_str r) = true -> kind r = own_prim (kind l).
Proof.
  unfold lit_clean. rewrite forallb_forall. intros Hc Hr Hs.
  assert (exists p, In p primitives /\ kind p = kind r /\ ty_str p = ty_str r)
    as (p & Hp & Ek & Et).
  { destruct r as [[] a f]; try discriminate Hr;
      [exists BOOL | exists INT | exists FLOAT | exists STR]; simpl; auto 10. }
  specialize (Hc p Hp). rewrite Et, Hs, Ek in Hc. simpl in Hc. rewrite orb_false_r in Hc.
  symmetry. by apply kind_eqb_prim.
Qed.

(** A clean literal is below its own primitive type, numbers are below [float], and
    nothing else. *)
Lemma lit_clean_spec l r :
  wf_ty l = true -> wf_ty r = true -> lit_kind (kind l) = true -> lit_clean l = true ->
  subsume_literal l r = true <->
  (lit_kind (kind r) = true /\ kind_eqb (kind l) (kind r) = true) \/
  kind r = own_prim (kind l) \/
  (kind r = KFloat /\ forall s, kind l <> KStrLit s).
Proof.
  intros Hl Hr Hlit Hc. rewrite subsume_literal_spec by done.
  split.
  - intros [?|[Hp [?|Hs]]]; [by left|by right; right|].
    right. left. by apply lit_clean_prim.
  - intros [?|[E|[E ?]]]; [by left|right|right].
    + destruct r as [kr ar fr]; simpl in E; subst kr.
      destruct l as [[] al fl]; try discriminate Hlit;
        (split; [reflexivity | right; apply str_contains_prefix]).
    + rewrite E. simpl. auto.
Qed.

(** ** Transitivity *)

(** [any] is only below [any] and the unions that hold it; [none] is only above itself. *)
Lemma subsume_any_l l r :
  wf_ty l = true -> wf_ty r = true -> kind l = KAny -> union_kind (kind r) = false ->
  subsume l r false = Ok true -> kind r = KAny.
Proof.
  intros Hl Hr El Hu. rewrite subsume_kind, El by done. by destruct (kind r).
Qed.

Lemma subsume_none_r l r :
  wf_ty l = true -> wf_ty r = true -> kind r = KNone -> union_kind (kind l) = false ->
  subsume l r false = Ok true -> kind l = KNone.
Proof.
  intros Hl Hr Er Hu. rewrite subsume_kind, Er by done. unfold subsume_literal.
  destruct (kind l); try done; autorewrite with ty_flags; unfold is_primitive; rewrite Er; done.
Qed.

(** Subsumption of the kinds without components, on the fragment. *)
Definition leaf_sub (k k' : type_kind) : bool :=
  match k, k' with
  | KBoolLit x, KBoolLit y => Bool.eqb x y
  | KIntLit x, KIntLit y => x =? y
  | KFloatLit x, KFloatLit y => f64_eqb x y
  | KStrLit x, KStrLit y => string_eqb x y
  | KBoolLit _, (KBool | KFloat) => true
  | (KInt | KIntLit _), (KInt | KFloat | KFloatLit _) => true
  | (KFloat | KFloatLit _), KFloat => true
  | (KStr | KStrLit _), KStr => true
  | KBool, KBool => true
  | KSchema s, KSchema s' => is_sub_schema_of s s'
  | KNumberMultiplier m, KNumberMultiplier m' => subsume_number_multiplier m m'
  | KModule m, KModule m' => module_type_eqb m m'
  | KNamed n, KNamed n' => string_eqb n n'
  | KVoid, KVoid => true
  | _, _ => false
  end.

Definition leaf_kind (k : type_kind) : bool :=
  match k with
  | KList _ | KDict _ _ | KUnion _ | KNone | KAny | KFunction _ => false
  | _ => true
  end.

Lemma subsume_leaf env a b :
  good env a -> good env b -> leaf_kind (kind a) = true ->
  union_kind (kind b) = false -> kind b <> KAny ->
  subsume a b false = Ok true <-> leaf_sub (kind a) (kind b) = true.
Proof.
  intros [Wa Pa] [Wb Pb] Ha Hb1 Hb2.
  assert (H : forall x : bool, Ok x = Ok true <-> x = true) by (split; congruence).
  rewrite subsume_kind by done.
  destruct (lit_kind (kind a)) eqn:La.
  - assert (Hc : lit_clean a = true) by (destruct a as [[] ? ?]; done).
    pose proof (lit_clean_spec a b Wa Wb La Hc) as Hs.
    destruct (kind a) eqn:Ea; try discriminate La; destruct (kind b) eqn:Eb; try done;
      rewrite ?H, ?Hs; simpl; naive_solver.
  - destruct (kind a) eqn:Ea; try discriminate; destruct (kind b) eqn:Eb; try done;
      by rewrite H.
Qed.

Lemma leaf_sub_trans ka kb kc env :
  (forall s, ka = KSchema s -> registered env s) ->
  (forall s, kb = KSchema s -> registered env s) ->
  leaf_sub ka kb = true -> leaf_sub kb kc = true -> leaf_sub ka kc = true.
Proof.
  intros Ra Rb.
  destruct ka; try discriminate; destruct kb; try discriminate; destruct kc; try discriminate;
    simpl; try done; unfold string_eqb; rewrite ?bool_decide_eq_true; try congruence.
  - destruct b, b0, b1; done.
  - lia.
  - apply f64_eqb_trans.
  - rewrite !extends_spec. eapply extends_trans; eauto.
  - rewrite !number_multiplier_spec. intuition congruence.
  - intros ->%module_type_eqb_eq. done.
Qed.

Lemma subsume_trans_aux env a b c :
  good env a -> good env b -> good env c ->
  subsume a b false = Ok true -> subsume b c false = Ok true -> subsume a c false = Ok true.
Proof.
  revert b c. induction a as [ka aa fa IHa] using ty_ind. intros b.
  induction b as [kb ab fb IHb] using ty_ind. intros c.
  induction c as [kc ac fc IHc] using ty_ind. intros Ga Gb Gc Hab Hbc.
  set (a := mkType ka aa fa) in *. set (b := mkType kb ab fb) in *.
  set (c := mkType kc ac fc) in *.
  pose proof (good_walk _ _ Ga) as WA. pose proof (good_walk _ _ Gb) as WB.
  pose proof (good_walk _ _ Gc) as WC. cbn [kind a b c] in WA, WB, WC.
  pose proof Ga as [Wa _]. pose proof Gb as [Wb _]. pose proof Gc as [Wc _].
  destruct (union_kind ka) eqn:Ua.
  { destruct ka as [| | | | | | | | | | | |us| | | | | |]; try discriminate.
    apply (subsume_union_l a c false us); [done..|]. intros t Ht.
    simpl in IHa, WA. rewrite Forall_forall in IHa. eapply (IHa t Ht b c); eauto with kcl.
    by apply (subsume_union_l a b false us). }
  assert (Hn : is_none a = true \/ is_none a = false) by (destruct (is_none a); auto).
  destruct Hn as [Hn|Hn].
  { rewrite subsume_eq, Hn. by rewrite !orb_true_r. }
  destruct (union_kind kb) eqn:Ub.
  { destruct kb as [| | | | | | | | | | | |us| | | | | |]; try discriminate.
    apply (subsume_union_r a b false us) in Hab as (t & Ht & Hat); [|done..].
    simpl in IHb, WB. rewrite Forall_forall in IHb. eapply (IHb t Ht c); eauto with kcl.
    by apply (subsume_union_l b c false us). }
  rewrite wf_is_none in Hn by done. cbn [kind a] in Hn.
  destruct (decide (is_none b = true)) as [Hnb|Hnb].
  { rewrite wf_is_none in Hnb by done. cbn [kind b] in Hnb. exfalso.
    assert (E : kind a = KNone).
    { apply (subsume_none_r a b); try done. cbn [kind b]. by destruct kb. }
    cbn [kind a] in E. by rewrite E in Hn. }
  destruct (union_kind kc) eqn:Uc.
  { destruct kc as [| | | | | | | | | | | |us| | | | | |]; try discriminate.
    apply (subsume_union_r b c false us) in Hbc as (t & Ht & Hbt); [|try done..].
    2:{ simpl. by destruct (is_none b). }
    simpl in IHc, WC. rewrite Forall_forall in IHc.
    eapply (subsume_member a c false us t); eauto. eapply (IHc t Ht); eauto with kcl. }
  destruct (decide (is_any c = true)) as [Hc|Hc].
  { rewrite subsume_eq, Hc. by rewrite orb_true_r. }
  rewrite wf_is_any in Hc by done. cbn [kind c] in Hc.
  rewrite wf_is_none in Hnb by done. cbn [kind b] in Hnb.
  assert (Hkb : kb <> KAny).
  { intros ->. assert (E : kc = KAny) by (apply (subsume_any_l b c); done).
    by rewrite E in Hc. }
  assert (Hka : ka <> KAny).
  { intros ->. by apply Hkb, (subsume_any_l a b). }
  assert (Hkc : kc <> KAny) by (by intros ->).
  destruct (leaf_kind ka) eqn:La.
  { apply (subsume_leaf env a b) in Hab; [|done..].
    assert (Lb : leaf_kind kb = true) by (cbn [kind a b] in Hab; by destruct ka, kb).
    apply (subsume_leaf env b c) in Hbc; [|done..].
    apply (subsume_leaf env a c); [done..|].
    refine (leaf_sub_trans ka kb kc env _ _ Hab Hbc); intros s ->; [apply Ga | apply Gb]. }
  rewrite subsume_kind in Hab, Hbc |- * by done. cbn [kind a b c] in Hab, Hbc |- *.
  destruct ka; try discriminate; try done; destruct kb; try discriminate; try done;
    destruct kc; try discriminate; try done.
  - by apply (IHa item_ty0 item_ty1).
  - simpl in IHa, WA, WB, WC. inv_bind Hab. inv_bind Hbc.
    destruct a0; [|done]. destruct a1; [|done].
    destruct IHa as [IHk IHv], WA as [? ?], WB as [? ?], WC as [? ?].
    rewrite (IHk key_ty0 key_ty1) by done. simpl. by apply (IHv val_ty0 val_ty1).
  - by destruct Ga.
Qed.

(** ** Equal types subsume each other *)

Lemma subsume_eqb env t :
  good env t -> forall u, good env u -> ty_eqb u t = true -> subsume t u false = Ok true.
Proof.
  induction t as [k a f IH] using ty_ind. intros G [k' a' f'] G' He.
  pose proof (good_walk _ _ G) as W. pose proof (good_walk _ _ G') as W'.
  pose proof G as [Hw _]. pose proof G' as [Hw' _].
  simpl in W, W'. simpl in He. rewrite !andb_true_iff in He. destruct He as [[He _] _].
  destruct (union_kind k) eqn:Uk.
  { destruct k as [| | | | | | | | | | | |ts| | | | | |], k' as [| | | | | | | | | | | |us| | | | | |];
      try discriminate.
    apply (subsume_union_l _ _ false ts); [done..|].
    set (r := mkType (KUnion us) a' f') in *.
    assert (Hmem : forall t, t ∈ ts -> exists u, u ∈ us /\ ty_eqb u t = true).
    { clear -He. simpl in He. revert us He.
      induction ts as [|t ts IH]; intros [|u us] He; try done; [set_solver|].
      simpl in He. apply andb_true_iff in He as [H1 H2]. pose proof (IH us H2) as H3.
      intros s [->|Hs]%elem_of_cons; [exists u; set_solver|].
      destruct (H3 s Hs) as (v & ? & ?). exists v. set_solver. }
    intros t Ht. destruct (Hmem t Ht) as (u & Hu & Heq). simpl in IH, W, W'.
    rewrite Forall_forall in IH. apply (subsume_member t r false us u); eauto with kcl.
    exact (proj1 (good_elem _ _ _ W Ht)). }
  destruct (leaf_kind k) eqn:Lk.
  { assert (leaf_kind k' = true /\ union_kind k' = false /\ k' <> KAny) as (? & ? & ?)
      by (destruct k, k'; done).
    apply (subsume_leaf env); [done..|]. simpl.
    destruct k, k'; try discriminate; simpl in *; try done; unfold string_eqb in *;
      rewrite ?bool_decide_eq_true in *; try congruence.
    - destruct b, b0; done.
    - lia.
    - by rewrite f64_eqb_sym.
    - destruct schema as [n p], schema0 as [n' p']. simpl in He. unfold string_eqb in He.
      rewrite !andb_true_iff, !bool_decide_eq_true in He. destruct He as [He _].
      apply extends_spec, extends_here. unfold ty_str_with_pkgpath. simpl.
      destruct He as [[[[[[[[[[[[[-> ->] _] _] _] _] _] _] _] _] _] _] _] _]. done.
    - apply number_multiplier_spec. unfold number_multiplier_eqb in He.
      rewrite !andb_true_iff, bool_decide_eq_true in He. destruct He as [[[_ Hraw] Hsuf] Hlit].
      apply eqb_prop in Hlit. destruct (is_literal_nm nm); [right|by left].
      repeat split; [lia|done].
    - pose proof (module_type_eqb_eq _ _ He) as ->. exact He. }
  rewrite subsume_kind by done. simpl kind.
  destruct k, k'; try discriminate; try done.
  - by apply IH.
  - simpl in *. apply andb_true_iff in He as [Hk Hv].
    destruct IH as [IHk IHv], W as [? ?], W' as [? ?].
    rewrite IHk by done. simpl. by apply IHv.
  - by destruct G.
Qed.

(** ** Properties *)

(** C23: on the types of one program (one class table, no function types, no literal whose
    rendering mentions a foreign primitive type) subsumption is a preorder: every type
    that equals itself (no NaN literal) is below itself, and the relation is transitive. *)
Theorem subsume_preorder env a b c :
  good env a -> good env b -> good env c ->
  (ty_eqb a a = true -> subsume a a false = Ok true) /\
  (subsume a b false = Ok true -> subsume b c false = Ok true ->
   subsume a c false = Ok true).
Proof.
  intros Ga Gb Gc. split.
  - by apply (subsume_eqb env).
  - by apply (subsume_trans_aux env).
Qed.

Definition no_func : function_type := mkFunctionType "" [] None ANY false None.
Definition schema_animal : schema_type :=
  mkSchemaType "Animal" "pkg" "" "" false false false false None None [] [] no_func None [].
Definition schema_dog : schema_type :=
  mkSchemaType "Dog" "pkg" "" "" true false false false (Some schema_animal) None [] []
    no_func None [].
Definition zoo : class_table := {["@pkg.Animal" := None; "@pkg.Dog" := Some "@pkg.Animal"]}.

Lemma subsume_preorder_witness :
  subsume (list_of (schema_of schema_dog))
    (list_of (union_of [schema_of schema_animal; ANY])) false = Ok true.
Proof.
  refine (proj2 (subsume_preorder zoo (list_of (schema_of schema_dog))
            (list_of (schema_of schema_animal))
            (list_of (union_of [schema_of schema_animal; ANY])) _ _ _) _ _);
    try (vm_compute; reflexivity);
    (split; [vm_compute; reflexivity|]); repeat (constructor || vm_compute).
Defined.
