(* ===== verification/Sup.v ===== *)
(** * Properties of [typeof] and [sup]

    The ordered set that [typeof] builds holds the leaves of the input unions, without
    [void] and without repetition; [sup] keeps its maximal members.  The result is below
    every upper bound of the input, and is itself an upper bound as soon as subsumption
    is transitive and antisymmetric on the leaves; without antisymmetry the code drops
    both members of a pair and may return [any]. *)

From S2P Require Import Prelude MachineInt Floats TypeData Unify SubOrder.

(** ** The source definitions *)

(** The ordered set of [typeof]: unions are flattened, the bottom type and duplicates are
    left out. *)
Definition set_contains (type_set : list ty) (t : ty) : bool :=
  existsb (fun e => ty_eqb e t) type_set.

Fixpoint add_type_to_type_set (type_set : list ty) (t : ty) {struct t} : list ty :=
  match t with
  | mkType (KUnion types) _ _ =>
      fold_left (fun set t' => add_type_to_type_set set t') types type_set
  | _ =>
      if negb (is_void t) && negb (set_contains type_set t) then type_set ++ [t] else type_set
  end.

Definition add_types_to_type_set (type_set : list ty) (types : list ty) : list ty :=
  fold_left (fun set t => add_type_to_type_set set t) types type_set.

(** The inner loop over [j]: [i] enters the set of removed indices when [source] is
    subsumed by some other member. *)
Fixpoint subsumed_by_other (i : nat) (source : ty) (j : nat) (targets : list ty)
    (removed : bool) : outcome bool :=
  match targets with
  | [] => Ok removed
  | target :: targets' =>
      if Nat.eqb i j then subsumed_by_other i source (S j) targets' removed
      else b ← subsume source target false;
           subsumed_by_other i source (S j) targets' (removed || b)
  end.

(** The outer loop over [i], followed by the filter on the removed indices. *)
Fixpoint keep_maximal (type_set : list ty) (i : nat) (sources : list ty) : outcome (list ty) :=
  match sources with
  | [] => Ok []
  | source :: sources' =>
      removed ← subsumed_by_other i source 0 type_set false;
      rest ← keep_maximal type_set (S i) sources';
      Ok (if (removed : bool) then rest else source :: rest)
  end.

Definition typeof (types : list ty) (should_remove_sub_types : bool) : outcome ty :=
  let type_set := add_types_to_type_set [] types in
  type_set ← (if should_remove_sub_types then keep_maximal type_set 0 type_set
              else Ok type_set);
  Ok match type_set with
     | [] => ANY
     | [t] => t
     | _ => union_of type_set
     end.

Definition sup (types : list ty) : outcome ty := typeof types true.

(** ** Specification vocabulary *)

(** The non-union types a type is made of. *)
Fixpoint leaves (t : ty) : list ty :=
  match t with
  | mkType (KUnion types) _ _ => flat_map leaves types
  | _ => [t]
  end.

Definition flat_leaf (t : ty) : Prop := union_kind (kind t) = false /\ is_void t = false.

(** No two members are equal (the test is the one of [Vec::contains]). *)
Definition distinct (l : list ty) : Prop := ForallOrdPairs (fun a b => ty_eqb a b = false) l.

Definition type_set_ok (l : list ty) : Prop :=
  Forall flat_leaf l /\ distinct l /\ Forall (fun t => wf_ty t = true) l.

(** [t] is subsumed by a member of [l] at an index other than [i]. *)
Definition dominated (l : list ty) (i : nat) (t : ty) : Prop :=
  exists j u, l !! j = Some u /\ i <> j /\ subsume t u false = Ok true.

(** No two members at different indices subsume each other. *)
Definition antisym_on (l : list ty) : Prop :=
  forall i j t u, l !! i = Some t -> l !! j = Some u -> i <> j ->
    subsume t u false = Ok true -> subsume u t false = Ok true -> False.

Definition trans_on (l : list ty) : Prop :=
  forall a b c, a ∈ l -> b ∈ l -> c ∈ l ->
    subsume a b false = Ok true -> subsume b c false = Ok true -> subsume a c false = Ok true.

(** Adding one leaf to the ordered set. *)
Definition add_leaf (set : list ty) (t : ty) : list ty :=
  if negb (is_void t) && negb (set_contains set t) then set ++ [t] else set.

(** A test for [antisym_on]. *)
Definition mutual (l : list ty) (i j : nat) : bool :=
  match l !! i, l !! j with
  | Some t, Some u =>
      negb (Nat.eqb i j) && bool_decide (subsume t u false = Ok true) &&
      bool_decide (subsume u t false = Ok true)
  | _, _ => false
  end.
Definition antisym_b (l : list ty) : bool :=
  forallb (fun i => forallb (fun j => negb (mutual l i j)) (seq 0 (length l)))
    (seq 0 (length l)).

(** ** The ordered set *)

Section TypeSet.
Implicit Types (set types : list ty) (t u : ty).

Lemma leaves_wf t : wf_ty t = true -> Forall (fun s => wf_ty s = true) (leaves t).
Proof.
  induction t as [k a f IH] using ty_ind. intros Hwf.
  pose proof (wf_walk _ Hwf) as W. simpl in W.
  destruct k; simpl in *; try (by repeat constructor).
  apply Forall_forall. intros s (t & Ht & Hs)%list_elem_of_In%in_flat_map.
  apply list_elem_of_In in Ht, Hs. rewrite Forall_forall in IH, W.
  specialize (IH t Ht (W t Ht)). rewrite Forall_forall in IH. auto.
Qed.

Lemma leaves_flat t u : u ∈ leaves t -> union_kind (kind u) = false.
Proof.
  induction t as [k a f IH] using ty_ind.
  destruct k; simpl; try (by intros ->%list_elem_of_singleton).
  intros (t & Ht & Hs)%list_elem_of_In%in_flat_map.
  apply list_elem_of_In in Ht, Hs. simpl in IH. rewrite Forall_forall in IH. eauto.
Qed.

Lemma leaves_self t : union_kind (kind t) = false -> leaves t = [t].
Proof. destruct t as [[] a f]; simpl; try discriminate; reflexivity. Qed.

Lemma add_type_leaves t set : add_type_to_type_set set t = fold_left add_leaf (leaves t) set.
Proof.
  revert set. induction t as [k a f IH] using ty_ind. intros set.
  destruct k; try reflexivity.
  simpl in *. revert set. induction IH as [|t ts Ht _ IHts]; intros set; [done|].
  simpl. rewrite fold_left_app, <- Ht. apply IHts.
Qed.

Lemma add_types_leaves types set :
  add_types_to_type_set set types = fold_left add_leaf (flat_map leaves types) set.
Proof.
  revert set. induction types as [|t ts IH]; intros set; [done|].
  simpl. rewrite fold_left_app, <- add_type_leaves. apply IH.
Qed.

Lemma distinct_snoc set t :
  distinct set -> set_contains set t = false -> distinct (set ++ [t]).
Proof.
  unfold distinct, set_contains. intros Hd. induction Hd as [|x l Hx _ IH]; simpl.
  - intros _. by repeat constructor.
  - intros [H1 H2]%orb_false_iff. constructor; [|by apply IH].
    apply Forall_app. split; [done|]. by repeat constructor.
Qed.

Lemma add_leaf_ok set t :
  type_set_ok set -> wf_ty t = true -> union_kind (kind t) = false ->
  type_set_ok (add_leaf set t).
Proof.
  intros (Hf & Hd & Hw) Hwf Hu. unfold add_leaf.
  destruct (is_void t) eqn:Ev; simpl; [done|].
  destruct (set_contains set t) eqn:Ec; simpl; [done|].
  repeat split.
  - apply Forall_app. split; [done|]. by repeat constructor.
  - by apply distinct_snoc.
  - apply Forall_app. split; [done|]. by repeat constructor.
Qed.

Lemma fold_add_leaf_ok ls set :
  type_set_ok set -> Forall (fun t => wf_ty t = true) ls ->
  Forall (fun t => union_kind (kind t) = false) ls ->
  type_set_ok (fold_left add_leaf ls set).
Proof.
  revert set. induction ls as [|t ls IH]; intros set Hs; [done|].
  rewrite !list.Forall_cons. intros [? ?] [? ?]. simpl. apply IH; auto using add_leaf_ok.
Qed.

Lemma fold_add_leaf_elem ls set u :
  u ∈ fold_left add_leaf ls set -> u ∈ set \/ u ∈ ls.
Proof.
  revert set. induction ls as [|t ls IH]; intros set; simpl; [auto|].
  intros [H|H]%IH; [|set_solver]. unfold add_leaf in H.
  destruct (negb _ && negb _); set_solver.
Qed.

Lemma fold_add_leaf_incl ls set u : u ∈ set -> u ∈ fold_left add_leaf ls set.
Proof.
  revert set. induction ls as [|t ls IH]; intros set Hu; simpl; [done|].
  apply IH. unfold add_leaf. destruct (negb _ && negb _); set_solver.
Qed.

(** Every leaf other than [void] is in the set, up to the equality of the code. *)
Lemma fold_add_leaf_covers ls set t :
  t ∈ ls -> is_void t = false ->
  t ∈ fold_left add_leaf ls set \/
  exists u, u ∈ fold_left add_leaf ls set /\ ty_eqb u t = true.
Proof.
  revert set. induction ls as [|s ls IH]; intros set; [set_solver|].
  intros [->|Ht]%elem_of_cons Hv; simpl; [|by apply IH].
  unfold add_leaf at 2 4. rewrite Hv. simpl.
  destruct (set_contains set s) eqn:Ec; simpl.
  - right. apply existsb_exists in Ec as (u & Hu & He).
    exists u. split; [|done]. apply fold_add_leaf_incl. by apply list_elem_of_In.
  - left. apply fold_add_leaf_incl. set_solver.
Qed.

Lemma leaves_types_wf types :
  Forall (fun t => wf_ty t = true) types ->
  Forall (fun t => wf_ty t = true) (flat_map leaves types) /\
  Forall (fun t => union_kind (kind t) = false) (flat_map leaves types).
Proof.
  intros Hw. rewrite !Forall_forall in *. split; intros u (t & Ht & Hu)%list_elem_of_In%in_flat_map;
    apply list_elem_of_In in Ht, Hu; [|by eapply leaves_flat].
  pose proof (leaves_wf t (Hw t Ht)) as H. rewrite Forall_forall in H. auto.
Qed.

Lemma type_set_of_ok types :
  Forall (fun t => wf_ty t = true) types -> type_set_ok (add_types_to_type_set [] types).
Proof.
  intros [H1 H2]%leaves_types_wf. rewrite add_types_leaves.
  apply fold_add_leaf_ok; [|done..]. repeat split; constructor.
Qed.
End TypeSet.

(** ** Removing the subsumed members *)

Section Maximal.
Implicit Types (set kept : list ty) (t u : ty).

Lemma subsumed_by_other_spec i source j targets removed :
  wf_ty source = true -> Forall (fun t => wf_ty t = true) targets ->
  exists b, subsumed_by_other i source j targets removed = Ok b /\
    (b = true <-> removed = true \/
      exists n u, targets !! n = Some u /\ i <> (j + n)%nat /\
                  subsume source u false = Ok true).
Proof.
  intros Hs Hw. revert j removed. induction Hw as [|u us Hu _ IH]; intros j removed.
  - exists removed. split; [done|]. split; [auto|]. intros [?|(n & u & Hn & _)]; [done|].
    by rewrite lookup_nil in Hn.
  - cbn [subsumed_by_other]. destruct (Nat.eqb_spec i j) as [->|Hij].
    + destruct (IH (S j) removed) as (b & -> & Hb). exists b. split; [done|]. rewrite Hb.
      split; (intros [?|(n & v & Hn & Hne & Hsub)]; [by left|right]).
      * exists (S n), v. repeat split; [done|lia|done].
      * destruct n as [|n]; [lia|]. exists n, v. repeat split; [done|lia|done].
    + destruct (subsume_ok_cases source u false Hs Hu) as [E|E]; rewrite E; simpl;
        [destruct (IH (S j) (removed || true)) as (b & -> & Hb)
        |destruct (IH (S j) (removed || false)) as (b & -> & Hb)];
        exists b; (split; [done|]); rewrite Hb.
      * rewrite orb_true_r. split; [|auto]. intros _. right. exists O, u.
        repeat split; [lia|done].
      * rewrite orb_false_r. split; (intros [?|(n & v & Hn & Hne & Hsub)]; [by left|right]).
        -- exists (S n), v. repeat split; [done|lia|done].
        -- destruct n as [|n]; [simpl in Hn; simplify_eq; congruence|].
           exists n, v. repeat split; [done|lia|done].
Qed.

Lemma keep_maximal_spec set i sources :
  Forall (fun t => wf_ty t = true) set -> Forall (fun t => wf_ty t = true) sources ->
  exists kept, keep_maximal set i sources = Ok kept /\ sublist kept sources /\
    forall u, u ∈ kept <-> exists n, sources !! n = Some u /\ ~ dominated set (i + n) u.
Proof.
  intros Hset Hw. revert i. induction Hw as [|t ts Ht _ IH]; intros i.
  - exists []. split; [done|]. split; [constructor|]. intros u. split; [set_solver|].
    intros (n & Hn & _). by rewrite lookup_nil in Hn.
  - cbn [keep_maximal].
    destruct (subsumed_by_other_spec i t 0 set false Ht Hset) as (b & -> & Hb). simpl.
    destruct (IH (S i)) as (kept & -> & Hsub & Hk). simpl.
    assert (Hdom : b = true <-> dominated set i t).
    { rewrite Hb. split; [intros [?|(n & u & ?)]; [done|]; by exists n, u |].
      intros (n & u & ?). right. by exists n, u. }
    assert (Htail : forall u,
      (exists n, (t :: ts) !! n = Some u /\ ~ dominated set (i + n) u) <->
      (u = t /\ ~ dominated set i t) \/ u ∈ kept).
    { intros u. rewrite Hk. split.
      - intros ([|n] & Hn & Hd); simpl in Hn; simplify_eq.
        + left. by rewrite Nat.add_0_r in Hd.
        + right. exists n. split; [done|]. by rewrite <- Nat.add_succ_comm in Hd.
      - intros [[-> Hd]|(n & Hn & Hd)].
        + exists O. by rewrite Nat.add_0_r.
        + exists (S n). split; [done|]. by rewrite <- Nat.add_succ_comm. }
    destruct b.
    + exists kept. split; [done|]. split; [by constructor|]. intros u. rewrite Htail.
      naive_solver.
    + exists (t :: kept). split; [done|]. split; [by constructor|]. intros u.
      rewrite Htail, elem_of_cons. naive_solver.
Qed.

(** No kept member subsumes another one, in either direction. *)
Definition incomparable (kept : list ty) : Prop :=
  ForallOrdPairs (fun t u => subsume t u false = Ok false /\ subsume u t false = Ok false) kept.

Lemma keep_maximal_incomparable pre sources kept :
  Forall (fun t => wf_ty t = true) (pre ++ sources) ->
  keep_maximal (pre ++ sources) (length pre) sources = Ok kept -> incomparable kept.
Proof.
  revert pre kept. induction sources as [|t ts IH]; intros pre kept Hw Hk.
  { injection Hk as <-. constructor. }
  set (set := pre ++ t :: ts) in *.
  assert (Hlen : forall n u, (t :: ts) !! n = Some u -> set !! (length pre + n)%nat = Some u).
  { intros n u Hn. unfold set. rewrite lookup_app_r by lia.
    by replace (length pre + n - length pre)%nat with n by lia. }
  assert (Hwt : Forall (fun t => wf_ty t = true) (t :: ts))
    by exact (proj2 (proj1 (Forall_app _ _ _) Hw)).
  destruct (keep_maximal_spec set (length pre) (t :: ts) Hw Hwt) as (kept' & Hk' & _ & Hiff).
  rewrite Hk in Hk'. injection Hk' as <-.
  cbn [keep_maximal] in Hk. inv_bind Hk. inv_bind Hk.
  assert (Hrest : incomparable a0).
  { apply (IH (pre ++ [t])).
    - by rewrite <- app_assoc.
    - rewrite <- app_assoc, length_app, Nat.add_1_r. exact Hk1. }
  injection Hk as <-. destruct a; [done|]. constructor; [|done].
  apply List.Forall_forall. intros u Hu%list_elem_of_In.
  assert (Hwts : Forall (fun t => wf_ty t = true) ts) by (by inversion_clear Hwt).
  destruct (keep_maximal_spec set (S (length pre)) ts Hw Hwts) as (k2 & Hk2 & _ & Hiff2).
  rewrite Hk1 in Hk2. injection Hk2 as <-.
  apply Hiff2 in Hu as Hu2. destruct Hu2 as (n & Hn & Hdu).
  assert (Hlu : set !! (S (length pre) + n)%nat = Some u).
  { rewrite Nat.add_succ_comm. by apply Hlen. }
  assert (Hlt : set !! length pre = Some t).
  { rewrite <- (Nat.add_0_r (length pre)). by apply Hlen. }
  assert (Hwt' : wf_ty t = true) by (by inversion_clear Hwt).
  assert (Hwu : wf_ty u = true).
  { rewrite Forall_forall in Hw. apply Hw. by eapply list_elem_of_lookup_2. }
  destruct (subsumed_by_other_spec (length pre) t 0 set false Hwt' Hw) as (b & Hb & Hbi).
  rewrite Hk0 in Hb. injection Hb as <-.
  split.
  - destruct (subsume_ok_cases t u false Hwt' Hwu) as [E|E]; [|done]. exfalso.
    assert (false = true); [|done]. apply Hbi. right. exists (S (length pre) + n)%nat, u.
    repeat split; [done|lia|done].
  - destruct (subsume_ok_cases u t false Hwu Hwt') as [E|E]; [|done]. exfalso.
    apply Hdu. exists (length pre), t. repeat split; [done|lia|done].
Qed.

(** The set of [sup] and its maximal members. *)
Lemma sup_spec types :
  Forall (fun t => wf_ty t = true) types ->
  let set := add_types_to_type_set [] types in
  exists kept,
    keep_maximal set 0 set = Ok kept /\ sublist kept set /\ type_set_ok kept /\
    (forall u, u ∈ kept <-> exists n, set !! n = Some u /\ ~ dominated set n u) /\
    sup types = Ok match kept with [] => ANY | [t] => t | _ => union_of kept end.
Proof.
  intros Hw set. destruct (type_set_of_ok types Hw) as (Hf & Hd & Hws).
  destruct (keep_maximal_spec set 0 set Hws Hws) as (kept & Hk & Hsub & Hiff).
  exists kept. split; [done|]. split; [done|]. split; [repeat split|].
  - apply Forall_forall. intros u Hu. rewrite Forall_forall in Hf. apply Hf.
    by eapply elem_of_sublist.
  - clear -Hsub Hd. fold set in Hd. induction Hsub as [|x l1 l2 Hs IH|x l1 l2 Hs IH].
    + constructor.
    + inversion_clear Hd as [|? ? Hx Hd']. constructor; [|by apply IH].
      apply List.Forall_forall. intros y Hy. rewrite List.Forall_forall in Hx. apply Hx.
      apply list_elem_of_In. eapply elem_of_sublist; [|done]. by apply list_elem_of_In.
    + inversion_clear Hd as [|? ? Hx Hd']. by apply IH.
  - apply Forall_forall. intros u Hu. rewrite Forall_forall in Hws. apply Hws.
    by eapply elem_of_sublist.
  - split; [apply Hiff|]. unfold sup, typeof. fold set. by rewrite Hk.
Qed.
End Maximal.

(** ** Bounds *)

Lemma union_of_wf ts : Forall (fun t => wf_ty t = true) ts -> wf_ty (union_of ts) = true.
Proof. intros H. by apply wf_mk. Qed.

(** A member of the kept list is below the result. *)
Lemma kept_below_result (kept : list ty) (u : ty) :
  Forall (fun t => wf_ty t = true) kept -> Forall flat_leaf kept -> u ∈ kept ->
  subsume u u false = Ok true ->
  subsume u match kept with [] => ANY | [t] => t | _ => union_of kept end false = Ok true.
Proof.
  intros Hw Hf Hu Hr. destruct kept as [|t [|t' ts]]; [set_solver| |].
  - by apply list_elem_of_singleton in Hu as ->.
  - apply (subsume_member u _ false (t :: t' :: ts) u); try done.
    + by eapply wf_elem.
    + by apply union_of_wf.
Qed.

(** The leaves of a type below [u] are below [u], and conversely. *)
Lemma subsume_leaves t u :
  wf_ty t = true -> wf_ty u = true ->
  subsume t u false = Ok true <-> forall l, l ∈ leaves t -> subsume l u false = Ok true.
Proof.
  intros Hw Hu. induction t as [k a f IH] using ty_ind.
  pose proof (wf_walk _ Hw) as W. simpl in W.
  destruct (union_kind k) eqn:Uk.
  - destruct k as [| | | | | | | | | | | |ts| | | | | |]; try discriminate.
    rewrite (subsume_union_l _ u false ts) by done. simpl in IH, W |- *.
    rewrite Forall_forall in IH, W. split.
    + intros H l (t & Ht & Hl)%list_elem_of_In%in_flat_map.
      apply list_elem_of_In in Ht, Hl. by apply (IH t Ht (W t Ht)); auto.
    + intros H t Ht. apply (IH t Ht (W t Ht)). intros l Hl. apply H.
      apply list_elem_of_In, in_flat_map. exists t. by rewrite <- !list_elem_of_In.
  - rewrite leaves_self by done. set_solver.
Qed.

Lemma leaves_good env t : good env t -> Forall (good env) (leaves t).
Proof.
  induction t as [k a f IH] using ty_ind. intros G.
  pose proof (good_walk _ _ G) as W. simpl in W.
  destruct k; simpl in *; try (by apply Forall_singleton).
  apply Forall_forall. intros l (t & Ht & Hl)%list_elem_of_In%in_flat_map.
  apply list_elem_of_In in Ht, Hl. rewrite Forall_forall in IH, W.
  specialize (IH t Ht (W t Ht)). rewrite Forall_forall in IH. auto.
Qed.

Lemma type_set_good env types :
  Forall (good env) types -> Forall (good env) (add_types_to_type_set [] types).
Proof.
  intros Hg. rewrite add_types_leaves. apply Forall_forall.
  intros u [?|(t & Ht & Hu)%list_elem_of_In%in_flat_map]%fold_add_leaf_elem; [set_solver|].
  apply list_elem_of_In in Ht, Hu. rewrite Forall_forall in Hg.
  pose proof (leaves_good env t (Hg t Ht)) as H. rewrite Forall_forall in H. auto.
Qed.

Lemma good_wf env ts : Forall (good env) ts -> Forall (fun t => wf_ty t = true) ts.
Proof. intros H. eapply list.Forall_impl; [exact H|]. intros t [? _]. done. Qed.

Lemma antisym_b_correct l : antisym_b l = true -> antisym_on l.
Proof.
  unfold antisym_b. rewrite forallb_forall. intros H i j t u Hi Hj Hne H1 H2.
  assert (Hil : In i (seq 0 (length l))) by (apply in_seq; apply lookup_lt_Some in Hi; lia).
  assert (Hjl : In j (seq 0 (length l))) by (apply in_seq; apply lookup_lt_Some in Hj; lia).
  specialize (H i Hil). rewrite forallb_forall in H. specialize (H j Hjl).
  unfold mutual in H. rewrite Hi, Hj, H1, H2 in H.
  apply Nat.eqb_neq in Hne. rewrite Hne, !bool_decide_eq_true_2 in H by done. done.
Qed.

(** Without mutual subsumption every member of the set is below a kept one. *)
Lemma below_kept env (set kept : list ty) (t : ty) :
  Forall (good env) set -> antisym_on set ->
  (forall u, u ∈ kept <-> exists n, set !! n = Some u /\ ~ dominated set n u) ->
  t ∈ set -> exists u, u ∈ kept /\ (t = u \/ subsume t u false = Ok true).
Proof.
  intros Hg Ha Hk [i Hi]%list_elem_of_lookup.
  set (R i j := i <> j /\ exists a b, set !! i = Some a /\ set !! j = Some b /\
                                      subsume a b false = Ok true).
  assert (Rdec : forall i j, Decision (R i j)).
  { intros m j. unfold R. apply and_dec; [apply _|].
    destruct (set !! m) as [x|] eqn:Ex, (set !! j) as [y|] eqn:Ey;
      try (right; intros (? & ? & ? & ? & ?); congruence).
    destruct (decide (subsume x y false = Ok true)) as [H|H].
    - left. by exists x, y.
    - right. intros (? & ? & ? & ? & ?). congruence. }
  destruct (below_maximal (length set) R) with (i := i) as (j & Hj & Hij & Hmax).
  - intros m _ [? _]. done.
  - intros i1 i2 i3 _ _ _ (N1 & a & b & Ea & Eb & H1) (N2 & b' & c & Eb' & Ec & H2).
    rewrite Eb in Eb'. simplify_eq. rewrite Forall_forall in Hg.
    assert (In3 : forall n x, set !! n = Some x -> good env x).
    { intros n x Hx. apply Hg. by eapply list_elem_of_lookup_2. }
    split.
    + intros ->. simplify_eq. exact (Ha i3 i2 _ _ Ea Eb N1 H1 H2).
    + exists a, c. repeat split; [done..|]. eapply (subsume_trans_aux env a b' c); eauto.
  - by eapply lookup_lt_Some.
  - destruct (lookup_lt_is_Some_2 set j Hj) as [u Hu]. exists u. split.
    + apply Hk. exists j. split; [done|]. intros (m & v & Hm & Hne & Hs).
      apply (Hmax m); [by eapply lookup_lt_Some|]. split; [done|]. by exists u, v.
    + destruct Hij as [->|(_ & a & b & Ea & Eb & Hs)]; [left|right]; congruence.
Qed.

(** A member of the type set is subsumed by itself when it equals itself (no NaN). *)
Lemma good_refl env t : good env t -> ty_eqb t t = true -> subsume t t false = Ok true.
Proof. intros G. by apply (subsume_eqb env). Qed.

Lemma sup_upper_aux env (types : list ty) (t s : ty) :
  Forall (good env) types ->
  antisym_on (add_types_to_type_set [] types) ->
  Forall (fun l => is_void l = false /\ ty_eqb l l = true) (flat_map leaves types) ->
  sup types = Ok s -> t ∈ types -> subsume t s false = Ok true.
Proof.
  intros Hg Ha Hl Hs Ht.
  pose proof (good_wf _ _ Hg) as Hw.
  destruct (sup_spec types Hw) as (kept & _ & Hsub & (Hf & _ & Hkw) & Hk & Hsup).
  rewrite Hs in Hsup. injection Hsup as ->.
  pose proof (type_set_good env types Hg) as Hsg.
  set (set := add_types_to_type_set [] types) in *.
  assert (Hres : wf_ty match kept with [] => ANY | [t] => t | _ => union_of kept end = true).
  { destruct kept as [|x [|y ks]]; [done| |by apply union_of_wf].
    by inversion_clear Hkw. }
  assert (Hgt : good env t) by (rewrite Forall_forall in Hg; auto).
  apply subsume_leaves; [apply Hgt|done|]. intros l Hlt.
  assert (Hin : l ∈ flat_map leaves types).
  { apply list_elem_of_In, in_flat_map. exists t. by rewrite <- !list_elem_of_In. }
  assert (Gl : good env l).
  { pose proof (leaves_good env t Hgt) as H. rewrite Forall_forall in H. auto. }
  rewrite Forall_forall in Hl. destruct (Hl l Hin) as [Hv Hrl].
  assert (exists v, v ∈ set /\ subsume l v false = Ok true) as (v & Hvs & Hlv).
  { unfold set. rewrite add_types_leaves.
    destruct (fold_add_leaf_covers (flat_map leaves types) [] l Hin Hv)
      as [H|(v & Hvs & Heq)].
    - exists l. split; [done|]. by eapply good_refl.
    - exists v. split; [done|]. apply (subsume_eqb env); [done| |done].
      rewrite <- add_types_leaves in Hvs. rewrite Forall_forall in Hsg. auto. }
  destruct (below_kept env set kept v Hsg Ha Hk Hvs) as (u & Hu & Hvu).
  assert (Gu : good env u).
  { rewrite Forall_forall in Hsg. apply Hsg. by eapply elem_of_sublist. }
  assert (Hru : ty_eqb u u = true).
  { assert (u ∈ flat_map leaves types) as Hul.
    { assert (Hus : u ∈ set) by (by eapply elem_of_sublist).
      unfold set in Hus. rewrite add_types_leaves in Hus.
      apply fold_add_leaf_elem in Hus as [?|?]; [set_solver|done]. }
    by apply Hl. }
  assert (Hus : subsume u match kept with [] => ANY | [t] => t | _ => union_of kept end false
                = Ok true).
  { apply kept_below_result; try done. by eapply good_refl. }
  assert (Gs : good env match kept with [] => ANY | [t] => t | _ => union_of kept end).
  { assert (Hkg : Forall (good env) kept).
    { apply Forall_forall. intros x Hx. rewrite Forall_forall in Hsg. apply Hsg.
      by eapply elem_of_sublist. }
    split; [done|]. destruct kept as [|x [|y ks]]; [done| |].
    - by inversion_clear Hkg as [|? ? [_ ?] _].
    - cbn [union_of plain]. rewrite Forall_map. eapply list.Forall_impl; [exact Hkg|].
      intros ? [_ ?]. done. }
  eapply (subsume_trans_aux env l v); eauto.
  - rewrite Forall_forall in Hsg. auto.
  - destruct Hvu as [->|Hvu]; [done|].
    eapply (subsume_trans_aux env v u); eauto.
    rewrite Forall_forall in Hsg. auto.
Qed.

(** ** Idempotence *)

Lemma distinct_contains l t :
  distinct (l ++ [t]) -> set_contains l t = false.
Proof.
  unfold distinct, set_contains. induction l as [|x l IH]; [done|]. simpl. intros Hd.
  inversion_clear Hd as [|? ? Hx Hl]. apply orb_false_iff. split; [|by apply IH].
  rewrite List.Forall_forall in Hx. apply Hx, in_app_iff. right. by left.
Qed.

Lemma distinct_app_l l1 l2 : distinct (l1 ++ l2) -> distinct l1.
Proof.
  unfold distinct. induction l1 as [|x l1 IH]; [constructor|]. simpl. intros Hd.
  inversion_clear Hd as [|? ? Hx Hl]. constructor; [|by apply IH].
  by apply Forall_app in Hx as [? _].
Qed.

(** Distinct leaves go through the set building unchanged. *)
Lemma fold_add_leaf_id set ls :
  Forall flat_leaf ls -> distinct (set ++ ls) -> fold_left add_leaf ls set = set ++ ls.
Proof.
  revert set. induction ls as [|t ls IH]; intros set Hf Hd; [by rewrite app_nil_r|].
  inversion_clear Hf as [|? ? [_ Hv] Hf']. simpl. unfold add_leaf at 2. rewrite Hv. simpl.
  assert (Hd1 : distinct (set ++ [t])).
  { apply (distinct_app_l _ ls). by rewrite <- app_assoc. }
  rewrite (distinct_contains set t Hd1). simpl.
  rewrite IH; [by rewrite <- app_assoc|done|by rewrite <- app_assoc].
Qed.

Lemma flat_leaves_id ls : Forall flat_leaf ls -> flat_map leaves ls = ls.
Proof.
  induction 1 as [|t ls [Hu _] _ IH]; [done|]. simpl. by rewrite leaves_self, IH.
Qed.

Lemma ForallOrdPairs_lookup {A} (R : A -> A -> Prop) l i j a b :
  ForallOrdPairs R l -> (i < j)%nat -> l !! i = Some a -> l !! j = Some b -> R a b.
Proof.
  intros Hl. revert i j. induction Hl as [|x l Hx _ IH]; intros i j Hij Hi Hj; [done|].
  destruct i as [|i], j as [|j]; simpl in *; try lia.
  - simplify_eq. rewrite List.Forall_forall in Hx. apply Hx, list_elem_of_In.
    by eapply list_elem_of_lookup_2.
  - by apply (IH i j); [lia| |].
Qed.

Lemma keep_maximal_id pre sources :
  Forall (fun t => wf_ty t = true) (pre ++ sources) -> incomparable (pre ++ sources) ->
  keep_maximal (pre ++ sources) (length pre) sources = Ok sources.
Proof.
  revert pre. induction sources as [|t ts IH]; intros pre Hw Hi; [done|].
  cbn [keep_maximal].
  assert (Ht : (pre ++ t :: ts) !! length pre = Some t).
  { rewrite lookup_app_r, Nat.sub_diag by lia. done. }
  assert (Hwt : wf_ty t = true).
  { rewrite Forall_forall in Hw. apply Hw. by eapply list_elem_of_lookup_2. }
  destruct (subsumed_by_other_spec (length pre) t 0 (pre ++ t :: ts) false Hwt Hw)
    as (b & -> & Hb). simpl.
  assert (b = false) as ->.
  { destruct b; [|done]. destruct (proj1 Hb eq_refl) as [?|(n & u & Hn & Hne & Hs)]; [done|].
    simpl in Hne. destruct (decide (n < length pre)%nat) as [Hlt|Hge].
    - destruct (ForallOrdPairs_lookup _ _ n (length pre) u t Hi Hlt Hn Ht). congruence.
    - destruct (ForallOrdPairs_lookup _ _ (length pre) n t u Hi); [lia|done|done|congruence]. }
  specialize (IH (pre ++ [t])). rewrite <- app_assoc, length_app, Nat.add_1_r in IH.
  change ([t] ++ ts) with (t :: ts) in IH. by rewrite IH.
Qed.

(** The union of incomparable distinct leaves is its own [sup]; so is a single leaf. *)
Lemma sup_kept kept :
  Forall (fun t => wf_ty t = true) kept -> Forall flat_leaf kept -> distinct kept ->
  incomparable kept ->
  sup kept = Ok match kept with [] => ANY | [t] => t | _ => union_of kept end.
Proof.
  intros Hw Hf Hd Hi. unfold sup, typeof.
  rewrite add_types_leaves, flat_leaves_id, fold_add_leaf_id, app_nil_l by done.
  pose proof (keep_maximal_id [] kept Hw Hi) as E. simpl in E. by rewrite E.
Qed.

Lemma sup_union_of kept : sup [union_of kept] = sup kept.
Proof.
  unfold sup, typeof. rewrite !add_types_leaves. simpl. by rewrite app_nil_r.
Qed.

Lemma sup_idem_aux types s :
  Forall (fun t => wf_ty t = true) types -> sup types = Ok s -> sup [s] = Ok s.
Proof.
  intros Hw Hs.
  destruct (sup_spec types Hw) as (kept & Hk & _ & (Hf & Hd & Hkw) & _ & Hsup).
  destruct (type_set_of_ok types Hw) as (_ & _ & Hsw).
  pose proof (keep_maximal_incomparable [] _ kept Hsw Hk) as Hi.
  rewrite Hs in Hsup. injection Hsup as ->.
  destruct kept as [|t [|t' ts]]; [done|by rewrite (sup_kept [t])|].
  by rewrite sup_union_of, sup_kept.
Qed.

Lemma sup_total types :
  Forall (fun t => wf_ty t = true) types -> exists s, sup types = Ok s.
Proof.
  intros Hw. destruct (sup_spec types Hw) as (kept & _ & _ & _ & _ & Hsup). eauto.
Qed.

(** ** Properties *)

(** C22: [sup] is an upper bound: on the types of one program (see [good]), without [void]
    and NaN, if no two members of the flattened input subsume each other, every input
    type is subsumed by the result. *)
Theorem sup_is_upper_bound env types :
  Forall (good env) types ->
  antisym_on (add_types_to_type_set [] types) ->
  Forall (fun l => is_void l = false /\ ty_eqb l l = true) (flat_map leaves types) ->
  exists s, sup types = Ok s /\ Forall (fun t => subsume t s false = Ok true) types.
Proof.
  intros Hg Ha Hl. destruct (sup_total types (good_wf _ _ Hg)) as [s Hs].
  exists s. split; [done|]. apply Forall_forall. intros t Ht. by eapply sup_upper_aux.
Qed.

Lemma sup_is_upper_bound_witness :
  exists s, sup [int_lit 1; union_of [INT; STR]] = Ok s /\
    Forall (fun t => subsume t s false = Ok true) [int_lit 1; union_of [INT; STR]].
Proof.
  apply (sup_is_upper_bound ∅).
  - repeat constructor; vm_compute; reflexivity.
  - apply antisym_b_correct. vm_compute. reflexivity.
  - repeat constructor; vm_compute; reflexivity.
Defined.

(** C10: [sup] is minimal: unless the code drops every member of the flattened input, the
    result is subsumed by every upper bound of the input. *)
Theorem sup_is_least types u :
  Forall (fun t => wf_ty t = true) types -> wf_ty u = true ->
  Forall (fun t => subsume t u false = Ok true) types ->
  keep_maximal (add_types_to_type_set [] types) 0 (add_types_to_type_set [] types) <> Ok [] ->
  exists s, sup types = Ok s /\ subsume s u false = Ok true.
Proof.
  intros Hw Hu Hub Hne.
  destruct (sup_spec types Hw) as (kept & Hk & Hsub & (Hf & _ & Hkw) & _ & Hsup).
  rewrite Hsup. eexists. split; [reflexivity|].
  assert (Hall : Forall (fun k => subsume k u false = Ok true) kept).
  { apply Forall_forall. intros k Hin. eapply elem_of_sublist in Hsub; [|done].
    rewrite add_types_leaves in Hsub. apply fold_add_leaf_elem in Hsub as [?|Hl]; [set_solver|].
    apply list_elem_of_In, in_flat_map in Hl as (t & Ht & Hl).
    apply list_elem_of_In in Ht, Hl. rewrite Forall_forall in Hub, Hw.
    exact (proj1 (subsume_leaves t u (Hw t Ht) Hu) (Hub t Ht) k Hl). }
  destruct kept as [|t [|t' ts]]; [done|by inversion_clear Hall|].
  apply (subsume_union_l _ u false (t :: t' :: ts)); [by apply union_of_wf|done|done|].
  by apply Forall_forall.
Qed.

Lemma sup_is_least_witness :
  exists s, sup [int_lit 1; INT; STR] = Ok s /\ subsume s (union_of [STR; FLOAT]) false = Ok true.
Proof.
  apply sup_is_least.
  - repeat constructor; vm_compute; reflexivity.
  - vm_compute; reflexivity.
  - repeat constructor; vm_compute; reflexivity.
  - vm_compute. discriminate.
Defined.

(** C30: the result of [sup] is irredundant: it is [any] when nothing is kept, a single
    leaf, or a union of at least two distinct leaves (no nested union, no [void], no
    repetition), none of which is subsumed by another one. *)
Theorem sup_irredundant types :
  Forall (fun t => wf_ty t = true) types ->
  exists kept, sup types = Ok match kept with [] => ANY | [t] => t | _ => union_of kept end /\
    Forall flat_leaf kept /\ distinct kept /\
    Forall (fun t => t ∈ flat_map leaves types) kept /\
    (forall t u, t ∈ kept -> u ∈ kept -> t <> u -> subsume t u false = Ok false).
Proof.
  intros Hw. destruct (sup_spec types Hw) as (kept & _ & Hsub & (Hf & Hd & Hkw) & Hk & Hsup).
  exists kept. split; [done|]. split; [done|]. split; [done|]. split.
  - apply Forall_forall. intros u Hu. eapply elem_of_sublist in Hsub; [|done].
    rewrite add_types_leaves in Hsub. apply fold_add_leaf_elem in Hsub as [?|?]; [set_solver|done].
  - intros t u Ht Hu Hne. rewrite Forall_forall in Hkw.
    destruct (subsume_ok_cases t u false) as [E|E]; [by apply Hkw..| |done].
    apply Hk in Ht as (n & Hn & Hdom). apply Hk in Hu as (m & Hm & _).
    exfalso. apply Hdom. exists m, u. repeat split; [done| |done]. congruence.
Qed.

Lemma sup_irredundant_witness :
  exists kept, sup [STR; union_of [INT; VOID]; int_lit 2; STR] =
      Ok match kept with [] => ANY | [t] => t | _ => union_of kept end /\
    Forall flat_leaf kept /\ distinct kept /\
    Forall (fun t => t ∈ flat_map leaves [STR; union_of [INT; VOID]; int_lit 2; STR]) kept /\
    (forall t u, t ∈ kept -> u ∈ kept -> t <> u -> subsume t u false = Ok false).
Proof. apply sup_irredundant. repeat constructor; vm_compute; reflexivity. Defined.

(** [sup] is idempotent: the result is its own supremum. *)
Theorem sup_idempotent types :
  Forall (fun t => wf_ty t = true) types -> exists s, sup types = Ok s /\ sup [s] = Ok s.
Proof.
  intros Hw. destruct (sup_total types Hw) as [s Hs]. exists s.
  split; [done|by apply (sup_idem_aux types)].
Qed.

Lemma sup_idempotent_witness :
  exists s, sup [int_lit 1; union_of [INT; str_lit "a"]; STR] = Ok s /\ sup [s] = Ok s.
Proof. apply sup_idempotent. repeat constructor; vm_compute; reflexivity. Defined.

(** [sup] is not an upper bound when two members of the flattened input subsume each
    other: both are dropped, and two leaves that are equivalent but not equal (the same
    union under a list, in two orders) give [any]. *)
Theorem sup_of_equivalent_types_is_any t u :
  wf_ty t = true -> wf_ty u = true -> flat_leaf t -> flat_leaf u -> ty_eqb t u = false ->
  subsume t u false = Ok true -> subsume u t false = Ok true ->
  sup [t; u] = Ok ANY.
Proof.
  intros Wt Wu [Ft Vt] [Fu Vu] Hne Htu Hut. unfold sup, typeof.
  assert (E : add_types_to_type_set [] [t; u] = [t; u]).
  { rewrite add_types_leaves. simpl. rewrite !leaves_self by done. simpl.
    unfold add_leaf. rewrite Vt. simpl. rewrite Vu, Hne. done. }
  rewrite E. simpl. rewrite Htu. simpl. by rewrite Hut.
Qed.

Lemma sup_of_equivalent_types_is_any_witness :
  sup [list_of (union_of [INT; STR]); list_of (union_of [STR; INT])] = Ok ANY.
Proof.
  apply sup_of_equivalent_types_is_any; try (vm_compute; reflexivity);
    split; vm_compute; reflexivity.
Defined.
