(* ===== verification/TypeContext.v ===== *)
(** * The type context

    Models [kclvm/sema/src/ty/context.rs] and [walker.rs]: the widening of value types to
    variable types, the tests on a type or on every member of a union, and the dependency
    graph of named schemas and packages.  The graph library is a parameter: the record
    [DiGraph] lists the operations the code calls with their documented behaviour, and
    [edge_list_graph] is an implementation of it. *)

From S2P Require Import Prelude MachineInt Floats TypeData Unify SubOrder Sup.

(** ** Widening *)

(** [types.iter().map(f).collect()] with a fallible [f]. *)
Definition map_m {A B} (f : A -> outcome B) : list A -> outcome (list B) :=
  fix go l :=
    match l with
    | [] => Ok []
    | x :: l' => match f x with
                 | Ok y => match go l' with Ok ys => Ok (y :: ys) | Panic s => Panic s end
                 | Panic s => Panic s
                 end
    end.

Fixpoint infer_to_variable_type (t : ty) {struct t} : outcome ty :=
  match t with
  | mkType k _ _ =>
      match k with
      | KNone => Ok ANY
      | KBoolLit _ => Ok BOOL
      | KIntLit _ => Ok INT
      | KFloatLit _ => Ok FLOAT
      | KStrLit _ => Ok STR
      | KList item_ty => item ← infer_to_variable_type item_ty; Ok (list_of item)
      | KDict key_ty val_ty =>
          key ← infer_to_variable_type key_ty;
          val ← infer_to_variable_type val_ty;
          Ok (dict_of key val)
      | KUnion types => ts ← map_m infer_to_variable_type types; sup ts
      | _ => Ok t
      end
  end.

Definition literal_union_type_to_variable_type (t : ty) : outcome ty :=
  if is_union t then infer_to_variable_type t else Ok t.

(** ** Kind tests that look through one union *)

Definition is_kind_type_or_kind_union_type (t : ty) (flag_list : list Z) : bool :=
  match kind t with
  | KUnion types =>
      forallb (fun t' => existsb (fun flag => contains_flags t' flag) flag_list) types
  | _ => existsb (fun flag => contains_flags t flag) flag_list
  end.

Definition is_number_type_or_number_union_type (t : ty) : bool :=
  is_kind_type_or_kind_union_type t [TypeFlags.INT; TypeFlags.FLOAT; TypeFlags.BOOL].
Definition is_config_type_or_config_union_type (t : ty) : bool :=
  is_kind_type_or_kind_union_type t [TypeFlags.DICT; TypeFlags.SCHEMA].
Definition is_str_type_or_str_union_type (t : ty) : bool :=
  is_kind_type_or_kind_union_type t [TypeFlags.STR].
Definition is_primitive_type_or_primitive_union_type (t : ty) : bool :=
  is_kind_type_or_kind_union_type t
    [TypeFlags.INT; TypeFlags.FLOAT; TypeFlags.BOOL; TypeFlags.STR].
Definition is_mul_val_type_or_mul_val_union_type (t : ty) : bool :=
  is_kind_type_or_kind_union_type t
    [TypeFlags.INT; TypeFlags.FLOAT; TypeFlags.BOOL; TypeFlags.STR; TypeFlags.LIST].

(** ** The type walker *)

(** The recursion is on the result of [walk_fn], hence the fuel: the source does not
    terminate when [walk_fn] keeps building larger types. *)
Fixpoint walk_type (fuel : nat) (walk_fn : ty -> ty) (t : ty) : option ty :=
  match fuel with
  | O => None
  | S n =>
      let t := walk_fn t in
      match kind t with
      | KList item_ty => list_of <$> walk_type n walk_fn item_ty
      | KDict key_ty val_ty =>
          k ← walk_type n walk_fn key_ty;
          v ← walk_type n walk_fn val_ty;
          Some (dict_of k v)
      | KUnion types => union_of <$> mapM (walk_type n walk_fn) types
      | _ => Some t
      end
  end.

(** ** The dependency graph *)

(** The directed graph of node names: what the code uses of the graph library. *)
Class DiGraph (G : Type) := {
  new_graph : G;
  add_node : G -> string -> G * nat;
  add_edge : G -> nat -> nat -> G;
  is_cyclic_directed : G -> bool;
  nodes : G -> list string;
  edges : G -> list (nat * nat)
}.

(** Their documented behaviour: a new node gets the next index, edges accumulate, and the
    cycle test looks for a path of at least one edge from a node to itself. *)
Class DiGraphLaws (G : Type) `{DiGraph G} := {
  nodes_new : nodes new_graph = [];
  edges_new : edges new_graph = [];
  add_node_index g w : snd (add_node g w) = length (nodes g);
  add_node_nodes g w : nodes (fst (add_node g w)) = nodes g ++ [w];
  add_node_edges g w : edges (fst (add_node g w)) = edges g;
  add_edge_nodes g a b : nodes (add_edge g a b) = nodes g;
  add_edge_edges g a b : edges (add_edge g a b) = edges g ++ [(a, b)];
  is_cyclic_spec g :
    is_cyclic_directed g = true <-> exists a, tc (fun x y => (x, y) ∈ edges g) a a
}.

Section DepGraph.
Context {G : Type} `{DiGraph G}.

Record type_context := mkTypeContext {
  dep_graph : G;
  node_index_map : gmap string nat
}.

Definition new_context : type_context :=
  {| dep_graph := new_graph; node_index_map := ∅ |}.

Definition is_cyclic (c : type_context) : bool := is_cyclic_directed (dep_graph c).

Definition get_or_insert_node_index (c : type_context) (name : string)
  : type_context * nat :=
  match node_index_map c !! name with
  | Some idx => (c, idx)
  | None =>
      let '(g, idx) := add_node (dep_graph c) name in
      ({| dep_graph := g; node_index_map := <[name := idx]> (node_index_map c) |}, idx)
  end.

Definition add_dependencies (c : type_context) (from to : string) : type_context :=
  let '(c1, from_idx) := get_or_insert_node_index c from in
  let '(c2, to_idx) := get_or_insert_node_index c1 to in
  {| dep_graph := add_edge (dep_graph c2) from_idx to_idx;
     node_index_map := node_index_map c2 |}.

(** The context after a sequence of [add_dependencies] calls. *)
Definition add_all (c : type_context) (deps : list (string * string)) : type_context :=
  fold_left (fun c d => add_dependencies c d.1 d.2) deps c.

(** The index map is the inverse of the node list. *)
Definition index_ok (c : type_context) : Prop :=
  forall name i, node_index_map c !! name = Some i <-> nodes (dep_graph c) !! i = Some name.

(** The edges, by name. *)
Definition named_edge (c : type_context) (x y : string) : Prop :=
  exists i j, nodes (dep_graph c) !! i = Some x /\ nodes (dep_graph c) !! j = Some y /\
              (i, j) ∈ edges (dep_graph c).

Definition edges_ok (c : type_context) : Prop :=
  forall i j, (i, j) ∈ edges (dep_graph c) ->
    (i < length (nodes (dep_graph c)))%nat /\ (j < length (nodes (dep_graph c)))%nat.
End DepGraph.

Arguments type_context G : clear implicits.

(** ** Definitions used by the properties *)

(** A type without literals and without [none]: what a variable may have. *)
Fixpoint variable (t : ty) : bool :=
  match t with
  | mkType k _ _ =>
      match k with
      | KNone | KBoolLit _ | KIntLit _ | KFloatLit _ | KStrLit _ => false
      | KList item => variable item
      | KDict key val => variable key && variable val
      | KUnion types => forallb variable types
      | _ => true
      end
  end.

(** The types widening produces: lists, dicts and unions are rebuilt (so they are no
    aliases) and every union is its own [sup]. *)
Fixpoint normal (t : ty) : Prop :=
  match t with
  | mkType k a f =>
      match k with
      | KNone | KBoolLit _ | KIntLit _ | KFloatLit _ | KStrLit _ => False
      | KList item => t = list_of item /\ normal item
      | KDict key val => t = dict_of key val /\ normal key /\ normal val
      | KUnion types =>
          t = union_of types /\ sup types = Ok t /\ Forall id (map normal types)
      | _ => True
      end
  end.

(** A finite edge list decides reachability: a path that uses the first edge splits there. *)
Fixpoint reaches (es : list (nat * nat)) (x y : nat) : bool :=
  match es with
  | [] => false
  | (a, b) :: es' =>
      reaches es' x y ||
      ((Nat.eqb x a || reaches es' x a) && (Nat.eqb b y || reaches es' b y))
  end.

#[export] Instance edge_list_graph : DiGraph (list string * list (nat * nat)) := {
  new_graph := ([], []);
  add_node g w := ((g.1 ++ [w], g.2), length g.1);
  add_edge g a b := (g.1, g.2 ++ [(a, b)]);
  is_cyclic_directed g := existsb (fun e => reaches g.2 e.1 e.1) g.2;
  nodes g := g.1;
  edges g := g.2
}.

(** ** Widening *)

Section Widening.
Lemma map_m_Forall2 {A B} (f : A -> outcome B) l l' :
  map_m f l = Ok l' <-> Forall2 (fun x y => f x = Ok y) l l'.
Proof.
  revert l'. induction l as [|x l IH]; intros l'; simpl.
  - split; [intros [= <-]; constructor | by inversion 1].
  - split.
    + destruct (f x) as [y|] eqn:Ex; [|discriminate].
      destruct (map_m f l) as [ys|]; [|discriminate]. intros [= <-].
      constructor; [done|]. by apply IH.
    + inversion 1 as [|? y ? ys Hx Hl]; subst. rewrite Hx.
      apply IH in Hl. by rewrite Hl.
Qed.

Lemma normal_union types :
  Forall id (map normal types) <-> Forall normal types.
Proof. by rewrite Forall_map. Qed.

Lemma normal_variable t : normal t -> variable t = true.
Proof.
  induction t as [k a f IH] using ty_ind. destruct k; simpl; try done.
  - intros [_ ?]. by apply IH.
  - intros (_ & ? & ?). destruct IH. apply andb_true_iff. auto.
  - rewrite normal_union. intros (_ & _ & H). simpl in IH. apply forallb_forall.
    intros t Ht%list_elem_of_In. rewrite Forall_forall in IH, H. auto.
Qed.

Lemma normal_leaves t : normal t -> Forall normal (leaves t).
Proof.
  induction t as [k a f IH] using ty_ind. intros Hn.
  destruct k; simpl in *; try (by apply Forall_singleton).
  destruct Hn as (_ & _ & Hn). rewrite normal_union in Hn.
  apply Forall_forall. intros l (t & Ht & Hl)%list_elem_of_In%in_flat_map.
  apply list_elem_of_In in Ht, Hl. rewrite Forall_forall in IH, Hn.
  specialize (IH t Ht (Hn t Ht)). rewrite Forall_forall in IH. auto.
Qed.

Lemma sup_normal types s :
  Forall (fun t => wf_ty t = true) types -> Forall normal types ->
  sup types = Ok s -> wf_ty s = true /\ normal s.
Proof.
  intros Hw Hn Hs.
  pose proof (sup_idem_aux types s Hw Hs) as Hidem.
  destruct (sup_spec types Hw) as (kept & _ & Hsub & (_ & _ & Hkw) & _ & Hsup).
  rewrite Hs in Hsup. injection Hsup as ->.
  assert (Hkn : Forall normal kept).
  { apply Forall_forall. intros u Hu. eapply elem_of_sublist in Hsub; [|done].
    rewrite add_types_leaves in Hsub. apply fold_add_leaf_elem in Hsub as [?|Hl]; [set_solver|].
    apply list_elem_of_In, in_flat_map in Hl as (t & Ht & Hl).
    apply list_elem_of_In in Ht, Hl. rewrite Forall_forall in Hn.
    pose proof (normal_leaves t (Hn t Ht)) as H. rewrite Forall_forall in H. auto. }
  destruct kept as [|t [|t' ts]]; [done| |].
  - inversion_clear Hkw. by inversion_clear Hkn.
  - split; [by apply union_of_wf|]. cbn [normal union_of]. split; [done|].
    rewrite sup_union_of in Hidem. split; [done|]. by apply normal_union.
Qed.

Lemma infer_spec t :
  wf_ty t = true -> exists s, infer_to_variable_type t = Ok s /\ wf_ty s = true /\ normal s.
Proof.
  induction t as [k a f IH] using ty_ind. intros Hw.
  pose proof (wf_walk _ Hw) as W. cbn [kind] in W.
  destruct k; simpl; try (by eexists); try (by exists (mkType k a f)).
  - destruct (IH W) as (s & -> & ? & ?). simpl. exists (list_of s). split; [done|].
    split; [by apply wf_mk|done].
  - destruct IH as [IHk IHv], W as [Wk Wv].
    destruct (IHk Wk) as (s & -> & ? & ?), (IHv Wv) as (s' & -> & ? & ?). simpl.
    exists (dict_of s s'). split; [done|]. split; [by apply wf_mk|done].
  - simpl in IH, W.
    assert (exists ts, map_m infer_to_variable_type types = Ok ts /\
              Forall (fun t => wf_ty t = true) ts /\ Forall normal ts) as (ts & -> & Hws & Hns).
    { clear Hw. induction types as [|t types IHt]; [by exists []|].
      inversion_clear IH as [|? ? Ht Hts]. inversion_clear W as [|? ? Wt Wts].
      destruct (Ht Wt) as (s & Es & ? & ?). destruct (IHt Hts Wts) as (ss & Ess & ? & ?).
      exists (s :: ss). simpl. rewrite Es, Ess. split; [done|]. split; by constructor. }
    simpl. destruct (sup_spec ts Hws) as (kept & _ & _ & _ & _ & Hsup).
    rewrite Hsup. eexists. split; [done|]. by apply (sup_normal ts).
Qed.

Lemma infer_normal t : normal t -> infer_to_variable_type t = Ok t.
Proof.
  induction t as [k a f IH] using ty_ind. destruct k; simpl; try done.
  - intros [-> Hn]. by rewrite IH.
  - intros (-> & Hk & Hv). destruct IH as [IHk IHv]. rewrite IHk, IHv by done. done.
  - rewrite normal_union. intros (E & Hs & Hn). simpl in IH.
    assert (map_m infer_to_variable_type types = Ok types) as ->; [|done].
    apply map_m_Forall2. clear -IH Hn. induction types as [|t ts IHt]; constructor.
    + inversion_clear IH. inversion_clear Hn. auto.
    + inversion_clear IH. inversion_clear Hn. auto.
Qed.
End Widening.

(** ** The edge list graph satisfies the laws *)

Lemma tc_cons_edge (es : list (nat * nat)) a b x y :
  tc (fun u v => (u, v) ∈ (a, b) :: es) x y <->
  tc (fun u v => (u, v) ∈ es) x y \/
  ((x = a \/ tc (fun u v => (u, v) ∈ es) x a) /\ (b = y \/ tc (fun u v => (u, v) ∈ es) b y)).
Proof.
  split.
  - induction 1 as [x y [[= -> ->]|H]%elem_of_cons | x z y Hxz _ IH].
    + right. auto.
    + left. by apply tc_once.
    + apply elem_of_cons in Hxz as [[= -> ->]|Hxz].
      * right. split; [by left|]. destruct IH as [IH|[_ IH]]; auto.
      * assert (Hz : tc (fun u v => (u, v) ∈ es) x z) by (by apply tc_once).
        destruct IH as [IH|[[->|IH1] IH2]].
        -- left. by eapply tc_l.
        -- right. auto.
        -- right. split; [|done]. right. by eapply tc_l.
  - assert (Hm : forall u v, tc (fun u v => (u, v) ∈ es) u v ->
                             tc (fun u v => (u, v) ∈ (a, b) :: es) u v).
    { induction 1 as [u v H|u w v H _ IH].
      - apply tc_once, elem_of_cons. by right.
      - eapply tc_l; [|exact IH]. apply elem_of_cons. by right. }
    assert (He : tc (fun u v => (u, v) ∈ (a, b) :: es) a b)
      by (apply tc_once, elem_of_cons; by left).
    intros [H|[H1 H2]]; [by apply Hm|].
    assert (Hx : tc (fun u v => (u, v) ∈ (a, b) :: es) x b).
    { destruct H1 as [->|H1]; [done|]. apply Hm in H1. by etrans. }
    destruct H2 as [->|H2]; [done|]. apply Hm in H2. by etrans.
Qed.

Lemma reaches_spec es x y : reaches es x y = true <-> tc (fun u v => (u, v) ∈ es) x y.
Proof.
  revert x y. induction es as [|[a b] es IH]; intros x y; simpl.
  - split; [done|]. intros H. exfalso. induction H; set_solver.
  - rewrite tc_cons_edge, !orb_true_iff, andb_true_iff, !orb_true_iff, !Nat.eqb_eq, !IH.
    done.
Qed.

#[export] Instance edge_list_laws : DiGraphLaws (list string * list (nat * nat)).
Proof.
  split; try done. intros [ns es]. simpl. rewrite existsb_exists. split.
  - intros ([a b] & _ & H). exists a. by apply reaches_spec.
  - intros [a H]. assert (exists c, (a, c) ∈ es) as [c Hc] by (inversion H; eauto).
    exists (a, c). split; [by apply list_elem_of_In | by apply reaches_spec].
Qed.

(** ** The dependency graph *)

Section DepGraphFacts.
Context {G : Type} `{DiGraphLaws G}.
Implicit Types (c : type_context G) (name x y : string).

Lemma get_or_insert_spec c name :
  index_ok c -> edges_ok c ->
  let '(c', i) := get_or_insert_node_index c name in
  index_ok c' /\ edges_ok c' /\ nodes (dep_graph c') !! i = Some name /\
  edges (dep_graph c') = edges (dep_graph c) /\
  (forall j n, nodes (dep_graph c) !! j = Some n -> nodes (dep_graph c') !! j = Some n).
Proof.
  intros Hi He. unfold get_or_insert_node_index.
  destruct (node_index_map c !! name) as [i|] eqn:E.
  - split_and!; [done..|by apply Hi|done|done].
  - pose proof (add_node_index (dep_graph c) name) as H1.
    pose proof (add_node_nodes (dep_graph c) name) as H2.
    pose proof (add_node_edges (dep_graph c) name) as H3.
    destruct (add_node (dep_graph c) name) as [g i]. simpl in *. subst i.
    assert (Hfresh : forall j, nodes (dep_graph c) !! j <> Some name).
    { intros j Hj. apply Hi in Hj. congruence. }
    split_and!.
    + intros n j. simpl. rewrite H2. destruct (decide (name = n)) as [->|Hne].
      * rewrite lookup_insert_eq. split.
        -- intros [= <-]. by rewrite lookup_app_r, Nat.sub_diag by lia.
        -- intros [Hj|[Hj Hn]]%lookup_app_Some; [by apply Hfresh in Hj|].
           apply lookup_lt_Some in Hn as Hl. simpl in Hl. f_equal. lia.
      * rewrite lookup_insert_ne, (Hi n j) by done. rewrite lookup_app_Some. split; [auto|].
        intros [?|[Hj Hn]]; [done|]. destruct (j - _)%nat; [by injection Hn|done].
    + intros a b. simpl. rewrite H2, H3, length_app. intros Hab%He. simpl. lia.
    + simpl. rewrite H2. by rewrite lookup_app_r, Nat.sub_diag by lia.
    + done.
    + intros j n Hj. simpl. rewrite H2. by apply lookup_app_l_Some.
Qed.

(** One call adds one named edge and keeps the invariants. *)
Lemma add_dependencies_spec c from to :
  index_ok c -> edges_ok c ->
  index_ok (add_dependencies c from to) /\ edges_ok (add_dependencies c from to) /\
  (forall x y, named_edge (add_dependencies c from to) x y <->
               named_edge c x y \/ (x = from /\ y = to)).
Proof.
  intros Hi He. unfold add_dependencies.
  pose proof (get_or_insert_spec c from Hi He) as S1.
  destruct (get_or_insert_node_index c from) as [c1 i1].
  destruct S1 as (Hi1 & He1 & Hn1 & Hed1 & Hmono1).
  pose proof (get_or_insert_spec c1 to Hi1 He1) as S2.
  destruct (get_or_insert_node_index c1 to) as [c2 i2].
  destruct S2 as (Hi2 & He2 & Hn2 & Hed2 & Hmono2).
  assert (Hinj : forall i j n, nodes (dep_graph c2) !! i = Some n ->
                               nodes (dep_graph c2) !! j = Some n -> i = j).
  { intros i j n H1%Hi2 H2%Hi2. congruence. }
  split_and!.
  - intros n i. simpl. rewrite add_edge_nodes. apply Hi2.
  - intros a b. simpl. rewrite add_edge_nodes, add_edge_edges.
    intros [?|[= -> ->]%list_elem_of_singleton]%elem_of_app; [by apply He2|].
    apply Hmono2, lookup_lt_Some in Hn1. apply lookup_lt_Some in Hn2. done.
  - intros x y. unfold named_edge. simpl. setoid_rewrite add_edge_nodes.
    setoid_rewrite add_edge_edges. split.
    + intros (i & j & Hx & Hy & [Hij|[= -> ->]%list_elem_of_singleton]%elem_of_app).
      * left. rewrite Hed2, Hed1 in Hij. destruct (He _ _ Hij) as [Hl1 Hl2].
        apply lookup_lt_is_Some_2 in Hl1 as [x' Hx'], Hl2 as [y' Hy'].
        exists i, j. assert (x' = x) as ->.
        { apply Hmono1, Hmono2 in Hx'. congruence. }
        assert (y' = y) as ->.
        { apply Hmono1, Hmono2 in Hy'. congruence. }
        done.
      * right. apply Hmono2 in Hn1. split; congruence.
    + intros [(i & j & Hx & Hy & Hij)|[-> ->]].
      * exists i, j. rewrite Hed2, Hed1, elem_of_app. auto.
      * exists i1, i2. rewrite elem_of_app, list_elem_of_singleton. auto.
Qed.

Lemma new_context_ok : index_ok (new_context (G := G)) /\ edges_ok (new_context (G := G)).
Proof.
  split.
  - intros n i. simpl. rewrite nodes_new, lookup_nil, lookup_empty. done.
  - intros i j. simpl. rewrite edges_new. set_solver.
Qed.

Lemma add_all_spec c deps :
  index_ok c -> edges_ok c ->
  index_ok (add_all c deps) /\ edges_ok (add_all c deps) /\
  (forall x y, named_edge (add_all c deps) x y <-> named_edge c x y \/ (x, y) ∈ deps).
Proof.
  revert c. induction deps as [|[f t] deps IH]; intros c Hi He.
  - split_and!; [done..|]. intros x y. set_solver.
  - destruct (add_dependencies_spec c f t Hi He) as (Hi' & He' & Hn).
    destruct (IH _ Hi' He') as (? & ? & Hn'). split_and!; [done..|].
    intros x y. simpl. rewrite Hn', Hn, elem_of_cons. naive_solver.
Qed.

(** Paths between indices are paths between names. *)
Lemma tc_named c i x :
  index_ok c -> edges_ok c -> nodes (dep_graph c) !! i = Some x ->
  forall j y, nodes (dep_graph c) !! j = Some y ->
  tc (fun a b => (a, b) ∈ edges (dep_graph c)) i j <-> tc (named_edge c) x y.
Proof.
  intros Hi He Hx j y Hy. split.
  - intros Ht. revert x Hx. induction Ht as [i j Hij|i k j Hik _ IH]; intros x Hx.
    + apply tc_once. by exists i, j.
    + destruct (He _ _ Hik) as [_ [z Hz]%lookup_lt_is_Some_2].
      eapply tc_l; [by exists i, k|]. by apply (IH Hy z).
  - intros Ht. revert i Hx. induction Ht as [x y (a & b & Ha & Hb & Hab)|x z y Hxz _ IH];
      intros i Hx.
    + apply Hi in Hx, Hy, Ha, Hb. simplify_eq. by apply tc_once.
    + destruct Hxz as (a & b & Ha & Hb & Hab). eapply tc_l; [|by apply (IH Hy b)].
      apply Hi in Hx, Ha. by simplify_eq.
Qed.
End DepGraphFacts.

(** ** Properties *)

(** C31: widening never panics; its result satisfies the flags invariant and holds no
    literal and no [none] under lists, dicts and unions; widening it again changes
    nothing. *)
Theorem infer_widens t :
  wf_ty t = true ->
  exists s, infer_to_variable_type t = Ok s /\ wf_ty s = true /\ variable s = true /\
            infer_to_variable_type s = Ok s.
Proof.
  intros Hw. destruct (infer_spec t Hw) as (s & Hs & Hws & Hn).
  exists s. split_and!; [done..|by apply normal_variable|by apply infer_normal].
Qed.

Lemma infer_widens_witness :
  exists s, infer_to_variable_type
              (list_of (union_of [int_lit 1; str_lit "a"; int_lit 2; STR])) = Ok s /\
    wf_ty s = true /\ variable s = true /\ infer_to_variable_type s = Ok s.
Proof. apply infer_widens. vm_compute. reflexivity. Defined.

(** C34: after any sequence of [add_dependencies] calls on a new context, the cycle test
    answers whether the recorded dependencies contain a cycle of names; it does so for
    every graph library that satisfies the documented behaviour. *)
Theorem is_cyclic_iff_dependency_cycle {G} `{DiGraphLaws G} (deps : list (string * string)) :
  is_cyclic (add_all (new_context (G := G)) deps) = true <->
  exists x, tc (fun a b => (a, b) ∈ deps) x x.
Proof.
  destruct new_context_ok as [Hi0 He0].
  destruct (add_all_spec _ deps Hi0 He0) as (Hi & He & Hn).
  assert (Hedge : forall x y, named_edge (add_all new_context deps) x y <-> (x, y) ∈ deps).
  { intros x y. rewrite Hn. split; [|auto]. intros [(i & j & Hx & _)|?]; [|done].
    simpl in Hx. by rewrite nodes_new in Hx. }
  assert (Htc : forall x y, tc (named_edge (add_all new_context deps)) x y <->
                            tc (fun a b => (a, b) ∈ deps) x y).
  { intros x y. split; intros Ht; induction Ht as [a b Hab|a b d Hab _ IH];
      first [by apply tc_once, Hedge | by eapply tc_l; [apply Hedge|]]. }
  unfold is_cyclic. rewrite is_cyclic_spec. split.
  - intros [i Ht]. assert (exists j, (i, j) ∈ edges (dep_graph (add_all new_context deps)))
      as [j Hij] by (inversion Ht; eauto).
    destruct (He _ _ Hij) as [[x Hx]%lookup_lt_is_Some_2 _].
    exists x. apply Htc. by apply (tc_named _ i x Hi He Hx i x Hx).
  - intros [x Ht]. apply Htc in Ht.
    assert (exists i, nodes (dep_graph (add_all new_context deps)) !! i = Some x) as [i Hx].
    { inversion Ht as [? ? (i & j & ? & _)|? ? ? (i & j & ? & _)]; eauto. }
    exists i. by apply (tc_named _ i x Hi He Hx i x Hx).
Qed.

Lemma is_cyclic_iff_dependency_cycle_witness :
  is_cyclic (add_all (new_context (G := list string * list (nat * nat)))
    [("a", "b"); ("b", "c"); ("c", "a")]) = true <->
  exists x, tc (fun a b => (a, b) ∈ [("a", "b"); ("b", "c"); ("c", "a")]) x x.
Proof. apply (is_cyclic_iff_dependency_cycle (G := list string * list (nat * nat))). Defined.
