(* ===== verification/Diagnostic.v ===== *)
(** * Diagnostics ([kclvm/error/src/{lib,diagnostic,error}.rs])

    Positions and their order, the diagnostics of a compilation and the set that collects
    them, in the order of their insertion. *)

From S2P Require Import Prelude MachineInt State TypeData.

(** ** Positions *)

Section Positions.
Implicit Types p q : position.

Definition pos_eqb p q : bool := position_eqb p q.
Definition pos_is_valid p : bool := 0 <? line p.

Definition less p q : bool :=
  if negb (pos_is_valid p) || negb (pos_is_valid q) || negb (bool_decide (filename p = filename q)) then false
  else if line p <? line q then true
  else if line p =? line q then
    match column p, column q with
    | Some c, Some other_column => c <? other_column
    | _, _ => false
    end
  else false.

Definition less_equal p q : bool :=
  if negb (pos_is_valid p) || negb (pos_is_valid q) then false
  else if less p q then true
  else pos_eqb p q.

(** The printed position; the column is printed from 1. *)
Definition pos_info p : string :=
  if bool_decide (filename p = "") then ""
  else "---> File " +:+ filename p +:+ ":" +:+ pretty (line p) +:+
       match column p with Some c => ":" +:+ pretty (c + 1) | None => "" end.
End Positions.

(** ** Diagnostics *)

Inductive Level := LError | LWarning | LNote.
Inductive Style := StyleEmpty | LineAndColumn | StyleLine.
Inductive ErrorKind :=
| InvalidSyntax | TabError | Indentation | CannotFindModule | RecursiveLoad | FloatOverflow
| FloatUnderflow | IntOverflow | InvalidDocstring | Deprecated | UnKnownDecorator
| InvalidDecoratorTarget | InvalidFormatSpec | SchemaCheckFailure | IndexSignatureError
| TypeError | NameError | ValueError | KeyError | AttributeError | AssertionError
| ImmutableError | MultiInheritError | CycleInheritError | IllegalInheritError
| IllegalAttributeError | IllegalParameterError | RecursionError | PlanError
| CannotAddMembers | CompileError | EvaluationError | UniqueKeyError.
Inductive WarningKind :=
| CompilerWarning | UnusedImportWarning | ReimportWarning | ImportPositionWarning.
Inductive DiagnosticId := DError (k : ErrorKind) | DWarning (k : WarningKind).

#[export] Instance Level_eq_dec : EqDecision Level. Proof. solve_decision. Defined.
#[export] Instance Style_eq_dec : EqDecision Style. Proof. solve_decision. Defined.
#[export] Instance ErrorKind_eq_dec : EqDecision ErrorKind. Proof. solve_decision. Defined.
#[export] Instance WarningKind_eq_dec : EqDecision WarningKind. Proof. solve_decision. Defined.
#[export] Instance DiagnosticId_eq_dec : EqDecision DiagnosticId. Proof. solve_decision. Defined.

Record message := mkMessage { msg_pos : position; style : Style; msg_text : string; note : option string }.
Record diagnostic := mkDiagnostic { level : Level; messages : list message; code : option DiagnosticId }.

#[export] Instance position_eq_dec : EqDecision position. Proof. solve_decision. Defined.
#[export] Instance message_eq_dec : EqDecision message. Proof. solve_decision. Defined.
#[export] Instance diagnostic_eq_dec : EqDecision diagnostic. Proof. solve_decision. Defined.

Definition at_line_and_column (pos : position) (msg : string) (note : option string) : message :=
  mkMessage pos LineAndColumn msg note.
Definition new_with_code (l : Level) (msg : string) (note : option string) (pos : position)
    (code : option DiagnosticId) : diagnostic :=
  mkDiagnostic l [at_line_and_column pos msg note] code.

(** ** The handler

    A set of diagnostics in the order of insertion. *)

Definition Handler : Type := list diagnostic.

Definition add_diagnostic (d : diagnostic) : st Handler unit :=
  modify (fun h => if bool_decide (d ∈ h) then h else h ++ [d]).
Definition add_type_error (msg : string) (pos : position) : st Handler unit :=
  add_diagnostic (new_with_code LError msg None pos (Some (DError TypeError))).
Definition add_compile_error (msg : string) (pos : position) : st Handler unit :=
  add_diagnostic (new_with_code LError msg None pos (Some (DError CompileError))).
Definition add_error (err : ErrorKind) (msgs : list message) : st Handler unit :=
  add_diagnostic (mkDiagnostic LError msgs (Some (DError err))).
Definition add_warning (warning : WarningKind) (msgs : list message) : st Handler unit :=
  add_diagnostic (mkDiagnostic LWarning msgs (Some (DWarning warning))).

Definition add_syntex_error (msg : string) (pos : position) : st Handler unit :=
  add_diagnostic (new_with_code LError ("Invalid syntax: " +:+ msg) None pos (Some (DError InvalidSyntax))).

Definition has_errors (h : Handler) : bool := existsb (fun d => bool_decide (level d = LError)) h.
(** The errors and the warnings. *)
Definition classification (h : Handler) : Handler * Handler :=
  (List.filter (fun d => bool_decide (level d = LError)) h,
   List.filter (fun d => bool_decide (level d = LWarning)) h).

Definition is_error (d : diagnostic) : bool := match level d with LError => true | _ => false end.
Definition level_to_str (l : Level) : string :=
  match l with LError => "error" | LWarning => "warning" | LNote => "note" end.

(** ** Codes

    A kind has the first code of the table with it, or the code of the invalid syntax. *)

Definition ERRORS : list (string * ErrorKind) :=
  [("E1001", InvalidSyntax); ("E2G22", TypeError); ("E2F04", CannotFindModule);
   ("E2L23", CompileError); ("E2A31", IllegalAttributeError); ("E2L28", UniqueKeyError);
   ("E2D34", IllegalInheritError); ("E3M38", EvaluationError)].
Definition WARNINGS : list (string * WarningKind) := [("W1001", CompilerWarning)].

Definition error_kind_code (k : ErrorKind) : string :=
  match List.find (fun p => bool_decide (p.2 = k)) ERRORS with Some p => p.1 | None => "E1001" end.
Definition warning_kind_code (k : WarningKind) : string :=
  match List.find (fun p => bool_decide (p.2 = k)) WARNINGS with Some p => p.1 | None => "W1001" end.

(** ** Panics of a run as diagnostics ([From<PanicInfo>]) *)

Record BacktraceFrame := mkFrame { frame_file : string; frame_func : string; frame_col : Z; frame_line : Z }.

(** The fields that the conversion reads; lines and columns are [i32]. *)
Record PanicInfo := mkPanicInfo {
  backtrace : list BacktraceFrame; kcl_file : string; kcl_line : Z; kcl_arg_msg : string;
  kcl_config_meta_file : string; kcl_config_meta_line : Z; kcl_config_meta_col : Z;
  kcl_config_meta_arg_msg : string; panic_message : string }.

(** A negative [i32] cast to [u64]. *)
Definition as_u64 (x : Z) : Z := x mod 2 ^ 64.

Definition frame_text (index : Z) (f : BacktraceFrame) : string :=
  String (Ascii.ascii_of_nat 9) (pretty index +:+ ": " +:+ frame_func f +:+
  String (Ascii.ascii_of_nat 10) (String (Ascii.ascii_of_nat 9) (String (Ascii.ascii_of_nat 9)
    ("at " +:+ frame_file f +:+ ":" +:+ pretty (frame_line f))))) +:+
  (if frame_col f =? 0 then "" else ":" +:+ pretty (frame_col f)) +:+
  String (Ascii.ascii_of_nat 10) "".

Fixpoint frames_text (index : Z) (fs : list BacktraceFrame) : string :=
  match fs with [] => "" | f :: fs => frame_text index f +:+ frames_text (index + 1) fs end.

Definition backtrace_text (fs : list BacktraceFrame) : string :=
  "backtrace:" +:+ String (Ascii.ascii_of_nat 10) (frames_text 0 (rev fs)).

Definition diagnostic_of_panic (info : PanicInfo) : diagnostic :=
  let panic_msg := if bool_decide (kcl_arg_msg info = "") then panic_message info else kcl_arg_msg info in
  let trace := match backtrace info with [] => None | fs => Some (backtrace_text fs) end in
  let diag := new_with_code LError panic_msg trace
                (mkPosition (kcl_file info) (as_u64 (kcl_line info)) None) None in
  if bool_decide (kcl_config_meta_file info = "") then diag
  else
    let meta := new_with_code LError (kcl_config_meta_arg_msg info) None
                  (mkPosition (kcl_config_meta_file info) (as_u64 (kcl_config_meta_line info))
                     (Some (as_u64 (kcl_config_meta_col info)))) None in
    mkDiagnostic (level meta) (messages meta ++ messages diag) (code meta).

Definition add_panic_info (info : PanicInfo) : st Handler unit := add_diagnostic (diagnostic_of_panic info).

(** ** Laws *)


Lemma less_irrefl p : less p p = false.
Proof.
  unfold less. destruct (_ || _); [done|]. rewrite Z.ltb_irrefl, Z.eqb_refl.
  destruct (column p); [apply Z.ltb_irrefl|done].
Qed.

Lemma less_trans p q r : less p q = true -> less q r = true -> less p r = true.
Proof.
  unfold less, pos_is_valid. destruct (0 <? line p), (0 <? line q), (0 <? line r); simpl; try done.
  all: repeat (case_bool_decide; simpl; try done); try congruence.
  all: destruct (column p), (column q), (column r).
  all: repeat case_match; intros; (done || lia).
Qed.

(** What is reported stays reported, once and in its place. *)
Lemma add_diagnostic_spec d h :
  exists h', add_diagnostic d h = Ok (tt, h') /\ h `prefix_of` h' /\ d ∈ h' /\ (NoDup h -> NoDup h').
Proof.
  unfold add_diagnostic, modify. eexists. split; [done|]. case_bool_decide; [done|].
  split; [by eexists|]. split; [set_solver|]. intros Hh. apply NoDup_app. split_and!; [done|set_solver|].
  apply NoDup_singleton.
Qed.

(** The errors and the warnings are those of the handler, in their order. *)
Lemma classification_spec h d :
  (d ∈ (classification h).1 <-> d ∈ h /\ level d = LError) /\
  (d ∈ (classification h).2 <-> d ∈ h /\ level d = LWarning).
Proof.
  unfold classification; simpl.
  split; rewrite !list_elem_of_In, filter_In, bool_decide_eq_true; done.
Qed.

Example type_error_code : map error_kind_code [TypeError; NameError] = ["E2G22"; "E1001"].
Proof. reflexivity. Qed.

Example panic_trace :
  let info := mkPanicInfo [mkFrame "a.k" "f" 3 7] "a.k" 7 "" "" 0 0 "" "boom" in
  map msg_text (messages (diagnostic_of_panic info)) = ["boom"].
Proof. reflexivity. Qed.
