(* ===== verification/Lexer.v ===== *)
(** * The low-level lexer ([kclvm/lexer/src])

    The cursor over the input, the scanners for comments, strings, identifiers and
    numbers, and the token function, written in the state monad over the cursor.  The
    properties describe every token by its text and its right context. *)

From S2P Require Import Prelude MachineInt State Chars.

(** ** Tokens *)

Inductive DocStyle := Outer | Inner.

Inductive Base := Binary | Octal | Hexadecimal | Decimal.

Definition describe (b : Base) : string :=
  match b with
  | Binary => "binary"
  | Octal => "octal"
  | Hexadecimal => "hexadecimal"
  | Decimal => "decimal"
  end.

Inductive LiteralKind :=
| Int (base : Base) (empty_int : bool)
| Float (base : Base) (empty_exponent : bool)
| Str (terminated triple_quoted : bool)
| Bool (terminated : bool).

Inductive TokenKind :=
| LineComment (doc_style : option DocStyle)
| BlockComment (doc_style : option DocStyle) (terminated : bool)
| Tab | Space | CarriageReturn | Newline | Whitespace
| Ident | InvalidIdent | InvalidLineContinue | LineContinue
| Literal (kind : LiteralKind) (suffix_start : Z)
| Semi | Comma | Dot | DotDot | DotDotDot
| OpenParen | CloseParen | OpenBrace | CloseBrace | OpenBracket | CloseBracket
| At | Pound | Tilde | Question | Colon | Dollar
| Eq | Bang | Lt | Gt | EqEq | BangEq | GtEq | LtEq
| Minus | And | Or | Plus | Star | Slash | Caret | Percent
| StarStar | SlashSlash | LtLt | GtGt
| PlusEq | MinusEq | StarEq | SlashEq | PercentEq | AndEq | OrEq | CaretEq
| StarStarEq | SlashSlashEq | LtLtEq | GtGtEq
| Unknown.

Record token := Token { kind : TokenKind; len : Z }.

(** ** The cursor *)

Record cursor := Cursor { initial_len : Z; chars : text; prev : char }.

Definition EOF_CHAR : char := 0.
Definition DOLLAR_CHAR : char := ch "$".

Definition new_cursor (input : text) : cursor :=
  {| initial_len := str_len input; chars := input; prev := EOF_CHAR |}.

Definition peek (k : cursor) : char := default EOF_CHAR (head (chars k)).
Definition peek1th (k : cursor) : char := default EOF_CHAR (head (tail (chars k))).
Definition is_eof (k : cursor) : bool := match chars k with [] => true | _ => false end.

Definition reset_len_consumed : st cursor unit :=
  modify (fun k => {| initial_len := str_len (chars k); chars := chars k; prev := prev k |}).

(** The cursor after its next character [c]; [r] is what is left. *)
Definition bumped (c : char) (r : text) (k : cursor) : cursor :=
  {| initial_len := initial_len k; chars := r; prev := c |}.

Definition bump : st cursor (option char) := fun k =>
  match chars k with
  | [] => Ok (None, k)
  | c :: r => Ok (Some c, bumped c r k)
  end.

(** The loop of [eat_while] runs on the characters left. *)
Fixpoint eat_while_loop (predicate : char -> bool) (r : text) (k : cursor) : cursor :=
  match r with
  | [] => k
  | c :: r' =>
      if predicate c
      then eat_while_loop predicate r' (bumped c r' k)
      else k
  end.

Definition eat_while (predicate : char -> bool) : st cursor unit :=
  modify (fun k => eat_while_loop predicate (chars k) k).

Definition is_whitespace (c : char) : bool :=
  (c =? 11) || (c =? 12) || (c =? 13) || (c =? 133) || (c =? 8206) || (c =? 8207)
  || (c =? 8232) || (c =? 8233).

Section Lexer.
Context (debug : bool) `{UnicodeTables}.

(** [initial_len - rest.len()]: the subtraction is checked in debug builds. *)
Definition len_consumed : st cursor Z := fun k =>
  let d := initial_len k - str_len (chars k) in
  if 0 <=? d then Ok (d, k)
  else if debug then Panic "attempt to subtract with overflow" else Ok (as_usize d, k).

(** *** Numbers *)

(** The digit loops: the flag records whether a digit was met, the loop runs on the
    characters left. *)
Fixpoint eat_digits_loop (digit : char -> bool) (r : text) (k : cursor) (has_digits : bool)
    : bool * cursor :=
  match r with
  | [] => (has_digits, k)
  | c :: r' =>
      if c =? ch "_" then eat_digits_loop digit r' (bumped c r' k) has_digits
      else if digit c then eat_digits_loop digit r' (bumped c r' k) true
      else (has_digits, k)
  end.

Definition is_digit16 (c : char) : bool :=
  in_range (ch "0") c (ch "9") || in_range (ch "a") c (ch "f") || in_range (ch "A") c (ch "F").

Definition eat_decimal_digits : st cursor bool :=
  fun k => Ok (eat_digits_loop is_digit10 (chars k) k false).
Definition eat_hexadecimal_digits : st cursor bool :=
  fun k => Ok (eat_digits_loop is_digit16 (chars k) k false).

Definition eat_float_exponent : st cursor bool :=
  _ ← debug_assert debug (fun k => (prev k =? ch "e") || (prev k =? ch "E"));
  p ← gets peek;
  _ ← (if (p =? ch "-") || (p =? ch "+") then bump else mret None);
  eat_decimal_digits.

(** The part of [number] before the fraction: a finished literal, or the base. *)
Definition number_prefix (first_digit : char) : st cursor (LiteralKind + Base) :=
  if first_digit =? ch "0" then
    p ← gets peek;
    let finish base (has_digits : bool) : st cursor (LiteralKind + Base) :=
      mret (if has_digits then inr base else inl (Int base true)) in
    if p =? ch "b" then
      _ ← bump; has_digits ← eat_decimal_digits; finish Binary has_digits
    else if (p =? ch "o") || in_range (ch "0") p (ch "9") then
      _ ← bump; has_digits ← eat_decimal_digits; finish Octal has_digits
    else if p =? ch "x" then
      _ ← bump; has_digits ← eat_hexadecimal_digits; finish Hexadecimal has_digits
    else if (p =? ch "_") || (p =? ch ".") || (p =? ch "e") || (p =? ch "E") then
      _ ← eat_decimal_digits; finish Decimal true
    else mret (inl (Int Decimal false))
  else
    _ ← eat_decimal_digits; mret (inr Decimal).

Definition number_tail (base : Base) : st cursor LiteralKind :=
  p ← gets peek; p1 ← gets peek1th;
  if (p =? ch ".") && negb (p1 =? ch ".") && negb (is_id_start p1) then
    _ ← bump;
    q ← gets peek;
    if is_digit10 q then
      _ ← eat_decimal_digits;
      e ← gets peek;
      if (e =? ch "e") || (e =? ch "E") then
        _ ← bump; b ← eat_float_exponent; mret (Float base (negb b))
      else mret (Float base false)
    else mret (Float base false)
  else if (p =? ch "e") || (p =? ch "E") then
    _ ← bump; b ← eat_float_exponent; mret (Float base (negb b))
  else mret (Int base false).

Definition number (first_digit : char) : st cursor LiteralKind :=
  _ ← debug_assert debug (fun k => in_range (ch "0") (prev k) (ch "9"));
  r ← number_prefix first_digit;
  match r with
  | inl lit => mret lit
  | inr base => number_tail base
  end.

(** *** Comments, strings, identifiers *)

Definition try_comment_magic (c : char) : bool := c =? ch "#".

Definition eat_comment : st cursor TokenKind :=
  _ ← debug_assert debug (fun k => prev k =? ch "#");
  _ ← eat_while (fun c => negb (c =? 10));
  mret (LineComment (Some Inner)).

Definition is_quote (c : char) : bool := (c =? ch "'") || (c =? 34).

Definition try_string_magic (k : cursor) (c : char) : bool :=
  if (c =? ch "r") || (c =? ch "R") then is_quote (peek k) else is_quote c.

(** The [while let] loop of [eat_quoted_string]: [Some] is a return from the loop.  Every
    round takes a character, so the number of characters left bounds the rounds. *)
Fixpoint quoted_loop (fuel : nat) (quote : char) (triple_quoted : bool)
    : st cursor (option TokenKind) :=
  match fuel with
  | O => panic "out of fuel"
  | S fuel' =>
      b ← bump;
      match b with
      | None => mret None
      | Some c =>
          p ← gets peek; p1 ← gets peek1th;
          if (c =? 92) && ((p =? 92) || (p =? quote)) then
            _ ← bump; quoted_loop fuel' quote triple_quoted
          else if c =? quote then
            if triple_quoted then
              if (quote =? p) && (quote =? p1) then
                _ ← bump; _ ← bump;
                s ← len_consumed; mret (Some (Literal (Str true true) s))
              else quoted_loop fuel' quote triple_quoted
            else
              s ← len_consumed; mret (Some (Literal (Str true false) s))
          else if negb triple_quoted && ((p =? 13) || (p =? 10) || (p =? EOF_CHAR)) then
            mret None
          else quoted_loop fuel' quote triple_quoted
      end
  end.

Definition eat_quoted_string (c : char) : st cursor TokenKind :=
  _ ← debug_assert debug (fun k => is_quote (prev k));
  let quote := c in
  p ← gets peek; p1 ← gets peek1th;
  triple_quoted ← (if (quote =? p) && (quote =? p1)
                   then _ ← bump; _ ← bump; mret true else mret false);
  fuel ← gets (fun k => S (length (chars k)));
  r ← quoted_loop fuel quote triple_quoted;
  match r with
  | Some t => mret t
  | None => s ← len_consumed; mret (Literal (Str false false) s)
  end.

Definition eat_string (c : char) : st cursor TokenKind :=
  if (c =? ch "r") || (c =? ch "R") then
    p ← gets peek;
    if is_quote p then
      quote ← bump; eat_quoted_string (default EOF_CHAR quote)
    else mret Unknown
  else if is_quote c then eat_quoted_string c
  else mret Unknown.

Definition fake_ident_or_unknown_prefix : st cursor TokenKind :=
  _ ← eat_while (fun c => is_id_continue c || (negb (is_ascii c) && is_emoji c) || (c =? 8205));
  mret InvalidIdent.

Definition try_ident_magic (k : cursor) (c : char) : bool :=
  if c =? DOLLAR_CHAR then is_id_start (peek k) else is_id_start c.

Definition eat_ident : st cursor TokenKind :=
  _ ← debug_assert debug (fun k => is_id_start (prev k) || (prev k =? DOLLAR_CHAR));
  _ ← eat_while is_id_continue;
  c ← gets peek;
  if negb (is_ascii c) && is_emoji c then fake_ident_or_unknown_prefix else mret Ident.

Definition eat_lit_suffix : st cursor unit :=
  p ← gets peek;
  if negb (is_id_start p) then mret tt
  else _ ← bump; eat_while is_id_continue.

(** *** Tokens *)

(** An operator that may be followed by [=]. *)
Definition maybe_eq (plain with_eq : TokenKind) : st cursor TokenKind :=
  p ← gets peek;
  if p =? ch "=" then _ ← bump; mret with_eq else mret plain.

(** The arms of [token] that match on the first character alone. *)
Definition simple_token (c : char) : st cursor TokenKind :=
  if c =? 9 then mret Tab
  else if c =? 32 then mret Space
  else if c =? 10 then mret Newline
  else if c =? ch ";" then mret Semi
  else if c =? ch "," then mret Comma
  else if c =? ch "." then
    p ← gets peek; p1 ← gets peek1th;
    if (p =? ch ".") && (p1 =? ch ".") then _ ← bump; _ ← bump; mret DotDotDot else mret Dot
  else if c =? ch "(" then mret OpenParen
  else if c =? ch ")" then mret CloseParen
  else if c =? ch "{" then mret OpenBrace
  else if c =? ch "}" then mret CloseBrace
  else if c =? ch "[" then mret OpenBracket
  else if c =? ch "]" then mret CloseBracket
  else if c =? ch "@" then mret At
  else if c =? ch "#" then mret Pound
  else if c =? ch "~" then mret Tilde
  else if c =? ch "?" then mret Question
  else if c =? ch ":" then mret Colon
  else if c =? ch "$" then mret Dollar
  else if c =? ch "=" then maybe_eq Eq EqEq
  else if c =? ch "!" then maybe_eq Bang BangEq
  else if c =? ch "<" then
    p ← gets peek;
    if p =? ch "=" then _ ← bump; mret LtEq
    else if p =? ch "<" then _ ← bump; maybe_eq LtLt LtLtEq
    else mret Lt
  else if c =? ch ">" then
    p ← gets peek;
    if p =? ch "=" then _ ← bump; mret GtEq
    else if p =? ch ">" then _ ← bump; maybe_eq GtGt GtGtEq
    else mret Gt
  else if c =? ch "-" then maybe_eq Minus MinusEq
  else if c =? ch "&" then maybe_eq And AndEq
  else if c =? ch "|" then maybe_eq Or OrEq
  else if c =? ch "+" then maybe_eq Plus PlusEq
  else if c =? ch "*" then
    p ← gets peek;
    if p =? ch "*" then _ ← bump; maybe_eq StarStar StarStarEq
    else if p =? ch "=" then _ ← bump; mret StarEq
    else mret Star
  else if c =? ch "/" then
    p ← gets peek;
    if p =? ch "/" then _ ← bump; maybe_eq SlashSlash SlashSlashEq
    else if p =? ch "=" then _ ← bump; mret SlashEq
    else mret Slash
  else if c =? ch "^" then maybe_eq Caret CaretEq
  else if c =? ch "%" then maybe_eq Percent PercentEq
  else if c =? 92 then
    p ← gets peek;
    if p =? 10 then _ ← bump; mret LineContinue
    else if p =? EOF_CHAR then mret LineContinue
    else mret InvalidLineContinue
  else if negb (is_ascii c) && is_emoji c then fake_ident_or_unknown_prefix
  else mret Unknown.

Definition token_kind (c : char) : st cursor TokenKind :=
  k ← gets id;
  if try_comment_magic c then eat_comment
  else if is_whitespace c then mret Whitespace
  else if try_string_magic k c then eat_string c
  else if try_ident_magic k c then eat_ident
  else if in_range (ch "0") c (ch "9") then
    lit ← number c;
    suffix_start ← len_consumed;
    _ ← eat_lit_suffix;
    mret (Literal lit suffix_start)
  else simple_token c.

Definition next_token : st cursor token :=
  c ← bump;
  t ← token_kind (default EOF_CHAR c);
  n ← len_consumed;
  mret (Token t n).

(** [first_token], without its debug assertion on an empty input when [debug] is off. *)
Definition first_token (input : text) : outcome token :=
  if debug && (match input with [] => true | _ => false end) then Panic "assertion failed"
  else match next_token (new_cursor input) with
       | Ok (t, _) => Ok t
       | Panic e => Panic e
       end.

(** The iterator of [tokenize], run to its end: the number of characters left bounds the
    number of tokens. *)
Fixpoint tokenize_loop (fuel : nat) (k : cursor) : outcome (list token) :=
  if is_eof k then Ok []
  else match fuel with
       | O => Panic "out of fuel"
       | S fuel' =>
           match (_ ← reset_len_consumed; next_token) k with
           | Ok (t, k') => ts ← tokenize_loop fuel' k'; Ok (t :: ts)
           | Panic e => Panic e
           end
       end.

Definition tokenize (input : text) : outcome (list token) :=
  tokenize_loop (length input) (new_cursor input).
End Lexer.

(** ** What a token stands for

    [lexeme k t rest]: a token of kind [k] may stand for the text [t] when [rest] follows. *)

Definition next (rest : text) : char := default EOF_CHAR (head rest).
Definition stops (p : char -> bool) (rest : text) : Prop :=
  match rest with [] => True | c :: _ => p c = false end.

(** Operators and punctuation: the spelling, and the characters that would extend it. *)
Definition spelling (k : TokenKind) : option (string * string) :=
  match k with
  | Semi => Some (";", "") | Comma => Some (",", "") | DotDotDot => Some ("...", "")
  | OpenParen => Some ("(", "") | CloseParen => Some (")", "")
  | OpenBrace => Some ("{", "") | CloseBrace => Some ("}", "")
  | OpenBracket => Some ("[", "") | CloseBracket => Some ("]", "")
  | At => Some ("@", "") | Tilde => Some ("~", "") | Question => Some ("?", "")
  | Colon => Some (":", "")
  | Eq => Some ("=", "=") | Bang => Some ("!", "=") | Lt => Some ("<", "=<") | Gt => Some (">", "=>")
  | EqEq => Some ("==", "") | BangEq => Some ("!=", "")
  | GtEq => Some (">=", "") | LtEq => Some ("<=", "")
  | Minus => Some ("-", "=") | And => Some ("&", "=") | Or => Some ("|", "=")
  | Plus => Some ("+", "=") | Star => Some ("*", "*=") | Slash => Some ("/", "/=")
  | Caret => Some ("^", "=") | Percent => Some ("%", "=")
  | StarStar => Some ("**", "=") | SlashSlash => Some ("//", "=")
  | LtLt => Some ("<<", "=") | GtGt => Some (">>", "=")
  | PlusEq => Some ("+=", "") | MinusEq => Some ("-=", "") | StarEq => Some ("*=", "")
  | SlashEq => Some ("/=", "") | PercentEq => Some ("%=", "") | AndEq => Some ("&=", "")
  | OrEq => Some ("|=", "") | CaretEq => Some ("^=", "") | StarStarEq => Some ("**=", "")
  | SlashSlashEq => Some ("//=", "") | LtLtEq => Some ("<<=", "") | GtGtEq => Some (">>=", "")
  | _ => None
  end.

Definition line_end (c : char) : bool := (c =? 13) || (c =? 10) || (c =? EOF_CHAR).

(** The text between the quotes when [after] follows it: an escaped backslash or quote is
    skipped; in a triple-quoted string a quote may occur when two others do not follow;
    outside of one, only an escape or the opening quote may precede a line end. *)
Inductive str_body (q : char) (triple : bool) : text -> text -> Prop :=
| body_nil after : str_body q triple [] after
| body_escape x b after :
    x = 92 \/ x = q -> str_body q triple b after -> str_body q triple (92 :: x :: b) after
| body_quote b after :
    triple = true -> ~ (next (b ++ after) = q /\ next (tail (b ++ after)) = q) ->
    str_body q triple b after -> str_body q triple (q :: b) after
| body_char c b after :
    c <> q -> ~ (c = 92 /\ (next (b ++ after) = 92 \/ next (b ++ after) = q)) ->
    triple = true \/ line_end (next (b ++ after)) = false ->
    str_body q triple b after -> str_body q triple (c :: b) after.

Definition raw_prefix (p : text) : Prop := p = [] \/ p = [ch "r"] \/ p = [ch "R"].
Definition quotes (q : char) (triple : bool) : text := if triple then [q; q; q] else [q].

Definition str_lexeme (terminated triple : bool) (t rest : text) : Prop :=
  exists p q, raw_prefix p /\ is_quote q = true /\
  if terminated
  then exists b, t = p ++ quotes q triple ++ b ++ quotes q triple /\
                 str_body q triple b (quotes q triple ++ rest)
  else triple = false /\ exists tr b, t = p ++ quotes q tr ++ b /\
         (rest = [] /\ str_body q tr b [] \/
          tr = false /\ exists b' c, b = b' ++ [c] /\ c <> q /\ line_end (next rest) = true /\
            str_body q tr b' (c :: rest)).

(** Digits and underscores of one base, and where they end. *)
Definition base_digit (b : Base) : char -> bool :=
  match b with Hexadecimal => is_digit16 | _ => is_digit10 end.
Definition digit_run (p : char -> bool) (ds : text) : Prop :=
  Forall (fun c => c = ch "_" \/ p c = true) ds.
Definition base_prefix (b : Base) (t : text) : Prop :=
  match b with
  | Decimal => exists d, t = [d] /\ is_digit10 d = true
  | Binary => t = txt "0b"
  | Octal => t = txt "0o" \/ exists d, t = [ch "0"; d] /\ is_digit10 d = true
  | Hexadecimal => t = txt "0x"
  end.

(** The exponent: [None] when there is none, else whether it has no digit. *)
Definition exponent (t : text) (e : option bool) : Prop :=
  match e with
  | None => t = []
  | Some empty => exists m sign ds, t = m :: sign ++ ds /\ (m = ch "e" \/ m = ch "E") /\
      (sign = [] \/ sign = [ch "-"] \/ sign = [ch "+"]) /\ digit_run is_digit10 ds /\
      empty = negb (existsb is_digit10 ds)
  end.

Definition number_lexeme (l : LiteralKind) (t rest : text) : Prop :=
  match l with
  | Int b empty => exists p ds, t = p ++ ds /\ base_prefix b p /\ digit_run (base_digit b) ds /\
      stops (base_digit b) rest /\
      empty = match b with Decimal => false | _ => negb (existsb (base_digit b) ds) end
  | Float b empty => exists p ds frac ex e, t = p ++ ds ++ frac ++ ex /\ base_prefix b p /\
      digit_run (base_digit b) ds /\ (b = Decimal \/ existsb (base_digit b) ds = true) /\
      (frac = [] /\ e <> None \/
       exists fd, frac = ch "." :: fd /\ digit_run is_digit10 fd) /\
      exponent ex e /\ empty = default false e /\ stops is_digit10 rest
  | _ => False
  end.

Section Lexemes.
Context `{UnicodeTables}.

Definition suffix_lexeme (s rest : text) : Prop :=
  match s with
  | [] => is_id_start (next rest) = false
  | c :: b => is_id_start c = true /\ Forall (fun x => is_id_continue x = true) b /\
              stops is_id_continue rest
  end.

Definition lexeme (k : TokenKind) (t rest : text) : Prop :=
  match k with
  | LineComment d => d = Some Inner /\
      exists b, t = ch "#" :: b /\ Forall (fun c => c <> 10) b /\ stops (fun c => negb (c =? 10)) rest
  | Tab => t = [9]
  | Space => t = [32]
  | Newline => t = [10]
  | Whitespace => exists c, t = [c] /\ is_whitespace c = true
  | Ident => exists c b, t = c :: b /\ Forall (fun x => is_id_continue x = true) b /\
      stops is_id_continue rest /\
      (if c =? DOLLAR_CHAR then is_id_start (next (b ++ rest)) else is_id_start c) = true
  | InvalidIdent => exists c b, t = c :: b /\
      stops (fun x => is_id_continue x || (negb (is_ascii x) && is_emoji x) || (x =? 8205)) rest /\
      exists x, x ∈ t /\ is_ascii x = false /\ is_emoji x = true
  | InvalidLineContinue => t = [92] /\ next rest <> 10 /\ next rest <> EOF_CHAR
  | LineContinue => t = [92; 10] \/ t = [92] /\ next rest = EOF_CHAR
  | Literal (Str terminated triple) s => s = str_len t /\ str_lexeme terminated triple t rest
  | Literal l s => exists num suf, t = num ++ suf /\ s = str_len num /\
      number_lexeme l num (suf ++ rest) /\ suffix_lexeme suf rest
  | Dot => t = txt "." /\ ~ (next rest = ch "." /\ next (tail rest) = ch ".")
  | Dollar => t = txt "$" /\ is_id_start (next rest) = false
  | BlockComment _ _ | CarriageReturn | DotDot | Pound => False
  | Unknown => exists c, t = [c]
  | _ => match spelling k with
         | Some (s, forbidden) => t = txt s /\ next rest ∉ txt forbidden
         | None => False
         end
  end.
End Lexemes.

(** ** Reading through the cursor

    [cur pre rest p] is the cursor that has consumed [pre] since the last reset. *)

Definition cur (pre rest : text) (p : char) : cursor :=
  {| initial_len := str_len pre + str_len rest; chars := rest; prev := p |}.

Lemma cur_bumped pre c rest p : bumped c rest (cur pre (c :: rest) p) = cur (pre ++ [c]) rest c.
Proof. unfold cur, bumped. f_equal. rewrite str_len_app. simpl. lia. Qed.

Lemma wp_bump pre rest p (Q : option char -> cursor -> Prop) :
  match rest with
  | [] => Q None (cur pre [] p)
  | c :: r => Q (Some c) (cur (pre ++ [c]) r c)
  end -> wp bump (cur pre rest p) Q.
Proof. destruct rest as [|c r]; [done|]. by rewrite <- (cur_bumped pre c r p). Qed.

Lemma wp_len_consumed debug pre rest p (Q : Z -> cursor -> Prop) :
  Q (str_len pre) (cur pre rest p) -> wp (len_consumed debug) (cur pre rest p) Q.
Proof.
  intros HQ. unfold wp, len_consumed. simpl. pose proof (str_len_nonneg pre).
  rewrite Z.add_simpl_r, (proj2 (Z.leb_le _ _)) by lia. done.
Qed.

Lemma eat_while_loop_spec predicate pre rest p :
  exists b rest', rest = b ++ rest' /\ Forall (fun c => predicate c = true) b /\
    stops predicate rest' /\
    eat_while_loop predicate rest (cur pre rest p) = cur (pre ++ b) rest' (default p (last b)).
Proof.
  revert pre p. induction rest as [|c r IH]; intros pre p.
  - exists [], []. rewrite !app_nil_r. split_and!; [done|by apply Forall_nil|done|done].
  - cbn [eat_while_loop]. destruct (predicate c) eqn:E.
    + rewrite cur_bumped.
      destruct (IH (pre ++ [c]) c) as (b & rest' & -> & Hb & Hs & ->).
      exists (c :: b), rest'. rewrite <- app_assoc. split_and!; [done|by constructor|done|].
      rewrite last_cons. by destruct (last b).
    + exists [], (c :: r). rewrite !app_nil_r. split_and!; [done|by apply Forall_nil|done|done].
Qed.

Lemma wp_eat_while predicate pre rest p (Q : unit -> cursor -> Prop) :
  (forall b rest', rest = b ++ rest' -> Forall (fun c => predicate c = true) b ->
     stops predicate rest' -> Q tt (cur (pre ++ b) rest' (default p (last b)))) ->
  wp (eat_while predicate) (cur pre rest p) Q.
Proof.
  intros HQ. apply wp_modify. simpl chars.
  destruct (eat_while_loop_spec predicate pre rest p) as (b & rest' & Hr & Hb & Hs & ->).
  by apply HQ.
Qed.

Definition real_digit (digit : char -> bool) : Prop := digit (ch "_") = false.

Lemma eat_digits_loop_spec digit pre rest p h :
  real_digit digit ->
  exists ds rest', rest = ds ++ rest' /\ digit_run digit ds /\ stops digit rest' /\
    eat_digits_loop digit rest (cur pre rest p) h =
      (h || existsb digit ds, cur (pre ++ ds) rest' (default p (last ds))).
Proof.
  intros Hd. revert pre p h. induction rest as [|c r IH]; intros pre p h.
  - exists [], []. rewrite !app_nil_r, orb_false_r. split_and!; [done|by apply Forall_nil|done|done].
  - cbn [eat_digits_loop]. rewrite cur_bumped.
    assert (Hstep : forall h', c = ch "_" \/ digit c = true -> (h' = h || digit c) ->
      exists ds rest', c :: r = ds ++ rest' /\ digit_run digit ds /\ stops digit rest' /\
        eat_digits_loop digit r (cur (pre ++ [c]) r c) h' =
        (h || existsb digit ds, cur (pre ++ ds) rest' (default p (last ds)))).
    { intros h' Hc Hh'. destruct (IH (pre ++ [c]) c h') as (ds & rest' & -> & Hr & Hs & ->).
      exists (c :: ds), rest'. rewrite <- app_assoc. split_and!; [done|by constructor|done|].
      simpl. subst h'. rewrite orb_assoc. rewrite last_cons. by destruct (last ds). }
    destruct (Z.eqb_spec c (ch "_")) as [->|Hne].
    + apply Hstep; [by left|]. by rewrite Hd, orb_false_r.
    + destruct (digit c) eqn:E.
      * apply Hstep; [by right|]. by rewrite orb_true_r.
      * exists [], (c :: r). rewrite !app_nil_r, orb_false_r.
        split_and!; [done|by apply Forall_nil|done|done].
Qed.

(** The postcondition of a scanner that starts after [t] with [rest] ahead. *)
Definition reads {A} (t rest : text) (P : A -> text -> text -> Prop) (a : A) (k : cursor) : Prop :=
  exists s rest' p, rest = s ++ rest' /\ k = cur (t ++ s) rest' p /\ P a (t ++ s) rest'.

(** ** Numbers *)

Lemma real_digit10 : real_digit is_digit10.
Proof. reflexivity. Qed.
Lemma real_digit16 : real_digit is_digit16.
Proof. reflexivity. Qed.

Lemma wp_eat_digits digit pre rest p (Q : bool -> cursor -> Prop) :
  real_digit digit ->
  (forall ds rest' p', rest = ds ++ rest' -> digit_run digit ds -> stops digit rest' ->
     Q (existsb digit ds) (cur (pre ++ ds) rest' p')) ->
  wp (fun k => Ok (eat_digits_loop digit (chars k) k false)) (cur pre rest p) Q.
Proof.
  intros Hd HQ. unfold wp. simpl chars.
  destruct (eat_digits_loop_spec digit pre rest p false Hd) as (ds & rest' & Hr & Hds & Hs & ->).
  by apply HQ.
Qed.

Lemma is_digit10_not c d : is_digit10 c = false -> is_digit10 d = true -> c <> d.
Proof. congruence. Qed.

(** Boolean tests on a known character. *)
Ltac eqb_true :=
  repeat match goal with
    | H : (_ || _) = true |- _ => apply orb_true_iff in H; destruct H
    | H : (_ && _) = true |- _ => apply andb_true_iff in H; destruct H
    | H : (_ || _) = false |- _ => apply orb_false_iff in H; destruct H
    | H : (_ =? _) = true |- _ => apply Z.eqb_eq in H
    | H : (_ =? _) = false |- _ => apply Z.eqb_neq in H
    | H : negb _ = true |- _ => apply negb_true_iff in H
    | H : negb _ = false |- _ => apply negb_false_iff in H
    end.

(** The character a test found ahead is the head of the input, unless it is [EOF_CHAR]. *)
Lemma next_eq c rest : next rest = c -> c <> EOF_CHAR -> exists r, rest = c :: r.
Proof. destruct rest as [|d r]; simpl; [by intros <- ?|]. intros <- _. by exists r. Qed.

Lemma peek_cur pre rest p : peek (cur pre rest p) = next rest.
Proof. by destruct rest. Qed.
Lemma peek1th_cur pre rest p : peek1th (cur pre rest p) = next (tail rest).
Proof. by destruct rest as [|? [|]]. Qed.

Lemma stops_next (q : char -> bool) rest : q (next rest) = false -> stops q rest.
Proof. by destruct rest. Qed.

Lemma wp_eat_float_exponent debug m pre rest (Q : bool -> cursor -> Prop) :
  m = ch "e" \/ m = ch "E" ->
  (forall s rest' p' e, rest = s ++ rest' -> exponent (m :: s) (Some e) -> stops is_digit10 rest' ->
     Q (negb e) (cur (pre ++ s) rest' p')) ->
  wp (eat_float_exponent debug) (cur pre rest m) Q.
Proof.
  intros Hm HQ. unfold eat_float_exponent. wp_step.
  apply wp_debug_assert; [simpl; destruct Hm as [-> | ->]; reflexivity|].
  wp_step. wp_step. rewrite peek_cur.
  assert (Hrest : forall sign r p, rest = sign ++ r ->
    sign = [] \/ sign = [ch "-"] \/ sign = [ch "+"] ->
    wp eat_decimal_digits (cur (pre ++ sign) r p) Q).
  { intros sign r p -> Hsign. apply wp_eat_digits; [done|].
    intros ds rest' p' -> Hds Hs. rewrite <- app_assoc.
    rewrite <- (negb_involutive (existsb _ _)). apply (HQ (sign ++ ds)); [by rewrite <- app_assoc| |done].
    exists m, sign, ds. done. }
  wp_step. wp_step.
  - eqb_true; (destruct (next_eq _ _ ltac:(eassumption)) as [r ->]; [done|]);
      apply wp_bump; simpl; apply Hrest; auto.
  - wp_step. rewrite <- (app_nil_r pre). apply (Hrest []); auto.
Qed.

Definition prefix_lexeme (b : Base) (t rest : text) : Prop :=
  exists p ds, t = p ++ ds /\ base_prefix b p /\ digit_run (base_digit b) ds /\
    stops (base_digit b) rest /\ (b = Decimal \/ existsb (base_digit b) ds = true).

Lemma wp_number_prefix d rest p :
  is_digit10 d = true ->
  wp (number_prefix d) (cur [d] rest p)
    (reads [d] rest (fun r t rest' =>
       match r with inl l => number_lexeme l t rest' | inr b => prefix_lexeme b t rest' end)).
Proof.
  intros Hd. unfold number_prefix.
  (* after a base prefix, and for a plain decimal *)
  assert (Hfin : forall b x ds rest' p', base_prefix b [d; x] -> b <> Decimal ->
    rest = x :: ds ++ rest' -> digit_run (base_digit b) ds -> stops (base_digit b) rest' ->
    reads [d] rest (fun r t rest' =>
       match r with inl l => number_lexeme l t rest' | inr b => prefix_lexeme b t rest' end)
      (if existsb (base_digit b) ds then inr b else inl (Int b true)) (cur ([d; x] ++ ds) rest' p')).
  { intros b x ds rest' p' Hb Hne -> Hds Hs. exists (x :: ds), rest', p'.
    split_and!; [done|done|].
    destruct (existsb (base_digit b) ds) eqn:E; exists [d; x], ds; split_and!; auto.
    rewrite E. by destruct b. }
  assert (Hdec : forall ds rest' p', rest = ds ++ rest' -> digit_run is_digit10 ds ->
    stops is_digit10 rest' ->
    reads [d] rest (fun r t rest' =>
       match r with inl l => number_lexeme l t rest' | inr b => prefix_lexeme b t rest' end)
      (inr Decimal) (cur ([d] ++ ds) rest' p')).
  { intros ds rest' p' -> Hds Hs. exists ds, rest', p'. split_and!; [done|done|].
    exists [d], ds. split_and!; auto. by exists d. }
  wp_step.
  - eqb_true. subst d. wp_step. wp_step. rewrite peek_cur. wp_step; [|wp_step; [|wp_step; [|wp_step]]].
    + eqb_true. destruct (next_eq _ _ ltac:(eassumption)) as [r ->]; [done|].
      wp_step. apply wp_bump. wp_step. apply wp_eat_digits; [done|]. intros ds rest' p' -> Hds Hs.
      wp_step. by apply (Hfin Binary).
    + assert (Hx : next rest = ch "o" \/ is_digit10 (next rest) = true).
      { destruct (next rest =? ch "o") eqn:E; [left; by apply Z.eqb_eq|by right]. }
      destruct rest as [|x r]; [by destruct Hx|]. change (next (x :: r)) with x in Hx.
      wp_step. apply wp_bump. wp_step. apply wp_eat_digits; [done|].
      intros ds rest' p' -> Hds Hs. wp_step.
      apply (Hfin Octal x); [|done|done|done|done].
      destruct Hx as [-> | Hx]; [by left|right; eauto].
    + eqb_true. destruct (next_eq _ _ ltac:(eassumption)) as [r ->]; [done|].
      wp_step. apply wp_bump. wp_step. apply wp_eat_digits; [done|]. intros ds rest' p' -> Hds Hs.
      wp_step. by apply (Hfin Hexadecimal).
    + wp_step. apply wp_eat_digits; [done|]. intros ds rest' p' Hr Hds Hs. wp_step. by apply Hdec.
    + wp_step. exists [], rest, p. split_and!; [done|done|]. exists [ch "0"], [].
      split_and!; [done|by exists (ch "0")|by apply Forall_nil| |done].
      apply stops_next. apply orb_false_iff in Heqb0 as [_ Hx]. exact Hx.
  - wp_step. apply wp_eat_digits; [done|]. intros ds rest' p' Hr Hds Hs. wp_step. by apply Hdec.
Qed.

Section Scanners.
Context (debug : bool) `{UnicodeTables}.

Lemma stops_digit10 b rest : stops (base_digit b) rest -> stops is_digit10 rest.
Proof.
  destruct b, rest as [|c r]; try done. simpl. unfold is_digit16, is_digit10.
  intros Hs. eqb_true. done.
Qed.

Lemma wp_number_tail b t rest p :
  prefix_lexeme b t rest ->
  wp (number_tail debug b) (cur t rest p) (reads t rest number_lexeme).
Proof.
  intros (pf & ds & -> & Hpf & Hds & Hs & Hb). unfold number_tail.
  (* a float whose fraction is [frac] and whose exponent is [ex] *)
  assert (Hfl : forall s frac ex e p' rest', rest = s ++ rest' -> s = frac ++ ex ->
    (frac = [] /\ e <> None \/ exists fd, frac = ch "." :: fd /\ digit_run is_digit10 fd) ->
    exponent ex e -> stops is_digit10 rest' ->
    reads (pf ++ ds) rest number_lexeme (Float b (default false e)) (cur ((pf ++ ds) ++ s) rest' p')).
  { intros s frac ex e p' rest' -> -> Hfr Hex Hs'. exists (frac ++ ex), rest', p'.
    split_and!; [done|done|]. exists pf, ds, frac, ex, e. rewrite <- !app_assoc. done. }
  assert (Hexp : forall m r p' pre frac, m = ch "e" \/ m = ch "E" -> rest = frac ++ m :: r ->
    pre = (pf ++ ds) ++ frac ++ [m] -> p' = m ->
    (frac = [] \/ exists fd, frac = ch "." :: fd /\ digit_run is_digit10 fd) ->
    wp (b0 ← eat_float_exponent debug; mret (Float b (negb b0))) (cur pre r p')
      (reads (pf ++ ds) rest number_lexeme)).
  { intros m r p' pre frac Hm Hrest -> -> Hfr. wp_step. apply wp_eat_float_exponent; [done|].
    intros s rest' p' e -> Hex Hs'. wp_step. rewrite negb_involutive, <- app_assoc.
    apply (Hfl ((frac ++ [m]) ++ s) frac (m :: s) (Some e)); auto.
    - by rewrite Hrest, <- !app_assoc.
    - by rewrite <- app_assoc.
    - destruct Hfr as [->|]; [by left|by right]. }
  do 4 wp_step. rewrite peek_cur, peek1th_cur. wp_step.
  - eqb_true. destruct (next_eq _ _ ltac:(eassumption)) as [r ->]; [done|].
    wp_step. apply wp_bump. do 2 wp_step. rewrite peek_cur. wp_step.
    + wp_step. apply wp_eat_digits; [done|]. intros fd rest' p' -> Hfd Hs'.
      do 2 wp_step. rewrite peek_cur. wp_step.
      * assert (Hm : next rest' = ch "e" \/ next rest' = ch "E") by (eqb_true; auto).
        destruct rest' as [|x r]; [by destruct Hm|]. change (next (x :: r)) with x in Hm.
        wp_step. apply wp_bump.
        apply (Hexp x r _ _ (ch "." :: fd)); auto.
        -- by rewrite <- !app_assoc.
        -- right. by exists fd.
      * wp_step. rewrite <- app_assoc. apply (Hfl (ch "." :: fd) (ch "." :: fd) [] None); auto.
        -- by rewrite app_nil_r.
        -- right. by exists fd.
        -- done.
    + wp_step. apply (Hfl [ch "."] [ch "."] [] None); auto.
      * right. exists []. split; [done|by apply Forall_nil].
      * done.
      * by apply stops_next.
  - wp_step.
    + assert (Hm : next rest = ch "e" \/ next rest = ch "E") by (eqb_true; auto).
      destruct rest as [|x r]; [by destruct Hm|]. change (next (x :: r)) with x in Hm.
      wp_step. apply wp_bump.
      apply (Hexp x r _ _ []); auto.
    + wp_step. exists [], rest, p. rewrite app_nil_r. split_and!; [done|done|].
      exists pf, ds. split_and!; auto. destruct Hb as [-> | ->]; [done|by destruct b].
Qed.

Lemma wp_number d rest :
  is_digit10 d = true ->
  wp (number debug d) (cur [d] rest d) (reads [d] rest number_lexeme).
Proof.
  intros Hd. unfold number. wp_step. apply wp_debug_assert; [exact Hd|].
  wp_step. eapply wp_mono; [by apply wp_number_prefix|].
  intros [l|b] k (s & rest' & p & -> & -> & Hl).
  - wp_step. by exists s, rest', p.
  - eapply wp_mono; [by apply wp_number_tail|].
    intros l k (s' & rest'' & p' & -> & -> & Hl'). exists (s ++ s'), rest'', p'.
    rewrite !app_assoc. split_and!; [done|done|]. by rewrite <- app_assoc in Hl'.
Qed.

(** ** Comments, identifiers and suffixes *)

Lemma wp_eat_comment rest :
  wp (eat_comment debug) (cur [ch "#"] rest (ch "#")) (reads [ch "#"] rest lexeme).
Proof.
  unfold eat_comment. wp_step. apply wp_debug_assert; [done|]. wp_step.
  apply wp_eat_while. intros b rest' -> Hb Hs. wp_step. exists b, rest', (default (ch "#") (last b)).
  split_and!; [done|done|]. split; [done|]. exists b. split_and!; [done| |done].
  eapply list.Forall_impl; [exact Hb|]. simpl. intros c Hc. eqb_true. done.
Qed.

Lemma wp_fake_ident pre rest p (Q : TokenKind -> cursor -> Prop) :
  (forall b rest' p', rest = b ++ rest' ->
     stops (fun x => is_id_continue x || (negb (is_ascii x) && is_emoji x) || (x =? 8205)) rest' ->
     Q InvalidIdent (cur (pre ++ b) rest' p')) ->
  wp fake_ident_or_unknown_prefix (cur pre rest p) Q.
Proof.
  intros HQ. unfold fake_ident_or_unknown_prefix. wp_step. apply wp_eat_while.
  intros b rest' Hr Hb Hs. wp_step. by apply HQ.
Qed.

Lemma wp_eat_ident c rest :
  try_ident_magic (cur [c] rest c) c = true ->
  wp (eat_ident debug) (cur [c] rest c) (reads [c] rest lexeme).
Proof.
  unfold try_ident_magic. rewrite peek_cur. intros Hc. unfold eat_ident. wp_step.
  apply wp_debug_assert.
  { simpl. destruct (c =? DOLLAR_CHAR); [apply orb_true_r|by rewrite Hc]. }
  wp_step. apply wp_eat_while. intros b rest' -> Hb Hs. do 2 wp_step. rewrite peek_cur. wp_step.
  - apply wp_fake_ident. intros b' rest'' p' -> Hs'. rewrite <- app_assoc.
    exists (b ++ b'), rest'', p'. split_and!; [by rewrite <- app_assoc|done|].
    exists c, (b ++ b'). split_and!; [done|done|].
    destruct b' as [|x b'].
    + destruct rest'' as [|x r]; [done|]. change (next ([] ++ x :: r)) with x in Heqb0.
      cbn [stops] in Hs'. by rewrite Heqb0, orb_true_r in Hs'.
    + exists x. apply andb_true_iff in Heqb0 as [Hx%negb_true_iff Hx'].
      split_and!; [set_solver|exact Hx|exact Hx'].
  - wp_step. eexists b, rest', _. split_and!; [done|done|]. exists c, b. done.
Qed.

Lemma wp_eat_lit_suffix pre rest p (Q : unit -> cursor -> Prop) :
  (forall suf rest' p', rest = suf ++ rest' -> suffix_lexeme suf rest' ->
     Q tt (cur (pre ++ suf) rest' p')) ->
  (is_id_start EOF_CHAR = false) ->
  wp eat_lit_suffix (cur pre rest p) Q.
Proof.
  intros HQ HE. unfold eat_lit_suffix. do 2 wp_step. rewrite peek_cur. wp_step.
  - wp_step. rewrite <- (app_nil_r pre). apply (HQ []); [done|]. by eqb_true.
  - eqb_true. destruct rest as [|c r]; [change (next []) with EOF_CHAR in *; congruence|].
    wp_step. apply wp_bump. apply wp_eat_while. intros b rest' -> Hb Hs. rewrite <- app_assoc.
    by apply (HQ (c :: b)).
Qed.
End Scanners.

(** ** Strings *)

Section Strings.
Context (debug : bool) (q : char) (tr : bool).

(** What the loop of [eat_quoted_string] has read when it stops. *)
Definition loop_post (pre rest : text) (r : option TokenKind) (k : cursor) : Prop :=
  exists s rest' p', rest = s ++ rest' /\ k = cur (pre ++ s) rest' p' /\
  match r with
  | Some t => t = Literal (Str true tr) (str_len (pre ++ s)) /\
      exists b, s = b ++ quotes q tr /\ str_body q tr b (quotes q tr ++ rest')
  | None => rest' = [] /\ str_body q tr s [] \/
      tr = false /\ exists b c, s = b ++ [c] /\ c <> q /\ line_end (next rest') = true /\
        str_body q tr b (c :: rest')
  end.

(** A character, or an escape, that is read on the way. *)
Lemma loop_post_app pre u rest r k :
  (forall b after, b ++ after = rest -> str_body q tr b after -> str_body q tr (u ++ b) after) ->
  loop_post (pre ++ u) rest r k -> loop_post pre (u ++ rest) r k.
Proof.
  intros Hu (s & rest' & p' & -> & -> & Hr). exists (u ++ s), rest', p'.
  rewrite <- !app_assoc in *. split_and!; [done|done|]. destruct r as [t|].
  - destruct Hr as [-> (b & -> & Hb)]. split; [done|]. exists (u ++ b).
    rewrite <- app_assoc. split; [done|]. apply Hu; [by rewrite <- app_assoc|done].
  - destruct Hr as [[-> Hb]|(Ht & b & c & -> & Hc & Hn & Hb)].
    + left. split; [done|]. apply Hu; [done|done].
    + right. split; [done|]. exists (u ++ b), c. rewrite <- app_assoc.
      split_and!; try done. apply Hu; [by rewrite <- app_assoc|done].
Qed.

Lemma wp_quoted_loop fuel pre rest p :
  is_quote q = true -> (length rest < fuel)%nat ->
  wp (quoted_loop debug fuel q tr) (cur pre rest p) (loop_post pre rest).
Proof.
  intros Hq. revert pre rest p. induction fuel as [|fuel IH]; intros pre rest p Hf; [lia|].
  assert (Hq0 : q <> EOF_CHAR).
  { intros ->. discriminate Hq. }
  simpl quoted_loop. wp_step. apply wp_bump. destruct rest as [|c r].
  { wp_step. exists [], [], p. rewrite !app_nil_r. split_and!; [done|done|]. left. split; [done|constructor]. }
  simpl in Hf. do 4 wp_step. rewrite peek_cur, peek1th_cur.
  assert (Hgo : forall u r', c :: r = u ++ r' -> u <> [] -> forall p',
    (forall b after, b ++ after = r' -> str_body q tr b after -> str_body q tr (u ++ b) after) ->
    wp (quoted_loop debug fuel q tr) (cur (pre ++ u) r' p') (loop_post pre (c :: r))).
  { intros u r' Hr Hu p' Hb. rewrite Hr. eapply wp_mono; [apply IH|].
    - apply (f_equal length) in Hr. rewrite length_app in Hr. simpl in Hr.
      destruct u; [done|]. simpl in Hr. lia.
    - intros a k. by apply loop_post_app. }
  wp_step; [|wp_step; [wp_step; [wp_step|]|wp_step]].
  - eqb_true; subst c;
      (destruct (next_eq _ _ ltac:(eassumption)) as [r' ->]; [done|]);
      wp_step; apply wp_bump; rewrite <- app_assoc; apply Hgo; try done;
      intros b after _ Hb; apply body_escape; auto.
  - eqb_true. destruct (next_eq q r) as [r' ->]; [done|done|].
    destruct (next_eq q r') as [r'' ->]; [done|done|].
    wp_step. apply wp_bump. wp_step. apply wp_bump. wp_step. rewrite <- !app_assoc.
    apply wp_len_consumed. wp_step. exists [q; q; q], r'', q. subst c.
    split_and!; [done|done|by rewrite Heqb1|].
    exists []. rewrite Heqb1. split; [done|constructor].
  - eqb_true. subst c. apply (Hgo [q]); [done|done|].
    intros b after Hb Hbody. apply body_quote; [done| |done].
    rewrite Hb. intros [E1 E2]. apply not_true_iff_false in Heqb2. apply Heqb2.
    by rewrite E1, E2, !Z.eqb_refl.
  - wp_step. apply wp_len_consumed. wp_step. eqb_true. subst c. exists [q], r, q.
    split_and!; [done|done|by rewrite Heqb1|].
    exists []. rewrite Heqb1. split; [done|constructor].
  - wp_step. exists [c], r, c. split_and!; [done|done|]. apply andb_true_iff in Heqb1 as [Ht Hn].
    right. split; [by eqb_true|]. exists [], c. split_and!; [done| |done|constructor].
    by eqb_true.
  - apply Z.eqb_neq in Heqb0. apply (Hgo [c]); [done|done|].
    intros b after Hb Hbody. apply body_char; [done| | |done]; rewrite Hb.
    + intros [-> Hx]. apply not_true_iff_false in Heqb. apply Heqb.
      destruct Hx as [-> | ->]; rewrite ?Z.eqb_refl, ?orb_true_r; done.
    + destruct tr; [by left|right]. exact Heqb1.
Qed.
End Strings.

Lemma wp_eat_quoted_string debug q pf rest :
  is_quote q = true -> raw_prefix pf ->
  wp (eat_quoted_string debug q) (cur (pf ++ [q]) rest q)
    (reads (pf ++ [q]) rest (fun k t rest' =>
       exists terminated triple, k = Literal (Str terminated triple) (str_len t) /\
         str_lexeme terminated triple t rest')).
Proof.
  intros Hq Hpf. unfold eat_quoted_string. wp_step. apply wp_debug_assert; [exact Hq|].
  do 4 wp_step. rewrite peek_cur, peek1th_cur.
  assert (Hq0 : q <> EOF_CHAR) by (intros ->; discriminate Hq).
  assert (Hloop : forall (tr : bool) s r p, rest = s ++ r -> [q] ++ s = quotes q tr ->
    wp (fuel ← gets (fun k => S (length (chars k)));
        r ← quoted_loop debug fuel q tr;
        match r with
        | Some t => mret t
        | None => s ← len_consumed debug; mret (Literal (Str false false) s)
        end) (cur ((pf ++ [q]) ++ s) r p)
      (reads (pf ++ [q]) rest (fun k t rest' =>
       exists terminated triple, k = Literal (Str terminated triple) (str_len t) /\
         str_lexeme terminated triple t rest'))).
  { intros tr s r p -> Hs. do 2 wp_step. simpl chars. wp_step.
    eapply wp_mono; [apply wp_quoted_loop; [done|lia]|].
    intros [t|] k (s' & rest' & p' & -> & -> & Hpost).
    - destruct Hpost as [-> (b & -> & Hb)]. wp_step. exists (s ++ b ++ quotes q tr), rest', p'.
      rewrite <- !app_assoc. split_and!; [done|done|]. exists true, tr. split; [done|].
      exists pf, q. split_and!; [done|done|]. exists b. split; [|done].
      rewrite <- Hs. by rewrite <- !app_assoc.
    - wp_step. apply wp_len_consumed. wp_step. exists (s ++ s'), rest', p'.
      rewrite <- !app_assoc. split_and!; [done|done|]. exists false, false. split; [done|].
      exists pf, q. split_and!; [done|done|done|]. exists tr, s'.
      split; [rewrite <- Hs; by rewrite <- !app_assoc|].
      destruct Hpost as [[-> Hb]|Hpost]; [by left|right].
      destruct Hpost as (-> & b & c & -> & Hc & Hn & Hb). split; [done|]. by exists b, c. }
  wp_step. wp_step.
  - eqb_true. destruct (next_eq q rest) as [r ->]; [done|done|].
    destruct (next_eq q r) as [r' ->]; [done|done|].
    wp_step. apply wp_bump. wp_step. apply wp_bump. wp_step.
    specialize (Hloop true [q; q] r' q eq_refl eq_refl).
    by rewrite <- !app_assoc in *.
  - wp_step. specialize (Hloop false [] rest q eq_refl eq_refl). by rewrite app_nil_r in Hloop.
Qed.

Lemma str_literal_lexeme `{UnicodeTables} k t rest :
  (exists terminated triple, k = Literal (Str terminated triple) (str_len t) /\
     str_lexeme terminated triple t rest) -> lexeme k t rest.
Proof. by intros (te & tr & -> & Ht). Qed.

Lemma wp_eat_string debug `{UnicodeTables} c rest :
  try_string_magic (cur [c] rest c) c = true ->
  wp (eat_string debug c) (cur [c] rest c) (reads [c] rest lexeme).
Proof.
  unfold try_string_magic, eat_string. rewrite peek_cur. intros Hc. wp_step.
  - do 2 wp_step. rewrite peek_cur, Hc. destruct rest as [|x r]; [discriminate Hc|].
    wp_step. apply wp_bump. change (is_quote x = true) in Hc.
    eapply wp_mono; [apply (wp_eat_quoted_string debug x [c]); [done|]|].
    + right. eqb_true; subst; auto.
    + intros k k' (s & rest' & p & -> & -> & Hk). exists (x :: s), rest', p.
      split_and!; [done|done|]. by apply str_literal_lexeme.
  - rewrite Hc. eapply wp_mono; [apply (wp_eat_quoted_string debug c []); [done|by left]|].
    intros k k' (s & rest' & p & -> & -> & Hk). exists s, rest', p.
    split_and!; [done|done|]. by apply str_literal_lexeme.
Qed.

(** ** Operators and single tokens *)

Section Tokens.
Context (debug : bool) `{UnicodeTables}.

Lemma reads_here {A} t rest p (P : A -> text -> text -> Prop) a :
  P a t rest -> reads t rest P a (cur t rest p).
Proof. exists [], rest, p. by rewrite app_nil_r. Qed.

Lemma reads_next {A} t c rest (P : A -> text -> text -> Prop) a k :
  reads (t ++ [c]) rest P a k -> reads t (c :: rest) P a k.
Proof.
  intros (s & rest' & p & -> & -> & HP). exists (c :: s), rest', p. by rewrite <- app_assoc in *.
Qed.

Lemma wp_bump_next c t rest p (P : TokenKind -> text -> text -> Prop)
    (f : option char -> st cursor TokenKind) :
  next rest = c -> c <> EOF_CHAR ->
  (forall r, wp (f (Some c)) (cur (t ++ [c]) r c) (reads (t ++ [c]) r P)) ->
  wp (x ← bump; f x) (cur t rest p) (reads t rest P).
Proof.
  intros Hn Hc Hf. destruct (next_eq c rest Hn Hc) as [r ->]. wp_step. apply wp_bump.
  eapply wp_mono; [apply Hf|]. intros a k. apply reads_next.
Qed.

Lemma lexeme_spelling k s f rest :
  spelling k = Some (s, f) -> next rest ∉ txt f -> lexeme k (txt s) rest.
Proof. destruct k; simpl; try discriminate; by intros [= <- <-]. Qed.

Lemma wp_op k t s f rest p :
  spelling k = Some (s, f) -> t = txt s -> next rest ∉ txt f ->
  wp (mret k) (cur t rest p) (reads t rest lexeme).
Proof. intros Hk -> Hn. wp_step. apply reads_here. by eapply lexeme_spelling. Qed.

Lemma wp_maybe_eq k k' t s s' rest p :
  spelling k = Some (s, "=") -> spelling k' = Some (s', "") -> t = txt s ->
  t ++ [ch "="] = txt s' ->
  wp (maybe_eq k k') (cur t rest p) (reads t rest lexeme).
Proof.
  intros Hk Hk' Ht Ht'. unfold maybe_eq. do 2 wp_step. rewrite peek_cur. wp_step; eqb_true.
  - apply (wp_bump_next (ch "=")); [done..|]. intros r.
    by eapply wp_op; [exact Hk'| |apply not_elem_of_nil].
  - eapply wp_op; [exact Hk|done|]. apply not_elem_of_cons. split; [done|apply not_elem_of_nil].
Qed.

(** Membership of the next character in a literal list of characters. *)
Ltac not_among :=
  repeat (apply not_elem_of_cons; split; [assumption|]); apply not_elem_of_nil.

Ltac op_tac :=
  first [ eapply wp_maybe_eq; reflexivity
        | eapply wp_op; [reflexivity|reflexivity|not_among]
        | wp_step; apply reads_here ].

(** An operator with two extensions, the second test after the first. *)
Ltac op2_tac :=
  do 2 wp_step; rewrite peek_cur;
  wp_step; [eqb_true; eapply wp_bump_next; [eassumption|done|intros; op_tac]|];
  wp_step; [eqb_true; eapply wp_bump_next; [eassumption|done|intros; op_tac]|];
  eqb_true; op_tac.

Lemma wp_dots rest :
  wp (p ← gets peek; p1 ← gets peek1th;
      if (p =? ch ".") && (p1 =? ch ".") then _ ← bump; _ ← bump; mret DotDotDot else mret Dot)
    (cur [ch "."] rest (ch ".")) (reads [ch "."] rest lexeme).
Proof.
  do 4 wp_step. rewrite peek_cur, peek1th_cur. wp_step.
  - eqb_true. destruct (next_eq (ch ".") rest) as [r ->]; [done|done|].
    destruct (next_eq (ch ".") r) as [r' ->]; [done|done|].
    wp_step. apply wp_bump. wp_step. apply wp_bump. do 2 apply reads_next. op_tac.
  - wp_step. apply reads_here. split; [done|]. intros [E1 E2].
    rewrite E1, E2 in Heqb. discriminate.
Qed.

Lemma wp_dollar rest :
  try_ident_magic (cur [ch "$"] rest (ch "$")) (ch "$") = false ->
  wp (mret Dollar) (cur [ch "$"] rest (ch "$")) (reads [ch "$"] rest lexeme).
Proof.
  intros Hi. wp_step. apply reads_here. split; [done|].
  unfold try_ident_magic in Hi. by rewrite peek_cur in Hi.
Qed.

Lemma wp_line_continue rest :
  wp (p ← gets peek;
      if p =? 10 then _ ← bump; mret LineContinue
      else if p =? EOF_CHAR then mret LineContinue
      else mret InvalidLineContinue)
    (cur [92] rest 92) (reads [92] rest lexeme).
Proof.
  do 2 wp_step. rewrite peek_cur. wp_step; eqb_true.
  - apply (wp_bump_next 10); [done..|]. intros r. wp_step. apply reads_here. by left.
  - wp_step; eqb_true; wp_step; apply reads_here; [by right|done].
Qed.

Lemma wp_simple_token c rest :
  is_whitespace c = false -> try_comment_magic c = false ->
  try_ident_magic (cur [c] rest c) c = false -> is_digit10 c = false ->
  wp (simple_token c) (cur [c] rest c) (reads [c] rest lexeme).
Proof.
  intros Hw Hm Hi Hd. unfold simple_token.
  do 5 (wp_step; [eqb_true; subst c; op_tac; done|]).
  wp_step; [eqb_true; subst c; apply wp_dots|].
  do 13 (wp_step; [eqb_true; subst c; first [by op_tac | discriminate | by apply wp_dollar]|]).
  do 3 (wp_step; [eqb_true; subst c; first [by op_tac | by op2_tac]|]).
  do 4 (wp_step; [eqb_true; subst c; by op_tac|]).
  do 2 (wp_step; [eqb_true; subst c; by op2_tac|]).
  do 2 (wp_step; [eqb_true; subst c; by op_tac|]).
  wp_step; [eqb_true; subst c; apply wp_line_continue|]. wp_step.
  - apply wp_fake_ident. intros b rest' p' -> Hs. exists b, rest', p'. split_and!; [done|done|].
    exists c, b. split_and!; [done|done|]. exists c. eqb_true. split_and!; [by left|done|done].
  - wp_step. apply reads_here. by exists c.
Qed.
End Tokens.

(** ** The token function *)

Section TokenSpec.
Context (debug : bool) `{U : UnicodeTables} `{!UnicodeLaws U}.

Lemma id_start_eof : is_id_start EOF_CHAR = false.
Proof. by rewrite id_start_ascii. Qed.

Lemma wp_token_kind c rest :
  wp (token_kind debug c) (cur [c] rest c) (reads [c] rest lexeme).
Proof.
  unfold token_kind. do 2 wp_step. wp_step; [|wp_step; [|wp_step; [|wp_step; [|wp_step]]]].
  - unfold try_comment_magic in *. eqb_true. subst c. apply wp_eat_comment.
  - wp_step. apply reads_here. by exists c.
  - by apply wp_eat_string.
  - by apply wp_eat_ident.
  - wp_step. eapply wp_mono; [by apply wp_number|].
    intros l k (s & rest' & p & -> & -> & Hl). wp_step. apply wp_len_consumed. wp_step.
    apply wp_eat_lit_suffix; [|exact id_start_eof]. intros suf rest'' p' -> Hsuf. wp_step.
    exists (s ++ suf), rest'', p'. rewrite <- !app_assoc. split_and!; [done|done|].
    assert (Hlex : exists num suf', [c] ++ s ++ suf = num ++ suf' /\ str_len ([c] ++ s) = str_len num /\
        number_lexeme l num (suf' ++ rest'') /\ suffix_lexeme suf' rest'').
    { exists ([c] ++ s), suf. rewrite <- !app_assoc. done. }
    destruct l; [exact Hlex|exact Hlex|done|done].
  - by apply wp_simple_token.
Qed.

(** One token from a fresh cursor. *)
Lemma wp_next_token c rest p :
  wp (next_token debug) (cur [] (c :: rest) p) (fun t k => exists s rest' p',
    rest = s ++ rest' /\ k = cur (c :: s) rest' p' /\ len t = str_len (c :: s) /\
    lexeme (kind t) (c :: s) rest').
Proof.
  unfold next_token. wp_step. apply wp_bump. wp_step. eapply wp_mono; [apply wp_token_kind|].
  intros k k' (s & rest' & p' & -> & -> & Hk). wp_step. apply wp_len_consumed. wp_step.
  by exists s, rest', p'.
Qed.

(** The cutting of a text into the texts of its tokens. *)
Inductive lexes : text -> list token -> Prop :=
| lexes_nil : lexes [] []
| lexes_cons s rest t ts :
    s <> [] -> len t = str_len s -> lexeme (kind t) s rest -> lexes rest ts ->
    lexes (s ++ rest) (t :: ts).

Lemma reset_cur pre rest p : reset_len_consumed (cur pre rest p) = Ok (tt, cur [] rest p).
Proof. reflexivity. Qed.

Lemma tokenize_loop_spec fuel pre rest p :
  (length rest <= fuel)%nat ->
  exists ts, tokenize_loop debug fuel (cur pre rest p) = Ok ts /\ lexes rest ts.
Proof.
  revert pre rest p. induction fuel as [|fuel IH]; intros pre rest p Hf.
  { destruct rest; [|simpl in Hf; lia]. exists []. split; [done|constructor]. }
  destruct rest as [|c rest]; [exists []; split; [done|constructor]|].
  cbn [tokenize_loop is_eof cur chars].
  change {| initial_len := _; chars := c :: rest; prev := p |} with (cur pre (c :: rest) p).
  rewrite (st_bind_ok _ _ _ _ _ (reset_cur pre (c :: rest) p)).
  destruct (proj1 (wp_ok _ _ _) (wp_next_token c rest p))
    as (t & k & -> & s & rest' & p' & -> & -> & Hlen & Hlex).
  simpl in Hf. rewrite length_app in Hf.
  destruct (IH (c :: s) rest' p') as (ts & -> & Hts); [lia|].
  exists (t :: ts). split; [done|]. change (c :: s ++ rest') with ((c :: s) ++ rest').
  by constructor.
Qed.
End TokenSpec.

Section TokenizeFacts.
Context (debug : bool) `{U : UnicodeTables} `{!UnicodeLaws U}.

Lemma lexes_lengths input ts :
  lexes input ts ->
  Forall (fun t => 1 <= len t) ts /\ foldr (fun t n => len t + n) 0 ts = str_len input.
Proof.
  induction 1 as [|s rest t ts Hs Hlen _ _ [IH1 IH2]]; [by split|]. split.
  - constructor; [|done]. rewrite Hlen. by apply str_len_pos.
  - simpl. rewrite str_len_app. lia.
Qed.

(** The first token does not depend on what the cursor read before. *)
Lemma next_token_prev c rest p p' :
  next_token debug (cur [] (c :: rest) p) = next_token debug (cur [] (c :: rest) p').
Proof. reflexivity. Qed.

Lemma new_cursor_cur input : new_cursor input = cur [] input EOF_CHAR.
Proof. done. Qed.

(** More fuel and another history give the same tokens. *)
Lemma tokenize_loop_fuel fuel fuel' pre pre' rest p p' :
  (length rest <= fuel)%nat -> (length rest <= fuel')%nat ->
  tokenize_loop debug fuel (cur pre rest p) = tokenize_loop debug fuel' (cur pre' rest p').
Proof.
  revert fuel' pre pre' rest p p'. induction fuel as [|fuel IH]; intros fuel' pre pre' rest p p' H1 H2.
  { destruct rest; [by destruct fuel'|simpl in H1; lia]. }
  destruct rest as [|c rest]; [by destruct fuel'|]. destruct fuel' as [|fuel']; [simpl in H2; lia|].
  cbn [tokenize_loop is_eof cur chars].
  change {| initial_len := str_len pre + _; chars := c :: rest; prev := p |}
    with (cur pre (c :: rest) p).
  change {| initial_len := str_len pre' + _; chars := c :: rest; prev := p' |}
    with (cur pre' (c :: rest) p').
  rewrite !(st_bind_ok _ _ _ _ _ (reset_cur _ (c :: rest) _)), (next_token_prev _ _ p p').
  destruct (proj1 (wp_ok _ _ _) (wp_next_token debug c rest p'))
    as (t & k & -> & s & rest' & p'' & -> & -> & _).
  simpl in H1, H2. rewrite length_app in H1, H2.
  rewrite (IH fuel' (c :: s) (c :: s) rest' p'' p''); [done|lia|lia].
Qed.
End TokenizeFacts.

(** ** Properties *)

(** C11: the tokenizer is total and lossless: it never panics, not even in a debug assertion,
    and it cuts the input into consecutive non-empty texts, one per token, each as long as
    the token says and each described by the token's kind (see [lexeme]): operators in
    their spelling with the longest match, comments up to the line end, identifiers,
    number literals with their suffix, string literals with their quotes. *)
Theorem tokenize_partitions debug `{U : UnicodeTables} `{!UnicodeLaws U} input :
  exists ts, tokenize debug input = Ok ts /\ lexes input ts.
Proof. exact (tokenize_loop_spec debug (length input) [] input EOF_CHAR (le_n _)). Qed.

Lemma tokenize_partitions_witness :
  exists ts, tokenize true (H := ascii_tables) (txt "a = r'b' # c") = Ok ts /\
             lexes (U := ascii_tables) (txt "a = r'b' # c") ts.
Proof. apply (tokenize_partitions true (U := ascii_tables)). Defined.

(** the lengths of the tokens are positive and add up to the length of the input in
    bytes, so that the positions the parser computes from them stay inside the input. *)
Theorem token_lengths_add_up debug `{U : UnicodeTables} `{!UnicodeLaws U} input :
  exists ts, tokenize debug input = Ok ts /\ Forall (fun t => 1 <= len t) ts /\
             foldr (fun t n => len t + n) 0 ts = str_len input.
Proof.
  destruct (tokenize_loop_spec debug (length input) [] input EOF_CHAR) as (ts & Hts & Hl); [lia|].
  exists ts. split; [exact Hts|by apply lexes_lengths].
Qed.

Lemma token_lengths_add_up_witness :
  exists ts, tokenize true (H := ascii_tables) [233; 10; 34; 28450] = Ok ts /\
    Forall (fun t => 1 <= len t) ts /\ foldr (fun t n => len t + n) 0 ts = 7.
Proof. apply (token_lengths_add_up true (U := ascii_tables) [233; 10; 34; 28450]). Defined.

(** the parser may call [first_token] on the text that is left instead of running the
    iterator: the first token of a non-empty text and the tokens of what remains after its
    bytes are the tokens of the text. *)
Theorem first_token_iterates debug `{U : UnicodeTables} `{!UnicodeLaws U} input :
  input <> [] ->
  exists t rest, first_token debug input = Ok t /\ drop_bytes (len t) input = Ok rest /\
    tokenize debug input = (ts ← tokenize debug rest; Ok (t :: ts)).
Proof.
  destruct input as [|c r]; [done|]. intros _. unfold first_token, tokenize.
  rewrite andb_false_r, new_cursor_cur.
  destruct (proj1 (wp_ok _ _ _) (wp_next_token debug c r EOF_CHAR))
    as (t & k & Et & s & rest & p & -> & -> & Hlen & _).
  exists t, rest. rewrite Et. split; [done|]. rewrite Hlen.
  split; [by rewrite <- (drop_bytes_app (c :: s) rest)|].
  change (length (c :: s ++ rest)) with (S (length (s ++ rest))). cbn [tokenize_loop is_eof cur chars].
  change {| initial_len := _; chars := c :: s ++ rest; prev := EOF_CHAR |}
    with (cur [] (c :: s ++ rest) EOF_CHAR).
  rewrite (st_bind_ok _ _ _ _ _ (reset_cur [] (c :: s ++ rest) EOF_CHAR)), Et.
  rewrite (tokenize_loop_fuel debug (length (s ++ rest)) (length rest) (c :: s) [] rest p EOF_CHAR);
    [done|rewrite length_app; lia|lia].
Qed.

Lemma first_token_iterates_witness :
  exists t rest, first_token true (H := ascii_tables) (txt "ab+1") = Ok t /\
    drop_bytes (len t) (txt "ab+1") = Ok rest /\
    tokenize true (H := ascii_tables) (txt "ab+1") =
      (ts ← tokenize true (H := ascii_tables) rest; Ok (t :: ts)).
Proof. apply (first_token_iterates true (U := ascii_tables)). discriminate. Defined.

(** Decide a conditional whose condition evaluates. *)
Ltac run_if :=
  match goal with
  | |- wp (if ?b then ?x else ?y) ?k ?Q =>
      let v := eval vm_compute in b in
      lazymatch v with
      | true => change (wp x k Q)
      | false => change (wp y k Q)
      end
  end.

Ltac wp_exec :=
  lazymatch goal with
  | |- wp (mbind _ _) _ _ => apply wp_bind
  | |- wp (mret _) _ _ => apply wp_ret
  | |- wp (gets _) _ _ => apply wp_gets
  | |- wp (maybe_eq _ _) _ _ => unfold maybe_eq
  | |- wp (simple_token _) _ _ => unfold simple_token
  | |- wp bump _ _ => apply wp_bump
  | |- wp (len_consumed _) _ _ => apply wp_len_consumed
  end.

(** Decide a test of the unknown next character. *)
Ltac run_next :=
  rewrite ?peek_cur;
  match goal with
  | H : next ?r <> ?x |- context [if next ?r =? ?x then _ else _] =>
      rewrite (proj2 (Z.eqb_neq _ _) H)
  end.

Lemma first_token_wp debug `{U : UnicodeTables} input t :
  input <> [] -> wp (next_token debug) (new_cursor input) (fun t' _ => t' = t) ->
  first_token debug input = Ok t.
Proof.
  intros Hi. unfold first_token, wp. destruct input; [done|]. rewrite andb_false_r.
  by destruct (next_token debug _) as [[t' k]|]; [intros ->|].
Qed.

Lemma operator_ident_magic `{U : UnicodeTables} `{!UnicodeLaws U} c r p :
  is_ascii c = true -> c <> DOLLAR_CHAR -> ascii_id_start c = false ->
  try_ident_magic (cur [c] r p) c = false.
Proof.
  intros Ha Hd Hc. unfold try_ident_magic. rewrite (proj2 (Z.eqb_neq _ _) Hd).
  by rewrite id_start_ascii.
Qed.

Lemma operator_lexes debug `{U : UnicodeTables} `{!UnicodeLaws U} k s f rest :
  spelling k = Some (s, f) -> next rest ∉ txt f ->
  first_token debug (txt s ++ rest) = Ok (Token k (str_len (txt s))).
Proof.
  intros Hk Hn. destruct k; try discriminate Hk; injection Hk as <- <-.
  all: apply first_token_wp; [done|]; rewrite new_cursor_cur.
  all: cbn [txt map String.list_ascii_of_string app] in *.
  all: unfold next_token, token_kind; wp_step; apply wp_bump; do 3 wp_step.
  all: do 3 run_if; cbn [default id app]; rewrite operator_ident_magic by done; run_if.
  all: repeat (apply not_elem_of_cons in Hn as [? Hn]).
  all: by repeat (run_if || run_next || wp_exec).
Qed.

(** every operator and punctuation kind is recognised: its spelling, followed by a
    character that does not extend it, is lexed as that kind and nothing more is read. *)
Theorem operator_recognised debug `{U : UnicodeTables} `{!UnicodeLaws U} k s f rest :
  spelling k = Some (s, f) -> next rest ∉ txt f ->
  first_token debug (txt s ++ rest) = Ok (Token k (str_len (txt s))).
Proof. intros Hk Hn. by apply (operator_lexes debug k s f). Qed.

Lemma operator_recognised_witness :
  first_token true (H := ascii_tables) (txt "**=1") = Ok (Token StarStarEq 3).
Proof.
  apply (operator_recognised true (U := ascii_tables) StarStarEq "**=" "" (txt "1")).
  - reflexivity.
  - apply not_elem_of_nil.
Defined.

(** a leading zero and one more digit, which the code means to read as a C or Go octal,
    is lexed as a number without digits: the second digit is consumed as if it were the
    letter of the base. *)
Theorem two_digit_octal_is_empty debug `{U : UnicodeTables} `{!UnicodeLaws U} d :
  is_digit10 d = true ->
  first_token debug [ch "0"; d] = Ok (Token (Literal (Int Octal true) 2) 2).
Proof.
  intros Hd.
  assert (Hcases : d ∈ [48; 49; 50; 51; 52; 53; 54; 55; 56; 57]).
  { apply andb_true_iff in Hd as [H1%Z.leb_le H2%Z.leb_le].
    change (48 <= d) in H1. change (d <= 57) in H2.
    rewrite !elem_of_cons, elem_of_nil. lia. }
  rewrite !elem_of_cons, elem_of_nil in Hcases.
  repeat destruct Hcases as [-> | Hcases]; try done.
  all: apply first_token_wp; [done|]; rewrite new_cursor_cur.
  all: unfold next_token, token_kind; wp_step; apply wp_bump; do 3 wp_step.
  all: do 3 run_if; cbn [default id app]; rewrite operator_ident_magic by done; run_if.
  all: wp_step; unfold number; wp_step; apply wp_debug_assert; [done|].
  all: unfold number_prefix; repeat (run_if || wp_exec).
  all: match goal with |- wp eat_decimal_digits ?k ?Q => change (Q false k) end; cbn beta.
  all: repeat wp_exec; unfold eat_lit_suffix; repeat wp_exec.
  all: by rewrite id_start_eof.
Qed.

Lemma two_digit_octal_is_empty_witness :
  first_token true (H := ascii_tables) (txt "07") = Ok (Token (Literal (Int Octal true) 2) 2).
Proof. apply (two_digit_octal_is_empty true (U := ascii_tables) (ch "7")). reflexivity. Defined.

Example tokenize_example :
  tokenize true (H := ascii_tables) (txt "a: 0x1Fk//= 'b' # c") =
  Ok [Token Ident 1; Token Colon 1; Token Space 1; Token (Literal (Int Hexadecimal false) 4) 5;
      Token SlashSlashEq 3; Token Space 1; Token (Literal (Str true false) 3) 3;
      Token Space 1; Token (LineComment (Some Inner)) 3].
Proof. vm_compute. reflexivity. Qed.
