(* ===== verification/StrLiteral.v ===== *)
(** * Evaluation of string literals ([kclvm/parser/src/lexer/string.rs])

    [str_content_eval] turns the text between the quotes of a literal into the string it
    denotes.  The characters left ([Chars]) are a list; the table of Unicode character
    names is a parameter. *)

From S2P Require Import Prelude MachineInt Chars.

(** [Chars::next]. *)
Definition next_char (chars : text) : option char * text :=
  match chars with
  | [] => (None, [])
  | c :: r => (Some c, r)
  end.

Definition REPLACEMENT_CHARACTER : char := 65533.

(** A sum of [u32]: checked in debug builds. *)
Definition add_u32 (overflow_checks : bool) (a b : Z) : outcome Z :=
  if a + b <=? u32_max then Ok (a + b)
  else if overflow_checks then Panic "attempt to add with overflow" else Ok (as_u32 (a + b)).

Section StrLiteral.
Context (overflow_checks : bool) `{UnicodeTables}.

(** The loop of [unicode_literal]: [i] counts from 1 to [literal_number]. *)
Fixpoint unicode_digits (n : nat) (literal_number i p : Z) (chars : text)
    : outcome (option (Z * text)) :=
  match n with
  | O => Ok (Some (p, chars))
  | S n' =>
      match next_char chars with
      | (Some c, chars') =>
          match to_digit 16 c with
          | Some d =>
              p' ← add_u32 overflow_checks p (as_u32 (Z.shiftl d ((literal_number - i) * 4)));
              unicode_digits n' literal_number (i + 1) p' chars'
          | None => Ok None
          end
      | (None, _) => Ok None
      end
  end.

Definition unicode_literal (literal_number : nat) (chars : text)
    : outcome (option (char * text)) :=
  r ← unicode_digits literal_number (Z.of_nat literal_number) 1 0 chars;
  Ok match r with
     | Some (p, chars') =>
         if in_range 55296 p 57343 then Some (REPLACEMENT_CHARACTER, chars')
         else match char_from_u32 p with
              | Some c => Some (c, chars')
              | None => None
              end
     | None => None
     end.

(** The loop of [parse_octet]: at most three digits are kept, and the character that ends
    the loop is consumed. *)
Fixpoint octet_loop (n : nat) (octet_content : list Z) (chars : text) : list Z * text :=
  match n with
  | O => (octet_content, chars)
  | S n' =>
      match next_char chars with
      | (Some o, chars') =>
          if in_range (ch "0") o (ch "7")
          then octet_loop n' (octet_content ++ [o]) chars'
          else (octet_content, chars')
      | (None, chars') => (octet_content, chars')
      end
  end.

(** [u32::from_str_radix(_, 8).unwrap()] on a text of octal digits, then
    [char::from_u32(_).unwrap()]. *)
Definition parse_octet (first : char) (chars : text) : outcome (char * text) :=
  let '(octet_content, chars') := octet_loop 2 [first] chars in
  let value := fold_left (fun v o => v * 8 + (o - ch "0")) octet_content 0 in
  match char_from_u32 value with
  | Some c => Ok (c, chars')
  | None => Panic "called Option::unwrap() on a None value"
  end.

Fixpoint unicode_name_loop (name : text) (chars : text) : option (text * text) :=
  match chars with
  | [] => None
  | c :: r => if c =? ch "}" then Some (name, r) else unicode_name_loop (name ++ [c]) r
  end.

Definition parse_unicode_name (chars : text) : option (char * text) :=
  match next_char chars with
  | (Some c, chars') =>
      if c =? ch "{" then
        match unicode_name_loop [] chars' with
        | Some (name, r) =>
            match character_by_name name with
            | Some d => Some (d, r)
            | None => None
            end
        | None => None
        end
      else None
  | (None, _) => None
  end.

(** What follows a backslash outside of raw strings: the characters it stands for and the
    rest; [None] makes the whole literal invalid. *)
Definition escape (quote_char : char) (is_bytes : bool) (chars : text)
    : outcome (option (text * text)) :=
  let one (r : option (char * text)) : option (text * text) :=
    match r with Some (c, chars') => Some ([c], chars') | None => None end in
  match next_char chars with
  | (None, _) => Ok None
  | (Some c, chars') =>
      if c =? quote_char then Ok (Some ([quote_char], chars'))
      else if c =? 92 then Ok (Some ([92], chars'))
      else if c =? ch "'" then Ok (Some ([ch "'"], chars'))
      else if c =? 34 then Ok (Some ([34], chars'))
      else if c =? 10 then Ok (Some ([], chars'))
      else if c =? ch "a" then Ok (Some ([7], chars'))
      else if c =? ch "b" then Ok (Some ([8], chars'))
      else if c =? ch "f" then Ok (Some ([12], chars'))
      else if c =? ch "n" then Ok (Some ([10], chars'))
      else if c =? ch "r" then Ok (Some ([13], chars'))
      else if c =? ch "t" then Ok (Some ([9], chars'))
      else if c =? ch "v" then Ok (Some ([11], chars'))
      else if in_range (ch "0") c (ch "7") then
        r ← parse_octet c chars'; Ok (one (Some r))
      else if c =? ch "x" then r ← unicode_literal 2 chars'; Ok (one r)
      else if (c =? ch "u") && negb is_bytes then r ← unicode_literal 4 chars'; Ok (one r)
      else if (c =? ch "U") && negb is_bytes then r ← unicode_literal 8 chars'; Ok (one r)
      else if (c =? ch "N") && negb is_bytes then Ok (one (parse_unicode_name chars'))
      else Ok (Some ([92; c], chars'))
  end.

(** The loop of [str_content_eval]: every round consumes a character, so the length of the
    text bounds the rounds. *)
Fixpoint eval_loop (fuel : nat) (quote_char : char) (triple_quoted is_bytes is_raw : bool)
    (chars : text) (string_content : text) : outcome (option text) :=
  match next_char chars with
  | (None, _) => Ok (Some string_content)
  | (Some c, chars') =>
      match fuel with
      | O => Panic "out of fuel"
      | S fuel' =>
          let go := eval_loop fuel' quote_char triple_quoted is_bytes is_raw in
          if c =? 92 then
            if is_raw then
              match next_char chars' with
              | (Some d, chars'') => go chars'' (string_content ++ [92; d])
              | (None, _) => Ok None
              end
            else
              r ← escape quote_char is_bytes chars';
              match r with
              | Some (s, chars'') => go chars'' (string_content ++ s)
              | None => Ok None
              end
          else if ((c =? 10) && negb triple_quoted) || (is_bytes && negb (is_ascii c)) then Ok None
          else go chars' (string_content ++ [c])
      end
  end.

Definition str_content_eval (string_content : text) (quote_char : char)
    (triple_quoted is_bytes is_raw : bool) : outcome (option text) :=
  eval_loop (length string_content) quote_char triple_quoted is_bytes is_raw string_content [].
End StrLiteral.

(** ** Writing literals

    [quote_text q s] writes the string [s] between quotes [q]: line ends and backslashes
    and quotes are escaped. *)
Definition quote_char_text (q c : char) : text :=
  if c =? 10 then [92; ch "n"]
  else if (c =? 92) || (c =? q) then [92; c]
  else [c].

Definition quote_text (q : char) (s : text) : text := flat_map (quote_char_text q) s.

(** The hexadecimal digits of [n], [k] of them. *)
Fixpoint hex_digits_of (k : nat) (n : Z) : text :=
  match k with
  | O => []
  | S k' => hex_digit ((n / 16 ^ Z.of_nat k') mod 16) :: hex_digits_of k' n
  end.

(** Raw text that [str_content_eval] gives back: no lone backslash at the end, and outside
    of a triple-quoted string a line end only after a backslash. *)
Inductive raw_text (triple : bool) : text -> Prop :=
| raw_nil : raw_text triple []
| raw_pair c s : raw_text triple s -> raw_text triple (92 :: c :: s)
| raw_char c s : c <> 92 -> triple = true \/ c <> 10 -> raw_text triple s -> raw_text triple (c :: s).

(** ** Lemmas *)

Definition valid_char (c : char) : Prop := 0 <= c /\ char_from_u32 c = Some c.

Section Facts.
Context (overflow_checks : bool) `{UnicodeTables}.
Implicit Types (s r : text) (c : char).

Lemma to_digit_range radix c d : to_digit radix c = Some d -> 0 <= d < radix.
Proof.
  unfold to_digit, in_range. change (ch "0") with 48. change (ch "9") with 57.
  change (ch "a") with 97. change (ch "z") with 122. change (ch "A") with 65.
  change (ch "Z") with 90. intros Hd.
  destruct ((48 <=? c) && (c <=? 57)) eqn:E1; [|destruct ((97 <=? c) && (c <=? 122)) eqn:E2;
    [|destruct ((65 <=? c) && (c <=? 90)) eqn:E3]];
    case_match; simplify_eq; rewrite ?andb_true_iff in *; lia.
Qed.

Lemma valid_char_small c : 0 <= c < 55296 -> valid_char c.
Proof.
  intros Hc. split; [lia|]. unfold char_from_u32, in_range.
  destruct (_ || _) eqn:E; [|done]. rewrite orb_true_iff, andb_true_iff in E. lia.
Qed.

Lemma char_from_u32_valid n c : 0 <= n -> char_from_u32 n = Some c -> valid_char c.
Proof. 
  intros Hn Hc. assert (n = c) as ->.
  { unfold char_from_u32 in Hc. destruct (_ || _); [done|]. by injection Hc. }
  by split.
Qed.

(** The digits read so far leave room for the ones to come. *)
Lemma unicode_digits_spec n N i p chars :
  N = Z.of_nat n + i - 1 -> 1 <= i -> N <= 8 -> 0 <= p <= 16 ^ N - 16 ^ (N - i + 1) ->
  exists o, unicode_digits overflow_checks n N i p chars = Ok o /\
    match o with
    | Some (p', chars') => 0 <= p' <= u32_max /\ exists ds, chars = ds ++ chars'
    | None => True
    end.
Proof.
  revert i p chars. induction n as [|n IH]; intros i p chars HN Hi HN8 Hp.
  - eexists. split; [reflexivity|]. split; [|by exists []].
    assert (16 ^ N <= 16 ^ 8) by (apply Z.pow_le_mono_r; lia). unfold u32_max.
    pose proof (Z.pow_nonneg 16 (N - i + 1)). lia.
  - destruct chars as [|c r]; [by exists None|]. simpl.
    destruct (to_digit 16 c) as [d|] eqn:Ed; [|by exists None].
    apply to_digit_range in Ed.
    rewrite Z.shiftl_mul_pow2 by lia.
    replace (2 ^ ((N - i) * 4)) with (16 ^ (N - i)) by (change 16 with (2 ^ 4); rewrite <- Z.pow_mul_r by lia; f_equal; lia).
    assert (E1 : 16 ^ (N - i + 1) = 16 * 16 ^ (N - i)) by (rewrite Z.pow_add_r by lia; lia).
    assert (H16 : 16 ^ N <= 2 ^ 32) by (change (2 ^ 32) with (16 ^ 8); apply Z.pow_le_mono_r; lia).
    assert (Hpos : 0 < 16 ^ (N - i)) by (apply Z.pow_pos_nonneg; lia).
    assert (Hd : 0 <= d * 16 ^ (N - i) <= 15 * 16 ^ (N - i)) by nia.
    unfold as_u32, wrap_u. rewrite Z.mod_small by lia.
    unfold add_u32. rewrite (proj2 (Z.leb_le _ _)) by (unfold u32_max; lia). simpl.
    destruct (IH (i + 1) (p + d * 16 ^ (N - i)) r) as (o & -> & Ho); [lia|lia|lia| |].
    + replace (N - (i + 1) + 1) with (N - i) by lia. lia.
    + eexists. split; [reflexivity|]. destruct o as [[p' r']|]; [|done].
      destruct Ho as [Hp' [ds ->]]. split; [done|]. by exists (c :: ds).
Qed.

Lemma unicode_literal_ok k chars :
  (k <= 8)%nat ->
  exists o, unicode_literal overflow_checks k chars = Ok o /\
    match o with
    | Some (c, chars') => valid_char c /\ exists ds, chars = ds ++ chars'
    | None => True
    end.
Proof.
  intros Hk. unfold unicode_literal.
  destruct (unicode_digits_spec k (Z.of_nat k) 1 0 chars) as (o & -> & Ho); [lia|lia|lia| |].
  { replace (Z.of_nat k - 1 + 1) with (Z.of_nat k) by lia. lia. }
  simpl. destruct o as [[p r]|]; [|by eexists]. destruct Ho as [Hp Hds]. case_match.
  - eexists. split; [reflexivity|]. split; [|done]. split; [done|reflexivity].
  - destruct (char_from_u32 p) as [c|] eqn:E; [|by eexists].
    eexists. split; [reflexivity|]. split; [|done]. apply (char_from_u32_valid p); [lia|done].
Qed.

Lemma octet_loop_spec n ds chars :
  exists ds' rest pre, octet_loop n ds chars = (ds ++ ds', rest) /\ chars = pre ++ rest /\
    (length ds' <= n)%nat /\ Forall (fun o => in_range (ch "0") o (ch "7") = true) ds'.
Proof.
  revert ds chars. induction n as [|n IH]; intros ds chars.
  { exists [], chars, []. rewrite !app_nil_r. split_and!; simpl; auto with lia; by apply Forall_nil. }
  destruct chars as [|c r]; simpl.
  { exists [], [], []. rewrite !app_nil_r. split_and!; simpl; auto with lia; by apply Forall_nil. }
  destruct (in_range (ch "0") c (ch "7")) eqn:E.
  - destruct (IH (ds ++ [c]) r) as (ds' & rest & pre & -> & -> & Hl & Hf).
    exists (c :: ds'), rest, (c :: pre). rewrite <- app_assoc.
    split_and!; [done|done|simpl; lia|by constructor].
  - exists [], r, [c]. rewrite !app_nil_r. split_and!; simpl; auto with lia; by apply Forall_nil.
Qed.

Lemma octal_value ds v :
  Forall (fun o => in_range (ch "0") o (ch "7") = true) ds -> 0 <= v ->
  0 <= fold_left (fun v o => v * 8 + (o - ch "0")) ds v <= (v + 1) * 8 ^ Z.of_nat (length ds) - 1.
Proof.
  intros Hds. revert v. induction Hds as [|o ds Ho _ IH]; intros v Hv; cbn [fold_left length]; [lia|].
  apply andb_true_iff in Ho as [H1%Z.leb_le H2%Z.leb_le].
  change (48 <= o) in H1. change (o <= 55) in H2. change (ch "0") with 48 in *.
  rewrite Nat2Z.inj_succ, Z.pow_succ_r by lia.
  assert (0 < 8 ^ Z.of_nat (length ds)) by (apply Z.pow_pos_nonneg; lia).
  specialize (IH (v * 8 + (o - 48)) ltac:(lia)).
  assert ((v * 8 + (o - 48) + 1) * 8 ^ Z.of_nat (length ds) <= (v * 8 + 8) * 8 ^ Z.of_nat (length ds))
    by (apply Z.mul_le_mono_nonneg_r; lia). lia.
Qed.

Lemma parse_octet_ok first chars :
  in_range (ch "0") first (ch "7") = true ->
  exists c rest pre, parse_octet first chars = Ok (c, rest) /\ valid_char c /\ chars = pre ++ rest.
Proof.
  intros Hf. unfold parse_octet.
  destruct (octet_loop_spec 2 [first] chars) as (ds & rest & pre & -> & -> & Hl & Hds).
  pose proof (octal_value ([first] ++ ds) 0 ltac:(by constructor) ltac:(lia)) as Hv.
  assert (Hp : 8 ^ Z.of_nat (length ([first] ++ ds)) <= 8 ^ 3).
  { apply Z.pow_le_mono_r; [lia|]. rewrite length_app. unfold char in *. simpl length. lia. }
  change (8 ^ 3) with 512 in Hp. set (v := fold_left _ _ 0) in *.
  assert (Hvalid : valid_char v) by (apply valid_char_small; lia).
  destruct Hvalid as [Hv0 Hvc]. rewrite Hvc. by exists v, rest, pre.
Qed.

Lemma unicode_name_loop_rest name chars n r :
  unicode_name_loop name chars = Some (n, r) -> exists pre, chars = pre ++ r.
Proof.
  revert name. induction chars as [|c chars IH]; intros name; simpl; [done|]. case_match.
  - intros [= _ ->]. by exists [c].
  - intros [pre ->]%IH. by exists (c :: pre).
Qed.
End Facts.

Section Eval.
Context (overflow_checks : bool) `{U : UnicodeTables}.
Implicit Types (s r t : text) (c q : char).

(** The names of the table are names of characters. *)
Class NameLaws : Prop :=
  name_valid : forall name c, character_by_name name = Some c -> valid_char c.

Notation eval_loop := (eval_loop overflow_checks).
Notation str_content_eval := (str_content_eval overflow_checks).

(** The result of an escape: valid characters, and a rest of the input. *)
Lemma escape_ok `{!NameLaws} q is_bytes chars :
  Forall valid_char chars ->
  exists o, escape overflow_checks q is_bytes chars = Ok o /\
    match o with
    | Some (s, r) => Forall valid_char s /\ exists pre, chars = pre ++ r /\ pre <> []
    | None => True
    end.
Proof.
  intros Hv. unfold escape. destruct chars as [|c r]; [by eexists|]. cbn [next_char].
  inversion_clear Hv as [|? ? Hc Hr].
  assert (Hone : forall x, valid_char x ->
    exists o, Ok (Some ([x], r)) = Ok o /\
    match o with
    | Some (s, r') => Forall valid_char s /\ exists pre, c :: r = pre ++ r' /\ pre <> []
    | None => True
    end).
  { intros x Hx. eexists. split; [reflexivity|]. split; [by apply Forall_singleton|]. by exists [c]. }
  assert (Hlit : forall k, (k <= 8)%nat -> exists o,
    (r0 ← unicode_literal overflow_checks k r;
     Ok match r0 with Some (c, chars') => Some ([c], chars') | None => None end) = Ok o /\
    match o with
    | Some (s, r') => Forall valid_char s /\ exists pre, c :: r = pre ++ r' /\ pre <> []
    | None => True
    end).
  { intros k Hk. destruct (unicode_literal_ok overflow_checks k r Hk) as (o & -> & Ho).
    eexists. split; [reflexivity|]. destruct o as [[d r']|]; [|done].
    destruct Ho as [Hd [ds ->]]. split; [by apply Forall_singleton|]. by exists (c :: ds). }
  destruct (Z.eqb_spec c q) as [<-|_]; [by apply Hone|].
  do 3 (case_match; [by apply Hone, valid_char_small|]).
  case_match; [eexists; split; [reflexivity|]; split; [by apply Forall_nil|by exists [c]]|].
  do 7 (case_match; [by apply Hone, valid_char_small|]).
  case_match.
  { destruct (parse_octet_ok c r) as (d & rest & pre & -> & Hd & ->); [done|].
    eexists. split; [reflexivity|]. split; [by apply Forall_singleton|]. by exists (c :: pre). }
  do 3 (case_match; [apply Hlit; lia|]). case_match.
  - eexists. split; [reflexivity|]. destruct (parse_unicode_name r) as [[d r']|] eqn:E; [|done].
    unfold parse_unicode_name in E. destruct r as [|x r]; [done|]. cbn [next_char] in E.
    destruct (x =? ch "{"); [|done]. destruct (unicode_name_loop [] r) as [[n r2]|] eqn:En; [|done].
    destruct (character_by_name n) eqn:Ec; [|done]. injection E as <- <-.
    apply unicode_name_loop_rest in En as [pre ->]. split.
    + apply Forall_singleton, (name_valid _ _ Ec).
    + by exists (c :: x :: pre).
  - eexists. split; [reflexivity|]. split; [|by exists [c]].
    constructor; [by apply valid_char_small|by apply Forall_singleton].
Qed.

Lemma eval_loop_ok `{!NameLaws} fuel q triple is_bytes is_raw chars acc :
  Forall valid_char chars -> Forall valid_char acc -> (length chars <= fuel)%nat ->
  exists o, eval_loop fuel q triple is_bytes is_raw chars acc = Ok o /\
    match o with Some s => Forall valid_char s | None => True end.
Proof.
  revert chars acc. induction fuel as [|fuel IH]; intros chars acc Hv Ha Hl.
  { destruct chars; [|simpl in Hl; lia]. simpl. by eexists. }
  destruct chars as [|c r]; [by eexists|]. simpl in Hl. cbn [StrLiteral.eval_loop next_char].
  inversion_clear Hv as [|? ? Hc Hr].
  assert (H92 : valid_char 92) by (by apply valid_char_small).
  case_match; [case_match|case_match].
  - destruct r as [|d r]; [by eexists|]. cbn [next_char]. simpl in Hl.
    inversion_clear Hr as [|? ? Hd Hr']. apply IH; [done| |lia].
    apply Forall_app. split; [done|]. constructor; [done|by apply Forall_singleton].
  - destruct (escape_ok q is_bytes r Hr) as (o & -> & Ho). simpl.
    destruct o as [[s r']|]; [|by eexists]. destruct Ho as (Hs & pre & -> & Hne).
    rewrite length_app in Hl. apply Forall_app in Hr as [_ Hr'].
    apply IH; [done|by apply Forall_app|]. lia.
  - by eexists.
  - apply IH; [done| |lia]. apply Forall_app. split; [done|]. by apply Forall_singleton.
Qed.

(** One step of the loop, with as much fuel as there are characters. *)
Lemma eval_loop_cons fuel q triple is_bytes is_raw c r acc :
  (length r <= fuel)%nat ->
  eval_loop (S fuel) q triple is_bytes is_raw (c :: r) acc =
  if c =? 92 then
    if is_raw then
      match r with
      | d :: r' => eval_loop fuel q triple is_bytes is_raw r' (acc ++ [92; d])
      | [] => Ok None
      end
    else o ← escape overflow_checks q is_bytes r;
         match o with
         | Some (s, r') => eval_loop fuel q triple is_bytes is_raw r' (acc ++ s)
         | None => Ok None
         end
  else if ((c =? 10) && negb triple) || (is_bytes && negb (is_ascii c)) then Ok None
  else eval_loop fuel q triple is_bytes is_raw r (acc ++ [c]).
Proof. intros _. destruct r; reflexivity. Qed.

Lemma escape_quoted q c r :
  q = ch "'" \/ q = 34 -> c = 92 \/ c = q ->
  escape overflow_checks q false (c :: r) = Ok (Some ([c], r)).
Proof.
  intros Hq Hc. unfold escape. cbn [next_char].
  destruct (Z.eqb_spec c q) as [->|Hne]; [done|]. destruct Hc as [->|]; [done|done].
Qed.

Lemma escape_newline q r :
  q = ch "'" \/ q = 34 -> escape overflow_checks q false (ch "n" :: r) = Ok (Some ([10], r)).
Proof. intros [-> | ->]; reflexivity. Qed.

Lemma eval_quote_text fuel q triple s acc :
  q = ch "'" \/ q = 34 -> (length (quote_text q s) <= fuel)%nat ->
  eval_loop fuel q triple false false (quote_text q s) acc = Ok (Some (acc ++ s)).
Proof.
  intros Hq. revert fuel acc. induction s as [|c s IH]; intros fuel acc Hf.
  { destruct fuel; simpl; by rewrite app_nil_r. }
  unfold quote_text in *. cbn [flat_map] in *. rewrite length_app in Hf.
  assert (Hnext : forall f, (length (flat_map (quote_char_text q) s) <= f)%nat ->
    eval_loop f q triple false false (flat_map (quote_char_text q) s) (acc ++ [c]) =
    Ok (Some (acc ++ c :: s))).
  { intros f Hle. rewrite IH by done. by rewrite <- app_assoc. }
  unfold quote_char_text in *. fold (quote_char_text q) in *.
  destruct (c =? 10) eqn:E10; [|destruct ((c =? 92) || (c =? q)) eqn:Eq];
    simpl in Hf; (destruct fuel as [|fuel]; [lia|]); cbn [app];
    rewrite eval_loop_cons by (simpl; lia).
  - cbn [Z.eqb Pos.eqb]. rewrite escape_newline by done. apply Z.eqb_eq in E10 as ->.
    cbn. apply Hnext. lia.
  - cbn [Z.eqb Pos.eqb]. rewrite escape_quoted; [|done|].
    + cbn. apply Hnext. lia.
    + apply orb_true_iff in Eq as [->%Z.eqb_eq| ->%Z.eqb_eq]; auto.
  - apply orb_false_iff in Eq as [-> _]. rewrite E10. cbn. apply Hnext. lia.
Qed.

Lemma eval_raw fuel q triple s acc :
  (length s <= fuel)%nat ->
  eval_loop fuel q triple false true s acc = Ok (Some (acc ++ s)) /\ raw_text triple s \/
  eval_loop fuel q triple false true s acc = Ok None /\ ~ raw_text triple s.
Proof.
  revert s acc. induction fuel as [|fuel IH]; intros s acc Hf.
  { destruct s; [|simpl in Hf; lia]. left. rewrite app_nil_r. split; [done|constructor]. }
  destruct s as [|c r]; [left; rewrite app_nil_r; split; [done|constructor]|]. simpl in Hf.
  rewrite eval_loop_cons by lia. destruct (Z.eqb_spec c 92) as [->|Hne].
  - destruct r as [|d r].
    + right. split; [done|]. inversion 1; simplify_eq.
    + simpl in Hf. destruct (IH r (acc ++ [92; d]) ltac:(lia)) as [[-> Hr]|[-> Hr]].
      * left. rewrite <- app_assoc. split; [done|by constructor].
      * right. split; [done|]. inversion 1; simplify_eq; done.
  - destruct (((c =? 10) && negb triple) || (false && negb (is_ascii c))) eqn:E.
    + right. split; [done|]. rewrite orb_false_r in E.
      apply andb_true_iff in E as [->%Z.eqb_eq Ht%negb_true_iff].
      inversion 1; simplify_eq; naive_solver.
    + destruct (IH r (acc ++ [c]) ltac:(lia)) as [[-> Hr]|[-> Hr]].
      * left. rewrite <- app_assoc. split; [done|]. constructor; [done| |done].
        rewrite orb_false_r in E. apply andb_false_iff in E as [?%Z.eqb_neq|?%negb_false_iff]; auto.
      * right. split; [done|]. inversion 1; simplify_eq; done.
Qed.

Lemma to_digit_hex d : 0 <= d < 16 -> to_digit 16 (hex_digit d) = Some d.
Proof.
  intros Hd. unfold hex_digit. assert (Hc : d ∈ [0;1;2;3;4;5;6;7;8;9;10;11;12;13;14;15]).
  { rewrite !elem_of_cons, elem_of_nil. lia. }
  rewrite !elem_of_cons, elem_of_nil in Hc.
  by repeat destruct Hc as [-> | Hc].
Qed.

(** The digit loop reads the hexadecimal digits back. *)
Lemma unicode_digits_hex k n N i p r :
  N = Z.of_nat k + i - 1 -> 1 <= i -> N <= 8 -> 0 <= p <= 16 ^ N - 16 ^ (N - i + 1) ->
  unicode_digits overflow_checks k N i p (hex_digits_of k n ++ r) =
  Ok (Some (p + n mod 16 ^ Z.of_nat k, r)).
Proof.
  revert i p. induction k as [|k IH]; intros i p HN Hi HN8 Hp.
  { simpl. rewrite Z.mod_1_r, Z.add_0_r. done. }
  cbn [hex_digits_of app unicode_digits next_char].
  assert (Hd : 0 <= (n / 16 ^ Z.of_nat k) mod 16 < 16) by (apply Z.mod_pos_bound; lia).
  rewrite to_digit_hex by done. rewrite Z.shiftl_mul_pow2 by lia.
  replace (2 ^ ((N - i) * 4)) with (16 ^ (N - i)) by (change 16 with (2 ^ 4); rewrite <- Z.pow_mul_r by lia; f_equal; lia).
  replace (N - i) with (Z.of_nat k) by lia.
  replace (N - i + 1) with (Z.of_nat k + 1) in Hp by lia.
  assert (Hpos : 0 < 16 ^ Z.of_nat k) by (apply Z.pow_pos_nonneg; lia).
  assert (E1 : 16 ^ (Z.of_nat k + 1) = 16 * 16 ^ Z.of_nat k) by (rewrite Z.pow_add_r by lia; lia).
  assert (H16 : 16 ^ N <= 2 ^ 32) by (change (2 ^ 32) with (16 ^ 8); apply Z.pow_le_mono_r; lia).
  set (d := (n / 16 ^ Z.of_nat k) mod 16) in *.
  assert (Hdm : 0 <= d * 16 ^ Z.of_nat k <= 15 * 16 ^ Z.of_nat k) by nia.
  unfold as_u32, wrap_u. rewrite (Z.mod_small (d * _)) by lia.
  unfold add_u32. rewrite (proj2 (Z.leb_le _ _)) by (unfold u32_max; lia). cbn.
  rewrite IH; [|lia|lia|lia|].
  - do 3 f_equal. rewrite <- Z.add_assoc. f_equal.
    rewrite Nat2Z.inj_succ, <- Z.add_1_r, E1.
    rewrite (Z.mul_comm 16), Z.rem_mul_r by lia. fold d. lia.
  - replace (N - (i + 1) + 1) with (Z.of_nat k) by lia. lia.
Qed.

Lemma unicode_literal_hex k n r :
  (k <= 8)%nat -> 0 <= n < 16 ^ Z.of_nat k -> valid_char n ->
  unicode_literal overflow_checks k (hex_digits_of k n ++ r) = Ok (Some (n, r)).
Proof.
  intros Hk Hn [_ Hv]. unfold unicode_literal. rewrite unicode_digits_hex; [|lia|lia|lia|].
  - rewrite Z.add_0_l, Z.mod_small by lia. cbn. rewrite Hv.
    unfold char_from_u32 in Hv. destruct (in_range 55296 n 57343); done.
  - replace (Z.of_nat k - 1 + 1) with (Z.of_nat k) by lia. lia.
Qed.
End Eval.

(** ** Properties *)

(** the evaluation of a string literal always returns: no unwrap, no overflow of the
    32-bit accumulator, and a result that is valid UTF-8 whenever the source is. *)
Theorem str_content_eval_total overflow_checks `{U : UnicodeTables} `{!NameLaws} s q triple bytes raw :
  Forall valid_char s ->
  exists o, str_content_eval overflow_checks s q triple bytes raw = Ok o /\
    match o with Some t => Forall valid_char t | None => True end.
Proof.
  intros Hs. by apply (eval_loop_ok overflow_checks _ q triple bytes raw s []); [|apply Forall_nil|].
Qed.

Lemma str_content_eval_total_witness :
  exists o, str_content_eval true (H := ascii_tables) (txt "\777\UFFFFFFFF") 39 false false false = Ok o /\
    match o with Some t => Forall valid_char t | None => True end.
Proof.
  assert (Hlaws : NameLaws (U := ascii_tables)) by (intros name c Hc; discriminate Hc).
  apply (str_content_eval_total true (U := ascii_tables)).
  cbn [txt map String.list_ascii_of_string].
  repeat (apply list.Forall_cons; split; [apply valid_char_small; vm_compute; split; congruence|]).
  by apply Forall_nil.
Defined.

(** C26: a literal written with escapes denotes the string it was written from, between
    single or double quotes, on one line or triple-quoted. *)
Theorem quoted_roundtrip overflow_checks `{U : UnicodeTables} q triple s :
  q = ch "'" \/ q = 34 ->
  str_content_eval overflow_checks (quote_text q s) q triple false false = Ok (Some s).
Proof. intros Hq. by apply (eval_quote_text _ _ _ _ _ []). Qed.

Lemma quoted_roundtrip_witness :
  str_content_eval true (H := ascii_tables) (quote_text 39 (txt "it's \ a" ++ [10])) 39 false false false =
  Ok (Some (txt "it's \ a" ++ [10])).
Proof. apply (quoted_roundtrip true (U := ascii_tables)). by left. Defined.

(** a raw literal denotes exactly its text, and it is accepted exactly when it has no
    lone backslash at its end and, outside of triple quotes, no bare line end. *)
Theorem raw_literal_identity overflow_checks `{U : UnicodeTables} q triple s t :
  str_content_eval overflow_checks s q triple false true = Ok (Some t) <-> t = s /\ raw_text triple s.
Proof.
  unfold str_content_eval. destruct (eval_raw overflow_checks (length s) q triple s [] (le_n _))
    as [[-> Hr]|[-> Hr]]; simpl; naive_solver.
Qed.

(** every character can be written with an eight-digit escape, and the characters up to
    four digits with the short one. *)
Theorem unicode_escape_roundtrip overflow_checks `{U : UnicodeTables} q triple n :
  q = ch "'" \/ q = 34 -> valid_char n ->
  str_content_eval overflow_checks (92 :: ch "U" :: hex_digits_of 8 n) q triple false false = Ok (Some [n]) /\
  (n < 65536 ->
   str_content_eval overflow_checks (92 :: ch "u" :: hex_digits_of 4 n) q triple false false = Ok (Some [n])).
Proof.
  intros Hq Hn. pose proof Hn as [Hn0 Hn1]. unfold char_from_u32 in Hn1.
  destruct (_ || _) eqn:E; [done|]. apply orb_false_iff in E as [_ E%Z.ltb_ge].
  assert (Hesc : forall k r, escape overflow_checks q false (ch (if (k =? 8)%nat then "U" else "u") :: r) =
    (if (k =? 8)%nat then r0 ← unicode_literal overflow_checks 8 r;
       Ok (match r0 with Some (c, chars') => Some ([c], chars') | None => None end)
     else r0 ← unicode_literal overflow_checks 4 r;
       Ok (match r0 with Some (c, chars') => Some ([c], chars') | None => None end))).
  { intros k r. destruct (k =? 8)%nat; destruct Hq as [-> | ->]; reflexivity. }
  unfold str_content_eval. split; [|intros Hlt].
  - cbn [length]. rewrite eval_loop_cons by (simpl; lia). cbn [Z.eqb Pos.eqb].
    rewrite (Hesc 8%nat), <- (app_nil_r (hex_digits_of 8 n)).
    rewrite unicode_literal_hex; [reflexivity|lia|simpl; lia|done].
  - cbn [length]. rewrite eval_loop_cons by (simpl; lia). cbn [Z.eqb Pos.eqb].
    rewrite (Hesc 4%nat), <- (app_nil_r (hex_digits_of 4 n)).
    rewrite unicode_literal_hex; [reflexivity|lia|simpl; lia|done].
Qed.

Lemma unicode_escape_roundtrip_witness :
  str_content_eval true (H := ascii_tables) (92 :: ch "U" :: hex_digits_of 8 128512) 34 false false false =
    Ok (Some [128512]) /\
  (128512 < 65536 ->
   str_content_eval true (H := ascii_tables) (92 :: ch "u" :: hex_digits_of 4 128512) 34 false false false =
    Ok (Some [128512])).
Proof.
  apply (unicode_escape_roundtrip true (U := ascii_tables)); [by right|].
  split; [lia|reflexivity].
Defined.

(** an octal escape swallows the character after it: one octal digit followed by
    another character denotes only the character of the digit. *)
Theorem octal_escape_swallows overflow_checks `{U : UnicodeTables} q triple o c :
  q = ch "'" \/ q = 34 -> in_range (ch "0") o (ch "7") = true -> in_range (ch "0") c (ch "7") = false ->
  str_content_eval overflow_checks [92; o; c] q triple false false = Ok (Some [o - ch "0"]).
Proof.
  intros Hq Ho Hc. unfold str_content_eval. cbn [length]. rewrite eval_loop_cons by (simpl; lia).
  cbn [Z.eqb Pos.eqb].
  assert (Hcases : o ∈ [48; 49; 50; 51; 52; 53; 54; 55]).
  { apply andb_true_iff in Ho as [H1%Z.leb_le H2%Z.leb_le].
    change (48 <= o) in H1. change (o <= 55) in H2. rewrite !elem_of_cons, elem_of_nil. lia. }
  rewrite !elem_of_cons, elem_of_nil in Hcases.
  assert (He : escape overflow_checks q false [o; c] =
    r ← parse_octet o [c];
    Ok (match Some r with Some (c, chars') => Some ([c], chars') | None => None end)).
  { destruct Hq as [-> | ->]; by repeat destruct Hcases as [-> | Hcases]. }
  rewrite He. unfold parse_octet. cbn [octet_loop next_char]. rewrite Hc.
  by repeat destruct Hcases as [-> | Hcases].
Qed.

Lemma octal_escape_swallows_witness :
  str_content_eval true (H := ascii_tables) (txt "\0a") 39 false false false = Ok (Some [0]).
Proof. apply (octal_escape_swallows true (U := ascii_tables) 39 false 48 97); [by left|done|done]. Defined.
