(* ===== verification/AstToken.v ===== *)
(** * Syntax tokens ([kclvm/ast/src/token.rs], [token_stream.rs])

    The tokens the parser consumes, their names in error messages, and the cursor over a
    token stream.  An interned [Symbol] is the text it stands for; a span is a pair of byte
    positions. *)

From S2P Require Import Prelude MachineInt Chars.

Definition symbol := text.
Definition byte_pos := Z.

(** A span keeps its base and a 16-bit length. *)
Record span := { base_or_index : Z; len_or_tag : Z }.

Definition span_new (lo hi : byte_pos) : span :=
  let '(lo, hi) := if hi <? lo then (hi, lo) else (lo, hi) in
  {| base_or_index := lo; len_or_tag := wrap_u 16 (hi - lo) |}.

Definition lo (s : span) : byte_pos := base_or_index s.
Definition hi (s : span) : byte_pos := base_or_index s + len_or_tag s.

Inductive CommentKind := CommentLine (s : symbol).

Inductive UnaryOpToken := UTilde | UNot.

Inductive BinOpToken :=
| Plus | Minus | Star | Slash | Percent | StarStar | SlashSlash | Caret | And | Or | Shl | Shr.

Inductive BinCmpToken := Eq | NotEq | Lt | LtEq | Gt | GtEq.

Inductive DelimToken := Paren | Bracket | Brace | NoDelim.

Inductive LitKind :=
| LitBool | Integer | Float | Str (is_long_string is_raw : bool) | LitNone | LitUndefined | LitErr.

Record Lit := { lit_kind : LitKind; lit_symbol : symbol; suffix : option symbol; raw : option symbol }.

Inductive TokenKind :=
| UnaryOp (op : UnaryOpToken)
| BinOp (op : BinOpToken)
| BinOpEq (op : BinOpToken)
| BinCmp (op : BinCmpToken)
| At | Dot | DotDotDot | Comma | Colon | RArrow | Dollar | Question | Assign
| OpenDelim (d : DelimToken)
| CloseDelim (d : DelimToken)
| Literal (l : Lit)
| Ident (s : symbol)
| DocComment (c : CommentKind)
| Indent | Dedent | Newline | Dummy | Eof.

Record Token := { kind : TokenKind; tok_span : span }.

(** The derived [PartialEq] of the token types. *)
#[export] Instance span_eq_dec : EqDecision span. Proof. solve_decision. Defined.
#[export] Instance text_eq_dec : EqDecision text. Proof. unfold text, char. solve_decision. Defined.
#[export] Instance comment_kind_eq_dec : EqDecision CommentKind.
Proof. unfold EqDecision, Decision, symbol. decide equality. apply text_eq_dec. Defined.
#[export] Instance unary_op_eq_dec : EqDecision UnaryOpToken. Proof. solve_decision. Defined.
#[export] Instance bin_op_eq_dec : EqDecision BinOpToken. Proof. solve_decision. Defined.
#[export] Instance bin_cmp_eq_dec : EqDecision BinCmpToken. Proof. solve_decision. Defined.
#[export] Instance delim_eq_dec : EqDecision DelimToken. Proof. solve_decision. Defined.
#[export] Instance lit_kind_eq_dec : EqDecision LitKind. Proof. solve_decision. Defined.
#[export] Instance lit_eq_dec : EqDecision Lit.
Proof. unfold EqDecision, Decision, symbol. pose proof text_eq_dec. solve_decision. Defined.
#[export] Instance token_kind_eq_dec : EqDecision TokenKind.
Proof. unfold EqDecision, Decision, symbol. pose proof text_eq_dec. solve_decision. Defined.

(** [From<LitKind> for String]. *)
Definition lit_kind_string (val : LitKind) : string :=
  match val with
  | LitBool => "bool"
  | Integer => "int"
  | Float => "float"
  | Str _ _ => "str"
  | LitNone => "None"
  | LitUndefined => "Undefined"
  | LitErr => "error"
  end.

Definition ident_value : string := "identifier".
Definition literal_value : string := "literal".

(** [From<TokenKind> for String]. *)
Definition token_kind_string (val : TokenKind) : string :=
  match val with
  | UnaryOp UTilde => "~"
  | UnaryOp UNot => "not"
  | BinOp op =>
      match op with
      | Plus => "+" | Minus => "-" | Star => "*" | Slash => "/" | Percent => "%"
      | StarStar => "**" | SlashSlash => "//" | Caret => "^" | And => "&" | Or => "|"
      | Shl => "<<" | Shr => ">>"
      end
  | BinOpEq op =>
      match op with
      | Plus => "+=" | Minus => "-=" | Star => "*=" | Slash => "/=" | Percent => "%="
      | StarStar => "**=" | SlashSlash => "//=" | Caret => "^=" | And => "&=" | Or => "|="
      | Shl => "<<=" | Shr => ">>="
      end
  | BinCmp op =>
      match op with
      | Eq => "==" | NotEq => "!=" | Lt => "<" | LtEq => "<=" | Gt => ">" | GtEq => ">="
      end
  | At => "@"
  | Dot => "."
  | DotDotDot => "..."
  | Comma => ","
  | Colon => ":"
  | RArrow => "->"
  | Dollar => "$"
  | Question => "?"
  | Assign => "="
  | OpenDelim Paren => "("
  | OpenDelim Brace => "{"
  | OpenDelim Bracket => "["
  | OpenDelim NoDelim => "open_no_delim"
  | CloseDelim Paren => ")"
  | CloseDelim Brace => "}"
  | CloseDelim Bracket => "]"
  | CloseDelim NoDelim => "close_no_delim"
  | Literal l =>
      match lit_kind l with
      | LitBool => "bool"
      | Integer => "integer"
      | Float => "float"
      | Str _ _ => "string"
      | LitNone => "None"
      | LitUndefined => "Undefined"
      | LitErr => "err"
      end
  | Ident _ => "identifier"
  | DocComment (CommentLine _) => "inline_comment"
  | Indent => "indent"
  | Dedent => "dedent"
  | Newline => "newline"
  | Dummy => "dummy"
  | Eof => "eof"
  end.

(** [From<Token> for String]. *)
Definition token_string (val : Token) : text :=
  match kind val with
  | Literal lk =>
      match suffix lk with
      | Some suf => lit_symbol lk ++ suf
      | None => lit_symbol lk
      end
  | k => txt (token_kind_string k)
  end.

Definition DUMMY_SP : span := {| base_or_index := 0; len_or_tag := 0 |}.

Definition new_token (k : TokenKind) (s : span) : Token := {| kind := k; tok_span := s |}.
Definition dummy : Token := new_token Dummy DUMMY_SP.

(** An identifier is its name and its span. *)
Definition ident (t : Token) : option (symbol * span) :=
  match kind t with
  | Ident name => Some (name, tok_span t)
  | _ => None
  end.

Definition run_on_ident (t : Token) (pred : symbol * span -> bool) : bool :=
  match ident t with
  | Some id => pred id
  | None => false
  end.

Definition is_keyword (t : Token) (kw : symbol) : bool :=
  run_on_ident t (fun id => bool_decide (id.1 = kw)).

(** [PartialEq<TokenKind> for Token]. *)
Definition token_is (t : Token) (k : TokenKind) : bool := bool_decide (kind t = k).

(** ** The cursor over a token stream *)

Record Cursor := { stream : list Token; index : nat }.

Definition stream_cursor (s : list Token) : Cursor := {| stream := s; index := 0 |}.
Definition cursor_peek (c : Cursor) : option Token := stream c !! index c.
Definition cursor_peek2 (c : Cursor) : option Token := stream c !! (index c + 1)%nat.
Definition cursor_next (c : Cursor) : option Token * Cursor :=
  match stream c !! index c with
  | Some t => (Some t, {| stream := stream c; index := S (index c) |})
  | None => (None, c)
  end.
