(* ===== verification/ParserLexer.v ===== *)
(** * The parser's lexer ([kclvm/parser/src/lexer/mod.rs] and [indent.rs])

    The tokens of the low-level lexer become syntax tokens: literals are validated and
    evaluated, closing delimiters are matched, and the indentation of each line becomes
    [Indent] and [Dedent] tokens.  The lexer is a state (its position, the indentation
    context, the errors reported to the session); its methods run in the state monad. *)

From S2P Require Import Prelude MachineInt State Chars Lexer StrLiteral AstToken.

(** ** State *)

Record IndentLevel := { lv_tabs : Z; lv_spaces : Z }.
Definition level_default : IndentLevel := {| lv_tabs := 0; lv_spaces := 0 |}.

#[export] Instance level_eq_dec : EqDecision IndentLevel. Proof. solve_decision. Defined.

Record IndentContext := {
  new_line_beginning : bool;
  delims : list TokenKind;
  tabs : Z;
  spaces : Z;
  indents : list IndentLevel;   (* the top of the stack first *)
}.

Record lexer := {
  start_pos : byte_pos;
  pos : byte_pos;
  end_src_index : Z;
  src : text;
  indent_cxt : IndentContext;
  errors : list (string * span);   (* the parse errors added to the session *)
}.

Definition set_pos (p : byte_pos) (l : lexer) : lexer :=
  {| start_pos := start_pos l; pos := p; end_src_index := end_src_index l; src := src l;
     indent_cxt := indent_cxt l; errors := errors l |}.
Definition set_cxt (c : IndentContext) (l : lexer) : lexer :=
  {| start_pos := start_pos l; pos := pos l; end_src_index := end_src_index l; src := src l;
     indent_cxt := c; errors := errors l |}.
Definition add_error (e : string * span) (l : lexer) : lexer :=
  {| start_pos := start_pos l; pos := pos l; end_src_index := end_src_index l; src := src l;
     indent_cxt := indent_cxt l; errors := errors l ++ [e] |}.

Definition set_new_line (b : bool) (c : IndentContext) : IndentContext :=
  {| new_line_beginning := b; delims := delims c; tabs := tabs c; spaces := spaces c;
     indents := indents c |}.
Definition set_delims (d : list TokenKind) (c : IndentContext) : IndentContext :=
  {| new_line_beginning := new_line_beginning c; delims := d; tabs := tabs c;
     spaces := spaces c; indents := indents c |}.
Definition set_counters (t s : Z) (c : IndentContext) : IndentContext :=
  {| new_line_beginning := new_line_beginning c; delims := delims c; tabs := t; spaces := s;
     indents := indents c |}.
Definition set_indents (i : list IndentLevel) (c : IndentContext) : IndentContext :=
  {| new_line_beginning := new_line_beginning c; delims := delims c; tabs := tabs c;
     spaces := spaces c; indents := i |}.

Definition update_cxt (f : IndentContext -> IndentContext) : st lexer unit :=
  modify (fun l => set_cxt (f (indent_cxt l)) l).

Inductive IndentOrDedents :=
| IodIndent (token : Token)
| IodDedents (tokens : list Token).

Inductive TokenWithIndents :=
| TwToken (token : Token)
| TwWithIndent (token : Token) (indent : IndentOrDedents).

Definition tw_token (t : TokenWithIndents) : Token :=
  match t with TwToken t => t | TwWithIndent t _ => t end.

Definition tw_is_eof (t : TokenWithIndents) : bool := token_is (tw_token t) Eof.

Definition append_to (t : TokenWithIndents) (buf : list Token) : list Token :=
  match t with
  | TwToken t => buf ++ [t]
  | TwWithIndent t indent =>
      match indent with
      | IodIndent i => buf ++ [i]
      | IodDedents ds => buf ++ ds
      end ++ [t]
  end.

(** [ParseSession::struct_span_error]. *)
Definition struct_span_error (msg : string) (s : span) : st lexer unit :=
  modify (add_error (msg, s)).

(** ** Indentation *)

(** [IndentLevel::cmp]: the levels are ordered when tabs and spaces agree; [inr] is the
    [Err] of the source. *)
Definition level_cmp (self other : IndentLevel) : comparison + string :=
  let inconsistent := "inconsistent use of tabs and spaces in indentation" in
  match Z.compare (lv_tabs self) (lv_tabs other) with
  | Datatypes.Lt => if lv_spaces self <=? lv_spaces other then inl Datatypes.Lt else inr inconsistent
  | Datatypes.Gt => if lv_spaces other <=? lv_spaces self then inl Datatypes.Gt else inr inconsistent
  | Datatypes.Eq => inl (Z.compare (lv_spaces self) (lv_spaces other))
  end.

Definition span_here : st lexer span := gets (fun l => span_new (pos l) (pos l)).

Definition last_indent : st lexer IndentLevel :=
  s ← gets (fun l => indents (indent_cxt l));
  match s with
  | [] =>
      sp ← span_here;
      _ ← struct_span_error "mismatched indent level" sp;
      _ ← update_cxt (set_indents [level_default]);
      mret level_default
  | i :: _ => mret i
  end.

(** The loop that pops the levels a line has left.  Every round pops a level, so their
    number bounds the rounds. *)
Fixpoint dedent_loop (fuel : nat) (indent : IndentLevel) (ordering : comparison + string)
    (dedents : list Token) : st lexer (list Token) :=
  match ordering with
  | inl Datatypes.Lt =>
      match fuel with
      | O => panic "out of fuel"
      | S fuel' =>
          _ ← update_cxt (fun c => set_indents (tail (indents c)) c);
          sp ← span_here;
          cur_indent ← last_indent;
          dedent_loop fuel' indent (level_cmp indent cur_indent)
            (dedents ++ [new_token Dedent sp])
      end
  | inl Datatypes.Eq => mret dedents
  | inl Datatypes.Gt =>
      sp ← span_here;
      _ ← struct_span_error ("unindent " +:+ pretty (lv_spaces indent) +:+
                             " does not match any outer indentation level") sp;
      mret dedents
  | inr msg => sp ← span_here; _ ← struct_span_error msg sp; mret dedents
  end.

Definition lex_indent : st lexer (option IndentOrDedents) :=
  indent ← gets (fun l => {| lv_tabs := tabs (indent_cxt l); lv_spaces := spaces (indent_cxt l) |});
  _ ← update_cxt (set_counters 0 0);
  cur_indent ← last_indent;
  let ordering := level_cmp indent cur_indent in
  match ordering with
  | inl Datatypes.Gt =>
      _ ← update_cxt (fun c => set_indents (indent :: indents c) c);
      sp ← span_here;
      mret (Some (IodIndent (new_token Indent sp)))
  | inl Datatypes.Lt =>
      fuel ← gets (fun l => length (indents (indent_cxt l)));
      dedents ← dedent_loop fuel indent ordering [];
      mret (Some (IodDedents dedents))
  | inl Datatypes.Eq => mret None
  | inr msg => sp ← span_here; _ ← struct_span_error msg sp; mret None
  end.

Definition lex_indent_context (token : Lexer.TokenKind) : st lexer (option IndentOrDedents) :=
  b ← gets (fun l => new_line_beginning (indent_cxt l));
  if negb b then mret None
  else
    match token with
    | Lexer.LineComment _ | Lexer.Newline => _ ← update_cxt (set_counters 0 0); mret None
    | Lexer.Tab => _ ← update_cxt (fun c => set_counters (tabs c + 1) (spaces c) c); mret None
    | Lexer.Space => _ ← update_cxt (fun c => set_counters (tabs c) (spaces c + 1) c); mret None
    | _ => _ ← update_cxt (set_new_line false); lex_indent
    end.

(** ** Positions and slices *)

Section ParserLexer.
Context (debug : bool) `{UnicodeTables}.

Definition sub_u32 (a b : Z) : outcome Z :=
  if b <=? a then Ok (a - b)
  else if debug then Panic "attempt to subtract with overflow" else Ok (as_u32 (a - b)).

(** The sum and the difference of [BytePos]. *)
Definition pos_add (a b : Z) : st lexer Z := lift (add_u32 debug a b).
Definition pos_sub (a b : Z) : st lexer Z := lift (sub_u32 a b).

Definition src_index (p : byte_pos) : st lexer Z :=
  s ← gets start_pos; pos_sub p s.

Definition str_from_to (start end_ : byte_pos) : st lexer text :=
  a ← src_index start; b ← src_index end_;
  s ← gets src; lift (slice a b s).

Definition str_from (start : byte_pos) : st lexer text :=
  p ← gets pos; str_from_to start p.

(** [src.as_bytes()[i] as char]: the byte is the character when the character is ASCII;
    other characters start with a byte from 194 to 244. *)
Definition first_byte (c : char) : Z :=
  if c <? 128 then c
  else if c <? 2048 then 192 + Z.shiftr c 6
  else if c <? 65536 then 224 + Z.shiftr c 12
  else 240 + Z.shiftr c 18.

Definition char_from (p : byte_pos) : st lexer char :=
  i ← src_index p; s ← gets src;
  r ← lift (drop_bytes i s);
  match r with
  | [] => panic "index out of bounds"
  | c :: _ => mret (first_byte c)
  end.

Definition has_next_token (start end_ : byte_pos) : st lexer bool :=
  a ← src_index start; b ← src_index end_; s ← gets src;
  mret (negb ((b <? a) || (str_len s <? b))).

Definition span_to_pos (p : byte_pos) : st lexer span := gets (fun l => span_new p (pos l)).
Definition error_from (msg : string) (start : byte_pos) : st lexer unit :=
  sp ← span_to_pos start; struct_span_error msg sp.

(** ** Literals *)

(** [NumberBinarySuffix::all_names]. *)
Definition all_names : list string :=
  ["n"; "u"; "m"; "k"; "K"; "M"; "G"; "T"; "P"; "Ki"; "Mi"; "Gi"; "Ti"; "Pi"; "i"].

Definition base_radix (b : Base) : option Z :=
  match b with
  | Binary => Some 2
  | Octal => Some 8
  | Hexadecimal => Some 16
  | Decimal => None
  end.

(** The loop of [validate_literal_int] over [char_indices]. *)
Fixpoint int_digits_loop (base idx : Z) (s : text) (content_start : byte_pos) : st lexer bool :=
  match s with
  | [] => mret true
  | c :: s' =>
      if negb (c =? ch "_") && is_none_opt (to_digit base c) then
        lo ← pos_add content_start (2 + idx);
        hi ← pos_add content_start (2 + idx + len_utf8 c);
        _ ← error_from ("invalid digit for a base " +:+ pretty base +:+ " literal, start: "
                        +:+ pretty lo +:+ ", stop: " +:+ pretty hi) lo;
        mret false
      else int_digits_loop base (idx + len_utf8 c) s' content_start
  end.

Definition validate_literal_int (base : Base) (content_start content_end : byte_pos) : st lexer bool :=
  match base_radix base with
  | None => mret true
  | Some radix =>
      a ← pos_add content_start 2;
      s ← str_from_to a content_end;
      int_digits_loop radix 0 s content_start
  end.

Definition validate_literal_float (base : Base) (start : byte_pos) (empty_exponent : bool)
    : st lexer bool :=
  if empty_exponent then
    _ ← error_from "expected at least one digit in exponent" start; mret false
  else
    match base with
    | Decimal => mret true
    | b => _ ← error_from (describe b +:+ " float literal is not supported") start; mret false
    end.

Definition literal_value_of := (LitKind * symbol * option symbol * option symbol)%type.

(** The string case of [lex_literal]: whether the literal is raw, and its quote. *)
Definition lex_str_prefix (start : byte_pos) : st lexer (bool * byte_pos * char) :=
  start_char ← char_from start;
  if (start_char =? ch "r") || (start_char =? ch "R") then
    p ← pos_add start 1; c ← char_from p; mret (true, p, c)
  else mret (false, start, start_char).

(** The value of the text between [content_start] and [content_end]. *)
Definition lex_str_content (content_start content_end : byte_pos) (quote_char : char)
    (triple_quoted is_raw : bool) : st lexer text :=
  if content_end <? content_start then
    _ ← error_from "invalid string syntax" content_start; mret []
  else
    string_content ← str_from_to content_start content_end;
    v ← lift (str_content_eval debug string_content quote_char triple_quoted false is_raw);
    match v with
    | Some v => mret v
    | None => _ ← error_from "invalid string syntax" content_start; mret []
    end.

Definition lex_str_literal (start suffix_start : byte_pos) (terminated triple_quoted : bool)
    : st lexer literal_value_of :=
  '(is_raw, quote_char_pos, quote_char) ← lex_str_prefix start;
  _ ← when (negb terminated) (error_from "unterminated string" quote_char_pos);
  let offset :=
    if triple_quoted then (if (is_raw : bool) then 4 else 3) else if is_raw then 2 else 1 in
  content_start ← pos_add start offset;
  content_end ← pos_sub suffix_start offset;
  content_end ← (if is_raw then pos_add content_end 1 else mret content_end);
  content_end ← (if negb terminated then pos_add content_end (if triple_quoted then 3 else 1)
                 else mret content_end);
  value ← lex_str_content content_start content_end quote_char triple_quoted is_raw;
  raw ← str_from_to start suffix_start;
  mret (Str triple_quoted is_raw, value, None, Some raw).

(** The integer case, and its binary suffix. *)
Definition lex_int_suffix (start suffix_start : byte_pos) : st lexer (option symbol) :=
  p ← gets pos;
  if suffix_start <? p then
    suffix_str ← str_from suffix_start;
    if bool_decide (suffix_str ∈ map txt all_names) then mret (Some suffix_str)
    else _ ← error_from "invalid int binary suffix" start; mret None
  else mret None.

Definition lex_int_literal (start suffix_start : byte_pos) (base : Base) (empty_int : bool)
    : st lexer literal_value_of :=
  if empty_int then
    _ ← error_from "no valid digits found for number" start;
    mret (Integer, txt "0", None, None)
  else
    valid ← validate_literal_int base start suffix_start;
    symbol ← (if (valid : bool) then str_from_to start suffix_start else mret (txt "0"));
    suffix ← lex_int_suffix start suffix_start;
    mret (Integer, symbol, suffix, None).

Definition lex_float_literal (start suffix_start : byte_pos) (base : Base) (empty_exponent : bool)
    : st lexer literal_value_of :=
  valid ← validate_literal_float base start empty_exponent;
  symbol ← (if (valid : bool) then str_from_to start suffix_start else mret (txt "0"));
  mret (Float, symbol, None, None).

Definition lex_literal (start suffix_start : byte_pos) (kind : LiteralKind) : st lexer literal_value_of :=
  match kind with
  | Lexer.Str terminated triple_quoted => lex_str_literal start suffix_start terminated triple_quoted
  | Lexer.Int base empty_int => lex_int_literal start suffix_start base empty_int
  | Lexer.Float base empty_exponent => lex_float_literal start suffix_start base empty_exponent
  | Lexer.Bool _ => s ← str_from_to start suffix_start; mret (LitBool, s, None, None)
  end.

(** ** Tokens *)

Definition push_delim (d : DelimToken) : st lexer (option TokenKind) :=
  _ ← update_cxt (fun c => set_delims (OpenDelim d :: delims c) c);
  mret (Some (OpenDelim d)).

(** A closing delimiter: the innermost open one is popped, and decides the token. *)
Definition close_delim (d : DelimToken) (msg : string) (start : byte_pos) : st lexer (option TokenKind) :=
  s ← gets (fun l => delims (indent_cxt l));
  _ ← update_cxt (fun c => set_delims (tail (delims c)) c);
  match s with
  | [] => _ ← error_from msg start; mret (Some (CloseDelim d))
  | OpenDelim Paren :: _ | OpenDelim Brace :: _ | OpenDelim Bracket :: _ =>
      let open := match s with OpenDelim o :: _ => o | _ => d end in
      if bool_decide (open = d) then mret (Some (CloseDelim d))
      else _ ← error_from msg start; mret (Some (CloseDelim open))
  | _ :: _ => panic "Impossible!"
  end.

(** [-], or [->]. *)
Definition lex_minus (start : byte_pos) : st lexer (option TokenKind) :=
  head ← pos_add start 1;
  tail ← pos_add start 2;
  b ← has_next_token head tail;
  if (b : bool) then
    next_tkn ← str_from_to head tail;
    if bool_decide (next_tkn = txt ">") then
      p ← gets pos; p ← pos_add p 1; _ ← modify (set_pos p); mret (Some RArrow)
    else mret (Some (BinOp Minus))
  else mret (Some (BinOp Minus)).

Definition lex_token (token : Lexer.token) (start : byte_pos) : st lexer (option TokenKind) :=
  match Lexer.kind token with
  | Lexer.LineComment _ => s ← str_from start; mret (Some (DocComment (CommentLine s)))
  | Lexer.Newline => _ ← update_cxt (set_new_line true); mret (Some Newline)
  | Lexer.Tab | Lexer.Space | Lexer.CarriageReturn | Lexer.Whitespace => mret None
  | Lexer.Ident => s ← str_from start; mret (Some (Ident s))
  | Lexer.Literal kind suffix_start =>
      suffix_start ← pos_add start (as_u32 suffix_start);
      '(kind, symbol, suffix, raw) ← lex_literal start suffix_start kind;
      mret (Some (Literal {| lit_kind := kind; lit_symbol := symbol; suffix := suffix; raw := raw |}))
  | Lexer.Tilde => mret (Some (UnaryOp UTilde))
  | Lexer.Bang =>
      _ ← error_from "invalid token '!', consider using 'not'" start;
      mret (Some (UnaryOp UNot))
  | Lexer.Plus => mret (Some (BinOp Plus))
  | Lexer.Minus => lex_minus start
  | Lexer.Star => mret (Some (BinOp Star))
  | Lexer.Slash => mret (Some (BinOp Slash))
  | Lexer.Percent => mret (Some (BinOp Percent))
  | Lexer.StarStar => mret (Some (BinOp StarStar))
  | Lexer.SlashSlash => mret (Some (BinOp SlashSlash))
  | Lexer.Caret => mret (Some (BinOp Caret))
  | Lexer.And => mret (Some (BinOp And))
  | Lexer.Or => mret (Some (BinOp Or))
  | Lexer.LtLt => mret (Some (BinOp Shl))
  | Lexer.GtGt => mret (Some (BinOp Shr))
  | Lexer.PlusEq => mret (Some (BinOpEq Plus))
  | Lexer.MinusEq => mret (Some (BinOpEq Minus))
  | Lexer.StarEq => mret (Some (BinOpEq Star))
  | Lexer.SlashEq => mret (Some (BinOpEq Slash))
  | Lexer.PercentEq => mret (Some (BinOpEq Percent))
  | Lexer.StarStarEq => mret (Some (BinOpEq StarStar))
  | Lexer.SlashSlashEq => mret (Some (BinOpEq SlashSlash))
  | Lexer.CaretEq => mret (Some (BinOpEq Caret))
  | Lexer.AndEq => mret (Some (BinOpEq And))
  | Lexer.OrEq => mret (Some (BinOpEq Or))
  | Lexer.LtLtEq => mret (Some (BinOpEq Shl))
  | Lexer.GtGtEq => mret (Some (BinOpEq Shr))
  | Lexer.EqEq => mret (Some (BinCmp Eq))
  | Lexer.BangEq => mret (Some (BinCmp NotEq))
  | Lexer.Lt => mret (Some (BinCmp Lt))
  | Lexer.LtEq => mret (Some (BinCmp LtEq))
  | Lexer.Gt => mret (Some (BinCmp Gt))
  | Lexer.GtEq => mret (Some (BinCmp GtEq))
  | Lexer.At => mret (Some At)
  | Lexer.Dot => mret (Some Dot)
  | Lexer.DotDotDot => mret (Some DotDotDot)
  | Lexer.Comma => mret (Some Comma)
  | Lexer.Colon => mret (Some Colon)
  | Lexer.Dollar => mret (Some Dollar)
  | Lexer.Question => mret (Some Question)
  | Lexer.Eq => mret (Some Assign)
  | Lexer.OpenParen => push_delim Paren
  | Lexer.CloseParen => close_delim Paren "error nesting on close paren" start
  | Lexer.OpenBrace => push_delim Brace
  | Lexer.CloseBrace => close_delim Brace "error nesting on close brace" start
  | Lexer.OpenBracket => push_delim Bracket
  | Lexer.CloseBracket => close_delim Bracket "mismatched closing delimiter" start
  | Lexer.LineContinue => mret None
  | Lexer.InvalidLineContinue =>
      _ ← error_from "unexpected character after line continuation character" start; mret None
  | _ => _ ← error_from "unknown start of token" start; mret None
  end.

(** The loop of [token]: every round consumes a character of the source. *)
Fixpoint token_loop (fuel : nat) : st lexer TokenWithIndents :=
  match fuel with
  | O => panic "out of fuel"
  | S fuel' =>
      p ← gets pos;
      start_src_index ← src_index p;
      s ← gets src; e ← gets end_src_index;
      text ← lift (slice start_src_index e s);
      match text with
      | [] => mret (TwToken (new_token Eof (span_new p p)))
      | _ =>
          token ← lift (first_token debug text);
          indent ← lex_indent_context (Lexer.kind token);
          start ← gets pos;
          p ← pos_add start (as_u32 (Lexer.len token));
          _ ← modify (set_pos p);
          k ← lex_token token start;
          match k with
          | Some kind =>
              sp ← span_to_pos start;
              mret match indent with
                   | Some iord => TwWithIndent (new_token kind sp) iord
                   | None => TwToken (new_token kind sp)
                   end
          | None => token_loop fuel'
          end
      end
  end.

Definition next_parser_token : st lexer TokenWithIndents :=
  fuel ← gets (fun l => S (length (src l))); token_loop fuel.

(** The [while] loop of [eof]. *)
Fixpoint eof_loop (fuel : nat) (buf : list Token) : st lexer (list Token) :=
  s ← gets (fun l => indents (indent_cxt l));
  if (length s <=? 1)%nat then mret buf
  else match fuel with
       | O => panic "out of fuel"
       | S fuel' =>
           _ ← update_cxt (fun c => set_indents (tail (indents c)) c);
           sp ← span_here;
           eof_loop fuel' (buf ++ [new_token Dedent sp])
       end.

Definition eof (buf : list Token) : st lexer (list Token) :=
  b ← gets (fun l => new_line_beginning (indent_cxt l));
  sp ← span_here;
  buf ← (if negb b then _ ← update_cxt (set_new_line true); mret (buf ++ [new_token Newline sp])
         else mret buf);
  fuel ← gets (fun l => length (indents (indent_cxt l)));
  buf ← eof_loop fuel buf;
  mret (buf ++ [new_token Eof sp]).

(** The [while] loop of [into_tokens]. *)
Fixpoint into_tokens_loop (fuel : nat) (token : TokenWithIndents) (buf : list Token)
    : st lexer (list Token) :=
  if tw_is_eof token then eof buf
  else match fuel with
       | O => panic "out of fuel"
       | S fuel' =>
           t ← next_parser_token;
           into_tokens_loop fuel' t (append_to token buf)
       end.

Definition into_tokens : st lexer (list Token) :=
  t ← next_parser_token;
  fuel ← gets (fun l => length (src l));
  into_tokens_loop fuel t [].

Definition new_lexer (s : text) (start : byte_pos) : lexer :=
  {| start_pos := start; pos := start; end_src_index := str_len s; src := s;
     indent_cxt := {| new_line_beginning := false; delims := []; tabs := 0; spaces := 0;
                      indents := [level_default] |};
     errors := [] |}.

(** The token stream, and the lexer with the errors it has reported. *)
Definition parse_token_streams (s : text) (start : byte_pos) : outcome (list Token * lexer) :=
  into_tokens (new_lexer s start).
End ParserLexer.

Definition kinds (o : outcome (list Token * lexer)) : option (list TokenKind * list string) :=
  match o with
  | Ok (ts, l) => Some (map kind ts, map fst (errors l))
  | Panic _ => None
  end.

(** ** Well-formed token streams

    Scanning a stream with the depth of its indentation and the stack of its open
    delimiters: a closing delimiter matches the innermost open one (or none is open), and,
    when [strict], a [Dedent] needs an open level. *)

Definition scan_state : Type := nat * list DelimToken.

Definition scan (strict : bool) (k : TokenKind) (s : scan_state) : option scan_state :=
  let '(depth, open) := s in
  match k with
  | Indent => Some (if strict then S depth else depth, open)
  | Dedent =>
      if strict then match depth with S d => Some (d, open) | O => None end else Some s
  | OpenDelim d => Some (depth, d :: open)
  | CloseDelim d =>
      match open with
      | [] => Some (depth, [])
      | o :: open' => if bool_decide (o = d) then Some (depth, open') else None
      end
  | _ => Some s
  end.

Fixpoint scan_all (strict : bool) (ks : list TokenKind) (s : scan_state) : option scan_state :=
  match ks with
  | [] => Some s
  | k :: ks' => s' ← scan strict k s; scan_all strict ks' s'
  end.

(** The depth that a stack of levels stands for. *)
Definition depth_of (strict : bool) (s : list IndentLevel) : nat :=
  if strict then (length s - 1)%nat else 0%nat.

(** No minus sign is directly followed by a character outside ASCII. *)
Definition ascii_after_minus (s : text) : Prop :=
  forall a c b, s = a ++ ch "-" :: c :: b -> is_ascii c = true.

(** ** Invariants *)

Definition only_errors (l l' : lexer) : Prop :=
  start_pos l' = start_pos l /\ pos l' = pos l /\ end_src_index l' = end_src_index l /\
  src l' = src l /\ indent_cxt l' = indent_cxt l.

Lemma scan_all_app strict ks ks' s :
  scan_all strict (ks ++ ks') s = s' ← scan_all strict ks s; scan_all strict ks' s'.
Proof.
  revert s. induction ks as [|k ks IH]; intros s; [done|]. simpl.
  destruct (scan strict k s); simpl; auto.
Qed.

Lemma only_errors_refl l : only_errors l l.
Proof. done. Qed.

Lemma only_errors_trans l1 l2 l3 : only_errors l1 l2 -> only_errors l2 l3 -> only_errors l1 l3.
Proof. intros (?&?&?&?&?) (?&?&?&?&?). repeat split; congruence. Qed.

Lemma only_errors_add e l : only_errors l (add_error e l).
Proof. done. Qed.

Lemma wp_struct_span_error msg s l (Q : unit -> lexer -> Prop) :
  (forall l', only_errors l l' -> Q tt l') -> wp (struct_span_error msg s) l Q.
Proof. intros HQ. apply wp_modify, HQ, only_errors_add. Qed.

Lemma wp_error_from msg start l (Q : unit -> lexer -> Prop) :
  (forall l', only_errors l l' -> Q tt l') -> wp (error_from msg start) l Q.
Proof. intros HQ. unfold error_from, span_to_pos. do 2 wp_step. by apply wp_struct_span_error. Qed.

Lemma wp_update_cxt f l (Q : unit -> lexer -> Prop) :
  Q tt (set_cxt (f (indent_cxt l)) l) -> wp (update_cxt f) l Q.
Proof. done. Qed.

Lemma wp_lift {S A} (o : outcome A) (s : S) (Q : A -> S -> Prop) a :
  o = Ok a -> Q a s -> wp (lift o) s Q.
Proof. by intros ->. Qed.

(** *** Indentation *)

(** The stack of levels: at least the level 0 of the file, at its bottom. *)
Definition stack_ok (s : list IndentLevel) : Prop := last s = Some level_default.

Lemma stack_ok_tail i s : stack_ok (i :: s) -> s <> [] -> stack_ok s.
Proof. unfold stack_ok. rewrite last_cons. by destruct s as [|j s]; [|rewrite last_cons; destruct (last s)]. Qed.

(** A level with non-negative counters is never below the bottom of the stack. *)
Lemma level_cmp_default i :
  0 <= lv_tabs i -> 0 <= lv_spaces i -> level_cmp i level_default <> inl Datatypes.Lt.
Proof.
  intros Ht Hs. unfold level_cmp. simpl. destruct (Z.compare_spec (lv_tabs i) 0); try lia.
  - intros [= E]. change (lv_spaces i < 0) in E. lia.
  - by destruct (0 <=? lv_spaces i).
Qed.

(** The indentation context after a change of its stack and counters. *)
Definition cxt_of (b : bool) (d : list TokenKind) (s : list IndentLevel) (c : IndentContext) : Prop :=
  new_line_beginning c = b /\ delims c = d /\ indents c = s /\ 0 <= tabs c /\ 0 <= spaces c.

Definition same_text (l l' : lexer) : Prop :=
  start_pos l' = start_pos l /\ pos l' = pos l /\ end_src_index l' = end_src_index l /\ src l' = src l.

Lemma wp_last_indent l i s (Q : IndentLevel -> lexer -> Prop) :
  indents (indent_cxt l) = i :: s -> Q i l -> wp last_indent l Q.
Proof. intros Hi HQ. unfold last_indent. do 2 wp_step. rewrite Hi. exact HQ. Qed.

Lemma wp_dedent_loop fuel indent s l dedents b d :
  0 <= lv_tabs indent -> 0 <= lv_spaces indent ->
  cxt_of b d s (indent_cxt l) -> stack_ok s -> (length s <= fuel)%nat ->
  forall top, head s = Some top ->
  wp (dedent_loop fuel indent (level_cmp indent top) dedents) l (fun ds l' =>
    exists popped s' new, s = popped ++ s' /\ stack_ok s' /\ ds = dedents ++ new /\
      length new = length popped /\ Forall (fun t => kind t = Dedent) new /\
      same_text l l' /\ cxt_of b d s' (indent_cxt l')).
Proof.
  intros Ht Hs. revert s l dedents. induction fuel as [|fuel IH]; intros s l dedents Hc Hok Hf top Htop.
  { destruct s; simpl in Hf; [discriminate Htop|lia]. }
  destruct s as [|i s]; [done|]. simpl in Htop. injection Htop as ->.
  assert (Hdone : forall l', only_errors l l' -> exists popped s' new,
      top :: s = popped ++ s' /\ stack_ok s' /\ dedents = dedents ++ new /\
      length new = length popped /\ Forall (fun t => kind t = Dedent) new /\
      same_text l l' /\ cxt_of b d s' (indent_cxt l')).
  { intros l' (?&?&?&?&E). exists [], (top :: s), []. rewrite app_nil_r, E.
    split_and!; try done; by apply Forall_nil. }
  simpl. unfold span_here. destruct (level_cmp indent top) as [[| |]|msg] eqn:E.
  - wp_step. by apply Hdone.
  - (* a level is popped *)
    assert (Hne : s <> []).
    { intros ->. injection Hok as ->. by apply (level_cmp_default indent) in E. }
    destruct s as [|j s]; [done|]. wp_step. apply wp_update_cxt. do 2 wp_step. wp_step.
    destruct Hc as (Hb & Hd & Hi & Hct & Hcs). rewrite Hi.
    eapply wp_last_indent; [reflexivity|]. simpl in Hf.
    eapply wp_mono; [apply (IH (j :: s)); [done| |simpl; lia|reflexivity]|].
    + by apply (stack_ok_tail top).
    + intros ds l' (popped & s' & new & Es & Hs' & -> & Hl & Hf' & Htx & Hcx).
      exists (top :: popped), s'. eexists. split_and!; [by rewrite Es|done|by rewrite <- app_assoc|by simpl; rewrite Hl| |done|done].
      by constructor.
  - do 3 wp_step. apply wp_struct_span_error. intros l' Hl'. wp_step. by apply Hdone.
  - do 3 wp_step. apply wp_struct_span_error. intros l' Hl'. wp_step. by apply Hdone.
Qed.

(** The tokens of an indentation change. *)
Definition iod_tokens (i : option IndentOrDedents) : list Token :=
  match i with
  | None => []
  | Some (IodIndent t) => [t]
  | Some (IodDedents ts) => ts
  end.

Lemma scan_dedents strict ts popped s open :
  Forall (fun t => kind t = Dedent) ts -> length ts = length popped -> stack_ok s ->
  scan_all strict (map kind ts) (depth_of strict (popped ++ s), open) = Some (depth_of strict s, open).
Proof.
  intros Hts Hl Hs.
  assert (Hn : length s <> 0%nat) by (destruct s; [done|simpl; lia]).
  unfold depth_of. rewrite length_app, <- Hl.
  replace (length ts + length s - 1)%nat with (length ts + (length s - 1))%nat by lia. clear Hl.
  generalize (length s - 1)%nat. intros n.
  induction Hts as [|t ts Ht _ IH]; simpl; [done|]. rewrite Ht. by destruct strict.
Qed.

Lemma wp_lex_indent l b d s :
  cxt_of b d s (indent_cxt l) -> stack_ok s ->
  wp lex_indent l (fun i l' => exists s', same_text l l' /\ cxt_of b d s' (indent_cxt l') /\
    stack_ok s' /\ Eof ∉ map kind (iod_tokens i) /\
    forall strict open, scan_all strict (map kind (iod_tokens i)) (depth_of strict s, open) =
      Some (depth_of strict s', open)).
Proof.
  intros (Hb & Hd & Hi & Hct & Hcs) Hok. unfold lex_indent, span_here. do 3 wp_step. apply wp_update_cxt. wp_step.
  destruct s as [|top s]; [done|].
  eapply wp_last_indent; [exact Hi|].
  set (indent := {| lv_tabs := tabs (indent_cxt l); lv_spaces := spaces (indent_cxt l) |}).
  assert (Hc : cxt_of b d (top :: s) (set_counters 0 0 (indent_cxt l))).
  { split_and!; simpl; done || lia. }
  destruct (level_cmp indent top) as [[| |]|msg] eqn:E.
  - wp_step. exists (top :: s). split_and!; [done|done|done|apply not_elem_of_nil|done].
  - do 3 wp_step. simpl indent_cxt. rewrite <- E.
    eapply wp_mono; [eapply (wp_dedent_loop _ _ (top :: s)); [done|done|exact Hc|done|by rewrite <- Hi|done]|].
    intros ds l' (popped & s' & new & Es & Hs' & -> & Hl & Hf & Htx & Hcx). wp_step.
    exists s'. split_and!; [done|done|done| |].
    + simpl. intros [t [Ht Hin]]%list_elem_of_fmap. rewrite Forall_forall in Hf. by rewrite (Hf t Hin) in Ht.
    + intros strict open. rewrite Es. by apply scan_dedents.
  - wp_step. apply wp_update_cxt. do 2 wp_step. wp_step. exists (indent :: top :: s).
    split_and!; [done| | | |].
    + destruct Hc as (?&?&Hi'&?&?). split_and!; try done. simpl in *. by rewrite Hi.
    + unfold stack_ok in *. rewrite last_cons. by rewrite Hok.
    + simpl. apply not_elem_of_cons. split; [done|apply not_elem_of_nil].
    + intros strict open. simpl. unfold depth_of. simpl. rewrite Nat.sub_0_r. by destruct strict.
  - do 3 wp_step. apply wp_struct_span_error. intros l' (?&?&?&?&Hx). wp_step. exists (top :: s).
    rewrite Hx. split_and!; [done|done|done|apply not_elem_of_nil|done].
Qed.

(** The tokens of the low-level lexer that leave a line's indentation open. *)
Definition keeps_indent (k : Lexer.TokenKind) : bool :=
  match k with
  | Lexer.LineComment _ | Lexer.Newline | Lexer.Tab | Lexer.Space => true
  | _ => false
  end.

(** What a step of the indentation leaves; [b] is the flag of a beginning line. *)
Definition indent_post (k : Lexer.TokenKind) (b : bool) (d : list TokenKind) (s : list IndentLevel)
    (l : lexer) (i : option IndentOrDedents) (l' : lexer) : Prop :=
  exists s', same_text l l' /\ cxt_of (b && keeps_indent k) d s' (indent_cxt l') /\ stack_ok s' /\
    Eof ∉ map kind (iod_tokens i) /\ (b && negb (keeps_indent k) = false -> i = None) /\
    forall strict open, scan_all strict (map kind (iod_tokens i)) (depth_of strict s, open) =
                        Some (depth_of strict s', open).

Lemma wp_lex_indent_context k l b d s :
  cxt_of b d s (indent_cxt l) -> stack_ok s ->
  wp (lex_indent_context k) l (indent_post k b d s l).
Proof.
  intros Hc Hok. unfold lex_indent_context. do 2 wp_step. pose proof Hc as (Hb & Hd & Hi & Hct & Hcs).
  rewrite Hb. destruct b; cbn [negb].
  - assert (Hnone : forall l', same_text l l' -> cxt_of true d s (indent_cxt l') ->
      keeps_indent k = true -> indent_post k true d s l None l').
    { intros l' Hl' Hc' Hk. exists s. rewrite Hk. split_and!; try done. apply not_elem_of_nil. }
    assert (Hindent : keeps_indent k = false ->
      wp (_ ← update_cxt (set_new_line false); lex_indent) l (indent_post k true d s l)).
    { intros Hk. wp_step. apply wp_update_cxt. eapply wp_mono; [apply (wp_lex_indent _ false d s)|].
      - done.
      - done.
      - intros i l' (s' & H1 & H2 & H3 & H4 & H5). exists s'. rewrite Hk. split_and!; done. }
    destruct k; try (by apply Hindent); wp_step; apply wp_update_cxt; wp_step; apply Hnone; try done;
      split_and!; simpl; done || lia.
  - wp_step. exists s. split_and!; try done. apply not_elem_of_nil.
Qed.

(** *** Positions *)

Section Positions.
Context (debug : bool) `{U : UnicodeTables} `{!UnicodeLaws U} `{!NameLaws}.
Context (s0 : text) (p0 : byte_pos).
Context (Hp0 : 0 <= p0) (Hmax : p0 + str_len s0 < u32_max).
Context (Hvalid : Forall valid_char s0) (Hminus : ascii_after_minus s0).

(** The lexer reads [s0], which starts at position [p0]. *)
Definition reads_src (l : lexer) : Prop :=
  start_pos l = p0 /\ src l = s0 /\ end_src_index l = str_len s0.

Lemma reads_src_errors l l' : only_errors l l' -> reads_src l -> reads_src l'.
Proof. intros (?&?&?&?&?) (?&?&?). split_and!; congruence. Qed.

Lemma wp_pos_add a b l (Q : Z -> lexer -> Prop) :
  a + b <= u32_max -> Q (a + b) l -> wp (pos_add debug a b) l Q.
Proof.
  intros Hle HQ. eapply wp_lift; [|exact HQ]. unfold add_u32.
  by rewrite (proj2 (Z.leb_le _ _)).
Qed.

Lemma wp_pos_sub a b l (Q : Z -> lexer -> Prop) :
  b <= a -> Q (a - b) l -> wp (pos_sub debug a b) l Q.
Proof.
  intros Hle HQ. eapply wp_lift; [|exact HQ]. unfold sub_u32.
  by rewrite (proj2 (Z.leb_le _ _)).
Qed.

Lemma wp_src_index p l (Q : Z -> lexer -> Prop) :
  reads_src l -> p0 <= p -> Q (p - p0) l -> wp (src_index debug p) l Q.
Proof.
  intros (Hs & _) Hp HQ. unfold src_index. do 2 wp_step. rewrite Hs. by apply wp_pos_sub.
Qed.

Lemma wp_str_from_to a t b start end_ l (Q : text -> lexer -> Prop) :
  reads_src l -> s0 = a ++ t ++ b -> start = p0 + str_len a -> end_ = start + str_len t ->
  Q t l -> wp (str_from_to debug start end_) l Q.
Proof.
  intros Hl Hs -> -> HQ. pose proof (str_len_nonneg a). pose proof (str_len_nonneg t).
  unfold str_from_to. wp_step. apply wp_src_index; [done|lia|].
  wp_step. apply wp_src_index; [done|lia|]. wp_step. wp_step.
  destruct Hl as (_ & -> & _). eapply wp_lift; [|exact HQ].
  rewrite Hs. apply slice_app; lia.
Qed.

Lemma wp_str_from a t b start l (Q : text -> lexer -> Prop) :
  reads_src l -> s0 = a ++ t ++ b -> start = p0 + str_len a -> pos l = start + str_len t ->
  Q t l -> wp (str_from debug start) l Q.
Proof.
  intros Hl Hs Hst Hp HQ. unfold str_from. do 2 wp_step. by eapply wp_str_from_to.
Qed.

Lemma wp_char_from a c b p l (Q : char -> lexer -> Prop) :
  reads_src l -> s0 = a ++ c :: b -> p = p0 + str_len a -> is_ascii c = true ->
  Q c l -> wp (char_from debug p) l Q.
Proof.
  intros Hl Hs -> Hc HQ. pose proof (str_len_nonneg a).
  unfold char_from. wp_step. apply wp_src_index; [done|lia|]. wp_step. wp_step. wp_step.
  destruct Hl as (_ & -> & _). eapply wp_lift.
  - rewrite Hs. replace (p0 + str_len a - p0) with (str_len a) by lia. apply drop_bytes_app.
  - apply wp_ret. unfold first_byte. unfold is_ascii in Hc.
    apply andb_true_iff in Hc as [_ ->]. exact HQ.
Qed.

(** The text [t] sits between [a] and [b] in the source. *)
Lemma sub_len a t b : s0 = a ++ t ++ b -> 0 <= str_len a /\ 0 <= str_len t /\
  p0 + str_len a + str_len t < u32_max.
Proof.
  intros Hs. pose proof (str_len_nonneg a). pose proof (str_len_nonneg t).
  pose proof (str_len_nonneg b). rewrite Hs, !str_len_app in Hmax. lia.
Qed.

(** *** Literals *)

Lemma wp_int_digits_loop base idx s start bound l :
  0 <= idx -> start + 2 + idx + str_len s <= bound -> bound <= u32_max -> 0 <= start ->
  wp (int_digits_loop debug base idx s start) l (fun _ l' => only_errors l l').
Proof.
  revert idx. induction s as [|c s IH]; intros idx Hi Hb Hbd Hst; cbn [int_digits_loop].
  { by wp_step. }
  simpl in Hb. pose proof (len_utf8_pos c). pose proof (str_len_nonneg s). wp_step.
  - wp_step. apply wp_pos_add; [lia|]. wp_step. apply wp_pos_add; [lia|].
    wp_step. apply wp_error_from. intros l' Hl'. by wp_step.
  - apply IH; lia.
Qed.

Lemma base_prefix_len b p : base_prefix b p -> b <> Decimal -> str_len p = 2.
Proof.
  destruct b; simpl; try done.
  - by intros ->.
  - intros [->|(d & -> & Hd)] _; [done|]. simpl.
    apply andb_true_iff in Hd as [_ Hd%Z.leb_le]. change (d <= 57) in Hd.
    unfold len_utf8. by rewrite (proj2 (Z.ltb_lt d 128)) by lia.
  - by intros ->.
Qed.

Lemma wp_lex_int_suffix a suf b start suffix_start l l' :
  only_errors l l' -> reads_src l' -> s0 = a ++ suf ++ b ->
  suffix_start = p0 + str_len a -> pos l' = suffix_start + str_len suf ->
  wp (lex_int_suffix debug start suffix_start) l' (fun _ l2 => only_errors l l2).
Proof.
  intros Hl' Hr Hs Hst Hp. unfold lex_int_suffix. do 2 wp_step. wp_step; [|by wp_step].
  wp_step. eapply (wp_str_from a suf b); [done|done|done|done|].
  wp_step; [by wp_step|]. wp_step. apply wp_error_from. intros l2 Hl2.
  wp_step. by eapply only_errors_trans.
Qed.

(** A literal sits between [a] and [b]; its suffix starts after [num]. *)
Lemma wp_lex_int_literal a num suf b start l base empty :
  reads_src l -> s0 = a ++ (num ++ suf) ++ b -> start = p0 + str_len a ->
  pos l = start + str_len (num ++ suf) -> number_lexeme (Int base empty) num (suf ++ b) ->
  wp (lex_int_literal debug start (start + str_len num) base empty) l (fun _ l' => only_errors l l').
Proof.
  intros Hl Hs Hst Hp (pf & ds & -> & Hpf & _). unfold lex_int_literal.
  destruct (sub_len _ _ _ Hs) as (Ha & Hn & Hlt). rewrite !str_len_app in Hlt, Hp.
  pose proof (str_len_nonneg pf). pose proof (str_len_nonneg ds). pose proof (str_len_nonneg suf).
  wp_step. { wp_step. apply wp_error_from. intros l' Hl'. by wp_step. }
  wp_step. unfold validate_literal_int.
  assert (Hrest : forall (valid : bool) l', only_errors l l' ->
    wp (symbol ← (if valid then str_from_to debug start (start + str_len (pf ++ ds)) else mret (txt "0"));
        suffix ← lex_int_suffix debug start (start + str_len (pf ++ ds));
        mret (Integer, symbol, suffix, @None AstToken.symbol)) l' (fun _ l' => only_errors l l')).
  { intros valid l' Hl'. pose proof (reads_src_errors _ _ Hl' Hl) as Hr.
    assert (Hp' : pos l' = start + (str_len pf + str_len ds + str_len suf)) by (destruct Hl' as (_ & -> & _); lia).
    assert (Htail : wp (lex_int_suffix debug start (start + str_len (pf ++ ds))) l'
                      (fun _ l' => only_errors l l')).
    { eapply (wp_lex_int_suffix (a ++ pf ++ ds) suf b); [done|done|by rewrite Hs, <- !app_assoc| |].
      - rewrite !str_len_app. lia.
      - rewrite Hp', !str_len_app. lia. }
    wp_step. wp_step; [|wp_step].
    - eapply (wp_str_from_to a (pf ++ ds) (suf ++ b)); [done|by rewrite Hs, <- !app_assoc|done|done|].
      wp_step. eapply wp_mono; [exact Htail|]. intros s l2 Hl2. by wp_step.
    - wp_step. eapply wp_mono; [exact Htail|]. intros s l2 Hl2. by wp_step. }
  destruct (base_radix base) as [radix|] eqn:Er.
  - assert (Hpf2 : str_len pf = 2) by (apply (base_prefix_len base); [done|by intros ->]).
    rewrite str_len_app in *.
    wp_step. apply wp_pos_add; [lia|]. wp_step.
    eapply (wp_str_from_to (a ++ pf) ds (suf ++ b)); [done|by rewrite Hs, <- !app_assoc| |lia|].
    + rewrite str_len_app. lia.
    + eapply wp_mono; [apply (wp_int_digits_loop radix 0 ds start (p0 + str_len s0)); try lia|].
      * rewrite Hs, !str_len_app. pose proof (str_len_nonneg b). lia.
      * intros valid l' Hl'. by apply Hrest.
  - wp_step. apply (Hrest true l), only_errors_refl.
Qed.

Lemma wp_lex_float_literal a num suf b start l base empty :
  reads_src l -> s0 = a ++ (num ++ suf) ++ b -> start = p0 + str_len a ->
  wp (lex_float_literal debug start (start + str_len num) base empty) l (fun _ l' => only_errors l l').
Proof.
  intros Hl Hs Hst. unfold lex_float_literal, validate_literal_float.
  assert (Hrest : forall (valid : bool) l', only_errors l l' ->
    wp (symbol ← (if valid then str_from_to debug start (start + str_len num) else mret (txt "0"));
        mret (Float, symbol, @None AstToken.symbol, @None AstToken.symbol)) l' (fun _ l' => only_errors l l')).
  { intros valid l' Hl'. wp_step. wp_step; [|by do 2 wp_step].
    eapply (wp_str_from_to a num (suf ++ b)); [by eapply reads_src_errors|by rewrite Hs, <- !app_assoc|done|done|].
    by wp_step. }
  wp_step. wp_step.
  - wp_step. apply wp_error_from. intros l' Hl'. wp_step. by apply (Hrest false l').
  - destruct base; try (wp_step; apply wp_error_from; intros l' Hl'; wp_step; by apply (Hrest false l')).
    wp_step. by apply (Hrest true l).
Qed.

(** The quotes and the raw prefix are ASCII. *)
Lemma quote_ascii q : is_quote q = true -> is_ascii q = true /\ len_utf8 q = 1.
Proof. unfold is_quote. intros Hq. eqb_true; subst; by split. Qed.

Lemma quotes_len q tr : is_quote q = true -> str_len (quotes q tr) = if tr then 3 else 1.
Proof. intros Hq. destruct (quote_ascii q Hq) as [_ Hq']. destruct tr; simpl; rewrite ?Hq'; lia. Qed.

Lemma raw_prefix_len p : raw_prefix p -> str_len p = if bool_decide (p = []) then 0 else 1.
Proof. by intros [-> | [-> | ->]]. Qed.

(** What [lex_str_literal] learns from the first characters. *)
Lemma wp_str_prefix a pf q t b start l (Q : bool * byte_pos * char -> lexer -> Prop) :
  reads_src l -> s0 = a ++ (pf ++ q :: t) ++ b -> start = p0 + str_len a ->
  raw_prefix pf -> is_quote q = true ->
  (forall p, Q (negb (bool_decide (pf = [])), p, q) l) ->
  wp (lex_str_prefix debug start) l Q.
Proof.
  intros Hl Hs Hst Hpf Hq HQ. destruct (quote_ascii q Hq) as [Hqa Hq1].
  destruct (sub_len _ _ _ Hs) as (Ha & _ & Hlt). rewrite str_len_app, str_len_cons in Hlt.
  pose proof (str_len_nonneg t). pose proof (str_len_nonneg pf).
  assert (Hraw : forall r, pf = [r] -> r = ch "r" \/ r = ch "R" ->
    wp (lex_str_prefix debug start) l Q).
  { intros r -> Hr. unfold lex_str_prefix. wp_step.
    eapply (wp_char_from a r ((q :: t) ++ b)); [done|by rewrite Hs|done|by destruct Hr as [-> | ->]|].
    assert ((r =? ch "r") || (r =? ch "R") = true) as -> by (by destruct Hr as [-> | ->]).
    wp_step. apply wp_pos_add; [lia|]. wp_step.
    eapply (wp_char_from (a ++ [r]) q (t ++ b)); [done|by rewrite Hs, <- !app_assoc| |done|].
    - rewrite str_len_app. assert (str_len [r] = 1) by (by destruct Hr as [-> | ->]). lia.
    - wp_step. apply HQ. }
  destruct Hpf as [-> | [Hr | Hr]]; [|by eapply Hraw; eauto..].
  unfold lex_str_prefix. wp_step. eapply (wp_char_from a q (t ++ b)); [done|by rewrite Hs|done|done|].
  assert ((q =? ch "r") || (q =? ch "R") = false) as ->.
  { unfold is_quote in Hq. eqb_true; by subst. }
  wp_step. apply HQ.
Qed.

(** The content of a literal starts after its prefix [o] and its quotes, and lies before
    [c]. *)
Lemma wp_lex_str_content a o v c b start content_start content_end q tr raw l l' :
  only_errors l l' -> reads_src l' -> s0 = a ++ (o ++ v ++ c) ++ b -> start = p0 + str_len a ->
  content_start = start + str_len o -> content_end = content_start + str_len v ->
  wp (lex_str_content debug content_start content_end q tr raw) l' (fun _ l2 => only_errors l l2).
Proof.
  intros Hl Hr Hs Hst Hcs Hce. pose proof (str_len_nonneg v). unfold lex_str_content.
  rewrite (proj2 (Z.ltb_ge _ _)) by lia. wp_step.
  assert (Hs' : s0 = (a ++ o) ++ v ++ c ++ b) by (by rewrite Hs, <- !app_assoc).
  eapply (wp_str_from_to (a ++ o) v (c ++ b)); [done|done|rewrite str_len_app; lia|done|].
  wp_step.
  assert (Hv : Forall valid_char v).
  { rewrite Hs', !Forall_app in Hvalid. tauto. }
  destruct (eval_loop_ok debug (length v) q tr false raw v []) as (r & Er & _);
    [done|by apply Forall_nil|done|].
  eapply wp_lift; [exact Er|]. destruct r as [r|]; [by wp_step|].
  wp_step. apply wp_error_from. intros l2 Hl2. wp_step. by eapply only_errors_trans.
Qed.

Lemma wp_lex_str_literal a t b start l terminated triple :
  reads_src l -> s0 = a ++ t ++ b -> start = p0 + str_len a ->
  str_lexeme terminated triple t b ->
  wp (lex_str_literal debug start (start + str_len t) terminated triple) l (fun _ l' => only_errors l l').
Proof.
  intros Hl Hs Hst (pf & q & Hpf & Hq & Ht). unfold lex_str_literal.
  remember (start + str_len t) as sfx eqn:Hsfx.
  (* the literal starts with its prefix and a quote; its content [v] follows [o] quotes *)
  assert (Hsplit : exists o v c, t = pf ++ o ++ v ++ c /\ o = quotes q triple /\
      str_len c = (if terminated then str_len o else 0) /\ exists r, o ++ v ++ c = q :: r).
  { destruct terminated.
    - destruct Ht as (v & -> & _). exists (quotes q triple), v, (quotes q triple).
      split_and!; [done|done|done|]. destruct triple; by eexists.
    - destruct Ht as (-> & tr & v & -> & _).
      destruct tr.
      + exists [q], ([q; q] ++ v), []. rewrite app_nil_r. split_and!; [done|done|done|by eexists].
      + exists [q], v, []. rewrite app_nil_r. split_and!; [done|done|done|by eexists]. }
  destruct Hsplit as (o & v & c & Et & Ho & Hc & r & Hr).
  destruct (sub_len _ _ _ Hs) as (Ha & _ & Hlt).
  assert (Htl : str_len t = str_len pf + (str_len o + (str_len v + str_len c))).
  { by rewrite Et, !str_len_app. }
  pose proof (raw_prefix_len pf Hpf) as Hpl. pose proof (quotes_len q triple Hq) as Hol.
  rewrite <- Ho in Hol. pose proof (str_len_nonneg v). pose proof (str_len_nonneg b).
  pose proof (str_len_nonneg c). pose proof (str_len_nonneg o).
  wp_step. eapply (wp_str_prefix a pf q r b); [done|by rewrite Hs, Et, Hr|done|done|done|].
  intros quote_pos. set (is_raw := negb (bool_decide (pf = []))).
  assert (Hpl' : str_len pf = if is_raw then 1 else 0) by (subst is_raw; by destruct (bool_decide _)).
  cbv beta iota zeta. wp_step.
  assert (Hgo : forall l', only_errors l l' -> wp
    (let offset := if triple then (if is_raw then 4 else 3) else if is_raw then 2 else 1 in
     content_start ← pos_add debug start offset;
     content_end ← pos_sub debug sfx offset;
     content_end ← (if is_raw then pos_add debug content_end 1 else mret content_end);
     content_end ← (if negb terminated then pos_add debug content_end (if triple then 3 else 1)
                 else mret content_end);
     value ← lex_str_content debug content_start content_end q triple is_raw;
     raw ← str_from_to debug start sfx;
     mret (Str triple is_raw, value, @None AstToken.symbol, Some raw)) l' (fun _ l2 => only_errors l l2)).
  { intros l' Hl'. pose proof (reads_src_errors _ _ Hl' Hl) as Hsrc.
    assert (Htail : forall ce, ce = start + str_len pf + str_len o + str_len v -> wp
      (value ← lex_str_content debug (start + str_len pf + str_len o) ce q triple is_raw;
       raw ← str_from_to debug start sfx;
       mret (Str triple is_raw, value, @None AstToken.symbol, Some raw)) l' (fun _ l2 => only_errors l l2)).
    { intros ce ->. wp_step. eapply wp_mono.
      - eapply (wp_lex_str_content a (pf ++ o) v c b start); [done|done|by rewrite Hs, Et, <- !app_assoc|done|rewrite str_len_app; lia|lia].
      - intros value l2 Hl2. wp_step.
        eapply (wp_str_from_to a t b); [exact (reads_src_errors _ _ Hl2 Hl)|done|done|done|].
        by wp_step. }
    cbv zeta.
    assert (Hoff : (if triple then (if is_raw then 4 else 3) else if is_raw then 2 else 1) = str_len pf + str_len o).
    { rewrite Hpl', Hol. by destruct triple, is_raw. }
    rewrite Hoff. wp_step. apply wp_pos_add; [lia|]. rewrite Z.add_assoc.
    wp_step. apply wp_pos_sub; [destruct terminated; lia|]. wp_step.
    assert (Hend : wp (content_end ← (if negb terminated
        then pos_add debug (start + str_len v + str_len c + str_len pf) (if triple then 3 else 1)
        else mret (start + str_len v + str_len c + str_len pf));
      value ← lex_str_content debug (start + str_len pf + str_len o) content_end q triple is_raw;
      raw ← str_from_to debug start sfx;
      mret (Str triple is_raw, value, @None AstToken.symbol, Some raw)) l' (fun _ l2 => only_errors l l2)).
    { wp_step. destruct terminated; cbn [negb].
      - wp_step. apply Htail. lia.
      - rewrite <- Hol. apply wp_pos_add; [lia|]. apply Htail. lia. }
    wp_step.
    - apply wp_pos_add; [lia|].
      replace (_ - _ + 1) with (start + str_len v + str_len c + str_len pf) by lia. exact Hend.
    - wp_step.
      replace (_ - _) with (start + str_len v + str_len c + str_len pf) by lia. exact Hend. }
  unfold when. wp_step.
  - apply wp_error_from. intros l' Hl'. by apply Hgo.
  - wp_step. by apply Hgo.
Qed.
End Positions.

(** *** Tokens *)

Section LexTokens.
Context (debug : bool) `{U : UnicodeTables} `{!UnicodeLaws U} `{!NameLaws}.
Context (s0 : text) (p0 : byte_pos).
Context (Hp0 : 0 <= p0) (Hmax : p0 + str_len s0 < u32_max).
Context (Hvalid : Forall valid_char s0) (Hminus : ascii_after_minus s0).

Notation reads_src := (reads_src s0 p0).

Definition opens_ok (open : list DelimToken) : Prop := Forall (fun d => d <> NoDelim) open.

Lemma as_u32_id z : 0 <= z <= u32_max -> as_u32 z = z.
Proof. intros Hz. unfold as_u32, wrap_u. apply Z.mod_small. unfold u32_max in Hz. lia. Qed.

(** The state after the text [done] with the levels [s] and the delimiters [open]. *)
Definition at_pos (done : text) (open : list DelimToken) (s : list IndentLevel) (b : bool)
    (l : lexer) : Prop :=
  reads_src l /\ pos l = p0 + str_len done /\ opens_ok open /\
  cxt_of b (map OpenDelim open) s (indent_cxt l).

Lemma at_pos_errors done open s b l l' :
  only_errors l l' -> at_pos done open s b l -> at_pos done open s b l'.
Proof.
  intros Hl (Hr & Hp & Ho & Hb). pose proof (reads_src_errors _ _ _ _ Hl Hr) as Hr'.
  destruct Hl as (_ & Hp' & _ & _ & Hc). split_and!; [done|congruence|done|]. by rewrite Hc.
Qed.

(** What [lex_token] promises on a token that ends at [done] with [rest] ahead; [hid] says
    that the token may be hidden from the parser. *)
Definition token_post (hid minus : bool) (done rest : text) (open : list DelimToken)
    (s : list IndentLevel) (b : bool) (k : option TokenKind) (l : lexer) : Prop :=
  exists x rest' open', rest = x ++ rest' /\ at_pos (done ++ x) open' s b l /\
  (minus = false -> x = []) /\
  match k with
  | Some k => k <> Eof /\ forall strict d, scan strict k (d, open) = Some (d, open')
  | None => open' = open /\ hid = true
  end.

Lemma token_post_here hid minus done rest open s b k l :
  at_pos done open s b l ->
  match k with
  | Some k => k <> Eof /\ forall strict d, scan strict k (d, open) = Some (d, open)
  | None => hid = true
  end -> token_post hid minus done rest open s b k l.
Proof.
  intros Hl Hk. exists [], rest, open. rewrite app_nil_r. split_and!; [done|done|done|]. by destruct k.
Qed.

Lemma wp_push_delim d hid minus done rest open s b l :
  d <> NoDelim -> at_pos done open s b l ->
  wp (push_delim d) l (token_post hid minus done rest open s b).
Proof.
  intros Hd (Hr & Hp & Ho & Hb & Hdl & Hi & Ht & Hs). unfold push_delim. wp_step. apply wp_update_cxt. wp_step.
  exists [], rest, (d :: open). rewrite app_nil_r. split_and!; [done| |done|done|done].
  split_and!; [done|done|by constructor|..]; simpl; try done. by rewrite Hdl.
Qed.

Lemma wp_close_delim d msg start hid minus done rest open s b l :
  d <> NoDelim -> at_pos done open s b l ->
  wp (close_delim d msg start) l (token_post hid minus done rest open s b).
Proof.
  intros Hd Hl. pose proof Hl as (Hr & Hp & Ho & Hb & Hdl & Hi & Ht & Hs). unfold close_delim. do 2 wp_step.
  rewrite Hdl. wp_step. apply wp_update_cxt.
  destruct open as [|o open]; cbn [map].
  { wp_step. apply wp_error_from. intros l' Hl'. wp_step. apply token_post_here.
    - eapply at_pos_errors; [exact Hl'|]. split_and!; [done|done|done|..]; simpl; try done.
      by rewrite Hdl.
    - split; [done|]. intros strict n. done. }
  set (l1 := set_cxt _ l).
  assert (Hl1 : at_pos done open s b l1).
  { split_and!; [done|done|by inversion Ho|..]; simpl; try done. by rewrite Hdl. }
  assert (Hgo : wp (if bool_decide (o = d) then mret (Some (CloseDelim d))
                    else _ ← error_from msg start; mret (Some (CloseDelim o))) l1
                 (token_post hid minus done rest (o :: open) s b)).
  { assert (Hpost : forall l', only_errors l1 l' -> token_post hid minus done rest (o :: open) s b (Some (CloseDelim o)) l').
    { intros l' Hl'. exists [], rest, open. rewrite app_nil_r. split_and!; [done| |done|done|].
      - by eapply at_pos_errors.
      - intros strict n. simpl. by rewrite bool_decide_eq_true_2. }
    wp_step.
    - apply bool_decide_eq_true_1 in Heqb0 as ->. wp_step. by apply Hpost.
    - wp_step. apply wp_error_from. intros l' Hl'. wp_step. by apply Hpost. }
  inversion_clear Ho as [|? ? Hne _]. destruct o; [exact Hgo..|done].
Qed.

Lemma wp_lex_minus a b open s fb l start :
  at_pos (a ++ [ch "-"]) open s fb l -> s0 = a ++ ch "-" :: b -> start = p0 + str_len a ->
  wp (lex_minus debug start) l (token_post false true (a ++ [ch "-"]) b open s fb).
Proof.
  intros Hl Hs ->. pose proof Hl as (Hr & Hp & Ho & Hc). unfold lex_minus.
  assert (Hlen : str_len s0 = str_len a + 1 + str_len b) by (rewrite Hs, str_len_app, str_len_cons; change (len_utf8 (ch "-")) with 1; lia).
  pose proof (str_len_nonneg a). pose proof (str_len_nonneg b).
  assert (Hminus_tok : wp (mret (Some (BinOp Minus))) l (token_post false true (a ++ [ch "-"]) b open s fb)).
  { wp_step. by apply token_post_here. }
  wp_step. apply wp_pos_add; [lia|]. wp_step. apply wp_pos_add; [lia|]. wp_step.
  unfold has_next_token. wp_step. eapply (wp_src_index debug s0 p0); [done|lia|]. wp_step.
  eapply (wp_src_index debug s0 p0); [done|lia|]. wp_step. wp_step. wp_step.
  destruct Hr as (Hst & Hsrc & He). rewrite Hsrc.
  wp_step; [|exact Hminus_tok]. apply negb_true_iff, orb_false_iff in Heqb0 as [_ Hb%Z.ltb_ge].
  destruct b as [|c b]; [rewrite Hlen in Hb; simpl in Hb; lia|].
  assert (Hca : is_ascii c = true) by (by eapply Hminus).
  assert (Hc1 : len_utf8 c = 1).
  { unfold is_ascii in Hca. apply andb_true_iff in Hca as [_ Hca]. unfold len_utf8. by rewrite Hca. }
  wp_step. eapply (wp_str_from_to _ s0 p0 (a ++ [ch "-"]) [c] b); [by split_and!|by rewrite Hs, <- app_assoc| | |].
  - rewrite str_len_app. change (str_len [ch "-"]) with 1. lia.
  - rewrite str_len_cons, Hc1. change (str_len []) with 0. lia.
  - wp_step; [|exact Hminus_tok]. do 2 wp_step. rewrite Hp. wp_step.
    apply wp_pos_add; [rewrite str_len_app; change (str_len [ch "-"]) with 1; lia|].
    wp_step. wp_step. wp_step. exists [c], b, open. split_and!; [done| |done|done|done].
    split_and!; [by split_and!| |done|exact Hc]. cbn [pos set_pos].
    rewrite !str_len_app, !str_len_cons, Hc1.
    change (len_utf8 (ch "-")) with 1. change (str_len []) with 0. lia.
Qed.

(** The tokens that the parser never sees. *)
Definition silent (k : Lexer.TokenKind) : bool :=
  match k with
  | Lexer.Whitespace | Lexer.CarriageReturn | Lexer.LineContinue | Lexer.InvalidLineContinue
  | Lexer.InvalidIdent | Lexer.Unknown | Lexer.Semi | Lexer.DotDot | Lexer.Pound
  | Lexer.BlockComment _ _ => true
  | _ => false
  end.
Definition hidden (k : Lexer.TokenKind) : bool :=
  match k with Lexer.Tab | Lexer.Space => true | _ => silent k end.
Definition is_newline (k : Lexer.TokenKind) : bool :=
  match k with Lexer.Newline => true | _ => false end.
Definition is_minus (k : Lexer.TokenKind) : bool :=
  match k with Lexer.Minus => true | _ => false end.

(** Every token of the low-level lexer is lexed without a panic. *)
Lemma wp_lex_token tok a t b open s fb l start :
  at_pos (a ++ t) open s fb l -> s0 = a ++ t ++ b -> start = p0 + str_len a ->
  lexeme (Lexer.kind tok) t b ->
  wp (lex_token debug tok start) l
    (token_post (hidden (Lexer.kind tok)) (is_minus (Lexer.kind tok)) (a ++ t) b open s
       (if is_newline (Lexer.kind tok) then true else fb)).
Proof.
  intros Hl Hs Hst Hlex. pose proof Hl as (Hr & Hp & Ho & Hc). unfold lex_token.
  destruct (sub_len s0 p0 Hmax _ _ _ Hs) as (Ha & Ht & Hlt). rewrite str_len_app in Hp.
  set (post hid minus := token_post hid minus (a ++ t) b open s fb).
  assert (Hsome : forall hid minus k, k <> Eof -> (forall strict d, scan strict k (d, open) = Some (d, open)) ->
    wp (mret (Some k)) l (post hid minus)).
  { intros hid minus k Hk Hscan. wp_step. by apply token_post_here. }
  assert (Herr : forall msg hid minus k,
    match k with Some k => k <> Eof /\ forall strict d, scan strict k (d, open) = Some (d, open) | None => hid = true end ->
    wp (_ ← error_from msg start; mret k) l (post hid minus)).
  { intros msg hid minus k Hk. wp_step. apply wp_error_from. intros l' Hl'. wp_step.
    apply token_post_here; [by eapply at_pos_errors|done]. }
  assert (Hnone : forall minus, wp (mret None) l (post true minus)).
  { intros minus. wp_step. by apply token_post_here. }
  assert (Hlit : forall hid minus (kd : LiteralKind) sfx, 0 <= sfx <= str_len t ->
    wp (lex_literal debug start (start + sfx) kd) l (fun _ l' => only_errors l l') ->
    wp (suffix_start ← pos_add debug start (as_u32 sfx);
        '(kind, symbol, suffix, raw) ← lex_literal debug start suffix_start kd;
        mret (Some (Literal {| lit_kind := kind; lit_symbol := symbol; suffix := suffix; raw := raw |})))
      l (post hid minus)).
  { intros hid minus kd sfx Hsfx Hwp. rewrite as_u32_id by lia. wp_step. apply wp_pos_add; [lia|].
    wp_step. eapply wp_mono; [exact Hwp|]. intros [[[? ?] ?] ?] l' Hl'. wp_step.
    apply token_post_here; [by eapply at_pos_errors|done]. }
  destruct (Lexer.kind tok) as
    [d |d te | | | | | | | | | |kd sfx | | | | | | | | | | | | | | | | | | | | | | | | | | | | | | | | | | | | | | | | | | | | | | | | | |] eqn:Ek;
    cbn [hidden silent is_minus is_newline];
    try apply Hnone; try (by apply Hsome); try (by apply Herr);
    try (by apply wp_push_delim); try (by apply wp_close_delim); try done.
  - (* comment *)
    wp_step. eapply (wp_str_from _ s0 p0 a t b); [done|done|done|lia|]. by apply Hsome.
  - (* newline *)
    wp_step. apply wp_update_cxt. wp_step. apply token_post_here; [|done].
    destruct Hc as (?&?&?&?&?).
    split_and!; try done. simpl. rewrite str_len_app. lia.
  - (* identifier *)
    wp_step. eapply (wp_str_from _ s0 p0 a t b); [done|done|done|lia|]. by apply Hsome.
  - (* literal *)
    destruct kd as [base e|base e|te tr|te].
    + destruct Hlex as (num & suf & -> & -> & Hn & _). rewrite str_len_app in *.
      pose proof (str_len_nonneg num). pose proof (str_len_nonneg suf).
      apply Hlit; [lia|]. eapply (wp_lex_int_literal debug s0 p0 Hp0 Hmax a num suf b); try done.
      rewrite str_len_app. lia.
    + destruct Hlex as (num & suf & -> & -> & Hn & _). rewrite str_len_app in *.
      pose proof (str_len_nonneg num). pose proof (str_len_nonneg suf).
      apply Hlit; [lia|]. by eapply (wp_lex_float_literal debug s0 p0 a num suf b).
    + destruct Hlex as [-> Hstr]. apply Hlit; [lia|].
      by eapply (wp_lex_str_literal debug s0 p0 Hp0 Hmax Hvalid a t b).
    + destruct Hlex as (num & suf & _ & _ & [] & _).
  - (* minus *)
    destruct Hlex as [-> _]. by apply wp_lex_minus.
Qed.
End LexTokens.

(** ** The token stream *)

(** [a] ends at the beginning of a line, up to tabs and spaces. *)
Definition line_start (a : text) : Prop :=
  exists a' ws, a = a' ++ 10 :: ws /\ Forall (fun c => c = 9 \/ c = 32) ws.

Section Stream.
Context (debug : bool) `{U : UnicodeTables} `{!UnicodeLaws U} `{!NameLaws}.

(** No line of the text begins, after tabs and spaces, with a token that is hidden from
    the parser. *)
Definition lines_ok (s : text) : Prop :=
  forall a c r t, s = a ++ c :: r -> line_start a -> first_token debug (c :: r) = Ok t ->
    silent (Lexer.kind t) = false.

Lemma first_token_spec c r :
  exists t s rest, first_token debug (c :: r) = Ok t /\ r = s ++ rest /\
    Lexer.len t = str_len (c :: s) /\ lexeme (Lexer.kind t) (c :: s) rest.
Proof.
  unfold first_token. rewrite andb_false_r.
  destruct (proj1 (wp_ok _ _ _) (wp_next_token debug c r EOF_CHAR))
    as (t & k & Et & s & rest & p & Hr & _ & Hlen & Hlex).
  change (cur [] (c :: r) EOF_CHAR) with (new_cursor (c :: r)) in Et.
  rewrite Et. exists t, s, rest. done.
Qed.

Lemma first_token_newline r : first_token debug (10 :: r) = Ok (Lexer.Token Lexer.Newline 1).
Proof.
  apply first_token_wp; [done|]. rewrite new_cursor_cur.
  unfold next_token, token_kind. wp_step. apply wp_bump. do 3 wp_step.
  do 3 run_if. cbn [default id app]. rewrite operator_ident_magic by done. run_if.
  by repeat (run_if || wp_exec).
Qed.

Lemma scan_all_one strict k s : scan_all strict [k] s = scan strict k s.
Proof. simpl. by destruct (scan strict k s). Qed.

Context (s0 : text) (p0 : byte_pos) (strict : bool).
Context (Hp0 : 0 <= p0) (Hmax : p0 + str_len s0 < u32_max).
Context (Hvalid : Forall valid_char s0) (Hminus : ascii_after_minus s0).
Context (Hlines : strict = true -> lines_ok s0).

Notation at_pos := (at_pos s0 p0).

(** The flag of a beginning line is set only where the indentation is being read, or
    after a comment that takes a line of its own. *)
Definition flag_ok (done rest : text) (b : bool) : Prop :=
  b = true -> line_start done \/ stops (fun c => negb (c =? 10)) rest.

Lemma line_start_snoc a c : line_start a -> c = 9 \/ c = 32 -> line_start (a ++ [c]).
Proof.
  intros (a' & ws & -> & Hws) Hc. exists a', (ws ++ [c]). rewrite <- app_assoc.
  split; [done|]. apply Forall_app. split; [done|]. by apply Forall_singleton.
Qed.

Lemma line_start_newline a : line_start (a ++ [10]).
Proof. exists a, []. split; [done|by apply Forall_nil]. Qed.

(** The flag after a token of kind [k] and text [c :: s]. *)
Lemma flag_ok_next done c s rest k b x rest' :
  flag_ok done (c :: s ++ rest) b -> first_token debug (c :: s ++ rest) = Ok k ->
  lexeme (Lexer.kind k) (c :: s) rest -> rest = x ++ rest' ->
  (is_minus (Lexer.kind k) = false -> x = []) ->
  flag_ok (done ++ (c :: s) ++ x) rest'
    (if is_newline (Lexer.kind k) then true else b && keeps_indent (Lexer.kind k)).
Proof.
  intros Hf Hk Hlex -> Hx.
  destruct (Lexer.kind k) eqn:Ek; cbn [is_newline keeps_indent is_minus] in *;
    try (rewrite andb_false_r; intros [=]);
    rewrite (Hx eq_refl) in *; rewrite app_nil_r; try rewrite andb_true_r.
  - intros _. right. destruct Hlex as (_ & b' & _ & _ & Hs). exact Hs.
  - intros Hb. cbn in Hlex. injection Hlex as -> ->. destruct (Hf Hb) as [Hl|Hl].
    + left. apply line_start_snoc; auto.
    + by cbn in Hl.
  - intros Hb. cbn in Hlex. injection Hlex as -> ->. destruct (Hf Hb) as [Hl|Hl].
    + left. apply line_start_snoc; auto.
    + by cbn in Hl.
  - intros _. left. cbn in Hlex. injection Hlex as -> ->. apply line_start_newline.
Qed.

(** What [token] promises from [done], with [rest] ahead. *)
Definition loop_post (done rest : text) (open : list DelimToken) (s : list IndentLevel)
    (tw : TokenWithIndents) (l : lexer) : Prop :=
  exists x rest' open' s' b, rest = x ++ rest' /\ at_pos (done ++ x) open' s' b l /\
    stack_ok s' /\ flag_ok (done ++ x) rest' b /\
    if tw_is_eof tw then open' = open /\ depth_of strict s' = depth_of strict s
    else x <> [] /\ Eof ∉ map kind (append_to tw []) /\
         scan_all strict (map kind (append_to tw [])) (depth_of strict s, open) =
           Some (depth_of strict s', open').

Lemma wp_token_loop fuel done rest open s b l :
  s0 = done ++ rest -> (length rest < fuel)%nat ->
  at_pos done open s b l -> stack_ok s -> flag_ok done rest b ->
  wp (token_loop debug fuel) l (loop_post done rest open s).
Proof.
  revert done rest s b l. induction fuel as [|fuel IH]; intros done rest s b l Hs Hf Hl Hok Hflag; [lia|].
  pose proof Hl as (Hr & Hp & Ho & Hc). pose proof (str_len_nonneg done).
  simpl token_loop. do 2 wp_step. wp_step. rewrite Hp.
  eapply (wp_src_index debug s0 p0); [done|lia|]. do 4 wp_step. wp_step.
  destruct Hr as (Hst & Hsrc & He). rewrite Hsrc, He.
  eapply wp_lift.
  { rewrite Hs. rewrite <- (app_nil_r rest) at 2. apply slice_app; [lia|]. rewrite str_len_app. lia. }
  destruct rest as [|c r].
  { apply wp_ret. exists [], [], open, s, b. rewrite !app_nil_r. split_and!; done. }
  destruct (first_token_spec c r) as (t & u & r' & Et & -> & Hlen & Hlex).
  wp_step. eapply wp_lift; [exact Et|]. wp_step.
  eapply wp_mono; [by apply (wp_lex_indent_context _ l b (map OpenDelim open) s)|].
  intros i l1 (s1 & Htx & Hc1 & Hok1 & Heof & Hi & Hscan). do 3 wp_step.
  destruct Htx as (Htx1 & Htx2 & Htx3 & Htx4). rewrite Htx2, Hp, Hlen.
  assert (Hs' : s0 = done ++ (c :: u) ++ r') by (by rewrite Hs).
  destruct (sub_len s0 p0 Hmax _ _ _ Hs') as (_ & Hu & Hlt).
  rewrite as_u32_id by lia. apply wp_pos_add; [lia|]. do 2 wp_step. wp_step.
  set (l2 := set_pos _ l1).
  assert (Hl2 : at_pos (done ++ c :: u) open s1 (b && keeps_indent (Lexer.kind t)) l2).
  { split_and!; [by split_and!; simpl; congruence| |done|exact Hc1].
    cbn [pos set_pos l2]. rewrite str_len_app. lia. }
  eapply wp_mono; [by apply (wp_lex_token debug s0 p0 Hp0 Hmax Hvalid Hminus t done (c :: u) r' open s1
    (b && keeps_indent (Lexer.kind t)))|].
  intros k l3 (x & rest' & open' & Er & Hl3 & Hx & Hk).
  pose proof (flag_ok_next done c u r' t b x rest' Hflag Et Hlex Er Hx) as Hflag'.
  rewrite <- app_assoc in Hl3.
  destruct k as [k|].
  - (* a token for the parser *)
    destruct Hk as [Hkeof Hkscan]. unfold span_to_pos. do 3 wp_step.
    exists ((c :: u) ++ x), rest', open', s1. eexists.
    split_and!; [by rewrite Er, <- app_assoc|exact Hl3|done|exact Hflag'|].
    assert (Htw : forall tw, tw_token tw = new_token k (span_new (p0 + str_len done) (pos l3)) ->
      map kind (append_to tw []) = map kind (iod_tokens i) ++ [k] ->
      if tw_is_eof tw then open' = open /\ depth_of strict s1 = depth_of strict s
      else (c :: u) ++ x <> [] /\ Eof ∉ map kind (append_to tw []) /\
        scan_all strict (map kind (append_to tw [])) (depth_of strict s, open) =
          Some (depth_of strict s1, open')).
    { intros tw Htw Hmap. unfold tw_is_eof, token_is. rewrite Htw.
      rewrite bool_decide_eq_false_2 by done. split_and!; [done| |].
      - rewrite Hmap, elem_of_app, list_elem_of_singleton. naive_solver.
      - rewrite Hmap, scan_all_app, Hscan. cbv [mbind option_bind]. by rewrite scan_all_one. }
    destruct i as [[it|its]|]; apply Htw; try done.
    simpl. by rewrite map_app.
  - (* a hidden token: the loop goes on *)
    destruct Hk as [-> Hhid].
    assert (Hd : depth_of strict s1 = depth_of strict s).
    { destruct strict eqn:Estrict; [|done].
      assert (Hi0 : i = None).
      { apply Hi. destruct b; [|done]. cbn [andb]. destruct (keeps_indent (Lexer.kind t)) eqn:Ekp; [done|].
        exfalso. destruct (Hflag eq_refl) as [Hline|Hnl].
        - specialize (Hlines eq_refl done c (u ++ r') t Hs Hline Et).
          destruct (Lexer.kind t); simpl in *; congruence.
        - cbn in Hnl. apply negb_false_iff, Z.eqb_eq in Hnl as ->.
          rewrite first_token_newline in Et. injection Et as <-. discriminate Ekp. }
      rewrite Hi0 in Hscan. specialize (Hscan true open). simpl in Hscan. by injection Hscan. }
    eapply wp_mono; [eapply (IH (done ++ (c :: u) ++ x) rest' s1); [by rewrite Hs', Er, <- !app_assoc| |exact Hl3|done|exact Hflag']|].
    + simpl in Hf. rewrite Er, !length_app in Hf. lia.
    + intros tw l4 (y & rest'' & open' & s' & b' & -> & Hl4 & Hok4 & Hf4 & Hpost).
      exists (((c :: u) ++ x) ++ y), rest'', open', s', b'.
      rewrite <- !app_assoc in *. split_and!; [by rewrite Er|done|done|done|].
      rewrite <- Hd. destruct (tw_is_eof tw); [done|]. split_and!; [done|apply Hpost..].
Qed.

(** *** The end of the file *)

Lemma wp_eof_loop fuel s done open b l buf :
  at_pos done open s b l -> stack_ok s -> (length s <= fuel)%nat ->
  wp (eof_loop fuel buf) l (fun ts l' => exists ds, ts = buf ++ ds /\
    Forall (fun t => kind t = Dedent) ds /\ length ds = (length s - 1)%nat).
Proof.
  revert s l buf. induction fuel as [|fuel IH]; intros s l buf Hl Hok Hf.
  { destruct s; [done|simpl in Hf; lia]. }
  pose proof Hl as (Hr & Hp & Ho & Hb & Hd & Hi & Ht & Hsp). simpl. do 2 wp_step. rewrite Hi.
  destruct s as [|i s]; [done|]. destruct s as [|j s].
  - simpl. wp_step. exists []. rewrite app_nil_r. split_and!; [done|by apply Forall_nil|done].
  - cbn [length Nat.leb]. unfold span_here. wp_step. apply wp_update_cxt. do 2 wp_step. simpl in Hf.
    eapply wp_mono; [apply (IH (j :: s))|].
    + split_and!; simpl; try done. by rewrite Hi.
    + by apply (stack_ok_tail i).
    + simpl. lia.
    + intros ts l' (ds & -> & Hds & Hlen). eexists (_ :: ds). rewrite <- app_assoc. split_and!; [done| |].
      * by apply list.Forall_cons.
      * simpl in *. lia.
Qed.

(** The tokens that close a stream: perhaps a line end, the levels left, [Eof]. *)
Lemma wp_eof s done open b l buf :
  at_pos done open s b l -> stack_ok s ->
  wp (eof buf) l (fun ts l' => exists ks, map kind ts = map kind buf ++ ks ++ [Eof] /\ Eof ∉ ks /\
    scan_all strict ks (depth_of strict s, open) = Some (0%nat, open)).
Proof.
  intros Hl Hok. unfold eof, span_here. do 2 wp_step. do 3 wp_step.
  assert (Htail : forall buf' l' b', at_pos done open s b' l' ->
    wp (fuel ← gets (fun l => length (indents (indent_cxt l))); buf ← eof_loop fuel buf';
        mret (buf ++ [new_token Eof (span_new (pos l) (pos l))])) l'
      (fun ts l' => exists ds, ts = buf' ++ ds ++ [new_token Eof (span_new (pos l) (pos l))] /\
         Forall (fun t => kind t = Dedent) ds /\ length ds = (length s - 1)%nat)).
  { intros buf' l' b' Hl'. do 2 wp_step. wp_step. pose proof Hl' as (_ & _ & _ & _ & _ & Hi & _).
    eapply wp_mono; [by apply (wp_eof_loop _ s done open b'); [| |rewrite Hi]|].
    intros ts l2 (ds & -> & Hds & Hlen). wp_step. exists ds. by rewrite <- app_assoc. }
  assert (Hscan : forall ds, Forall (fun t => kind t = Dedent) ds -> length ds = (length s - 1)%nat ->
    Eof ∉ map kind ds /\ scan_all strict (map kind ds) (depth_of strict s, open) = Some (0%nat, open)).
  { intros ds Hds Hlen. split.
    - intros [t [Ht Hin]]%list_elem_of_fmap. rewrite Forall_forall in Hds. by rewrite (Hds t Hin) in Ht.
    - destruct s as [|i s']; [done|].
      destruct (@exists_last _ (i :: s')) as (p & z & Ez); [done|]. rewrite Ez in *.
      rewrite length_app in Hlen. simpl in Hlen.
      rewrite (scan_dedents strict ds p [z] open); [by destruct strict|done|lia|].
      unfold stack_ok in *. by rewrite last_snoc in Hok. }
  wp_step.
  - wp_step. apply wp_update_cxt. wp_step.
    eapply wp_mono; [apply (Htail _ _ true)|].
    + destruct Hl as (?&?&?&?&?&?&?&?). by split_and!.
    + intros ts l' (ds & -> & Hds & Hlen). destruct (Hscan ds Hds Hlen) as [He Hsc].
      exists (Newline :: map kind ds). rewrite !map_app. simpl. rewrite <- app_assoc.
      split_and!; [done|by apply not_elem_of_cons|exact Hsc].
  - wp_step. eapply wp_mono; [by apply (Htail _ _ b)|].
    intros ts l' (ds & -> & Hds & Hlen). destruct (Hscan ds Hds Hlen) as [He Hsc].
    exists (map kind ds). rewrite !map_app. split_and!; done.
Qed.

Lemma wp_into_tokens_loop fuel done rest open s b l d0 buf tw open1 s1 :
  s0 = done ++ rest -> (tw_is_eof tw = false -> length rest < fuel)%nat ->
  at_pos done open s b l -> stack_ok s -> flag_ok done rest b ->
  (if tw_is_eof tw then open = open1 /\ depth_of strict s = depth_of strict s1
   else Eof ∉ map kind (append_to tw []) /\
     scan_all strict (map kind (append_to tw [])) (depth_of strict s1, open1) =
       Some (depth_of strict s, open)) ->
  Eof ∉ map kind buf -> scan_all strict (map kind buf) d0 = Some (depth_of strict s1, open1) ->
  wp (into_tokens_loop debug fuel tw buf) l (fun ts l' => exists ks open', map kind ts = ks ++ [Eof] /\
    Eof ∉ ks /\ scan_all strict ks d0 = Some (0%nat, open')).
Proof.
  revert done rest open s b l buf tw open1 s1.
  induction fuel as [|fuel IH]; intros done rest open s b l buf tw open1 s1 Hs Hf Hl Hok Hflag Htw Hbuf Hscan;
    simpl into_tokens_loop; destruct (tw_is_eof tw) eqn:Etw; try (specialize (Hf eq_refl); lia).
  1, 2: destruct Htw as [-> Hd]; eapply wp_mono; [by apply (wp_eof s done open1 b)|];
    intros ts l' (ks & Hks & He & Hsc); exists (map kind buf ++ ks), open1;
    rewrite Hks, <- app_assoc, elem_of_app, scan_all_app, Hscan; cbv [mbind option_bind];
    rewrite <- Hd; split_and!; [done|tauto|exact Hsc].
  specialize (Hf eq_refl). destruct Htw as [He1 Hsc1].
  unfold next_parser_token. do 2 wp_step. wp_step. pose proof Hl as ((_ & Hsrc & _) & _).
  eapply wp_mono; [apply (wp_token_loop _ done rest open s b); try done|].
  { rewrite Hsrc, Hs, length_app. lia. }
  intros tw' l' (y & rest' & open' & s' & b' & -> & Hl' & Hok' & Hf' & Hpost).
  assert (Hbuf' : map kind (append_to tw buf) = map kind buf ++ map kind (append_to tw [])).
  { destruct tw as [t|t [i|ds]]; unfold append_to; rewrite !map_app, <- ?app_assoc; reflexivity. }
  eapply (IH (done ++ y) rest' open' s' b' l' (append_to tw buf) tw' open s);
    [by rewrite Hs, <- app_assoc| |done|done|done| | |].
  - intros Et. rewrite Et in Hpost. destruct Hpost as (Hne & _). rewrite length_app in Hf.
    destruct y; [done|simpl in Hf; lia].
  - destruct (tw_is_eof tw'); [done|]. by destruct Hpost as (_ & ?).
  - rewrite Hbuf', elem_of_app. tauto.
  - rewrite Hbuf', scan_all_app, Hscan. exact Hsc1.
Qed.

(** The whole run. *)
Lemma parse_token_streams_spec :
  exists ts l ks open, parse_token_streams debug s0 p0 = Ok (ts, l) /\ map kind ts = ks ++ [Eof] /\
    Eof ∉ ks /\ scan_all strict ks (0%nat, []) = Some (0%nat, open).
Proof.
  assert (Hl0 : at_pos [] [] [level_default] false (new_lexer s0 p0)).
  { split_and!; simpl; try done; [lia|by apply Forall_nil]. }
  assert (Hwp : wp (into_tokens debug) (new_lexer s0 p0) (fun ts _ => exists ks open,
    map kind ts = ks ++ [Eof] /\ Eof ∉ ks /\ scan_all strict ks (0%nat, []) = Some (0%nat, open))).
  { unfold into_tokens, next_parser_token. wp_step. do 2 wp_step. simpl src.
    eapply wp_mono; [apply (wp_token_loop _ [] s0 [] [level_default] false); try done; lia|].
    intros tw l (x & rest & open & s & b & Hs & Hl & Hok & Hf & Hpost). do 2 wp_step.
    pose proof Hl as ((_ & -> & _) & _).
    eapply (wp_into_tokens_loop _ x rest open s b l _ [] tw [] [level_default]); try done.
    - intros Et. rewrite Et in Hpost. destruct Hpost as (Hne & _). rewrite Hs, length_app.
      destruct x; [done|simpl; lia].
    - destruct (tw_is_eof tw); [done|]. by destruct Hpost as (_ & ?).
    - apply not_elem_of_nil.
    - simpl. by destruct strict. }
  apply wp_ok in Hwp as (ts & l & E & ks & open & Hks).
  exists ts, l, ks, open. split; [exact E|exact Hks].
Qed.
End Stream.

(** A test for [lines_ok], for concrete texts. *)
Section LinesTest.
Context (debug : bool) `{U : UnicodeTables}.

Definition line_flag (f : bool) (c : char) : bool := (c =? 10) || (f && ((c =? 9) || (c =? 32))).

Fixpoint lines_test (f : bool) (s : text) : bool :=
  match s with
  | [] => true
  | c :: r =>
      (negb f || match first_token debug s with
                 | Ok t => negb (silent (Lexer.kind t))
                 | Panic _ => true
                 end) && lines_test (line_flag f c) r
  end.

Lemma line_start_flag a : line_start a -> fold_left line_flag a false = true.
Proof.
  intros (a' & ws & -> & Hws). rewrite fold_left_app.
  change (fold_left line_flag ws true = true).
  induction Hws as [|c ws Hc _ IH]; [done|]. simpl.
  assert (line_flag true c = true) as -> by (destruct Hc as [-> | ->]; done). exact IH.
Qed.

Lemma lines_test_spec f a s :
  lines_test f s = true -> fold_left line_flag a false = f ->
  forall b c r t, s = b ++ c :: r -> line_start (a ++ b) -> first_token debug (c :: r) = Ok t ->
    silent (Lexer.kind t) = false.
Proof.
  revert f a. induction s as [|x s IH]; intros f a Ht Hf b c r t Hs Hl Et; [by destruct b|].
  simpl in Ht. apply andb_true_iff in Ht as [H1 H2]. destruct b as [|y b].
  - simpl in Hs. simplify_eq. rewrite app_nil_r in Hl. rewrite (line_start_flag _ Hl), Et in H1.
    by apply negb_true_iff.
  - simpl in Hs. simplify_eq. apply (IH _ (a ++ [y]) H2) with (b := b) (c := c) (r := r).
    + by rewrite fold_left_app.
    + done.
    + by rewrite <- app_assoc.
    + done.
Qed.

Lemma lines_test_ok s : lines_test false s = true -> lines_ok debug s.
Proof. intros Ht a c r t Hs Hl Et. by apply (lines_test_spec false [] s Ht eq_refl a c r t Hs). Qed.
End LinesTest.

(** Validity and the minus condition of an ASCII text, by computation. *)
Definition ascii_text (s : text) : bool := forallb is_ascii s.

Lemma ascii_text_valid s : ascii_text s = true -> Forall valid_char s /\ ascii_after_minus s.
Proof.
  unfold ascii_text. rewrite forallb_forall. intros Hs. split.
  - apply List.Forall_forall. intros c Hc. specialize (Hs c Hc). apply valid_char_small.
    unfold is_ascii in Hs. rewrite andb_true_iff in Hs. lia.
  - intros a c b ->. apply Hs, in_app_iff. right. right. by left.
Qed.

(** ** Properties *)

(** C13: the token stream of a source is total and its delimiters are matched: on every
    valid source that fits 32-bit positions and has no minus sign before a character
    outside ASCII, the lexer returns (no panic: positions, slices, unwraps), reporting
    errors instead of stopping; the stream ends in its only [Eof], and every closing
    delimiter in it matches the innermost open one, or none is open. *)
Theorem token_stream_total debug `{U : UnicodeTables} `{!UnicodeLaws U} `{!NameLaws} s p :
  0 <= p -> p + str_len s < u32_max -> Forall valid_char s -> ascii_after_minus s ->
  exists ts l ks open, parse_token_streams debug s p = Ok (ts, l) /\ map kind ts = ks ++ [Eof] /\
    Eof ∉ ks /\ scan_all false ks (0%nat, []) = Some (0%nat, open).
Proof. intros. by apply parse_token_streams_spec. Qed.

Lemma ascii_names : NameLaws (U := ascii_tables).
Proof. intros name c Hc. discriminate Hc. Defined.

Lemma token_stream_total_witness :
  exists ts l ks open,
    parse_token_streams true (H := ascii_tables) (txt "a = {b: [1Ki, -0x" ++ [34; 10; 13]) 7 = Ok (ts, l) /\
    map kind ts = ks ++ [Eof] /\ Eof ∉ ks /\ scan_all false ks (0%nat, []) = Some (0%nat, open).
Proof.
  pose proof ascii_names as Hn.
  apply (token_stream_total true (U := ascii_tables)); [lia|vm_compute; done| |];
    apply ascii_text_valid; vm_compute; reflexivity.
Defined.

(** the indentation of the stream is balanced: when no line begins with a token that is
    hidden from the parser (a carriage return, a form feed, a line continuation, an
    unknown character), every [Dedent] closes an open [Indent], and at the end of the
    stream every [Indent] is closed. *)
Theorem indentation_balanced debug `{U : UnicodeTables} `{!UnicodeLaws U} `{!NameLaws} s p :
  0 <= p -> p + str_len s < u32_max -> Forall valid_char s -> ascii_after_minus s ->
  lines_ok debug s ->
  exists ts l ks open, parse_token_streams debug s p = Ok (ts, l) /\ map kind ts = ks ++ [Eof] /\
    Eof ∉ ks /\ scan_all true ks (0%nat, []) = Some (0%nat, open).
Proof. intros. by apply parse_token_streams_spec. Qed.

Lemma indentation_balanced_witness :
  exists ts l ks open,
    parse_token_streams true (H := ascii_tables)
      (txt "a:" ++ [10] ++ txt "  b:" ++ [10; 9; 32; 32] ++ txt "c \ " ++ [10; 10] ++ txt " d") 0 = Ok (ts, l) /\
    map kind ts = ks ++ [Eof] /\ Eof ∉ ks /\ scan_all true ks (0%nat, []) = Some (0%nat, open).
Proof.
  pose proof ascii_names as Hn.
  apply (indentation_balanced true (U := ascii_tables)); [lia|vm_compute; done| | |].
  - apply ascii_text_valid; vm_compute; reflexivity.
  - apply ascii_text_valid; vm_compute; reflexivity.
  - apply lines_test_ok. vm_compute. reflexivity.
Defined.

(** a line that holds only a form feed, inside an indented block, loses its [Dedent]:
    the levels are popped, the token that triggered it is hidden, and the tokens computed
    with it are dropped; the next line then opens the block again. *)
Theorem hidden_token_drops_dedent :
  kinds (parse_token_streams true (H := ascii_tables)
           (txt "a:" ++ [10] ++ txt "  b" ++ [10; 12; 10] ++ txt "  c") 0) =
    Some ([Ident (txt "a"); Colon; Newline; Indent; Ident (txt "b"); Newline; Newline; Indent;
           Ident (txt "c"); Newline; Dedent; Eof], []).
Proof. vm_compute. reflexivity. Qed.

(** a minus sign directly followed by a character outside ASCII stops the lexer: the
    test for the arrow slices the source one byte after the minus sign, inside the
    character. *)
Theorem minus_before_non_ascii_panics debug `{U : UnicodeTables} `{!UnicodeLaws U} c s :
  128 <= c -> str_len (ch "-" :: c :: s) < u32_max ->
  parse_token_streams debug (ch "-" :: c :: s) 0 = Panic "byte index is not a char boundary".
Proof.
  intros Hc Hmax. pose proof (str_len_nonneg s). pose proof (len_utf8_pos c).
  assert (Hc2 : 2 <= len_utf8 c).
  { unfold len_utf8. destruct (c <? 128) eqn:E; [lia|]. repeat case_match; lia. }
  set (src0 := ch "-" :: c :: s) in *.
  assert (Hlen : str_len src0 = 1 + (len_utf8 c + str_len s)) by done.
  assert (Hfirst : first_token debug src0 = Ok (Lexer.Token Lexer.Minus 1)).
  { apply (operator_lexes debug Lexer.Minus "-" "=" (c :: s)); [done|].
    apply not_elem_of_cons. split; [|apply not_elem_of_nil]. change (c <> 61). lia. }
  assert (Hslice : slice 0 (str_len src0) src0 = Ok src0).
  { rewrite <- (app_nil_r src0) at 2. by apply (slice_app [] src0 []). }
  assert (Hpanic : slice 1 2 src0 = Panic "byte index is not a char boundary").
  { unfold slice. change (2 <? 1) with false. cbv iota.
    rewrite (drop_bytes_app [ch "-"] (c :: s) : drop_bytes 1 src0 = Ok (c :: s)).
    change (2 - 1) with 1. cbn [mbind outcome_bind take_bytes Z.eqb].
    by rewrite (proj2 (Z.ltb_lt 1 (len_utf8 c))) by lia. }
  assert (Hnext : str_len src0 <? 2 = false) by (apply Z.ltb_ge; lia).
  assert (Hne : exists x r, src0 = x :: r) by (by exists (ch "-"), (c :: s)).
  clearbody src0. destruct Hne as (x & r & Hne).
  assert (Hminus : forall l, start_pos l = 0 -> src l = src0 ->
    lex_token debug (Lexer.Token Lexer.Minus 1) 0 l = Panic "byte index is not a char boundary").
  { intros l Hst Hsrc. unfold lex_token, lex_minus. cbn [Lexer.kind].
    do 2 (erewrite st_bind_ok by reflexivity).
    assert (Hidx : forall z, 0 <= z -> src_index debug z l = Ok (z, l)).
    { intros z Hz. unfold src_index. erewrite st_bind_ok by reflexivity. rewrite Hst.
      unfold pos_sub, lift, sub_u32. rewrite (proj2 (Z.leb_le 0 z) Hz). by rewrite Z.sub_0_r. }
    assert (Hhas : has_next_token debug (0 + 1) (0 + 2) l = Ok (true, l)).
    { unfold has_next_token. rewrite (st_bind_ok _ _ _ _ _ (Hidx (0 + 1) ltac:(lia))), (st_bind_ok _ _ _ _ _ (Hidx (0 + 2) ltac:(lia))).
      erewrite st_bind_ok by reflexivity. rewrite Hsrc. unfold mret, st_ret.
      change (0 + 2) with 2. by rewrite Hnext. }
    rewrite (st_bind_ok _ _ _ _ _ Hhas). unfold mbind at 1, st_bind at 1, str_from_to.
    rewrite (st_bind_ok _ _ _ _ _ (Hidx (0 + 1) ltac:(lia))), (st_bind_ok _ _ _ _ _ (Hidx (0 + 2) ltac:(lia))).
    erewrite st_bind_ok by reflexivity. rewrite Hsrc. unfold lift.
    change (0 + 1) with 1. change (0 + 2) with 2. by rewrite Hpanic. }
  assert (Hloop : forall fuel, token_loop debug (S fuel) (new_lexer src0 0) =
    Panic "byte index is not a char boundary").
  { intros fuel. simpl token_loop. do 4 (erewrite st_bind_ok by reflexivity).
    match goal with
    | |- context [slice ?a ?b ?c] => change (slice a b c) with (slice 0 (str_len src0) src0)
    end.
    erewrite st_bind_ok by (unfold lift; rewrite Hslice; reflexivity).
    clear Hslice Hpanic. destruct src0 as [|x' r']; [discriminate Hne|]. cbv iota.
    erewrite st_bind_ok by (unfold lift; rewrite Hfirst; reflexivity).
    do 4 (erewrite st_bind_ok by reflexivity).
    unfold mbind, st_bind. by rewrite Hminus. }
  unfold parse_token_streams, into_tokens, next_parser_token. unfold mbind, st_bind, gets.
  by rewrite Hloop.
Qed.

Lemma minus_before_non_ascii_panics_witness :
  parse_token_streams false (H := ascii_tables) [ch "-"; 233] 0 =
    Panic "byte index is not a char boundary".
Proof.
  apply (minus_before_non_ascii_panics false (U := ascii_tables) 233 []); [lia|vm_compute; done].
Defined.

Example parse_token_streams_example :
  kinds (parse_token_streams true (H := ascii_tables) (txt "a:" ++ [10] ++ txt "  b -> 1k" ++ [10] ++ txt "c]") 5) =
  Some ([Ident (txt "a"); Colon; Newline; Indent; Ident (txt "b"); RArrow;
         Literal {| lit_kind := Integer; lit_symbol := txt "1"; suffix := Some (txt "k"); raw := None |};
         Newline; Dedent; Ident (txt "c"); CloseDelim Bracket; Newline; Eof],
        ["mismatched closing delimiter"]).
Proof. vm_compute. reflexivity. Qed.
