(* ===== verification/IntLiteral.v ===== *)
(** * Integer literals ([kclvm/parser/src/parser/int.rs])

    [bytes_to_int] reads the text of an integer token.  The big integers ([num_bigint]) and
    the trimming of byte strings ([bstr]) are the parameter [BigDigits]; a [BigUint] is a
    non-negative [Z]. *)

From S2P Require Import Prelude MachineInt Chars StrLiteral ParserLexer.

Class BigDigits := {
  trim : text -> text;                        (* bstr::ByteSlice::trim *)
  parse_bytes : text -> Z -> option Z;        (* BigUint::parse_bytes *)
}.

(** Digits, letters and underscores. *)
Definition is_ascii_alphanumeric (c : Z) : bool :=
  in_range (ch "0") c (ch "9") || in_range (ch "a") c (ch "z") || in_range (ch "A") c (ch "Z").

(** The value of a text of digits, most significant first. *)
Definition digits_value (radix : Z) (s : text) : Z :=
  fold_left (fun v c => v * radix + default 0 (to_digit radix c)) s 0.

(** The documented behaviour the code relies on: trimming leaves a text without white space
    alone, and a non-empty text of digits of the radix is parsed to its value. *)
Class BigDigitsLaws (B : BigDigits) : Prop := {
  trim_alnum : forall s, Forall (fun c => is_ascii_alphanumeric c = true) s -> trim s = s;
  parse_digits : forall s radix, 2 <= radix <= 36 -> s <> [] ->
    Forall (fun c => is_Some (to_digit radix c)) s -> parse_bytes s radix = Some (digits_value radix s);
}.

(** Indexing and slicing of byte strings. *)
Definition byte_at (s : text) (i : nat) : outcome Z :=
  match s !! i with Some c => Ok c | None => Panic "index out of bounds" end.
Definition slice_from (s : text) (i : nat) : outcome text :=
  if (i <=? length s)%nat then Ok (drop i s) else Panic "range start index out of range".

Definition detect_base (c : Z) : Z * nat :=
  if (c =? ch "x") || (c =? ch "X") then (16, 2%nat)
  else if (c =? ch "b") || (c =? ch "B") then (2, 2%nat)
  else if (c =? ch "o") || (c =? ch "O") then (8, 2%nat)
  else (8, 1%nat).

(** The loop that counts leading zeroes; [inl tt] is the early return of [None]. *)
Fixpoint zeroes_loop (s : text) (last : Z) (count : nat) : unit + (Z * nat) :=
  match s with
  | [] => inr (last, count)
  | cur :: s' =>
      if cur =? ch "_" then
        if last =? ch "_" then inl tt else zeroes_loop s' cur (S count)
      else if negb (cur =? ch "0") then inr (last, count)
      else zeroes_loop s' cur (S count)
  end.

(** The validation loop: the last character read, or an early return of [None]. *)
Fixpoint validate_loop (s : text) (last : Z) : option Z :=
  match s with
  | [] => Some last
  | c :: s' =>
      if negb (is_ascii_alphanumeric c || (c =? ch "_")) then None
      else if (c =? ch "_") && (last =? ch "_") then None
      else validate_loop s' c
  end.

Section IntLiteral.
Context (overflow_checks : bool) `{BigDigits}.

(** [to_u64_digits] has one digit exactly for the magnitudes from 1 to 2^64 - 1; the digit
    is cast to [i64]. *)
Definition to_i64 (minus : bool) (n : Z) : outcome (option Z) :=
  if negb (in_range 1 n (2 ^ 64 - 1)) then Ok None
  else if minus then v ← arith64 overflow_checks (- as_i64 n); Ok (Some v)
  else Ok (Some (as_i64 n)).

(** The last part: zeroes are removed, the digits validated and parsed. *)
Definition parse_magnitude (minus : bool) (base : Z) (lit : text) : outcome (option Z) :=
  match lit with
  | [] => Ok None
  | first :: others =>
      r ← (if first =? ch "0" then
             match zeroes_loop others first 0 with
             | inl _ => Ok None
             | inr (last, count) =>
                 prefix_last ← byte_at lit count;
                 lit' ← slice_from lit (count + 1);
                 if (match lit' with [] => true | _ => false end) && (prefix_last =? ch "_")
                 then Ok None else Ok (Some (last, lit'))
             end
           else Ok (Some (first, lit)));
      match r with
      | None => Ok None
      | Some (last, lit) =>
          match validate_loop lit last with
          | None => Ok None
          | Some last =>
              if last =? ch "_" then Ok None
              else match lit with
                   | [] => Ok (Some 0)
                   | _ => match parse_bytes lit base with
                          | None => Ok None
                          | Some uint => to_i64 minus uint
                          end
                   end
          end
      end
  end.

(** The radix: [inl] is an early return. *)
Definition split_radix (base : Z) (lit : text) : option Z + (Z * bool * nat) :=
  match lit with
  | [] => inl None
  | first :: others =>
      let is2 (p : Z -> bool) := match others with b :: _ => p b | [] => false end in
      let len2 := match others with _ :: _ => 2%nat | [] => 0%nat end in
      if first =? ch "0" then
        if base =? 0 then
          match others with
          | parsed :: _ => let '(b, n) := detect_base parsed in inr (b, true, n)
          | [] => inl (Some 0)
          end
        else if base =? 16 then inr (base, is2 (fun b => (b =? ch "x") || (b =? ch "X")), len2)
        else if base =? 2 then inr (base, is2 (fun b => (b =? ch "b") || (b =? ch "B")), len2)
        else if base =? 8 then inr (base, is2 (fun b => (b =? ch "o") || (b =? ch "O")), len2)
        else inr (base, false, 0%nat)
      else inr (if base =? 0 then 10 else base, false, 0%nat)
  end.

Definition bytes_to_int (lit : text) (base : Z) : outcome (option Z) :=
  let lit := trim lit in
  match lit with
  | [] => Ok None
  | c :: rest =>
      let '(minus, lit) := if c =? ch "+" then (false, rest)
                           else if c =? ch "-" then (true, rest) else (false, lit) in
      match split_radix base lit with
      | inl r => Ok r
      | inr (base, has_radix, radix_len) =>
          if has_radix then
            lit ← slice_from lit radix_len;
            match lit with
            | [] => Ok None
            | d :: lit' => parse_magnitude minus base (if d =? ch "_" then lit' else lit)
            end
          else parse_magnitude minus base lit
      end
  end.
End IntLiteral.

(** ** Suffixes of integers ([NumberBinarySuffix] of [kclvm/ast/src/ast.rs]) *)

Inductive NumberBinarySuffix :=
| Sn | Su | Sm | Sk | SK | SM | SG | ST | SP | SKi | SMi | SGi | STi | SPi.

(** [TryFrom<&str>]. *)
Definition suffix_try_from (value : string) : option NumberBinarySuffix :=
  if bool_decide (value = "n") then Some Sn
  else if bool_decide (value = "u") then Some Su
  else if bool_decide (value = "m") then Some Sm
  else if bool_decide (value = "k") then Some Sk
  else if bool_decide (value = "K") then Some SK
  else if bool_decide (value = "M") then Some SM
  else if bool_decide (value = "G") then Some SG
  else if bool_decide (value = "T") then Some ST
  else if bool_decide (value = "P") then Some SP
  else if bool_decide (value = "Ki") then Some SKi
  else if bool_decide (value = "Mi") then Some SMi
  else if bool_decide (value = "Gi") then Some SGi
  else if bool_decide (value = "Ti") then Some STi
  else if bool_decide (value = "Pi") then Some SPi
  else None.

(** [value]: the name of the variant. *)
Definition suffix_value (s : NumberBinarySuffix) : string :=
  match s with
  | Sn => "n" | Su => "u" | Sm => "m" | Sk => "k" | SK => "K" | SM => "M" | SG => "G"
  | ST => "T" | SP => "P" | SKi => "Ki" | SMi => "Mi" | SGi => "Gi" | STi => "Ti" | SPi => "Pi"
  end.

(** ** Writing integers *)

(** [n] in base [radix], most significant digit first; [fuel] digits at most. *)
Fixpoint digits_of (fuel : nat) (radix n : Z) : text :=
  match fuel with
  | O => []
  | S fuel' => if n =? 0 then [] else digits_of fuel' radix (n / radix) ++ [hex_digit (n mod radix)]
  end.

(** A concrete instance: texts of digits are parsed, nothing is trimmed. *)
Definition plain_digits : BigDigits := {|
  trim := fun s => s;
  parse_bytes := fun s radix =>
    if forallb (fun c => negb (is_none_opt (to_digit radix c))) s
    then match s with [] => None | _ => Some (digits_value radix s) end else None;
|}.

(** ** Lemmas *)

Definition hex_text (radix : Z) (s : text) : Prop :=
  Forall (fun c => exists d, 0 <= d < radix /\ c = hex_digit d) s.

Lemma to_digit_hex_radix radix d : 0 <= d < radix -> radix <= 16 -> to_digit radix (hex_digit d) = Some d.
Proof.
  intros Hd Hr. pose proof (to_digit_hex d ltac:(lia)) as H. unfold to_digit in *.
  change (ch "0") with 48 in *. change (ch "9") with 57 in *. change (ch "a") with 97 in *.
  change (ch "z") with 122 in *. change (ch "A") with 65 in *. change (ch "Z") with 90 in *.
  unfold hex_digit, in_range in *. change (ch "0") with 48 in *. change (ch "a") with 97 in *.
  destruct (Z.ltb_spec d 10).
  - rewrite (proj2 (Z.leb_le 48 (48 + d))), (proj2 (Z.leb_le (48 + d) 57)) by lia. cbn [andb].
    replace (48 + d - 48) with d by lia. by rewrite (proj2 (Z.ltb_lt _ _)) by lia.
  - rewrite (proj2 (Z.leb_le 48 (97 + (d - 10)))), (proj2 (Z.leb_gt (97 + (d - 10)) 57)) by lia. cbn [andb].
    rewrite (proj2 (Z.leb_le 97 (97 + (d - 10)))), (proj2 (Z.leb_le (97 + (d - 10)) 122)) by lia. cbn [andb].
    replace (97 + (d - 10) - 97 + 10) with d by lia. by rewrite (proj2 (Z.ltb_lt _ _)) by lia.
Qed.

Lemma hex_digit_facts d : 0 <= d < 16 ->
  is_ascii_alphanumeric (hex_digit d) = true /\ (hex_digit d =? ch "_") = false /\
  (hex_digit d =? ch "+") = false /\ (hex_digit d =? ch "-") = false /\
  (d <> 0 -> (hex_digit d =? ch "0") = false).
Proof.
  intros Hd. assert (Hc : d ∈ [0;1;2;3;4;5;6;7;8;9;10;11;12;13;14;15]).
  { rewrite !elem_of_cons, elem_of_nil. lia. }
  rewrite !elem_of_cons, elem_of_nil in Hc.
  by repeat destruct Hc as [-> | Hc].
Qed.

Section Digits.
Context (radix : Z) (Hradix : 2 <= radix <= 16).

Lemma digits_of_hex fuel n : 0 <= n -> hex_text radix (digits_of fuel radix n).
Proof.
  revert n. induction fuel as [|fuel IH]; intros n Hn; simpl; [by apply Forall_nil|].
  destruct (n =? 0); [by apply Forall_nil|]. apply Forall_app. split.
  - apply IH, Z.div_pos; lia.
  - apply Forall_singleton. exists (n mod radix). split; [apply Z.mod_pos_bound; lia|done].
Qed.

Lemma digits_value_app s c : digits_value radix (s ++ [c]) =
  digits_value radix s * radix + default 0 (to_digit radix c).
Proof. unfold digits_value. by rewrite fold_left_app. Qed.

Lemma digits_value_of fuel n :
  0 <= n < radix ^ Z.of_nat fuel -> digits_value radix (digits_of fuel radix n) = n.
Proof.
  revert n. induction fuel as [|fuel IH]; intros n Hn; [change (radix ^ Z.of_nat 0) with 1 in Hn; simpl; unfold digits_value; simpl; lia|].
  cbn [digits_of]. destruct (Z.eqb_spec n 0) as [->|Hne]; [done|].
  rewrite Nat2Z.inj_succ, Z.pow_succ_r in Hn by lia.
  assert (Hmod : 0 <= n mod radix < radix) by (apply Z.mod_pos_bound; lia).
  rewrite digits_value_app, IH, to_digit_hex_radix by
    (first [lia | split; [apply Z.div_pos; lia|apply Z.div_lt_upper_bound; lia]]).
  simpl. pose proof (Z.div_mod n radix). lia.
Qed.

(** The first digit is not zero. *)
Lemma digits_of_head fuel n :
  0 < n < radix ^ Z.of_nat fuel ->
  exists d s, digits_of fuel radix n = hex_digit d :: s /\ 1 <= d < radix.
Proof.
  revert n. induction fuel as [|fuel IH]; intros n Hn; [change (radix ^ Z.of_nat 0) with 1 in Hn; lia|].
  cbn [digits_of]. rewrite (proj2 (Z.eqb_neq n 0)) by lia.
  rewrite Nat2Z.inj_succ, Z.pow_succ_r in Hn by lia.
  destruct (decide (n < radix)) as [Hlt|Hge].
  - rewrite (Z.div_small n radix), (Z.mod_small n radix) by lia.
    exists n, []. split; [by destruct fuel|lia].
  - destruct (IH (n / radix)) as (d & s & -> & Hd).
    + split; [apply Z.div_str_pos; lia|apply Z.div_lt_upper_bound; lia].
    + by exists d, (s ++ [hex_digit (n mod radix)]).
Qed.
End Digits.

Lemma hex_text_weaken r r' s : r <= r' -> hex_text r s -> hex_text r' s.
Proof.
  intros Hr Hs. eapply list.Forall_impl; [exact Hs|]. intros c (d & Hd & ->). exists d. split; [lia|done].
Qed.

Lemma hex_text_alnum s : hex_text 16 s -> Forall (fun c => is_ascii_alphanumeric c = true) s.
Proof.
  intros Hs. eapply list.Forall_impl; [exact Hs|]. intros c (d & Hd & ->). by apply hex_digit_facts.
Qed.

Lemma validate_hex s last :
  hex_text 16 s -> (last =? ch "_") = false ->
  exists l, validate_loop s last = Some l /\ (l =? ch "_") = false.
Proof.
  intros Hs. revert last. induction Hs as [|c s (d & Hd & ->) _ IH]; intros last Hl; [by exists last|].
  simpl. destruct (hex_digit_facts d Hd) as (-> & Hu & _). rewrite Hu. simpl. by apply IH.
Qed.

Section Facts.
Context (overflow_checks : bool) `{B : BigDigits} `{!BigDigitsLaws B}.

Lemma parse_magnitude_digits radix fuel n :
  2 <= radix <= 16 -> 0 < n < radix ^ Z.of_nat fuel ->
  parse_magnitude overflow_checks false radix (digits_of fuel radix n) = to_i64 overflow_checks false n.
Proof.
  intros Hr Hn. destruct (digits_of_head radix Hr fuel n Hn) as (d & s & E & Hd).
  pose proof (digits_of_hex radix Hr fuel n ltac:(lia)) as Hhex.
  pose proof (hex_text_weaken radix 16 _ ltac:(lia) Hhex) as Hhex16.
  destruct (hex_digit_facts d ltac:(lia)) as (_ & Hu & _ & _ & H0).
  unfold parse_magnitude. rewrite E. rewrite (H0 ltac:(lia)). cbn [mbind outcome_bind]. rewrite <- E.
  destruct (validate_hex (digits_of fuel radix n) (hex_digit d) Hhex16 Hu) as (l & -> & ->).
  rewrite E. cbv iota. rewrite <- E.
  rewrite parse_digits; [by rewrite digits_value_of by lia|lia|by rewrite E|].
  eapply list.Forall_impl; [exact Hhex|]. intros c (e & He & ->).
  rewrite to_digit_hex_radix by lia. by eexists.
Qed.

(** The ways to write a radix. *)
Definition radix_prefixes : list (string * Z) :=
  [("", 10); ("0x", 16); ("0X", 16); ("0o", 8); ("0O", 8); ("0b", 2); ("0B", 2); ("0", 8)].

Lemma bytes_to_int_digits p radix fuel n :
  (p, radix) ∈ radix_prefixes -> 0 < n < radix ^ Z.of_nat fuel ->
  bytes_to_int overflow_checks (txt p ++ digits_of fuel radix n) 0 = to_i64 overflow_checks false n.
Proof.
  intros Hp Hn.
  assert (Hr : 2 <= radix <= 16).
  { unfold radix_prefixes in Hp. rewrite !elem_of_cons, elem_of_nil in Hp.
    by repeat destruct Hp as [[= -> ->]|Hp]. }
  assert (Ht : Forall (fun c => is_ascii_alphanumeric c = true) (txt p ++ digits_of fuel radix n)).
  { apply Forall_app. split.
    - unfold radix_prefixes in Hp. rewrite !elem_of_cons, elem_of_nil in Hp.
      repeat destruct Hp as [[= -> ->]|Hp]; try done; cbn;
        repeat (apply list.Forall_cons; split; [reflexivity|]); by apply Forall_nil.
    - apply hex_text_alnum. eapply hex_text_weaken; [|by apply digits_of_hex; lia]. lia. }
  unfold bytes_to_int. rewrite trim_alnum by done.
  destruct (digits_of_head radix Hr fuel n Hn) as (d & s & E & Hd).
  destruct (hex_digit_facts d ltac:(lia)) as (_ & Hu & Hplus & Hmin & H0).
  pose proof (parse_magnitude_digits radix fuel n Hr Hn) as Hpm. rewrite E in Hpm |- *. clear E Ht.
  unfold radix_prefixes in Hp. rewrite !elem_of_cons, elem_of_nil in Hp.
  repeat destruct Hp as [[= -> ->]|Hp]; try done; cbn [txt map String.list_ascii_of_string app];
    try (match type of Hpm with
         | parse_magnitude _ _ ?R _ = _ =>
             transitivity (parse_magnitude overflow_checks false R
               (if hex_digit d =? ch "_" then s else hex_digit d :: s));
             [reflexivity|rewrite Hu; exact Hpm]
         end).
  - rewrite Hplus, Hmin. unfold split_radix. rewrite (H0 ltac:(lia)). exact Hpm.
  - (* a leading zero: the next digit is not a letter of a base *)
    assert (Hd8 : d ∈ [1;2;3;4;5;6;7]) by (rewrite !elem_of_cons, elem_of_nil; lia).
    rewrite !elem_of_cons, elem_of_nil in Hd8.
    repeat destruct Hd8 as [-> | Hd8]; try done; exact Hpm.
Qed.
End Facts.

(** ** Properties *)

(** an integer literal is read back: the digits of [n], in decimal or after the prefix
    of a base (or a lone zero, for octal), are read as [n], for every positive [n] that a
    64-bit signed integer holds. *)
Theorem int_literal_roundtrip overflow_checks `{B : BigDigits} `{!BigDigitsLaws B} p radix fuel n :
  (p, radix) ∈ radix_prefixes -> 0 < n < radix ^ Z.of_nat fuel -> n <= i64_max ->
  bytes_to_int overflow_checks (txt p ++ digits_of fuel radix n) 0 = Ok (Some n).
Proof.
  intros Hp Hn Hmax. rewrite bytes_to_int_digits by done. unfold to_i64, in_range.
  unfold i64_max in Hmax. rewrite (proj2 (Z.leb_le 1 n)), (proj2 (Z.leb_le n _)) by lia. simpl.
  rewrite as_i64_id; [done|]. apply in_i64_spec. unfold i64_min, i64_max. lia.
Qed.

#[local] Instance plain_digits_laws : BigDigitsLaws plain_digits.
Proof.
  split; [done|]. intros s radix Hr Hs Hd. simpl.
  assert (forallb (fun c => negb (is_none_opt (to_digit radix c))) s = true) as ->.
  { apply forallb_forall. intros c Hc. rewrite List.Forall_forall in Hd.
    destruct (Hd c Hc) as [v ->]. done. }
  by destruct s.
Qed.

Lemma int_literal_roundtrip_witness :
  bytes_to_int true (H := plain_digits) (txt "0x" ++ digits_of 4 16 57005) 0 = Ok (Some 57005).
Proof.
  apply (int_literal_roundtrip true (B := plain_digits) "0x" 16 4 57005).
  - unfold radix_prefixes. rewrite !elem_of_cons. by right; left.
  - vm_compute. split; reflexivity.
  - vm_compute. discriminate.
Defined.

(** an integer literal that does not fit is not rejected when it fits 64 unsigned
    bits: it is read as the negative number with the same bits; past 2^64 it is
    rejected. *)
Theorem int_literal_wraps overflow_checks `{B : BigDigits} `{!BigDigitsLaws B} p radix fuel n :
  (p, radix) ∈ radix_prefixes -> i64_max < n < radix ^ Z.of_nat fuel ->
  bytes_to_int overflow_checks (txt p ++ digits_of fuel radix n) 0 =
    Ok (if n <? 2 ^ 64 then Some (n - 2 ^ 64) else None).
Proof.
  intros Hp Hn. unfold i64_max in Hn. rewrite (bytes_to_int_digits overflow_checks p radix fuel n Hp) by lia. unfold to_i64, in_range.
  rewrite (proj2 (Z.leb_le 1 n)) by lia. cbn [andb].
  destruct (Z.ltb_spec n (2 ^ 64)) as [Hlt|Hge].
  - rewrite (proj2 (Z.leb_le n _)) by lia. simpl. do 2 f_equal.
    unfold as_i64, wrap_s. change (2 ^ (64 - 1)) with (2 ^ 63).
    replace (n + 2 ^ 63) with (n - 2 ^ 63 + 1 * 2 ^ 64) by lia.
    rewrite Z.mod_add by lia. rewrite Z.mod_small; lia.
  - rewrite (proj2 (Z.leb_gt n _)) by lia. done.
Qed.

Lemma int_literal_wraps_witness :
  bytes_to_int true (H := plain_digits) (txt "" ++ digits_of 20 10 18446744073709551615) 0 =
    Ok (Some (-1)).
Proof.
  apply (int_literal_wraps true (B := plain_digits) "" 10 20 18446744073709551615).
  - unfold radix_prefixes. rewrite !elem_of_cons. by left.
  - vm_compute. split; reflexivity.
Defined.

(** the names the lexer accepts as suffixes of integers are those of the suffix type
    and one more, [i], which has no value: a type annotation with that suffix, whose
    conversion is unwrapped, stops the parser. *)
Theorem accepted_suffixes s :
  s ∈ all_names <-> (exists x, suffix_try_from s = Some x /\ suffix_value x = s) \/
                    (s = "i" /\ suffix_try_from s = None).
Proof.
  split.
  - unfold all_names. rewrite !elem_of_cons, elem_of_nil. intros Hs.
    repeat destruct Hs as [-> | Hs]; try done; [left; by eexists..|by right].
  - intros [(x & _ & <-)|[-> _]].
    + destruct x; unfold all_names; rewrite !elem_of_cons; simpl; tauto.
    + unfold all_names. rewrite !elem_of_cons. tauto.
Qed.
