(* ===== verification/Utf8.v ===== *)
(** * UTF-8

    A Rust [String] is its bytes (a Rocq [string]); [s.chars()] decodes them.  The
    standard library's encoder and decoder are written out on code points, and the decoder
    inverts the encoder on every text of scalar values. *)

From S2P Require Import Prelude MachineInt Chars.

Definition byte_of (z : Z) : Ascii.ascii := Ascii.ascii_of_N (Z.to_N z).
Definition byte_val (c : Ascii.ascii) : Z := Z.of_N (Ascii.N_of_ascii c).

(** A Unicode scalar value. *)
Definition is_scalar (c : char) : bool :=
  (0 <=? c) && (c <=? 1114111) && negb (in_range 55296 c 57343).

Definition encode_char (c : char) : string :=
  if c <? 128 then String (byte_of c) EmptyString
  else if c <? 2048 then
    String (byte_of (192 + c / 64)) (String (byte_of (128 + c mod 64)) EmptyString)
  else if c <? 65536 then
    String (byte_of (224 + c / 4096))
      (String (byte_of (128 + (c / 64) mod 64))
        (String (byte_of (128 + c mod 64)) EmptyString))
  else
    String (byte_of (240 + c / 262144))
      (String (byte_of (128 + (c / 4096) mod 64))
        (String (byte_of (128 + (c / 64) mod 64))
          (String (byte_of (128 + c mod 64)) EmptyString))).

(** The string whose characters are [t] ([collect::<String>()]). *)
Fixpoint encode (t : text) : string :=
  match t with
  | [] => EmptyString
  | c :: t' => encode_char c +:+ encode t'
  end.

(** [s.chars()], by the length of each leading byte. *)
Fixpoint chars (s : string) : text :=
  match s with
  | EmptyString => []
  | String a s1 =>
      let x := byte_val a in
      if x <? 128 then x :: chars s1
      else match s1 with
      | EmptyString => []
      | String b s2 =>
          let y := byte_val b mod 64 in
          if x <? 224 then (x - 192) * 64 + y :: chars s2
          else match s2 with
          | EmptyString => []
          | String c s3 =>
              let z := byte_val c mod 64 in
              if x <? 240 then (x - 224) * 4096 + y * 64 + z :: chars s3
              else match s3 with
              | EmptyString => []
              | String d s4 =>
                  let w := byte_val d mod 64 in
                  (x - 240) * 262144 + y * 4096 + z * 64 + w :: chars s4
              end
          end
      end
  end.

(** Every Rust string is the encoding of its characters. *)
Definition utf8 (s : string) : Prop := exists t, forallb is_scalar t = true /\ s = encode t.

Section Utf8.
Implicit Types (c : char) (t u : text) (s : string).

Lemma byte_val_of z : 0 <= z < 256 -> byte_val (byte_of z) = z.
Proof.
  intros Hz. unfold byte_val, byte_of. rewrite Ascii.N_ascii_embedding by lia. lia.
Qed.

Lemma is_scalar_bounds c : is_scalar c = true -> 0 <= c <= 1114111.
Proof. unfold is_scalar. rewrite !andb_true_iff. lia. Qed.

Lemma div_mod_64 a : 64 * (a / 64) + a mod 64 = a /\ 0 <= a mod 64 < 64.
Proof. split; [pose proof (Z.div_mod a 64); lia | apply Z.mod_pos_bound; lia]. Qed.

Lemma cont_mod a : (128 + a mod 64) mod 64 = a mod 64.
Proof.
  pose proof (div_mod_64 a). symmetry. apply (Z.mod_unique_pos _ _ 2); lia.
Qed.

Lemma chars_encode_char c s : is_scalar c = true -> chars (encode_char c +:+ s) = c :: chars s.
Proof.
  intros Hc%is_scalar_bounds.
  pose proof (div_mod_64 c) as [E1 B1]. pose proof (div_mod_64 (c / 64)) as [E2 B2].
  pose proof (div_mod_64 (c / 64 / 64)) as [E3 B3].
  rewrite (Z.div_div c 64 64) in E2, E3, B3 by lia.
  rewrite (Z.div_div c (64 * 64) 64) in E3 by lia.
  change (64 * 64 * 64) with 262144 in *. change (64 * 64) with 4096 in *.
  unfold encode_char.
  repeat match goal with
  | |- context [if c <? ?b then _ else _] => destruct (Z.ltb_spec c b)
  end; rewrite !str_app_cons, str_app_nil; cbn [chars]; rewrite !byte_val_of, ?cont_mod by lia.
  all: repeat match goal with
       | |- context [if ?a <? ?b then _ else _] =>
           first [rewrite (proj2 (Z.ltb_lt a b)) by lia | rewrite (proj2 (Z.ltb_ge a b)) by lia]
       end.
  all: f_equal; lia.
Qed.

Lemma chars_encode t : forallb is_scalar t = true -> chars (encode t) = t.
Proof.
  induction t as [|c t IH]; simpl; [done|]. intros [Hc Ht]%andb_true_iff.
  by rewrite chars_encode_char, IH.
Qed.

Lemma encode_chars s : utf8 s -> encode (chars s) = s.
Proof. intros (t & Ht & ->). by rewrite chars_encode. Qed.

Lemma chars_scalar s : utf8 s -> forallb is_scalar (chars s) = true.
Proof. intros (t & Ht & ->). by rewrite chars_encode. Qed.

Lemma encode_char_length c : is_scalar c = true -> Z.of_nat (String.length (encode_char c)) = len_utf8 c.
Proof. unfold encode_char, len_utf8. by repeat case_match. Qed.

Lemma string_length_app p q : String.length (p +:+ q) = (String.length p + String.length q)%nat.
Proof. induction p as [|a p IH]; [done|]. rewrite str_app_cons. simpl. by rewrite IH. Qed.

(** A string has at least as many bytes as characters. *)
Lemma chars_le_bytes s : utf8 s -> (length (chars s) <= String.length s)%nat.
Proof.
  intros (t & Ht & ->). rewrite chars_encode by done.
  induction t as [|c t IH]; simpl in *; [lia|]. apply andb_true_iff in Ht as [Hc Ht].
  rewrite string_length_app. pose proof (encode_char_length c Hc).
  pose proof (len_utf8_pos c). specialize (IH Ht). lia.
Qed.

Lemma encode_app t u : encode (t ++ u) = encode t +:+ encode u.
Proof. induction t as [|c t IH]; simpl; [done|]. by rewrite IH, str_app_assoc. Qed.

Lemma utf8_encode t : forallb is_scalar t = true -> utf8 (encode t).
Proof. intros H. by exists t. Qed.

Lemma utf8_app s s' : utf8 s -> utf8 s' -> utf8 (s +:+ s').
Proof.
  intros (t & Ht & ->) (u & Hu & ->). exists (t ++ u). rewrite forallb_app, Ht, Hu.
  by rewrite encode_app.
Qed.

Lemma encode_inj t u :
  forallb is_scalar t = true -> forallb is_scalar u = true -> encode t = encode u -> t = u.
Proof. intros Ht Hu E. by rewrite <- (chars_encode t), E, chars_encode. Qed.
End Utf8.

(** A closed string is checked by computation. *)
Lemma utf8_check s :
  bool_decide (encode (chars s) = s) && forallb is_scalar (chars s) = true -> utf8 s.
Proof. intros [H%bool_decide_eq_true_1 Hs]%andb_true_iff. by exists (chars s). Qed.

#[export] Hint Resolve utf8_encode utf8_app chars_scalar : kcl.

Example chars_ex : chars "a€z" = [97; 8364; 122] /\ encode [97; 8364; 122] = "a€z".
Proof. vm_compute. done. Qed.
