(* ===== verification/Ast.v ===== *)
(** * The syntax tree ([kclvm/ast/src/ast.rs])

    The nodes of the tree with their positions, the operators with their symbols, the
    conversions between them and from tokens, and the printed form of types.  A struct of
    the source that holds expressions or statements is a record over their types, so that
    one inductive type of expressions and one of statements tie them together. *)

From S2P Require Import Prelude MachineInt Floats Chars AstToken IntLiteral.

(** ** Positions and nodes *)

(** What is read of a [Loc]: the rendered file name, the line and the column. *)
Record Loc := { loc_file : text; loc_line : Z; loc_col : Z }.

Definition PosTuple : Type := text * Z * Z * Z * Z.

Record Node (A : Type) := mkNode {
  node : A; filename : text; line : Z; column : Z; end_line : Z; end_column : Z }.
Arguments mkNode {A}.
Arguments node {A}.
Arguments filename {A}.
Arguments line {A}.
Arguments column {A}.
Arguments end_line {A}.
Arguments end_column {A}.

(** What holds of all the parts of a structure: the induction principles of the types nested
    in it use it. *)
Scheme All for list.
Scheme All for option.
Scheme All for Node.

Section Nodes.
Context {A : Type}.
Implicit Types (x : A) (n : Node A).

Definition dummy_node x : Node A := mkNode x [] 1 1 1 1.
Definition node_node x (loc : Loc * Loc) : Node A :=
  let '(lo, hi) := loc in
  mkNode x (loc_file lo) (loc_line lo) (loc_col lo) (loc_line hi) (loc_col hi).
Definition node_with_pos x (pos : PosTuple) : Node A :=
  let '(f, l, c, el, ec) := pos in mkNode x f l c el ec.
Definition node_pos n : PosTuple := (filename n, line n, column n, end_line n, end_column n).
(** The same position around another node. *)
Definition with_node {B} (y : B) n : Node B :=
  mkNode y (filename n) (line n) (column n) (end_line n) (end_column n).
End Nodes.

(** ** Operators *)

Inductive BinOp :=
| BAdd | BSub | BMul | BDiv | BMod | BPow | BFloorDiv | BLShift | BRShift | BBitXor | BBitAnd
| BBitOr | BAnd | BOr | BAs.

Inductive AugOp :=
| AugAssignOp | AugAdd | AugSub | AugMul | AugDiv | AugMod | AugPow | AugFloorDiv | AugLShift
| AugRShift | AugBitXor | AugBitAnd | AugBitOr.

Inductive UnaryOp := UAdd | USub | UInvert | UNot.

Inductive CmpOp :=
| CmpEq | CmpNotEq | CmpLt | CmpLtE | CmpGt | CmpGtE | CmpIs | CmpIn | CmpNotIn | CmpNot | CmpIsNot.

Inductive BinOrCmpOp := BcBin (op : BinOp) | BcCmp (op : CmpOp).
Inductive BinOrAugOp := BaBin (op : BinOp) | BaAug (op : AugOp).

Inductive ExprContext := Load | Store.
Inductive QuantOperation := QAll | QAny | QFilter | QMap.
Inductive ConfigEntryOperation := OpUnion | OpOverride | OpInsert.
Inductive NameConstant := NcTrue | NcFalse | NcNone | NcUndefined.

#[export] Instance BinOp_eq_dec : EqDecision BinOp. Proof. solve_decision. Defined.
#[export] Instance AugOp_eq_dec : EqDecision AugOp. Proof. solve_decision. Defined.
#[export] Instance UnaryOp_eq_dec : EqDecision UnaryOp. Proof. solve_decision. Defined.
#[export] Instance CmpOp_eq_dec : EqDecision CmpOp. Proof. solve_decision. Defined.

Definition bin_symbol (op : BinOp) : string :=
  match op with
  | BAdd => "+" | BSub => "-" | BMul => "*" | BDiv => "/" | BMod => "%" | BPow => "**"
  | BFloorDiv => "//" | BLShift => "<<" | BRShift => ">>" | BBitXor => "^" | BBitAnd => "&"
  | BBitOr => "|" | BAnd => "and" | BOr => "or" | BAs => "as"
  end.
Definition bin_all_symbols : list string :=
  map bin_symbol [BAdd; BSub; BMul; BDiv; BMod; BPow; BFloorDiv; BLShift; BRShift; BBitXor;
                  BBitAnd; BBitOr; BAnd; BOr; BAs].

Definition aug_symbol (op : AugOp) : string :=
  match op with
  | AugAssignOp => "=" | AugAdd => "+=" | AugSub => "-=" | AugMul => "*=" | AugDiv => "/="
  | AugMod => "%=" | AugPow => "**=" | AugFloorDiv => "//=" | AugLShift => "<<="
  | AugRShift => ">>=" | AugBitXor => "^=" | AugBitAnd => "&=" | AugBitOr => "|="
  end.

(** [TryInto<BinOp> for AugOp]. *)
Definition aug_into_bin (op : AugOp) : option BinOp :=
  match op with
  | AugAdd => Some BAdd | AugSub => Some BSub | AugMul => Some BMul | AugDiv => Some BDiv
  | AugMod => Some BMod | AugPow => Some BPow | AugFloorDiv => Some BFloorDiv
  | AugLShift => Some BLShift | AugRShift => Some BRShift | AugBitXor => Some BBitXor
  | AugBitAnd => Some BBitAnd | AugBitOr => Some BBitOr
  | AugAssignOp => None
  end.

Definition unary_symbol (op : UnaryOp) : string :=
  match op with UAdd => "+" | USub => "-" | UInvert => "~" | UNot => "not" end.

Definition cmp_symbol (op : CmpOp) : string :=
  match op with
  | CmpEq => "==" | CmpNotEq => "!=" | CmpLt => "<" | CmpLtE => "<=" | CmpGt => ">"
  | CmpGtE => ">=" | CmpIs => "is" | CmpIn => "in" | CmpNotIn => "not in" | CmpNot => "not"
  | CmpIsNot => "is not"
  end.
Definition cmp_all_symbols : list string :=
  map cmp_symbol [CmpEq; CmpNotEq; CmpLt; CmpLtE; CmpGt; CmpGtE; CmpIs; CmpIn; CmpNotIn;
                  CmpNot; CmpIsNot].
Definition bin_or_cmp_all_symbols : list string := bin_all_symbols ++ cmp_all_symbols.

Definition quant_string (val : QuantOperation) : string :=
  match val with QAll => "all" | QAny => "any" | QFilter => "filter" | QMap => "map" end.

Definition entry_operation_value (op : ConfigEntryOperation) : Z :=
  match op with OpUnion => 0 | OpOverride => 1 | OpInsert => 2 end.
Definition entry_operation_symbol (op : ConfigEntryOperation) : string :=
  match op with OpUnion => ":" | OpOverride => "=" | OpInsert => "+=" end.

Definition constant_symbol (c : NameConstant) : string :=
  match c with
  | NcTrue => "True" | NcFalse => "False" | NcNone => "None" | NcUndefined => "Undefined"
  end.
Definition constant_json_value (c : NameConstant) : string :=
  match c with NcTrue => "true" | NcFalse => "false" | NcNone | NcUndefined => "null" end.
Definition constant_of_bool (b : bool) : NameConstant := if b then NcTrue else NcFalse.

(** ** Keywords ([kclvm/span/src/symbol.rs]) *)

Definition kw_as := txt "as".
Definition kw_import := txt "import".
Definition kw_rule := txt "rule".
Definition kw_schema := txt "schema".
Definition kw_mixin := txt "mixin".
Definition kw_protocol := txt "protocol".
Definition kw_check := txt "check".
Definition kw_for := txt "for".
Definition kw_assert := txt "assert".
Definition kw_if := txt "if".
Definition kw_elif := txt "elif".
Definition kw_else := txt "else".
Definition kw_or := txt "or".
Definition kw_and := txt "and".
Definition kw_not := txt "not".
Definition kw_in := txt "in".
Definition kw_is := txt "is".
Definition kw_lambda := txt "lambda".
Definition kw_all := txt "all".
Definition kw_any := txt "any".
Definition kw_filter := txt "filter".
Definition kw_map := txt "map".
Definition kw_type := txt "type".
Definition kw_True := txt "True".
Definition kw_False := txt "False".
Definition kw_None := txt "None".
Definition kw_Undefined := txt "Undefined".
Definition sym_bool := txt "bool".
Definition sym_int := txt "int".
Definition sym_float := txt "float".
Definition sym_str := txt "str".

(** ** Operators of tokens *)

(** [From<BinOpToken> for AugOp]. *)
Definition aug_op_of (op_kind : BinOpToken) : AugOp :=
  match op_kind with
  | Plus => AugAdd | Minus => AugSub | Star => AugMul | Slash => AugDiv | Percent => AugMod
  | StarStar => AugPow | SlashSlash => AugAdd | Caret => AugBitXor | And => AugBitAnd
  | Or => AugBitOr | Shl => AugLShift | Shr => AugRShift
  end.

(** [TryFrom<Token> for UnaryOp]. *)
Definition unary_op_of (t : Token) : option UnaryOp :=
  match kind t with
  | AstToken.UnaryOp UTilde => Some UInvert
  | AstToken.UnaryOp AstToken.UNot => Some UNot
  | AstToken.BinOp Plus => Some UAdd
  | AstToken.BinOp Minus => Some USub
  | _ => if is_keyword t kw_not then Some UNot else None
  end.

(** [TryFrom<Token> for BinOrCmpOp]. *)
Definition bin_or_cmp_op_of (t : Token) : option BinOrCmpOp :=
  match kind t with
  | AstToken.BinOp ot =>
      Some (BcBin match ot with
                  | Plus => BAdd | Minus => BSub | Star => BMul | Slash => BDiv | Percent => BMod
                  | StarStar => BPow | SlashSlash => BFloorDiv | Caret => BBitXor
                  | And => BBitAnd | Or => BBitOr | Shl => BLShift | Shr => BRShift
                  end)
  | AstToken.BinCmp ct =>
      Some (BcCmp match ct with
                  | Eq => CmpEq | NotEq => CmpNotEq | Lt => CmpLt | LtEq => CmpLtE
                  | Gt => CmpGt | GtEq => CmpGtE
                  end)
  | _ =>
      if is_keyword t kw_as then Some (BcBin BAs)
      else if is_keyword t kw_or then Some (BcBin BOr)
      else if is_keyword t kw_and then Some (BcBin BAnd)
      else if is_keyword t kw_in then Some (BcCmp CmpIn)
      else if is_keyword t kw_is then Some (BcCmp CmpIs)
      else None
  end.

(** ** Identifiers, literals and types *)

Record Identifier := mkIdentifier {
  names : list (Node text); pkgpath : text; id_ctx : ExprContext }.

Definition get_names (i : Identifier) : list text := map node (names i).
(** [join]. *)
Fixpoint join_texts (sep : text) (l : list text) : text :=
  match l with
  | [] => []
  | [t] => t
  | t :: l' => t ++ sep ++ join_texts sep l'
  end.
Definition get_name (i : Identifier) : text := join_texts (txt ".") (get_names i).
Definition set_ctx (c : ExprContext) (i : Identifier) : Identifier :=
  mkIdentifier (names i) (pkgpath i) c.

Inductive NumberLitValue := NlInt (v : Z) | NlFloat (v : f64).
Record NumberLit := mkNumberLit { binary_suffix : option NumberBinarySuffix; nl_value : NumberLitValue }.
Record StringLit := mkStringLit { is_long_string : bool; raw_value : text; sl_value : text }.
Record NameConstantLit := mkNameConstantLit { nc_value : NameConstant }.
Record Comment := mkComment { comment_text : text }.

Inductive BasicType := TBool | TInt | TFloat | TStr.
Inductive LiteralType :=
| LtBool (v : bool)
| LtInt (v : Z) (suffix : option NumberBinarySuffix)
| LtFloat (v : f64)
| LtStr (v : text).

Record ListType (T : Type) := mkListType { inner_type : option (Node T) }.
Arguments mkListType {T}.
Arguments inner_type {T}.
Record DictType (T : Type) := mkDictType { key_type : option (Node T); value_type : option (Node T) }.
Arguments mkDictType {T}.
Arguments key_type {T}.
Arguments value_type {T}.
Record UnionType (T : Type) := mkUnionType { type_elements : list (Node T) }.
Arguments mkUnionType {T}.
Arguments type_elements {T}.

Scheme All for ListType.
Scheme All for DictType.
Scheme All for UnionType.

Inductive Type_ :=
| TAny
| TNamed (x : Identifier)
| TBasic (x : BasicType)
| TList (x : ListType Type_)
| TDict (x : DictType Type_)
| TUnion (x : UnionType Type_)
| TLiteral (x : LiteralType).

(** [v.replace('"', "\\\"")]. *)
Definition escape_double_quotes (v : text) : text :=
  flat_map (fun c => if c =? 34 then [92; 34] else [c]) v.

Definition literal_type_str (x : LiteralType) : text :=
  match x with
  | LtBool v => txt (if v then "True" else "False")
  | LtInt v None => txt (pretty v)
  | LtInt v (Some suffix) => txt (pretty v +:+ suffix_value suffix)
  | LtFloat v =>
      let float_str := f64_display v in
      txt (if negb (str_contains float_str ".") then float_str +:+ ".0" else float_str)
  | LtStr v => 34 :: escape_double_quotes v ++ [34]
  end.

(** [ToString for Type]. *)
Fixpoint type_to_string (t : Type_) : text :=
  match t with
  | TAny => txt "any"
  | TNamed x => get_name x
  | TBasic x => txt match x with TBool => "bool" | TInt => "int" | TFloat => "float" | TStr => "str" end
  | TList x =>
      txt "[" ++ match inner_type x with Some t => type_to_string (node t) | None => [] end ++ txt "]"
  | TDict x =>
      txt "{" ++ match key_type x with Some t => type_to_string (node t) | None => [] end ++
      txt ":" ++ match value_type x with Some t => type_to_string (node t) | None => [] end ++ txt "}"
  | TUnion x =>
      match type_elements x with
      | [] => txt "any"
      | _ => join_texts (txt "|") (map (fun t => type_to_string (node t)) (type_elements x))
      end
  | TLiteral x => literal_type_str x
  end.

(** ** The structs of expressions, over the type [E] of expressions (and [S] of statements) *)

Record UnaryExpr (E : Type) := mkUnaryExpr { un_op : UnaryOp; operand : Node E }.
Record BinaryExpr (E : Type) := mkBinaryExpr { left : Node E; bin_op : BinOrCmpOp; right : Node E }.
Record IfExpr (E : Type) := mkIfExpr { ie_body : Node E; ie_cond : Node E; ie_orelse : Node E }.
Record SelectorExpr (E : Type) := mkSelectorExpr {
  sel_value : Node E; attr : Node Identifier; sel_ctx : ExprContext; sel_has_question : bool }.
Record Keyword (E : Type) := mkKeyword { kw_arg : Node Identifier; kw_value : option (Node E) }.
Record CallExpr (E : Type) := mkCallExpr {
  func : Node E; args : list (Node E); keywords : list (Node (Keyword E)) }.
Record ParenExpr (E : Type) := mkParenExpr { paren_expr : Node E }.
Record QuantExpr (E : Type) := mkQuantExpr {
  target : Node E; variables : list (Node Identifier); quant_op : QuantOperation;
  quant_test : Node E; quant_if_cond : option (Node E); quant_ctx : ExprContext }.
Record ListExpr (E : Type) := mkListExpr { elts : list (Node E); list_ctx : ExprContext }.
Record ListIfItemExpr (E : Type) := mkListIfItemExpr {
  li_if_cond : Node E; li_exprs : list (Node E); li_orelse : option (Node E) }.
Record CompClause (E : Type) := mkCompClause {
  cc_targets : list (Node Identifier); iter : Node E; ifs : list (Node E) }.
Record ListComp (E : Type) := mkListComp { elt : Node E; lc_generators : list (Node (CompClause E)) }.
Record StarredExpr (E : Type) := mkStarredExpr { star_value : Node E; star_ctx : ExprContext }.
Record ConfigEntry (E : Type) := mkConfigEntry {
  ce_key : option (Node E); ce_value : Node E; operation : ConfigEntryOperation; insert_index : Z }.
Record DictComp (E : Type) := mkDictComp {
  dc_entry : ConfigEntry E; dc_generators : list (Node (CompClause E)) }.
Record ConfigIfEntryExpr (E : Type) := mkConfigIfEntryExpr {
  ci_if_cond : Node E; ci_items : list (Node (ConfigEntry E)); ci_orelse : option (Node E) }.
Record SchemaExpr (E : Type) := mkSchemaExpr {
  se_name : Node Identifier; se_args : list (Node E); kwargs : list (Node (Keyword E));
  se_config : Node E }.
Record ConfigExpr (E : Type) := mkConfigExpr { items : list (Node (ConfigEntry E)) }.
Record CheckExpr (E : Type) := mkCheckExpr {
  ck_test : Node E; ck_if_cond : option (Node E); ck_msg : option (Node E) }.
Record Arguments_ (E : Type) := mkArguments {
  ar_args : list (Node Identifier); defaults : list (option (Node E));
  type_annotation_list : list (option (Node text)); ty_list : list (option (Node Type_)) }.
Record LambdaExpr (E S : Type) := mkLambdaExpr {
  la_args : option (Node (Arguments_ E)); return_type_str : option text; la_body : list (Node S);
  return_ty : option (Node Type_) }.
Record Subscript (E : Type) := mkSubscript {
  sub_value : Node E; sub_index : option (Node E); lower : option (Node E); upper : option (Node E);
  step : option (Node E); sub_ctx : ExprContext; sub_has_question : bool }.
Record Compare (E : Type) := mkCompare { cmp_left : Node E; ops : list CmpOp; comparators : list (Node E) }.
Record JoinedString (E : Type) := mkJoinedString {
  js_is_long_string : bool; js_values : list (Node E); js_raw_value : text }.
Record FormattedValue (E : Type) := mkFormattedValue {
  fv_is_long_string : bool; fv_value : Node E; format_spec : option text }.

Arguments mkUnaryExpr {E}. Arguments un_op {E}. Arguments operand {E}.
Arguments mkBinaryExpr {E}. Arguments left {E}. Arguments bin_op {E}. Arguments right {E}.
Arguments mkIfExpr {E}. Arguments ie_body {E}. Arguments ie_cond {E}. Arguments ie_orelse {E}.
Arguments mkSelectorExpr {E}. Arguments sel_value {E}. Arguments attr {E}. Arguments sel_ctx {E}.
Arguments sel_has_question {E}.
Arguments mkKeyword {E}. Arguments kw_arg {E}. Arguments kw_value {E}.
Arguments mkCallExpr {E}. Arguments func {E}. Arguments args {E}. Arguments keywords {E}.
Arguments mkParenExpr {E}. Arguments paren_expr {E}.
Arguments mkQuantExpr {E}. Arguments target {E}. Arguments variables {E}. Arguments quant_op {E}.
Arguments quant_test {E}. Arguments quant_if_cond {E}. Arguments quant_ctx {E}.
Arguments mkListExpr {E}. Arguments elts {E}. Arguments list_ctx {E}.
Arguments mkListIfItemExpr {E}. Arguments li_if_cond {E}. Arguments li_exprs {E}. Arguments li_orelse {E}.
Arguments mkCompClause {E}. Arguments cc_targets {E}. Arguments iter {E}. Arguments ifs {E}.
Arguments mkListComp {E}. Arguments elt {E}. Arguments lc_generators {E}.
Arguments mkStarredExpr {E}. Arguments star_value {E}. Arguments star_ctx {E}.
Arguments mkConfigEntry {E}. Arguments ce_key {E}. Arguments ce_value {E}. Arguments operation {E}.
Arguments insert_index {E}.
Arguments mkDictComp {E}. Arguments dc_entry {E}. Arguments dc_generators {E}.
Arguments mkConfigIfEntryExpr {E}. Arguments ci_if_cond {E}. Arguments ci_items {E}. Arguments ci_orelse {E}.
Arguments mkSchemaExpr {E}. Arguments se_name {E}. Arguments se_args {E}. Arguments kwargs {E}.
Arguments se_config {E}.
Arguments mkConfigExpr {E}. Arguments items {E}.
Arguments mkCheckExpr {E}. Arguments ck_test {E}. Arguments ck_if_cond {E}. Arguments ck_msg {E}.
Arguments mkArguments {E}. Arguments ar_args {E}. Arguments defaults {E}.
Arguments type_annotation_list {E}. Arguments ty_list {E}.
Arguments mkLambdaExpr {E S}. Arguments la_args {E S}. Arguments return_type_str {E S}.
Arguments la_body {E S}. Arguments return_ty {E S}.
Arguments mkSubscript {E}. Arguments sub_value {E}. Arguments sub_index {E}. Arguments lower {E}.
Arguments upper {E}. Arguments step {E}. Arguments sub_ctx {E}. Arguments sub_has_question {E}.
Arguments mkCompare {E}. Arguments cmp_left {E}. Arguments ops {E}. Arguments comparators {E}.
Arguments mkJoinedString {E}. Arguments js_is_long_string {E}. Arguments js_values {E}.
Arguments js_raw_value {E}.
Arguments mkFormattedValue {E}. Arguments fv_is_long_string {E}. Arguments fv_value {E}.
Arguments format_spec {E}.

Scheme All for UnaryExpr.
Scheme All for BinaryExpr.
Scheme All for IfExpr.
Scheme All for SelectorExpr.
Scheme All for Keyword.
Scheme All for CallExpr.
Scheme All for ParenExpr.
Scheme All for QuantExpr.
Scheme All for ListExpr.
Scheme All for ListIfItemExpr.
Scheme All for CompClause.
Scheme All for ListComp.
Scheme All for StarredExpr.
Scheme All for ConfigEntry.
Scheme All for DictComp.
Scheme All for ConfigIfEntryExpr.
Scheme All for SchemaExpr.
Scheme All for ConfigExpr.
Scheme All for CheckExpr.
Scheme All for Arguments_.
Scheme All for LambdaExpr.
Scheme All for Subscript.
Scheme All for Compare.
Scheme All for JoinedString.
Scheme All for FormattedValue.

(** ** The structs of statements *)

Record TypeAliasStmt := mkTypeAliasStmt {
  ta_type_name : Node Identifier; ta_type_value : Node text; ta_ty : Node Type_ }.
Record ExprStmt (E : Type) := mkExprStmt { exprs : list (Node E) }.
Record UnificationStmt (E : Type) := mkUnificationStmt {
  uni_target : Node Identifier; uni_value : Node (SchemaExpr E) }.
Record AssignStmt (E : Type) := mkAssignStmt {
  targets : list (Node Identifier); as_value : Node E; as_type_annotation : option (Node text);
  as_ty : option (Node Type_) }.
Record AugAssignStmt (E : Type) := mkAugAssignStmt {
  aug_target : Node Identifier; aug_value : Node E; aug_op : AugOp }.
Record AssertStmt (E : Type) := mkAssertStmt {
  at_test : Node E; at_if_cond : option (Node E); at_msg : option (Node E) }.
Record IfStmt (E S : Type) := mkIfStmt { is_body : list (Node S); is_cond : Node E; is_orelse : list (Node S) }.
Record ImportStmt := mkImportStmt {
  im_path : text; rawpath : text; im_name : text; asname : option text; pkg_name : text }.
Record SchemaIndexSignature (E : Type) := mkSchemaIndexSignature {
  si_key_name : option text; si_key_type : Node text; si_value_type : Node text;
  si_value : option (Node E); si_any_other : bool; si_value_ty : Node Type_ }.
Record SchemaAttr (E : Type) := mkSchemaAttr {
  sa_doc : text; sa_name : Node text; sa_type_str : Node text; sa_op : option BinOrAugOp;
  sa_value : option (Node E); sa_is_optional : bool; sa_decorators : list (Node (CallExpr E));
  sa_ty : Node Type_ }.
Record SchemaStmt (E S : Type) := mkSchemaStmt {
  sc_doc : text; sc_name : Node text; parent_name : option (Node Identifier);
  for_host_name : option (Node Identifier); sc_is_mixin : bool; sc_is_protocol : bool;
  sc_args : option (Node (Arguments_ E)); sc_mixins : list (Node Identifier); sc_body : list (Node S);
  sc_decorators : list (Node (CallExpr E)); sc_checks : list (Node (CheckExpr E));
  sc_index_signature : option (Node (SchemaIndexSignature E)) }.
Record RuleStmt (E : Type) := mkRuleStmt {
  ru_doc : text; ru_name : Node text; parent_rules : list (Node Identifier);
  ru_decorators : list (Node (CallExpr E)); ru_checks : list (Node (CheckExpr E));
  ru_args : option (Node (Arguments_ E)); ru_for_host_name : option (Node Identifier) }.

Arguments mkExprStmt {E}. Arguments exprs {E}.
Arguments mkUnificationStmt {E}. Arguments uni_target {E}. Arguments uni_value {E}.
Arguments mkAssignStmt {E}. Arguments targets {E}. Arguments as_value {E}.
Arguments as_type_annotation {E}. Arguments as_ty {E}.
Arguments mkAugAssignStmt {E}. Arguments aug_target {E}. Arguments aug_value {E}. Arguments aug_op {E}.
Arguments mkAssertStmt {E}. Arguments at_test {E}. Arguments at_if_cond {E}. Arguments at_msg {E}.
Arguments mkIfStmt {E S}. Arguments is_body {E S}. Arguments is_cond {E S}. Arguments is_orelse {E S}.
Arguments mkSchemaIndexSignature {E}. Arguments si_key_name {E}. Arguments si_key_type {E}.
Arguments si_value_type {E}. Arguments si_value {E}. Arguments si_any_other {E}. Arguments si_value_ty {E}.
Arguments mkSchemaAttr {E}. Arguments sa_doc {E}. Arguments sa_name {E}. Arguments sa_type_str {E}.
Arguments sa_op {E}. Arguments sa_value {E}. Arguments sa_is_optional {E}. Arguments sa_decorators {E}.
Arguments sa_ty {E}.
Arguments mkSchemaStmt {E S}. Arguments sc_doc {E S}. Arguments sc_name {E S}. Arguments parent_name {E S}.
Arguments for_host_name {E S}. Arguments sc_is_mixin {E S}. Arguments sc_is_protocol {E S}.
Arguments sc_args {E S}. Arguments sc_mixins {E S}. Arguments sc_body {E S}. Arguments sc_decorators {E S}.
Arguments sc_checks {E S}. Arguments sc_index_signature {E S}.
Arguments mkRuleStmt {E}. Arguments ru_doc {E}. Arguments ru_name {E}. Arguments parent_rules {E}.
Arguments ru_decorators {E}. Arguments ru_checks {E}. Arguments ru_args {E}. Arguments ru_for_host_name {E}.

Scheme All for ExprStmt.
Scheme All for UnificationStmt.
Scheme All for AssignStmt.
Scheme All for AugAssignStmt.
Scheme All for AssertStmt.
Scheme All for IfStmt.
Scheme All for SchemaIndexSignature.
Scheme All for SchemaAttr.
Scheme All for SchemaStmt.
Scheme All for RuleStmt.

(** ** Statements and expressions *)

Inductive Stmt_ (E : Type) :=
| STypeAlias (x : TypeAliasStmt)
| SExpr (x : ExprStmt E)
| SUnification (x : UnificationStmt E)
| SAssign (x : AssignStmt E)
| SAugAssign (x : AugAssignStmt E)
| SAssert (x : AssertStmt E)
| SIf (x : IfStmt E (Stmt_ E))
| SImport (x : ImportStmt)
| SSchemaAttr (x : SchemaAttr E)
| SSchema (x : SchemaStmt E (Stmt_ E))
| SRule (x : RuleStmt E).
Arguments STypeAlias {E}.
Arguments SExpr {E}.
Arguments SUnification {E}.
Arguments SAssign {E}.
Arguments SAugAssign {E}.
Arguments SAssert {E}.
Arguments SIf {E}.
Arguments SImport {E}.
Arguments SSchemaAttr {E}.
Arguments SSchema {E}.
Arguments SRule {E}.

Scheme All for Stmt_.

Inductive Expr :=
| EIdentifier (x : Identifier)
| EUnary (x : UnaryExpr Expr)
| EBinary (x : BinaryExpr Expr)
| EIf (x : IfExpr Expr)
| ESelector (x : SelectorExpr Expr)
| ECall (x : CallExpr Expr)
| EParen (x : ParenExpr Expr)
| EQuant (x : QuantExpr Expr)
| EList (x : ListExpr Expr)
| EListIfItem (x : ListIfItemExpr Expr)
| EListComp (x : ListComp Expr)
| EStarred (x : StarredExpr Expr)
| EDictComp (x : DictComp Expr)
| EConfigIfEntry (x : ConfigIfEntryExpr Expr)
| ECompClause (x : CompClause Expr)
| ESchema (x : SchemaExpr Expr)
| EConfig (x : ConfigExpr Expr)
| ECheck (x : CheckExpr Expr)
| ELambda (x : LambdaExpr Expr (Stmt_ Expr))
| ESubscript (x : Subscript Expr)
| EKeyword (x : Keyword Expr)
| EArguments (x : Arguments_ Expr)
| ECompare (x : Compare Expr)
| ENumberLit (x : NumberLit)
| EStringLit (x : StringLit)
| ENameConstantLit (x : NameConstantLit)
| EJoinedString (x : JoinedString Expr)
| EFormattedValue (x : FormattedValue Expr)
| EMissing.

Definition Stmt : Type := Stmt_ Expr.

Record Module_ := mkModule {
  mo_filename : text; mo_pkg : text; mo_doc : text; mo_name : text; mo_body : list (Node Stmt);
  mo_comments : list (Node Comment) }.

(** ** Conversions *)

(** [TryInto<Node<Identifier>> for Node<Expr>] and [TryInto<Node<SchemaExpr>>]. *)
Definition try_into_identifier (self : Node Expr) : option (Node Identifier) :=
  match node self with EIdentifier ident => Some (with_node ident self) | _ => None end.
Definition try_into_schema_expr (self : Node Expr) : option (Node (SchemaExpr Expr)) :=
  match node self with ESchema schema_expr => Some (with_node schema_expr self) | _ => None end.

Definition into_missing_identifier (self : Node Expr) : Node Identifier :=
  with_node (mkIdentifier [] [] Load) self.

(** [Arguments::get_arg_type]: the index is bounds-checked. *)
Definition get_arg_type (self : Arguments_ Expr) (i : nat) : outcome Type_ :=
  match ty_list self !! i with
  | Some ty => Ok (match ty with Some t => node t | None => TAny end)
  | None => Panic "index out of bounds"
  end.

(** The names a schema body binds ([SchemaStmt::get_left_identifier_list]). *)
Definition left_identifiers (n : Node Identifier) : list (Z * Z * text) :=
  match names (node n) with
  | first :: _ => [(line n, column n, node first)]
  | [] => []
  end.
Fixpoint left_identifiers_of (s : Stmt) : list (Z * Z * text) :=
  match s with
  | SUnification u => left_identifiers (uni_target u)
  | SAssign a => concat (map left_identifiers (targets a))
  | SAugAssign a => left_identifiers (aug_target a)
  | SIf i =>
      concat (map (fun n => left_identifiers_of (node n)) (is_body i)) ++
      concat (map (fun n => left_identifiers_of (node n)) (is_orelse i))
  | SSchemaAttr a => [(line (sa_name a), column (sa_name a), node (sa_name a))]
  | _ => []
  end.
Definition get_left_identifier_list (self : SchemaStmt Expr Stmt) : list (Z * Z * text) :=
  concat (map (fun n => left_identifiers_of (node n)) (sc_body self)).

Definition has_only_attribute_definitions (self : SchemaStmt Expr Stmt) : bool :=
  negb (bool_decide (is_Some (sc_args self))) && bool_decide (length (sc_mixins self) = 0%nat) &&
  bool_decide (length (sc_checks self) = 0%nat) &&
  forallb (fun n => match node n with SSchemaAttr _ => true | _ => false end) (sc_body self).

Definition filter_schema_stmt_from_module (self : Module_) : list (Node (SchemaStmt Expr Stmt)) :=
  concat (map (fun n => match node n with SSchema s => [node_with_pos s (node_pos n)] | _ => [] end)
              (mo_body self)).
