(* ===== verification/AstPos.v ===== *)
(** * Positions of nodes ([kclvm/ast/src/pos.rs])

    The span of a node as diagnostics print it, the span of schema and rule statements, and
    the search of the statement at a position. *)

From S2P Require Import Prelude MachineInt Chars Utf8 TypeData Diagnostic.
From S2P Require Ast.
Import Ast(Node, node, SchemaStmt, RuleStmt, Expr, Stmt, Module_).

Definition get_pos {A} (n : Node A) : position :=
  mkPosition (encode (Ast.filename n)) (Ast.line n) (Some (Ast.column n)).
Definition get_end_pos {A} (n : Node A) : position :=
  mkPosition (encode (Ast.filename n)) (Ast.end_line n) (Some (Ast.end_column n)).
Definition get_span_pos {A} (n : Node A) : position * position := (get_pos n, get_end_pos n).

(** [start.less_equal(pos) && pos.less_equal(end)]. *)
Definition span_contains (s : position * position) (pos : position) : bool :=
  less_equal s.1 pos && less_equal pos s.2.
Definition contains_pos {A} (n : Node A) (pos : position) : bool := span_contains (get_span_pos n) pos.

Definition schema_pos (s : SchemaStmt Expr Stmt) : position :=
  match Ast.sc_decorators s with d :: _ => get_pos d | [] => get_pos (Ast.sc_name s) end.
Definition schema_end_pos (s : SchemaStmt Expr Stmt) : position :=
  match last (Ast.sc_checks s) with
  | Some c => get_end_pos c
  | None =>
      match last (Ast.sc_body s) with
      | Some b => get_end_pos b
      | None => match last (Ast.sc_mixins s) with
                | Some m => get_end_pos m
                | None => get_end_pos (Ast.sc_name s)
                end
      end
  end.
Definition rule_pos (r : RuleStmt Expr) : position :=
  match Ast.ru_decorators r with d :: _ => get_pos d | [] => get_pos (Ast.ru_name r) end.
Definition rule_end_pos (r : RuleStmt Expr) : position :=
  match last (Ast.ru_checks r) with Some c => get_end_pos c | None => get_end_pos (Ast.ru_name r) end.

(** [Module::pos_to_stmt]. *)
Definition pos_to_stmt (m : Module_) (pos : position) : option (Node Stmt) :=
  List.find (fun s => contains_pos s pos) (Ast.mo_body m).

(** A position in a span lies in its file. *)
Lemma span_contains_file s pos : span_contains s pos = true -> TypeData.filename s.1 = TypeData.filename pos.
Proof.
  unfold span_contains, less_equal. destruct s as [a b]. cbn [fst snd]. intros [H _]%andb_true_iff.
  destruct (negb _ || negb _); [done|]. destruct (less a pos) eqn:E.
  - unfold less in E. destruct (negb _ || negb _ || negb _) eqn:E2; [done|].
    apply orb_false_iff in E2 as [_ E2%negb_false_iff%bool_decide_eq_true_1]. done.
  - unfold pos_eqb, position_eqb in H. apply andb_true_iff in H as [[H _]%andb_true_iff _].
    by apply bool_decide_eq_true_1 in H.
Qed.
