(* ===== verification/Builtins.v ===== *)
(** * Tables of builtins ([kclvm/sema/src/builtin])

    The types of the builtin functions, of the member functions of strings and of the
    decorators, and the members of the system modules. *)

From S2P Require Import Prelude MachineInt TypeData.

Definition dquote : string := String (Ascii.ascii_of_nat 34) "".

(** ** Functions *)

Definition builtin_option : ty :=
  function_of None ANY
    [mkParameter "key" STR false; mkParameter "type" STR true; mkParameter "required" BOOL true; mkParameter "default" ANY true; mkParameter "help" STR true; mkParameter "file" STR true; mkParameter "line" INT true]
    "Return the top level argument by the key"
    false (Some 1).
Definition builtin_print : ty :=
  function_of None ANY
    []
    "Prints the values to a stream, or to sys.stdout by default.
        Optional keyword arguments:
        sep:   string inserted between values, default a space.
        end:   string appended after the last value, default a newline.
        "
    true (Some 0).
Definition builtin_multiplyof : ty :=
  function_of None BOOL
    [mkParameter "a" INT false; mkParameter "b" INT false]
    "Check if the modular result of a and b is 0."
    true (Some 0).
Definition builtin_isunique : ty :=
  function_of None BOOL
    [mkParameter "inval" (list_of ANY) false]
    "Check if a list has duplicated elements"
    false None.
Definition builtin_len : ty :=
  function_of None INT
    [mkParameter "inval" iterable false]
    "Return the length of a value."
    false None.
Definition builtin_abs : ty :=
  function_of None ANY
    [mkParameter "inval" ANY false]
    "Return the absolute value of the argument."
    false None.
Definition builtin_all_true : ty :=
  function_of None BOOL
    [mkParameter "inval" (list_of ANY) false]
    "Return True if bool(x) is True for all values x in the iterable.

        If the iterable is empty, return True."
    false None.
Definition builtin_any_true : ty :=
  function_of None BOOL
    [mkParameter "inval" (list_of ANY) false]
    "Return True if bool(x) is True for any x in the iterable.

        If the iterable is empty, return False."
    false None.
Definition builtin_hex : ty :=
  function_of None STR
    [mkParameter "number" INT false]
    "Return the hexadecimal representation of an integer."
    false None.
Definition builtin_bin : ty :=
  function_of None STR
    [mkParameter "number" INT false]
    "Return the binary representation of an integer."
    false None.
Definition builtin_oct : ty :=
  function_of None STR
    [mkParameter "number" INT false]
    "Return the octal representation of an integer."
    false None.
Definition builtin_ord : ty :=
  function_of None INT
    [mkParameter "c" STR false]
    "Return the Unicode code point for a one-character string."
    false None.
Definition builtin_sorted : ty :=
  function_of None (list_of ANY)
    [mkParameter "inval" iterable false; mkParameter "reverse" BOOL true]
    "Return a new list containing all items from the iterable in ascending order.

        A custom key function can be supplied to customize the sort order, and the reverse
        flag can be set to request the result in descending order."
    false (Some 1).
Definition builtin_range : ty :=
  function_of None (list_of INT)
    [mkParameter "start" INT true; mkParameter "stop" INT true; mkParameter "step" INT true]
    "Return the range of a value."
    false None.
Definition builtin_max : ty :=
  function_of None ANY
    []
    "With a single iterable argument, return its biggest item.
        The default keyword-only argument specifies an object to return
        if the provided iterable is empty. With two or more arguments,
        return the largest argument."
    true None.
Definition builtin_min : ty :=
  function_of None ANY
    []
    "With a single iterable argument, return its smallest item.
        The default keyword-only argument specifies an object to return
        if the provided iterable is empty. With two or more arguments,
        return the smallest argument."
    true None.
Definition builtin_sum : ty :=
  function_of None ANY
    [mkParameter "iterable" (list_of ANY) false; mkParameter "start" ANY true]
    "When the iterable is empty, return the start value. This function is
        intended specifically for use with numeric values and may reject
        non-numeric types."
    false None.
Definition builtin_pow : ty :=
  function_of None number
    [mkParameter "x" number false; mkParameter "y" number false; mkParameter "z" number true]
    "Equivalent to x**y (with two arguments) or x**y % z (with three arguments)

        Some types, such as ints, are able to use a more efficient algorithm when
        invoked using the three argument form."
    false None.
Definition builtin_round : ty :=
  function_of None number
    [mkParameter "number" number false; mkParameter "ndigits" INT true]
    "Round a number to a given precision in decimal digits.

        The return value is an integer if ndigits is omitted or None.
        Otherwise the return value has the same type as the number.
        ndigits may be negative."
    false None.
Definition builtin_zip : ty :=
  function_of None (list_of ANY)
    []
    "Return a zip object whose next method returns
        a tuple where the i-th element comes from the i-th iterable
        argument."
    true None.
Definition builtin_int : ty :=
  function_of None INT
    [mkParameter "number" ANY false; mkParameter "base" INT true]
    "Convert a number or string to an integer, or return 0 if no arguments
        are given. For floating point numbers, this truncates towards zero."
    false None.
Definition builtin_float : ty :=
  function_of None FLOAT
    [mkParameter "number" ANY false]
    "Convert a string or number to a floating point number, if possible."
    false None.
Definition builtin_bool : ty :=
  function_of None ANY
    [mkParameter "x" ANY true]
    "Returns True when the argument x is true, False otherwise.
        The builtins True and False are the only two instances of the class bool.
        The class bool is a subclass of the class int, and cannot be subclassed."
    false None.
Definition builtin_str : ty :=
  function_of None ANY
    [mkParameter "x" ANY true]
    "Create a new string object from the given object.
        If encoding or errors is specified, then the object must
        expose a data buffer that will be decoded using the
        given encoding and error handler."
    false None.
Definition builtin_list : ty :=
  function_of None (list_of ANY)
    [mkParameter "x" ANY true]
    "Built-in mutable sequence.

        If no argument is given, the constructor creates a new empty list.
        The argument must be an iterable if specified."
    false None.
Definition builtin_dict : ty :=
  function_of None (dict_of ANY ANY)
    [mkParameter "x" ANY true]
    "Built-in mutable dict."
    true None.
Definition builtin_typeof : ty :=
  function_of None STR
    [mkParameter "x" ANY false; mkParameter "full_name" BOOL true]
    "Return the type of the object"
    true None.

Definition BUILTIN_FUNCTIONS : list (string * ty) :=
  [("option", builtin_option);
   ("print", builtin_print);
   ("multiplyof", builtin_multiplyof);
   ("isunique", builtin_isunique);
   ("len", builtin_len);
   ("abs", builtin_abs);
   ("all_true", builtin_all_true);
   ("any_true", builtin_any_true);
   ("hex", builtin_hex);
   ("bin", builtin_bin);
   ("oct", builtin_oct);
   ("ord", builtin_ord);
   ("sorted", builtin_sorted);
   ("range", builtin_range);
   ("max", builtin_max);
   ("min", builtin_min);
   ("sum", builtin_sum);
   ("pow", builtin_pow);
   ("round", builtin_round);
   ("zip", builtin_zip);
   ("int", builtin_int);
   ("float", builtin_float);
   ("bool", builtin_bool);
   ("str", builtin_str);
   ("list", builtin_list);
   ("dict", builtin_dict);
   ("typeof", builtin_typeof)].

(** ** Member functions of strings *)

Definition member_capitalize : ty :=
  function_of (Some STR) ANY
    []
    "Return a copy of the string with its first character capitalized and the rest lowercased."
    false None.
Definition member_count : ty :=
  function_of (Some STR) INT
    []
    "Return the number of non-overlapping occurrences of substring sub in the range [start, end]. Optional arguments start and end are interpreted as in slice notation."
    false None.
Definition member_endswith : ty :=
  function_of (Some STR) BOOL
    []
    "Return True if the string ends with the specified suffix, otherwise return False. suffix can also be a tuple of suffixes to look for. With optional start, test beginning at that position. With optional end, stop comparing at that position."
    false None.
Definition member_find : ty :=
  function_of (Some STR) INT
    []
    "Return the lowest index in the string where substring sub is found within the slice s[start:end]. Optional arguments start and end are interpreted as in slice notation. Return -1 if sub is not found."
    false None.
Definition member_format : ty :=
  function_of (Some STR) STR
    []
    "Perform a string formatting operation. The string on which this method is called can contain literal text or replacement fields delimited by braces {}. Each replacement field contains either the numeric index of a positional argument, or the name of a keyword argument. Returns a copy of the string where each replacement field is replaced with the string value of the corresponding argument."
    true None.
Definition member_index : ty :=
  function_of (Some STR) INT
    []
    "Like str.find(), but raise an error when the substring is not found."
    false None.
Definition member_isalpha : ty :=
  function_of (Some STR) BOOL
    []
    "Return True if all characters in the string are alphabetic and there is at least one character, False otherwise. Alphabetic characters are those characters defined in the Unicode character database as “Letter”, i.e., those with general category property being one of “Lm”, “Lt”, “Lu”, “Ll”, or “Lo”. Note that this is different from the “Alphabetic” property defined in the Unicode Standard."
    false None.
Definition member_isalnum : ty :=
  function_of (Some STR) BOOL
    []
    "Return True if all characters in the string are alphanumeric and there is at least one character, False otherwise. A character c is alphanumeric if one of the following returns True: c.isalpha(), c.isdecimal(), c.isdigit(), or c.isnumeric()."
    false None.
Definition member_isdigit : ty :=
  function_of (Some STR) BOOL
    []
    "Return True if all characters in the string are digits and there is at least one character, False otherwise. Digits include decimal characters and digits that need special handling, such as the compatibility superscript digits. This covers digits which cannot be used to form numbers in base 10, like the Kharosthi numbers. Formally, a digit is a character that has the property value Numeric_Type=Digit or Numeric_Type=Decimal."
    false None.
Definition member_islower : ty :=
  function_of (Some STR) BOOL
    []
    "Return True if all cased characters in the string are lowercase and there is at least one cased character, False otherwise."
    false None.
Definition member_isspace : ty :=
  function_of (Some STR) BOOL
    []
    "Return True if there are only whitespace characters in the string and there is at least one character, False otherwise."
    false None.
Definition member_istitle : ty :=
  function_of (Some STR) BOOL
    []
    "Return True if the string is a titlecased string and there is at least one character, for example uppercase characters may only follow uncased characters and lowercase characters only cased ones. Return False otherwise."
    false None.
Definition member_isupper : ty :=
  function_of (Some STR) BOOL
    []
    "Return True if all cased characters in the string are uppercase and there is at least one cased character, False otherwise."
    false None.
Definition member_join : ty :=
  function_of (Some STR) STR
    []
    "Return a string which is the concatenation of the strings in iterable. An error will be raised if there are any non-string values in iterable. The separator between elements is the string providing this method."
    true None.
Definition member_lower : ty :=
  function_of (Some STR) STR
    []
    "Return a copy of the string with all the cased characters converted to lowercase."
    true None.
Definition member_upper : ty :=
  function_of (Some STR) STR
    []
    ""
    true None.
Definition member_lstrip : ty :=
  function_of (Some STR) STR
    []
    "Return a copy of the string with leading characters removed. The chars argument is a string specifying the set of characters to be removed. If omitted or None, the chars argument defaults to removing whitespace. The chars argument is not a prefix; rather, all combinations of its values are stripped:"
    true None.
Definition member_rstrip : ty :=
  function_of (Some STR) STR
    []
    "Return a copy of the string with trailing characters removed. The chars argument is a string specifying the set of characters to be removed. If omitted or None, the chars argument defaults to removing whitespace. The chars argument is not a suffix; rather, all combinations of its values are stripped:"
    true None.
Definition member_replace : ty :=
  function_of (Some STR) STR
    []
    "Return a copy of the string with all occurrences of substring old replaced by new. If the optional argument count is given, only the first count occurrences are replaced.Return a copy of the string with all occurrences of substring old replaced by new. If the optional argument count is given, only the first count occurrences are replaced."
    true None.
Definition member_removeprefix : ty :=
  function_of (Some STR) STR
    []
    "If the string starts with the prefix string, return string[len(prefix):]. Otherwise, return a copy of the original string."
    true None.
Definition member_removesuffix : ty :=
  function_of (Some STR) STR
    []
    "If the string ends with the suffix string and that suffix is not empty, return string[:-len(suffix)]. Otherwise, return a copy of the original string."
    true None.
Definition member_rfind : ty :=
  function_of (Some STR) INT
    []
    "Return the highest index in the string where substring sub is found, such that sub is contained within s[start:end]. Optional arguments start and end are interpreted as in slice notation. Return -1 on failure."
    true None.
Definition member_rindex : ty :=
  function_of (Some STR) INT
    []
    "Like rfind() but raises ValueError when the substring sub is not found."
    true None.
Definition member_rsplit : ty :=
  function_of (Some STR) (list_of STR)
    []
    "Return a list of the words in the string, using sep as the delimiter string. If maxsplit is given, at most maxsplit splits are done, the rightmost ones. If sep is not specified or None, any whitespace string is a separator. Except for splitting from the right, rsplit() behaves like split() which is described in detail below."
    true None.
Definition member_split : ty :=
  function_of (Some STR) (list_of STR)
    []
    "Return a list of the words in the string, using sep as the delimiter string. If maxsplit is given, at most maxsplit splits are done (thus, the list will have at most maxsplit+1 elements). If maxsplit is not specified or -1, then there is no limit on the number of splits (all possible splits are made)."
    true None.
Definition member_splitlines : ty :=
  function_of (Some STR) (list_of STR)
    []
    "Return a list of the lines in the string, breaking at line boundaries. Line breaks are not included in the resulting list unless keepends is given and true."
    true None.
Definition member_startswith : ty :=
  function_of (Some STR) BOOL
    []
    "Return True if string starts with the prefix, otherwise return False. prefix can also be a tuple of prefixes to look for. With optional start, test string beginning at that position. With optional end, stop comparing string at that position."
    false None.
Definition member_strip : ty :=
  function_of (Some STR) STR
    []
    "Return a copy of the string with the leading and trailing characters removed. The chars argument is a string specifying the set of characters to be removed. If omitted or None, the chars argument defaults to removing whitespace. The chars argument is not a prefix or suffix; rather, all combinations of its values are stripped:"
    false None.
Definition member_title : ty :=
  function_of (Some STR) STR
    []
    "Return a titlecased version of the string where words start with an uppercase character and the remaining characters are lowercase."
    false None.

Definition STRING_MEMBER_FUNCTIONS : list (string * ty) :=
  [("capitalize", member_capitalize);
   ("count", member_count);
   ("endswith", member_endswith);
   ("find", member_find);
   ("format", member_format);
   ("index", member_index);
   ("isalpha", member_isalpha);
   ("isalnum", member_isalnum);
   ("isdigit", member_isdigit);
   ("islower", member_islower);
   ("isspace", member_isspace);
   ("istitle", member_istitle);
   ("isupper", member_isupper);
   ("join", member_join);
   ("lower", member_lower);
   ("upper", member_upper);
   ("lstrip", member_lstrip);
   ("rstrip", member_rstrip);
   ("replace", member_replace);
   ("removeprefix", member_removeprefix);
   ("removesuffix", member_removesuffix);
   ("rfind", member_rfind);
   ("rindex", member_rindex);
   ("rsplit", member_rsplit);
   ("split", member_split);
   ("splitlines", member_splitlines);
   ("startswith", member_startswith);
   ("strip", member_strip);
   ("title", member_title)].

(** ** Decorators *)

Definition decorator_deprecated : ty :=
  function_of None ANY
    [mkParameter "version" STR true; mkParameter "reason" STR true; mkParameter "strict" BOOL true]
    ("This decorator is used to get the deprecation message according to the wrapped key-value pair.

        Examples
        --------
        @deprecated(version=" +:+ dquote +:+ "v1.16" +:+ dquote +:+ ", reason=" +:+ dquote +:+ "The age attribute was deprecated" +:+ dquote +:+ ", strict=True)
        schema Person:
            name: str
            age: int
        ")
    false None.
Definition decorator_info : ty :=
  function_of None ANY
    []
    ("Info decorator is used to mark some compile-time information for external API queries

        Examples
        --------
        @info(message=" +:+ dquote +:+ "User message" +:+ dquote +:+ ")
        schema Person:
            name: str
            age: int
        ")
    true (Some 0).

Definition BUILTIN_DECORATORS : list (string * ty) :=
  [("deprecated", decorator_deprecated);
   ("info", decorator_info)].

(** ** System modules *)

Definition BASE64_MODULE : string := "base64".
Definition BASE64_FUNCTION_NAMES : list string :=
  ["encode"; "decode"].
Definition NET_MODULE : string := "net".
Definition NET_FUNCTION_NAMES : list string :=
  ["split_host_port"; "join_host_port"; "fqdn"; "parse_IP"; "to_IP4"; "to_IP16"; "IP_string"; "is_IPv4"; "is_IP"; "is_loopback_IP"; "is_multicast_IP"; "is_interface_local_multicast_IP"; "is_link_local_multicast_IP"; "is_link_local_unicast_IP"; "is_global_unicast_IP"; "is_unspecified_IP"].
Definition MANIFESTS_MODULE : string := "manifests".
Definition MANIFESTS_FUNCTION_NAMES : list string :=
  ["yaml_stream"].
Definition MATH_MODULE : string := "math".
Definition MATH_FUNCTION_NAMES : list string :=
  ["ceil"; "factorial"; "floor"; "gcd"; "isfinite"; "isinf"; "isnan"; "modf"; "exp"; "expm1"; "log"; "log1p"; "log2"; "log10"; "pow"; "sqrt"].
Definition DATETIME_MODULE : string := "datetime".
Definition DATETIME_FUNCTION_NAMES : list string :=
  ["today"; "now"; "ticks"; "date"].
Definition REGEX_MODULE : string := "regex".
Definition REGEX_FUNCTION_NAMES : list string :=
  ["replace"; "match"; "compile"; "findall"; "search"; "split"].
Definition YAML_MODULE : string := "yaml".
Definition YAML_FUNCTION_NAMES : list string :=
  ["encode"; "decode"; "dump_to_file"].
Definition JSON_MODULE : string := "json".
Definition JSON_FUNCTION_NAMES : list string :=
  ["encode"; "decode"; "dump_to_file"].
Definition CRYPTO_MODULE : string := "crypto".
Definition CRYPTO_FUNCTION_NAMES : list string :=
  ["md5"; "sha1"; "sha224"; "sha256"; "sha384"; "sha512"].
Definition TESTING_MODULE : string := "testing".
Definition TESTING_FUNCTION_NAMES : list string :=
  ["arguments"; "setting_file"].
Definition UNITS_MODULE : string := "units".
Definition UNITS_FUNCTION_NAMES : list string :=
  ["to_n"; "to_u"; "to_m"; "to_K"; "to_M"; "to_G"; "to_T"; "to_P"; "to_Ki"; "to_Mi"; "to_Gi"; "to_Ti"; "to_Pi"].
Definition UNITS_NUMBER_MULTIPLIER : string := "NumberMultiplier".
Definition UNITS_FIELD_NAMES : list string :=
  ["n"; "u"; "m"; "k"; "K"; "M"; "G"; "T"; "P"; "Ki"; "Mi"; "Gi"; "Ti"; "Pi"; UNITS_NUMBER_MULTIPLIER].
Definition COLLECTION_MODULE : string := "collection".
Definition COLLECTION_FUNCTION_NAMES : list string :=
  ["union_all"].
Definition STANDARD_SYSTEM_MODULES : list string :=
  [COLLECTION_MODULE; NET_MODULE; MANIFESTS_MODULE; MATH_MODULE; DATETIME_MODULE; REGEX_MODULE; YAML_MODULE; JSON_MODULE; CRYPTO_MODULE; BASE64_MODULE; TESTING_MODULE; UNITS_MODULE].
Definition STANDARD_SYSTEM_MODULE_NAMES_WITH_AT : list string :=
  ["@collection"; "@net"; "@manifests"; "@math"; "@datetime"; "@regex"; "@yaml"; "@json"; "@crypto"; "@base64"; "@testing"; "@units"].

Definition get_system_module_members (name : string) : outcome (list string) :=
  if string_eqb name BASE64_MODULE then Ok BASE64_FUNCTION_NAMES
  else if string_eqb name NET_MODULE then Ok NET_FUNCTION_NAMES
  else if string_eqb name MANIFESTS_MODULE then Ok MANIFESTS_FUNCTION_NAMES
  else if string_eqb name MATH_MODULE then Ok MATH_FUNCTION_NAMES
  else if string_eqb name DATETIME_MODULE then Ok DATETIME_FUNCTION_NAMES
  else if string_eqb name REGEX_MODULE then Ok REGEX_FUNCTION_NAMES
  else if string_eqb name YAML_MODULE then Ok YAML_FUNCTION_NAMES
  else if string_eqb name JSON_MODULE then Ok JSON_FUNCTION_NAMES
  else if string_eqb name CRYPTO_MODULE then Ok CRYPTO_FUNCTION_NAMES
  else if string_eqb name TESTING_MODULE then Ok TESTING_FUNCTION_NAMES
  else if string_eqb name UNITS_MODULE then Ok (UNITS_FUNCTION_NAMES ++ UNITS_FIELD_NAMES)
  else if string_eqb name COLLECTION_MODULE then Ok COLLECTION_FUNCTION_NAMES
  else
  Panic ("invalid system module name '" +:+ name +:+ "'").

(** The standard modules have members: the lookup of one never fails. *)
Lemma standard_modules_have_members :
  Forall (fun m => is_ok (get_system_module_members m)) STANDARD_SYSTEM_MODULES.
Proof. repeat constructor; eexists; reflexivity. Qed.

(** A name stands for one builtin. *)
Lemma builtin_names_distinct :
  NoDup (BUILTIN_FUNCTIONS.*1) /\ NoDup (STRING_MEMBER_FUNCTIONS.*1) /\ NoDup (BUILTIN_DECORATORS.*1).
Proof. split_and!; by apply (bool_decide_unpack _); vm_compute. Qed.
