(* ===== verification/Scope.v ===== *)
(** * Scopes of the resolver ([kclvm/sema/src/resolver/scope.rs])

    Scopes are shared cells that point to their parent and their children; here they live in
    an arena, and a pointer is an index.  An object is owned by its scope, so that it is
    stored in it. *)

From S2P Require Import Prelude MachineInt State Chars Utf8 TypeData Diagnostic.
From S2P Require Ast.
Import Ast(Node, node, Expr, Stmt).
From S2P Require Import Builtins AstPos.

(** ** Data *)

Inductive ScopeObjectKind := Variable_ | Attribute | Definition_ | Parameter_ | TypeAlias | Module_.

Record ScopeObject := mkScopeObject {
  so_name : string; so_start : position; so_end : position; so_ty : ty; so_kind : ScopeObjectKind;
  used : bool; so_doc : option string }.

Inductive ScopeKind :=
| SkPackage (files : list string)
| SkBuiltin
| SkSchema (name : string)
| SkLoop
| SkCondStmt
| SkLambda
| SkConfig.

Record Scope := mkScope {
  sc_parent : option nat; sc_children : list nat; sc_elems : list (string * ScopeObject);
  sc_start : position; sc_end : position; sc_kind : ScopeKind }.

Notation arena := (list Scope).

Definition pos_is_valid (o : ScopeObject) : bool :=
  Diagnostic.pos_is_valid (so_start o) && Diagnostic.pos_is_valid (so_end o).
Definition object_contains_pos (o : ScopeObject) (pos : position) : bool :=
  span_contains (so_start o, so_end o) pos.

Definition with_ty (o : ScopeObject) (t : ty) : ScopeObject :=
  mkScopeObject (so_name o) (so_start o) (so_end o) t (so_kind o) (used o) (so_doc o).
Definition with_used (o : ScopeObject) : ScopeObject :=
  mkScopeObject (so_name o) (so_start o) (so_end o) (so_ty o) (so_kind o) true (so_doc o).
Definition with_elems (s : Scope) (e : list (string * ScopeObject)) : Scope :=
  mkScope (sc_parent s) (sc_children s) e (sc_start s) (sc_end s) (sc_kind s).
Definition with_child (s : Scope) (c : nat) : Scope :=
  mkScope (sc_parent s) (sc_children s ++ [c]) (sc_elems s) (sc_start s) (sc_end s) (sc_kind s).
Definition with_kind (s : Scope) (k : ScopeKind) : Scope :=
  mkScope (sc_parent s) (sc_children s) (sc_elems s) (sc_start s) (sc_end s) k.

Definition dangling : string := "dangling scope".

(** ** Operations

    A parent is older than its children, so that the index bounds the walk to the root. *)

Section Arena.
Context (a : arena).

Fixpoint lookup_from (fuel : nat) (i : nat) (name : string) : option (nat * ScopeObject) :=
  match fuel with
  | O => None
  | S fuel' =>
      s ← a !! i;
      match im_get name (sc_elems s) with
      | Some obj => Some (i, obj)
      | None => p ← sc_parent s; lookup_from fuel' p name
      end
  end.
(** The scope that has the name, and the object. *)
Definition lookup_obj (i : nat) (name : string) : option (nat * ScopeObject) := lookup_from (S i) i name.

Definition scope_contains_pos (s : Scope) (pos : position) : bool :=
  match sc_kind s with
  | SkPackage files => bool_decide (TypeData.filename pos ∈ files)
  | _ => span_contains (sc_start s, sc_end s) pos
  end.

Definition contains_pos_on_stmt (s : Scope) (pos : position) (stmt : Node Stmt) : bool :=
  match node stmt with
  | Ast.SSchema schema =>
      existsb (fun n => contains_pos n pos) (Ast.sc_body schema) ||
      existsb (fun n => contains_pos n pos) (Ast.sc_checks schema) ||
      bool_decide (is_Some ((fun n => contains_pos n pos) <$> Ast.sc_index_signature schema))
  | Ast.SRule rule => existsb (fun n => contains_pos n pos) (Ast.ru_checks rule)
  | _ => scope_contains_pos s pos
  end.

(** The children are younger: the age is what is left of the arena. *)
Fixpoint inner_most_from (fuel : nat) (i : nat) (pos : position) : option nat :=
  match fuel with
  | O => None
  | S fuel' =>
      s ← a !! i;
      let child := List.find (fun c => match a !! c with
                                       | Some cs => scope_contains_pos cs pos
                                       | None => false
                                       end) (sc_children s) in
      match sc_parent s with
      | None => c ← child; inner_most_from fuel' c pos
      | Some _ =>
          if scope_contains_pos s pos then
            match child with Some c => inner_most_from fuel' c pos | None => Some i end
          else None
      end
  end.
Definition inner_most (i : nat) (pos : position) : option nat := inner_most_from (length a - i) i pos.

Definition get_enclosing_scope (i : nat) : option nat := s ← a !! i; sc_parent s.

Definition search_child_scope_by_name (i : nat) (name : string) : option nat :=
  s ← a !! i;
  _ ← im_get name (sc_elems s);
  List.find (fun c => match a !! c with
                      | Some cs => match sc_kind cs with
                                   | SkSchema schema_name => string_eqb name schema_name
                                   | _ => false
                                   end
                      | None => false
                      end) (sc_children s).

Fixpoint search_obj_from (fuel : nat) (i : nat) (name : string) : list ScopeObject :=
  match fuel with
  | O => []
  | S fuel' =>
      match a !! i with
      | Some s =>
          map snd (List.filter (fun p => string_eqb p.1 name) (sc_elems s)) ++
          concat (map (fun c => search_obj_from fuel' c name) (sc_children s))
      | None => []
      end
  end.
Definition search_obj_by_name (i : nat) (name : string) : list ScopeObject :=
  search_obj_from (length a - i) i name.

(** Update a scope, and the object of a name. *)
Definition alter_scope (f : Scope -> Scope) (i : nat) : arena := alter f i a.
Definition insert_elem (i : nat) (name : string) (obj : ScopeObject) : arena :=
  alter_scope (fun s => with_elems s (im_insert name obj (sc_elems s))) i.
Definition set_ty (i : nat) (name : string) (t : ty) : arena * bool :=
  match a !! i with
  | Some s => match im_get name (sc_elems s) with
              | Some obj => (insert_elem i name (with_ty obj t), true)
              | None => (a, false)
              end
  | None => (a, false)
  end.
End Arena.

Definition builtin_object (name : string) (t : ty) : ScopeObject :=
  mkScopeObject name dummy_pos dummy_pos t Definition_ false None.
Definition builtin_scope : Scope :=
  mkScope None [] (map (fun p => (p.1, builtin_object p.1 p.2)) BUILTIN_FUNCTIONS) dummy_pos dummy_pos SkBuiltin.

(** ** The shape of the arena *)

(** Parents are older, children younger, and each knows the other. *)
Record scope_ok (a : arena) (i : nat) (s : Scope) : Prop := {
  parent_older : forall p, sc_parent s = Some p -> (p < i)%nat /\ exists ps, a !! p = Some ps;
  children_younger : forall c, c ∈ sc_children s -> (i < c)%nat /\ exists cs, a !! c = Some cs /\ sc_parent cs = Some i
}.
Definition arena_ok (a : arena) : Prop := forall i s, a !! i = Some s -> scope_ok a i s.

(** The chain of scopes from one to the root. *)
Inductive chain (a : arena) : nat -> list nat -> Prop :=
| chain_root i s : a !! i = Some s -> sc_parent s = None -> chain a i [i]
| chain_step i s p l : a !! i = Some s -> sc_parent s = Some p -> chain a p l -> chain a i (i :: l).

Lemma chain_total a i : arena_ok a -> is_Some (a !! i) -> exists l, chain a i l.
Proof.
  intros Ha. induction (lt_wf i) as [i _ IH]. intros [s Hs].
  destruct (sc_parent s) as [p|] eqn:Hp; [|eexists; by econstructor].
  destruct (parent_older _ _ _ (Ha i s Hs) p Hp) as [Hlt [ps Hps]].
  destruct (IH p Hlt ltac:(by eexists)) as [l Hl]. eexists. by eapply chain_step.
Qed.

Definition has_name (a : arena) (name : string) (i : nat) : Prop :=
  exists s obj, a !! i = Some s /\ im_get name (sc_elems s) = Some obj.

(** C35: A lookup finds the nearest enclosing scope with the name, if there is one. *)
Theorem lookup_nearest a i name l :
  arena_ok a -> chain a i l ->
  match lookup_obj a i name with
  | Some (j, obj) => exists l1 l2 s, l = l1 ++ j :: l2 /\ Forall (fun k => ~ has_name a name k) l1 /\
                     a !! j = Some s /\ im_get name (sc_elems s) = Some obj
  | None => Forall (fun k => ~ has_name a name k) l
  end.
Proof.
  intros Ha Hc. unfold lookup_obj.
  enough (Hgen : forall fuel, (i < fuel)%nat ->
    match lookup_from a fuel i name with
    | Some (j, obj) => exists l1 l2 s, l = l1 ++ j :: l2 /\ Forall (fun k => ~ has_name a name k) l1 /\
                       a !! j = Some s /\ im_get name (sc_elems s) = Some obj
    | None => Forall (fun k => ~ has_name a name k) l
    end) by (apply Hgen; lia).
  induction Hc as [i s Hs Hp|i s p l Hs Hp Hc IH]; intros fuel Hf; destruct fuel as [|fuel]; try lia;
    cbn [lookup_from]; rewrite Hs; cbn [mbind option_bind];
    destruct (im_get name (sc_elems s)) as [obj|] eqn:E.
  - exists [], [], s. auto.
  - rewrite Hp. cbn. constructor; [|constructor]. intros (s' & o & Hs' & Ho). congruence.
  - exists [], l, s. auto.
  - rewrite Hp. cbn. destruct (parent_older _ _ _ (Ha i s Hs) p Hp) as [Hlt _].
    assert (Hne : ~ has_name a name i) by (intros (s' & o & Hs' & Ho); congruence).
    specialize (IH fuel ltac:(lia)). destruct (lookup_from a fuel p name) as [[j obj]|]; [|by constructor].
    destruct IH as (l1 & l2 & sj & -> & Hl1 & Hsj & Ho). exists (i :: l1), l2, sj.
    split; [done|]. split; [by constructor|]. done.
Qed.

(** The innermost scope contains the position, and no child of it does. *)
Lemma inner_most_spec a i pos j :
  arena_ok a -> inner_most a i pos = Some j ->
  exists s, a !! j = Some s /\ scope_contains_pos s pos = true /\
  Forall (fun c => forall cs, a !! c = Some cs -> scope_contains_pos cs pos = false) (sc_children s).
Proof.
  intros Ha. unfold inner_most. generalize (length a - i)%nat. intros fuel. revert i.
  induction fuel as [|fuel IH]; intros i; [done|]. cbn [inner_most_from].
  destruct (a !! i) as [s|] eqn:Hs; [|done]. cbn [mbind option_bind].
  destruct (List.find _ (sc_children s)) as [c|] eqn:Hf; destruct (sc_parent s) as [p|] eqn:Hp; try done.
  - destruct (scope_contains_pos s pos); [|done]. apply IH.
  - cbn. apply IH.
  - destruct (scope_contains_pos s pos) eqn:E; [|done]. intros [= <-]. exists s. split_and!; [done|done|].
    apply list.Forall_forall. intros c Hc cs Hcs.
    pose proof (find_none _ _ Hf c (proj1 (list_elem_of_In _ _) Hc)) as Hn. cbn in Hn. by rewrite Hcs in Hn.
Qed.

(** ** Opening a scope and changing names keep the shape *)

Lemma alter_lookup_inv {f} {a : arena} {i j s} : alter f i a !! j = Some s ->
  exists s', a !! j = Some s' /\ s = (if decide (j = i) then f s' else s').
Proof.
  destruct (decide (j = i)) as [->|Hne].
  - rewrite list_lookup_alter_eq. destruct (a !! i); [|done]. intros [= <-]. eauto.
  - rewrite list_lookup_alter_ne by done. eauto.
Qed.

(** A change that keeps parents and children. *)
Lemma arena_ok_alter a f i :
  (forall s, sc_parent (f s) = sc_parent s /\ sc_children (f s) = sc_children s) ->
  arena_ok a -> arena_ok (alter f i a).
Proof.
  intros Hf Ha j s (s' & Hs' & ->)%alter_lookup_inv. specialize (Ha j s' Hs') as [H1 H2].
  assert (Hex : forall k ks, a !! k = Some ks -> exists ks', alter f i a !! k = Some ks' /\ sc_parent ks' = sc_parent ks).
  { intros k ks Hk. destruct (decide (k = i)) as [->|Hne].
    - rewrite list_lookup_alter_eq, Hk. cbn. eexists. split; [done|]. apply Hf.
    - rewrite list_lookup_alter_ne by done. eauto. }
  assert (Hp : sc_parent (if decide (j = i) then f s' else s') = sc_parent s') by (case_decide; [apply Hf|done]).
  assert (Hc : sc_children (if decide (j = i) then f s' else s') = sc_children s') by (case_decide; [apply Hf|done]).
  split.
  - rewrite Hp. intros p E. destruct (H1 p E) as [Hlt [ps Hps]]. split; [done|].
    destruct (Hex p ps Hps) as (ps' & ? & _). eauto.
  - rewrite Hc. intros c Hin. destruct (H2 c Hin) as [Hlt (cs & Hcs & Ecs)]. split; [done|].
    destruct (Hex c cs Hcs) as (cs' & ? & ?). exists cs'. split; [done|congruence].
Qed.

Lemma insert_elem_ok a i name obj : arena_ok a -> arena_ok (insert_elem a i name obj).
Proof. by apply arena_ok_alter. Qed.

(** [enter_scope] on the arena: the new scope is the youngest child of the current one. *)
Definition push_scope (a : arena) (i : nat) (s : Scope) : arena := alter (fun p => with_child p (length a)) i a ++ [s].

Lemma push_scope_ok a i s :
  arena_ok a -> is_Some (a !! i) -> sc_parent s = Some i -> sc_children s = [] -> arena_ok (push_scope a i s).
Proof.
  intros Ha [si Hi] Hp Hc j t Hj. unfold push_scope in *.
  assert (Hlen : length (alter (fun p => with_child p (length a)) i a) = length a) by apply length_alter.
  pose proof (lookup_lt_Some _ _ _ Hi) as Hilt.
  assert (Hex : forall k ks, a !! k = Some ks -> exists ks',
    (alter (fun p => with_child p (length a)) i a ++ [s]) !! k = Some ks' /\ sc_parent ks' = sc_parent ks).
  { intros k ks Hk. pose proof (lookup_lt_Some _ _ _ Hk). rewrite lookup_app_l by lia.
    destruct (decide (k = i)) as [->|Hne].
    - rewrite list_lookup_alter_eq, Hk. cbn. eauto.
    - rewrite list_lookup_alter_ne by done. eauto. }
  apply lookup_app_Some in Hj as [Hj|[Hge Hj]].
  - apply alter_lookup_inv in Hj as (t' & Ht' & ->). specialize (Ha j t' Ht') as [H1 H2].
    pose proof (lookup_lt_Some _ _ _ Ht') as Hjlt. split.
    + intros p E. destruct (H1 p ltac:(by case_decide)) as [Hlt [ps Hps]]. split; [done|].
      destruct (Hex p ps Hps) as (ps' & ? & _). eauto.
    + intros c Hin. assert (Hcase : c ∈ sc_children t' \/ (j = i /\ c = length a)).
      { case_decide; [|by left]. cbn in Hin. apply elem_of_app in Hin as [Hin|E%list_elem_of_singleton]; auto. }
      destruct Hcase as [Hin'|[-> ->]].
      * destruct (H2 c Hin') as [Hlt (cs & Hcs & Ecs)]. split; [done|].
        destruct (Hex c cs Hcs) as (cs' & ? & ?). exists cs'. split; [done|congruence].
      * split; [done|]. exists s. split; [|done]. rewrite lookup_app_r by lia. by rewrite Hlen, Nat.sub_diag.
  - rewrite Hlen in Hge, Hj. destruct (j - length a)%nat as [|k] eqn:Ej; [|by destruct k]. injection Hj as <-.
    split.
    + intros p E. rewrite Hp in E. injection E as <-. split; [lia|].
      destruct (Hex i si Hi) as (si' & ? & _). eauto.
    + intros c. rewrite Hc. set_solver.
Qed.

(** ** A loop in a schema *)

(** The scope of a schema with one name, and that of a loop in it. *)
Definition nested : arena :=
  push_scope (push_scope [builtin_scope] 0 (mkScope (Some 0%nat) []
      [("x", mkScopeObject "x" dummy_pos dummy_pos INT Attribute false None)] dummy_pos dummy_pos (SkSchema "S")))
    1 (mkScope (Some 1%nat) [] [] dummy_pos dummy_pos SkLoop).

Lemma nested_ok : arena_ok nested.
Proof.
  unfold nested. repeat (apply push_scope_ok; [|by eexists|done|done]).
  intros i s. destruct i as [|i]; [|by destruct i]. intros [= <-]. split; [done|]. set_solver.
Qed.

Lemma nested_chain : chain nested 2 [2; 1; 0]%nat.
Proof.
  eapply chain_step; [reflexivity|reflexivity|]. eapply chain_step; [reflexivity|reflexivity|].
  by eapply chain_root.
Qed.

Lemma lookup_nearest_witness :
  arena_ok nested /\ chain nested 2 [2; 1; 0]%nat /\
  match lookup_obj nested 2 "x" with
  | Some (j, obj) => exists l1 l2 s, [2; 1; 0]%nat = l1 ++ j :: l2 /\ Forall (fun k => ~ has_name nested "x" k) l1 /\
                     nested !! j = Some s /\ im_get "x" (sc_elems s) = Some obj
  | None => Forall (fun k => ~ has_name nested "x" k) [2; 1; 0]%nat
  end.
Proof.
  split; [exact nested_ok|]. split; [exact nested_chain|].
  exact (lookup_nearest nested 2 "x" _ nested_ok nested_chain).
Defined.
