(* ===== verification/DocString.v ===== *)
(** * Documentation strings ([kclvm/sema/src/resolver/doc.rs])

    The summary of a schema and the descriptions of its attributes, read from its
    documentation string line by line. *)

From S2P Require Import Prelude MachineInt State Chars.

(** The pattern [(?s)^q{3}(.*?)q{3}$] for a first character [q]: [Regex::new], which refuses
    it for some [q], and the first group of the captures. *)
Class DocRegex := { triple_quoted : char -> outcome (text -> option text) }.

(** [char::is_whitespace]. *)
Definition is_whitespace (c : char) : bool :=
  in_range 9 c 13 || in_range 8192 c 8202 ||
  bool_decide (c ∈ [32; 133; 160; 5760; 8232; 8233; 8239; 8287; 12288]).

Fixpoint trim_start (s : text) : text :=
  match s with c :: s' => if is_whitespace c then trim_start s' else s | [] => [] end.
Definition trim (s : text) : text := rev (trim_start (rev (trim_start s))).
Definition is_blank (s : text) : bool := match trim s with [] => true | _ => false end.

(** [split('\n')], [join]. *)
Fixpoint split_lines (s : text) (line : text) : list text :=
  match s with
  | [] => [line]
  | c :: s' => if c =? 10 then line :: split_lines s' [] else split_lines s' (line ++ [c])
  end.
Definition lines_of (s : text) : list text := split_lines s [].
Fixpoint join_with (sep : text) (l : list text) : text :=
  match l with
  | [] => []
  | [t] => t
  | t :: l' => t ++ sep ++ join_with sep l'
  end.

Definition strip_quotes `{DocRegex} (original : text) : outcome text :=
  match original with
  | quote :: _ => captures ← triple_quoted quote; Ok (default original (captures original))
  | [] => Panic "called `Option::unwrap()` on a `None` value"
  end.

Definition expand_tabs (s : text) (spaces_per_tab : nat) : text :=
  flat_map (fun c => if c =? 9 then replicate spaces_per_tab 32 else [c]) s.

(** Leading white space is counted in characters and removed in bytes, on the blank lines
    too. *)
Definition leading_blanks (line : text) : nat := (length line - length (trim_start line))%nat.
Definition minimum (l : list nat) : nat :=
  match l with [] => O | n :: l => foldr Nat.min n l end.
Definition unindent (margin : nat) (line : text) : outcome text :=
  match line with [] => Ok [] | _ => drop_bytes (Z.of_nat margin) line end.
Fixpoint drop_blank_lines (l : list text) : list text :=
  match l with t :: l' => if is_blank t then drop_blank_lines l' else l | [] => [] end.

Definition unindent_all (margin : nat) : list text -> outcome (list text) :=
  fix go l := match l with
              | [] => Ok []
              | t :: l' => t ← unindent margin t; l' ← go l'; Ok (t :: l')
              end.

Definition clean_doc (doc : text) : outcome text :=
  match lines_of (expand_tabs doc 4) with
  | [] => Ok []
  | first :: rest =>
      let margin := minimum (map leading_blanks (List.filter (fun l => negb (is_blank l)) rest)) in
      rest ← unindent_all margin rest;
      Ok (join_with [10] (drop_blank_lines (rev (drop_blank_lines (rev (first :: rest))))))
  end.

(** ** The reader *)

Record Reader := mkReader { rd_data : list text; rd_l : nat }.

Definition new_reader (data : text) : Reader := mkReader (lines_of data) 0.
Definition reset (r : Reader) : Reader := mkReader (rd_data r) 0.
Definition rest_of (r : Reader) : list text := drop (rd_l r) (rd_data r).
Definition eof (r : Reader) : bool := (length (rd_data r) <=? rd_l r)%nat.
Definition advance (n : nat) (r : Reader) : Reader := mkReader (rd_data r) (rd_l r + n).

Definition read_line (r : Reader) : text * Reader :=
  match rest_of r with line :: _ => (line, advance 1 r) | [] => ([], r) end.

Fixpoint count_blank (l : list text) : nat :=
  match l with t :: l' => if is_blank t then S (count_blank l') else O | [] => O end.
Definition seek_next_non_empty_line (r : Reader) : Reader := advance (count_blank (rest_of r)) r.

(** The lines before the first that satisfies the condition, or to the end. *)
Fixpoint until (condition_func : text -> bool) (l : list text) : list text :=
  match l with t :: l' => if condition_func t then [] else t :: until condition_func l' | [] => [] end.
Definition read_to_condition (condition_func : text -> bool) (r : Reader) : list text * Reader :=
  let ls := until condition_func (rest_of r) in (ls, advance (length ls) r).

Definition read_to_next_empty_line (r : Reader) : list text * Reader :=
  read_to_condition is_blank (seek_next_non_empty_line r).
Definition is_unindented (line : text) : bool :=
  negb (is_blank line) && bool_decide (length (trim_start line) = length line).
Definition read_to_next_unindented_line (r : Reader) : list text * Reader :=
  read_to_condition is_unindented r.

Definition peek (n : nat) (positive : bool) (r : Reader) : text :=
  if positive then default [] (rd_data r !! (rd_l r + n)%nat)
  else if (n <=? rd_l r)%nat then default [] (rd_data r !! (rd_l r - n)%nat) else [].

(** [l2.starts_with(&"-".repeat(l1.len()))]; the test before it in the source compares a
    length with itself. *)
Definition is_at_section (r : Reader) : bool * Reader :=
  let r := seek_next_non_empty_line r in
  if eof r then (false, r)
  else
    let l1 := trim (peek 0 true r) in
    let l2 := trim (peek 1 true r) in
    let n := Z.to_nat (str_len l1) in
    let starts_with (p : text) := bool_decide (take n l2 = p) in
    (starts_with (replicate n (ch "-")) || starts_with (replicate n (ch "=")), r).

Fixpoint section_loop (fuel : nat) (section : list text) (r : Reader) : outcome (list text * Reader) :=
  let '(at_section, r) := is_at_section r in
  if (at_section : bool) || eof r then Ok (section, r)
  else match fuel with
  | O => Panic "out of fuel"
  | S fuel' =>
      let before := peek 1 false r in
      let section := if is_blank before then section ++ [before] else section in
      let '(ls, r) := read_to_next_empty_line r in
      section_loop fuel' (section ++ ls) r
  end.
Definition read_to_next_section (r : Reader) : outcome (list text * Reader) :=
  let '(section, r) := read_to_next_empty_line r in
  section_loop (length (rd_data r)) section r.

(** ** The documentation *)

Record Attribute := mkAttribute { at_name : text; at_desc : list text }.
Record Doc := mkDoc { summary : text; doc_attrs : list Attribute }.

(** [header.contains(" : ")], and the part before it. *)
Fixpoint before_colon (s : text) (name : text) : option text :=
  match s with
  | [] => None
  | c :: s' => if bool_decide (take 3 s = txt " : ") then Some name else before_colon s' (name ++ [c])
  end.

Fixpoint attr_loop (fuel : nat) (attrs : list Attribute) (r : Reader) : outcome (list Attribute) :=
  if eof r then Ok attrs
  else match fuel with
  | O => Panic "out of fuel"
  | S fuel' =>
      let '(header, r) := read_line r in
      let '(ls, r') := read_to_next_unindented_line r in
      match before_colon (trim header) [] with
      | Some arg_name => attr_loop fuel' (attrs ++ [mkAttribute arg_name (map trim ls)]) r'
      | None => attr_loop fuel' attrs r'
      end
  end.
Definition parse_attr_list (content : text) : outcome (list Attribute) :=
  let r := new_reader content in attr_loop (length (rd_data r)) [] r.

Definition parse_summary (r : Reader) : outcome (text * Reader) :=
  let '(at_section, r) := is_at_section r in
  if (at_section : bool) then Ok ([], r)
  else
    '(lines, r) ← read_to_next_section r;
    Ok (trim (join_with [32] (map trim lines)), r).

Definition parse_doc_string `{DocRegex} (ori : text) : outcome Doc :=
  match ori with
  | [] => Ok (mkDoc [] [])
  | _ =>
      ori ← strip_quotes ori;
      ori ← clean_doc ori;
      '(summary, r) ← parse_summary (reset (new_reader ori));
      '(attr_section, _) ← read_to_next_section r;
      attrs ← parse_attr_list (join_with [10] attr_section);
      Ok (mkDoc summary attrs)
  end.

(** ** Termination: every round of a loop reads a line *)

Lemma eof_rest r : eof r = true <-> rest_of r = [].
Proof.
  unfold eof, rest_of. rewrite Nat.leb_le. split.
  - apply drop_ge.
  - intros E. apply (f_equal length) in E. rewrite length_drop in E. cbn in E. lia.
Qed.

Lemma advance_rest n r : rest_of (advance n r) = drop n (rest_of r).
Proof. unfold rest_of, advance. cbn. by rewrite drop_drop. Qed.

Lemma seek_rest r : match rest_of (seek_next_non_empty_line r) with t :: _ => is_blank t = false | [] => True end.
Proof.
  unfold seek_next_non_empty_line. rewrite advance_rest. induction (rest_of r) as [|t l IH]; [done|].
  cbn [count_blank]. destruct (is_blank t) eqn:E; [apply IH|]. by cbn.
Qed.

Lemma seek_idem r : seek_next_non_empty_line (seek_next_non_empty_line r) = seek_next_non_empty_line r.
Proof.
  pose proof (seek_rest r) as Hs. unfold seek_next_non_empty_line at 1.
  assert (count_blank (rest_of (seek_next_non_empty_line r)) = O) as ->.
  { destruct (rest_of _) as [|t l]; [done|]. cbn. by rewrite Hs. }
  destruct (seek_next_non_empty_line r) as [d l]. unfold advance. cbn. by rewrite Nat.add_0_r.
Qed.

Lemma section_loop_total fuel : forall section r, (length (rest_of r) <= fuel)%nat -> is_ok (section_loop fuel section r).
Proof.
  induction fuel as [|fuel IH]; intros section r Hf; cbn [section_loop]; unfold is_at_section.
  all: set (r1 := seek_next_non_empty_line r).
  all: assert (Hr1 : (length (rest_of r1) <= length (rest_of r))%nat)
    by (unfold r1, seek_next_non_empty_line; rewrite advance_rest, length_drop; lia).
  all: destruct (eof r1) eqn:E.
  - rewrite E. by eexists.
  - exfalso. assert (eof r1 = true) by (apply eof_rest; destruct (rest_of r1); [done|cbn in Hr1, Hf; lia]). congruence.
  - rewrite E, orb_true_r. by eexists.
  - destruct (_ || _ || _); [by eexists|]. unfold read_to_next_empty_line, read_to_condition. apply IH.
    rewrite advance_rest, length_drop. unfold r1. rewrite seek_idem. fold r1.
    pose proof (seek_rest r) as Hs. fold r1 in Hs.
    destruct (rest_of r1) as [|t l] eqn:El; [apply eof_rest in El; congruence|]. cbn [until]. rewrite Hs. cbn [length] in *. lia.
Qed.

Lemma read_to_next_section_total r : is_ok (read_to_next_section r).
Proof.
  unfold read_to_next_section, read_to_next_empty_line, read_to_condition. apply section_loop_total.
  unfold rest_of, advance. cbn. rewrite length_drop. lia.
Qed.

Lemma attr_loop_total fuel : forall attrs r, (length (rest_of r) <= fuel)%nat -> is_ok (attr_loop fuel attrs r).
Proof.
  induction fuel as [|fuel IH]; intros attrs r Hf; cbn [attr_loop].
  all: destruct (eof r) eqn:E; [by eexists|].
  { exfalso. assert (eof r = true) by (apply eof_rest; by destruct (rest_of r); [|cbn in Hf; lia]). congruence. }
  unfold read_line. destruct (rest_of r) as [|t l] eqn:El; [apply eof_rest in El; congruence|].
  unfold read_to_next_unindented_line, read_to_condition.
  assert (Hr : forall n, (length (rest_of (advance n (advance 1 r))) <= fuel)%nat).
  { intros n. rewrite !advance_rest, El, !length_drop. cbn in *. lia. }
  destruct (before_colon _ _); apply IH, Hr.
Qed.

(** C36: reading a documentation string ends, and fails at most where its first character is
    made a pattern or where the common indentation is cut off a line. *)
Theorem parse_doc_string_total `{DocRegex} ori : ori <> [] ->
  (exists doc, parse_doc_string ori = Ok doc) \/
  (exists e, parse_doc_string ori = Panic e /\
     (strip_quotes ori = Panic e \/ exists body, strip_quotes ori = Ok body /\ clean_doc body = Panic e)).
Proof.
  intros Hne. unfold parse_doc_string. destruct ori as [|q ori]; [done|].
  destruct (strip_quotes _) as [body|e]; [|right; exists e; by split; [|left]].
  cbn [mbind outcome_bind]. destruct (clean_doc body) as [s|e] eqn:Ec;
    [left|right; exists e; split; [done|right; by exists body]].
  cbn [mbind outcome_bind]. unfold parse_summary. destruct (is_at_section _) as [b r].
  assert (Hfin : forall (summary : text) r, exists doc,
    ('(attr_section, _) ← read_to_next_section r;
     attrs ← parse_attr_list (join_with [10] attr_section); Ok (mkDoc summary attrs)) = Ok doc).
  { intros sm r'. destruct (read_to_next_section_total r') as [[ls r''] ->]. cbn [mbind outcome_bind].
    destruct (attr_loop_total (length (rd_data (new_reader (join_with [10] ls)))) []
      (new_reader (join_with [10] ls))) as [attrs Ea]; [unfold rest_of; rewrite length_drop; lia|].
    unfold parse_attr_list. cbv zeta. rewrite Ea. by eexists. }
  destruct b; [apply Hfin|]. destruct (read_to_next_section_total r) as [[ls r'] ->]. apply Hfin.
Qed.

#[local] Instance no_quotes : DocRegex := {| triple_quoted _ := Ok (fun _ => None) |}.

Lemma parse_doc_string_total_witness :
  txt "Server" <> [] /\
  ((exists doc, parse_doc_string (txt "Server") = Ok doc) \/
   (exists e, parse_doc_string (txt "Server") = Panic e /\
     (strip_quotes (txt "Server") = Panic e \/
      exists body, strip_quotes (txt "Server") = Ok body /\ clean_doc body = Panic e))).
Proof. split; [done|]. by apply (parse_doc_string_total (txt "Server")). Defined.

(** ** Lines *)

(** Without a line feed and a tab. *)
Definition plain (s : text) : bool := forallb (fun c => negb (c =? 10) && negb (c =? 9)) s.

Lemma plain_cons c s : plain (c :: s) = true -> (c =? 10) = false /\ (c =? 9) = false /\ plain s = true.
Proof. unfold plain. cbn. intros [[?%negb_true_iff ?%negb_true_iff]%andb_true_iff ?]%andb_true_iff. done. Qed.

Lemma expand_plain s : plain s = true -> expand_tabs s 4 = s.
Proof.
  induction s as [|c s IH]; [done|]. intros (_ & Hc & Hs)%plain_cons. cbn [expand_tabs flat_map].
  rewrite Hc. cbn. f_equal. by apply IH.
Qed.

Lemma expand_line a r : plain a = true -> expand_tabs (a ++ 10 :: r) 4 = a ++ 10 :: expand_tabs r 4.
Proof.
  intros E%expand_plain. unfold expand_tabs in *. rewrite flat_map_app.
  transitivity (expand_tabs a 4 ++ 10 :: expand_tabs r 4); [done|]. unfold expand_tabs at 1. by f_equal.
Qed.

Lemma split_lines_plain a : plain a = true -> forall acc,
  split_lines a acc = [acc ++ a] /\ forall r, split_lines (a ++ 10 :: r) acc = (acc ++ a) :: lines_of r.
Proof.
  induction a as [|c a IH]; intros Ha acc; [by rewrite app_nil_r|]. apply plain_cons in Ha as (Hc & _ & Ha).
  cbn [app split_lines]. rewrite Hc. destruct (IH Ha (acc ++ [c])) as [I1 I2].
  rewrite <- app_assoc in I1. split; [done|]. intros r. rewrite I2. by rewrite <- app_assoc.
Qed.

Lemma lines_of_three a b c : plain a = true -> plain b = true -> plain c = true ->
  lines_of (expand_tabs (a ++ 10 :: b ++ 10 :: c) 4) = [a; b; c].
Proof.
  intros Ha Hb Hc. rewrite (expand_line a), (expand_line b), (expand_plain c) by done. unfold lines_of at 1.
  rewrite (proj2 (split_lines_plain a Ha [])). cbn [app]. unfold lines_of at 1.
  rewrite (proj2 (split_lines_plain b Hb [])). unfold lines_of. by rewrite (proj1 (split_lines_plain c Hc [])).
Qed.

Lemma plain_blanks k : plain (replicate k 32) = true.
Proof. by induction k. Qed.

Lemma trim_blanks k b : trim_start (replicate k 32 ++ b) = trim_start b.
Proof. by induction k. Qed.

Lemma trim_start_length b : (length (trim_start b) <= length b)%nat.
Proof. induction b as [|c b IH]; cbn; [lia|]. case_match; cbn; lia. Qed.

Lemma drop_blanks k : forall j, (k < j)%nat ->
  drop_bytes (Z.of_nat j) (replicate k 32) = Panic "byte index out of bounds".
Proof.
  induction k as [|k IH]; intros j Hj; cbn [replicate drop_bytes]; rewrite (proj2 (Z.eqb_neq _ 0)) by lia; [done|].
  change (len_utf8 32) with 1. rewrite (proj2 (Z.ltb_ge _ _)) by lia.
  replace (Z.of_nat j - 1) with (Z.of_nat (j - 1)) by lia. apply IH. lia.
Qed.

(** a line of blanks that is shorter than the indentation of the others panics. *)
Theorem short_blank_line_panics (a b : text) n m :
  plain a = true -> plain b = true -> is_blank b = false -> leading_blanks b = O -> (0 < m < n)%nat ->
  clean_doc (a ++ 10 :: replicate m 32 ++ 10 :: replicate n 32 ++ b) = Panic "byte index out of bounds".
Proof.
  intros Ha Hb Hbb Hlb Hmn. unfold clean_doc. rewrite lines_of_three;
    [|done|apply plain_blanks|unfold plain; rewrite forallb_app; by rewrite (plain_blanks n : forallb _ _ = true)].
  assert (Hbm : is_blank (replicate m 32) = true).
  { unfold is_blank, trim. rewrite <- (app_nil_r (replicate m 32)). by rewrite trim_blanks. }
  assert (Hbn : is_blank (replicate n 32 ++ b) = false) by (unfold is_blank, trim in *; by rewrite trim_blanks).
  assert (Hmar : leading_blanks (replicate n 32 ++ b) = n).
  { unfold leading_blanks in *. rewrite trim_blanks, length_app, length_replicate.
    pose proof (trim_start_length b). unfold text, char in *. lia. }
  cbn [List.filter]. rewrite Hbm, Hbn. cbn [negb map minimum foldr]. rewrite Hmar. cbn [unindent_all].
  destruct m as [|m]; [lia|]. change (replicate (S m) 32) with (32 :: replicate m 32). cbn [unindent].
  change (32 :: replicate m 32) with (replicate (S m) 32). by rewrite drop_blanks by lia.
Qed.

Lemma short_blank_line_panics_witness :
  clean_doc (txt "Server" ++ 10 :: replicate 2 32 ++ 10 :: replicate 4 32 ++ txt "port") =
  Panic "byte index out of bounds".
Proof. apply (short_blank_line_panics (txt "Server") (txt "port") 4 2); [reflexivity|reflexivity|reflexivity|reflexivity|lia]. Defined.
