(* ===== verification/Calculation.v ===== *)
(** * The types of operators ([kclvm/sema/src/resolver/calculation.rs])

    The methods of the resolver that give the type of an operator from the types of its
    operands; of the resolver they use the handler only. *)

From S2P Require Import Prelude MachineInt State Floats TypeData Unify Sup TypeContext.
From S2P Require Import Diagnostic.
From S2P Require Ast.
Import Ast(BinOp, BAdd, BSub, BMul, BDiv, BMod, BPow, BFloorDiv, BLShift, BRShift, BBitXor,
  BBitAnd, BBitOr, BAnd, BOr, BAs, UnaryOp, UAdd, USub, UInvert, UNot, CmpOp, CmpEq, CmpNotEq,
  CmpLt, CmpLtE, CmpGt, CmpGtE, CmpIs, CmpIn, CmpNotIn, CmpNot, CmpIsNot).

Notation check := (st Handler).

Definition DIV_OR_MOD_ZERO_MSG : string := "integer division or modulo by zero".

Definition unsupported (symbol : string) (left right : ty) : string :=
  "unsupported operand type(s) for " +:+ symbol +:+ ": '" +:+ ty_str left +:+ "' and '" +:+ ty_str right +:+ "'".

Definition number_binary (left right : ty) : ty :=
  if is_float left || is_float right then FLOAT else INT.

(** A division by a literal zero is reported. *)
Definition check_zero (t2 : ty) (pos : position) : check unit :=
  when (existsb (fun t => ty_eqb t t2) ZERO_LIT_TYPES) (add_type_error DIV_OR_MOD_ZERO_MSG pos).

(** The result of the table: whether the operands are supported, and the type. *)
Definition binary_table (t1 t2 : ty) (op : BinOp) (pos : position) : check (bool * ty) :=
  let no := mret (false, ANY) in
  match op with
  | BAdd =>
      if is_number t1 && is_number t2 then mret (true, number_binary t1 t2)
      else if is_str t1 && is_str t2 then mret (true, STR)
      else if is_list t1 && is_list t2 then
        x ← lift (list_item_ty t1); y ← lift (list_item_ty t2);
        s ← lift (sup [x; y]); mret (true, list_of s)
      else no
  | BSub | BPow => if is_number t1 && is_number t2 then mret (true, number_binary t1 t2) else no
  | BMul =>
      if is_number t1 && is_number t2 then mret (true, number_binary t1 t2)
      else if is_int t1 && is_mul_val_type_or_mul_val_union_type t2 then mret (true, t2)
      else if is_mul_val_type_or_mul_val_union_type t1 && is_int t2 then mret (true, t1)
      else no
  | BDiv | BFloorDiv =>
      if is_number t1 && is_number t2 then _ ← check_zero t2 pos; mret (true, number_binary t1 t2) else no
  | BMod => if is_number t1 && is_number t2 then _ ← check_zero t2 pos; mret (true, INT) else no
  | BLShift | BRShift | BBitXor | BBitAnd => if is_int t1 && is_int t2 then mret (true, INT) else no
  | BBitOr =>
      if is_int t1 && is_int t2 then mret (true, INT)
      else if is_none t1 then mret (true, t2)
      else if is_none t2 then mret (true, t1)
      else if is_list t1 && is_list t2 then
        x ← lift (list_item_ty t1); y ← lift (list_item_ty t2);
        s ← lift (sup [x; y]); mret (true, list_of s)
      else if is_dict t1 && is_dict t2 then
        '(k1, v1) ← lift (dict_entry_ty t1); '(k2, v2) ← lift (dict_entry_ty t2);
        k ← lift (sup [k1; k2]); v ← lift (sup [v1; v2]); mret (true, dict_of k v)
      else if is_schema t1 && (is_schema t2 || is_dict t2) then mret (true, t1)
      else no
  | BAnd => mret (true, BOOL)
  | BOr => s ← lift (sup [t1; t2]); mret (true, s)
  | BAs =>
      v ← lift (infer_to_variable_type t1);
      b ← lift (is_upper_bound v t2);
      _ ← when (negb b)
        (add_type_error ("Conversion of type '" +:+ ty_str t1 +:+ "' to type '" +:+ ty_str t2 +:+
           "' may be a mistake because neither type sufficiently overlaps with the other") pos);
      mret (true, t2)
  end.

Definition binary (left right : ty) (op : BinOp) (pos : position) : check ty :=
  t1 ← lift (literal_union_type_to_variable_type left);
  t2 ← lift (literal_union_type_to_variable_type right);
  if has_any_type [t1; t2] then mret ANY
  else
    '(result, return_ty) ← binary_table t1 t2 op pos;
    _ ← when (negb result) (add_type_error (unsupported (Ast.bin_symbol op) left right) pos);
    mret return_ty.

Definition unary (t : ty) (op : UnaryOp) (pos : position) : check ty :=
  if has_any_type [t] then mret ANY
  else
    var_ty ← lift (literal_union_type_to_variable_type t);
    let result := match op with
                  | UAdd | USub => is_number var_ty
                  | UInvert => is_int var_ty || is_bool var_ty
                  | UNot => true
                  end in
    if (result : bool) then mret var_ty
    else
      _ ← add_type_error ("bad operand type for unary " +:+ Ast.unary_symbol op +:+ ": '" +:+ ty_str t +:+ "'") pos;
      mret ANY.

Definition is_membership (op : CmpOp) : bool := match op with CmpIn | CmpNotIn => true | _ => false end.

Definition compare (left right : ty) (op : CmpOp) (pos : position) : check ty :=
  t1 ← lift (literal_union_type_to_variable_type left);
  t2 ← lift (literal_union_type_to_variable_type right);
  if has_any_type [t1; t2] then mret ANY
  else if is_number_type_or_number_union_type t1 && is_number_type_or_number_union_type t2
          && negb (is_membership op) then mret BOOL
  else if is_primitive_type_or_primitive_union_type t1 && is_primitive_type_or_primitive_union_type t2
          && match op with CmpEq | CmpNotEq => true | _ => false end then mret BOOL
  else if is_list t1 && is_list t2 then mret BOOL
  else if is_dict_or_schema t1 && is_dict_or_schema t2 then mret BOOL
  else if is_membership op && is_iterable t2 then mret BOOL
  else if (is_none t1 || is_none t2)
          && match op with CmpEq | CmpNotEq | CmpIs | CmpIsNot | CmpNot => true | _ => false end
       then mret BOOL
  else
    _ ← add_type_error (unsupported (Ast.cmp_symbol op) t1 t2) pos;
    mret ANY.
