(* ===== verification/Printer.v ===== *)
(** * The printer of the syntax tree ([kclvm/ast_pretty/src/{lib,node}.rs])

    A method of the printer appends to its output in the state monad; the methods on
    expressions and statements are over the meaning [expr] and [stmt] of the recursive calls,
    which [walk_expr] and [walk_stmt] tie by structural recursion.  The hooks are those of
    [NoHook], which do nothing. *)

From S2P Require Import Prelude MachineInt State Floats Chars AstToken IntLiteral Ast.

Definition WHITESPACE : text := txt " ".
Definition TAB : text := [9].
Definition NEWLINE : text := [10].
Definition COMMA_WHITESPACE : text := txt ", ".

Inductive Indentation := IIndent | IDedent | INewline | IndentWithNewline | DedentWithNewline | IFill.

Record Config := mkConfig {
  tab_len : Z; indent_len : Z; use_spaces : bool; write_comments : bool }.
Definition default_config : Config := mkConfig 4 4 true true.

(** The fields the methods use; [import_spec] is never read. *)
Record Printer := mkPrinter {
  out : text; indent : Z; cfg : Config; last_ast_line : Z; pr_comments : list (Node Comment) }.
Definition default_printer : Printer := mkPrinter [] 0 default_config 0 [].

Definition set_out (o : text) (p : Printer) : Printer :=
  mkPrinter o (indent p) (cfg p) (last_ast_line p) (pr_comments p).
Definition set_indent (i : Z) (p : Printer) : Printer :=
  mkPrinter (out p) i (cfg p) (last_ast_line p) (pr_comments p).
Definition set_last_ast_line (l : Z) (p : Printer) : Printer :=
  mkPrinter (out p) (indent p) (cfg p) l (pr_comments p).
Definition set_pr_comments (c : list (Node Comment)) (p : Printer) : Printer :=
  mkPrinter (out p) (indent p) (cfg p) (last_ast_line p) c.

Notation W := (st Printer unit).

(** The regular expression of identifiers, of the crate [fancy_regex]. *)
Class IdentifierRegex := { is_identifier : text -> bool }.

(** Statements in sequence. *)
Definition run : list W -> W :=
  fix go l := match l with [] => mret tt | [m] => m | m :: l' => m ≫= fun _ => go l' end.
Notation "{{ m ; .. ; n }}" := (run (cons m .. (cons n nil) ..)) (m at level 99, n at level 99).

Definition for_each {A} (f : A -> W) : list A -> W :=
  fix go l := match l with [] => mret tt | y :: l' => {{ f y; go l' }} end.
(** [interleave!] *)
Definition interleave {A} (inter : W) (f : A -> W) (seq : list A) : W :=
  match seq with
  | [] => mret tt
  | x :: rest => {{ f x; for_each (fun s => {{ inter; f s }}) rest }}
  end.
Definition is_nil {A} (l : list A) : bool := match l with [] => true | _ => false end.
(** Over two lists zipped together. *)
Definition for_each_zip {A B} (f : A -> B -> W) : list A -> list B -> W :=
  fix go l k {struct k} := match k, l with y :: k', x :: l' => {{ f x y; go l' k' }} | _, _ => mret tt end.
Definition interleave_zip {A B} (inter : W) (f : A -> B -> W) (seq : list A) (seq' : list B) : W :=
  match seq', seq with
  | y :: rest', x :: rest => {{ f x y; for_each_zip (fun x y => {{ inter; f x y }}) rest rest' }}
  | _, _ => mret tt
  end.
Definition if_some {A} (o : option A) (f : A -> W) : W :=
  match o with Some a => f a | None => mret tt end.

Section Printer.
Context `{DebugTables, IdentifierRegex}.

(** ** Writing *)

Definition write_string (string : text) : W := modify (fun p => set_out (out p ++ string) p).
Definition write : text -> W := write_string.
Definition write_space : W := write_string WHITESPACE.
Definition write_newline_without_fill : W := write_string NEWLINE.
Definition write_token (tok : TokenKind) : W := write_string (txt (token_kind_string tok)).

(** [str::repeat] of a string of one byte. *)
Definition repeat_str (s : text) (n : Z) : outcome text :=
  if n <=? isize_max then Ok (concat (repeat s (Z.to_nat n))) else Panic "capacity overflow".
(** A [usize] that overflows panics, as in the debug build. *)
Definition arith_usize (op : string) (z : Z) : outcome Z :=
  if (0 <=? z) && (z <=? usize_max) then Ok z
  else Panic ("attempt to " +:+ op +:+ " with overflow").

Definition fill (t : text) : W :=
  cfg ← gets cfg;
  indent ← gets indent;
  if use_spaces cfg then
    n ← lift (arith_usize "multiply" (indent * indent_len cfg));
    s ← lift (repeat_str WHITESPACE n);
    write (s ++ t)
  else
    s ← lift (repeat_str TAB indent);
    write (s ++ t).

Definition writeln (t : text) : W := {{ write_string t; write_string NEWLINE; fill [] }}.
Definition write_newline : W := writeln [].

Definition enter : W :=
  i ← gets indent; i ← lift (arith_usize "add" (i + 1)); modify (set_indent i).
Definition leave : W :=
  i ← gets indent; i ← lift (arith_usize "subtract" (i - 1)); modify (set_indent i).

Definition write_indentation (i : Indentation) : W :=
  match i with
  | IIndent => enter
  | IDedent => leave
  | INewline => write_newline
  | IndentWithNewline => {{ enter; write_newline }}
  | DedentWithNewline => {{ leave; write_newline }}
  | IFill => fill []
  end.

(** ** Comments *)

(** How many comments are at or before the line: the loop stops at the first after it. *)
Fixpoint comments_upto (l : Z) (comments : list (Node Comment)) : nat :=
  match comments with
  | c :: comments' => if line c <=? l then S (comments_upto l comments') else O
  | [] => O
  end.

Definition has_comments_on_node {T} (p : Printer) (n : Node T) : bool :=
  write_comments (cfg p) && negb (comments_upto (line n) (pr_comments p) =? 0)%nat.

(** [pop_front], [count] times. *)
Fixpoint pop_comments (count : nat) : W :=
  match count with
  | O => mret tt
  | S count' =>
      comments ← gets pr_comments;
      match comments with
      | comment :: rest =>
          {{ modify (set_pr_comments rest); writeln (comment_text (node comment)); pop_comments count' }}
      | [] => mret tt
      end
  end.

Definition write_ast_comments {T} (n : Node T) : W :=
  cfg ← gets cfg;
  if negb (write_comments cfg) then mret tt
  else
    last ← gets last_ast_line;
    if last <? line n then
      _ ← modify (set_last_ast_line (line n));
      comments ← gets pr_comments;
      pop_comments (comments_upto (line n) comments)
    else mret tt.

(** ** Leaves *)

Definition walk_identifier (i : Identifier) : W := write (get_name i).

Definition walk_number_lit (x : NumberLit) : W :=
  {{ (match nl_value x with
   | NlInt v => write (txt (pretty v))
   | NlFloat v => write (txt (f64_display v))
   end);
  if_some (binary_suffix x) (fun s => write (txt (suffix_value s))) }}.

Definition long_quotes : text := [34; 34; 34].
Definition walk_string_lit (x : StringLit) : W :=
  if negb (bool_decide (raw_value x = [])) then write (raw_value x)
  else if is_long_string x then write (long_quotes ++ escape_double_quotes (sl_value x) ++ long_quotes)
  else write (34 :: escape_double_quotes (sl_value x) ++ [34]).

Definition walk_name_constant_lit (x : NameConstantLit) : W := write (txt (constant_symbol (nc_value x))).

(** [format!("{n:?}")] of a node that holds a string. *)
Definition debug_node (n : Node text) : text :=
  txt "Node { node: " ++ debug_str (node n) ++ txt ", filename: " ++ debug_str (filename n) ++
  txt (", line: " +:+ pretty (line n) +:+ ", column: " +:+ pretty (column n) +:+
       ", end_line: " +:+ pretty (end_line n) +:+ ", end_column: " +:+ pretty (end_column n) +:+ " }").

(** ** Expressions *)

Section Methods.
Context (expr : Node Expr -> W).

Definition comma : W := write COMMA_WHITESPACE.
Definition write_op (symbol : string) : W := {{ write_space; write (txt symbol); write_space }}.
(** [" if "] and the condition, when there is one. *)
Definition write_if_cond (o : option (Node Expr)) : W :=
  if_some o (fun if_cond => {{ write (txt " if "); expr if_cond }}).
Definition write_msg (o : option (Node Expr)) : W := if_some o (fun msg => {{ comma; expr msg }}).

Definition walk_keyword (x : Keyword Expr) : W :=
  {{ walk_identifier (node (kw_arg x));
  if_some (kw_value x) (fun value => {{ write (txt "="); expr value }}) }}.

Definition write_args_and_kwargs (args : list (Node Expr)) (kwargs : list (Node (Keyword Expr))) : W :=
  {{ interleave comma expr args;
  (if negb (is_nil args) && negb (is_nil kwargs) then comma else mret tt);
  interleave comma (fun kwarg => walk_keyword (node kwarg)) kwargs }}.

Definition walk_call_expr (x : CallExpr Expr) : W :=
  {{ expr (func x); write (txt "("); write_args_and_kwargs (args x) (keywords x); write (txt ")") }}.

Definition walk_quant_expr (x : QuantExpr Expr) : W :=
  {{ write (txt (quant_string (quant_op x))); write_space;
  interleave comma (fun i => walk_identifier (node i)) (variables x);
  write (txt " in "); expr (target x); write (txt " {");
  write_indentation IndentWithNewline;
  expr (quant_test x); write_if_cond (quant_if_cond x);
  write_indentation DedentWithNewline; write (txt "}") }}.

Definition walk_if_expr (x : IfExpr Expr) : W :=
  {{ expr (ie_body x); write (txt " if "); expr (ie_cond x); write (txt " else ");
  expr (ie_orelse x) }}.

Definition walk_unary_expr (x : UnaryExpr Expr) : W :=
  {{ write (txt (unary_symbol (un_op x)));
  (if bool_decide (un_op x = UNot) then write_space else mret tt);
  expr (operand x) }}.

Definition walk_binary_expr (x : BinaryExpr Expr) : W :=
  let symbol := match bin_op x with BcBin bin_op => bin_symbol bin_op | BcCmp cmp_op => cmp_symbol cmp_op end in
  {{ expr (left x); write_op symbol; expr (right x) }}.

Definition walk_selector_expr (x : SelectorExpr Expr) : W :=
  {{ expr (sel_value x); write (txt (if sel_has_question x then "?." else "."));
  walk_identifier (node (attr x)) }}.

Definition walk_subscript (x : Subscript Expr) : W :=
  {{ expr (sub_value x);
  (if sub_has_question x then write (txt "?") else mret tt);
  write (txt "[");
  match sub_index x with
  | Some index => expr index
  | None =>
      {{ if_some (lower x) expr; write_token Colon; if_some (upper x) expr; write_token Colon;
      if_some (step x) expr }}
  end;
  write (txt "]") }}.

Definition walk_paren_expr (x : ParenExpr Expr) : W :=
  {{ write_token (OpenDelim Paren); expr (paren_expr x); write_token (CloseDelim Paren) }}.

(** Whether items go in one line: they were in one line, and have no comments. *)
Definition in_one_line {T} (items : list (Node T)) : st Printer bool :=
  has_comment ← gets (fun p => negb (is_nil items) && forallb (has_comments_on_node p) items);
  mret ((length (remove_dups (map line items)) <=? 1)%nat && negb has_comment).

Definition walk_list_expr (x : ListExpr Expr) : W :=
  one_line ← in_one_line (elts x);
  let one_line := match elts x with
                  | elt :: _ => match node elt with EListIfItem _ => false | _ => one_line end
                  | [] => one_line
                  end in
  {{ write_token (OpenDelim Bracket);
  when (negb one_line) (write_indentation IndentWithNewline);
  interleave (if one_line then comma else write_newline) expr (elts x);
  when (negb one_line) (write_indentation DedentWithNewline);
  write_token (CloseDelim Bracket) }}.

Definition walk_comp_clause (x : CompClause Expr) : W :=
  {{ write (txt " for "); interleave comma (fun t => walk_identifier (node t)) (cc_targets x);
  write (txt " in "); expr (iter x);
  for_each (fun if_clause => {{ write (txt " if "); expr if_clause }}) (ifs x) }}.

Definition walk_list_comp (x : ListComp Expr) : W :=
  {{ write_token (OpenDelim Bracket); expr (elt x);
  for_each (fun gen => walk_comp_clause (node gen)) (lc_generators x);
  write_token (CloseDelim Bracket) }}.

Definition walk_list_if_item_expr (x : ListIfItemExpr Expr) : W :=
  {{ write (txt "if "); expr (li_if_cond x); write (txt ":");
  write_indentation IndentWithNewline;
  interleave write_newline expr (li_exprs x);
  write_indentation DedentWithNewline;
  if_some (li_orelse x) (fun orelse =>
    match node orelse with
    | EList list_expr =>
        {{ write (txt "else:"); write_indentation IndentWithNewline;
        interleave write_newline expr (elts list_expr);
        write_indentation IDedent }}
    | EListIfItem _ => {{ write (txt "el"); expr orelse }}
    | _ => panic "Invalid list if expr orelse node"
    end) }}.

Definition walk_starred_expr (x : StarredExpr Expr) : W := {{ write (txt "*"); expr (star_value x) }}.

Definition write_operation (op : ConfigEntryOperation) : W :=
  {{ match op with OpUnion => mret tt | _ => write_space end;
  write (txt (entry_operation_symbol op)); write_space }}.

Definition walk_dict_comp (x : DictComp Expr) : W :=
  {{ write_token (OpenDelim Brace);
  match ce_key (dc_entry x) with
  | Some key => expr key
  | None => panic "Invalid dict comp key"
  end;
  write_operation (operation (dc_entry x));
  expr (ce_value (dc_entry x));
  for_each (fun gen => walk_comp_clause (node gen)) (dc_generators x);
  write_token (CloseDelim Brace) }}.

(** [len() - 1] of a vector; and the key, with how many braces it opens: the names of a key that is no identifier are
    quoted, one in the configuration of the other. *)
Definition length_pred {A} (l : list A) : outcome nat :=
  match l with _ :: l' => Ok (length l') | [] => Panic "attempt to subtract with overflow" end.
Definition write_config_key (key : Node Expr) : st Printer nat :=
  match node key with
  | EIdentifier identifier =>
      _ ← write_ast_comments key;
      let names := names identifier in
      if negb (forallb (fun n => is_identifier (node n)) names) then
        _ ← write (join_texts (txt ": {") (map debug_node names));
        lift (length_pred names)
      else _ ← expr key; mret O
  | _ => _ ← expr key; mret O
  end.

Definition write_entry (item : Node (ConfigEntry Expr)) : W :=
  let entry := node item in
  match ce_key entry with
  | Some key =>
      print_right_brace_count ← write_config_key key;
      {{ (if 0 <=? insert_index entry then write (txt ("[" +:+ pretty (insert_index entry) +:+ "]"))
       else mret tt);
      write_operation (operation entry);
      expr (ce_value entry);
      write (concat (repeat (txt "}") print_right_brace_count)) }}
  | None =>
      {{ match node (ce_value entry) with EConfigIfEntry _ => mret tt | _ => write (txt "**") end;
      expr (ce_value entry) }}
  end.

Definition walk_config_if_entry_expr (x : ConfigIfEntryExpr Expr) : W :=
  {{ write (txt "if "); expr (ci_if_cond x); write_token Colon;
  write_indentation IndentWithNewline;
  interleave write_newline write_entry (ci_items x);
  write_indentation DedentWithNewline;
  if_some (ci_orelse x) (fun orelse =>
    match node orelse with
    | EConfig config_expr =>
        {{ write (txt "else:"); write_indentation IndentWithNewline;
        interleave write_newline write_entry (items config_expr);
        write_indentation IDedent }}
    | EConfigIfEntry _ => {{ write (txt "el"); expr orelse }}
    | _ => panic "Invalid config if expr orelse node"
    end) }}.

Definition walk_schema_expr (x : SchemaExpr Expr) : W :=
  {{ walk_identifier (node (se_name x));
  (if negb (is_nil (se_args x)) || negb (is_nil (kwargs x)) then
     {{ write_token (OpenDelim Paren); write_args_and_kwargs (se_args x) (kwargs x);
     write_token (CloseDelim Paren) }}
   else mret tt);
  write_space; expr (se_config x) }}.

Definition walk_config_expr (x : ConfigExpr Expr) : W :=
  one_line ← in_one_line (items x);
  let one_line := match items x with
                  | [item] => match node (ce_value (node item)) with
                              | EConfigIfEntry _ | EConfig _ | ESchema _ => false
                              | _ => one_line
                              end
                  | _ => one_line
                  end in
  {{ write_token (OpenDelim Brace);
  (if is_nil (items x) then mret tt
   else
     {{ when (negb one_line) (write_indentation IndentWithNewline);
     interleave (if one_line then comma else write_newline) write_entry (items x);
     when (negb one_line) (write_indentation DedentWithNewline) }});
  write_token (CloseDelim Brace) }}.

Definition walk_check_expr (x : CheckExpr Expr) : W :=
  {{ expr (ck_test x); write_if_cond (ck_if_cond x); write_msg (ck_msg x) }}.

Definition walk_arguments (x : Arguments_ Expr) : W :=
  interleave_zip comma (fun '(arg, ty_str) default =>
    {{ walk_identifier (node arg);
    if_some ty_str (fun ty_str => write (txt ": " ++ node ty_str));
    if_some default (fun default => {{ write (txt " = "); expr default }}) }})
    (zip (ar_args x) (type_annotation_list x)) (defaults x).

Definition walk_compare (x : Compare Expr) : W :=
  {{ expr (cmp_left x);
  for_each_zip (fun op e => {{ write_op (cmp_symbol op); expr e }}) (ops x) (comparators x) }}.

Definition walk_joined_string (x : JoinedString Expr) : W :=
  let quote_str := if js_is_long_string x then long_quotes else [34] in
  {{ write quote_str;
  for_each (fun value =>
    match node value with
    | EStringLit string_lit => write (escape_double_quotes (sl_value string_lit))
    | _ => expr value
    end) (js_values x);
  write quote_str }}.

Definition walk_formatted_value (x : FormattedValue Expr) : W :=
  {{ write (txt "${"); expr (fv_value x);
  if_some (format_spec x) (fun spec => write (txt ": " ++ spec));
  write (txt "}") }}.

(** ** Statements *)

(** [stmts]: the statements of a block; [walk]: a statement without its indentation. *)
Section Statements.
Context (walk : Stmt -> W).

Definition stmt (n : Node Stmt) : W := {{ fill []; write_ast_comments n; walk (node n) }}.
Definition stmts : list (Node Stmt) -> W := for_each stmt.

Definition walk_expr_stmt (x : ExprStmt Expr) : W :=
  {{ interleave comma expr (exprs x); write_newline_without_fill }}.

Definition walk_unification_stmt (x : UnificationStmt Expr) : W :=
  {{ walk_identifier (node (uni_target x)); write (txt ": ");
  walk_schema_expr (node (uni_value x)); write_newline_without_fill }}.

Definition walk_type_alias_stmt (x : TypeAliasStmt) : W :=
  {{ write (txt "type"); write_space; walk_identifier (node (ta_type_name x));
  write (txt " = "); write (node (ta_type_value x)); write_newline_without_fill }}.

Definition walk_assign_stmt (x : AssignStmt Expr) : W :=
  {{ for_each (fun '(i, t) =>
    {{ walk_identifier (node t);
    (if (i =? 0)%nat then if_some (as_ty x) (fun ty => {{ write (txt ": "); write (type_to_string (node ty)) }})
     else mret tt);
    write (txt " = ") }}) (imap pair (targets x));
  expr (as_value x);
  write_newline_without_fill;
  match node (as_value x) with ESchema _ => write_newline_without_fill | _ => mret tt end }}.

Definition walk_aug_assign_stmt (x : AugAssignStmt Expr) : W :=
  {{ walk_identifier (node (aug_target x)); write_op (aug_symbol (aug_op x));
  expr (aug_value x); write_newline_without_fill }}.

Definition walk_assert_stmt (x : AssertStmt Expr) : W :=
  {{ write (txt "assert "); expr (at_test x); write_if_cond (at_if_cond x);
  write_msg (at_msg x); write_newline_without_fill }}.

Definition block (body : list (Node Stmt)) : W :=
  {{ write_indentation IIndent; stmts body; write_indentation IDedent }}.

Definition walk_if_stmt (x : IfStmt Expr Stmt) : W :=
  {{ write (txt "if "); expr (is_cond x); write_token Colon; write_newline_without_fill;
  block (is_body x);
  match is_orelse x with
  | [] => write_newline_without_fill
  | first :: _ =>
      match node first with
      | SIf _ => {{ fill (txt "el"); walk (node first) }}
      | _ => {{ fill (txt "else:"); write_newline_without_fill; block (is_orelse x) }}
      end
  end }}.

Definition walk_import_stmt (x : ImportStmt) : W :=
  {{ write (txt "import "); write (im_path x);
  if_some (asname x) (fun as_name => {{ write (txt " as "); write as_name }});
  write_newline_without_fill }}.

Definition decorator (d : Node (CallExpr Expr)) : W := {{ write (txt "@"); walk_call_expr (node d) }}.
Definition decorators_ (l : list (Node (CallExpr Expr))) : W :=
  {{ interleave write_newline decorator l; (if is_nil l then mret tt else write_newline) }}.
Definition parameters (o : option (Node (Arguments_ Expr))) : W :=
  if_some o (fun args => {{ write (txt "["); walk_arguments (node args); write (txt "]") }}).
Definition for_host (o : option (Node Identifier)) : W :=
  if_some o (fun host_name => {{ write (txt " for "); walk_identifier (node host_name) }}).
Definition checks (l : list (Node (CheckExpr Expr))) : W :=
  {{ interleave write_newline (fun c => walk_check_expr (node c)) l; write_newline_without_fill }}.

Definition walk_index_signature (x : SchemaIndexSignature Expr) : W :=
  {{ fill []; write_token (OpenDelim Bracket);
  (if si_any_other x then write_token DotDotDot else mret tt);
  if_some (si_key_name x) (fun key_name => write (key_name ++ txt ": "));
  write (node (si_key_type x));
  write_token (CloseDelim Bracket); write_token Colon; write_space;
  write (node (si_value_type x));
  if_some (si_value x) (fun value => {{ write (txt " = "); expr value }});
  write_newline_without_fill }}.

Definition walk_schema_stmt (x : SchemaStmt Expr Stmt) : W :=
  {{ decorators_ (sc_decorators x);
  write (txt (if sc_is_mixin x then "mixin " else if sc_is_protocol x then "protocol " else "schema "));
  write (node (sc_name x));
  parameters (sc_args x);
  if_some (parent_name x) (fun p => {{ write (txt "("); walk_identifier (node p); write (txt ")") }});
  for_host (for_host_name x);
  write_token Colon; write_newline_without_fill;
  write_indentation IIndent;
  (if is_nil (sc_doc x) then mret tt else {{ fill []; write (sc_doc x); write_newline_without_fill }});
  (if is_nil (sc_mixins x) then mret tt
   else
     {{ fill []; write (txt "mixin ["); write_indentation IndentWithNewline;
     interleave ({{ write (txt ","); write_newline }}) (fun m => walk_identifier (node m)) (sc_mixins x);
     write_indentation IDedent; write_newline; write (txt "]"); write_newline_without_fill }});
  if_some (sc_index_signature x) (fun i => walk_index_signature (node i));
  stmts (sc_body x);
  write_newline_without_fill;
  (if is_nil (sc_checks x) then mret tt
   else
     {{ fill (txt "check:"); write_indentation IndentWithNewline;
     checks (sc_checks x);
     write_indentation IDedent; write_newline_without_fill }});
  write_indentation IDedent }}.

Definition walk_rule_stmt (x : RuleStmt Expr) : W :=
  {{ decorators_ (ru_decorators x);
  write (txt "rule "); write (node (ru_name x));
  parameters (ru_args x);
  (if is_nil (parent_rules x) then mret tt
   else {{ write (txt "("); interleave comma (fun i => walk_identifier (node i)) (parent_rules x);
        write (txt ")") }});
  for_host (ru_for_host_name x);
  write_token Colon;
  write_indentation IndentWithNewline;
  (if is_nil (ru_doc x) then mret tt else {{ write (ru_doc x); write_newline }});
  (if is_nil (ru_checks x) then mret tt else checks (ru_checks x));
  write_indentation IDedent }}.

Definition walk_schema_attr (x : SchemaAttr Expr) : W :=
  {{ decorators_ (sa_decorators x);
  write (node (sa_name x));
  (if sa_is_optional x then write (txt "?") else mret tt);
  write (txt ": "); write (node (sa_type_str x));
  if_some (sa_op x) (fun op =>
    write_op match op with BaBin bin_op => bin_symbol bin_op | BaAug aug_op => aug_symbol aug_op end);
  if_some (sa_value x) expr;
  write_newline_without_fill }}.
End Statements.

(** [walk_stmt] of the walker. *)
Fixpoint walk_stmt (s : Stmt_ Expr) : W :=
  match s with
  | STypeAlias x => walk_type_alias_stmt x
  | SExpr x => walk_expr_stmt x
  | SUnification x => walk_unification_stmt x
  | SAssign x => walk_assign_stmt x
  | SAugAssign x => walk_aug_assign_stmt x
  | SAssert x => walk_assert_stmt x
  | SIf x => walk_if_stmt walk_stmt x
  | SImport x => walk_import_stmt x
  | SSchemaAttr x => walk_schema_attr x
  | SSchema x => walk_schema_stmt walk_stmt x
  | SRule x => walk_rule_stmt x
  end.

Definition walk_lambda_expr (x : LambdaExpr Expr Stmt) : W :=
  {{ write (txt "lambda");
  if_some (la_args x) (fun args => {{ write_space; walk_arguments (node args) }});
  if_some (return_type_str x) (fun ty_str =>
    {{ write_space; write_token RArrow; write_space; write ty_str }});
  write_space; write_token (OpenDelim Brace); write_newline_without_fill;
  block walk_stmt (la_body x);
  write_newline; write_token (CloseDelim Brace) }}.
End Methods.

(** [walk_expr] of the walker, and [expr]. *)
Fixpoint walk_expr (e : Expr) : W :=
  let expr n := {{ write_ast_comments n; walk_expr (node n) }} in
  match e with
  | EIdentifier x => walk_identifier x
  | EUnary x => walk_unary_expr expr x
  | EBinary x => walk_binary_expr expr x
  | EIf x => walk_if_expr expr x
  | ESelector x => walk_selector_expr expr x
  | ECall x => walk_call_expr expr x
  | EParen x => walk_paren_expr expr x
  | EQuant x => walk_quant_expr expr x
  | EList x => walk_list_expr expr x
  | EListIfItem x => walk_list_if_item_expr expr x
  | EListComp x => walk_list_comp expr x
  | EStarred x => walk_starred_expr expr x
  | EDictComp x => walk_dict_comp expr x
  | EConfigIfEntry x => walk_config_if_entry_expr expr x
  | ECompClause x => walk_comp_clause expr x
  | ESchema x => walk_schema_expr expr x
  | EConfig x => walk_config_expr expr x
  | ECheck x => walk_check_expr expr x
  | ELambda x => walk_lambda_expr expr x
  | ESubscript x => walk_subscript expr x
  | EKeyword x => walk_keyword expr x
  | EArguments x => walk_arguments expr x
  | ECompare x => walk_compare expr x
  | ENumberLit x => walk_number_lit x
  | EStringLit x => walk_string_lit x
  | ENameConstantLit x => walk_name_constant_lit x
  | EJoinedString x => walk_joined_string expr x
  | EFormattedValue x => walk_formatted_value expr x
  | EMissing => mret tt
  end.
Definition expr (n : Node Expr) : W := {{ write_ast_comments n; walk_expr (node n) }}.

(** ** Modules *)

Definition walk_module (m : Module_) : W :=
  c ← gets pr_comments;
  {{ modify (set_pr_comments (c ++ mo_comments m));
  (if is_nil (mo_doc m) then mret tt else {{ write (mo_doc m); write_newline }});
  stmts (walk_stmt expr) (mo_body m) }}.

(** The comments left over, to the last. *)
Fixpoint write_comments_left (comments : list (Node Comment)) : W :=
  match comments with
  | [] => mret tt
  | comment :: rest =>
      {{ modify (set_pr_comments rest); writeln (comment_text (node comment)); fill [];
      write_comments_left rest }}
  end.
Definition write_module (m : Module_) : W :=
  {{ walk_module m; (comments ← gets pr_comments; write_comments_left comments) }}.

Definition print_ast_module (m : Module_) : outcome text :=
  '(_, p) ← write_module m default_printer; Ok (out p).
Definition print_ast_expr (n : Node Expr) : outcome text :=
  '(_, p) ← expr n default_printer; Ok (out p).
Definition print_ast_stmt (n : Node Stmt) : outcome text :=
  '(_, p) ← stmt (walk_stmt expr) n default_printer; Ok (out p).
End Printer.
