(* ===== verification/PrinterLaws.v ===== *)
(** * What the printer does to its state

    Every method leaves the indentation and the configuration as they were, appends to the
    output, takes comments from the front of the queue and prints each one it takes.  By
    induction on the tree, over a relation between the printer before and after. *)

From S2P Require Import Prelude MachineInt State Floats Chars StrLiteral AstToken IntLiteral Ast Printer.

(** The texts occur in [t] one after the other. *)
Inductive weaves : list text -> text -> Prop :=
| weaves_nil t : weaves [] t
| weaves_cons c cs g t : weaves cs t -> weaves (c :: cs) (g ++ c ++ t).

Lemma weaves_prepend cs g t : weaves cs t -> weaves cs (g ++ t).
Proof. destruct 1 as [|c cs g' t]; [constructor|]. rewrite app_assoc. by constructor. Qed.
Lemma weaves_app cs t cs' t' : weaves cs t -> weaves cs' t' -> weaves (cs ++ cs') (t ++ t').
Proof.
  induction 1 as [t|c cs g t Hw IH]; intros Hw'; simpl; [by apply weaves_prepend|].
  rewrite <- !app_assoc. constructor. auto.
Qed.

Definition texts (cs : list (Node Comment)) : list text := map (fun c => comment_text (node c)) cs.

(** [q] is [p] after printing, [k] levels in. *)
Record moved (k : Z) (p q : Printer) : Prop := {
  moved_indent : indent q = indent p + k;
  moved_usize : indent p <= usize_max -> indent q <= usize_max;
  moved_cfg : cfg q = cfg p;
  moved_line : last_ast_line p <= last_ast_line q;
  moved_out : exists cs t, pr_comments p = cs ++ pr_comments q /\ out q = out p ++ t /\ weaves (texts cs) t;
}.

Lemma moved_refl p : moved 0 p p.
Proof. split; [lia|done|done|lia|]. exists [], []. rewrite app_nil_r. split_and!; [done..|constructor]. Qed.
Lemma moved_trans k k' p q r : moved k p q -> moved k' q r -> moved (k + k') p r.
Proof.
  intros [Hi Hm Hc Hl (cs & t & Hcs & Ho & Hw)] [Hi' Hm' Hc' Hl' (cs' & t' & Hcs' & Ho' & Hw')].
  split; [lia|auto|congruence|lia|]. exists (cs ++ cs'), (t ++ t'). split_and!.
  - by rewrite Hcs, Hcs', app_assoc.
  - by rewrite Ho', Ho, app_assoc.
  - unfold texts in *. rewrite map_app. by apply weaves_app.
Qed.

(** How printing can panic: a tree that the parser does not build, or an indentation that
    overflows.  A subtraction never does. *)
Inductive panics : string -> Prop :=
| panics_list : panics "Invalid list if expr orelse node"
| panics_config : panics "Invalid config if expr orelse node"
| panics_key : panics "Invalid dict comp key"
| panics_add : panics "attempt to add with overflow"
| panics_multiply : panics "attempt to multiply with overflow"
| panics_capacity : panics "capacity overflow".

(** A method that moves the printer [k] levels in, when there are as many to leave. *)
Definition moves {A} (k : Z) (m : st Printer A) : Prop :=
  forall p, 0 <= indent p <= usize_max -> 0 <= indent p + k ->
    match m p with Ok (_, q) => moved k p q | Panic e => panics e end.

Create HintDb moves.
#[export] Hint Constructors panics : moves.

Section Rules.
Context {A B : Type}.

Lemma moves_ret (a : A) : moves 0 (mret a).
Proof. intros p _ _. apply moved_refl. Qed.
Lemma moves_panic e : panics e -> moves (A := A) 0 (panic e).
Proof. by intros He p _ _. Qed.
Lemma moves_gets (f : Printer -> A) : moves 0 (gets f).
Proof. intros p _ _. apply moved_refl. Qed.
Lemma moves_lift (o : outcome A) : (forall e, o = Panic e -> panics e) -> moves 0 (lift o).
Proof. intros Ho p _ _. unfold lift. destruct o; [apply moved_refl|auto]. Qed.
(** [k] levels in, then [k']; the first does not leave more than there are in the end. *)
Lemma moves_bind k k' (m : st Printer A) (f : A -> st Printer B) :
  Z.min 0 (k + k') <= k -> moves k m -> (forall a, moves k' (f a)) -> moves (k + k') (m ≫= f).
Proof.
  intros Hk Hm Hf p H0 H1. specialize (Hm p H0 ltac:(lia)). unfold mbind, st_bind.
  destruct (m p) as [[a q]|e]; [|exact Hm].
  pose proof (moved_indent _ _ _ Hm). pose proof (moved_usize _ _ _ Hm). specialize (Hf a q ltac:(lia) ltac:(lia)).
  destruct (f a q) as [[b r]|e]; [|exact Hf]. by eapply moved_trans.
Qed.
(** Most methods keep the indentation. *)
Lemma moves_bind0 (m : st Printer A) (f : A -> st Printer B) :
  moves 0 m -> (forall a, moves 0 (f a)) -> moves 0 (m ≫= f).
Proof. intros. by apply (moves_bind 0 0). Qed.
End Rules.

Lemma moves_run_nil : moves 0 (run []).
Proof. apply moves_ret. Qed.
Lemma moves_run_cons k k1 (m : W) l :
  Z.min 0 k <= k1 -> moves k1 m -> moves (k - k1) (run l) -> moves k (run (m :: l)).
Proof.
  intros Hk Hm Hl. replace k with (k1 + (k - k1)) by lia. destruct l as [|m' l].
  - intros p H0 H1. specialize (Hm p H0 ltac:(lia)). cbn [run]. destruct (m p) as [[[] q]|e]; [|exact Hm].
    pose proof (moved_indent _ _ _ Hm). pose proof (moved_usize _ _ _ Hm). specialize (Hl q ltac:(lia) ltac:(lia)). by eapply moved_trans.
  - apply moves_bind; [lia|done|by intros []].
Qed.
(** Most methods of a sequence, too. *)
Lemma moves_run_cons0 k (m : W) l : moves 0 m -> moves k (run l) -> moves k (run (m :: l)).
Proof. intros Hm Hl. apply (moves_run_cons k 0); [lia|done|]. by rewrite Z.sub_0_r. Qed.

(** Over the parts of a tree, with what holds of each. *)
Section Lists.
Context {A B : Type} (PA : A -> Type).

Lemma moves_for_each (f : A -> W) l :
  list_all A PA l -> (forall a, PA a -> moves 0 (f a)) -> moves 0 (for_each f l).
Proof.
  intros Hl Hf. induction Hl as [|a Ha l Hl IH]; [apply moves_ret|].
  change (for_each f (a :: l)) with (run [f a; for_each f l]).
  apply moves_run_cons0; [by apply Hf|]. apply moves_run_cons0; [done|]. apply moves_run_nil.
Qed.

Lemma moves_interleave inter (f : A -> W) l :
  moves 0 inter -> list_all A PA l -> (forall a, PA a -> moves 0 (f a)) -> moves 0 (interleave inter f l).
Proof.
  intros Hi Hl Hf. destruct Hl as [|a Ha l Hl]; [apply moves_ret|].
  apply moves_run_cons0; [by apply Hf|]. apply moves_run_cons0; [|apply moves_run_nil].
  apply (moves_for_each (fun y => run [inter; f y]) l) in Hl; [exact Hl|].
  intros b Hb. apply moves_run_cons0; [done|]. apply moves_run_cons0; [by apply Hf|].
  apply moves_run_nil.
Qed.

Lemma moves_if_some o (f : A -> W) :
  option_all A PA o -> (forall a, PA a -> moves 0 (f a)) -> moves 0 (if_some o f).
Proof. intros Ho Hf. destruct Ho; [by apply Hf|apply moves_ret]. Qed.

Lemma moves_for_each_zip (f : B -> A -> W) l k :
  list_all A PA k -> (forall b a, PA a -> moves 0 (f b a)) -> moves 0 (for_each_zip f l k).
Proof.
  intros Hk Hf. revert l. induction Hk as [|a Ha k Hk IH]; intros [|b l]; try apply moves_ret.
  change (for_each_zip f (b :: l) (a :: k)) with (run [f b a; for_each_zip f l k]).
  apply moves_run_cons0; [by apply Hf|]. apply moves_run_cons0; [apply IH|]. apply moves_run_nil.
Qed.
Lemma moves_interleave_zip inter (f : B -> A -> W) l k :
  moves 0 inter -> list_all A PA k -> (forall b a, PA a -> moves 0 (f b a)) ->
  moves 0 (interleave_zip inter f l k).
Proof.
  intros Hi Hk Hf. destruct Hk as [|a Ha k Hk]; destruct l as [|b l]; try apply moves_ret.
  apply moves_run_cons0; [by apply Hf|]. apply moves_run_cons0; [|apply moves_run_nil].
  apply (moves_for_each_zip (fun x y => run [inter; f x y]) l k) in Hk; [exact Hk|].
  intros x y Hy. apply moves_run_cons0; [done|]. apply moves_run_cons0; [by apply Hf|].
  apply moves_run_nil.
Qed.
End Lists.
#[export] Hint Resolve moves_ret moves_panic moves_gets moves_lift moves_run_nil : moves.

(** ** Writing *)

(** Nothing is taken from the comments. *)
Lemma moved_by k p q t :
  indent q = indent p + k -> (indent p <= usize_max -> indent q <= usize_max) -> cfg q = cfg p ->
  last_ast_line p <= last_ast_line q -> pr_comments q = pr_comments p -> out q = out p ++ t -> moved k p q.
Proof. intros Hi Hm Hc Hl Hcs Ho. split; [done..|]. exists [], t. split_and!; [by rewrite Hcs|done|constructor]. Qed.

Lemma moves_write t : moves 0 (write t).
Proof. intros p _ _. apply (moved_by _ _ _ t); simpl; (done || lia). Qed.
#[export] Hint Resolve moves_write : moves.

(** The combinators, as far as they go; a condition is a case. *)
Ltac moves_step :=
  lazymatch goal with
  | |- moves _ (run (cons _ _)) => apply moves_run_cons0
  | |- moves 0 (mbind _ _) => apply moves_bind0; [|intros ?]
  | |- moves 0 (if ?b then _ else _) => destruct b
  | |- moves 0 (match ?x with _ => _ end) => destruct x
  | |- moves 0 (lift _) => apply moves_lift
  end.
Ltac moves_go := repeat first [solve [auto with moves] | moves_step].

Section Laws.
Context `{DebugTables, IdentifierRegex}.

Lemma repeat_str_panics t n e : repeat_str t n = Panic e -> panics e.
Proof. unfold repeat_str. destruct (_ <=? _); intros [= <-]. constructor. Qed.
Lemma multiply_panics z e : arith_usize "multiply" z = Panic e -> panics e.
Proof. unfold arith_usize. destruct (_ && _); intros [= <-]. constructor. Qed.
#[local] Hint Resolve repeat_str_panics multiply_panics : moves.
Lemma moves_fill t : moves 0 (fill t).
Proof. unfold fill. moves_go; eauto with moves. Qed.
#[local] Hint Resolve moves_fill : moves.

Lemma moves_write_string t : moves 0 (write_string t).
Proof. apply moves_write. Qed.
Lemma moves_write_token t : moves 0 (write_token t).
Proof. apply moves_write. Qed.
Lemma moves_write_space : moves 0 write_space.
Proof. apply moves_write. Qed.
Lemma moves_write_newline_without_fill : moves 0 write_newline_without_fill.
Proof. apply moves_write. Qed.
#[local] Hint Resolve moves_write_string moves_write_token moves_write_space
  moves_write_newline_without_fill : moves.

Lemma moves_writeln t : moves 0 (writeln t).
Proof. unfold writeln. do 3 (apply moves_run_cons0; [auto with moves|]). apply moves_run_nil. Qed.
#[local] Hint Resolve moves_writeln : moves.
Lemma moves_write_newline : moves 0 write_newline.
Proof. apply moves_writeln. Qed.
#[local] Hint Resolve moves_write_newline : moves.

Lemma moves_enter : moves 1 enter.
Proof.
  intros p Hp _. unfold enter, mbind, st_bind, gets, lift, arith_usize, modify.
  destruct (_ && _) eqn:E; [|constructor]. apply (moved_by _ _ _ []); simpl; rewrite ?app_nil_r; (done || lia).
Qed.
Lemma moves_leave : moves (-1) leave.
Proof.
  intros p Hp H1. unfold leave, mbind, st_bind, gets, lift, arith_usize, modify.
  destruct (_ && _) eqn:E; [|lia]. apply (moved_by _ _ _ []); simpl; rewrite ?app_nil_r; (done || lia).
Qed.

(** How far an indentation moves the printer. *)
Definition shift (i : Indentation) : Z :=
  match i with
  | IIndent | IndentWithNewline => 1
  | IDedent | DedentWithNewline => -1
  | INewline | IFill => 0
  end.
Lemma moves_write_indentation i : moves (shift i) (write_indentation i).
Proof.
  pose proof moves_enter. pose proof moves_leave.
  destruct i; cbn [shift write_indentation]; auto with moves.
  - apply (moves_run_cons 1 1); [lia|done|]. moves_go.
  - apply (moves_run_cons (-1) (-1)); [lia|done|]. moves_go.
Qed.

(** ** Comments *)

Lemma writeln_out t p : 0 <= indent p <= usize_max ->
  match writeln t p with
  | Ok (_, q) => indent q = indent p /\ cfg q = cfg p /\ last_ast_line q = last_ast_line p /\
      pr_comments q = pr_comments p /\ exists t', out q = out p ++ t ++ t'
  | Panic e => panics e
  end.
Proof.
  intros _. unfold writeln, fill, run, write_string, write, mbind, st_bind, modify, gets, lift, mret, st_ret.
  simpl. destruct (use_spaces (cfg p)); [destruct (arith_usize _ _) eqn:E; [|eauto with moves]|].
  all: destruct (repeat_str _ _) as [s|] eqn:E'; [|eauto with moves].
  all: simpl; split_and!; try done; exists (NEWLINE ++ s ++ []); by rewrite <- !app_assoc.
Qed.

(** A comment that is taken is printed. *)
Lemma print_comment c rest p : pr_comments p = c :: rest -> 0 <= indent p <= usize_max ->
  match (modify (set_pr_comments rest) ≫= fun _ => writeln (comment_text (node c))) p with
  | Ok (_, q) => moved 0 p q /\ pr_comments q = rest
  | Panic e => panics e
  end.
Proof.
  intros Hp Hi. unfold mbind, st_bind, modify. pose proof (writeln_out (comment_text (node c)) _ Hi) as Hw.
  pose proof (writeln_out (comment_text (node c)) (set_pr_comments rest p) Hi) as Hr.
  destruct (writeln _ (set_pr_comments rest p)) as [[[] q]|e]; [|done].
  destruct Hr as (Hi' & Hc & Hl & Hcs & t & Ho). simpl in *. split; [|done].
  split; [lia|lia|done|lia|]. exists [c], (comment_text (node c) ++ t). rewrite Hp, Hcs.
  split_and!; [done..|]. apply (weaves_cons _ [] []). constructor.
Qed.

Lemma moves_pop_comments n : moves 0 (pop_comments n).
Proof.
  induction n as [|n IH]; simpl; [auto with moves|]. intros p Hi Hi'.
  unfold mbind at 1, st_bind at 1, gets at 1. destruct (pr_comments p) as [|c rest] eqn:Hp; [by apply moved_refl|].
  pose proof (print_comment c rest p Hp Hi) as Hc. unfold mbind, st_bind, modify in Hc |- *.
  destruct (writeln _ _) as [[[] q]|e]; [|done]. destruct Hc as [Hc _].
  destruct Hc as [H1 H2 H3 H4 H5] eqn:Hm. specialize (IH q ltac:(lia) ltac:(lia)).
  destruct (pop_comments n q) as [[[] r]|e]; [|done]. by eapply (moved_trans 0 0).
Qed.
#[local] Hint Resolve moves_pop_comments : moves.

Lemma fill_comments t p : match fill t p with Ok (_, q) => pr_comments q = pr_comments p | Panic _ => True end.
Proof.
  unfold fill, mbind, st_bind, gets, lift, write, write_string, modify.
  destruct (use_spaces _); [destruct (arith_usize _ _); [|done]|]; by destruct (repeat_str _ _).
Qed.

(** The comments left over are all printed. *)
Lemma comments_left cs : forall p, pr_comments p = cs -> 0 <= indent p <= usize_max ->
  match write_comments_left cs p with
  | Ok (_, q) => moved 0 p q /\ pr_comments q = []
  | Panic e => panics e
  end.
Proof.
  induction cs as [|c cs IH]; intros p Hp Hi; simpl; [split; [apply moved_refl|done]|].
  pose proof (print_comment c cs p Hp Hi) as Hc. unfold mbind, st_bind, modify in Hc |- *.
  destruct (writeln _ _) as [[[] p1]|e]; [|done]. destruct Hc as [Hc Hp1].
  pose proof (moves_fill [] p1) as Hf. pose proof (fill_comments [] p1) as Hp2.
  destruct Hc as [H1 H2 H3 H4 H5] eqn:Hm. clear Hm. specialize (Hf ltac:(lia) ltac:(lia)).
  destruct (fill [] p1) as [[[] p2]|e]; [|done]. destruct Hf as [K1 K2 K3 K4 K5] eqn:Hm. clear Hm.
  specialize (IH p2 ltac:(congruence) ltac:(lia)).
  destruct (write_comments_left cs p2) as [[[] q]|e]; [|done]. destruct IH as [IH ?]. split; [|done].
  eapply (moved_trans 0 0); [by split|]. by eapply (moved_trans 0 0); [split|].
Qed.

Lemma moves_write_ast_comments {T} (n : Node T) : moves 0 (write_ast_comments n).
Proof.
  unfold write_ast_comments. apply moves_bind0; [auto with moves|]. intros c. destruct (negb _); [auto with moves|].
  intros p Hi _. unfold mbind at 1, st_bind at 1, gets at 1. destruct (last_ast_line p <? line n) eqn:Hl; [|apply moved_refl].
  unfold mbind, st_bind, modify, gets. simpl.
  set (p1 := set_last_ast_line (line n) p).
  assert (moved 0 p p1) by (apply (moved_by _ _ _ []); simpl; rewrite ?app_nil_r; (done || lia)).
  pose proof (moves_pop_comments (comments_upto (line n) (pr_comments p)) p1 Hi ltac:(simpl; lia)) as Hc.
  destruct (pop_comments _ p1) as [[[] q]|e]; [|done]. by eapply (moved_trans 0 0).
Qed.
#[local] Hint Resolve moves_write_ast_comments : moves.
Lemma moves_in_one_line {T} (l : list (Node T)) : moves 0 (in_one_line l).
Proof. unfold in_one_line. moves_go. Qed.
Lemma moves_walk_identifier i : moves 0 (walk_identifier i).
Proof. apply moves_write. Qed.
Lemma moves_comma : moves 0 comma.
Proof. apply moves_write. Qed.
#[local] Hint Resolve moves_in_one_line moves_walk_identifier moves_comma : moves.
Lemma moves_write_op s : moves 0 (write_op s).
Proof. unfold write_op. do 3 (apply moves_run_cons0; [auto with moves|]). apply moves_run_nil. Qed.
#[local] Hint Resolve moves_write_op : moves.

(** ** Methods *)

#[local] Arguments run : simpl never.
#[local] Arguments interleave : simpl never.
#[local] Arguments for_each : simpl never.
#[local] Arguments for_each_zip : simpl never.
#[local] Arguments interleave_zip : simpl never.
#[local] Arguments if_some : simpl never.
#[local] Arguments write_indentation : simpl never.
#[local] Arguments mbind : simpl never.
#[local] Arguments moves : simpl never.

Lemma list_all_mono {A} (P Q : A -> Type) l : (forall a, P a -> Q a) -> list_all A P l -> list_all A Q l.
Proof. intros Hm Hl. induction Hl; constructor; auto. Qed.
Definition list_all_true {A} (l : list A) : list_all A (fun _ => unit) l.
Proof. induction l; by constructor. Qed.
Definition option_all_true {A} (o : option A) : option_all A (fun _ => unit) o.
Proof. destruct o; by constructor. Qed.
Lemma Node_all_mono {A} (P Q : A -> Prop) n : (forall a, P a -> Q a) -> Node_all A P n -> Node_all A Q n.
Proof. intros Hm Hn. destruct Hn. constructor. auto. Qed.

(** The expression is printed by a method that keeps the indentation; so are the items of the
    lists and configurations that a conditional item prints as an [else] branch. *)
Definition walks (e : Expr) : Prop :=
  moves 0 (walk_expr e) /\
  match e with
  | EList x => moves 0 (interleave write_newline expr (elts x))
  | EConfig x => moves 0 (interleave write_newline (write_entry expr) (items x))
  | _ => True
  end.

Lemma moves_expr n : Node_all Expr walks n -> moves 0 (expr n).
Proof.
  intros [e He]. unfold expr. apply moves_run_cons0; [auto with moves|].
  apply moves_run_cons0; [exact (proj1 He)|]. apply moves_run_nil.
Qed.

Section Methods.
#[local] Hint Resolve moves_expr : moves.

(** A part of the tree: an expression, or a structure with its own parts. *)
Ltac part_of :=
  let Hpart := fresh "Hpart" in intros ? Hpart;
  lazymatch type of Hpart with
  | Node_all Expr _ _ => idtac
  | Node_all (ConfigEntry _) _ _ => idtac
  | Node_all (Stmt_ _) _ _ => idtac
  | Node_all _ _ _ => destruct Hpart; simpl node
  | _ => idtac
  end.
(** One step into a method; what is known of the parts is in the context. *)
Ltac method_step :=
  lazymatch goal with
  | |- moves _ (run (cons (write_indentation ?i) _)) =>
      apply (moves_run_cons _ (shift i)); [cbn [shift]; lia|apply moves_write_indentation|]
  | |- moves _ (run (cons (when ?b (write_indentation ?i)) _)) => destruct b; unfold when
  | |- moves _ (run (cons (mret tt) _)) => apply moves_run_cons0; [apply moves_ret|]
  | |- moves _ (run (cons _ _)) => apply moves_run_cons0
  | |- moves _ (run nil) => apply moves_run_nil
  | |- moves 0 (interleave _ _ _) =>
      first [eapply moves_interleave; [auto with moves|eassumption|part_of]
            |eapply moves_interleave; [auto with moves|apply list_all_true|intros ? _]]
  | |- moves 0 (for_each _ _) =>
      first [eapply moves_for_each; [eassumption|part_of]
            |eapply moves_for_each; [apply list_all_true|intros ? _]]
  | |- moves 0 (if_some _ _) =>
      first [eapply moves_if_some; [eassumption|part_of]
            |eapply moves_if_some; [apply option_all_true|intros ? _]]
  | |- moves 0 (for_each_zip _ _ _) => eapply moves_for_each_zip; [eassumption|intros ?; part_of]
  | |- moves 0 (interleave_zip _ _ _ _) =>
      eapply moves_interleave_zip; [auto with moves|eassumption|intros ?; part_of]
  | |- moves 0 (mbind _ _) => apply moves_bind0; [|intros ?]
  | |- moves 0 ((match ?x with pair _ _ => _ end) _) => destruct x
  | |- moves 0 (let _ := _ in _) => cbv zeta
  | |- moves 0 (if ?b then _ else _) => destruct b
  | Ho : option_all _ _ ?x |- moves 0 (match ?x with _ => _ end) => destruct Ho
  | |- moves 0 (match ?x with _ => _ end) => destruct x
  end.
Ltac method_go := repeat first [solve [auto with moves] | method_step].
Ltac method Hx f := destruct Hx; unfold f; simpl; method_go.

Lemma moves_write_if_cond o : option_all (Node Expr) (Node_all Expr walks) o -> moves 0 (write_if_cond expr o).
Proof. intros Ho. unfold write_if_cond. method_go. Qed.
Lemma moves_write_msg o : option_all (Node Expr) (Node_all Expr walks) o -> moves 0 (write_msg expr o).
Proof. intros Ho. unfold write_msg. method_go. Qed.
#[local] Hint Resolve moves_write_if_cond moves_write_msg : moves.

Lemma moves_walk_keyword x : Keyword_all Expr walks x -> moves 0 (walk_keyword expr x).
Proof. intros Hx. method Hx @walk_keyword. Qed.
#[local] Hint Resolve moves_walk_keyword : moves.
Lemma moves_write_args_and_kwargs a k :
  list_all (Node Expr) (Node_all Expr walks) a -> list_all (Node (Keyword Expr)) (Node_all _ (Keyword_all Expr walks)) k ->
  moves 0 (write_args_and_kwargs expr a k).
Proof. intros Ha Hk. unfold write_args_and_kwargs. method_go. Qed.
#[local] Hint Resolve moves_write_args_and_kwargs : moves.
Lemma moves_walk_call_expr x : CallExpr_all Expr walks x -> moves 0 (walk_call_expr expr x).
Proof. intros Hx. method Hx @walk_call_expr. Qed.
Lemma moves_walk_quant_expr x : QuantExpr_all Expr walks x -> moves 0 (walk_quant_expr expr x).
Proof. intros Hx. method Hx @walk_quant_expr. Qed.
Lemma moves_walk_if_expr x : IfExpr_all Expr walks x -> moves 0 (walk_if_expr expr x).
Proof. intros Hx. method Hx @walk_if_expr. Qed.
Lemma moves_walk_unary_expr x : UnaryExpr_all Expr walks x -> moves 0 (walk_unary_expr expr x).
Proof. intros Hx. method Hx @walk_unary_expr. Qed.
Lemma moves_walk_binary_expr x : BinaryExpr_all Expr walks x -> moves 0 (walk_binary_expr expr x).
Proof. intros Hx. method Hx @walk_binary_expr. Qed.
Lemma moves_walk_selector_expr x : SelectorExpr_all Expr walks x -> moves 0 (walk_selector_expr expr x).
Proof. intros Hx. method Hx @walk_selector_expr. Qed.
Lemma moves_walk_subscript x : Subscript_all Expr walks x -> moves 0 (walk_subscript expr x).
Proof. intros Hx. method Hx @walk_subscript. Qed.
Lemma moves_walk_paren_expr x : ParenExpr_all Expr walks x -> moves 0 (walk_paren_expr expr x).
Proof. intros Hx. method Hx @walk_paren_expr. Qed.
Lemma moves_walk_list_expr x : ListExpr_all Expr walks x -> moves 0 (walk_list_expr expr x).
Proof. intros Hx. method Hx @walk_list_expr. Qed.
Lemma moves_walk_comp_clause x : CompClause_all Expr walks x -> moves 0 (walk_comp_clause expr x).
Proof. intros Hx. method Hx @walk_comp_clause. Qed.
#[local] Hint Resolve moves_walk_call_expr moves_walk_comp_clause : moves.
Lemma moves_walk_list_comp x : ListComp_all Expr walks x -> moves 0 (walk_list_comp expr x).
Proof. intros Hx. method Hx @walk_list_comp. Qed.
Lemma moves_walk_starred_expr x : StarredExpr_all Expr walks x -> moves 0 (walk_starred_expr expr x).
Proof. intros Hx. method Hx @walk_starred_expr. Qed.
Lemma moves_write_operation o : moves 0 (write_operation o).
Proof. unfold write_operation. method_go. Qed.
#[local] Hint Resolve moves_write_operation : moves.
Lemma moves_walk_dict_comp x : DictComp_all Expr walks x -> moves 0 (walk_dict_comp expr x).
Proof. intros Hx. destruct Hx as [? []]. unfold walk_dict_comp. simpl. method_go. Qed.

Lemma moves_write_config_key key : Node_all Expr walks key -> moves 0 (write_config_key expr key).
Proof.
  intros Hk. unfold write_config_key. destruct (node key) as [i| | | | | | | | | | | | | | | | | | | | | | | | | | | |];
    try (method_go; fail).
  apply moves_bind0; [auto with moves|]. intros _. cbv zeta. destruct (negb _) eqn:E; [|method_go].
  apply moves_bind0; [auto with moves|]. intros _. apply moves_lift. by destruct (names i).
Qed.
#[local] Hint Resolve moves_write_config_key : moves.
Lemma moves_write_entry c : Node_all _ (ConfigEntry_all Expr walks) c -> moves 0 (write_entry expr c).
Proof.
  intros [? [k Hk v Hv]]. unfold write_entry. simpl. destruct Hk; method_go.
Qed.
#[local] Hint Resolve moves_write_entry : moves.

Lemma moves_walk_schema_expr x : SchemaExpr_all Expr walks x -> moves 0 (walk_schema_expr expr x).
Proof. intros Hx. method Hx @walk_schema_expr. Qed.
Lemma moves_walk_config_expr x : ConfigExpr_all Expr walks x -> moves 0 (walk_config_expr expr x).
Proof. intros Hx. method Hx @walk_config_expr. Qed.
Lemma moves_walk_check_expr x : CheckExpr_all Expr walks x -> moves 0 (walk_check_expr expr x).
Proof. intros Hx. method Hx @walk_check_expr. Qed.
Lemma moves_walk_arguments x : Arguments__all Expr walks x -> moves 0 (walk_arguments expr x).
Proof. intros Hx. method Hx @walk_arguments. Qed.
Lemma moves_walk_compare x : Compare_all Expr walks x -> moves 0 (walk_compare expr x).
Proof. intros Hx. method Hx @walk_compare. Qed.
Lemma moves_walk_joined_string x : JoinedString_all Expr walks x -> moves 0 (walk_joined_string expr x).
Proof. intros Hx. method Hx @walk_joined_string. Qed.
Lemma moves_walk_formatted_value x : FormattedValue_all Expr walks x -> moves 0 (walk_formatted_value expr x).
Proof. intros Hx. method Hx @walk_formatted_value. Qed.

(** An [else] branch prints the items of what it is. *)
Ltac branches Ho :=
  simpl;
  repeat lazymatch goal with
         | |- moves 0 (if_some _ _) => fail
         | _ => first [solve [auto with moves] | method_step]
         end;
  eapply moves_if_some; [exact Ho|];
  let He := fresh "He" in let e := fresh "e" in
  intros ? He; pose proof (moves_expr _ He); destruct He as [e [? ?]]; destruct e; simpl in *; method_go.
Lemma moves_walk_list_if_item_expr x : ListIfItemExpr_all Expr walks x -> moves 0 (walk_list_if_item_expr expr x).
Proof.
  intros [c Hc es Hes o Ho]. unfold walk_list_if_item_expr. simpl.
  branches Ho.
Qed.
Lemma moves_walk_config_if_entry_expr x :
  ConfigIfEntryExpr_all Expr walks x -> moves 0 (walk_config_if_entry_expr expr x).
Proof.
  intros [c Hc es Hes o Ho]. unfold walk_config_if_entry_expr. simpl.
  branches Ho.
Qed.

(** ** Statements *)

#[local] Hint Resolve moves_walk_schema_expr moves_walk_arguments moves_walk_check_expr : moves.

(** [Stmt], at its own universe. *)
#[local] Notation stmt_ := (Stmt_ Expr).
Section Statements.
Definition prints (s : stmt_) : Prop := moves 0 (walk_stmt expr s).

Lemma moves_stmt n : Node_all stmt_ prints n -> moves 0 (stmt (walk_stmt expr) n).
Proof. intros [s Hs]. unfold stmt. simpl. method_go. Qed.
#[local] Hint Resolve moves_stmt : moves.
Lemma moves_stmts l : list_all (Node stmt_) (Node_all stmt_ prints) l -> moves 0 (stmts (walk_stmt expr) l).
Proof. intros Hl. unfold stmts. method_go. Qed.
#[local] Hint Resolve moves_stmts : moves.
Lemma moves_block l : list_all (Node stmt_) (Node_all stmt_ prints) l -> moves 0 (block (walk_stmt expr) l).
Proof. intros Hl. unfold block. method_go. Qed.
#[local] Hint Resolve moves_block : moves.

Lemma moves_walk_expr_stmt x : ExprStmt_all Expr walks x -> moves 0 (walk_expr_stmt expr x).
Proof. intros Hx. method Hx @walk_expr_stmt. Qed.
Lemma moves_walk_unification_stmt x : UnificationStmt_all Expr walks x -> moves 0 (walk_unification_stmt expr x).
Proof. intros [t v Hv]. destruct Hv. unfold walk_unification_stmt. simpl. method_go. Qed.
Lemma moves_walk_type_alias_stmt x : moves 0 (walk_type_alias_stmt x).
Proof. unfold walk_type_alias_stmt. method_go. Qed.
Lemma moves_walk_assign_stmt x : AssignStmt_all Expr walks x -> moves 0 (walk_assign_stmt expr x).
Proof. intros Hx. method Hx @walk_assign_stmt. Qed.
Lemma moves_walk_aug_assign_stmt x : AugAssignStmt_all Expr walks x -> moves 0 (walk_aug_assign_stmt expr x).
Proof. intros Hx. method Hx @walk_aug_assign_stmt. Qed.
Lemma moves_walk_assert_stmt x : AssertStmt_all Expr walks x -> moves 0 (walk_assert_stmt expr x).
Proof. intros Hx. method Hx @walk_assert_stmt. Qed.
Lemma moves_walk_import_stmt x : moves 0 (walk_import_stmt x).
Proof. unfold walk_import_stmt. method_go. Qed.
Lemma moves_decorators l : list_all _ (Node_all _ (CallExpr_all Expr walks)) l -> moves 0 (decorators_ expr l).
Proof. intros Hl. unfold decorators_, decorator. method_go. Qed.
Lemma moves_parameters o : option_all _ (Node_all _ (Arguments__all Expr walks)) o -> moves 0 (parameters expr o).
Proof. intros Ho. unfold parameters. method_go. Qed.
Lemma moves_for_host o : moves 0 (for_host o).
Proof. unfold for_host. method_go. Qed.
Lemma moves_checks l : list_all _ (Node_all _ (CheckExpr_all Expr walks)) l -> moves 0 (checks expr l).
Proof. intros Hl. unfold checks. method_go. Qed.
Lemma moves_walk_index_signature x :
  SchemaIndexSignature_all Expr walks x -> moves 0 (walk_index_signature expr x).
Proof. intros Hx. method Hx @walk_index_signature. Qed.
#[local] Hint Resolve moves_decorators moves_parameters moves_for_host moves_checks
  moves_walk_index_signature : moves.
Lemma moves_walk_rule_stmt x : RuleStmt_all Expr walks x -> moves 0 (walk_rule_stmt expr x).
Proof. intros Hx. method Hx @walk_rule_stmt. Qed.
Lemma moves_walk_schema_attr x : SchemaAttr_all Expr walks x -> moves 0 (walk_schema_attr expr x).
Proof. intros Hx. method Hx @walk_schema_attr. Qed.

(** What holds of the parts of a part. *)
Lemma nodes_all_apply l :
  list_all (Node stmt_) (Node_all stmt_ (fun a => Stmt__all Expr walks a -> prints a)) l ->
  list_all (Node stmt_) (Node_all stmt_ (Stmt__all Expr walks)) l ->
  list_all (Node stmt_) (Node_all stmt_ prints) l.
Proof.
  intros Hi Hq. induction Hi as [|n [a Ha] l Hi IH]; [constructor|].
  inversion Hq as [|? Hn ? ?]; subst. constructor; [|by apply IH].
  inversion Hn; subst. constructor. auto.
Qed.
Lemma moves_first_of l n : list_all (Node stmt_) (Node_all stmt_ prints) (n :: l) -> moves 0 (walk_stmt expr (node n)).
Proof. intros Hl. inversion Hl as [|? Hn ? ?]; subst. by destruct Hn. Qed.

Lemma moves_walk_if_stmt x :
  IfStmt_all Expr walks stmt_ prints x -> moves 0 (walk_if_stmt expr (walk_stmt expr) x).
Proof.
  intros [b Hb c Hc o Ho]. unfold walk_if_stmt, Stmt. simpl. do 5 (method_step; [method_go|]).
  apply moves_run_cons0; [|method_go]. destruct o as [|first o]; [method_go|].
  pose proof (moves_first_of _ _ Ho). destruct (node first); method_go.
Qed.
Lemma moves_walk_schema_stmt x :
  SchemaStmt_all Expr walks stmt_ prints x -> moves 0 (walk_schema_stmt expr (walk_stmt expr) x).
Proof. intros Hx. method Hx @walk_schema_stmt. Qed.

Lemma moves_walk_stmt s : Stmt__all Expr walks s -> prints s.
Proof.
  induction s as [| | | | | |x Hi| | |x Hi|] using Stmt__ind; intros Hs; inversion Hs as [
    |? Hx|? Hx|? Hx|? Hx|? Hx|? Hx| |? Hx|? Hx|? Hx]; subst; unfold prints; simpl.
  7: { apply moves_walk_if_stmt. destruct Hx; inversion Hi; subst. constructor; try assumption;
       by apply nodes_all_apply. }
  9: { apply moves_walk_schema_stmt. destruct Hx; inversion Hi; subst.
       constructor; try assumption;
       by apply nodes_all_apply. }
  all: auto using moves_walk_type_alias_stmt, moves_walk_expr_stmt, moves_walk_unification_stmt,
    moves_walk_assign_stmt, moves_walk_aug_assign_stmt, moves_walk_assert_stmt, moves_walk_import_stmt,
    moves_walk_schema_attr, moves_walk_rule_stmt.
Qed.
End Statements.

Lemma stmts_print l :
  list_all (Node stmt_) (Node_all stmt_ (Stmt__all Expr walks)) l -> list_all (Node stmt_) (Node_all stmt_ prints) l.
Proof.
  intros Hl. eapply list_all_mono; [|exact Hl]. intros n [s Hs]. constructor. by apply moves_walk_stmt.
Qed.
Lemma moves_walk_lambda_expr x :
  LambdaExpr_all Expr walks stmt_ (Stmt__all Expr walks) x -> moves 0 (walk_lambda_expr expr x).
Proof.
  intros [a Ha ty b Hb]. apply stmts_print in Hb. pose proof (moves_block _ Hb).
  unfold walk_lambda_expr. simpl. method_go.
Qed.

(** ** The tree *)

Lemma moves_leaves :
  (forall x, moves 0 (walk_number_lit x)) /\ (forall x, moves 0 (walk_string_lit x)) /\
  (forall x, moves 0 (walk_name_constant_lit x)).
Proof.
  split_and!; intros x; unfold walk_number_lit, walk_string_lit, walk_name_constant_lit; method_go.
Qed.
Lemma moves_elts x : ListExpr_all Expr walks x -> moves 0 (interleave write_newline expr (elts x)).
Proof. intros [l Hl ?]. simpl. method_go. Qed.
Lemma moves_items x : ConfigExpr_all Expr walks x -> moves 0 (interleave write_newline (write_entry expr) (items x)).
Proof. intros [l Hl]. simpl. method_go. Qed.

Lemma walks_all e : walks e.
Proof.
  destruct moves_leaves as (Hnum & Hstr & Hname).
  induction e using Expr_ind; (split; [|first [exact I|by apply moves_elts|by apply moves_items]]).
  all: lazymatch goal with
    | |- moves 0 (walk_expr (EIdentifier _)) => exact (moves_walk_identifier _)
    | |- moves 0 (walk_expr (ENumberLit _)) => exact (Hnum _)
    | |- moves 0 (walk_expr (EStringLit _)) => exact (Hstr _)
    | |- moves 0 (walk_expr (ENameConstantLit _)) => exact (Hname _)
    | |- moves 0 (walk_expr EMissing) => exact (moves_ret ())
    | X : UnaryExpr_all _ _ _ |- _ => exact (moves_walk_unary_expr _ X)
    | X : BinaryExpr_all _ _ _ |- _ => exact (moves_walk_binary_expr _ X)
    | X : IfExpr_all _ _ _ |- _ => exact (moves_walk_if_expr _ X)
    | X : SelectorExpr_all _ _ _ |- _ => exact (moves_walk_selector_expr _ X)
    | X : CallExpr_all _ _ _ |- _ => exact (moves_walk_call_expr _ X)
    | X : ParenExpr_all _ _ _ |- _ => exact (moves_walk_paren_expr _ X)
    | X : QuantExpr_all _ _ _ |- _ => exact (moves_walk_quant_expr _ X)
    | X : ListExpr_all _ _ _ |- _ => exact (moves_walk_list_expr _ X)
    | X : ListIfItemExpr_all _ _ _ |- _ => exact (moves_walk_list_if_item_expr _ X)
    | X : ListComp_all _ _ _ |- _ => exact (moves_walk_list_comp _ X)
    | X : StarredExpr_all _ _ _ |- _ => exact (moves_walk_starred_expr _ X)
    | X : DictComp_all _ _ _ |- _ => exact (moves_walk_dict_comp _ X)
    | X : ConfigIfEntryExpr_all _ _ _ |- _ => exact (moves_walk_config_if_entry_expr _ X)
    | X : CompClause_all _ _ _ |- _ => exact (moves_walk_comp_clause _ X)
    | X : SchemaExpr_all _ _ _ |- _ => exact (moves_walk_schema_expr _ X)
    | X : ConfigExpr_all _ _ _ |- _ => exact (moves_walk_config_expr _ X)
    | X : CheckExpr_all _ _ _ |- _ => exact (moves_walk_check_expr _ X)
    | X : LambdaExpr_all _ _ _ _ _ |- _ => exact (moves_walk_lambda_expr _ X)
    | X : Subscript_all _ _ _ |- _ => exact (moves_walk_subscript _ X)
    | X : Keyword_all _ _ _ |- _ => exact (moves_walk_keyword _ X)
    | X : Arguments__all _ _ _ |- _ => exact (moves_walk_arguments _ X)
    | X : Compare_all _ _ _ |- _ => exact (moves_walk_compare _ X)
    | X : JoinedString_all _ _ _ |- _ => exact (moves_walk_joined_string _ X)
    | X : FormattedValue_all _ _ _ |- _ => exact (moves_walk_formatted_value _ X)
    end.
Qed.
End Methods.

Lemma moves_statement n : moves 0 (stmt (walk_stmt expr) n).
Proof.
  apply moves_stmt. destruct n. constructor. apply moves_walk_stmt. apply Stmt__all_forall. apply walks_all.
Qed.
Lemma moves_body l : moves 0 (stmts (walk_stmt expr) l).
Proof. eapply moves_for_each; [apply list_all_true|]. intros n _. apply moves_statement. Qed.

(** C15: printing a statement, with all that is nested in it, leaves the indentation and the
    configuration as they were, appends to the output, and takes comments from the front of
    the queue, each of which it prints, in their order.  It panics only for an [else] branch
    or a key of a dict comprehension that the parser never builds, and for an indentation too
    wide for the machine: never for leaving a level that was not entered. *)
Theorem statement_printed_in_place (n : Node Stmt) p :
  0 <= indent p <= usize_max ->
  match stmt (walk_stmt expr) n p with
  | Ok (_, q) => indent q = indent p /\ cfg q = cfg p /\
      exists cs t, pr_comments p = cs ++ pr_comments q /\ out q = out p ++ t /\ weaves (texts cs) t
  | Panic e => panics e
  end.
Proof.
  intros Hp. pose proof (moves_statement n p Hp ltac:(lia)) as Hm.
  destruct (stmt _ n p) as [[[] q]|e]; [|done]. destruct Hm as [Hi _ Hc _ Hw]. split_and!; [lia|done|done].
Qed.

(** C14: the text of a module has the text of every comment of the module, in their order and
    none inside another. *)
Theorem module_comments_printed (m : Module_) :
  match print_ast_module m with
  | Ok t => weaves (texts (mo_comments m)) t
  | Panic e => panics e
  end.
Proof.
  unfold print_ast_module, write_module, walk_module.
  set (p := set_pr_comments (mo_comments m) default_printer).
  set (doc := if is_nil (mo_doc m) then mret tt else {{ write (mo_doc m); write_newline }}).
  assert (Hdoc : moves 0 doc) by (subst doc; moves_go). clearbody doc.
  assert (Hb : moves 0 (run [doc; stmts (walk_stmt expr) (mo_body m)])).
  { apply moves_run_cons0; [done|]. apply moves_run_cons0; [apply moves_body|apply moves_run_nil]. }
  assert (Hp : 0 <= indent p <= usize_max) by (simpl; unfold usize_max; lia).
  specialize (Hb p Hp ltac:(simpl; lia)).
  unfold run in *. unfold mbind, st_bind, gets, modify in *. cbn beta iota in *.
  change (set_pr_comments (pr_comments default_printer ++ mo_comments m) default_printer) with p.
  destruct (doc p) as [[[] p1]|e]; [|exact Hb].
  destruct (stmts (walk_stmt expr) (mo_body m) p1) as [[[] q]|e]; [|exact Hb].
  destruct Hb as [Hi Hm _ _ (cs & t & Hcs & Ho & Hw)].
  pose proof (comments_left _ q eq_refl ltac:(simpl in *; lia)) as Hl.
  destruct (write_comments_left _ q) as [[[] r]|e]; [|exact Hl].
  destruct Hl as [[_ _ _ _ (cs' & t' & Hcs' & Ho' & Hw')] Hnil].
  change (weaves (texts (mo_comments m)) (out r)).
  simpl in Hcs, Ho. rewrite Hcs, Hcs', Hnil, app_nil_r, Ho', Ho. simpl.
  unfold texts in *. rewrite map_app. by apply weaves_app.
Qed.

(** ** What is lost *)

(** The statements of an [else] branch whose first statement is an [if] are not printed: the
    branch is printed as an [elif]. *)
Theorem elif_rest_dropped body c first rest x :
  node first = SIf x ->
  walk_stmt expr (SIf (mkIfStmt body c (first :: rest))) = walk_stmt expr (SIf (mkIfStmt body c [first])).
Proof. destruct first. simpl. by intros ->. Qed.

(** *** Strings *)

Lemma eval_escaped oc `{U : UnicodeTables} triple v : forall fuel acc,
  92 ∉ v -> (triple = true \/ 10 ∉ v) -> (length (escape_double_quotes v) <= fuel)%nat ->
  eval_loop oc fuel 34 triple false false (escape_double_quotes v) acc = Ok (Some (acc ++ v)).
Proof.
  induction v as [|c v IH]; intros fuel acc Hb Hn Hf.
  { destruct fuel; simpl; by rewrite app_nil_r. }
  rewrite not_elem_of_cons in Hb. destruct Hb as [Hc Hb].
  assert (triple = true \/ c <> 10 /\ 10 ∉ v) as Hn'.
  { destruct Hn as [?|Hn]; [by left|]. rewrite not_elem_of_cons in Hn. right. naive_solver. }
  change (escape_double_quotes (c :: v)) with ((if c =? 34 then [92; 34] else [c]) ++ escape_double_quotes v) in *.
  rewrite length_app in Hf.
  assert (Hnext : forall f, (length (escape_double_quotes v) <= f)%nat ->
    eval_loop oc f 34 triple false false (escape_double_quotes v) (acc ++ [c]) = Ok (Some (acc ++ c :: v))).
  { intros f Hle. rewrite IH by (try done; naive_solver). by rewrite <- app_assoc. }
  destruct (Z.eqb_spec c 34) as [->|Hq]; cbn [length] in Hf; (destruct fuel as [|fuel]; [lia|]); cbn [app].
  all: rewrite eval_loop_cons by (unfold char in *; cbn [length] in *; lia).
  - cbn [Z.eqb Pos.eqb]. rewrite escape_quoted; [|by right|by right]. cbn. apply Hnext. unfold char in *. lia.
  - rewrite (proj2 (Z.eqb_neq c 92)) by done.
    assert (((c =? 10) && negb triple) = false) as ->.
    { destruct Hn' as [->|[? _]]; [by rewrite andb_false_r|]. by rewrite (proj2 (Z.eqb_neq c 10)). }
    cbn. apply Hnext. unfold char in *. lia.
Qed.

(** C38: a string literal built without source text, printed between double quotes, evaluates
    to the string again, when it has no backslash and, on one line, no line end. *)
Theorem printed_string_reads_back oc `{U : UnicodeTables} long v p :
  92 ∉ v -> (long = true \/ 10 ∉ v) ->
  exists t, walk_string_lit (mkStringLit long [] v) p = Ok ((), set_out (out p ++ t) p) /\
    exists q inner, t = q ++ inner ++ q /\ q = (if long then long_quotes else [34]) /\
      str_content_eval oc inner 34 long false false = Ok (Some v).
Proof.
  intros Hb Hn. exists ((if long then long_quotes else [34]) ++ escape_double_quotes v ++ if long then long_quotes else [34]).
  split; [by destruct long|]. eexists _, (escape_double_quotes v). split_and!; [done|done|].
  by apply (eval_escaped _ _ _ _ []).
Qed.
End Laws.

(** ** Instances *)

(** Identifiers are ASCII, with an optional dollar sign. *)
Definition ascii_start (c : char) : bool := in_range 97 c 122 || in_range 65 c 90 || (c =? 95).
#[local] Instance ascii_identifiers : IdentifierRegex := {|
  is_identifier s :=
    match (match s with 36 :: s' => s' | _ => s end) with
    | c :: s' => ascii_start c && forallb (fun c => ascii_start c || in_range 48 c 57) s'
    | [] => false
    end |}.

Definition at_line {T} (l : Z) (x : T) : Node T := mkNode x [] l 0 l 0.
Definition sample_name (s : string) : Expr := EIdentifier (mkIdentifier [at_line 1 (txt s)] [] Load).
(** [if a:] with [b] in its body and, before the body, a comment. *)
Definition sample_if (rest : list Stmt) : Stmt :=
  SIf (mkIfStmt [at_line 3 (SExpr (mkExprStmt [at_line 3 (sample_name "b")]))] (at_line 1 (sample_name "a"))
    (map (at_line 4) rest)).
Definition sample_comments : list (Node Comment) := [at_line 2 (mkComment (txt "# why")); at_line 9 (mkComment (txt "# end"))].

Example module_printed :
  print_ast_module (mkModule [] [] [] [] [at_line 1 (sample_if [])] sample_comments) =
  Ok (txt "if a:" ++ [10] ++ txt "    # why" ++ [10] ++ txt "    b" ++ [10; 10] ++ txt "# end" ++ [10]).
Proof. vm_compute. reflexivity. Qed.

(** A float that is a whole number is printed as the integer. *)
Example whole_float_printed :
  let lit v := mkNode (ENumberLit (mkNumberLit None v)) [] 1 0 1 0 in
  print_ast_expr (lit (NlFloat (f64_of_decimal false 1 3))) = print_ast_expr (lit (NlInt 1000)).
Proof. vm_compute. reflexivity. Qed.

(** A key that is no identifier is printed with the debug form of its whole node. *)
Example odd_key_printed_as_node :
  print_ast_expr (at_line 1 (EConfig (mkConfigExpr [at_line 1 (mkConfigEntry (Some (at_line 1 (sample_name "a-b")))
    (at_line 1 (sample_name "c")) OpUnion (-1))]))) =
  Ok (txt "{Node { node: " ++ 34 :: txt "a-b" ++ 34 :: txt ", filename: " ++ [34; 34] ++
      txt ", line: 1, column: 0, end_line: 1, end_column: 0 }: c}").
Proof. vm_compute. reflexivity. Qed.

(** A string that has a backslash and an [n] is printed as the literal of a line end. *)
Example backslash_reads_as_line_end :
  print_ast_expr (at_line 1 (EStringLit (mkStringLit false [] [92; 110]))) = Ok [34; 92; 110; 34] /\
  str_content_eval true (H := ascii_tables) [92; 110] 34 false false false = Ok (Some [10]).
Proof. split; vm_compute; reflexivity. Qed.

Lemma statement_printed_in_place_witness :
  0 <= indent default_printer <= usize_max /\
  match stmt (walk_stmt expr) (at_line 1 (sample_if [])) (set_pr_comments sample_comments default_printer) with
  | Ok (_, q) => indent q = 0 /\ cfg q = default_config /\
      exists cs t, sample_comments = cs ++ pr_comments q /\ out q = [] ++ t /\ weaves (texts cs) t
  | Panic e => panics e
  end.
Proof.
  split; [unfold usize_max; simpl; lia|].
  apply (statement_printed_in_place _ (set_pr_comments sample_comments default_printer)).
  unfold usize_max. simpl. lia.
Defined.

Lemma printed_string_reads_back_witness :
  exists t, walk_string_lit (mkStringLit false [] [97; 34]) default_printer = Ok ((), set_out ([] ++ t) default_printer) /\
    exists q inner, t = q ++ inner ++ q /\ q = [34] /\
      str_content_eval true (H := ascii_tables) inner 34 false false false = Ok (Some [97; 34]).
Proof.
  apply (printed_string_reads_back true (U := ascii_tables) false [97; 34] default_printer).
  - rewrite !not_elem_of_cons. split_and!; [done|done|apply not_elem_of_nil].
  - right. rewrite !not_elem_of_cons. split_and!; [done|done|apply not_elem_of_nil].
Defined.

Lemma elif_rest_dropped_example :
  walk_stmt expr (sample_if [sample_if []; SExpr (mkExprStmt [at_line 5 (sample_name "c")])]) =
  walk_stmt expr (sample_if [sample_if []]).
Proof. by eapply elif_rest_dropped. Qed.
