(* ===== verification/ParserState.v ===== *)
(** * The parser's state ([kclvm/parser/src/parser/{mod,precedence}.rs], [session/mod.rs])

    A method of the parser runs in the monad [P]: it reads the fuel, which bounds the rounds
    of every loop and the depth of the recursion, and updates the parser.  The errors of the
    session are part of the state; positions are looked up in the source map, the parameter
    [SourceMap]. *)

From S2P Require Import Prelude MachineInt State Floats Chars AstToken IntLiteral Ast.

(** The operations on [compiler_base_span::SourceMap] the parser calls. *)
Class SourceMap := {
  lookup_char_pos : byte_pos -> Loc;
  span_to_snippet : span -> option text;
}.

Inductive ParseError :=
| UnexpectedToken (expected : list text) (got : text) (sp : span)
| Message (message : text) (sp : span).

Record parser := mkParser {
  token : Token;
  prev_token : Token;
  cursor : Cursor;
  comments : list (Node Comment);
  errors : list ParseError;   (* of the session *)
}.

Definition P (A : Type) : Type := nat -> st parser A.

#[export] Instance P_ret : MRet P := fun A a _ => mret a.
#[export] Instance P_bind : MBind P := fun A B f m n => m n ≫= (fun a => f a n).

Definition read {A} (f : parser -> A) : P A := fun _ => gets f.
Definition write (f : parser -> parser) : P unit := fun _ => modify f.
Definition abort {A} (e : string) : P A := fun _ => panic e.
Definition lift_o {A} (o : outcome A) : P A := fun _ => lift o.
Definition whenp (b : bool) (m : P unit) : P unit := if b then m else mret tt.

Definition out_of_fuel : string := "out of fuel".

(** [loop { ... }]: [inl] is the next round with its variables, [inr] the result. *)
Fixpoint loop_rounds {A R} (rounds : nat) (body : A -> st parser (A + R)) (a : A) : st parser R :=
  match rounds with
  | O => panic out_of_fuel
  | S rounds' =>
      r ← body a;
      match r with
      | inl a' => loop_rounds rounds' body a'
      | inr r => mret r
      end
  end.
Definition loop {A R} (body : A -> P (A + R)) (a : A) : P R :=
  fun n => loop_rounds n (fun a => body a n) a.

(** ** Tokens *)

Definition set_tokens (t prev : Token) (c : Cursor) (p : parser) : parser :=
  mkParser t prev c (comments p) (errors p).
Definition set_errors (e : list ParseError) (p : parser) : parser :=
  mkParser (token p) (prev_token p) (cursor p) (comments p) e.

Definition add_parse_err (err : ParseError) : P unit :=
  write (fun p => set_errors (errors p ++ [err]) p).
Definition struct_token_error (expected : list text) (got : Token) : P unit :=
  add_parse_err (UnexpectedToken expected (token_string got) (tok_span got)).
Definition struct_span_error (msg : text) (s : span) : P unit := add_parse_err (Message msg s).

(** The text of a token kind or of a symbol in a message. *)
Definition kind_text (k : TokenKind) : text := txt (token_kind_string k).
Definition lit_text (k : LitKind) : text := txt (lit_kind_string k).

Definition bump : P unit :=
  write (fun p =>
    let '(next, c) := cursor_next (cursor p) in
    set_tokens (match next with Some t => t | None => token p end) (token p) c p).

Definition has_next : P bool := fun _ p =>
  let '(next, c) := cursor_next (cursor p) in
  Ok (bool_decide (is_Some next), set_tokens (token p) (prev_token p) c p).

Definition token_kind : P TokenKind := read (fun p => kind (token p)).
Definition kind_is (k : TokenKind) : P bool := read (fun p => bool_decide (kind (token p) = k)).
Definition at_keyword (kw : symbol) : P bool := read (fun p => is_keyword (token p) kw).

Definition bump_keyword (kw : symbol) : P unit :=
  t ← read token;
  _ ← whenp (negb (is_keyword t kw)) (struct_token_error [kw] t);
  bump.

Definition bump_token (k : TokenKind) : P unit :=
  t ← read token;
  _ ← whenp (negb (bool_decide (kind t = k))) (struct_token_error [kind_text k] t);
  bump.

Definition skip_newlines : P unit :=
  loop (fun _ : unit =>
    b ← kind_is Newline;
    if (b : bool) then _ ← bump; mret (inl tt) else mret (inr tt)) tt.

(** [DropMarker]: the index of the cursor. *)
Definition mark : P nat := read (fun p => index (cursor p)).
Definition drop_mark (marker : nat) : P bool :=
  i ← read (fun p => index (cursor p));
  if bool_decide (marker = i) then
    t ← read token;
    _ ← struct_span_error (txt "expected expression got " ++ token_string t) (tok_span t);
    _ ← bump;
    mret true
  else mret false.

(** ** Positions *)

Section Positions.
Context `{SourceMap}.

Definition struct_token_loc (lot hit : Token) : Loc * Loc :=
  (lookup_char_pos (lo (tok_span lot)), lookup_char_pos (hi (tok_span hit))).

Definition byte_pos_to_pos (lo hi : byte_pos) : PosTuple :=
  let lo := lookup_char_pos lo in
  let hi := lookup_char_pos hi in
  (loc_file lo, loc_line lo, loc_col lo, loc_line hi, loc_col hi).

Definition token_span_pos (lo_tok hi_tok : Token) : PosTuple :=
  byte_pos_to_pos (lo (tok_span lo_tok)) (hi (tok_span hi_tok)).

(** A node from [lot] to the token before the current one. *)
Definition node_from {A} (lot : Token) (x : A) : P (Node A) :=
  prev ← read prev_token; mret (node_node x (struct_token_loc lot prev)).
Definition node_span {A} (lot : Token) (x : A) : P (Node A) :=
  prev ← read prev_token; mret (node_with_pos x (token_span_pos lot prev)).

(** ** Construction *)

(** The [for] loop of [split_token_stream], with the token before [stream]. *)
Fixpoint split_tokens (prev : Token) (stream : list Token) : list Token * list (Node Comment) :=
  match stream with
  | [] => ([], [])
  | tok :: stream' =>
      if bool_decide (kind tok = Eof) then
        ((if bool_decide (kind prev = Newline) then [] else [new_token Newline (tok_span tok)])
           ++ [tok], [])
      else
        let '(toks, comments) := split_tokens tok stream' in
        match kind tok with
        | DocComment (CommentLine x) =>
            (toks, node_node (mkComment x) (struct_token_loc tok tok) :: comments)
        | _ => (tok :: toks, comments)
        end
  end.
Definition split_token_stream (stream : list Token) : list Token * list (Node Comment) :=
  split_tokens (new_token Dummy (span_new 0 0)) stream.

(** [Parser::new], in a session with the errors [errs]. *)
Definition new_parser (errs : list ParseError) (stream : list Token) : parser :=
  let '(non_comment_tokens, comments) := split_token_stream stream in
  let '(next, c) := cursor_next (stream_cursor non_comment_tokens) in
  mkParser (match next with Some t => t | None => dummy end) dummy c comments errs.
End Positions.

(** ** Precedence ([precedence.rs]) *)

Inductive Precedence :=
| Lowest | As | LogicOr | LogicAnd | Equals | InOrNotIn | IsOrIsNot | LessGreater | BitOr | BitXor
| BitAnd | Shift | Sum | Product | Power | Prefix.

(** The derived order is the order of declaration. *)
Definition prec_rank (p : Precedence) : nat :=
  match p with
  | Lowest => 0 | As => 1 | LogicOr => 2 | LogicAnd => 3 | Equals => 4 | InOrNotIn => 5
  | IsOrIsNot => 6 | LessGreater => 7 | BitOr => 8 | BitXor => 9 | BitAnd => 10 | Shift => 11
  | Sum => 12 | Product => 13 | Power => 14 | Prefix => 15
  end.
Definition prec_le (p q : Precedence) : bool := (prec_rank p <=? prec_rank q)%nat.

Definition precedence_of (tok : Token) : Precedence :=
  if is_keyword tok kw_as then As
  else match kind tok with
  | AstToken.UnaryOp _ => Prefix
  | AstToken.BinOp ot =>
      match ot with
      | Plus | Minus => Sum
      | Star | Slash | Percent | SlashSlash => Product
      | StarStar => Power
      | Caret => BitXor
      | And => BitAnd
      | Or => BitOr
      | Shl | Shr => Shift
      end
  | AstToken.BinCmp ct =>
      match ct with
      | Eq | NotEq => Equals
      | Lt | LtEq | Gt | GtEq => LessGreater
      end
  | _ =>
      if is_keyword tok kw_or then LogicOr
      else if is_keyword tok kw_and then LogicAnd
      else if is_keyword tok kw_in then InOrNotIn
      else if is_keyword tok kw_is then IsOrIsNot
      else Lowest
  end.

(** ** Recursion

    The methods that call each other in cycles; [calls] gives each one's meaning. *)

Inductive call : Type -> Type :=
| parse_expr_call : call (Node Expr)
| do_parse_simple_expr_call (prec1 : Precedence) : call (Node Expr)
| parse_if_item_expr_call : call (Node Expr)
| parse_if_entry_expr_call : call (Node Expr)
| parse_stmt_call : call (option (Node Stmt))
| parse_type_annotation_call : call (Node Type_).
Definition calls : Type := forall A, call A -> P A.
