(* ===== verification/ParserExpr.v ===== *)
(** * The expression parser ([kclvm/parser/src/parser/expr.rs])

    Every method of the file, over the meaning [rec] of the methods that recurse.  The
    parameters of declarations and the interpolations of strings ([parse_parameters] and
    [parse_joined_string] of [stmt.rs]) are here too, because expressions call them. *)

From S2P Require Import Prelude MachineInt State Floats Chars Utf8 StrLiteral AstToken IntLiteral Ast ParserState.
From S2P Require ParserLexer.

(** ** Numbers ([str::parse::<f64>()]) *)

Definition lower_char (c : char) : char := if in_range (ch "A") c (ch "Z") then c + 32 else c.

(** The digits at the head: how many, their value, and what follows. *)
Fixpoint take_digits (s : text) (n : nat) (v : Z) : nat * Z * text :=
  match s with
  | c :: s' => if is_digit10 c then take_digits s' (S n) (v * 10 + (c - ch "0")) else (n, v, s)
  | [] => (n, v, [])
  end.

Definition f64_sign (s : text) : bool * text :=
  match s with
  | c :: s' => if c =? ch "-" then (true, s') else if c =? ch "+" then (false, s') else (false, s)
  | [] => (false, [])
  end.

(** The exponent part: [None] is an error. *)
Definition f64_exponent (s : text) : option Z :=
  match s with
  | [] => Some 0
  | c :: s' =>
      if lower_char c =? ch "e" then
        let '(neg, s') := f64_sign s' in
        match take_digits s' 0 0 with
        | (S _, v, []) => Some (if neg then - v else v)
        | _ => None
        end
      else None
  end.

Definition f64_parse (s : text) : option f64 :=
  let '(neg, s) := f64_sign s in
  let word := map lower_char s in
  if bool_decide (word = txt "inf") || bool_decide (word = txt "infinity") then
    Some (SpecFloat.S754_infinity neg)
  else if bool_decide (word = txt "nan") then Some SpecFloat.S754_nan
  else
    let '(n1, v1, s) := take_digits s 0 0 in
    let '(n2, v2, s) := match s with
                        | c :: s' => if c =? ch "." then take_digits s' 0 v1 else (O, v1, s)
                        | [] => (O, v1, s)
                        end in
    if (n1 + n2 =? 0)%nat then None
    else e ← f64_exponent s; Some (f64_of_decimal neg v2 (e - Z.of_nat n2)).

Example f64_parse_ex :
  (fun o => match o with Some x => f64_display x | None => "" end) <$>
    [f64_parse (txt "1.5"); f64_parse (txt "2e3"); f64_parse (txt ".25E-1"); f64_parse (txt "1_0.5")] =
  ["1.5"; "2000"; "0.025"; ""].
Proof. vm_compute. done. Qed.

(** ** Interpolated strings: finding the parts *)

(** The text before the first [${], and the text from it. *)
Fixpoint find_interpolation (s : text) : option (text * text) :=
  match s with
  | [] => None
  | c :: s' =>
      if (c =? ch "$") && (match s' with d :: _ => d =? ch "{" | [] => false end) then Some ([], s)
      else '(s0, s1) ← find_interpolation s'; Some (c :: s0, s1)
  end.

(** The text up to the first closing brace, with it, and the rest. *)
Fixpoint find_close (s : text) : option (text * text) :=
  match s with
  | [] => None
  | c :: s' =>
      if c =? ch "}" then Some ([c], s')
      else '(s0, s1) ← find_close s'; Some (c :: s0, s1)
  end.

(** [replace("$$", "$")]. *)
Fixpoint replace_dollars (s : text) : text :=
  match s with
  | c :: (d :: s'') as s' =>
      if (c =? ch "$") && (d =? ch "$") then ch "$" :: replace_dollars s''
      else c :: replace_dollars s'
  | _ => s
  end.

Section Expr.
Context (debug : bool) `{UnicodeTables, BigDigits, SourceMap} (rec : calls).

Notation parse_expr := (rec _ parse_expr_call).
Notation parse_simple_expr := (rec _ (do_parse_simple_expr_call Lowest)).

(** The token, or an error and nothing read. *)
Definition bump_or_error (k : TokenKind) : P unit :=
  b ← kind_is k;
  if (b : bool) then bump else t ← read token; struct_token_error [kind_text k] t.
Definition keyword_or_error (kw : symbol) : P unit :=
  b ← at_keyword kw;
  if (b : bool) then bump else t ← read token; struct_token_error [kw] t.
Definition bump_if (k : TokenKind) : P unit := b ← kind_is k; whenp b bump.

(** ** Identifiers *)

(** A node of width zero at the current token. *)
Definition empty_node {A} (x : A) : P (Node A) :=
  t ← read token;
  let p := lookup_char_pos (lo (tok_span t)) in mret (node_node x (p, p)).

Definition missing_expr : P (Node Expr) :=
  t ← read token; mret (node_node EMissing (struct_token_loc t t)).

Definition parse_identifier : P (Node Identifier) :=
  tok ← read token;
  match ident tok with
  | None =>
      _ ← struct_token_error [txt ident_value] tok;
      name ← empty_node [];
      empty_node (mkIdentifier [name] [] Load)
  | Some id =>
      _ ← bump;
      names ← loop (fun names =>
        b ← kind_is Dot;
        if (b : bool) then
          _ ← bump;
          t ← read token;
          match ident t with
          | Some id =>
              _ ← bump; mret (inl (names ++ [node_node id.1 (struct_token_loc t t)]))
          | None =>
              _ ← struct_token_error [txt ident_value] t;
              name ← empty_node [];
              mret (inl (names ++ [name]))
          end
        else mret (inr names)) [node_node id.1 (struct_token_loc tok tok)];
      node_from tok (mkIdentifier names [] Load)
  end.

Definition parse_identifier_expr : P (Node Expr) :=
  tok ← read token;
  i ← parse_identifier;
  node_from tok (EIdentifier (node i)).

Definition expr_as_identifier (expr : Node Expr) (tok : Token) : P Identifier :=
  match node expr with
  | EIdentifier x => mret x
  | _ =>
      _ ← struct_span_error (txt "expected identifier") (tok_span tok);
      mret (node (into_missing_identifier expr))
  end.

(** ** Literals *)

Definition parse_num_expr (lk : Lit) : P (Node Expr) :=
  tok ← read token;
  '(suf, value) ←
    match lit_kind lk with
    | Integer =>
        result ← lift_o (bytes_to_int debug (lit_symbol lk) 0);
        value ← match result with
                | Some value => mret value
                | None => _ ← struct_token_error [lit_text Integer] tok; mret 0
                end;
        mret (match suffix lk with
              | Some suffix => suffix_try_from (encode suffix)
              | None => None
              end, NlInt value)
    | Float =>
        value ← match f64_parse (lit_symbol lk) with
                | Some value => mret value
                | None => _ ← struct_token_error [lit_text Float] tok; mret f64_zero
                end;
        mret (None, NlFloat value)
    | _ => _ ← struct_token_error [lit_text Integer; lit_text Float] tok; mret (None, NlInt 0)
    end;
  _ ← bump;
  node_from tok (ENumberLit (mkNumberLit suf value)).

(** [m] run on another token stream, in the same session. *)
Definition on_stream {A} (stream : list Token) (m : P A) : P A := fun n p =>
  match m n (mkParser dummy dummy (stream_cursor stream) [] (errors p)) with
  | Ok (a, p') => Ok (a, set_errors (errors p') p)
  | Panic e => Panic e
  end.

(** The [parse_expr] inside [parse_joined_string]: [src] is [${...}]. *)
Definition parse_interpolation (src : text) (start_pos : byte_pos) : P (Node Expr) :=
  end_pos ← lift_o (add_u32 debug start_pos (as_u32 (str_len src)));
  src ← lift_o (slice 2 (str_len src - 1) src);
  _ ← whenp (bool_decide (src = []))
        (struct_span_error (txt "string interpolation expression can not be empty")
                           (span_new start_pos end_pos));
  start_pos ← lift_o (add_u32 debug start_pos 2);
  '(stream, lexer) ← lift_o (ParserLexer.parse_token_streams debug src start_pos);
  _ ← write (fun p => set_errors (errors p ++
              map (fun e => Message (txt e.1) e.2) (ParserLexer.errors lexer)) p);
  on_stream stream (
    _ ← bump;
    expr ← parse_expr;
    k ← token_kind;
    spec ← match k with
           | Colon =>
               _ ← bump;
               t ← read token;
               spec ← match kind t with
                      | DocComment _ =>
                          match span_to_snippet (tok_span t) with
                          | Some s => mret (Some s)
                          | None => abort "called `Result::unwrap()` on an `Err` value"
                          end
                      | _ =>
                          _ ← struct_span_error (txt "invalid joined string spec without #")
                                                (tok_span t);
                          mret None
                      end;
               _ ← bump;
               mret spec
           | _ => mret None
           end;
    hi ← lift_o (add_u32 debug start_pos (as_u32 (str_len src)));
    _ ← skip_newlines;
    more ← (if bool_decide (src = []) then mret false else has_next);
    _ ← whenp more (struct_span_error
          (txt "invalid string interpolation expression: '" ++ src ++ txt "'")
          (span_new start_pos hi));
    mret (node_with_pos (EFormattedValue (mkFormattedValue false expr spec))
                        (byte_pos_to_pos start_pos hi))).

Definition string_part (raw value : text) : Node Expr :=
  dummy_node (EStringLit (mkStringLit false raw value)).

Definition parse_joined_string (s : StringLit) (pos : byte_pos) : P (option (JoinedString Expr)) :=
  if (match raw_value s with c :: _ => (c =? ch "r") || (c =? ch "R") | [] => false end) then mret None
  else if negb (bool_decide (is_Some (find_interpolation (sl_value s)))) then mret None
  else
    start_pos ← lift_o (add_u32 debug pos (if is_long_string s then 3 else 1));
    let data := sl_value s in
    (* [rest] is [data[off..]]. *)
    vs ← loop (fun '(off, rest, values) =>
      match find_interpolation rest with
      | Some (s0, s') =>
          match find_close s' with
          | Some (s1, rest') =>
              let lo := off + str_len s0 in
              let hi := lo + str_len s1 in
              pos' ← lift_o (add_u32 debug start_pos (as_u32 lo));
              s1_expr ← parse_interpolation s1 pos';
              let s0_expr := if bool_decide (s0 = []) then [] else [string_part s0 (replace_dollars s0)] in
              mret (inl (hi, rest', values ++ s0_expr ++ [s1_expr]))
          | None =>
              t ← read token;
              _ ← struct_span_error (txt "invalid joined string") (tok_span t);
              mret (inr (values ++ [string_part rest rest]))
          end
      | None =>
          if str_len data <=? off then mret (inr values)
          else mret (inr (values ++ [string_part rest (replace_dollars rest)]))
      end) (0, data, []);
    mret (Some (mkJoinedString (is_long_string s) vs (raw_value s))).

Definition parse_str_expr (lk : Lit) : P (Node Expr) :=
  tok ← read token;
  '(long, raw_value, value) ←
    match lit_kind lk with
    | Str long _ => mret (long, match raw lk with Some raw => raw | None => [] end, lit_symbol lk)
    | _ => _ ← struct_token_error [lit_text (Str false false)] tok; mret (false, [34; 34], [])
    end;
  _ ← bump;
  let lit := mkStringLit long raw_value value in
  loc ← read (fun p => struct_token_loc tok (prev_token p));
  joined ← parse_joined_string lit (lo (tok_span tok));
  match joined with
  | Some joined_str => node_from tok (EJoinedString joined_str)
  | None => mret (node_node (EStringLit lit) loc)
  end.

Definition parse_constant_expr (lk : LitKind) : P (Node Expr) :=
  tok ← read token;
  value ← match lk with
          | LitBool =>
              if is_keyword tok kw_True then mret NcTrue
              else if is_keyword tok kw_False then mret NcFalse
              else _ ← struct_token_error [lit_text LitBool] tok; mret NcFalse
          | LitNone => mret NcNone
          | LitUndefined => mret NcUndefined
          | _ =>
              _ ← struct_token_error [lit_text LitBool; lit_text LitNone; lit_text LitUndefined] tok;
              mret NcUndefined
          end;
  _ ← bump;
  node_from tok (ENameConstantLit (mkNameConstantLit value)).

Definition parse_paren_expr : P (Node Expr) :=
  tok ← read token;
  _ ← bump;
  expr ← parse_expr;
  _ ← bump_or_error (CloseDelim Paren);
  node_from tok (EParen (mkParenExpr expr)).

(** ** Lists *)

(** [NEWLINE _INDENT] after an open delimiter: [inl] are the early returns of the source. *)
Inductive opening := Inline | Indented | ClosedAtOnce | NoIndent.

Definition parse_opening (close : DelimToken) : P opening :=
  b ← kind_is Newline;
  if negb b then mret Inline
  else
    _ ← skip_newlines;
    k ← token_kind;
    if bool_decide (k = Indent) then _ ← bump; mret Indented
    else if bool_decide (k = CloseDelim close) then _ ← bump; mret ClosedAtOnce
    else
      t ← read token;
      _ ← struct_token_error [kind_text Indent] t;
      mret NoIndent.

(** [_DEDENT], after the items of an indented literal. *)
Definition parse_closing_dedent (has_newline : bool) : P unit :=
  whenp has_newline (_ ← skip_newlines; bump_or_error Dedent).

Definition is_terminator (close : DelimToken) (has_newline : bool) (t : Token) : bool :=
  match kind t with
  | CloseDelim d => if bool_decide (d = close) then true else is_keyword t kw_for
  | Dedent | Eof => true
  | Newline => if negb has_newline then true else is_keyword t kw_for
  | _ => is_keyword t kw_for
  end.

Definition parse_list_item : P (Node Expr) :=
  tok ← read token;
  if bool_decide (kind tok = AstToken.BinOp Star) then
    _ ← bump;
    expr ← parse_expr;
    node_span tok (EStarred (mkStarredExpr expr Load))
  else if is_keyword tok kw_if then rec _ parse_if_item_expr_call
  else parse_expr.

(** One round of the loop of [parse_list_items]. *)
Definition list_items_round (has_newline : bool) (items : list (Node Expr))
    : P (list (Node Expr) + list (Node Expr)) :=
  marker ← mark;
  t ← read token;
  if is_terminator Bracket has_newline t then mret (inr items)
  else
    item ← parse_list_item;
    items ← match node item with
            | EMissing =>
                t ← read token;
                _ ← struct_token_error [kind_text Comma] t;
                _ ← bump;
                mret items
            | _ => mret (items ++ [item])
            end;
    _ ← bump_if Comma;
    _ ← whenp has_newline skip_newlines;
    _ ← drop_mark marker;
    mret (inl items).

Definition parse_list_items (has_newline : bool) : P (list (Node Expr)) :=
  tok ← read token;
  if is_terminator Bracket has_newline tok then mret []
  else
    item ← parse_list_item;
    _ ← bump_if Comma;
    _ ← whenp has_newline skip_newlines;
    loop (list_items_round has_newline) [item].

(** Inside an [if] item. *)
Definition parse_if_item_exec_block (need_skip_newlines : bool) : P (list (Node Expr)) :=
  if negb need_skip_newlines then item ← parse_list_item; mret [item]
  else
    _ ← skip_newlines;
    _ ← bump_token Indent;
    body ← loop (fun body =>
      b ← kind_is Dedent;
      if (b : bool) then mret (inr body)
      else
        item ← parse_list_item;
        _ ← bump_if Comma;
        _ ← skip_newlines;
        mret (inl (body ++ [item]))) [];
    _ ← bump_token Dedent;
    mret body.

(** A condition, its colon and the block; the flag [need_skip_newlines] stays set once it is. *)
Definition parse_if_item_branch (need_skip_newlines : bool) : P (ListIfItemExpr Expr * bool) :=
  if_cond ← parse_expr;
  _ ← bump_token Colon;
  b ← kind_is Newline;
  let need_skip_newlines := need_skip_newlines || b in
  exprs ← parse_if_item_exec_block need_skip_newlines;
  mret (mkListIfItemExpr if_cond exprs None, need_skip_newlines).

(** The [elif] branches, popped from the last one, take the [else] branch in. *)
Definition fix_elif_items (elif_list : list (Node (ListIfItemExpr Expr))) (orelse : option (Node Expr))
    : option (Node Expr) :=
  foldr (fun x orelse =>
    Some (with_node (EListIfItem (mkListIfItemExpr (li_if_cond (node x)) (li_exprs (node x)) orelse)) x))
    orelse elif_list.

Definition parse_if_item_expr : P (Node Expr) :=
  tok ← read token;
  _ ← bump_keyword kw_if;
  '(if_item, need) ← parse_if_item_branch false;
  _ ← skip_newlines;
  '(elif_list, need) ← loop (fun '(elif_list, need) =>
    t ← read token;
    if negb (is_keyword t kw_elif) then mret (inr (elif_list, need))
    else
      _ ← bump_keyword kw_elif;
      '(x, need) ← parse_if_item_branch need;
      x ← node_from t x;
      mret (inl (elif_list ++ [x], need))) ([], need);
  _ ← skip_newlines;
  t ← read token;
  orelse ← (if is_keyword t kw_else then
              _ ← bump_keyword kw_else;
              _ ← bump_token Colon;
              b ← kind_is Newline;
              else_body ← parse_if_item_exec_block (need || b);
              e ← node_from t (EList (mkListExpr else_body Load));
              mret (Some e)
            else mret None);
  node_from tok (EListIfItem (mkListIfItemExpr (li_if_cond if_item) (li_exprs if_item)
                                (fix_elif_items elif_list orelse))).

(** ** Comprehensions *)

Definition parse_comp_clause : P (Node (CompClause Expr)) :=
  tok ← read token;
  _ ← bump;
  first ← parse_identifier;
  targets ← loop (fun targets =>
    b ← kind_is Comma;
    if (b : bool) then _ ← bump; i ← parse_identifier; mret (inl (targets ++ [i]))
    else mret (inr targets)) [first];
  _ ← bump_if Comma;
  t ← read token;
  _ ← whenp (negb (is_keyword t kw_in)) (struct_token_error [kw_in] t);
  _ ← bump;
  iter ← parse_simple_expr;
  _ ← skip_newlines;
  ifs ← loop (fun ifs =>
    b ← at_keyword kw_if;
    if (b : bool) then _ ← bump; e ← parse_expr; mret (inl (ifs ++ [e]))
    else mret (inr ifs)) [];
  node_from tok (mkCompClause targets iter ifs).

Definition parse_comp_clauses : P (list (Node (CompClause Expr))) :=
  loop (fun clauses =>
    b ← at_keyword kw_for;
    if (b : bool) then c ← parse_comp_clause; mret (inl (clauses ++ [c]))
    else mret (inr clauses)) [].

Definition parse_list_expr (bump_left_brackets : bool) : P (Node Expr) :=
  tok ← (if bump_left_brackets then t ← read token; _ ← bump; mret t else read prev_token);
  b ← kind_is (CloseDelim Bracket);
  if (b : bool) then _ ← bump; node_from tok (EList (mkListExpr [] Load))
  else
    o ← parse_opening Bracket;
    match o with
    | ClosedAtOnce => node_from tok (EList (mkListExpr [] Load))
    | NoIndent =>
        t ← read token; mret (node_node (EList (mkListExpr [] Load)) (struct_token_loc tok t))
    | Inline | Indented =>
        let has_newline := match o with Indented => true | _ => false end in
        item_start_token ← read token;
        items ← parse_list_items has_newline;
        generators ← parse_comp_clauses;
        _ ← parse_closing_dedent has_newline;
        _ ← bump_or_error (CloseDelim Bracket);
        match generators with
        | [] => node_from tok (EList (mkListExpr items Load))
        | _ =>
            match items with
            | elt :: others =>
                _ ← whenp (negb ((length others =? 0)%nat))
                      (struct_span_error
                         (txt ("multiple list comp clause expression found: expected 1, got " +:+
                               pretty (length items))) (tok_span item_start_token));
                node_from tok (EListComp (mkListComp elt generators))
            | [] =>
                _ ← struct_span_error (txt "missing list comp clause expression")
                                      (tok_span item_start_token);
                node_from tok (EList (mkListExpr items Load))
            end
        end
    end.

(** ** Configurations *)

Definition parse_config_entry : P (Node (ConfigEntry Expr)) :=
  tok ← read token;
  '(key, value, operation) ←
    (if bool_decide (kind tok = AstToken.BinOp StarStar) then
       _ ← bump; value ← parse_expr; mret (None, value, OpUnion)
     else if is_keyword tok kw_if then
       value ← rec _ parse_if_entry_expr_call; mret (None, value, OpUnion)
     else
       key ← parse_expr;
       k ← token_kind;
       operation ← match k with
                   | Colon => mret OpUnion
                   | Assign => mret OpOverride
                   | AstToken.BinOpEq Plus => mret OpInsert
                   | _ =>
                       t ← read token;
                       _ ← struct_token_error [kind_text Colon; kind_text Assign;
                                               kind_text (AstToken.BinOpEq Plus)] t;
                       mret OpOverride
                   end;
       _ ← bump;
       value ← parse_expr;
       mret (Some key, value, operation));
  node_from tok (mkConfigEntry key value operation (-1)).

(** One round of the loop of [parse_config_entries]. *)
Definition config_entries_round (has_newline : bool) (entries : list (Node (ConfigEntry Expr)))
    : P (list (Node (ConfigEntry Expr)) + list (Node (ConfigEntry Expr))) :=
  marker ← mark;
  t ← read token;
  if is_terminator Brace has_newline t then mret (inr entries)
  else
    entry ← parse_config_entry;
    _ ← bump_if Comma;
    _ ← whenp has_newline skip_newlines;
    _ ← drop_mark marker;
    mret (inl (entries ++ [entry])).

Definition parse_config_entries (has_newline : bool) : P (list (Node (ConfigEntry Expr))) :=
  tok ← read token;
  if is_terminator Brace has_newline tok then mret []
  else
    entry ← parse_config_entry;
    _ ← bump_if Comma;
    _ ← whenp has_newline skip_newlines;
    loop (config_entries_round has_newline) [entry].

Definition parse_config_expr : P (Node Expr) :=
  tok ← read token;
  _ ← bump;
  b ← kind_is (CloseDelim Brace);
  if (b : bool) then _ ← bump; node_from tok (EConfig (mkConfigExpr []))
  else
    o ← parse_opening Brace;
    match o with
    | ClosedAtOnce => node_from tok (EConfig (mkConfigExpr []))
    | NoIndent =>
        t ← read token; mret (node_node (EConfig (mkConfigExpr [])) (struct_token_loc tok t))
    | Inline | Indented =>
        let has_newline := match o with Indented => true | _ => false end in
        item_start_token ← read token;
        items ← parse_config_entries has_newline;
        generators ← parse_comp_clauses;
        _ ← parse_closing_dedent has_newline;
        _ ← bump_or_error (CloseDelim Brace);
        match generators with
        | [] => node_from tok (EConfig (mkConfigExpr items))
        | _ =>
            match items with
            | entry :: others =>
                _ ← whenp (negb ((length others =? 0)%nat))
                      (struct_span_error
                         (txt ("multiple config comp clause expression found: expected 1, got " +:+
                               pretty (length items))) (tok_span item_start_token));
                node_from tok (EDictComp (mkDictComp (node entry) generators))
            | [] =>
                _ ← struct_span_error (txt "missing config comp clause expression")
                                      (tok_span item_start_token);
                node_from tok (EConfig (mkConfigExpr items))
            end
        end
    end.

(** ** Calls, subscripts and selectors *)

Definition parse_argument_expr : P (Node Expr + Node (Keyword Expr)) :=
  tok ← read token;
  expr ← parse_expr;
  arg_hi ← read prev_token;
  b ← kind_is Assign;
  if (b : bool) then
    _ ← bump;
    arg ← match node expr with
          | EIdentifier x => mret x
          | _ =>
              t ← read token;
              _ ← struct_token_error [txt ident_value] t;
              mret (node (into_missing_identifier expr))
          end;
    value ← parse_expr;
    k ← node_from tok (mkKeyword (node_node arg (struct_token_loc tok arg_hi)) (Some value));
    mret (inr k)
  else mret (inl expr).

Definition arguments_state : Type := list (Node Expr) * list (Node (Keyword Expr)) * bool.

(** One round of the loop of [parse_arguments_expr]. *)
Definition arguments_round (s : arguments_state)
    : P (arguments_state + list (Node Expr) * list (Node (Keyword Expr))) :=
  let '(args, keywords, has_keyword) := s in
  tok ← read token;
  r ← parse_argument_expr;
  '(args, keywords, has_keyword) ←
    match r with
    | inl expr =>
        _ ← whenp has_keyword
              (struct_span_error (txt "positional argument follows keyword argument") (tok_span tok));
        mret (args ++ [expr], keywords, has_keyword)
    | inr keyword => mret (args, keywords ++ [keyword], true)
    end;
  b ← kind_is Comma;
  if (b : bool) then _ ← bump; mret (inl (args, keywords, has_keyword))
  else mret (inr (args, keywords)).

Definition parse_arguments_expr : P (list (Node Expr) * list (Node (Keyword Expr))) :=
  loop arguments_round ([], [], false).

Definition parse_call (func : Node Expr) : P (CallExpr Expr) :=
  _ ← bump_or_error (OpenDelim Paren);
  b ← kind_is (CloseDelim Paren);
  '(args, keywords) ← (if (b : bool) then mret ([], []) else parse_arguments_expr);
  _ ← bump_if Comma;
  _ ← bump_or_error (CloseDelim Paren);
  mret (mkCallExpr func args keywords).

Definition parse_call_expr (func : Node Expr) (lot : Token) : P (Node Expr) :=
  call_expr ← parse_call func; node_from lot (ECall call_expr).

(** The variables of the loop over the parts of a subscript. *)
Record slice_state := mkSlice {
  round : Z; is_slice : bool; colon_counter : Z; parts : list (option (Node Expr));
  expr_index : nat; exprs_consecutive : Z }.

Definition subscript_round (s : slice_state) : P (slice_state + slice_state) :=
  if negb (round s <=? 4) then mret (inr s)
  else
    t ← read token;
    match kind t with
    | Colon =>
        _ ← bump;
        _ ← whenp (2 <? colon_counter s + 1)
              (t ← read token;
               struct_token_error [txt "expression"; kind_text (CloseDelim Bracket)] t);
        mret (inl (mkSlice (round s + 1) true (colon_counter s + 1) (parts s) (S (expr_index s))
                           (exprs_consecutive s - 1)))
    | CloseDelim Bracket => mret (inr s)
    | _ =>
        _ ← whenp (negb (is_slice s) && (round s =? 1))
              (struct_span_error (txt "a list should have only one expr") (tok_span t));
        e ← parse_expr;
        parts ← (if (expr_index s <? length (parts s))%nat then mret (<[expr_index s := Some e]> (parts s))
                 else abort "index out of bounds");
        _ ← whenp (1 <? exprs_consecutive s + 1)
              (t ← read token; struct_span_error (txt "consecutive exprs found") (tok_span t));
        mret (inl (mkSlice (round s + 1) (is_slice s) (colon_counter s) parts (expr_index s)
                           (exprs_consecutive s + 1)))
    end.

Definition part (s : slice_state) (i : nat) : option (Node Expr) := default None (parts s !! i).

Definition parse_subscript_expr (value : Node Expr) (lot : Token) : P (Node Expr) :=
  has_question ← kind_is Question;
  _ ← whenp has_question bump;
  _ ← bump_or_error (OpenDelim Bracket);
  s ← loop subscript_round (mkSlice 0 false 0 [None; None; None] 0 0);
  _ ← whenp (negb (length (parts s) =? 3)%nat)
        (t ← read token; struct_span_error (txt "a slice should have three exprs") (tok_span t));
  _ ← bump_or_error (CloseDelim Bracket);
  if is_slice s then
    node_from lot (ESubscript (mkSubscript value None (part s 0) (part s 1) (part s 2) Load has_question))
  else
    t ← read token;
    _ ← whenp (negb (bool_decide (is_Some (part s 0))))
          (struct_span_error (txt "expected expression got " ++ token_string t) (tok_span t));
    _ ← whenp (bool_decide (is_Some (part s 1)) || bool_decide (is_Some (part s 2)))
          (struct_span_error (txt "a list should have only one expr") (tok_span t));
    node_from lot (ESubscript (mkSubscript value (part s 0) None None None Load has_question)).

Definition parse_selector_expr (value : Node Expr) (lot : Token) : P (Node Expr) :=
  has_question ← kind_is Question;
  _ ← whenp has_question bump;
  _ ← bump;
  t ← read token;
  match ident t with
  | Some _ =>
      attr ← parse_identifier;
      node_from lot (ESelector (mkSelectorExpr value attr Load has_question))
  | None =>
      name ← empty_node [];
      attr ← empty_node (mkIdentifier [name] [] Load);
      mret (node_node (ESelector (mkSelectorExpr value attr Load has_question))
              (lookup_char_pos (lo (tok_span lot)), lookup_char_pos (lo (tok_span t))))
  end.

(** ** Schemas *)

Definition parse_schema_expr (expr : Node Expr) (lot : Token) : P (Node Expr) :=
  name ← match try_into_identifier expr with
         | Some v => mret v
         | None =>
             t ← read token;
             _ ← struct_token_error [txt ident_value] t;
             mret (into_missing_identifier expr)
         end;
  config ← parse_config_expr;
  node_from lot (ESchema (mkSchemaExpr name [] [] config)).

Definition parse_schema_expr_with_args (call : CallExpr Expr) (lot : Token) : P (Node Expr) :=
  name ← match try_into_identifier (func call) with
         | Some v => mret v
         | None =>
             t ← read token;
             _ ← struct_token_error [txt ident_value] t;
             mret (into_missing_identifier (func call))
         end;
  config ← parse_config_expr;
  node_from lot (ESchema (mkSchemaExpr name (args call) (keywords call) config)).

(** ** Quantifiers *)

Definition parse_quant_target_expr : P (Node Expr) :=
  t ← read token;
  match kind t with
  | Ident _ =>
      let not_targets := [kw_None; kw_Undefined; kw_lambda; kw_any; kw_all; kw_map; kw_filter] in
      if existsb (is_keyword t) not_targets then
        _ ← struct_token_error not_targets t; missing_expr
      else parse_identifier_expr
  | Literal lk =>
      match lit_kind lk with
      | Str _ _ => parse_str_expr lk
      | _ => _ ← struct_token_error [lit_text (Str false false)] t; missing_expr
      end
  | OpenDelim Bracket => parse_list_expr true
  | OpenDelim Brace => parse_config_expr
  | OpenDelim _ =>
      _ ← struct_token_error [kind_text (OpenDelim Bracket); kind_text (OpenDelim Brace)] t;
      missing_expr
  | _ => _ ← struct_token_error [txt ident_value; txt literal_value] t; missing_expr
  end.

Definition quant_op_of (t : Token) : option QuantOperation :=
  if is_keyword t kw_all then Some QAll
  else if is_keyword t kw_any then Some QAny
  else if is_keyword t kw_filter then Some QFilter
  else if is_keyword t kw_map then Some QMap
  else None.

Definition parse_quant_expr : P (Node Expr) :=
  tok ← read token;
  match quant_op_of tok with
  | None =>
      _ ← struct_token_error (map (fun q => txt (quant_string q)) [QAll; QAny; QFilter; QMap]) tok;
      missing_expr
  | Some op =>
      _ ← bump;
      v ← parse_identifier;
      b ← kind_is Comma;
      variables ← (if (b : bool) then _ ← bump; w ← parse_identifier; mret [v; w] else mret [v]);
      _ ← keyword_or_error kw_in;
      target ← parse_quant_target_expr;
      _ ← bump_or_error (OpenDelim Brace);
      has_newline ← kind_is Newline;
      _ ← whenp has_newline (_ ← skip_newlines; bump_or_error Indent);
      test ← parse_simple_expr;
      b ← at_keyword kw_if;
      if_cond ← (if (b : bool) then _ ← bump; e ← parse_expr; mret (Some e) else mret None);
      _ ← whenp has_newline
            (b ← kind_is Newline;
             _ ← (if (b : bool) then skip_newlines
                  else t ← read token; struct_token_error [kind_text Newline] t);
             bump_or_error Dedent);
      _ ← bump_or_error (CloseDelim Brace);
      node_from tok (EQuant (mkQuantExpr target variables op test if_cond Load))
  end.

(** ** Lambdas *)

(** [parse_parameters] of [stmt.rs]. *)
Definition parse_parameters (open_tokens close_tokens : list TokenKind) (bump_close : bool)
    : P (option (Node (Arguments_ Expr))) :=
  tok ← read token;
  let has_open_token := existsb (fun k => bool_decide (k = kind tok)) open_tokens in
  _ ← whenp has_open_token (bump_token (kind tok));
  if negb (bool_decide (open_tokens = [])) && negb has_open_token then mret None
  else
    args ← loop (fun args =>
      t ← read token;
      if existsb (fun k => bool_decide (k = kind t)) close_tokens then
        _ ← whenp bump_close (bump_token (kind t));
        mret (inr args)
      else if bool_decide (kind t = Newline) || bool_decide (kind t = Eof) then
        _ ← struct_token_error (map kind_text close_tokens) t;
        mret (inr args)
      else
        name ← parse_identifier;
        name_end ← read prev_token;
        let name := node_with_pos (node name) (token_span_pos t name_end) in
        b ← kind_is Colon;
        '(type_annotation, ty) ←
          (if (b : bool) then
             _ ← bump_token Colon;
             typ ← rec _ parse_type_annotation_call;
             mret (Some (node_with_pos (type_to_string (node typ)) (node_pos typ)), Some typ)
           else mret (None, None));
        b ← kind_is Assign;
        default_value ← (if (b : bool) then _ ← bump_token Assign; e ← parse_expr; mret (Some e)
                         else mret None);
        _ ← bump_if Comma;
        mret (inl (mkArguments (ar_args args ++ [name]) (defaults args ++ [default_value])
                     (type_annotation_list args ++ [type_annotation]) (ty_list args ++ [ty]))))
      (mkArguments [] [] [] []);
    _ ← skip_newlines;
    n ← node_span tok args;
    mret (Some n).

Definition parse_lambda_expr : P (Node Expr) :=
  tok ← read token;
  _ ← bump_keyword kw_lambda;
  k ← token_kind;
  args ← match k with
         | RArrow | OpenDelim _ => mret None
         | _ => parse_parameters [] [RArrow; OpenDelim Brace] false
         end;
  b ← kind_is RArrow;
  '(return_type_str, return_ty) ←
    (if (b : bool) then
       _ ← bump_token RArrow;
       typ ← rec _ parse_type_annotation_call;
       mret (Some (type_to_string (node typ)), Some typ)
     else mret (None, None));
  _ ← bump_token (OpenDelim Brace);
  has_newline ← kind_is Newline;
  _ ← whenp has_newline (_ ← skip_newlines; bump_or_error Indent);
  stmt_list ← loop (fun stmts =>
    k ← token_kind;
    match k with
    | CloseDelim Brace | Dedent | Eof => mret (inr stmts)
    | _ =>
        s ← rec _ parse_stmt_call;
        match s with
        | Some stmt => _ ← skip_newlines; mret (inl (stmts ++ [stmt]))
        | None => _ ← bump; mret (inl stmts)
        end
    end) [];
  _ ← whenp has_newline (bump_or_error Dedent);
  _ ← bump_token (CloseDelim Brace);
  node_from tok (ELambda (mkLambdaExpr args return_type_str stmt_list return_ty)).

(** ** Operands and suffixes *)

Definition parse_operand_expr : P (Node Expr) :=
  tok ← read token;
  match kind tok with
  | Ident _ =>
      if is_keyword tok kw_None then parse_constant_expr LitNone
      else if is_keyword tok kw_Undefined then parse_constant_expr LitUndefined
      else if is_keyword tok kw_True || is_keyword tok kw_False then parse_constant_expr LitBool
      else if is_keyword tok kw_lambda then parse_lambda_expr
      else if existsb (is_keyword tok) [kw_any; kw_all; kw_map; kw_filter] then parse_quant_expr
      else
        operand ← parse_identifier_expr;
        k ← token_kind;
        match k with
        | OpenDelim Brace => parse_schema_expr operand tok
        | OpenDelim Paren =>
            call ← parse_call operand;
            b ← kind_is (OpenDelim Brace);
            if (b : bool) then parse_schema_expr_with_args call tok
            else node_from tok (ECall call)
        | _ => mret operand
        end
  | Literal lk =>
      match lit_kind lk with
      | LitBool | LitNone | LitUndefined => parse_constant_expr (lit_kind lk)
      | Integer | Float => parse_num_expr lk
      | Str _ _ => parse_str_expr lk
      | LitErr =>
          _ ← struct_token_error [lit_text LitNone; lit_text LitUndefined; lit_text LitBool;
                                  lit_text Integer; lit_text (Str false false)] tok;
          missing_expr
      end
  | OpenDelim Paren => parse_paren_expr
  | OpenDelim Bracket => parse_list_expr true
  | OpenDelim Brace => parse_config_expr
  | OpenDelim NoDelim =>
      _ ← struct_token_error [kind_text (OpenDelim Paren); kind_text (OpenDelim Bracket);
                              kind_text (OpenDelim Brace)] tok;
      missing_expr
  | _ =>
      _ ← struct_token_error [txt ident_value; txt literal_value; kind_text (OpenDelim Paren);
                              kind_text (OpenDelim Bracket); kind_text (OpenDelim Brace)] tok;
      missing_expr
  end.

Definition match_operand_expr (t : Token) : bool :=
  match kind t with Literal _ | Ident _ | OpenDelim _ => true | _ => false end.

(** One suffix of a primary expression. *)
Definition primary_suffix (lot : Token) (operand : Node Expr) : P (Node Expr + Node Expr) :=
  k ← token_kind;
  peek ← read (fun p => cursor_peek (cursor p));
  match k with
  | Dot => o ← parse_selector_expr operand lot; mret (inl o)
  | Question =>
      match peek with
      | Some t =>
          match kind t with
          | Dot => o ← parse_selector_expr operand lot; mret (inl o)
          | OpenDelim Bracket => o ← parse_subscript_expr operand lot; mret (inl o)
          | _ => mret (inr operand)
          end
      | None => mret (inr operand)
      end
  | OpenDelim Paren => o ← parse_call_expr operand lot; mret (inl o)
  | OpenDelim Bracket => o ← parse_subscript_expr operand lot; mret (inl o)
  | _ => mret (inr operand)
  end.

Definition parse_primary_expr : P (Node Expr) :=
  lot ← read token;
  operand ← parse_operand_expr;
  loop (primary_suffix lot) operand.

Definition parse_unary_expr : P (Node Expr) :=
  tok ← read token;
  match unary_op_of tok with
  | None => parse_primary_expr
  | Some op =>
      _ ← bump;
      operand ← parse_primary_expr;
      node_from tok (EUnary (mkUnaryExpr op operand))
  end.

(** ** Binary operators *)

(** The precedence of the operator at the current token, and whether it has two words. *)
Definition peek_operator (tok : Token) (peek : option Token) : Precedence * bool :=
  let oprec := precedence_of tok in
  match peek with
  | Some peek =>
      let '(oprec, use) := if is_keyword tok kw_not && is_keyword peek kw_in
                           then (InOrNotIn, true) else (oprec, false) in
      if is_keyword tok kw_is && is_keyword peek kw_not then (IsOrIsNot, true) else (oprec, use)
  | None => (oprec, false)
  end.

Definition two_word_operator (tok peek : Token) : P BinOrCmpOp :=
  if is_keyword tok kw_not && is_keyword peek kw_in then mret (BcCmp CmpNotIn)
  else if is_keyword tok kw_is && is_keyword peek kw_not then mret (BcCmp CmpIsNot)
  else if is_keyword tok kw_not && is_keyword peek kw_is then
    _ ← struct_span_error (txt "'not is' here is invalid, consider using 'is not'") (tok_span tok);
    mret (BcCmp CmpIsNot)
  else
    _ ← struct_token_error [kw_not; kw_is; kind_text (AstToken.BinOpEq Plus)] tok;
    mret (BcCmp CmpIs).

(** One round of the loop: [x] is the operand so far, [cmp] the comparisons collected. *)
Definition binary_round (prec1 : Precedence) (tok : Token) (s : Node Expr * Compare Expr)
    : P (Node Expr * Compare Expr + Node Expr) :=
  let '(x, cmp) := s in
  t ← read token;
  peek ← read (fun p => cursor_peek (cursor p));
  let '(oprec, use_peek_op) := peek_operator t peek in
  if prec_le oprec prec1 then
    match ops cmp with
    | [] => mret (inr x)
    | _ => n ← node_from tok (ECompare cmp); mret (inr n)
    end
  else
    op ← (if (use_peek_op : bool) then
            op ← two_word_operator t (default dummy peek); mret (Some op)
          else match bin_or_cmp_op_of t with
               | Some op => mret (Some op)
               | None => _ ← struct_token_error (map txt bin_or_cmp_all_symbols) t; mret None
               end);
    match op with
    | None => mret (inr x)
    | Some op =>
        _ ← bump;
        _ ← whenp use_peek_op bump;
        y ← rec _ (do_parse_simple_expr_call oprec);
        match op with
        | BcCmp cmp_op =>
            let left := match ops cmp with [] => x | _ => cmp_left cmp end in
            mret (inl (x, mkCompare left (ops cmp ++ [cmp_op]) (comparators cmp ++ [y])))
        | BcBin _ =>
            '(x, cmp) ← match ops cmp with
                        | [] => mret (x, cmp)
                        | _ => n ← node_from tok (ECompare cmp);
                               mret (n, mkCompare (cmp_left cmp) [] [])
                        end;
            n ← node_from tok (EBinary (mkBinaryExpr x op y));
            mret (inl (n, cmp))
        end
    end.

Definition do_parse_simple_expr (prec1 : Precedence) : P (Node Expr) :=
  tok ← read token;
  x ← parse_unary_expr;
  loop (binary_round prec1 tok) (x, mkCompare x [] []).

Definition parse_if_expr (body : Node Expr) (tok : Token) : P (Node Expr) :=
  t ← read token;
  if is_keyword t kw_if then
    _ ← bump;
    cond ← parse_simple_expr;
    t ← read token;
    if is_keyword t kw_else then
      _ ← bump;
      orelse ← parse_expr;
      node_from tok (EIf (mkIfExpr body cond orelse))
    else
      _ ← struct_token_error [kw_else] t;
      orelse ← missing_expr;
      node_from tok (EIf (mkIfExpr body cond orelse))
  else
    _ ← struct_token_error [kw_if] t; missing_expr.

(** [parse_expr]: the name is that of the recursive call. *)
Definition parse_expr_body : P (Node Expr) :=
  tok ← read token;
  operand ← parse_simple_expr;
  b ← at_keyword kw_if;
  if (b : bool) then parse_if_expr operand tok else mret operand.

Definition parse_exprlist : P (list (Node Expr)) :=
  expr ← parse_expr;
  loop (fun exprs =>
    b ← kind_is Comma;
    if (b : bool) then _ ← bump; e ← parse_expr; mret (inl (exprs ++ [e]))
    else mret (inr exprs)) [expr].

(** ** Conditional entries of configurations *)

Definition push_item (body : ConfigIfEntryExpr Expr) (e : Node (ConfigEntry Expr)) : ConfigIfEntryExpr Expr :=
  mkConfigIfEntryExpr (ci_if_cond body) (ci_items body ++ [e]) (ci_orelse body).

(** [parse_body_item]: the body with the item, and whether there was one. *)
Definition parse_body_item (body : ConfigIfEntryExpr Expr) (need_skip_newlines : bool)
    : P (ConfigIfEntryExpr Expr * bool) :=
  marker ← mark;
  t ← read token;
  if bool_decide (kind t = if need_skip_newlines then Dedent else Newline) then mret (body, false)
  else if is_keyword t kw_elif || is_keyword t kw_else then mret (body, false)
  else if is_keyword t kw_if then
    expr1 ← rec _ parse_if_entry_expr_call;
    mret (push_item body (node_with_pos (mkConfigEntry None expr1 OpOverride (-1)) (node_pos expr1)), true)
  else if bool_decide (kind t = Dedent) || bool_decide (kind t = Newline) then mret (body, false)
  else if bool_decide (kind t = AstToken.BinOp StarStar) then
    _ ← bump;
    expr1 ← parse_primary_expr;
    mret (push_item body (node_with_pos (mkConfigEntry None expr1 OpOverride (-1)) (node_pos expr1)), true)
  else
    expr0 ← parse_expr;
    k ← token_kind;
    op ← match k with
         | Colon => _ ← bump; mret OpUnion
         | Assign => _ ← bump; mret OpOverride
         | AstToken.BinOpEq Plus => _ ← bump; mret OpInsert
         | _ =>
             t ← read token;
             _ ← struct_token_error [kind_text Colon; kind_text Assign;
                                     kind_text (AstToken.BinOpEq Plus)] t;
             mret OpOverride
         end;
    expr1 ← parse_expr;
    let item := node_with_pos (mkConfigEntry (Some expr0) expr1 op (-1)) (node_pos expr1) in
    _ ← drop_mark marker;
    mret (push_item body item, true).

Definition ignored_cond : Node Expr :=
  mkNode (ENameConstantLit (mkNameConstantLit NcNone)) [] 0 0 0 0.

Definition parse_if_entry_exec_block (need_skip_newlines : bool) : P (Node (ConfigIfEntryExpr Expr)) :=
  _ ← whenp need_skip_newlines (_ ← skip_newlines; bump_token Indent);
  tok ← read token;
  let body := mkConfigIfEntryExpr ignored_cond [] None in
  body ← (if negb need_skip_newlines then
            '(body, _) ← parse_body_item body need_skip_newlines; mret body
          else loop (fun body =>
            '(body, more) ← parse_body_item body need_skip_newlines;
            if (more : bool) then _ ← bump_if Comma; _ ← skip_newlines; mret (inl body)
            else mret (inr body)) body);
  _ ← whenp need_skip_newlines (_ ← skip_newlines; bump_token Dedent);
  node_from tok body.

(** A condition, its colon and the block. *)
Definition parse_if_entry_branch (need_skip_newlines : bool)
    : P (Node Expr * Node (ConfigIfEntryExpr Expr) * bool) :=
  if_cond ← parse_expr;
  _ ← bump_token Colon;
  b ← kind_is Newline;
  let need_skip_newlines := need_skip_newlines || b in
  body ← parse_if_entry_exec_block need_skip_newlines;
  mret (if_cond, body, need_skip_newlines).

Definition fix_elif_entries (elif_list : list (Node (ConfigIfEntryExpr Expr))) (orelse : option (Node Expr))
    : option (Node Expr) :=
  foldr (fun x orelse =>
    Some (with_node (EConfigIfEntry
            (mkConfigIfEntryExpr (ci_if_cond (node x)) (ci_items (node x)) orelse)) x))
    orelse elif_list.

Definition parse_if_entry_expr : P (Node Expr) :=
  _ ← bump_keyword kw_if;
  '(if_cond, if_entry, _) ← parse_if_entry_branch false;
  _ ← skip_newlines;
  '(elif_list, _) ← loop (fun '(elif_list, need) =>
    t ← read token;
    if negb (is_keyword t kw_elif) then mret (inr (elif_list, need))
    else
      _ ← bump_keyword kw_elif;
      '(elif_cond, elif_body, need) ← parse_if_entry_branch need;
      x ← node_from t (mkConfigIfEntryExpr elif_cond (ci_items (node elif_body)) None);
      mret (inl (elif_list ++ [x], need))) ([], false);
  _ ← skip_newlines;
  t ← read token;
  orelse ← (if is_keyword t kw_else then
              _ ← bump_keyword kw_else;
              _ ← bump_token Colon;
              b ← kind_is Newline;
              else_body ← parse_if_entry_exec_block b;
              e ← node_from t (EConfig (mkConfigExpr (ci_items (node else_body))));
              mret (Some e)
            else mret None);
  _ ← bump_if Comma;
  _ ← skip_newlines;
  mret (with_node (EConfigIfEntry (mkConfigIfEntryExpr if_cond (ci_items (node if_entry))
                                     (fix_elif_entries elif_list orelse))) if_entry).

(** ** Checks and decorators *)

Definition parse_check_expr : P (Node Expr) :=
  tok ← read token;
  test ← parse_simple_expr;
  b ← at_keyword kw_if;
  if_cond ← (if (b : bool) then _ ← bump; e ← parse_simple_expr; mret (Some e) else mret None);
  b ← kind_is Comma;
  msg ← (if (b : bool) then _ ← bump; e ← parse_primary_expr; mret (Some e) else mret None);
  node_from tok (ECheck (mkCheckExpr test if_cond msg)).

Definition parse_decorator_expr : P (Node Expr) :=
  tok ← read token;
  func ← parse_identifier_expr;
  b ← kind_is (OpenDelim Paren);
  if (b : bool) then _ ← bump; parse_call_expr func tok
  else node_from tok (ECall (mkCallExpr func [] [])).
End Expr.
