(* ===== verification/ParserStmt.v ===== *)
(** * The parser of types, statements and modules
    ([kclvm/parser/src/parser/{ty,stmt,module}.rs])

    The methods are over the meaning [rec] of the methods that recurse, which [run] ties:
    with fuel [n + 1] a method runs with fuel [n] for its loops and its recursive calls. *)

From S2P Require Import Prelude MachineInt State Floats Chars Utf8 StrLiteral AstToken IntLiteral Ast ParserState ParserExpr.
From S2P Require ParserLexer.

(** [str::parse::<i64>()]. *)
Definition i64_parse (s : text) : option Z :=
  let '(neg, s) := f64_sign s in
  match take_digits s 0 0 with
  | (S _, v, []) =>
      let v := if (neg : bool) then - v else v in
      if in_i64 v then Some v else None
  | _ => None
  end.

Definition unwrap_err : string := "called `Result::unwrap()` on an `Err` value".
Definition unwrap_none : string := "called `Option::unwrap()` on a `None` value".

Definition ends_with (suffix s : text) : bool :=
  bool_decide (drop (length s - length suffix) s = suffix).
Definition MIXIN_SUFFIX : text := txt "Mixin".
Definition PROTOCOL_SUFFIX : text := txt "Protocol".

Section Stmt.
Context (debug : bool) `{UnicodeTables, BigDigits, SourceMap} (rec : calls).

Notation parse_expr := (rec _ parse_expr_call).
Notation parse_simple_expr := (rec _ (do_parse_simple_expr_call Lowest)).
Notation parse_type_annotation := (rec _ parse_type_annotation_call).
Notation parse_stmt := (rec _ parse_stmt_call).

(** ** Types *)

Definition parse_literal_type (t : Token) (lit : Lit) : P LiteralType :=
  let not_bool :=
    if is_keyword t kw_True then mret (LtBool true)
    else if is_keyword t kw_False then mret (LtBool false)
    else _ ← struct_token_error [kw_True; kw_False] t; mret (LtBool false) in
  match lit_kind lit with
  | LitBool =>
      if bool_decide (lit_symbol lit = kw_True) then mret (LtBool true)
      else if bool_decide (lit_symbol lit = kw_False) then mret (LtBool false)
      else _ ← struct_token_error [kw_True; kw_False] t; mret (LtBool false)
  | Integer =>
      match i64_parse (lit_symbol lit) with
      | None => abort unwrap_err
      | Some v =>
          match suffix lit with
          | None => mret (LtInt v None)
          | Some suffix =>
              match suffix_try_from (encode suffix) with
              | Some x => mret (LtInt v (Some x))
              | None => abort unwrap_err
              end
          end
      end
  | Float =>
      match f64_parse (lit_symbol lit) with
      | Some v => mret (LtFloat v)
      | None => abort unwrap_err
      end
  | Str _ _ => mret (LtStr (lit_symbol lit))
  | _ => not_bool
  end.

(** The keywords that are types. *)
Definition keyword_types : list (symbol * Type_) :=
  [(kw_any, TAny); (kw_True, TLiteral (LtBool true)); (kw_False, TLiteral (LtBool false));
   (sym_bool, TBasic TBool); (sym_int, TBasic TInt); (sym_float, TBasic TFloat);
   (sym_str, TBasic TStr)].

Definition parse_type_element : P (Node Type_) :=
  tok ← read token;
  match list_find (fun kt => is_keyword tok kt.1 = true) keyword_types with
  | Some (_, (kw, t)) => _ ← bump_keyword kw; node_from tok t
  | None =>
      match kind tok with
      | Ident _ =>
          e ← parse_identifier_expr;
          match node e with
          | EIdentifier ident => node_from tok (TNamed ident)
          | _ => abort unwrap_none
          end
      | Literal lit =>
          t ← parse_literal_type tok lit;
          _ ← bump;
          node_from tok (TLiteral t)
      | OpenDelim Bracket =>
          _ ← bump_token (OpenDelim Bracket);
          b ← kind_is (CloseDelim Bracket);
          if (b : bool) then _ ← bump; node_from tok (TList (mkListType None))
          else
            elem_type ← parse_type_annotation;
            _ ← bump_token (CloseDelim Bracket);
            node_from tok (TList (mkListType (Some elem_type)))
      | OpenDelim Brace =>
          _ ← bump_token (OpenDelim Brace);
          b ← kind_is Colon;
          key_type ← (if (b : bool) then mret None else t ← parse_type_annotation; mret (Some t));
          _ ← bump_token Colon;
          b ← kind_is (CloseDelim Brace);
          value_type ← (if (b : bool) then mret None else t ← parse_type_annotation; mret (Some t));
          _ ← bump_token (CloseDelim Brace);
          node_from tok (TDict (mkDictType key_type value_type))
      | _ =>
          _ ← struct_token_error
                ([kw_any; sym_bool; sym_int; sym_float; sym_str; kw_True; kw_False;
                  txt ident_value; txt literal_value; kind_text (OpenDelim Bracket);
                  kind_text (OpenDelim Brace)]) tok;
          node_from tok TAny
      end
  end.

Definition parse_type_annotation_body : P (Node Type_) :=
  tok ← read token;
  first ← parse_type_element;
  types ← loop (fun types =>
    b ← kind_is (AstToken.BinOp Or);
    if (b : bool) then _ ← bump; t ← parse_type_element; mret (inl (types ++ [t]))
    else mret (inr types)) [first];
  if (1 <? length types)%nat then node_from tok (TUnion (mkUnionType types)) else mret first.

(** ** Simple statements *)

Definition store (n : Node Expr) (i : Identifier) : Node Identifier :=
  node_with_pos (set_ctx Store i) (node_pos n).

Definition parse_expr_stmt : P (Node Stmt) :=
  tok ← read token;
  e ← parse_expr;
  stmt ← node_span tok (SExpr (mkExprStmt [e]));
  _ ← skip_newlines;
  mret stmt.

(** The targets of an assignment; what is no identifier is reported. *)
Fixpoint assign_targets (exprs : list (Node Expr)) : P (list (Node Identifier)) :=
  match exprs with
  | [] => mret []
  | expr :: exprs' =>
      i ← match node expr with
          | EIdentifier x => mret (store expr x)
          | _ =>
              t ← read token;
              _ ← struct_token_error [txt ident_value] t;
              mret (into_missing_identifier expr)
          end;
      others ← assign_targets exprs';
      mret (i :: others)
  end.

(** After the first expression: a type annotation, a unification or an augmented
    assignment; the last two are whole statements. *)
Definition parse_annotation (tok : Token) (target : Node Expr)
    : P (Node Stmt + option (Node Type_)) :=
  k ← token_kind;
  match k with
  | Colon =>
      _ ← bump_token Colon;
      typ ← parse_type_annotation;
      b ← kind_is (OpenDelim Brace);
      match b, node typ with
      | true, TNamed identifier =>
          schema_expr ← parse_schema_expr rec (node_with_pos (EIdentifier identifier) (node_pos typ)) tok;
          ident ← expr_as_identifier target tok;
          match try_into_schema_expr schema_expr with
          | None => abort unwrap_err
          | Some value =>
              _ ← skip_newlines;
              s ← node_span tok (SUnification (mkUnificationStmt (store target ident) value));
              mret (inl s)
          end
      | _, _ => mret (inr (Some typ))
      end
  | AstToken.BinOpEq x =>
      _ ← bump_token k;
      value ← parse_expr;
      ident ← expr_as_identifier target tok;
      t ← node_span tok (SAugAssign (mkAugAssignStmt (store target ident) value (aug_op_of x)));
      _ ← skip_newlines;
      mret (inl t)
  | _ => mret (inr None)
  end.

Definition type_annotation_of (typ : Node Type_) : Node text :=
  node_with_pos (type_to_string (node typ)) (node_pos typ).

Definition schema_attr (target : Node Expr) (name : text) (typ : Node Type_) (op : option BinOrAugOp)
    (value : option (Node Expr)) : Stmt :=
  SSchemaAttr (mkSchemaAttr [] (node_with_pos name (node_pos target)) (type_annotation_of typ)
                 op value false [] typ).

Definition end_at {A} (last : Node A) (pos : PosTuple) : PosTuple :=
  let '(f, l, c, _, _) := pos in (f, l, c, end_line last, end_column last).

Definition parse_expr_or_assign_stmt (is_in_schema_stmt : bool) : P (option (Node Stmt)) :=
  tok ← read token;
  first ← parse_expr;
  r ← parse_annotation tok first;
  match r with
  | inl stmt => mret (Some stmt)
  | inr ty =>
      '(targets, value_or_target) ← loop (fun '(targets, value_or_target) =>
        b ← kind_is Assign;
        if (b : bool) then
          _ ← bump_token Assign;
          expr ← parse_expr;
          mret (inl (targets ++ match value_or_target with Some t => [t] | None => [] end, Some expr))
        else mret (inr (targets, value_or_target))) ([first], None);
      k ← token_kind;
      (* An attribute with an augmented assignment. *)
      attr ← match k, ty with
             | AstToken.BinOpEq x, Some typ =>
                 if (length targets =? 1)%nat && is_in_schema_stmt then
                   _ ← bump_token k;
                   value ← parse_expr;
                   match node first with
                   | EIdentifier target =>
                       _ ← skip_newlines;
                       s ← node_span tok (schema_attr first (get_name target) typ
                                            (Some (BaAug (aug_op_of x))) (Some value));
                       mret (Some s)
                   | _ => mret None
                   end
                 else mret None
             | _, _ => mret None
             end;
      match attr with
      | Some s => mret (Some s)
      | None =>
          stmt_end_token ← read prev_token;
          let pos := token_span_pos tok stmt_end_token in
          match value_or_target with
          | Some value =>
              targets ← assign_targets targets;
              _ ← skip_newlines;
              mret (Some (node_with_pos
                (SAssign (mkAssignStmt targets value (type_annotation_of <$> ty) ty)) pos))
          | None =>
              match ty, node first with
              | Some typ, EIdentifier target =>
                  if is_in_schema_stmt then
                    _ ← skip_newlines;
                    mret (Some (node_with_pos (schema_attr first (get_name target) typ None None) pos))
                  else
                    t ← read token;
                    _ ← struct_token_error [kind_text Assign] t;
                    mret None
              | None, _ =>
                  let t := node_with_pos (SExpr (mkExprStmt targets))
                             (end_at (default first (last targets)) (node_pos first)) in
                  _ ← skip_newlines;
                  mret (Some t)
              | Some _, _ =>
                  t ← read token;
                  _ ← struct_token_error [kind_text Assign] t;
                  mret None
              end
          end
      end
  end.

Definition parse_assert_stmt : P (Node Stmt) :=
  tok ← read token;
  _ ← bump_keyword kw_assert;
  simple_expr ← parse_simple_expr;
  b ← at_keyword kw_if;
  if_cond ← (if (b : bool) then _ ← bump_keyword kw_if; e ← parse_simple_expr; mret (Some e)
             else mret None);
  b ← kind_is Comma;
  msg ← (if (b : bool) then _ ← bump_token Comma; e ← parse_expr; mret (Some e) else mret None);
  t ← node_span tok (SAssert (mkAssertStmt simple_expr if_cond msg));
  _ ← skip_newlines;
  mret t.

Definition leading_dots (k : TokenKind) (dots : text) : P text :=
  loop (fun acc =>
    b ← kind_is k;
    if (b : bool) then _ ← bump_token k; mret (inl (acc ++ dots)) else mret (inr acc)) [].

Definition parse_import_stmt : P (Node Stmt) :=
  tok ← read token;
  _ ← bump_keyword kw_import;
  dots3 ← leading_dots DotDotDot (txt "...");
  dots1 ← leading_dots Dot (txt ".");
  dot_name ← parse_identifier;
  b ← at_keyword kw_as;
  asname ← (if (b : bool) then
              _ ← bump_keyword kw_as;
              ident ← parse_identifier;
              mret (Some (get_name (node ident)))
            else mret None);
  let path := dots3 ++ dots1 ++ get_name (node dot_name) in
  name ← match asname with
         | Some name => mret name
         | None => match last (get_names (node dot_name)) with
                   | Some name => mret name
                   | None => abort unwrap_none
                   end
         end;
  t ← node_span tok (SImport (mkImportStmt path path name asname []));
  _ ← skip_newlines;
  mret t.

Definition parse_type_alias_stmt : P (Node Stmt) :=
  _ ← bump_keyword kw_type;
  type_name_pos ← read token;
  expr ← parse_expr;
  type_name ← expr_as_identifier expr type_name_pos;
  type_name_end ← read prev_token;
  _ ← bump_token Assign;
  typ_pos ← read token;
  typ ← parse_type_annotation;
  typ_end ← read prev_token;
  _ ← skip_newlines;
  mret (node_with_pos
    (STypeAlias (mkTypeAliasStmt
       (node_with_pos type_name (token_span_pos type_name_pos type_name_end))
       (node_with_pos (type_to_string (node typ)) (token_span_pos typ_pos typ_end)) typ))
    (token_span_pos type_name_pos typ_end)).

Definition is_eof : P bool := kind_is Eof.

Definition parse_simple_stmt : P (option (Node Stmt)) :=
  _ ← skip_newlines;
  t ← read token;
  if bool_decide (kind t = Eof) then mret None
  else if is_keyword t kw_import then s ← parse_import_stmt; mret (Some s)
  else if is_keyword t kw_type then s ← parse_type_alias_stmt; mret (Some s)
  else if is_keyword t kw_assert then s ← parse_assert_stmt; mret (Some s)
  else match kind t with
  | AstToken.UnaryOp _ => s ← parse_expr_stmt; mret (Some s)
  | Ident _ | Literal _ | OpenDelim _ => parse_expr_or_assign_stmt false
  | _ => mret None
  end.

(** ** Blocks and conditions *)

Definition parse_block_stmt_list (open_tok close_tok : TokenKind) : P (list (Node Stmt)) :=
  _ ← bump_token open_tok;
  stmts ← loop (fun stmts =>
    b ← kind_is close_tok;
    if (b : bool) then _ ← bump_token close_tok; mret (inr stmts)
    else
      s ← parse_stmt;
      match s with
      | Some stmt => mret (inl (stmts ++ [stmt]))
      | None => _ ← bump; mret (inl stmts)
      end) [];
  _ ← skip_newlines;
  mret stmts.

(** What follows the colon of [if], [elif] and [else]. *)
Definition parse_if_body : P (list (Node Stmt)) :=
  b ← kind_is Newline;
  if negb b then
    s ← parse_expr_or_assign_stmt false;
    match s with
    | Some stmt => mret [stmt]
    | None => _ ← bump; mret []
    end
  else
    _ ← skip_newlines;
    parse_block_stmt_list Indent Dedent.

Definition fix_elif_stmts (elif_list : list (Node (IfStmt Expr Stmt))) (orelse : list (Node Stmt))
    : list (Node Stmt) :=
  foldr (fun x orelse =>
    let pos := match last orelse with
               | None => node_pos x
               | Some e => end_at e (node_pos x)
               end in
    [node_with_pos (SIf (mkIfStmt (is_body (node x)) (is_cond (node x)) orelse)) pos])
    orelse elif_list.

Definition parse_if_stmt : P (Node Stmt) :=
  tok ← read token;
  _ ← bump_keyword kw_if;
  cond ← parse_expr;
  _ ← bump_token Colon;
  body ← parse_if_body;
  _ ← skip_newlines;
  elif_list ← loop (fun elif_list =>
    t ← read token;
    if is_keyword t kw_elif then
      _ ← bump_keyword kw_elif;
      cond ← parse_expr;
      _ ← bump_token Colon;
      body ← parse_if_body;
      x ← node_span t (mkIfStmt body cond []);
      mret (inl (elif_list ++ [x]))
    else mret (inr elif_list)) [];
  _ ← skip_newlines;
  b ← at_keyword kw_else;
  orelse ← (if (b : bool) then
              _ ← bump_keyword kw_else;
              _ ← bump_token Colon;
              parse_if_body
            else mret []);
  t ← node_span tok (SIf (mkIfStmt body cond (fix_elif_stmts elif_list orelse)));
  _ ← skip_newlines;
  mret t.

(** ** Schemas *)

Definition parse_decorators : P (list (Node (CallExpr Expr))) :=
  decorators ← loop (fun decorators =>
    b ← kind_is At;
    if (b : bool) then
      _ ← bump_token At;
      expr ← parse_expr;
      decorators ←
        match node expr with
        | EIdentifier x =>
            let func := node_with_pos (EIdentifier x) (node_pos expr) in
            mret (decorators ++ [node_with_pos (mkCallExpr func [] []) (node_pos expr)])
        | ECall x => mret (decorators ++ [node_with_pos x (node_pos expr)])
        | _ =>
            t ← read token;
            _ ← struct_token_error [txt ident_value] t;
            mret decorators
        end;
      _ ← skip_newlines;
      mret (inl decorators)
    else mret (inr decorators)) [];
  _ ← skip_newlines;
  mret decorators.

Definition parse_mixins : P (list (Node Identifier)) :=
  _ ← bump_keyword kw_mixin;
  _ ← bump_token (OpenDelim Bracket);
  has_newline ← kind_is Newline;
  _ ← whenp has_newline (_ ← skip_newlines; bump_or_error Indent);
  mixins ← loop (fun mixins =>
    k ← token_kind;
    match k with
    | CloseDelim Bracket | Dedent => mret (inr mixins)
    | _ =>
        expr ← parse_identifier;
        _ ← bump_if Comma;
        _ ← skip_newlines;
        mret (inl (mixins ++ [expr]))
    end) [];
  _ ← whenp has_newline (bump_or_error Dedent);
  _ ← bump_token (CloseDelim Bracket);
  mret mixins.

Definition parse_schema_attribute : P (SchemaAttr Expr) :=
  b ← kind_is At;
  decorators ← (if (b : bool) then d ← parse_decorators; _ ← skip_newlines; mret d else mret []);
  name_expr ← parse_identifier;
  let name := node_with_pos (get_name (node name_expr)) (node_pos name_expr) in
  is_optional ← kind_is Question;
  _ ← whenp is_optional (bump_token Question);
  _ ← bump_token Colon;
  typ ← parse_type_annotation;
  k ← token_kind;
  op ← match k with
       | Assign => _ ← bump_token Assign; mret (Some (BaAug AugAssignOp))
       | AstToken.BinOpEq x => _ ← bump_token k; mret (Some (BaAug (aug_op_of x)))
       | _ => mret None
       end;
  value ← match op with Some _ => e ← parse_expr; mret (Some e) | None => mret None end;
  _ ← skip_newlines;
  mret (mkSchemaAttr [] name (type_annotation_of typ) op value is_optional decorators typ).

Definition parse_schema_index_signature : P (SchemaIndexSignature Expr) :=
  tok ← read token;
  '(key_name, key_type, any_other) ←
    (if bool_decide (kind tok = DotDotDot) then
       _ ← bump;
       typ ← parse_type_annotation;
       mret (None, type_annotation_of typ, true)
     else
       expr ← parse_identifier_expr;
       ident ← expr_as_identifier expr tok;
       let key_name := get_name ident in
       b ← kind_is (CloseDelim Bracket);
       if (b : bool) then
         mret (None, type_annotation_of (node_with_pos (TNamed ident) (node_pos expr)), false)
       else
         _ ← bump_token Colon;
         any_other ← kind_is DotDotDot;
         _ ← whenp any_other bump;
         typ ← parse_type_annotation;
         mret (Some key_name, type_annotation_of typ, any_other));
  _ ← bump_token (CloseDelim Bracket);
  _ ← bump_token Colon;
  typ ← parse_type_annotation;
  b ← kind_is Assign;
  value ← (if (b : bool) then _ ← bump; e ← parse_expr; mret (Some e) else mret None);
  _ ← skip_newlines;
  mret (mkSchemaIndexSignature key_name key_type (type_annotation_of typ) value any_other typ).

Definition kind_of_peek (t : option Token) : TokenKind :=
  match t with Some t => kind t | None => Eof end.

Definition parse_schema_index_signature_or_list
    : P (option (SchemaIndexSignature Expr) * option (Node Expr)) :=
  _ ← bump_token (OpenDelim Bracket);
  peek ← read (fun p => kind_of_peek (cursor_peek (cursor p)));
  peek2 ← read (fun p => kind_of_peek (cursor_peek2 (cursor p)));
  k ← token_kind;
  let list := l ← parse_list_expr rec false; mret (None, Some l) in
  let signature := s ← parse_schema_index_signature; mret (Some s, None) in
  match k with
  | Newline | CloseDelim Bracket => list
  | Ident _ =>
      if negb (bool_decide (peek = Colon)) && negb (bool_decide (peek2 = Colon)) then list else signature
  | DotDotDot => match peek with Ident _ => signature | _ => mret (None, None) end
  | _ => mret (None, None)
  end.

Definition parse_check_exprs : P (list (Node (CheckExpr Expr))) :=
  loop (fun checks =>
    t ← read token;
    if bool_decide (kind t = Dedent) then mret (inr checks)
    else
      marker ← mark;
      if bool_decide (kind t = Eof) then
        _ ← struct_token_error [kind_text Newline] t; mret (inr checks)
      else
        expr ← parse_check_expr debug rec;
        match node expr with
        | ECheck c =>
            _ ← skip_newlines;
            _ ← drop_mark marker;
            mret (inl (checks ++ [node_with_pos c (node_pos expr)]))
        | _ => abort unwrap_none
        end) [].

Definition parse_schema_check_block : P (list (Node (CheckExpr Expr))) :=
  b ← at_keyword kw_check;
  if negb b then mret []
  else
    _ ← bump_keyword kw_check;
    _ ← bump_token Colon;
    _ ← skip_newlines;
    _ ← bump_token Indent;
    checks ← parse_check_exprs;
    _ ← bump_token Dedent;
    mret checks.

Definition parse_doc : P text :=
  k ← token_kind;
  match k with
  | Literal lit =>
      match lit_kind lit with
      | Str _ _ =>
          doc_expr ← parse_str_expr debug rec lit;
          _ ← skip_newlines;
          mret match node doc_expr with
               | EStringLit str => raw_value str
               | EJoinedString str => js_raw_value str
               | _ => []
               end
      | _ => mret []
      end
  | _ => mret []
  end.

(** The statement a schema body keeps of a statement: an annotated assignment to one name is
    an attribute. *)
Definition as_schema_attr (x : Node Stmt) : outcome (option (Node Stmt)) :=
  match node x with
  | SSchemaAttr attr => Ok (Some (node_with_pos (SSchemaAttr attr) (node_pos x)))
  | SAssign a =>
      match targets a, as_type_annotation a with
      | [t], Some type_str =>
          if bool_decide (node type_str = []) then Ok None
          else match as_ty a with
          | None => Panic unwrap_none
          | Some ty =>
              Ok (Some (node_with_pos (SSchemaAttr
                 (mkSchemaAttr [] (node_with_pos (get_name (node t)) (node_pos t)) type_str
                    (Some (BaAug AugAssignOp)) (Some (as_value a)) false [] ty)) (node_pos x)))
          end
      | _, _ => Ok None
      end
  | _ => Ok None
  end.

Definition body_state : Type := list (Node Stmt) * option (Node (SchemaIndexSignature Expr)).

(** One round of the loop of [parse_schema_body]. *)
Definition schema_body_round (s : body_state) : P (body_state + body_state) :=
  let '(body, index_signature) := s in
  marker ← mark;
  tok ← read token;
  peek ← read (fun p => cursor_peek (cursor p));
  let attribute :=
    attr ← parse_schema_attribute;
    s ← node_span tok (SSchemaAttr attr);
    mret (inl (body ++ [s], index_signature)) in
  if bool_decide (kind tok = Dedent) || bool_decide (kind tok = Eof) || is_keyword tok kw_check then
    mret (inr (body, index_signature))
  else if is_keyword tok kw_assert then
    s ← parse_assert_stmt; mret (inl (body ++ [s], index_signature))
  else if is_keyword tok kw_if then
    s ← parse_if_stmt; mret (inl (body ++ [s], index_signature))
  else if bool_decide (kind tok = At) then attribute
  else if bool_decide (kind <$> peek = Some Question) then attribute
  else if bool_decide (kind tok = OpenDelim Bracket) then
    '(index_sig, or_list_expr) ← parse_schema_index_signature_or_list;
    s ← match index_sig, or_list_expr with
        | Some x, _ =>
            _ ← whenp (bool_decide (is_Some index_signature))
                  (struct_span_error (txt "duplicate schema index signature definitions, only one is allowed in the schema")
                                     (tok_span tok));
            n ← node_span tok x;
            mret (body, Some n)
        | None, Some list_expr =>
            n ← node_span tok (SExpr (mkExprStmt [list_expr]));
            mret (body ++ [n], index_signature)
        | None, None =>
            t ← read token;
            _ ← struct_span_error
                  (txt "expected a index signature or list expression here, got " ++ token_string t)
                  (tok_span t);
            mret (body, index_signature)
        end;
    _ ← skip_newlines;
    mret (inl s)
  else
    x ← parse_expr_or_assign_stmt true;
    match x with
    | Some x =>
        attr ← lift_o (as_schema_attr x);
        match attr with
        | Some attr => mret (inl (body ++ [attr], index_signature))
        | None => _ ← drop_mark marker; mret (inl (body ++ [x], index_signature))
        end
    | None => _ ← bump; _ ← drop_mark marker; mret (inl (body, index_signature))
    end.

Definition parse_schema_body : P (SchemaStmt Expr Stmt) :=
  _ ← bump_token Indent;
  body_doc ← parse_doc;
  b ← at_keyword kw_mixin;
  body_mixins ← (if (b : bool) then m ← parse_mixins; _ ← skip_newlines; mret m else mret []);
  '(body_body, body_index_signature) ← loop schema_body_round ([], None);
  body_checks ← parse_schema_check_block;
  _ ← bump_token Dedent;
  _ ← skip_newlines;
  mret (mkSchemaStmt body_doc (mkNode [] [] 0 0 0 0) None None false false None body_mixins
          body_body [] body_checks body_index_signature).

(** [schema Name[args](Base) for Host]. *)
Definition parse_bracket_parameters : P (option (Node (Arguments_ Expr))) :=
  b ← kind_is (OpenDelim Bracket);
  if (b : bool) then parse_parameters rec [OpenDelim Bracket] [CloseDelim Bracket] true
  else mret None.

Definition parse_for_host : P (option (Node Identifier)) :=
  b ← at_keyword kw_for;
  if negb b then mret None
  else
    _ ← bump_keyword kw_for;
    t ← read token;
    expr ← parse_expr;
    ident ← expr_as_identifier expr t;
    mret (Some (node_with_pos ident (node_pos expr))).

Definition parse_schema_stmt (decorators : option (list (Node (CallExpr Expr)))) : P (Node Stmt) :=
  tok ← read token;
  let decorators := default [] decorators in
  '(is_mixin, is_protocol) ←
    (if is_keyword tok kw_mixin then _ ← bump_keyword kw_mixin; mret (true, false)
     else if is_keyword tok kw_protocol then _ ← bump_keyword kw_protocol; mret (false, true)
     else _ ← bump_keyword kw_schema; mret (false, false));
  name_expr ← parse_identifier;
  let name := node_with_pos (get_name (node name_expr)) (node_pos name_expr) in
  let is_mixin' := is_mixin || ends_with MIXIN_SUFFIX (node name) in
  let is_protocol' := is_protocol ||
    (negb (ends_with MIXIN_SUFFIX (node name)) && ends_with PROTOCOL_SUFFIX (node name)) in
  args ← parse_bracket_parameters;
  b ← kind_is (OpenDelim Paren);
  parent_name ← (if (b : bool) then
                   _ ← bump_token (OpenDelim Paren);
                   expr ← parse_identifier;
                   _ ← bump_token (CloseDelim Paren);
                   mret (Some (node_with_pos (node expr) (node_pos expr)))
                 else mret None);
  for_host_name ← parse_for_host;
  _ ← bump_token Colon;
  _ ← skip_newlines;
  b ← kind_is Indent;
  body ← (if (b : bool) then parse_schema_body
          else mret (mkSchemaStmt [] name None None false false None [] [] [] [] None));
  node_span tok (SSchema (mkSchemaStmt (sc_doc body) name parent_name for_host_name is_mixin' is_protocol'
                            args (sc_mixins body) (sc_body body) decorators (sc_checks body)
                            (sc_index_signature body))).

(** ** Rules *)

Definition parent_rules_round (rules : list (Node Identifier))
    : P (list (Node Identifier) + list (Node Identifier)) :=
  t ← read token;
  if bool_decide (kind t = CloseDelim Paren) then _ ← bump; mret (inr rules)
  else if bool_decide (kind t = Newline) || bool_decide (kind t = Eof) then
    _ ← struct_token_error [kind_text (CloseDelim Paren); kind_text Comma] t;
    mret (inr rules)
  else
    expr ← parse_expr;
    rule_name ← expr_as_identifier expr t;
    t ← read token;
    _ ← match kind t with
        | Comma | CloseDelim Paren | Newline | Eof => mret tt
        | _ => _ ← struct_token_error [kind_text Comma; kind_text (CloseDelim Paren)] t; bump
        end;
    _ ← bump_if Comma;
    mret (inl (rules ++ [node_with_pos rule_name (node_pos expr)])).

Definition parse_rule_stmt (decorators : option (list (Node (CallExpr Expr)))) : P (Node Stmt) :=
  tok ← read token;
  _ ← bump_keyword kw_rule;
  let decorators := default [] decorators in
  name_expr ← parse_identifier_expr;
  name ← match node name_expr with
         | EIdentifier name => mret (node_with_pos (get_name name) (node_pos name_expr))
         | _ => abort unwrap_none
         end;
  args ← parse_bracket_parameters;
  b ← kind_is (OpenDelim Paren);
  parent_rules ← (if (b : bool) then _ ← bump; loop parent_rules_round [] else mret []);
  for_host_name ← parse_for_host;
  _ ← bump_token Colon;
  _ ← skip_newlines;
  _ ← bump_token Indent;
  body_doc ← parse_doc;
  checks ← parse_check_exprs;
  _ ← bump_token Dedent;
  node_span tok (SRule (mkRuleStmt body_doc name parent_rules decorators checks args for_host_name)).

(** ** Statements *)

Definition parse_compound_stmt : P (option (Node Stmt)) :=
  _ ← skip_newlines;
  t ← read token;
  if bool_decide (kind t = Eof) then mret None
  else if is_keyword t kw_if then s ← parse_if_stmt; mret (Some s)
  else
    decorators ← (if bool_decide (kind t = At) then d ← parse_decorators; mret (Some d) else mret None);
    t ← read token;
    if is_keyword t kw_schema || is_keyword t kw_mixin || is_keyword t kw_protocol then
      s ← parse_schema_stmt decorators; mret (Some s)
    else if is_keyword t kw_rule then s ← parse_rule_stmt decorators; mret (Some s)
    else mret None.

Definition parse_stmt_body : P (option (Node Stmt)) :=
  _ ← skip_newlines;
  b ← is_eof;
  if (b : bool) then mret None
  else
    s ← parse_compound_stmt;
    match s with
    | Some stmt => mret (Some stmt)
    | None =>
        s ← parse_simple_stmt;
        match s with
        | Some stmt => mret (Some stmt)
        | None =>
            t ← read token;
            _ ← struct_span_error (txt "expected statement") (tok_span t);
            mret None
        end
    end.

(** ** Modules ([module.rs]) *)

Definition parse_body : P (list (Node Stmt)) :=
  loop (fun stmts =>
    b ← is_eof;
    if (b : bool) then _ ← bump; mret (inr stmts)
    else
      s ← parse_stmt;
      match s with
      | Some stmt => mret (inl (stmts ++ [stmt]))
      | None => _ ← bump; mret (inl stmts)
      end) [].

Definition parse_module_body : P Module_ :=
  doc ← parse_doc;
  body ← parse_body;
  comments ← read comments;
  mret (mkModule [] [] doc [] body comments).
End Stmt.

(** ** The parser *)

Section Run.
Context (debug : bool) `{UnicodeTables, BigDigits, SourceMap}.

Definition handler (rec : calls) {A} (c : call A) : P A :=
  match c with
  | parse_expr_call => parse_expr_body rec
  | do_parse_simple_expr_call prec1 => do_parse_simple_expr debug rec prec1
  | parse_if_item_expr_call => parse_if_item_expr rec
  | parse_if_entry_expr_call => parse_if_entry_expr debug rec
  | parse_stmt_call => parse_stmt_body debug rec
  | parse_type_annotation_call => parse_type_annotation_body rec
  end.

Fixpoint run (fuel : nat) : forall A, call A -> st parser A :=
  match fuel with
  | O => fun _ _ => panic out_of_fuel
  | S n => fun _ c => handler (fun _ c _ => run n _ c) c n
  end.

Definition parse_expr (fuel : nat) : st parser (Node Expr) := run fuel _ parse_expr_call.
Definition parse_module (fuel : nat) : st parser Module_ :=
  match fuel with
  | O => panic out_of_fuel
  | S n => parse_module_body debug (fun _ c _ => run n _ c) n
  end.

(** The text of a file, from the first byte: lexed, then parsed. *)
Definition parse_file (fuel : nat) (src : text) : outcome (Module_ * parser) :=
  '(stream, l) ← ParserLexer.parse_token_streams debug src 0;
  parse_module fuel
    (new_parser (map (fun e => Message (txt e.1) e.2) (ParserLexer.errors l)) stream).
End Run.
