(* ===== verification/Units.v ===== *)
(** * Units ([kclvm/runtime/src/units/units.rs])

    Numbers with the suffixes of the International System and of the IEC: their value, the
    text of a quantity and its reading. *)

From S2P Require Import Prelude MachineInt Floats Chars Utf8 StrLiteral IntLiteral Ast ParserState ParserExpr ParserStmt.

Inductive to_unit_suffix := Un | Uu | Um | Uk | UK | UM | UG | UT | UP | UKi | UMi | UGi | UTi | UPi.

(** [Debug]. *)
Definition suffix_str (s : to_unit_suffix) : text :=
  txt match s with
      | Un => "n" | Uu => "u" | Um => "m" | Uk => "k" | UK => "K" | UM => "M" | UG => "G"
      | UT => "T" | UP => "P" | UKi => "Ki" | UMi => "Mi" | UGi => "Gi" | UTi => "Ti" | UPi => "Pi"
      end.

Definition IEC_SUFFIX : text := txt "i".
Definition EXPONENTS : list (text * Z) :=
  [(txt "n", -3); (txt "u", -2); (txt "m", -1); (txt "k", 1); (txt "K", 1); (txt "M", 2);
   (txt "G", 3); (txt "T", 4); (txt "P", 5)].
Definition INVALID_UNITS : list text := map txt ["ni"; "ui"; "mi"; "ki"].

Definition exponent_of (unit : text) : option Z :=
  snd <$> List.find (fun p => bool_decide (p.1 = unit)) EXPONENTS.

Definition invalid_suffix : string := "Invalid suffix".

Definition validate_unit (unit : text) : outcome () :=
  if bool_decide (unit = []) || (2 <? str_len unit) then Panic invalid_suffix
  else if bool_decide (unit ∈ INVALID_UNITS) then Panic invalid_suffix
  else
    u ← take_bytes 1 unit;
    if bool_decide (is_Some (exponent_of u)) then Ok tt else Panic invalid_suffix.

Section Powf.
Context (powf : f64 -> f64 -> f64).

Definition cal_num (value : Z) (unit : text) : outcome f64 :=
  _ ← validate_unit unit;
  '(base, unit) ← (if 1 <? str_len unit then
                     u ← slice 1 2 unit;
                     if bool_decide (u = IEC_SUFFIX) then v ← take_bytes 1 unit; Ok (f64_of_Z 1024, v)
                     else Ok (f64_of_Z 1000, unit)
                   else Ok (f64_of_Z 1000, unit));
  match exponent_of unit with
  | Some exponent => Ok (f64_mul (f64_of_Z value) (powf base (f64_of_Z exponent)))
  | None => Panic "invalid unit"
  end.
End Powf.

Definition u64_unit_value (unit : text) : Z :=
  let unit_is s := bool_decide (unit = txt s) in
  if unit_is "k" || unit_is "K" then 1000
  else if unit_is "M" then 1000000
  else if unit_is "G" then 1000000000
  else if unit_is "T" then 1000000000000
  else if unit_is "P" then 1000000000000000
  else if unit_is "Ki" then 1024
  else if unit_is "Mi" then 1048576
  else if unit_is "Gi" then 1073741824
  else if unit_is "Ti" then 1099511627776
  else if unit_is "Pi" then 1125899906842624
  else 1.

(** In [i128]; [real_uint_value_fits] shows that it does not overflow. *)
Definition real_uint_value (raw : Z) (unit : text) : Z := raw * u64_unit_value unit.

Definition f64_unit_value (unit : text) : f64 :=
  let unit_is s := bool_decide (unit = txt s) in
  if unit_is "n" then f64_of_decimal false 1 (-9)
  else if unit_is "u" then f64_of_decimal false 1 (-6)
  else if unit_is "m" then f64_of_decimal false 1 (-3)
  else f64_of_Z 1.

Definition to_unit (num : f64) (suffix : to_unit_suffix) : text :=
  let by_ (d : f64) := txt (pretty (f64_as_i64 (f64_div num d))) ++ suffix_str suffix in
  match suffix with
  | Un => by_ (f64_of_decimal false 1 (-9))
  | Uu => by_ (f64_of_decimal false 1 (-6))
  | Um => by_ (f64_of_decimal false 1 (-3))
  | Uk | UK => by_ (f64_of_Z 1000)
  | UM => by_ (f64_of_Z 1000000)
  | UG => by_ (f64_of_Z 1000000000)
  | UT => by_ (f64_of_Z 1000000000000)
  | UP => by_ (f64_of_Z 1000000000000000)
  | UKi => by_ (f64_of_Z 1024)
  | UMi => by_ (f64_of_Z (1024 * 1024))
  | UGi => by_ (f64_of_Z (1024 * 1024 * 1024))
  | UTi => by_ (f64_of_Z (1024 * 1024 * 1024 * 1024))
  | UPi => by_ (f64_of_Z (1024 * 1024 * 1024 * 1024 * 1024))
  end.

(** ** Quantities *)

Section Quantity.
Context (overflow_checks : bool).

(** [i64::pow] of the bases 1000 and 1024: both are multiples of 8, so that a power beyond
    the 63rd is a multiple of [2 ^ 64] ([pow_wraps_to_zero]). *)
Definition pow64 (base e : Z) : outcome Z :=
  if 63 <? e then if overflow_checks then Panic "attempt to multiply with overflow" else Ok 0
  else arith64 overflow_checks (base ^ e).

(** The number and the suffix of a quantity. *)
Definition split_quantity (quantity : text) : outcome (text * option text) :=
  let quantity_len := str_len quantity in
  iec ← (if 2 <=? quantity_len then
           s ← drop_bytes (quantity_len - 1) quantity; Ok (bool_decide (s = IEC_SUFFIX))
         else Ok false);
  if (iec : bool) then
    s ← slice (quantity_len - 2) (quantity_len - 1) quantity;
    if bool_decide (is_Some (exponent_of s)) then
      n ← take_bytes (quantity_len - 2) quantity;
      s ← drop_bytes (quantity_len - 2) quantity; Ok (n, Some s)
    else Ok (quantity, None)
  else if 1 <=? quantity_len then
    s ← drop_bytes (quantity_len - 1) quantity;
    if bool_decide (is_Some (exponent_of s)) then
      n ← take_bytes (quantity_len - 1) quantity; Ok (n, Some s)
    else Ok (quantity, None)
  else Ok (quantity, None).

(** The number times the power of the suffix. *)
Definition apply_suffix (number : Z) (suffix : text) : outcome Z :=
  u ← take_bytes 1 suffix;
  _ ← validate_unit u;
  let base := if ends_with IEC_SUFFIX suffix then 1024 else 1000 in
  match exponent_of u with
  | Some exponent =>
      p ← pow64 base (as_u32 exponent);
      arith64 overflow_checks (number * p)
  | None => Panic unwrap_none
  end.

Definition to_quantity (quantity : text) : outcome Z :=
  '(number, suffix) ← split_quantity quantity;
  if bool_decide (number = []) then Panic "number can't be empty"
  else
    number ← match i64_parse number with Some n => Ok n | None => Panic unwrap_err end;
    match suffix with
    | None => Ok number
    | Some suffix => apply_suffix number suffix
    end.
End Quantity.

(** ** Bounds *)

(** The product of any [i64] and any unit is an [i128]. *)
Lemma real_uint_value_fits raw unit :
  in_i64 raw = true -> - 2 ^ 127 <= real_uint_value raw unit < 2 ^ 127.
Proof.
  intros [H1 H2]%in_i64_spec. unfold i64_min, i64_max, real_uint_value in *.
  assert (Hu : 1 <= u64_unit_value unit <= 2 ^ 50) by (unfold u64_unit_value; repeat case_match; lia).
  nia.
Qed.

Lemma pow_wraps_to_zero base e : base = 1000 \/ base = 1024 -> 63 < e ->
  i64_max < base ^ e /\ as_i64 (base ^ e) = 0.
Proof.
  intros Hb He. assert (Hd : base ^ e = (base ^ (e - 64) * (base / 8) ^ 64) * 8 ^ 64).
  { transitivity (base ^ (e - 64) * base ^ 64).
    - rewrite <- Z.pow_add_r by lia. f_equal. lia.
    - destruct Hb as [-> | ->]; rewrite <- Z.mul_assoc; reflexivity. }
  set (k := base ^ (e - 64) * (base / 8) ^ 64) in *.
  assert (Hk : 1 <= k).
  { unfold k. assert (0 < base ^ (e - 64)) by (apply Z.pow_pos_nonneg; destruct Hb; lia).
    assert (0 < (base / 8) ^ 64) by (destruct Hb as [-> | ->]; reflexivity). nia. }
  rewrite Hd. split; [unfold i64_max; change (8 ^ 64) with (2 ^ 192); change (2 ^ 192) with (2 ^ 63 * 2 ^ 129); nia|].
  unfold as_i64, wrap_s. change (8 ^ 64) with (2 ^ 128 * 2 ^ 64). rewrite Z.mul_assoc, Z.add_comm.
  rewrite Z.mod_add by lia. reflexivity.
Qed.

Lemma pow64_spec oc base e : base = 1000 \/ base = 1024 -> 0 <= e ->
  pow64 oc base e = if in_i64 (base ^ e) then Ok (base ^ e)
                    else if oc then pow64 oc base e else Ok (as_i64 (base ^ e)).
Proof.
  intros Hb He. unfold pow64. destruct (63 <? e) eqn:E.
  - apply Z.ltb_lt in E. destruct (pow_wraps_to_zero base e Hb E) as [Hgt ->].
    replace (in_i64 (base ^ e)) with false by (symmetry; apply in_i64_false; by right). by destruct oc.
  - destruct (in_i64 (base ^ e)) eqn:Ei; [by apply arith64_exact|]. destruct oc; [done|].
    unfold arith64. by rewrite Ei.
Qed.

(** ** Reading a printed integer *)

Lemma digit_value x : (x < 10)%N -> is_digit10 (ch (pretty_N_char x)) = true /\ ch (pretty_N_char x) - ch "0" = Z.of_N x.
Proof.
  intros Hx. destruct x as [|p]; [done|]. do 10 (destruct p as [p|p|]; try done; try lia).
Qed.

Lemma txt_app s s' : txt (s +:+ s') = txt s ++ txt s'.
Proof. induction s as [|c s IH]; [done|]. by rewrite str_app_cons; cbn; f_equal. Qed.

(** The digits of a number, at the head of a text. *)
Lemma pretty_go_digits x : forall acc, exists t,
  txt (pretty_N_go x acc) = t ++ txt acc /\ (x <> 0%N -> t <> []) /\ forallb is_digit10 t = true /\
  forall rest k v, take_digits (t ++ rest) k v = take_digits rest (k + length t) (v * 10 ^ Z.of_nat (length t) + Z.of_N x).
Proof.
  induction (N.lt_wf_0 x) as [x _ IH]. intros acc.
  destruct (decide (x = 0)%N) as [->|Hx].
  { exists []. split_and!; [done|done|done|]. intros. cbn. rewrite Nat.add_0_r. f_equal. lia. }
  assert (Hlt : (x `div` 10 < x)%N) by (apply N.div_lt; lia).
  rewrite pretty_N_go_step by lia. destruct (IH (x `div` 10)%N Hlt
    (String (pretty_N_char (x `mod` 10)%N) acc)) as (t & E & _ & Hd & Ht).
  destruct (digit_value (x `mod` 10)%N) as [D1 D2]; [by apply N.mod_lt|].
  exists (t ++ [ch (pretty_N_char (x `mod` 10)%N)]). split_and!.
  - by rewrite E, <- app_assoc.
  - by destruct t.
  - by rewrite forallb_app, Hd; cbn; rewrite D1.
  - intros rest k v. rewrite <- app_assoc, Ht. cbn [app take_digits]. rewrite D1, D2, length_app. cbn [length].
    f_equal; [lia|]. rewrite Nat2Z.inj_add, Z.pow_add_r by lia. change (10 ^ Z.of_nat 1) with 10.
    pose proof (N.div_mod x 10 ltac:(done)) as Hdm. lia.
Qed.

Lemma pretty_digits (z : Z) : 0 <= z -> exists c t,
  txt (pretty z) = c :: t /\ forallb is_digit10 (c :: t) = true /\
  forall rest, take_digits ((c :: t) ++ rest) 0 0 = take_digits rest (S (length t)) z.
Proof.
  intros Hz. destruct z as [|p|p]; [|clear Hz|lia].
  { exists 48, []. split_and!; done. }
  change (pretty (Z.pos p)) with (pretty_N_go (N.pos p) "").
  destruct (pretty_go_digits (N.pos p) "") as (t & E & Hne & Hd & Ht). rewrite E, app_nil_r.
  destruct t as [|c t]; [by destruct (Hne ltac:(done))|]. exists c, t. split_and!; [done|done|].
  intros rest. rewrite Ht. f_equal.
Qed.

Lemma digit_no_sign c t : is_digit10 c = true -> f64_sign (c :: t) = (false, c :: t).
Proof.
  unfold is_digit10, in_range, f64_sign. change (ch "0") with 48. change (ch "9") with 57.
  change (ch "-") with 45. change (ch "+") with 43. intros Hc.
  rewrite (proj2 (Z.eqb_neq c 45)) by lia. by rewrite (proj2 (Z.eqb_neq c 43)) by lia.
Qed.

Lemma i64_parse_pretty z : in_i64 z = true -> i64_parse (txt (pretty z)) = Some z.
Proof.
  intros Hz. unfold i64_parse. destruct (Z_lt_ge_dec z 0) as [Hneg|Hpos].
  - destruct z as [|p|p]; try lia. change (pretty (Z.neg p)) with ("-" +:+ pretty (Z.pos p)).
    rewrite txt_app. destruct (pretty_digits (Z.pos p) ltac:(lia)) as (c & t & E & _ & Ht). rewrite E.
    cbn [txt String.list_ascii_of_string map app f64_sign].
    specialize (Ht []). rewrite app_nil_r in Ht. rewrite Z.eqb_refl. cbn -[take_digits in_i64].
    rewrite Ht. cbn [take_digits]. change (- Z.pos p) with (Z.neg p). by rewrite Hz.
  - destruct (pretty_digits z ltac:(lia)) as (c & t & E & Hd & Ht). rewrite E.
    apply andb_true_iff in Hd as [Hc _]. rewrite digit_no_sign by done.
    specialize (Ht []). rewrite app_nil_r in Ht. cbn -[take_digits in_i64]. rewrite Ht. cbn -[in_i64]. by rewrite Hz.
Qed.

(** ** Quantities mean what their suffixes say *)

Definition scaled : list to_unit_suffix := [Uk; UK; UM; UG; UT; UP; UKi; UMi; UGi; UTi; UPi].
Definition fractional : list to_unit_suffix := [Un; Uu; Um].

Lemma ascii_slices (t u : text) : forallb is_ascii t = true -> forallb is_ascii u = true ->
  str_len (t ++ u) = Z.of_nat (length t) + Z.of_nat (length u) /\
  take_bytes (Z.of_nat (length t)) (t ++ u) = Ok t /\ drop_bytes (Z.of_nat (length t)) (t ++ u) = Ok u.
Proof.
  assert (Hl : forall c, is_ascii c = true -> len_utf8 c = 1).
  { intros c Hc. unfold len_utf8, is_ascii in *. by rewrite (proj2 (Z.ltb_lt c 128)) by lia. }
  intros Ht Hu. assert (Hlu : str_len u = Z.of_nat (length u)).
  { clear Ht. induction u as [|c u IH]; [done|]. apply andb_true_iff in Hu as [Hc Hu].
    change (len_utf8 c + str_len u = Z.of_nat (S (length u))). rewrite IH, Hl by done. lia. }
  induction t as [|c t IH]; [split_and!; [exact Hlu|by destruct u|by destruct u]|].
  apply andb_true_iff in Ht as [Hc Ht]. destruct (IH Ht) as (I1 & I2 & I3).
  change (str_len ((c :: t) ++ u)) with (len_utf8 c + str_len (t ++ u)). rewrite I1, Hl by done.
  cbn [app length]. split_and!; [lia| |].
  - cbn [take_bytes]. rewrite (proj2 (Z.eqb_neq _ 0)) by lia. rewrite Hl by done.
    rewrite (proj2 (Z.ltb_ge _ _)) by lia. replace (Z.of_nat (S (length t)) - 1) with (Z.of_nat (length t)) by lia.
    by rewrite I2.
  - cbn [drop_bytes]. rewrite (proj2 (Z.eqb_neq _ 0)) by lia. rewrite Hl by done.
    rewrite (proj2 (Z.ltb_ge _ _)) by lia. by replace (Z.of_nat (S (length t)) - 1) with (Z.of_nat (length t)) by lia.
Qed.

Lemma digits_ascii t : forallb is_digit10 t = true -> forallb is_ascii t = true.
Proof.
  intros H. apply forallb_forall. intros c Hc. pose proof (proj1 (forallb_forall _ _) H c Hc) as Hd.
  unfold is_digit10, in_range, is_ascii in *. change (ch "0") with 48 in *. change (ch "9") with 57 in *. lia.
Qed.

(** A quantity splits into its number and its suffix. *)
Lemma split_quantity_printed (d : text) s : d <> [] -> forallb is_ascii d = true ->
  split_quantity (d ++ suffix_str s) = Ok (d, Some (suffix_str s)).
Proof.
  intros Hne Ha. assert (Hs : forallb is_ascii (suffix_str s) = true) by (by destruct s).
  unfold split_quantity. destruct (ascii_slices d (suffix_str s) Ha Hs) as (L1 & L2 & L3). rewrite L1.
  set (N := Z.of_nat (length d)) in *. assert (HN : 1 <= N) by (unfold N; destruct d; [done|cbn [length]; lia]).
  destruct (decide (length (suffix_str s) = 1%nat)) as [E1|E1].
  - rewrite E1. change (Z.of_nat 1) with 1.
    rewrite (proj2 (Z.leb_le 2 _)), (proj2 (Z.leb_le 1 _)) by lia.
    replace (N + 1 - 1) with N by lia. rewrite L2, L3. cbn [mbind outcome_bind].
    replace (bool_decide (suffix_str s = IEC_SUFFIX)) with false by (by destruct s). cbn [mbind outcome_bind].
    by replace (bool_decide (is_Some (exponent_of (suffix_str s)))) with true by (by destruct s).
  - assert (E2 : length (suffix_str s) = 2%nat) by (by destruct s). rewrite E2. change (Z.of_nat 2) with 2.
    rewrite (proj2 (Z.leb_le 2 _)) by lia.
    destruct (ascii_slices (d ++ take 1 (suffix_str s)) IEC_SUFFIX) as (_ & _ & D); [|done|].
    { rewrite forallb_app, Ha. by destruct s. }
    rewrite length_app in D. replace (length (take 1 (suffix_str s))) with 1%nat in D by (by destruct s).
    replace ((d ++ take 1 (suffix_str s)) ++ IEC_SUFFIX) with (d ++ suffix_str s) in D
      by (rewrite <- app_assoc; f_equal; by destruct s).
    replace (N + 2 - 1) with (Z.of_nat (length d + 1)) by (unfold N; lia). rewrite D.
    cbn [mbind outcome_bind]. rewrite bool_decide_true by done. cbn [mbind outcome_bind].
    replace (N + 2 - 2) with N by lia. unfold slice. rewrite (proj2 (Z.ltb_ge _ _)) by (unfold N; lia).
    rewrite L2, L3. cbn [mbind outcome_bind]. replace (Z.of_nat (length d + 1) - N) with 1 by (unfold N; lia).
    replace (take_bytes 1 (suffix_str s)) with (Ok (take 1 (suffix_str s))) by (by destruct s).
    cbn [mbind outcome_bind].
    by replace (bool_decide (is_Some (exponent_of (take 1 (suffix_str s))))) with true by (by destruct s).
Qed.

Lemma to_quantity_splits oc n s : 0 <= n -> in_i64 n = true ->
  to_quantity oc (txt (pretty n) ++ suffix_str s) = apply_suffix oc n (suffix_str s).
Proof.
  intros Hn Hi. pose proof (i64_parse_pretty n Hi) as Hp.
  destruct (pretty_digits n Hn) as (c & t & E & Hd & _). rewrite E in *. apply digits_ascii in Hd.
  unfold to_quantity. rewrite split_quantity_printed by done. cbn [mbind outcome_bind].
  rewrite bool_decide_false by done. by rewrite Hp.
Qed.

(** C37: A scaled quantity is the number times its unit, or an overflow. *)
Theorem to_quantity_scaled oc n s : 0 <= n -> in_i64 n = true -> s ∈ scaled ->
  to_quantity oc (txt (pretty n) ++ suffix_str s) = arith64 oc (real_uint_value n (suffix_str s)).
Proof.
  intros Hn Hi Hs. rewrite to_quantity_splits by done.
  repeat (apply elem_of_cons in Hs as [->|Hs]; [reflexivity|]). by apply elem_of_nil in Hs.
Qed.

Lemma to_quantity_scaled_witness :
  to_quantity true (txt (pretty 3) ++ suffix_str UKi) = arith64 true (real_uint_value 3 (suffix_str UKi)) /\
  arith64 true (real_uint_value 3 (suffix_str UKi)) = Ok 3072.
Proof.
  split; [|vm_compute; reflexivity]. apply (to_quantity_scaled true 3 UKi); [lia|done|set_solver].
Defined.

(** the documented suffixes of fractions are unreadable: the exponent is negative and is
    cast to an unsigned one, so that the power overflows, a panic, or 0 without the checks. *)
Theorem to_quantity_fractional oc n s : 0 <= n -> in_i64 n = true -> s ∈ fractional ->
  to_quantity oc (txt (pretty n) ++ suffix_str s) =
  if oc then Panic "attempt to multiply with overflow" else Ok 0.
Proof.
  intros Hn Hi Hs. rewrite to_quantity_splits by done.
  assert (E : forall e, 63 <? as_u32 e = true -> (p ← pow64 oc 1000 (as_u32 e); arith64 oc (n * p)) =
                        if oc then Panic "attempt to multiply with overflow" else Ok 0).
  { intros e He. unfold pow64. rewrite He. destruct oc; [done|]. cbn. by rewrite Z.mul_0_r. }
  repeat (apply elem_of_cons in Hs as [->|Hs]; [by apply E|]). by apply elem_of_nil in Hs.
Qed.

Lemma to_quantity_fractional_witness :
  to_quantity true (txt (pretty 3) ++ suffix_str Um) = Panic "attempt to multiply with overflow" /\
  to_quantity false (txt (pretty 3) ++ suffix_str Um) = Ok 0.
Proof.
  assert (H : 0 <= 3 /\ in_i64 3 = true /\ Um ∈ fractional) by (split_and!; [lia|done|set_solver]).
  split; [apply (to_quantity_fractional true 3 Um)|apply (to_quantity_fractional false 3 Um)]; apply H.
Defined.
