(* ===== verification/TypeParser.v ===== *)
(** * Type strings of the resolver ([kclvm/sema/src/ty/parser.rs], [kclvm/sema/src/eval/mod.rs])

    The type that a string denotes, and the type of an annotation of the syntax tree
    ([ty/into.rs]).  The scans count characters and slice bytes.  The regular expressions are
    the class [TypeRegexes]. *)

From S2P Require Import Prelude MachineInt Floats Chars Utf8 StrLiteral IntLiteral TypeData Unify Sup.
From S2P Require Ast ParserExpr ParserStmt.
From S2P Require Import Units.
Import ParserExpr(f64_parse) ParserStmt(i64_parse).

(** [v.range().end] of the leftmost match, in bytes; [is_match]. *)
Class TypeRegexes := {
  double_quoted_end : text -> option Z;
  single_quoted_end : text -> option Z;
  number_multiplier_regex : text -> bool;
}.

(** ** String literals *)

Section Eval.
Context (overflow_checks : bool) `{UnicodeTables}.

(** [nth(1)] after a peek: both characters are read when the first is the quote. *)
Fixpoint literal_loop (fuel : nat) (quote_char : char) (triple_quoted is_bytes is_raw : bool)
    (chars : text) (string_content : text) : outcome (option text) :=
  match next_char chars with
  | (None, _) => Ok (Some string_content)
  | (Some c, chars') =>
      match fuel with
      | O => Panic "out of fuel"
      | S fuel' =>
          let go := literal_loop fuel' quote_char triple_quoted is_bytes is_raw in
          if c =? 92 then
            let '(d, chars'') := next_char chars' in
            if is_raw then
              match d with
              | Some d => go chars'' (string_content ++ [92; d])
              | None => Ok None
              end
            else
              r ← escape overflow_checks quote_char is_bytes chars';
              match r with
              | Some (s, chars'') => go chars'' (string_content ++ s)
              | None => Ok None
              end
          else if c =? quote_char then
            if triple_quoted then
              match chars' with
              | q1 :: rest =>
                  if q1 =? quote_char then
                    match rest with
                    | q2 :: rest' =>
                        if q2 =? quote_char then Ok (Some string_content)
                        else go rest' (string_content ++ [c])
                    | [] => go [] (string_content ++ [c])
                    end
                  else go chars' (string_content ++ [c])
              | [] => go chars' (string_content ++ [c])
              end
            else Ok (Some string_content)
          else if ((c =? 10) && negb triple_quoted) || (is_bytes && negb (is_ascii c)) then Ok None
          else go chars' (string_content ++ [c])
      end
  end.

(** [chars.peek() == Some(&quote_char) && chars.next() == Some(quote_char)], and one more
    character is skipped. *)
Definition str_literal_eval (string_lit : text) (is_bytes is_raw : bool) : outcome (option text) :=
  match string_lit with
  | [] => Ok None
  | quote_char :: chars =>
      let '(triple_quoted, chars) :=
        match chars with
        | q1 :: rest => if q1 =? quote_char then (true, tail rest) else (false, chars)
        | [] => (false, [])
        end in
      literal_loop (length chars) quote_char triple_quoted is_bytes is_raw chars []
  end.
End Eval.

Definition map_m {A B} (f : A -> outcome B) : list A -> outcome (list B) :=
  fix go l := match l with
              | [] => Ok []
              | x :: l' => y ← f x; ys ← go l'; Ok (y :: ys)
              end.

(** ** Predicates on type strings *)

Definition teqb (s t : text) : bool := bool_decide (s = t).

Definition TYPES_MAPPING : list (text * ty) :=
  [(txt INT_TYPE_STR, INT); (txt FLOAT_TYPE_STR, FLOAT); (txt STR_TYPE_STR, STR); (txt BOOL_TYPE_STR, BOOL);
   (txt ANY_TYPE_STR, ANY); (txt "[]", list_of ANY); (txt "[any]", list_of ANY); (txt "[str]", list_of STR);
   (txt "{:}", dict_of ANY ANY); (txt "{str:}", dict_of STR ANY); (txt "{str:any}", dict_of STR ANY);
   (txt "{str:str}", dict_of STR STR)].

Definition mapped_type (s : text) : option ty := snd <$> List.find (fun p => teqb p.1 s) TYPES_MAPPING.

Definition head_is (c : char) (s : text) : bool := match s with d :: _ => d =? c | [] => false end.
Definition last_is (c : char) (s : text) : bool := match last s with Some d => d =? c | None => false end.

Definition is_literal_type_str (s : text) : bool :=
  if bool_decide (s ∈ map txt NAME_CONSTANTS) then true
  else if head_is 34 s then last_is 34 s
  else if head_is 39 s then last_is 39 s
  else bool_decide (is_Some (f64_parse s)).

(** [ty.len() >= 2 && &ty[0..1] == open && &ty[ty.len() - 1..] == close]. *)
Definition bracketed (o c : char) (s : text) : outcome bool :=
  if 2 <=? str_len s then
    h ← slice 0 1 s;
    if teqb h [o] then l ← drop_bytes (str_len s - 1) s; Ok (teqb l [c]) else Ok false
  else Ok false.
Definition is_dict_type_str (s : text) : outcome bool := bracketed (ch "{") (ch "}") s.
Definition is_list_type_str (s : text) : outcome bool := bracketed (ch "[") (ch "]") s.
Definition is_builtin_type_str (s : text) : bool := bool_decide (s ∈ map txt BUILTIN_TYPES).

Definition is_schema_type_str (expected_type : text) : outcome bool :=
  if teqb expected_type [] then Ok true
  else
    l ← is_list_type_str expected_type;
    if (l : bool) then Ok false
    else
      d ← is_dict_type_str expected_type;
      Ok (negb d && negb (is_builtin_type_str expected_type) && negb (is_literal_type_str expected_type)).

Definition is_open_bracket (c : char) : bool := (c =? ch "[") || (c =? ch "{").
Definition is_close_bracket (c : char) : bool := (c =? ch "]") || (c =? ch "}").

Section Types.
Context (overflow_checks : bool) (powf : f64 -> f64 -> f64) `{UnicodeTables, TypeRegexes}.

(** The characters to pass over after a quote at the character index [i], which is used as
    a byte index. *)
Definition quoted_skip (c : char) (i : Z) (whole : text) : outcome nat :=
  if c =? 34 then t ← drop_bytes i whole; Ok (match double_quoted_end t with Some e => Z.to_nat (e - 1) | None => O end)
  else if c =? 39 then t ← drop_bytes i whole; Ok (match single_quoted_end t with Some e => Z.to_nat (e - 1) | None => O end)
  else Ok O.

(** [t] is the text from the character index [i]. *)
Fixpoint union_loop (t : text) (i : Z) (skip : nat) (stack : list char) (whole : text) : outcome bool :=
  match t with
  | [] => Ok false
  | c :: t' =>
      match skip with
      | S skip' => union_loop t' (i + 1) skip' stack whole
      | O =>
          if (c =? ch "|") && bool_decide (stack = []) then Ok true
          else if is_open_bracket c then union_loop t' (i + 1) O (c :: stack) whole
          else if is_close_bracket c then union_loop t' (i + 1) O (tail stack) whole
          else skip ← quoted_skip c i whole; union_loop t' (i + 1) skip stack whole
      end
  end.
Definition is_union_type_str (s : text) : outcome bool := union_loop s 0 O [] s.

(** [s_index] is the byte index where the part began. *)
Fixpoint split_loop (t : text) (i : Z) (skip : nat) (stack : list char) (s_index : Z) (whole : text)
    : outcome (list text) :=
  match t with
  | [] => p ← drop_bytes s_index whole; Ok [p]
  | c :: t' =>
      match skip with
      | S skip' => split_loop t' (i + 1) skip' stack s_index whole
      | O =>
          if (c =? ch "|") && bool_decide (stack = []) then
            p ← slice s_index i whole;
            ps ← split_loop t' (i + 1) O stack (i + 1) whole; Ok (p :: ps)
          else if is_open_bracket c then split_loop t' (i + 1) O (c :: stack) s_index whole
          else if is_close_bracket c then split_loop t' (i + 1) O (tail stack) s_index whole
          else skip ← quoted_skip c i whole; split_loop t' (i + 1) skip stack s_index whole
      end
  end.
Definition split_type_union_str (s : text) : outcome (list text) := split_loop s 0 O [] 0 s.

(** A closing bracket with no open one panics, on the subtraction of the length or, without
    overflow checks, on the slice. *)
Fixpoint kv_loop (t : text) (n : Z) (stack : list char) (whole : text) : outcome (text * text) :=
  match t with
  | [] => Ok ([], [])
  | c :: t' =>
      if is_open_bracket c then kv_loop t' (n + 1) (c :: stack) whole
      else if is_close_bracket c then
        match stack with
        | top :: stack' =>
            if top =? (if c =? ch "]" then ch "[" else ch "{") then kv_loop t' (n + 1) stack' whole
            else Panic "invalid type string"
        | [] => Panic "attempt to subtract with overflow"
        end
      else if c =? ch ":" then
        match stack with
        | [] => k ← take_bytes n whole; v ← drop_bytes (n + 1) whole; Ok (k, v)
        | _ => Panic "invalid type string"
        end
      else kv_loop t' (n + 1) stack whole
  end.
Definition separate_kv_str (expected_type : text) : outcome (text * text) := kv_loop expected_type 0 [] expected_type.

Definition dereference_type_str (tpe : text) : outcome text :=
  b ← bracketed (ch "[") (ch "]") tpe;
  b ← (if (b : bool) then Ok true else bracketed (ch "{") (ch "}") tpe);
  if (b : bool) then slice 1 (str_len tpe - 1) tpe else Ok tpe.

(** [trim_matches]. *)
Definition is_strip_char (c : char) : bool := bool_decide (c ∈ [32; 13; 10]).
Fixpoint trim_start (s : text) : text :=
  match s with c :: s' => if is_strip_char c then trim_start s' else s | [] => [] end.
Definition ty_str_strip (s : text) : text := rev (trim_start (rev (trim_start s))).

Definition parse_lit_type_str (s : text) : outcome ty :=
  if teqb s (txt NAME_CONSTANT_TRUE) then Ok (bool_lit true)
  else if teqb s (txt NAME_CONSTANT_FALSE) then Ok (bool_lit false)
  else match i64_parse s with
  | Some v => Ok (int_lit v)
  | None =>
      match f64_parse s with
      | Some v => Ok (float_lit v)
      | None =>
          o ← str_literal_eval overflow_checks s false false;
          match o with
          | Some v => Ok (str_lit (encode v))
          | None => Panic "invalid literal type string"
          end
      end
  end.

Definition parse_number_multiplier_literal_type_str (s : text) : outcome ty :=
  l ← drop_bytes (str_len s - 1) s;
  let suffix_index := if teqb l IEC_SUFFIX then str_len s - 2 else str_len s - 1 in
  v ← take_bytes suffix_index s;
  value ← match i64_parse v with
          | Some v => Ok v
          | None => Panic "invalid number multiplier literal type str"
          end;
  suffix ← drop_bytes suffix_index s;
  x ← cal_num powf value suffix;
  Ok (number_multiplier x value (encode suffix)).

Definition parse_named_type_str (s : text) : ty := named (encode s).

(** A type string that is not in the table. *)
Definition unmapped_type (parse : text -> outcome ty) (s : text) : outcome ty :=
  u ← is_union_type_str s;
  if (u : bool) then
    ps ← split_type_union_str s;
    ts ← map_m parse ps;
    sup ts
  else if is_literal_type_str s then parse_lit_type_str s
  else if number_multiplier_regex s then parse_number_multiplier_literal_type_str s
  else
    d ← is_dict_type_str s;
    if (d : bool) then
      inner ← dereference_type_str s;
      '(k, v) ← separate_kv_str inner;
      k ← parse k;
      v ← parse v;
      Ok (dict_of k v)
    else
      l ← is_list_type_str s;
      if (l : bool) then
        inner ← dereference_type_str s;
        t ← parse inner;
        Ok (list_of t)
      else Ok (parse_named_type_str s).

(** Every recursive call is on fewer bytes; [fuel] bounds them. *)
Fixpoint parse_type_str (fuel : nat) (s : text) : outcome ty :=
  match fuel with
  | O => Panic "stack overflow"
  | S fuel' =>
      if teqb s [] then Ok ANY
      else
        let s := ty_str_strip s in
        match mapped_type s with
        | Some t => Ok t
        | None => unmapped_type (parse_type_str fuel') s
        end
  end.
Definition parse_type (s : text) : outcome ty := parse_type_str (S (Z.to_nat (str_len s))) s.

(** ** Types of annotations ([From<ast::Type> for Type]) *)

Definition literal_type (x : Ast.LiteralType) : outcome ty :=
  match x with
  | Ast.LtBool v => Ok (bool_lit v)
  | Ast.LtInt v (Some suffix) =>
      x ← cal_num powf v (txt (suffix_value suffix)); Ok (number_multiplier x v (suffix_value suffix))
  | Ast.LtInt v None => Ok (int_lit v)
  | Ast.LtFloat v => Ok (float_lit v)
  | Ast.LtStr v => Ok (str_lit (encode v))
  end.

Fixpoint type_of_ast (t : Ast.Type_) : outcome ty :=
  let or_any (o : option (Ast.Node Ast.Type_)) : outcome ty :=
    match o with Some n => type_of_ast (Ast.node n) | None => Ok ANY end in
  match t with
  | Ast.TAny => Ok ANY
  | Ast.TBasic Ast.TBool => Ok BOOL
  | Ast.TBasic Ast.TInt => Ok INT
  | Ast.TBasic Ast.TFloat => Ok FLOAT
  | Ast.TBasic Ast.TStr => Ok STR
  | Ast.TNamed x => Ok (named (encode (Ast.get_name x)))
  | Ast.TList x => t ← or_any (Ast.inner_type x); Ok (list_of t)
  | Ast.TDict x => k ← or_any (Ast.key_type x); v ← or_any (Ast.value_type x); Ok (dict_of k v)
  | Ast.TUnion x => ts ← map_m (fun n => type_of_ast (Ast.node n)) (Ast.type_elements x); Ok (union_of ts)
  | Ast.TLiteral x => literal_type x
  end.
End Types.
