(* ===== verification/ParserFrame.v ===== *)
(** * What every method of the parser satisfies

    [ParserLogic] is a relation between methods that each combinator of the parser's monad and
    each operation on the tokens preserves.  Every method of the parser is then related to
    itself, over related meanings of the recursive methods.  Two instances: the frame (a method
    keeps the tokens and the comments, never moves the cursor back, and reports errors by
    appending them), and the fuel (a run that ends is the run with any greater fuel). *)

From S2P Require Import Prelude MachineInt State Floats Chars Utf8 StrLiteral AstToken IntLiteral Ast ParserState ParserExpr ParserStmt.
From S2P Require ParserLexer.

Class ParserLogic := {
  related : forall {A}, P A -> P A -> Prop;
  related_ret {A} (a : A) : related (mret a) (mret a);
  related_bind {A B} (m m' : P A) (f f' : A -> P B) :
    related m m' -> (forall a, related (f a) (f' a)) -> related (m ≫= f) (m' ≫= f');
  related_read {A} (f : parser -> A) : related (read f) (read f);
  related_abort {A} e : related (abort (A := A) e) (abort e);
  related_lift_o {A} (o : outcome A) : related (lift_o o) (lift_o o);
  related_loop {A R} (body body' : A -> P (A + R)) a :
    (forall a, related (body a) (body' a)) -> related (loop body a) (loop body' a);
  related_bump : related bump bump;
  related_has_next : related has_next has_next;
  related_errors (f : parser -> list ParseError) :
    related (write (fun p => set_errors (errors p ++ f p) p))
            (write (fun p => set_errors (errors p ++ f p) p));
  related_on_stream {A} s (m m' : P A) : related m m' -> related (on_stream s m) (on_stream s m');
}.

Definition related_calls `{PL : ParserLogic} (rec rec' : calls) : Prop :=
  forall A (c : call A), related (rec A c) (rec' A c).

Create HintDb related.
#[export] Hint Resolve related_ret related_read related_abort related_lift_o related_bump
  related_has_next related_errors related_on_stream : related.

(** One combinator at the head of both methods. *)
Ltac related_step :=
  lazymatch goal with
  | |- related (mbind _ _) _ => apply related_bind; [|intros ?]
  | |- related (loop _ _) _ => apply related_loop; intros ?
  | |- related (match ?x with _ => _ end) _ => destruct x
  | H : related_calls ?rec _ |- related (?rec _ _) _ => apply H
  end.
(** Otherwise the method called is one without a lemma. *)
Ltac related_unfold :=
  lazymatch goal with
  | |- related ?m _ => let rec go m := lazymatch m with ?f _ => go f | _ => unfold m end in go m
  end.
Ltac related_go := repeat first [solve [auto with related] | related_step | related_unfold].

(** ** Tokens *)

Section Tokens.
Context `{PL : ParserLogic}.

Lemma skip_newlines_related : related skip_newlines skip_newlines.
Proof. related_go. Qed.
Lemma bump_token_related k : related (bump_token k) (bump_token k).
Proof. related_go. Qed.
Lemma struct_token_error_related e t : related (struct_token_error e t) (struct_token_error e t).
Proof. unfold struct_token_error, add_parse_err. auto with related. Qed.
Lemma struct_span_error_related e t : related (struct_span_error e t) (struct_span_error e t).
Proof. unfold struct_span_error, add_parse_err. auto with related. Qed.
End Tokens.
#[export] Hint Resolve skip_newlines_related bump_token_related struct_token_error_related
  struct_span_error_related : related.

(** ** Expressions *)

Section Expr.
Context `{SourceMap} `{PL : ParserLogic}.

Lemma parse_identifier_related : related parse_identifier parse_identifier.
Proof. related_go. Qed.
End Expr.
#[export] Hint Resolve parse_identifier_related : related.

Section Calls.
Context (debug : bool) `{UnicodeTables, BigDigits, SourceMap} `{PL : ParserLogic} (rec rec' : calls) (Hrec : related_calls rec rec').

Lemma parse_str_expr_related lk : related (parse_str_expr debug rec lk) (parse_str_expr debug rec' lk).
Proof. related_go; apply related_on_stream; related_go. Qed.
Local Hint Resolve parse_str_expr_related : related.

Lemma parse_list_item_related : related (parse_list_item rec) (parse_list_item rec').
Proof. related_go. Qed.
Lemma parse_comp_clauses_related : related (parse_comp_clauses rec) (parse_comp_clauses rec').
Proof. related_go. Qed.
Local Hint Resolve parse_list_item_related parse_comp_clauses_related : related.

Lemma parse_if_item_exec_block_related b : related (parse_if_item_exec_block rec b) (parse_if_item_exec_block rec' b).
Proof. related_go. Qed.
Local Hint Resolve parse_if_item_exec_block_related : related.
Lemma parse_if_item_expr_related : related (parse_if_item_expr rec) (parse_if_item_expr rec').
Proof. related_go. Qed.

Lemma parse_list_expr_related b : related (parse_list_expr rec b) (parse_list_expr rec' b).
Proof. related_go. Qed.
Lemma parse_config_expr_related : related (parse_config_expr rec) (parse_config_expr rec').
Proof. related_go. Qed.
Local Hint Resolve parse_list_expr_related parse_config_expr_related : related.

Lemma parse_call_related f : related (parse_call rec f) (parse_call rec' f).
Proof. related_go. Qed.
Lemma parse_subscript_expr_related v t : related (parse_subscript_expr rec v t) (parse_subscript_expr rec' v t).
Proof. related_go. Qed.
Lemma parse_quant_expr_related : related (parse_quant_expr debug rec) (parse_quant_expr debug rec').
Proof. related_go. Qed.
Lemma parse_parameters_related o c b : related (parse_parameters rec o c b) (parse_parameters rec' o c b).
Proof. related_go. Qed.
Local Hint Resolve parse_call_related parse_subscript_expr_related parse_quant_expr_related
  parse_parameters_related : related.

Lemma parse_operand_expr_related : related (parse_operand_expr debug rec) (parse_operand_expr debug rec').
Proof. related_go. Qed.
Local Hint Resolve parse_operand_expr_related : related.
Lemma parse_primary_expr_related : related (parse_primary_expr debug rec) (parse_primary_expr debug rec').
Proof. related_go. Qed.
Local Hint Resolve parse_primary_expr_related : related.
Lemma do_parse_simple_expr_related prec1 : related (do_parse_simple_expr debug rec prec1) (do_parse_simple_expr debug rec' prec1).
Proof. related_go. Qed.
Lemma parse_expr_body_related : related (parse_expr_body rec) (parse_expr_body rec').
Proof. related_go. Qed.

Lemma parse_if_entry_exec_block_related b : related (parse_if_entry_exec_block debug rec b) (parse_if_entry_exec_block debug rec' b).
Proof. related_go. Qed.
Local Hint Resolve parse_if_entry_exec_block_related : related.
Lemma parse_if_entry_expr_related : related (parse_if_entry_expr debug rec) (parse_if_entry_expr debug rec').
Proof. related_go. Qed.
Lemma parse_check_expr_related : related (parse_check_expr debug rec) (parse_check_expr debug rec').
Proof. related_go. Qed.
End Calls.
#[export] Hint Resolve parse_str_expr_related parse_list_expr_related parse_config_expr_related
  parse_parameters_related parse_call_related parse_check_expr_related parse_if_item_expr_related
  parse_if_entry_expr_related do_parse_simple_expr_related parse_expr_body_related : related.

(** ** Types and statements *)

Section Statements.
Context (debug : bool) `{UnicodeTables, BigDigits, SourceMap} `{PL : ParserLogic} (rec rec' : calls) (Hrec : related_calls rec rec').

Lemma parse_type_element_related : related (parse_type_element rec) (parse_type_element rec').
Proof. related_go. Qed.
Local Hint Resolve parse_type_element_related : related.
Lemma parse_type_annotation_body_related : related (parse_type_annotation_body rec) (parse_type_annotation_body rec').
Proof. related_go. Qed.

Lemma assign_targets_related l : related (assign_targets l) (assign_targets l).
Proof. induction l as [|e l IH]; simpl; related_go. Qed.
Local Hint Resolve assign_targets_related : related.
Lemma parse_expr_or_assign_stmt_related b : related (parse_expr_or_assign_stmt rec b) (parse_expr_or_assign_stmt rec' b).
Proof. related_go. Qed.
Local Hint Resolve parse_expr_or_assign_stmt_related : related.
Lemma parse_assert_stmt_related : related (parse_assert_stmt rec) (parse_assert_stmt rec').
Proof. related_go. Qed.
Local Hint Resolve parse_assert_stmt_related : related.
Lemma parse_simple_stmt_related : related (parse_simple_stmt rec) (parse_simple_stmt rec').
Proof. related_go. Qed.
Lemma parse_if_body_related : related (parse_if_body rec) (parse_if_body rec').
Proof. related_go. Qed.
Local Hint Resolve parse_simple_stmt_related parse_if_body_related : related.
Lemma parse_if_stmt_related : related (parse_if_stmt rec) (parse_if_stmt rec').
Proof. related_go. Qed.
Lemma parse_decorators_related : related (parse_decorators rec) (parse_decorators rec').
Proof. related_go. Qed.
Lemma parse_check_exprs_related : related (parse_check_exprs debug rec) (parse_check_exprs debug rec').
Proof. related_go. Qed.
Lemma parse_doc_related : related (parse_doc debug rec) (parse_doc debug rec').
Proof. related_go. Qed.
Local Hint Resolve parse_if_stmt_related parse_decorators_related parse_check_exprs_related
  parse_doc_related : related.
Lemma parse_schema_attribute_related : related (parse_schema_attribute rec) (parse_schema_attribute rec').
Proof. related_go. Qed.
Local Hint Resolve parse_schema_attribute_related : related.
Lemma schema_body_round_related s : related (schema_body_round rec s) (schema_body_round rec' s).
Proof. related_go. Qed.
Local Hint Resolve schema_body_round_related : related.
Lemma parse_schema_body_related : related (parse_schema_body debug rec) (parse_schema_body debug rec').
Proof. related_go. Qed.
Local Hint Resolve parse_schema_body_related : related.
Lemma parse_schema_stmt_related d : related (parse_schema_stmt debug rec d) (parse_schema_stmt debug rec' d).
Proof. related_go. Qed.
Lemma parse_rule_stmt_related d : related (parse_rule_stmt debug rec d) (parse_rule_stmt debug rec' d).
Proof. related_go. Qed.
Local Hint Resolve parse_schema_stmt_related parse_rule_stmt_related : related.
Lemma parse_stmt_body_related : related (parse_stmt_body debug rec) (parse_stmt_body debug rec').
Proof. related_go. Qed.
Lemma parse_module_body_related : related (parse_module_body debug rec) (parse_module_body debug rec').
Proof. related_go. Qed.

Lemma handler_related A (c : call A) : related (handler debug rec c) (handler debug rec' c).
Proof.
  destruct c; simpl; auto with related.
  - apply parse_stmt_body_related.
  - apply parse_type_annotation_body_related.
Qed.
End Statements.

(** ** The frame *)

(** [q] is [p] some method later; its token is that of [p] or one the cursor had yet to read. *)
Record later (p q : parser) : Prop := {
  later_stream : stream (cursor q) = stream (cursor p);
  later_index : (index (cursor p) <= index (cursor q))%nat;
  later_comments : comments q = comments p;
  later_errors : errors p `prefix_of` errors q;
  later_token : token q = token p \/ token q ∈ drop (index (cursor p)) (stream (cursor p));
}.

#[export] Instance later_preorder : PreOrder later.
Proof.
  split.
  - intros p. split; auto.
  - intros p q r [] []. split; [congruence|lia|congruence|by etrans|].
    destruct later_token1 as [->|Hr]; [done|]. right. rewrite later_stream0 in Hr.
    replace (index (cursor q)) with (index (cursor p) + (index (cursor q) - index (cursor p)))%nat in Hr by lia.
    rewrite <- drop_drop in Hr. apply list_elem_of_lookup in Hr as [i Hi]. rewrite lookup_drop in Hi.
    by eapply list_elem_of_lookup_2.
Qed.

Lemma later_set_errors p err : later p (set_errors (errors p ++ err) p).
Proof. split; simpl; [done|lia|done|by exists err|auto]. Qed.

Lemma cursor_next_later c o c' : cursor_next c = (o, c') ->
  stream c' = stream c /\ (index c <= index c')%nat /\
  forall t, o = Some t -> t ∈ drop (index c) (stream c).
Proof.
  unfold cursor_next. destruct (_ !! _) as [t|] eqn:E; intros [= <- <-]; simpl; split_and!; auto; [|done].
  intros u [= <-]. apply (list_elem_of_lookup_2 _ O). by rewrite lookup_drop, Nat.add_0_r.
Qed.

(** A method that leads to a later parser when it returns. *)
Definition keeps {A} (m m' : P A) : Prop := forall n p a q, m n p = Ok (a, q) -> later p q.

Program Definition frame_logic : ParserLogic := {| related A := keeps |}.
Next Obligation. intros A a n p x q H. injection H as <- <-. done. Qed.
Next Obligation.
  intros A B m m' f f' Hm Hf n p b q H. simpl in *.
  destruct (st_bind_inv (m n) (fun a => f a n) p b q H) as (a & p' & H1 & H2).
  etrans; [by eapply Hm|by eapply Hf].
Qed.
Next Obligation. intros A f n p a q H. unfold read, gets in H. simplify_eq. done. Qed.
Next Obligation. intros A e n p a q H. discriminate H. Qed.
Next Obligation. intros A o n p a q H. destruct o; [by simplify_eq/=|discriminate H]. Qed.
Next Obligation.
  intros A R body body' a Hb n. simpl in *. unfold loop. generalize n at 1. intros rounds.
  revert a. induction rounds as [|rounds IH]; intros a p r q H; [discriminate H|].
  apply st_bind_inv in H. destruct H as ([a'|r'] & p' & H1 & H2).
  - etrans; [by eapply Hb|by eapply IH].
  - unfold mret, st_ret in H2. simplify_eq. by eapply Hb.
Qed.
Next Obligation.
  intros n p a q H. unfold bump, write, modify in H.
  destruct (cursor_next (cursor p)) as [o c] eqn:E. simplify_eq.
  apply cursor_next_later in E as (? & ? & Ht). split; simpl; auto.
  destruct o as [t|]; [right; by apply Ht|by left].
Qed.
Next Obligation.
  intros n p a q H. unfold has_next in H. destruct (cursor_next (cursor p)) as [o c] eqn:E.
  apply cursor_next_later in E as (? & ? & _). simplify_eq. split; simpl; auto.
Qed.
Next Obligation. intros f n p a q H. unfold write, modify in H. simplify_eq. apply later_set_errors. Qed.
Next Obligation.
  intros A s m m' Hm n p a q E. simpl in *. unfold on_stream in E.
  destruct (m n _) as [[a' p']|e] eqn:E'; [|discriminate E]. simplify_eq.
  apply Hm in E'. destruct E'. split; simpl in *; auto.
Qed.

(** ** The fuel *)

(** Out of fuel, or what the other method gives with any greater fuel. *)
Definition settles {A} (m m' : P A) : Prop :=
  forall n n' p, (n <= n')%nat -> m n p = Panic out_of_fuel \/ m' n' p = m n p.

Program Definition fuel_logic : ParserLogic := {| related A := settles |}.
Next Obligation. by right. Qed.
Next Obligation.
  intros A B m m' f f' Hm Hf n n' p Hn. unfold mbind, P_bind, mbind, st_bind.
  destruct (Hm n n' p Hn) as [->| ->]; [by left|]. destruct (m n p) as [[a q]|e]; [|by right].
  by apply Hf.
Qed.
Next Obligation. by right. Qed.
Next Obligation. by right. Qed.
Next Obligation. by right. Qed.
Next Obligation.
  intros A R body body' a Hb n n' p Hn. unfold loop.
  enough (forall rounds rounds' a p, (rounds <= rounds')%nat ->
    loop_rounds rounds (fun a => body a n) a p = Panic out_of_fuel \/
    loop_rounds rounds' (fun a => body' a n') a p = loop_rounds rounds (fun a => body a n) a p)
    as Hr by by apply Hr.
  intros rounds. induction rounds as [|rounds IH]; intros [|rounds'] a0 p0 Hr; [by left|by left|lia|].
  simpl. unfold mbind, st_bind.
  destruct (Hb a0 n n' p0 Hn) as [->| ->]; [by left|].
  destruct (body a0 n p0) as [[[a'|r] q]|e]; [|by right|by right]. apply IH. lia.
Qed.
Next Obligation. by right. Qed.
Next Obligation. by right. Qed.
Next Obligation. by right. Qed.
Next Obligation.
  intros A s m m' Hm n n' p Hn. unfold on_stream.
  destruct (Hm n n' (mkParser dummy dummy (stream_cursor s) [] (errors p)) Hn) as [->| ->]; [by left|].
  by right.
Qed.

Section Properties.
Context (debug : bool) `{UnicodeTables, BigDigits, SourceMap}.

Lemma run_keeps fuel A (c : call A) p a q : run debug fuel A c p = Ok (a, q) -> later p q.
Proof.
  revert A c p a q. induction fuel as [|n IH]; intros A c p a q Hr; [discriminate Hr|].
  refine (handler_related debug (PL := frame_logic) (fun _ c _ => run debug n _ c)
            (fun _ c _ => run debug n _ c) _ A c n p a q Hr).
  intros A' c' _ p' a' q'. apply IH.
Qed.

Lemma run_settles n n' A (c : call A) p : (n <= n')%nat ->
  run debug n A c p = Panic out_of_fuel \/ run debug n' A c p = run debug n A c p.
Proof.
  revert n' A c p. induction n as [|n IH]; intros [|n'] A c p Hn; [by left|by left|lia|].
  refine (handler_related debug (PL := fuel_logic) (fun _ c _ => run debug n _ c)
            (fun _ c _ => run debug n' _ c) _ A c n n' p _); [|lia].
  intros A' c' m m' p' _. apply IH. lia.
Qed.

(** C17: parsing a module never loses what is before it: whatever the tokens are, the parser
    that [parse_module] leaves has the same token stream and comments, its cursor is not
    before where it was, and the errors of the session (those of the lexer among them) are
    all still there, in their order, with the new ones after them. *)
Theorem parse_module_frame fuel p m q :
  parse_module debug fuel p = Ok (m, q) ->
  stream (cursor q) = stream (cursor p) /\ (index (cursor p) <= index (cursor q))%nat /\
  comments q = comments p /\ errors p `prefix_of` errors q.
Proof.
  destruct fuel as [|n]; [discriminate|]. intros Hr.
  enough (later p q) as [] by auto.
  refine (parse_module_body_related debug (PL := frame_logic) (fun _ c _ => run debug n _ c)
            (fun _ c _ => run debug n _ c) _ n p m q Hr).
  intros A c _ p' a' q'. apply run_keeps.
Qed.
End Properties.

Definition frame_example_map : SourceMap := {|
  lookup_char_pos b := {| loc_file := []; loc_line := 1; loc_col := b |};
  span_to_snippet _ := None |}.
(** [a = 1], after an error of the lexer. *)
Definition frame_example : parser :=
  new_parser (H := frame_example_map) [Message (txt "unterminated string") (span_new 0 1)]
    (map (fun k => new_token k (span_new 0 1))
       [Ident (txt "a"); Assign;
        Literal {| lit_kind := Integer; lit_symbol := txt "1"; suffix := None; raw := None |}; Eof]).

Lemma parse_module_frame_witness :
  exists m q,
    parse_module true 20 frame_example
      (H := ascii_tables) (H0 := plain_digits) (H1 := frame_example_map) = Ok (m, q) /\
    stream (cursor q) = stream (cursor frame_example) /\
    (index (cursor frame_example) <= index (cursor q))%nat /\
    comments q = comments frame_example /\ errors frame_example `prefix_of` errors q.
Proof.
  destruct (parse_module true 20 frame_example
      (H := ascii_tables) (H0 := plain_digits) (H1 := frame_example_map)) as [[m q]|e] eqn:E;
    [|vm_compute in E; discriminate E].
  exists m, q. split; [done|]. apply (parse_module_frame true _ _ _ _ E).
Defined.
