(* ===== verification/ParserRun.v ===== *)
(** * Running the parser with enough fuel

    [rets m p a q]: from some fuel on, the method [m] run on the parser [p] returns [a] and
    leaves [q].  The rules follow the combinators; [loops] is the run of a loop, round by
    round.  [reads p ts q]: the tokens from the current one of [p] on are [ts], and [q] is the
    parser after them, at a token that is in the stream too. *)

From S2P Require Import Prelude MachineInt State Floats Chars Utf8 StrLiteral AstToken IntLiteral Ast ParserState ParserExpr ParserStmt.

(** ** Reading tokens *)

(** The parser after [bump]. *)
Definition eat (p : parser) : parser :=
  let '(next, c) := cursor_next (cursor p) in
  set_tokens (match next with Some t => t | None => token p end) (token p) c p.

Inductive reads : parser -> list Token -> parser -> Prop :=
| reads_nil p : reads p [] p
| reads_cons p t ts q :
    token p = t -> is_Some (cursor_peek (cursor p)) -> reads (eat p) ts q -> reads p (t :: ts) q.

Section Reads.
Implicit Types (p q : parser) (t : Token) (ts : list Token).

Lemma reads_inv p t ts q : reads p (t :: ts) q ->
  token p = t /\ is_Some (cursor_peek (cursor p)) /\ reads (eat p) ts q.
Proof. inversion 1; subst; done. Qed.

Lemma reads_nil_inv p q : reads p [] q -> q = p.
Proof. by inversion 1. Qed.

Lemma reads_app p ts1 p1 ts2 q : reads p ts1 p1 -> reads p1 ts2 q -> reads p (ts1 ++ ts2) q.
Proof. induction 1; intros; simpl; [done|]. constructor; auto. Qed.

Lemma reads_app_inv p ts1 ts2 q : reads p (ts1 ++ ts2) q ->
  exists p1, reads p ts1 p1 /\ reads p1 ts2 q.
Proof.
  revert p. induction ts1 as [|t ts1 IH]; intros p Hr; [by exists p; split; [constructor|]|].
  apply reads_inv in Hr as (Ht & Hp & Hr). apply IH in Hr as (p1 & H1 & H2).
  exists p1. split; [by constructor|done].
Qed.

(** One [bump] changes the tokens and the cursor only. *)
Lemma eat_peek p t : cursor_peek (cursor p) = Some t -> token (eat p) = t.
Proof. unfold cursor_peek, eat, cursor_next. by intros ->. Qed.
Lemma eat_prev p : prev_token (eat p) = token p.
Proof. unfold eat. by destruct (cursor_next _). Qed.
Lemma eat_index p : is_Some (cursor_peek (cursor p)) -> index (cursor (eat p)) = S (index (cursor p)).
Proof. unfold cursor_peek, eat, cursor_next. by intros [t ->]. Qed.
Lemma eat_errors p : errors (eat p) = errors p.
Proof. unfold eat. by destruct (cursor_next _). Qed.

Lemma reads_prev p ts q : reads p ts q -> ts <> [] -> last ts = Some (prev_token q).
Proof.
  induction 1 as [p|p t ts q Ht Hp Hr IH]; [done|]. intros _. destruct ts as [|u ts].
  - apply reads_nil_inv in Hr as ->. simpl. rewrite eat_prev. by rewrite Ht.
  - rewrite last_cons_cons. by apply IH.
Qed.

Lemma reads_head p ts q : reads p ts q -> ts <> [] -> head ts = Some (token p).
Proof. destruct 1; [done|]. intros _. by subst. Qed.

Lemma reads_errors p ts q : reads p ts q -> errors q = errors p.
Proof. induction 1 as [|p t ts q Ht Hp Hr IH]; [done|]. by rewrite IH, eat_errors. Qed.

Lemma reads_index p ts q : reads p ts q ->
  index (cursor q) = (index (cursor p) + length ts)%nat.
Proof.
  induction 1 as [|p t ts q Ht Hp Hr IH]; simpl; [lia|]. rewrite IH, eat_index by done. lia.
Qed.

(** The token that follows is the one peeked. *)
Lemma reads_peek p t ts q : reads p (t :: ts) q ->
  cursor_peek (cursor p) = Some (token (eat p)).
Proof.
  intros Hr. apply reads_inv in Hr as (_ & [u Hu] & _). by rewrite Hu, (eat_peek p u).
Qed.
End Reads.

(** Split the hypotheses that tell the tokens that are read. *)
Ltac reads_split :=
  repeat match goal with
  | H : reads ?p [] ?q |- _ => apply reads_nil_inv in H; subst q
  | H : reads ?p (?t :: ?ts) ?q |- _ =>
      let Ht := fresh "Ht" in let Hp := fresh "Hpeek" in
      pose proof (reads_peek _ _ _ _ H) as Hp; apply reads_inv in H as (Ht & _ & H)
  | H : reads ?p (?ts1 ++ ?ts2) ?q |- _ =>
      let p1 := fresh "p" in let Hr := fresh "Hr" in
      apply reads_app_inv in H as (p1 & Hr & H)
  end.

(** ** Methods that return *)

Section Rets.
Context (debug : bool) {UT : UnicodeTables} {BD : BigDigits} {SM : SourceMap}.

Definition rec_at (n : nat) : calls := fun _ c _ => run debug n _ c.

Definition rets {A} (m : calls -> P A) (p : parser) (a : A) (q : parser) : Prop :=
  exists n0, forall n, (n0 <= n)%nat -> m (rec_at n) n p = Ok (a, q).

Inductive loops {A R} (body : calls -> A -> P (A + R)) : parser -> A -> R -> parser -> Prop :=
| loops_done p a r q : rets (fun rec => body rec a) p (inr r) q -> loops body p a r q
| loops_next p a a' p' r q :
    rets (fun rec => body rec a) p (inl a') p' -> loops body p' a' r q -> loops body p a r q.

Section Rules.
Context {A B : Type}.

Lemma rets_ret (a : A) p : rets (fun _ => mret a) p a p.
Proof. by exists O. Qed.

Lemma rets_bind (m : calls -> P A) (f : calls -> A -> P B) p a p' b q :
  rets m p a p' -> rets (fun rec => f rec a) p' b q -> rets (fun rec => m rec ≫= f rec) p b q.
Proof.
  intros [n1 H1] [n2 H2]. exists (max n1 n2). intros n Hn.
  unfold mbind, P_bind, mbind, st_bind. rewrite H1 by lia. by rewrite H2 by lia.
Qed.

Lemma rets_read (f : parser -> A) p : rets (fun _ => read f) p (f p) p.
Proof. by exists O. Qed.

Lemma rets_lift (o : outcome A) a p : o = Ok a -> rets (fun _ => lift_o o) p a p.
Proof. intros ->. by exists O. Qed.

Lemma rets_call (c : call A) p a q :
  rets (fun rec => handler debug rec c) p a q -> rets (fun rec => rec A c) p a q.
Proof.
  intros [n0 H0]. exists (S n0). intros [|n] Hn; [lia|]. apply (H0 n). lia.
Qed.

(** For a property with its own fuel. *)
Lemma rets_run (c : call A) p a q :
  rets (fun rec => rec A c) p a q ->
  exists n0, forall n, (n0 <= n)%nat -> run debug n A c p = Ok (a, q).
Proof. intros [n0 H0]. exists n0. intros n Hn. by apply H0. Qed.

Lemma rets_loop (body : calls -> A -> P (A + B)) p a r q :
  loops body p a r q -> rets (fun rec => loop (body rec) a) p r q.
Proof.
  intros Hl. enough (exists n0 k, forall n rounds, (n0 <= n)%nat -> (k <= rounds)%nat ->
    loop_rounds rounds (fun a => body (rec_at n) a n) a p = Ok (r, q)) as (n0 & k & Hn).
  { exists (max n0 k). intros n Hnk. apply Hn; lia. }
  induction Hl as [p a r q [n0 H0]|p a a' p' r q [n0 H0] Hl (n1 & k & IH)].
  - exists n0, 1%nat. intros n [|rounds] Hn Hk; [lia|]. simpl.
    unfold mbind, st_bind. by rewrite H0 by lia.
  - exists (max n0 n1), (S k). intros n [|rounds] Hn Hk; [lia|]. simpl.
    unfold mbind, st_bind. rewrite H0 by lia. apply IH; lia.
Qed.
End Rules.

(** ** Tokens *)

Lemma rets_bump p : rets (fun _ => bump) p tt (eat p).
Proof.
  exists O. intros n _. unfold bump, write, modify, eat. by destruct (cursor_next _).
Qed.

Lemma rets_kind_is k p b : bool_decide (kind (token p) = k) = b -> rets (fun _ => kind_is k) p b p.
Proof. intros <-. apply (rets_read (fun p => bool_decide (kind (token p) = k))). Qed.

Lemma rets_bump_token k p : kind (token p) = k -> rets (fun _ => bump_token k) p tt (eat p).
Proof.
  intros Hk. unfold bump_token. eapply rets_bind; [apply rets_read|].
  rewrite bool_decide_true by done. eapply rets_bind; [apply rets_ret|]. apply rets_bump.
Qed.

Lemma rets_bump_or_error k p : kind (token p) = k -> rets (fun _ => bump_or_error k) p tt (eat p).
Proof.
  intros Hk. unfold bump_or_error. eapply rets_bind; [by apply rets_kind_is, bool_decide_true|].
  apply rets_bump.
Qed.

Lemma rets_bump_if_no k p : kind (token p) <> k -> rets (fun _ => bump_if k) p tt p.
Proof.
  intros Hk. unfold bump_if. eapply rets_bind; [by apply rets_kind_is, bool_decide_false|].
  apply rets_ret.
Qed.
Lemma rets_bump_if_yes k p : kind (token p) = k -> rets (fun _ => bump_if k) p tt (eat p).
Proof.
  intros Hk. unfold bump_if. eapply rets_bind; [by apply rets_kind_is, bool_decide_true|].
  apply rets_bump.
Qed.

(** Newlines are skipped together. *)
Lemma rets_skip_newlines p ts q :
  Forall (fun t => kind t = Newline) ts -> reads p ts q -> kind (token q) <> Newline ->
  rets (fun _ => skip_newlines) p tt q.
Proof.
  intros Hn Hr Hq. apply (rets_loop (fun _ _ => _)).
  induction Hr as [p|p t ts q Ht Hp Hr IH].
  - apply loops_done. eapply rets_bind; [by apply rets_kind_is, bool_decide_false|]. apply rets_ret.
  - apply Forall_cons in Hn as [Hk Hn]. eapply loops_next; [|by apply IH].
    eapply rets_bind; [apply rets_kind_is, bool_decide_true; by rewrite Ht|].
    eapply rets_bind; [apply rets_bump|]. apply rets_ret.
Qed.

(** The node over the tokens read. *)
Definition node_over {A} (ts : list Token) (x : A) : Node A :=
  node_node x (struct_token_loc (default dummy (head ts)) (default dummy (last ts))).

Lemma rets_node_from {A} p ts q (x : A) :
  reads p ts q -> ts <> [] -> rets (fun _ => node_from (token p) x) q (node_over ts x) q.
Proof.
  intros Hr Hn. unfold node_from, node_over.
  rewrite (reads_prev _ _ _ Hr Hn), (reads_head _ _ _ Hr Hn). simpl.
  eapply rets_bind; [apply rets_read|]. apply rets_ret.
Qed.

Lemma rets_node_span {A} p ts q (x : A) :
  reads p ts q -> ts <> [] -> rets (fun _ => node_span (token p) x) q (node_over ts x) q.
Proof. apply rets_node_from. Qed.
End Rets.

(** One combinator at the head of a [rets]. *)
Ltac rets_step :=
  lazymatch goal with
  | |- rets _ (fun _ => mbind _ _) _ _ _ => eapply rets_bind
  | |- rets _ (fun _ => mret _) _ _ _ => apply rets_ret
  | |- rets _ (fun _ => read _) _ _ _ => apply rets_read
  | |- rets _ (fun _ => bump) _ _ _ => apply rets_bump
  | |- rets _ (fun _ => kind_is _) _ _ _ => apply rets_kind_is
  | |- rets _ (fun _ => at_keyword _) _ _ _ => apply rets_read
  | |- rets _ (fun _ => token_kind) _ _ _ => apply rets_read
  end.
