(* ===== verification/ParserGrammar.v ===== *)
(** * A grammar of expressions

    The expressions of the language as derivations from tokens, one judgment per syntactic
    class, each with the located tree it denotes: names, constants, numbers, plain strings,
    parentheses, lists and configurations on one line or indented, schema instances, calls
    with positional and keyword arguments, selectors, subscripts and slices, unary and binary
    operators, comparison chains and conditionals.  Binary operators are stratified by
    precedence, not read left to right: an operand of an operator holds tighter operators
    only.  Not in the grammar: lambdas, quantifiers, comprehensions, conditional items and
    interpolated strings. *)

From S2P Require Import Prelude MachineInt State Floats Chars Utf8 StrLiteral AstToken IntLiteral Ast ParserState ParserExpr ParserStmt ParserRun.

Section Grammar.
Context (debug : bool) {BD : BigDigits} {SM : SourceMap}.
Implicit Types (t u : Token) (ts : list Token) (e x y : Node Expr).

(** ** Tokens *)

(** The keywords an expression does not begin with as a name. *)
Definition reserved : list symbol :=
  [kw_as; kw_for; kw_if; kw_elif; kw_else; kw_or; kw_and; kw_not; kw_in; kw_is; kw_lambda;
   kw_all; kw_any; kw_filter; kw_map; kw_True; kw_False; kw_None; kw_Undefined].

Inductive dots : list Token -> list (Node text) -> Prop :=
| dots_nil : dots [] []
| dots_cons d t s ts ns :
    kind d = Dot -> kind t = Ident s -> dots ts ns -> dots (d :: t :: ts) (node_over [t] s :: ns).

(** A dotted name; only its first word cannot be reserved. *)
Inductive name : list Token -> Identifier -> Prop :=
| name_dots t s ts ns :
    kind t = Ident s -> dots ts ns -> name (t :: ts) (mkIdentifier (node_over [t] s :: ns) [] Load).
Inductive free_name : list Token -> Identifier -> Prop :=
| free_name_intro t s ts i : kind t = Ident s -> s ∉ reserved -> name (t :: ts) i -> free_name (t :: ts) i.

Definition constants : list (symbol * NameConstant) :=
  [(kw_True, NcTrue); (kw_False, NcFalse); (kw_None, NcNone); (kw_Undefined, NcUndefined)].

(** The tokens of an operator before the token [next], and its precedence. *)
Inductive operator : list Token -> Token -> BinOrCmpOp -> Precedence -> Prop :=
| operator_one t next op :
    bin_or_cmp_op_of t = Some op -> is_keyword t kw_is && is_keyword next kw_not = false ->
    operator [t] next op (precedence_of t)
| operator_not_in t u next :
    is_keyword t kw_not = true -> is_keyword u kw_in = true ->
    operator [t; u] next (BcCmp CmpNotIn) InOrNotIn
| operator_is_not t u next :
    is_keyword t kw_is = true -> is_keyword u kw_not = true ->
    operator [t; u] next (BcCmp CmpIsNot) IsOrIsNot.

Definition tighter (p q : Precedence) : Prop := prec_le q p = false.   (* q binds tighter *)

Definition newlines (ts : list Token) : Prop := Forall (fun t => kind t = Newline) ts.

(** Between the items of a literal: a comma on one line; over several lines a comma,
    newlines or both. *)
Inductive separator : bool -> list Token -> Prop :=
| sep_comma block t : kind t = Comma -> separator block [t]
| sep_comma_lines t u ts : kind t = Comma -> newlines (u :: ts) -> separator true (t :: u :: ts)
| sep_lines u ts : newlines (u :: ts) -> separator true (u :: ts).
Definition opt_separator (block : bool) (ts : list Token) : Prop := ts = [] \/ separator block ts.

(** The opening of a subscript, with the question mark or without. *)
Inductive open_subscript : list Token -> bool -> Prop :=
| open_bracket t : kind t = OpenDelim Bracket -> open_subscript [t] false
| open_question t u :
    kind t = Question -> kind u = OpenDelim Bracket -> open_subscript [t; u] true.

Inductive entry_operator : Token -> ConfigEntryOperation -> Prop :=
| entry_union t : kind t = Colon -> entry_operator t OpUnion
| entry_override t : kind t = Assign -> entry_operator t OpOverride
| entry_insert t : kind t = AstToken.BinOpEq Plus -> entry_operator t OpInsert.

(** ** Expressions *)

(** What the last part of a primary expression is: the name it is all of, a selector, or
    anything else. *)
Inductive shape := Bare | Selected | Other.

Inductive expr : list Token -> Node Expr -> Prop :=
| expr_simple q cmp ts e : simple Lowest q cmp ts e -> expr ts e
| expr_if q1 c1 ts1 body t q2 c2 ts2 cond u ts3 orelse :
    simple Lowest q1 c1 ts1 body -> is_keyword t kw_if = true ->
    simple Lowest q2 c2 ts2 cond -> is_keyword u kw_else = true -> expr ts3 orelse ->
    expr (ts1 ++ t :: ts2 ++ u :: ts3)
         (node_over (ts1 ++ t :: ts2 ++ u :: ts3) (EIf (mkIfExpr body cond orelse)))

(** [simple p q cmp ts e]: all the operators of [e] bind tighter than [p], the last one at its
    top has precedence [q] ([Prefix] when there is none), and [cmp] tells that it is a
    comparison. *)
with simple : Precedence -> Precedence -> bool -> list Token -> Node Expr -> Prop :=
| simple_unary p ts e : unary ts e -> simple p Prefix false ts e
| simple_binary p q ts1 x ots op o q' c' t ts2 y :
    simple p q false ts1 x -> operator ots t (BcBin op) o -> tighter p o -> prec_le o q = true ->
    simple o q' c' (t :: ts2) y ->
    simple p o false (ts1 ++ ots ++ t :: ts2)
      (node_over (ts1 ++ ots ++ t :: ts2) (EBinary (mkBinaryExpr x (BcBin op) y)))
(** A comparison on the left is located over the whole expression. *)
| simple_binary_cmp p q ts1 x ots op o q' c' t ts2 y :
    simple p q true ts1 x -> operator ots t (BcBin op) o -> tighter p o -> prec_le o q = true ->
    simple o q' c' (t :: ts2) y ->
    simple p o false (ts1 ++ ots ++ t :: ts2)
      (node_over (ts1 ++ ots ++ t :: ts2)
         (EBinary (mkBinaryExpr (node_over (ts1 ++ ots ++ t :: ts2) (node x)) (BcBin op) y)))
| simple_compare p q ts1 x ots op o q' c' t ts2 y :
    simple p q false ts1 x -> operator ots t (BcCmp op) o -> tighter p o -> prec_le o q = true ->
    simple o q' c' (t :: ts2) y ->
    simple p o true (ts1 ++ ots ++ t :: ts2)
      (node_over (ts1 ++ ots ++ t :: ts2) (ECompare (mkCompare x [op] [y])))
| simple_compare_more p q ts1 x cmp ots op o q' c' t ts2 y :
    simple p q true ts1 x -> node x = ECompare cmp ->
    operator ots t (BcCmp op) o -> tighter p o -> prec_le o q = true ->
    simple o q' c' (t :: ts2) y ->
    simple p o true (ts1 ++ ots ++ t :: ts2)
      (node_over (ts1 ++ ots ++ t :: ts2)
         (ECompare (mkCompare (cmp_left cmp) (ops cmp ++ [op]) (comparators cmp ++ [y]))))

with unary : list Token -> Node Expr -> Prop :=
| unary_primary s ts e : primary s ts e -> unary ts e
| unary_op s t op ts x :
    unary_op_of t = Some op -> primary s ts x ->
    unary (t :: ts) (node_over (t :: ts) (EUnary (mkUnaryExpr op x)))

with primary : shape -> list Token -> Node Expr -> Prop :=
| primary_name ts i : free_name ts i -> primary Bare ts (node_over ts (EIdentifier i))
| primary_operand ts e : operand_of ts e -> primary Other ts e
| primary_schema ts1 i ts2 c :
    free_name ts1 i -> config ts2 c ->
    primary Other (ts1 ++ ts2)
      (node_over (ts1 ++ ts2) (ESchema (mkSchemaExpr (node_over ts1 i) [] [] c)))
| primary_schema_args ts1 i t ts2 a k u ts3 c :
    free_name ts1 i -> kind t = OpenDelim Paren -> call_arguments ts2 a k ->
    kind u = CloseDelim Paren -> config ts3 c ->
    primary Other (ts1 ++ t :: ts2 ++ u :: ts3)
      (node_over (ts1 ++ t :: ts2 ++ u :: ts3) (ESchema (mkSchemaExpr (node_over ts1 i) a k c)))
| primary_call s ts1 f t ts2 a k u :
    primary s ts1 f -> kind t = OpenDelim Paren -> call_arguments ts2 a k ->
    kind u = CloseDelim Paren ->
    primary Other (ts1 ++ t :: ts2 ++ [u])
      (node_over (ts1 ++ t :: ts2 ++ [u]) (ECall (mkCallExpr f a k)))
| primary_dot ts1 x t ts2 i :
    primary Other ts1 x -> kind t = Dot -> name ts2 i ->
    primary Selected (ts1 ++ t :: ts2)
      (node_over (ts1 ++ t :: ts2) (ESelector (mkSelectorExpr x (node_over ts2 i) Load false)))
| primary_question_dot s ts1 x t u ts2 i :
    primary s ts1 x -> kind t = Question -> kind u = Dot -> name ts2 i ->
    primary Selected (ts1 ++ t :: u :: ts2)
      (node_over (ts1 ++ t :: u :: ts2) (ESelector (mkSelectorExpr x (node_over ts2 i) Load true)))
| primary_index s ts1 x ts2 has_question ts3 i u :
    primary s ts1 x -> open_subscript ts2 has_question -> expr ts3 i -> kind u = CloseDelim Bracket ->
    primary Other (ts1 ++ ts2 ++ ts3 ++ [u])
      (node_over (ts1 ++ ts2 ++ ts3 ++ [u])
         (ESubscript (mkSubscript x (Some i) None None None Load has_question)))
| primary_slice s ts1 x ts2 has_question ts3 lo t ts4 hi u :
    primary s ts1 x -> open_subscript ts2 has_question -> opt_expr ts3 lo -> kind t = Colon ->
    opt_expr ts4 hi -> kind u = CloseDelim Bracket ->
    primary Other (ts1 ++ ts2 ++ ts3 ++ t :: ts4 ++ [u])
      (node_over (ts1 ++ ts2 ++ ts3 ++ t :: ts4 ++ [u])
         (ESubscript (mkSubscript x None lo hi None Load has_question)))
| primary_slice_step s ts1 x ts2 has_question ts3 lo t ts4 hi t' ts5 st u :
    primary s ts1 x -> open_subscript ts2 has_question -> opt_expr ts3 lo -> kind t = Colon ->
    opt_expr ts4 hi -> kind t' = Colon -> opt_expr ts5 st -> kind u = CloseDelim Bracket ->
    primary Other (ts1 ++ ts2 ++ ts3 ++ t :: ts4 ++ t' :: ts5 ++ [u])
      (node_over (ts1 ++ ts2 ++ ts3 ++ t :: ts4 ++ t' :: ts5 ++ [u])
         (ESubscript (mkSubscript x None lo hi st Load has_question)))

with opt_expr : list Token -> option (Node Expr) -> Prop :=
| opt_none : opt_expr [] None
| opt_some ts e : expr ts e -> opt_expr ts (Some e)

with operand_of : list Token -> Node Expr -> Prop :=
| operand_constant t s c :
    kind t = Ident s -> (s, c) ∈ constants ->
    operand_of [t] (node_over [t] (ENameConstantLit (mkNameConstantLit c)))
| operand_integer t lk v :
    kind t = Literal lk -> lit_kind lk = Integer -> bytes_to_int debug (lit_symbol lk) 0 = Ok (Some v) ->
    operand_of [t]
      (node_over [t] (ENumberLit (mkNumberLit
         (s ← suffix lk; suffix_try_from (encode s)) (NlInt v))))
| operand_float t lk v :
    kind t = Literal lk -> lit_kind lk = Float -> f64_parse (lit_symbol lk) = Some v ->
    operand_of [t] (node_over [t] (ENumberLit (mkNumberLit None (NlFloat v))))
| operand_string t lk long is_raw :
    kind t = Literal lk -> lit_kind lk = Str long is_raw -> find_interpolation (lit_symbol lk) = None ->
    operand_of [t]
      (node_over [t] (EStringLit (mkStringLit long (default [] (raw lk)) (lit_symbol lk))))
| operand_paren t ts e u :
    kind t = OpenDelim Paren -> expr ts e -> kind u = CloseDelim Paren ->
    operand_of (t :: ts ++ [u]) (node_over (t :: ts ++ [u]) (EParen (mkParenExpr e)))
| operand_empty_list t u :
    kind t = OpenDelim Bracket -> kind u = CloseDelim Bracket ->
    operand_of [t; u] (node_over [t; u] (EList (mkListExpr [] Load)))
| operand_list t ts l u :
    kind t = OpenDelim Bracket -> list_items false ts l -> kind u = CloseDelim Bracket ->
    operand_of (t :: ts ++ [u]) (node_over (t :: ts ++ [u]) (EList (mkListExpr l Load)))
| operand_list_block t n ns i ts l d u :
    kind t = OpenDelim Bracket -> newlines (n :: ns) -> kind i = Indent -> list_items true ts l ->
    kind d = Dedent -> kind u = CloseDelim Bracket ->
    operand_of (t :: (n :: ns) ++ i :: ts ++ [d; u])
      (node_over (t :: (n :: ns) ++ i :: ts ++ [d; u]) (EList (mkListExpr l Load)))
| operand_config ts e : config ts e -> operand_of ts e

with config : list Token -> Node Expr -> Prop :=
| config_empty t u :
    kind t = OpenDelim Brace -> kind u = CloseDelim Brace ->
    config [t; u] (node_over [t; u] (EConfig (mkConfigExpr [])))
| config_line t ts l u :
    kind t = OpenDelim Brace -> config_entries false ts l -> kind u = CloseDelim Brace ->
    config (t :: ts ++ [u]) (node_over (t :: ts ++ [u]) (EConfig (mkConfigExpr l)))
| config_block t n ns i ts l d u :
    kind t = OpenDelim Brace -> newlines (n :: ns) -> kind i = Indent -> config_entries true ts l ->
    kind d = Dedent -> kind u = CloseDelim Brace ->
    config (t :: (n :: ns) ++ i :: ts ++ [d; u])
      (node_over (t :: (n :: ns) ++ i :: ts ++ [d; u]) (EConfig (mkConfigExpr l)))

with list_item : list Token -> Node Expr -> Prop :=
| item_expr ts e : expr ts e -> list_item ts e
| item_starred t ts e :
    kind t = AstToken.BinOp Star -> expr ts e ->
    list_item (t :: ts) (node_over (t :: ts) (EStarred (mkStarredExpr e Load)))

with list_items : bool -> list Token -> list (Node Expr) -> Prop :=
| items_last block ts e tss :
    list_item ts e -> opt_separator block tss -> list_items block (ts ++ tss) [e]
| items_cons block ts e tss ts' l :
    list_item ts e -> separator block tss -> list_items block ts' l ->
    list_items block (ts ++ tss ++ ts') (e :: l)

with config_entry : list Token -> Node (ConfigEntry Expr) -> Prop :=
| entry_key ts1 k t op ts2 v :
    expr ts1 k -> entry_operator t op -> expr ts2 v ->
    config_entry (ts1 ++ t :: ts2) (node_over (ts1 ++ t :: ts2) (mkConfigEntry (Some k) v op (-1)))
| entry_unpack t ts v :
    kind t = AstToken.BinOp StarStar -> expr ts v ->
    config_entry (t :: ts) (node_over (t :: ts) (mkConfigEntry None v OpUnion (-1)))

with config_entries : bool -> list Token -> list (Node (ConfigEntry Expr)) -> Prop :=
| entries_last block ts c tss :
    config_entry ts c -> opt_separator block tss -> config_entries block (ts ++ tss) [c]
| entries_cons block ts c tss ts' l :
    config_entry ts c -> separator block tss -> config_entries block ts' l ->
    config_entries block (ts ++ tss ++ ts') (c :: l)

with call_arguments : list Token -> list (Node Expr) -> list (Node (Keyword Expr)) -> Prop :=
| no_arguments : call_arguments [] [] []
| some_arguments ts a k : arguments false ts a k -> call_arguments ts a k

(** After a keyword argument ([kw]) there are no positional ones. *)
with arguments : bool -> list Token -> list (Node Expr) -> list (Node (Keyword Expr)) -> Prop :=
| arguments_expr ts e : expr ts e -> arguments false ts [e] []
| arguments_keyword kw ts k : keyword_argument ts k -> arguments kw ts [] [k]
| arguments_expr_more ts e t ts' a k :
    expr ts e -> kind t = Comma -> arguments false ts' a k ->
    arguments false (ts ++ t :: ts') (e :: a) k
| arguments_keyword_more kw ts k t ts' ks :
    keyword_argument ts k -> kind t = Comma -> arguments true ts' [] ks ->
    arguments kw (ts ++ t :: ts') [] (k :: ks)

with keyword_argument : list Token -> Node (Keyword Expr) -> Prop :=
| keyword_intro ts1 n i t ts2 v :
    expr ts1 n -> node n = EIdentifier i -> kind t = Assign -> expr ts2 v ->
    keyword_argument (ts1 ++ t :: ts2)
      (node_over (ts1 ++ t :: ts2) (mkKeyword (node_over ts1 i) (Some v))).
End Grammar.

Scheme expr_mind := Minimality for expr Sort Prop
  with simple_mind := Minimality for simple Sort Prop
  with unary_mind := Minimality for unary Sort Prop
  with primary_mind := Minimality for primary Sort Prop
  with opt_expr_mind := Minimality for opt_expr Sort Prop
  with operand_mind := Minimality for operand_of Sort Prop
  with config_mind := Minimality for config Sort Prop
  with list_item_mind := Minimality for list_item Sort Prop
  with list_items_mind := Minimality for list_items Sort Prop
  with config_entry_mind := Minimality for config_entry Sort Prop
  with config_entries_mind := Minimality for config_entries Sort Prop
  with call_arguments_mind := Minimality for call_arguments Sort Prop
  with arguments_mind := Minimality for arguments Sort Prop
  with keyword_argument_mind := Minimality for keyword_argument Sort Prop.
Combined Scheme grammar_mind from expr_mind, simple_mind, unary_mind, primary_mind,
  opt_expr_mind, operand_mind, config_mind, list_item_mind, list_items_mind, config_entry_mind,
  config_entries_mind, call_arguments_mind, arguments_mind, keyword_argument_mind.
