(* ===== verification/ParserComplete.v ===== *)
(** * The expression parser implements the grammar

    Every derivation of the grammar is parsed: with enough fuel [parse_expr] returns the tree
    of the derivation and stops right after its tokens.  The proof goes by induction over the
    judgments, with the run of each loop of the parser from any of its rounds. *)

From S2P Require Import Prelude MachineInt State Floats Chars Utf8 StrLiteral AstToken IntLiteral Ast ParserState ParserExpr ParserStmt ParserRun ParserGrammar.

(** ** The first token of an expression *)

Definition starts (t : Token) : bool :=
  match kind t with
  | Literal _ | AstToken.UnaryOp _ => true
  | AstToken.BinOp Plus | AstToken.BinOp Minus => true
  | OpenDelim d => negb (bool_decide (d = NoDelim))
  | Ident s => bool_decide (s ∉ reserved) || bool_decide (s ∈ [kw_True; kw_False; kw_None; kw_Undefined; kw_not])
  | _ => false
  end.
Definition begins (ts : list Token) : Prop := exists t ts', ts = t :: ts' /\ starts t = true.

Lemma begins_app ts ts' : begins ts -> begins (ts ++ ts').
Proof. intros (t & u & -> & Ht). by exists t, (u ++ ts'). Qed.
Lemma begins_cons t ts : starts t = true -> begins (t :: ts).
Proof. intros Ht. by exists t, ts. Qed.

Lemma is_keyword_ident t s kw : kind t = Ident s -> is_keyword t kw = bool_decide (s = kw).
Proof. intros Hk. unfold is_keyword, run_on_ident, ident. by rewrite Hk. Qed.
Lemma is_keyword_true t kw : is_keyword t kw = true -> kind t = Ident kw.
Proof.
  unfold is_keyword, run_on_ident, ident. destruct (kind t); try discriminate. simpl.
  intros Hs%bool_decide_eq_true. by subst.
Qed.
Lemma is_keyword_other t kw : (forall s, kind t <> Ident s) -> is_keyword t kw = false.
Proof.
  intros Hn. destruct (is_keyword t kw) eqn:E; [|done]. by apply is_keyword_true, Hn in E.
Qed.

(** The words that end an item: no expression begins with them. *)
Lemma starts_keyword t kw :
  starts t = true -> kw ∈ [kw_for; kw_if; kw_else; kw_elif] -> is_keyword t kw = false.
Proof.
  intros Hs Hkw. destruct (is_keyword t kw) eqn:E; [|done].
  apply is_keyword_true in E. unfold starts in Hs. rewrite E in Hs.
  repeat (apply elem_of_cons in Hkw as [->|Hkw]; [vm_compute in Hs; discriminate Hs|]).
  by apply elem_of_nil in Hkw.
Qed.

(** ** The tokens an expression stops at *)

(** No suffix of a primary expression, and no configuration of a schema. *)
Definition ends_operand (q : parser) : Prop :=
  match kind (token q) with
  | Dot => False
  | OpenDelim d => d = NoDelim
  | Question => match kind <$> cursor_peek (cursor q) with
                | Some Dot | Some (OpenDelim Bracket) => False
                | _ => True
                end
  | _ => True
  end.

(** Also no operator that binds tighter than [prec1]. *)
Definition follows (prec1 : Precedence) (q : parser) : Prop :=
  ends_operand q /\ prec_le (peek_operator (token q) (cursor_peek (cursor q))).1 prec1 = true.
Definition follows_expr (q : parser) : Prop :=
  follows Lowest q /\ is_keyword (token q) kw_if = false.

(** Punctuation. *)
Definition punctuation (t : Token) : bool :=
  match kind t with
  | Comma | Colon | Assign | AstToken.BinOpEq _ | RArrow | CloseDelim _ | Newline | Indent
  | Dedent | Eof => true
  | _ => false
  end.

Lemma peek_operator_plain t o :
  is_keyword t kw_not = false -> is_keyword t kw_is = false -> peek_operator t o = (precedence_of t, false).
Proof. intros Hn Hi. unfold peek_operator. destruct o; [|done]. by rewrite Hn, Hi. Qed.

Lemma follows_punctuation q : punctuation (token q) = true -> follows_expr q.
Proof.
  unfold punctuation. intros Hp.
  assert (forall kw, is_keyword (token q) kw = false) as Hk.
  { intros kw. apply is_keyword_other. intros s E. by rewrite E in Hp. }
  split; [split|apply Hk].
  - unfold ends_operand. by destruct (kind (token q)).
  - rewrite peek_operator_plain by apply Hk. simpl. unfold precedence_of. rewrite !Hk.
    by destruct (kind (token q)).
Qed.

Lemma prec_le_iff p q : prec_le p q = true <-> (prec_rank p <= prec_rank q)%nat.
Proof. apply Nat.leb_le. Qed.
Lemma tighter_iff p q : tighter p q <-> (prec_rank p < prec_rank q)%nat.
Proof. unfold tighter, prec_le. apply Nat.leb_gt. Qed.

Lemma follows_weaken p q r : (prec_rank p <= prec_rank q)%nat -> follows p r -> follows q r.
Proof. intros Hl [He Hp]. split; [done|]. apply prec_le_iff. apply prec_le_iff in Hp. lia. Qed.

Section Complete.
Context (debug : bool) {UT : UnicodeTables} {BD : BigDigits} {SM : SourceMap}.

(** ** Operators *)

(** The part of [binary_round] that finds the operator. *)
Definition operator_at (use : bool) (t : Token) (peek : option Token) : P (option BinOrCmpOp) :=
  if use then op ← two_word_operator t (default dummy peek); mret (Some op)
  else match bin_or_cmp_op_of t with
       | Some op => mret (Some op)
       | None => _ ← struct_token_error (map txt bin_or_cmp_all_symbols) t; mret None
       end.

Lemma bin_or_cmp_op_not t op : bin_or_cmp_op_of t = Some op -> is_keyword t kw_not = false.
Proof.
  intros Ho. destruct (is_keyword t kw_not) eqn:E; [|done]. apply is_keyword_true in E.
  unfold bin_or_cmp_op_of in Ho. rewrite E, !(is_keyword_ident t _ _ E) in Ho. discriminate Ho.
Qed.

Lemma bin_or_cmp_op_ends t op o : bin_or_cmp_op_of t = Some op ->
  match kind t with Dot | OpenDelim _ | Question => False | _ => True end /\ (kind t = o -> True).
Proof.
  intros Ho. split; [|done]. unfold bin_or_cmp_op_of in Ho. destruct (kind t) eqn:E; try done;
    rewrite !is_keyword_other in Ho by (intros s; rewrite E; discriminate); discriminate Ho.
Qed.

Lemma operator_step ots t ts op o p q :
  operator ots t op o -> reads p (ots ++ t :: ts) q ->
  exists use p1,
    peek_operator (token p) (cursor_peek (cursor p)) = (o, use) /\ ends_operand p /\
    reads p ots p1 /\ reads p1 (t :: ts) q /\
    rets debug (fun _ => operator_at use (token p) (cursor_peek (cursor p))) p (Some op) p /\
    rets debug (fun _ => whenp use bump) (eat p) tt p1.
Proof.
  intros Ho Hr. apply reads_app_inv in Hr as (p1 & Hr1 & Hr2).
  pose proof (reads_head _ _ _ Hr2 ltac:(done)) as [= Hp1].
  destruct Ho as [t0 next op Ho Hn|t0 u next Hk1 Hk2|t0 u next Hk1 Hk2].
  - exists false, p1. pose proof Hr1 as Hr1'. revert Hr1' Hr2. reads_split. intros Hr1' Hr2. subst t0.
    rewrite Hpeek. split; [|split; [|repeat split]]; try done.
    + unfold peek_operator. rewrite (bin_or_cmp_op_not _ _ Ho). simpl. by rewrite <- Hp1, Hn.
    + destruct (bin_or_cmp_op_ends _ _ Dot Ho) as [He _]. unfold ends_operand.
      by destruct (kind (token p)).
    + unfold operator_at. rewrite Ho. apply rets_ret.
    + apply rets_ret.
  - exists true, p1. pose proof Hr1 as Hr1'. revert Hr1' Hr2. reads_split. intros Hr1' Hr2. subst t0 u. rewrite Hpeek.
    pose proof (is_keyword_true _ _ Hk1) as E1. pose proof (is_keyword_true _ _ Hk2) as E2.
    split; [|split; [|repeat split]]; try done.
    + unfold peek_operator. rewrite Hk1, Hk2. simpl.
      rewrite (is_keyword_ident _ _ kw_is E1). done.
    + unfold ends_operand. by rewrite E1.
    + unfold operator_at, two_word_operator. simpl. rewrite Hk1, Hk2.
      eapply rets_bind; apply rets_ret.
    + apply rets_bump.
  - exists true, p1. pose proof Hr1 as Hr1'. revert Hr1' Hr2. reads_split. intros Hr1' Hr2. subst t0 u. rewrite Hpeek.
    pose proof (is_keyword_true _ _ Hk1) as E1. pose proof (is_keyword_true _ _ Hk2) as E2.
    split; [|split; [|repeat split]]; try done.
    + unfold peek_operator. rewrite Hk1, Hk2. by destruct (_ && _).
    + unfold ends_operand. by rewrite E1.
    + unfold operator_at, two_word_operator. simpl. rewrite Hk1, Hk2.
      rewrite (is_keyword_ident _ _ kw_not E1). simpl. eapply rets_bind; apply rets_ret.
    + apply rets_bump.
Qed.

(** A round that reads an operator and its right operand. *)
Lemma binary_round_step prec1 tok x cmp ots op o t ts y p q p1 R :
  operator ots t op o -> tighter prec1 o -> reads p (ots ++ t :: ts) q ->
  (forall p1, reads p1 (t :: ts) q -> rets debug (fun rec => rec _ (do_parse_simple_expr_call o)) p1 y q) ->
  rets debug (fun _ =>
    match op with
    | BcCmp cmp_op =>
        let left := match ops cmp with [] => x | _ => cmp_left cmp end in
        mret (inl (x, mkCompare left (ops cmp ++ [cmp_op]) (comparators cmp ++ [y])))
    | BcBin _ =>
        '(x, cmp) ← match ops cmp with
                    | [] => mret (x, cmp)
                    | _ => n ← node_from tok (ECompare cmp);
                           mret (n, mkCompare (cmp_left cmp) [] [])
                    end;
        n ← node_from tok (EBinary (mkBinaryExpr x op y));
        mret (inl (n, cmp))
    end) q R p1 ->
  rets debug (fun rec => binary_round rec prec1 tok (x, cmp)) p R p1.
Proof.
  intros Ho Ht Hr Hy Hend.
  destruct (operator_step _ _ _ _ _ _ _ Ho Hr) as (use & p' & Hp & _ & _ & Hr2 & H1 & H2).
  unfold binary_round. eapply rets_bind; [apply rets_read|]. eapply rets_bind; [apply rets_read|].
  cbv beta. rewrite Hp. unfold tighter in Ht. rewrite Ht.
  eapply rets_bind; [exact H1|]. cbv beta iota.
  eapply rets_bind; [apply rets_bump|]. eapply rets_bind; [exact H2|].
  eapply rets_bind; [by apply Hy|]. exact Hend.
Qed.

(** The loop ends at an operator that does not bind tighter. *)
Lemma binary_loop_end prec1 p0 ts x cmp e q :
  reads p0 ts q -> ts <> [] -> follows prec1 q ->
  match ops cmp with [] => e = x | _ => e = node_over ts (ECompare cmp) end ->
  loops debug (fun rec => binary_round rec prec1 (token p0)) q (x, cmp) e q.
Proof.
  intros Hr Hts [_ Hf] He. apply loops_done. unfold binary_round.
  eapply rets_bind; [apply rets_read|]. eapply rets_bind; [apply rets_read|]. cbv beta.
  destruct (peek_operator _ _) as [o use]. simpl in Hf. rewrite Hf.
  destruct (ops cmp); subst e; [apply rets_ret|].
  eapply rets_bind; [by eapply rets_node_from|]. apply rets_ret.
Qed.

(** ** Names and literals *)

Lemma rets_parse_identifier ts i p q :
  name ts i -> reads p ts q -> kind (token q) <> Dot ->
  rets debug (fun _ => parse_identifier) p (node_over ts i) q.
Proof.
  intros Hn Hr Hq. destruct Hn as [t s ts ns Hs Hd]. pose proof Hr as Hr0.
  apply reads_inv in Hr as (Ht & _ & Hr). subst t.
  unfold parse_identifier. eapply rets_bind; [apply rets_read|]. cbv beta.
  unfold ident. rewrite Hs. cbv beta iota. eapply rets_bind; [apply rets_bump|].
  eapply rets_bind; [|by eapply rets_node_from].
  apply (rets_loop debug (fun _ => _)).
  change (node_over [token p] s :: ns) with ([node_over [token p] s] ++ ns).
  change (node_node (s, tok_span (token p)).1 (struct_token_loc (token p) (token p)))
    with (node_over [token p] s).
  generalize [node_over [token p] s].
  generalize dependent (eat p). clear Hr0 Hs. induction Hd as [|d t s' ts ns Hkd Hs Hd IH]; intros p1 Hr acc.
  - reads_split. rewrite app_nil_r. apply loops_done.
    eapply rets_bind; [by apply rets_kind_is, bool_decide_false|]. apply rets_ret.
  - reads_split. subst d t. rewrite cons_middle, app_assoc.
    eapply loops_next; [|by apply IH].
    eapply rets_bind; [by apply rets_kind_is, bool_decide_true|].
    eapply rets_bind; [apply rets_bump|]. eapply rets_bind; [apply rets_read|]. cbv beta.
    unfold ident. rewrite Hs. eapply rets_bind; [apply rets_bump|]. apply rets_ret.
Qed.

Lemma rets_parse_identifier_expr ts i p q :
  name ts i -> reads p ts q -> kind (token q) <> Dot ->
  rets debug (fun _ => parse_identifier_expr) p (node_over ts (EIdentifier i)) q.
Proof.
  intros Hn Hr Hq. unfold parse_identifier_expr. eapply rets_bind; [apply rets_read|].
  eapply rets_bind; [by eapply rets_parse_identifier|]. eapply rets_node_from; [done|].
  by destruct Hn.
Qed.

Lemma reads_one p t q : reads p [t] q -> token p = t /\ q = eat p.
Proof. intros Hr. reads_split. done. Qed.

(** A literal token or a keyword is bumped and located. *)
Lemma rets_bump_node {A} p q (x : A) :
  reads p [token p] q ->
  rets debug (fun _ => _ ← bump; node_from (token p) x) p (node_over [token p] x) q.
Proof.
  intros Hr. eapply rets_bind; [apply rets_bump|].
  pose proof (reads_one _ _ _ Hr) as [_ ->]. by eapply rets_node_from.
Qed.

Lemma rets_constant p q s c :
  kind (token p) = Ident s -> (s, c) ∈ constants -> reads p [token p] q ->
  rets debug (fun rec => parse_operand_expr debug rec) p
    (node_over [token p] (ENameConstantLit (mkNameConstantLit c))) q.
Proof.
  intros Hs Hc Hr. unfold parse_operand_expr. eapply rets_bind; [apply rets_read|]. cbv beta.
  rewrite Hs. rewrite !(is_keyword_ident _ _ _ Hs).
  unfold constants in Hc. rewrite !elem_of_cons, elem_of_nil in Hc.
  destruct Hc as [[= -> ->]|[[= -> ->]|[[= -> ->]|[[= -> ->]|[]]]]]; vm_compute (bool_decide _);
    cbv beta iota; simpl orb; cbv iota;
    unfold parse_constant_expr; (eapply rets_bind; [apply rets_read|]); cbv beta iota;
    rewrite ?(is_keyword_ident _ _ _ Hs); vm_compute (bool_decide _); cbv iota;
    (eapply rets_bind; [apply rets_ret|]); by apply rets_bump_node.
Qed.

Lemma rets_integer p q lk v :
  kind (token p) = Literal lk -> lit_kind lk = Integer ->
  bytes_to_int debug (lit_symbol lk) 0 = Ok (Some v) -> reads p [token p] q ->
  rets debug (fun rec => parse_operand_expr debug rec) p
    (node_over [token p] (ENumberLit (mkNumberLit (s ← suffix lk; suffix_try_from (encode s)) (NlInt v)))) q.
Proof.
  intros Hs Hk Hv Hr. unfold parse_operand_expr. eapply rets_bind; [apply rets_read|]. cbv beta.
  rewrite Hs. cbv iota. rewrite Hk. unfold parse_num_expr.
  eapply rets_bind; [apply rets_read|]. cbv beta. rewrite Hk. cbv iota.
  eapply rets_bind.
  { eapply rets_bind; [by apply rets_lift|]. cbv beta iota.
    eapply rets_bind; [apply rets_ret|]. apply rets_ret. }
  cbv beta iota.
  replace (match suffix lk with Some suffix => suffix_try_from (encode suffix) | None => None end)
    with (s ← suffix lk; suffix_try_from (encode s)) by by destruct (suffix lk).
  by apply rets_bump_node.
Qed.

Lemma rets_float p q lk v :
  kind (token p) = Literal lk -> lit_kind lk = Float -> f64_parse (lit_symbol lk) = Some v ->
  reads p [token p] q ->
  rets debug (fun rec => parse_operand_expr debug rec) p
    (node_over [token p] (ENumberLit (mkNumberLit None (NlFloat v)))) q.
Proof.
  intros Hs Hk Hv Hr. unfold parse_operand_expr. eapply rets_bind; [apply rets_read|]. cbv beta.
  rewrite Hs. cbv iota. rewrite Hk. unfold parse_num_expr.
  eapply rets_bind; [apply rets_read|]. cbv beta. rewrite Hk. cbv iota. rewrite Hv.
  eapply rets_bind; [eapply rets_bind; apply rets_ret|]. cbv beta iota. by apply rets_bump_node.
Qed.

Lemma rets_string p q lk long is_raw :
  kind (token p) = Literal lk -> lit_kind lk = Str long is_raw ->
  find_interpolation (lit_symbol lk) = None -> reads p [token p] q ->
  rets debug (fun rec => parse_operand_expr debug rec) p
    (node_over [token p] (EStringLit (mkStringLit long (default [] (raw lk)) (lit_symbol lk)))) q.
Proof.
  intros Hs Hk Hv Hr. unfold parse_operand_expr. eapply rets_bind; [apply rets_read|]. cbv beta.
  rewrite Hs. cbv iota. rewrite Hk. unfold parse_str_expr.
  eapply rets_bind; [apply rets_read|]. cbv beta. rewrite Hk. cbv iota.
  eapply rets_bind; [apply rets_ret|]. cbv beta iota.
  eapply rets_bind; [apply rets_bump|].
  pose proof (reads_prev _ _ _ Hr ltac:(done)) as [= Hprev].
  pose proof (reads_one _ _ _ Hr) as [_ ->].
  eapply rets_bind; [apply rets_read|]. cbv beta.
  eapply rets_bind.
  { unfold parse_joined_string. cbn [raw_value sl_value].
    replace (match match raw lk with Some raw => raw | None => [] end with
             | [] => false | c :: _ => (c =? ch "r") || (c =? ch "R") end) with
      (match default [] (raw lk) with [] => false | c :: _ => (c =? ch "r") || (c =? ch "R") end)
      by by destruct (raw lk).
    destruct (match default [] (raw lk) with [] => false | _ => _ end); [apply rets_ret|].
    rewrite Hv. rewrite bool_decide_false by by intros []. apply rets_ret. }
  cbv beta iota. unfold node_over. simpl. rewrite Hprev. destruct (raw lk); apply rets_ret.
Qed.

(** ** Items and separators *)

(** The first token of an item of a list or a configuration. *)
Definition item_starts (t : Token) : bool :=
  starts t || bool_decide (kind t = AstToken.BinOp Star) || bool_decide (kind t = AstToken.BinOp StarStar).

Lemma item_starts_kind t : item_starts t = true ->
  match kind t with
  | Comma | Newline | Dedent | Eof | CloseDelim _ | Colon | Dot | Indent => False
  | _ => True
  end.
Proof. unfold item_starts, starts. destruct (kind t); try done. Qed.

Lemma item_starts_keyword t kw : item_starts t = true ->
  kw ∈ [kw_for; kw_if; kw_else; kw_elif] -> is_keyword t kw = false.
Proof.
  unfold item_starts. rewrite !orb_true_iff. intros [[Hs|Hs%bool_decide_eq_true]|Hs%bool_decide_eq_true] Hk;
    [by apply starts_keyword|apply is_keyword_other; intros s; rewrite Hs; discriminate..].
Qed.

Lemma item_starts_terminator d block t : item_starts t = true -> is_terminator d block t = false.
Proof.
  intros Ht. pose proof (item_starts_kind _ Ht) as Hk.
  pose proof (item_starts_keyword _ kw_for Ht ltac:(by left)) as Hf.
  unfold is_terminator. by destruct (kind t).
Qed.

(** The token that closes a literal after its items. *)
Definition closes (d : DelimToken) (block : bool) (t : Token) : Prop :=
  kind t = if block then Dedent else CloseDelim d.

Lemma closes_terminator d block t : closes d block t -> is_terminator d block t = true.
Proof. unfold closes, is_terminator. destruct block; intros ->; [done|]. by rewrite bool_decide_true. Qed.
Lemma closes_punctuation d block t : closes d block t -> punctuation t = true.
Proof. unfold closes, punctuation. by destruct block; intros ->. Qed.
Lemma closes_kind d block t : closes d block t -> kind t <> Comma /\ kind t <> Newline.
Proof. unfold closes. by destruct block; intros ->. Qed.

Lemma separator_head block tss p q :
  separator block tss -> reads p tss q -> punctuation (token p) = true.
Proof.
  intros Hs Hr. unfold punctuation.
  destruct Hs as [block t Ht|t u ts Ht _|u ts Hn]; apply reads_inv in Hr as (-> & _ & _);
    try by rewrite Ht. apply Forall_cons in Hn as [Hu _]. by rewrite Hu.
Qed.

Lemma rets_separator {A} block tss p q (k : calls -> P A) a q' :
  opt_separator block tss -> reads p tss q -> kind (token q) <> Comma -> kind (token q) <> Newline ->
  rets debug k q a q' ->
  rets debug (fun rec => _ ← bump_if Comma; _ ← whenp block skip_newlines; k rec) p a q'.
Proof.
  intros Hs Hr Hc Hn Hk.
  assert (forall p ts, newlines ts -> reads p ts q ->
    rets debug (fun rec => _ ← whenp true skip_newlines; k rec) p a q') as Hlines.
  { intros p1 ts Hl Hr1. eapply rets_bind; [by eapply rets_skip_newlines|done]. }
  destruct Hs as [->|Hs].
  { reads_split. eapply rets_bind; [by apply rets_bump_if_no|]. destruct block.
    - apply (Hlines p []); [constructor|constructor].
    - eapply rets_bind; [apply rets_ret|done]. }
  destruct Hs as [block t Ht|t u ts Ht Hl|u ts Hl].
  - reads_split. subst t. eapply rets_bind; [by apply rets_bump_if_yes|]. destruct block.
    + apply (Hlines _ []); [constructor|constructor].
    + eapply rets_bind; [apply rets_ret|done].
  - apply reads_inv in Hr as (Hp & _ & Hr). subst t.
    eapply rets_bind; [by apply rets_bump_if_yes|]. by eapply Hlines.
  - eapply rets_bind; [|by eapply Hlines]. apply rets_bump_if_no.
    apply reads_inv in Hr as (-> & _ & _). apply Forall_cons in Hl as [-> _]. done.
Qed.

(** The mark of a round that read something is dropped. *)
Lemma rets_drop_mark p ts q : reads p ts q -> ts <> [] ->
  rets debug (fun _ => drop_mark (index (cursor p))) q false q.
Proof.
  intros Hr Hts. apply reads_index in Hr. unfold drop_mark.
  eapply rets_bind; [apply rets_read|]. cbv beta. rewrite bool_decide_false; [apply rets_ret|].
  destruct ts; [done|]. simpl in Hr. lia.
Qed.

(** What a method does on the tokens of a derivation. *)
Definition parses {A} (m : calls -> P A) (ok : parser -> Prop) (ts : list Token) (a : A) : Prop :=
  forall p q, reads p ts q -> ok q -> rets debug m p a q.

Definition starts_item (ts : list Token) : Prop := exists t ts', ts = t :: ts' /\ item_starts t = true.

Lemma starts_item_reads ts p q : starts_item ts -> reads p ts q -> item_starts (token p) = true.
Proof. intros (t & ts' & -> & Ht) Hr. by apply reads_inv in Hr as (-> & _). Qed.
Lemma starts_item_ne ts : starts_item ts -> ts <> [].
Proof. by intros (t & ts' & -> & _). Qed.

(** *** The loop over the items of a list *)

Definition list_item_ok (ts : list Token) (e : Node Expr) : Prop :=
  parses (fun rec => parse_list_item rec) follows_expr ts e /\ starts_item ts /\ node e <> EMissing.

(** From any round, and from the start. *)
Definition list_items_ok (block : bool) (ts : list Token) (l : list (Node Expr)) : Prop :=
  starts_item ts /\
  forall p q, reads p ts q -> closes Bracket block (token q) ->
  rets debug (fun rec => parse_list_items rec block) p l q /\
  forall acc, loops debug (fun rec => list_items_round rec block) p acc (acc ++ l) q.

Lemma list_items_loop_end block p acc : closes Bracket block (token p) ->
  loops debug (fun rec => list_items_round rec block) p acc acc p.
Proof.
  intros Hc. apply loops_done. unfold list_items_round.
  eapply rets_bind; [apply rets_read|]. eapply rets_bind; [apply rets_read|]. cbv beta.
  rewrite (closes_terminator _ _ _ Hc). apply rets_ret.
Qed.

(** An item and its separator, then the rounds after it. *)
Lemma list_items_step block ts e tss p p1 l q :
  list_item_ok ts e -> opt_separator block tss -> reads p (ts ++ tss) p1 ->
  (tss = [] -> closes Bracket block (token p1)) ->
  kind (token p1) <> Comma -> kind (token p1) <> Newline ->
  (forall acc, loops debug (fun rec => list_items_round rec block) p1 acc (acc ++ l) q) ->
  rets debug (fun rec => parse_list_items rec block) p (e :: l) q /\
  forall acc, loops debug (fun rec => list_items_round rec block) p acc (acc ++ e :: l) q.
Proof.
  intros (Hi & Hst & Hm) Hs Hr Hend Hc Hn Hl. pose proof Hr as Hr0.
  apply reads_app_inv in Hr as (p' & Hr1 & Hr2).
  assert (follows_expr p') as Hf.
  { apply follows_punctuation. destruct Hs as [->|Hs]; [|by eapply separator_head].
    reads_split. by eapply closes_punctuation, Hend. }
  pose proof (item_starts_terminator Bracket block _ (starts_item_reads _ _ _ Hst Hr1)) as Ht.
  split.
  - unfold parse_list_items. eapply rets_bind; [apply rets_read|]. cbv beta. rewrite Ht.
    eapply rets_bind; [by apply Hi|]. eapply rets_separator; [done..|].
    apply rets_loop, (Hl [e]).
  - intros acc. rewrite cons_middle, app_assoc. eapply loops_next; [|apply Hl].
    unfold list_items_round. eapply rets_bind; [apply rets_read|].
    eapply rets_bind; [apply rets_read|]. cbv beta. rewrite Ht.
    eapply rets_bind; [by apply Hi|]. eapply rets_bind.
    { instantiate (1 := p'). instantiate (1 := acc ++ [e]). destruct (node e); try done; apply rets_ret. }
    eapply rets_separator; [done..|]. eapply rets_bind; [|apply rets_ret].
    eapply rets_drop_mark; [done|]. intros [-> _]%app_eq_nil. by apply starts_item_ne in Hst.
Qed.

(** *** The loop over the entries of a configuration *)

Definition config_entry_ok (ts : list Token) (e : Node (ConfigEntry Expr)) : Prop :=
  parses (fun rec => parse_config_entry rec) follows_expr ts e /\ starts_item ts.

Definition config_entries_ok (block : bool) (ts : list Token) (l : list (Node (ConfigEntry Expr))) : Prop :=
  starts_item ts /\
  forall p q, reads p ts q -> closes Brace block (token q) ->
  rets debug (fun rec => parse_config_entries rec block) p l q /\
  forall acc, loops debug (fun rec => config_entries_round rec block) p acc (acc ++ l) q.

Lemma config_entries_loop_end block p acc : closes Brace block (token p) ->
  loops debug (fun rec => config_entries_round rec block) p acc acc p.
Proof.
  intros Hc. apply loops_done. unfold config_entries_round.
  eapply rets_bind; [apply rets_read|]. eapply rets_bind; [apply rets_read|]. cbv beta.
  rewrite (closes_terminator _ _ _ Hc). apply rets_ret.
Qed.

Lemma config_entries_step block ts e tss p p1 l q :
  config_entry_ok ts e -> opt_separator block tss -> reads p (ts ++ tss) p1 ->
  (tss = [] -> closes Brace block (token p1)) ->
  kind (token p1) <> Comma -> kind (token p1) <> Newline ->
  (forall acc, loops debug (fun rec => config_entries_round rec block) p1 acc (acc ++ l) q) ->
  rets debug (fun rec => parse_config_entries rec block) p (e :: l) q /\
  forall acc, loops debug (fun rec => config_entries_round rec block) p acc (acc ++ e :: l) q.
Proof.
  intros (Hi & Hst) Hs Hr Hend Hc Hn Hl. pose proof Hr as Hr0.
  apply reads_app_inv in Hr as (p' & Hr1 & Hr2).
  assert (follows_expr p') as Hf.
  { apply follows_punctuation. destruct Hs as [->|Hs]; [|by eapply separator_head].
    reads_split. by eapply closes_punctuation, Hend. }
  pose proof (item_starts_terminator Brace block _ (starts_item_reads _ _ _ Hst Hr1)) as Ht.
  split.
  - unfold parse_config_entries. eapply rets_bind; [apply rets_read|]. cbv beta. rewrite Ht.
    eapply rets_bind; [by apply Hi|]. eapply rets_separator; [done..|].
    apply rets_loop, (Hl [e]).
  - intros acc. rewrite cons_middle, app_assoc. eapply loops_next; [|apply Hl].
    unfold config_entries_round. eapply rets_bind; [apply rets_read|].
    eapply rets_bind; [apply rets_read|]. cbv beta. rewrite Ht.
    eapply rets_bind; [by apply Hi|].
    eapply rets_separator; [done..|]. eapply rets_bind; [|apply rets_ret].
    eapply rets_drop_mark; [done|]. intros [-> _]%app_eq_nil. by apply starts_item_ne in Hst.
Qed.

(** The last item, and an item with others after it. *)
Lemma closes_facts d block q :
  closes d block (token q) -> kind (token q) <> Comma /\ kind (token q) <> Newline.
Proof. apply closes_kind. Qed.

Lemma list_items_last block ts e tss :
  list_item_ok ts e -> opt_separator block tss -> list_items_ok block (ts ++ tss) [e].
Proof.
  intros Hi Hs. split.
  { destruct Hi as (_ & (t & ts' & -> & Ht) & _). by exists t, (ts' ++ tss). }
  intros p q Hr Hc. destruct (closes_facts _ _ _ Hc).
  eapply list_items_step; try done. intros acc. rewrite app_nil_r. by apply list_items_loop_end.
Qed.

Lemma list_items_cons block ts e tss ts' l :
  list_item_ok ts e -> separator block tss -> list_items_ok block ts' l ->
  list_items_ok block (ts ++ tss ++ ts') (e :: l).
Proof.
  intros Hi Hs [Hst Hl]. split.
  { destruct Hi as (_ & (t & us & -> & Ht) & _). by eexists t, _. }
  intros p q Hr Hc. rewrite app_assoc in Hr. apply reads_app_inv in Hr as (p1 & Hr1 & Hr2).
  pose proof (item_starts_kind _ (starts_item_reads _ _ _ Hst Hr2)) as Hk.
  eapply list_items_step; try done; [by right|..].
  - intros ->. inversion Hs.
  - intros E. by rewrite E in Hk.
  - intros E. by rewrite E in Hk.
  - by apply Hl.
Qed.

Lemma config_entries_last block ts e tss :
  config_entry_ok ts e -> opt_separator block tss -> config_entries_ok block (ts ++ tss) [e].
Proof.
  intros Hi Hs. split.
  { destruct Hi as (_ & (t & ts' & -> & Ht)). by exists t, (ts' ++ tss). }
  intros p q Hr Hc. destruct (closes_facts _ _ _ Hc).
  eapply config_entries_step; try done. intros acc. rewrite app_nil_r. by apply config_entries_loop_end.
Qed.

Lemma config_entries_cons block ts e tss ts' l :
  config_entry_ok ts e -> separator block tss -> config_entries_ok block ts' l ->
  config_entries_ok block (ts ++ tss ++ ts') (e :: l).
Proof.
  intros Hi Hs [Hst Hl]. split.
  { destruct Hi as (_ & (t & us & -> & Ht)). by eexists t, _. }
  intros p q Hr Hc. rewrite app_assoc in Hr. apply reads_app_inv in Hr as (p1 & Hr1 & Hr2).
  pose proof (item_starts_kind _ (starts_item_reads _ _ _ Hst Hr2)) as Hk.
  eapply config_entries_step; try done; [by right|..].
  - intros ->. inversion Hs.
  - intros E. by rewrite E in Hk.
  - intros E. by rewrite E in Hk.
  - by apply Hl.
Qed.

(** ** Bracketed literals *)

Lemma rets_no_clauses p : is_keyword (token p) kw_for = false ->
  rets debug (fun rec => parse_comp_clauses rec) p [] p.
Proof.
  intros Hf. apply (rets_loop debug (fun rec _ => _)), loops_done.
  eapply rets_bind; [apply (rets_read debug (fun p => is_keyword (token p) kw_for))|].
  cbv beta. rewrite Hf. apply rets_ret.
Qed.

Lemma not_keyword t k kw : kind t = k -> (forall s, k <> Ident s) -> is_keyword t kw = false.
Proof. intros <-. apply is_keyword_other. Qed.

Lemma rets_opening_inline d p : kind (token p) <> Newline ->
  rets debug (fun _ => parse_opening d) p Inline p.
Proof.
  intros Hn. unfold parse_opening. eapply rets_bind; [by apply rets_kind_is, bool_decide_false|].
  apply rets_ret.
Qed.

Lemma rets_opening_block d nss p p1 :
  newlines nss -> nss <> [] -> reads p nss p1 -> kind (token p1) = Indent ->
  rets debug (fun _ => parse_opening d) p Indented (eat p1).
Proof.
  intros Hn Hne Hr Hi.
  assert (kind (token p) = Newline) as Hp.
  { destruct nss as [|n ns]; [done|]. apply reads_inv in Hr as (-> & _). by apply Forall_cons in Hn as [-> _]. }
  unfold parse_opening. eapply rets_bind; [by apply rets_kind_is, bool_decide_true|]. simpl negb. cbv iota.
  eapply rets_bind; [eapply rets_skip_newlines; [done..|by rewrite Hi]|].
  eapply rets_bind; [apply rets_read|]. cbv beta. rewrite Hi.
  eapply rets_bind; [apply rets_bump|]. apply rets_ret.
Qed.

(** The delimiter that closes the literal, after its dedent when it is indented. *)
Lemma rets_closing_block {A} d p q (k : calls -> P A) a q' :
  kind (token p) = Dedent -> kind (token (eat p)) = CloseDelim d -> q = eat (eat p) ->
  rets debug k q a q' ->
  rets debug (fun rec => _ ← parse_closing_dedent true; _ ← bump_or_error (CloseDelim d); k rec) p a q'.
Proof.
  intros Hd Hc -> Hk. eapply rets_bind.
  { unfold parse_closing_dedent, whenp. eapply rets_bind; [|by apply rets_bump_or_error].
    eapply (rets_skip_newlines debug p []); [constructor|constructor|by rewrite Hd]. }
  eapply rets_bind; [by apply rets_bump_or_error|done].
Qed.

Lemma rets_closing_inline {A} d p q (k : calls -> P A) a q' :
  kind (token p) = CloseDelim d -> q = eat p -> rets debug k q a q' ->
  rets debug (fun rec => _ ← parse_closing_dedent false; _ ← bump_or_error (CloseDelim d); k rec) p a q'.
Proof.
  intros Hc -> Hk. eapply rets_bind; [apply rets_ret|].
  eapply rets_bind; [by apply rets_bump_or_error|done].
Qed.

Definition any (q : parser) : Prop := True.

Lemma config_empty_ok t u :
  kind t = OpenDelim Brace -> kind u = CloseDelim Brace ->
  parses (fun rec => parse_config_expr rec) any [t; u] (node_over [t; u] (EConfig (mkConfigExpr []))).
Proof.
  intros Ht Hu p q Hr _. pose proof Hr as Hall. revert Hall. reads_split. intros Hall. subst t u.
  unfold parse_config_expr. eapply rets_bind; [apply rets_read|].
  eapply rets_bind; [apply rets_bump|].
  eapply rets_bind; [by apply rets_kind_is, bool_decide_true|].
  eapply rets_bind; [apply rets_bump|]. by eapply rets_node_from.
Qed.

Lemma config_line_ok t ts l u :
  kind t = OpenDelim Brace -> config_entries_ok false ts l -> kind u = CloseDelim Brace ->
  parses (fun rec => parse_config_expr rec) any (t :: ts ++ [u])
    (node_over (t :: ts ++ [u]) (EConfig (mkConfigExpr l))).
Proof.
  intros Ht [Hst Hl] Hu p q Hr _. pose proof Hr as Hall. revert Hall. reads_split. intros Hall.
  pose proof (item_starts_kind _ (starts_item_reads _ _ _ Hst Hr0)) as Hk. subst t u.
  unfold parse_config_expr. eapply rets_bind; [apply rets_read|].
  eapply rets_bind; [apply rets_bump|].
  eapply rets_bind; [apply rets_kind_is, bool_decide_false; intros E; by rewrite E in Hk|].
  cbv iota. eapply rets_bind; [apply rets_opening_inline; intros E; by rewrite E in Hk|].
  cbv beta iota zeta. eapply rets_bind; [apply rets_read|].
  eapply rets_bind; [by apply Hl|].
  eapply rets_bind; [apply rets_no_clauses, (not_keyword _ _ _ Hu); done|].
  eapply rets_closing_inline; [done..|]. by eapply rets_node_from.
Qed.

Lemma config_block_ok t nss i ts l d u :
  kind t = OpenDelim Brace -> newlines nss -> nss <> [] -> kind i = Indent ->
  config_entries_ok true ts l -> kind d = Dedent -> kind u = CloseDelim Brace ->
  parses (fun rec => parse_config_expr rec) any (t :: nss ++ i :: ts ++ [d; u])
    (node_over (t :: nss ++ i :: ts ++ [d; u]) (EConfig (mkConfigExpr l))).
Proof.
  intros Ht Hn Hne Hi [Hst Hl] Hd Hu p q Hr _. pose proof Hr as Hall. revert Hall. reads_split. intros Hall.
  subst t i d u.
  assert (kind (token (eat p)) = Newline) as Hp.
  { destruct nss as [|n ns]; [done|]. apply reads_inv in Hr0 as (-> & _). by apply Forall_cons in Hn as [-> _]. }
  unfold parse_config_expr. eapply rets_bind; [apply rets_read|].
  eapply rets_bind; [apply rets_bump|].
  eapply rets_bind; [apply rets_kind_is, bool_decide_false; by rewrite Hp|].
  cbv iota. eapply rets_bind; [by eapply rets_opening_block|].
  cbv beta iota zeta. eapply rets_bind; [apply rets_read|].
  eapply rets_bind; [by apply Hl|].
  eapply rets_bind; [apply rets_no_clauses, (not_keyword _ _ _ Hd); done|].
  eapply rets_closing_block; [done..|]. by eapply rets_node_from.
Qed.

Lemma list_empty_ok t u :
  kind t = OpenDelim Bracket -> kind u = CloseDelim Bracket ->
  parses (fun rec => parse_list_expr rec true) any [t; u] (node_over [t; u] (EList (mkListExpr [] Load))).
Proof.
  intros Ht Hu p q Hr _. pose proof Hr as Hall. revert Hall. reads_split. intros Hall. subst t u.
  unfold parse_list_expr. eapply rets_bind.
  { eapply rets_bind; [apply rets_read|]. eapply rets_bind; [apply rets_bump|]. apply rets_ret. }
  eapply rets_bind; [by apply rets_kind_is, bool_decide_true|].
  eapply rets_bind; [apply rets_bump|]. by eapply rets_node_from.
Qed.

Lemma list_line_ok t ts l u :
  kind t = OpenDelim Bracket -> list_items_ok false ts l -> kind u = CloseDelim Bracket ->
  parses (fun rec => parse_list_expr rec true) any (t :: ts ++ [u])
    (node_over (t :: ts ++ [u]) (EList (mkListExpr l Load))).
Proof.
  intros Ht [Hst Hl] Hu p q Hr _. pose proof Hr as Hall. revert Hall. reads_split. intros Hall.
  pose proof (item_starts_kind _ (starts_item_reads _ _ _ Hst Hr0)) as Hk. subst t u.
  unfold parse_list_expr. eapply rets_bind.
  { eapply rets_bind; [apply rets_read|]. eapply rets_bind; [apply rets_bump|]. apply rets_ret. }
  eapply rets_bind; [apply rets_kind_is, bool_decide_false; intros E; by rewrite E in Hk|].
  cbv iota. eapply rets_bind; [apply rets_opening_inline; intros E; by rewrite E in Hk|].
  cbv beta iota zeta. eapply rets_bind; [apply rets_read|].
  eapply rets_bind; [by apply Hl|].
  eapply rets_bind; [apply rets_no_clauses, (not_keyword _ _ _ Hu); done|].
  eapply rets_closing_inline; [done..|]. by eapply rets_node_from.
Qed.

Lemma list_block_ok t nss i ts l d u :
  kind t = OpenDelim Bracket -> newlines nss -> nss <> [] -> kind i = Indent ->
  list_items_ok true ts l -> kind d = Dedent -> kind u = CloseDelim Bracket ->
  parses (fun rec => parse_list_expr rec true) any (t :: nss ++ i :: ts ++ [d; u])
    (node_over (t :: nss ++ i :: ts ++ [d; u]) (EList (mkListExpr l Load))).
Proof.
  intros Ht Hn Hne Hi [Hst Hl] Hd Hu p q Hr _. pose proof Hr as Hall. revert Hall. reads_split.
  intros Hall. subst t i d u.
  assert (kind (token (eat p)) = Newline) as Hp.
  { destruct nss as [|n ns]; [done|]. apply reads_inv in Hr0 as (-> & _). by apply Forall_cons in Hn as [-> _]. }
  unfold parse_list_expr. eapply rets_bind.
  { eapply rets_bind; [apply rets_read|]. eapply rets_bind; [apply rets_bump|]. apply rets_ret. }
  eapply rets_bind; [apply rets_kind_is, bool_decide_false; by rewrite Hp|].
  cbv iota. eapply rets_bind; [by eapply rets_opening_block|].
  cbv beta iota zeta. eapply rets_bind; [apply rets_read|].
  eapply rets_bind; [by apply Hl|].
  eapply rets_bind; [apply rets_no_clauses, (not_keyword _ _ _ Hd); done|].
  eapply rets_closing_block; [done..|]. by eapply rets_node_from.
Qed.

(** An expression, as the other judgments use it. *)
Definition expr_ok (ts : list Token) (e : Node Expr) : Prop :=
  parses (fun rec => rec _ parse_expr_call) follows_expr ts e /\ begins ts /\ node e <> EMissing.

Lemma begins_item ts : begins ts -> starts_item ts.
Proof. intros (t & ts' & -> & Ht). exists t, ts'. unfold item_starts. by rewrite Ht. Qed.

Lemma paren_ok t ts e u :
  kind t = OpenDelim Paren -> expr_ok ts e -> kind u = CloseDelim Paren ->
  parses (fun rec => parse_paren_expr rec) any (t :: ts ++ [u])
    (node_over (t :: ts ++ [u]) (EParen (mkParenExpr e))).
Proof.
  intros Ht (He & _) Hu p q Hr _. pose proof Hr as Hall. revert Hall. reads_split. intros Hall.
  subst t u. unfold parse_paren_expr. eapply rets_bind; [apply rets_read|].
  eapply rets_bind; [apply rets_bump|]. eapply rets_bind.
  { apply He; [done|]. apply follows_punctuation. unfold punctuation. by rewrite Hu. }
  eapply rets_bind; [by apply rets_bump_or_error|]. by eapply rets_node_from.
Qed.

(** ** List items and configuration entries *)

Lemma begins_reads ts p q : begins ts -> reads p ts q -> starts (token p) = true.
Proof. intros (t & ts' & -> & Ht) Hr. by apply reads_inv in Hr as (-> & _). Qed.

Lemma item_expr_ok ts e : expr_ok ts e -> list_item_ok ts e.
Proof.
  intros (He & Hb & Hm). split; [|split; [by apply begins_item|done]].
  intros p q Hr Hf. pose proof (begins_reads _ _ _ Hb Hr) as Hs.
  unfold parse_list_item. eapply rets_bind; [apply rets_read|]. cbv beta.
  rewrite bool_decide_false by (intros E; unfold starts in Hs; by rewrite E in Hs).
  rewrite starts_keyword by (done || set_solver). by apply He.
Qed.

Lemma item_starred_ok t ts e :
  kind t = AstToken.BinOp Star -> expr_ok ts e ->
  list_item_ok (t :: ts) (node_over (t :: ts) (EStarred (mkStarredExpr e Load))).
Proof.
  intros Ht (He & Hb & Hm). split; [|split; [|done]].
  - intros p q Hr Hf. pose proof Hr as Hall. apply reads_inv in Hr as (Hp & _ & Hr). subst t.
    unfold parse_list_item. eapply rets_bind; [apply rets_read|]. cbv beta.
    rewrite bool_decide_true by done. eapply rets_bind; [apply rets_bump|].
    eapply rets_bind; [by apply He|]. by eapply rets_node_span.
  - exists t, ts. unfold item_starts. rewrite (bool_decide_true (kind t = AstToken.BinOp Star)) by done.
    by rewrite orb_true_r.
Qed.

Lemma entry_key_ok ts1 k t op ts2 v :
  expr_ok ts1 k -> entry_operator t op -> expr_ok ts2 v ->
  config_entry_ok (ts1 ++ t :: ts2) (node_over (ts1 ++ t :: ts2) (mkConfigEntry (Some k) v op (-1))).
Proof.
  intros (Hk & Hb & _) Ho (Hv & _). split.
  - intros p q Hr Hf. pose proof Hr as Hall. revert Hall. reads_split. intros Hall. subst t.
    pose proof (begins_reads _ _ _ Hb Hr0) as Hs.
    unfold parse_config_entry. eapply rets_bind; [apply rets_read|]. cbv beta.
    rewrite bool_decide_false by (intros E; unfold starts in Hs; by rewrite E in Hs).
    rewrite starts_keyword by (done || set_solver).
    apply rets_bind with (a := (Some k, v, op)) (p' := q); [|eapply rets_node_from; [done|by destruct ts1]].
    eapply rets_bind.
    { apply Hk; [done|]. apply follows_punctuation. unfold punctuation. by destruct Ho as [? ->|? ->|? ->]. }
    eapply rets_bind; [apply rets_read|]. cbv beta.
    eapply rets_bind; [destruct Ho as [? ->|? ->|? ->]; apply rets_ret|].
    eapply rets_bind; [apply rets_bump|]. eapply rets_bind; [by apply Hv|]. apply rets_ret.
  - by apply begins_item, begins_app.
Qed.

Lemma entry_unpack_ok t ts v :
  kind t = AstToken.BinOp StarStar -> expr_ok ts v ->
  config_entry_ok (t :: ts) (node_over (t :: ts) (mkConfigEntry None v OpUnion (-1))).
Proof.
  intros Ht (Hv & _). split.
  - intros p q Hr Hf. pose proof Hr as Hall. apply reads_inv in Hr as (Hp & _ & Hr). subst t.
    unfold parse_config_entry. eapply rets_bind; [apply rets_read|]. cbv beta.
    rewrite bool_decide_true by done.
    apply rets_bind with (a := (None, v, OpUnion)) (p' := q); [|by eapply rets_node_from].
    eapply rets_bind; [apply rets_bump|]. eapply rets_bind; [by apply Hv|]. apply rets_ret.
  - exists t, ts. unfold item_starts. rewrite (bool_decide_true (kind t = AstToken.BinOp StarStar)) by done.
    by rewrite orb_true_r.
Qed.

(** ** Arguments *)

Definition keyword_ok (ts : list Token) (k : Node (Keyword Expr)) : Prop :=
  parses (fun rec => parse_argument_expr rec) (fun q => follows_expr q /\ kind (token q) <> Assign) ts (inr k)
  /\ begins ts.

Lemma positional_ok ts e : expr_ok ts e ->
  parses (fun rec => parse_argument_expr rec) (fun q => follows_expr q /\ kind (token q) <> Assign) ts (inl e).
Proof.
  intros (He & _) p q Hr [Hf Ha]. unfold parse_argument_expr.
  eapply rets_bind; [apply rets_read|]. eapply rets_bind; [by apply He|].
  eapply rets_bind; [apply rets_read|]. eapply rets_bind; [by apply rets_kind_is, bool_decide_false|].
  apply rets_ret.
Qed.

Lemma keyword_intro_ok ts1 n i t ts2 v :
  expr_ok ts1 n -> node n = EIdentifier i -> kind t = Assign -> expr_ok ts2 v ->
  keyword_ok (ts1 ++ t :: ts2) (node_over (ts1 ++ t :: ts2) (mkKeyword (node_over ts1 i) (Some v))).
Proof.
  intros (Hn & Hb & _) Hi Ht (Hv & _). split; [|by apply begins_app].
  intros p q Hr [Hf Ha]. pose proof Hr as Hall. revert Hall. reads_split. intros Hall. subst t.
  assert (ts1 <> []) as Hne by by destruct Hb as (? & ? & -> & _).
  pose proof (reads_prev _ _ _ Hr0 Hne) as Hl. pose proof (reads_head _ _ _ Hr0 Hne) as Hh.
  unfold parse_argument_expr. eapply rets_bind; [apply rets_read|].
  eapply rets_bind.
  { apply Hn; [done|]. apply follows_punctuation. unfold punctuation. by rewrite Ht. }
  eapply rets_bind; [apply rets_read|]. eapply rets_bind; [by apply rets_kind_is, bool_decide_true|].
  eapply rets_bind; [apply rets_bump|]. eapply rets_bind; [rewrite Hi; apply rets_ret|].
  eapply rets_bind; [by apply Hv|].
  replace (node_node i (struct_token_loc (token p) (prev_token p0))) with (node_over ts1 i)
    by (unfold node_over; by rewrite Hl, Hh).
  eapply rets_bind; [eapply rets_node_from; [done|by destruct ts1]|]. apply rets_ret.
Qed.

Definition arguments_ok (kw : bool) (ts : list Token) (a : list (Node Expr)) (k : list (Node (Keyword Expr))) : Prop :=
  begins ts /\
  forall p q, reads p ts q -> kind (token q) = CloseDelim Paren ->
  forall a0 k0, loops debug (fun rec => arguments_round rec) p (a0, k0, kw) (a0 ++ a, k0 ++ k) q.

(** One argument, and the comma and the others after it. *)
Lemma arguments_last kw ts r a k :
  parses (fun rec => parse_argument_expr rec) (fun q => follows_expr q /\ kind (token q) <> Assign) ts r ->
  begins ts -> (match r with inl e => kw = false /\ a = [e] /\ k = [] | inr n => a = [] /\ k = [n] end) ->
  arguments_ok kw ts a k.
Proof.
  intros Hr Hb Hk. split; [done|]. intros p q Hp Hc a0 k0. apply loops_done.
  unfold arguments_round. eapply rets_bind; [apply rets_read|].
  eapply rets_bind.
  { apply Hr; [done|]. split; [apply follows_punctuation; unfold punctuation; by rewrite Hc|by rewrite Hc]. }
  cbv beta. eapply rets_bind.
  { instantiate (1 := q). instantiate (1 := (a0 ++ a, k0 ++ k, match r with inl _ => kw | inr _ => true end)).
    destruct r as [e|n]; destruct_and?; subst; rewrite ?app_nil_r; [|apply rets_ret].
    eapply rets_bind; [apply rets_ret|]. apply rets_ret. }
  cbv beta iota. eapply rets_bind; [apply rets_kind_is, bool_decide_false; by rewrite Hc|]. apply rets_ret.
Qed.

Lemma arguments_more kw ts r t ts' a k a' k' :
  parses (fun rec => parse_argument_expr rec) (fun q => follows_expr q /\ kind (token q) <> Assign) ts r ->
  begins ts -> (match r with inl e => kw = false /\ a = [e] /\ k = [] | inr n => a = [] /\ k = [n] end) ->
  kind t = Comma -> arguments_ok (match r with inl _ => kw | inr _ => true end) ts' a' k' ->
  arguments_ok kw (ts ++ t :: ts') (a ++ a') (k ++ k').
Proof.
  intros Hr Hb Hk Ht [_ Hl]. split; [by apply begins_app|]. intros p q Hp Hc a0 k0. reads_split. subst t.
  rewrite !app_assoc. eapply loops_next; [|by apply Hl].
  unfold arguments_round. eapply rets_bind; [apply rets_read|].
  eapply rets_bind.
  { apply Hr; [done|]. split; [apply follows_punctuation; unfold punctuation; by rewrite Ht|by rewrite Ht]. }
  cbv beta. eapply rets_bind.
  { instantiate (1 := p0). instantiate (1 := (a0 ++ a, k0 ++ k, match r with inl _ => kw | inr _ => true end)).
    destruct r as [e|n]; destruct_and?; subst; rewrite ?app_nil_r; [|apply rets_ret].
    eapply rets_bind; [apply rets_ret|]. apply rets_ret. }
  cbv beta iota. eapply rets_bind; [by apply rets_kind_is, bool_decide_true|].
  eapply rets_bind; [apply rets_bump|]. apply rets_ret.
Qed.

Definition call_arguments_ok (ts : list Token) (a : list (Node Expr)) (k : list (Node (Keyword Expr))) : Prop :=
  (ts = [] /\ a = [] /\ k = []) \/ arguments_ok false ts a k.

Lemma rets_call_arguments t ts a k u f p q :
  kind t = OpenDelim Paren -> call_arguments_ok ts a k -> kind u = CloseDelim Paren ->
  reads p (t :: ts ++ [u]) q -> rets debug (fun rec => parse_call rec f) p (mkCallExpr f a k) q.
Proof.
  intros Ht Ha Hu Hr. reads_split. subst t u.
  unfold parse_call. eapply rets_bind; [by apply rets_bump_or_error|].
  assert (exists b, bool_decide (kind (token (eat p)) = CloseDelim Paren) = b /\
    rets debug (fun rec => if b : bool then mret ([], []) else parse_arguments_expr rec) (eat p) (a, k) p0)
    as (b & Hb & Hret).
  { destruct Ha as [(-> & -> & ->)|[Hb Ha]].
    - reads_split. exists true. rewrite bool_decide_true by done. split; [done|apply rets_ret].
    - exists false. pose proof (item_starts_kind _ (starts_item_reads _ _ _ (begins_item _ Hb) Hr0)) as Hk.
      rewrite bool_decide_false by (intros E; by rewrite E in Hk). split; [done|].
      apply rets_loop. by eapply (Ha _ _ Hr0 Hu [] []). }
  eapply rets_bind; [by apply rets_kind_is|]. eapply rets_bind; [exact Hret|]. cbv beta iota.
  eapply rets_bind; [apply rets_bump_if_no; by rewrite Hu|].
  eapply rets_bind; [by apply rets_bump_or_error|]. apply rets_ret.
Qed.

(** ** Suffixes *)

Lemma reads_ne_prefix {A} (ts1 : list A) ts2 : ts1 <> [] -> ts1 ++ ts2 <> [].
Proof. by destruct ts1. Qed.

Lemma suffix_call_ok p0 all x t ts a k u p q :
  kind t = OpenDelim Paren -> call_arguments_ok ts a k -> kind u = CloseDelim Paren ->
  reads p (t :: ts ++ [u]) q -> reads p0 all q -> all <> [] ->
  rets debug (fun rec => primary_suffix rec (token p0) x) p
    (inl (node_over all (ECall (mkCallExpr x a k)))) q.
Proof.
  intros Ht Ha Hu Hr Hall Hne.
  assert (kind (token p) = OpenDelim Paren) as Hk by (by apply reads_inv in Hr as (-> & _)).
  unfold primary_suffix. eapply rets_bind; [apply rets_read|].
  eapply rets_bind; [apply rets_read|]. cbv beta. rewrite Hk.
  eapply rets_bind; [|apply rets_ret]. unfold parse_call_expr.
  eapply rets_bind; [by apply (rets_call_arguments t ts a k u)|]. by apply rets_node_from.
Qed.

Lemma rets_selector_name p0 all x hq ts i p q :
  name ts i -> reads p ts q -> kind (token q) <> Dot -> reads p0 all q -> all <> [] ->
  rets debug (fun _ =>
    t ← read token;
    match ident t with
    | Some _ =>
        attr ← parse_identifier;
        node_from (token p0) (ESelector (mkSelectorExpr x attr Load hq))
    | None =>
        name ← empty_node [];
        attr ← empty_node (mkIdentifier [name] [] Load);
        mret (node_node (ESelector (mkSelectorExpr x attr Load hq))
                (lookup_char_pos (lo (tok_span (token p0))), lookup_char_pos (lo (tok_span t))))
    end) p (node_over all (ESelector (mkSelectorExpr x (node_over ts i) Load hq))) q.
Proof.
  intros Hn Hr Hq Hall Hne. eapply rets_bind; [apply rets_read|]. cbv beta.
  assert (exists s, kind (token p) = Ident s) as (s & Hs).
  { destruct Hn as [t s]. apply reads_inv in Hr as (-> & _). eauto. }
  unfold ident at 1. rewrite Hs. eapply rets_bind; [by eapply rets_parse_identifier|].
  by apply rets_node_from.
Qed.

Lemma suffix_dot_ok p0 all x t ts i p q :
  kind t = Dot -> name ts i -> reads p (t :: ts) q -> kind (token q) <> Dot ->
  reads p0 all q -> all <> [] ->
  rets debug (fun rec => primary_suffix rec (token p0) x) p
    (inl (node_over all (ESelector (mkSelectorExpr x (node_over ts i) Load false)))) q.
Proof.
  intros Ht Hn Hr Hq Hall Hne. apply reads_inv in Hr as (Hp & _ & Hr). subst t.
  unfold primary_suffix. eapply rets_bind; [apply rets_read|].
  eapply rets_bind; [apply rets_read|]. cbv beta. rewrite Ht.
  eapply rets_bind; [|apply rets_ret]. unfold parse_selector_expr.
  eapply rets_bind; [apply rets_kind_is, bool_decide_false; by rewrite Ht|].
  eapply rets_bind; [apply rets_ret|]. eapply rets_bind; [apply rets_bump|].
  by apply rets_selector_name.
Qed.

Lemma suffix_question_dot_ok p0 all x t u ts i p q :
  kind t = Question -> kind u = Dot -> name ts i -> reads p (t :: u :: ts) q -> kind (token q) <> Dot ->
  reads p0 all q -> all <> [] ->
  rets debug (fun rec => primary_suffix rec (token p0) x) p
    (inl (node_over all (ESelector (mkSelectorExpr x (node_over ts i) Load true)))) q.
Proof.
  intros Ht Hu Hn Hr Hq Hall Hne. pose proof (reads_peek _ _ _ _ Hr) as Hpk.
  apply reads_inv in Hr as (Hp & _ & Hr). apply reads_inv in Hr as (Hp' & _ & Hr). subst t u.
  unfold primary_suffix. eapply rets_bind; [apply rets_read|].
  eapply rets_bind; [apply rets_read|]. cbv beta. rewrite Ht, Hpk, Hu.
  eapply rets_bind; [|apply rets_ret]. unfold parse_selector_expr.
  eapply rets_bind; [by apply rets_kind_is, bool_decide_true|].
  eapply rets_bind; [apply rets_bump|]. eapply rets_bind; [apply rets_bump|].
  by apply rets_selector_name.
Qed.

(** *** Subscripts *)

Definition opt_expr_ok (ts : list Token) (o : option (Node Expr)) : Prop :=
  (ts = [] /\ o = None) \/ exists e, o = Some e /\ expr_ok ts e.

(** A part that may be absent. *)
Lemma subscript_part r sl c ps i x ts o p q R q' :
  opt_expr_ok ts o -> reads p ts q -> follows_expr q ->
  (r <= 4 -> x <= 0 -> sl = true \/ r <> 1 -> (i < length ps)%nat -> ps !! i = Some None ->
  loops debug (fun rec => subscript_round rec) q
    (mkSlice (r + (if o then 1 else 0)) sl c (<[i := o]> ps) i (x + if o then 1 else 0)) R q' ->
  loops debug (fun rec => subscript_round rec) p (mkSlice r sl c ps i x) R q')%Z.
Proof.
  intros Ho Hr Hf Hr4 Hx Hsl Hi Hps Hl. destruct Ho as [[-> ->]|(e & -> & He & Hb & _)].
  - reads_split. rewrite !Z.add_0_r, list_insert_id in Hl by done. done.
  - eapply loops_next; [|exact Hl]. unfold subscript_round. simpl.
    pose proof (item_starts_kind _ (starts_item_reads _ _ _ (begins_item _ Hb) Hr)) as Hk.
    rewrite (proj2 (Z.leb_le r 4)) by done. simpl.
    eapply rets_bind; [apply rets_read|]. cbv beta.
    assert (negb sl && (r =? 1) = false) as -> by (destruct Hsl as [->|Hn]; [done|]; destruct sl; simpl; lia).
    assert ((1 <? x + 1) = false) as -> by lia.
    assert ((i <? length ps)%nat = true) as -> by by apply Nat.ltb_lt.
    destruct (kind (token p)); try done;
      (eapply rets_bind; [apply rets_ret|]); (eapply rets_bind; [by apply He|]);
      (eapply rets_bind; [apply rets_ret|]); (eapply rets_bind; [apply rets_ret|]); apply rets_ret.
Qed.

Lemma subscript_colon r sl c ps i x p R q' :
  (kind (token p) = Colon -> r <= 4 -> c <= 1 ->
  loops debug (fun rec => subscript_round rec) (eat p) (mkSlice (r + 1) true (c + 1) ps (S i) (x - 1)) R q' ->
  loops debug (fun rec => subscript_round rec) p (mkSlice r sl c ps i x) R q')%Z.
Proof.
  intros Hk Hr Hc Hl. eapply loops_next; [|exact Hl]. unfold subscript_round. simpl.
  rewrite (proj2 (Z.leb_le r 4)) by done. simpl.
  eapply rets_bind; [apply rets_read|]. cbv beta. rewrite Hk.
  eapply rets_bind; [apply rets_bump|].
  assert ((2 <? c + 1) = false) as -> by lia. eapply rets_bind; apply rets_ret.
Qed.

Lemma subscript_end s p : kind (token p) = CloseDelim Bracket ->
  loops debug (fun rec => subscript_round rec) p s s p.
Proof.
  intros Hk. apply loops_done. unfold subscript_round. destruct (round s <=? 4); simpl; [|apply rets_ret].
  eapply rets_bind; [apply rets_read|]. cbv beta. rewrite Hk. apply rets_ret.
Qed.

(** From the opening to the parts, and from the parts to the node. *)
Definition subscript_of (s : slice_state) (x : Node Expr) (hq : bool) : Subscript Expr :=
  if is_slice s then mkSubscript x None (part s 0) (part s 1) (part s 2) Load hq
  else mkSubscript x (part s 0) None None None Load hq.

Lemma rets_subscript p0 all x ts2 hq s p p1 p2 :
  open_subscript ts2 hq -> reads p ts2 p1 ->
  loops debug (fun rec => subscript_round rec) p1 (mkSlice 0 false 0 [None; None; None] 0 0) s p2 ->
  kind (token p2) = CloseDelim Bracket -> length (parts s) = 3%nat ->
  (is_slice s = true \/ is_Some (part s 0) /\ part s 1 = None /\ part s 2 = None) ->
  reads p0 all (eat p2) -> all <> [] ->
  rets debug (fun rec => parse_subscript_expr rec x (token p0)) p
    (node_over all (ESubscript (subscript_of s x hq))) (eat p2).
Proof.
  intros Ho Hr Hl Hk Hlen Hs Hall Hne. unfold parse_subscript_expr.
  apply rets_bind with (a := hq) (p' := p).
  { apply rets_kind_is. destruct Ho as [t Ht|t u Ht Hu]; reads_split; subst t.
    - apply bool_decide_false. by rewrite Ht.
    - by apply bool_decide_true. }
  assert (exists p3, rets debug (fun _ => whenp hq bump) p tt p3 /\
    kind (token p3) = OpenDelim Bracket /\ p1 = eat p3) as (p3 & Hb & Hk3 & ->).
  { destruct Ho as [t Ht|t u Ht Hu]; reads_split; subst.
    - exists p. split; [apply rets_ret|done].
    - exists (eat p). split; [apply (rets_bump debug p)|done]. }
  eapply rets_bind; [exact Hb|]. eapply rets_bind; [by apply rets_bump_or_error|].
  eapply rets_bind; [apply rets_loop, Hl|]. rewrite Hlen. simpl negb.
  eapply rets_bind; [apply rets_ret|]. eapply rets_bind; [by apply rets_bump_or_error|].
  unfold subscript_of. destruct Hs as [->|([e He] & H1 & H2)]; [by apply rets_node_from|].
  destruct (is_slice s); [by apply rets_node_from|].
  eapply rets_bind; [apply rets_read|]. cbv beta. rewrite He, H1, H2.
  rewrite (bool_decide_true (is_Some (Some e))) by done. simpl negb.
  rewrite !(bool_decide_false (is_Some None)) by apply is_Some_None.
  simpl orb. eapply rets_bind; [apply rets_ret|]. eapply rets_bind; [apply rets_ret|].
  by apply rets_node_from.
Qed.

(** The suffix is a subscript at its opening. *)
Lemma suffix_subscript ts2 hq x lot p p1 r q :
  open_subscript ts2 hq -> reads p ts2 p1 ->
  rets debug (fun rec => parse_subscript_expr rec x lot) p r q ->
  rets debug (fun rec => primary_suffix rec lot x) p (inl r) q.
Proof.
  intros Ho Hr Hs. unfold primary_suffix. eapply rets_bind; [apply rets_read|].
  eapply rets_bind; [apply rets_read|]. cbv beta.
  destruct Ho as [t Ht|t u Ht Hu]; reads_split; subst; rewrite Ht.
  - eapply rets_bind; [exact Hs|]. apply rets_ret.
  - rewrite Hpeek, Hu. eapply rets_bind; [exact Hs|]. apply rets_ret.
Qed.

Lemma close_follows q : kind (token q) = CloseDelim Bracket \/ kind (token q) = Colon -> follows_expr q.
Proof. intros Hk. apply follows_punctuation. unfold punctuation. by destruct Hk as [->| ->]. Qed.

(** The bounds on the variables of the loop. *)
Ltac part_side :=
  repeat match goal with |- context [match ?o with Some _ => 1 | None => 0 end] => destruct o end;
  first [done | lia | by left | right; lia | simpl; lia].

Lemma suffix_index_ok p0 all x ts2 hq ts3 i u p q :
  open_subscript ts2 hq -> expr_ok ts3 i -> kind u = CloseDelim Bracket ->
  reads p (ts2 ++ ts3 ++ [u]) q -> reads p0 all q -> all <> [] ->
  rets debug (fun rec => primary_suffix rec (token p0) x) p
    (inl (node_over all (ESubscript (mkSubscript x (Some i) None None None Load hq)))) q.
Proof.
  intros Ho Hi Hu Hr Hall Hne. reads_split. subst u.
  eapply suffix_subscript; [done..|].
  eapply (rets_subscript p0 all x ts2 hq (mkSlice 1 false 0 [Some i; None; None] 0 1)); try done.
  - eapply (subscript_part 0 false 0 _ 0%nat 0 ts3 (Some i)); [right; eauto|done|by apply close_follows; left|..];
      try part_side. by apply subscript_end.
  - right. by repeat split; try eexists.
Qed.

Lemma suffix_slice_ok p0 all x ts2 hq ts3 lo t ts4 hi u p q :
  open_subscript ts2 hq -> opt_expr_ok ts3 lo -> kind t = Colon -> opt_expr_ok ts4 hi ->
  kind u = CloseDelim Bracket ->
  reads p (ts2 ++ ts3 ++ t :: ts4 ++ [u]) q -> reads p0 all q -> all <> [] ->
  rets debug (fun rec => primary_suffix rec (token p0) x) p
    (inl (node_over all (ESubscript (mkSubscript x None lo hi None Load hq)))) q.
Proof.
  intros Ho Hlo Ht Hhi Hu Hr Hall Hne. reads_split. subst t u.
  eapply suffix_subscript; [done..|].
  eapply (rets_subscript p0 all x ts2 hq
            (mkSlice (0 + (if lo then 1 else 0) + 1 + (if hi then 1 else 0)) true 1 [lo; hi; None] 1
               (0 + (if lo then 1 else 0) - 1 + (if hi then 1 else 0)))); try done; [|by left].
  eapply (subscript_part 0 false 0 _ 0%nat 0 ts3 lo); [done|done|by apply close_follows; right|..];
    try part_side.
  apply subscript_colon; [done|part_side|part_side|].
  eapply (subscript_part _ true 1 _ 1%nat _ ts4 hi); [done|done|by apply close_follows; left|..];
    try part_side. by apply subscript_end.
Qed.

Lemma suffix_slice_step_ok p0 all x ts2 hq ts3 lo t ts4 hi t' ts5 st u p q :
  open_subscript ts2 hq -> opt_expr_ok ts3 lo -> kind t = Colon -> opt_expr_ok ts4 hi ->
  kind t' = Colon -> opt_expr_ok ts5 st -> kind u = CloseDelim Bracket ->
  reads p (ts2 ++ ts3 ++ t :: ts4 ++ t' :: ts5 ++ [u]) q -> reads p0 all q -> all <> [] ->
  rets debug (fun rec => primary_suffix rec (token p0) x) p
    (inl (node_over all (ESubscript (mkSubscript x None lo hi st Load hq)))) q.
Proof.
  intros Ho Hlo Ht Hhi Ht' Hst Hu Hr Hall Hne. reads_split. subst t t' u.
  eapply suffix_subscript; [done..|].
  eapply (rets_subscript p0 all x ts2 hq
            (mkSlice (0 + (if lo then 1 else 0) + 1 + (if hi then 1 else 0) + 1 + (if st then 1 else 0))
               true 2 [lo; hi; st] 2
               (0 + (if lo then 1 else 0) - 1 + (if hi then 1 else 0) - 1 + (if st then 1 else 0))));
    try done; [|by left].
  eapply (subscript_part 0 false 0 _ 0%nat 0 ts3 lo); [done|done|by apply close_follows; right|..];
    try part_side.
  apply subscript_colon; [done|part_side|part_side|].
  eapply (subscript_part _ true 1 _ 1%nat _ ts4 hi); [done|done|by apply close_follows; right|..];
    try part_side.
  apply subscript_colon; [done|part_side|part_side|].
  eapply (subscript_part _ true 2 _ 2%nat _ ts5 st); [done|done|by apply close_follows; left|..];
    try part_side. by apply subscript_end.
Qed.

(** ** Operands *)

Lemma not_reserved_keyword t s kw :
  kind t = Ident s -> s ∉ reserved -> kw ∈ reserved -> is_keyword t kw = false.
Proof.
  intros Hk Hs Hkw. rewrite (is_keyword_ident _ _ _ Hk). apply bool_decide_false. by intros ->.
Qed.

(** A bare name: what the operand does with it depends on the next token. *)
Lemma free_name_operand ts i p p1 a q :
  free_name ts i -> reads p ts p1 -> kind (token p1) <> Dot ->
  rets debug (fun rec =>
    k ← token_kind;
    match k with
    | OpenDelim Brace => parse_schema_expr rec (node_over ts (EIdentifier i)) (token p)
    | OpenDelim Paren =>
        call ← parse_call rec (node_over ts (EIdentifier i));
        b ← kind_is (OpenDelim Brace);
        if (b : bool) then parse_schema_expr_with_args rec call (token p)
        else node_from (token p) (ECall call)
    | _ => mret (node_over ts (EIdentifier i))
    end) p1 a q ->
  rets debug (fun rec => parse_operand_expr debug rec) p a q.
Proof.
  intros Hn Hr Hd Hk. destruct Hn as [t s ts i Hs Hf Hn].
  pose proof Hr as Hall. apply reads_inv in Hr as (Hp & _ & _). subst t.
  assert (forall kw, kw ∈ reserved -> is_keyword (token p) kw = false) as Hkw
    by (intros; by eapply not_reserved_keyword).
  unfold parse_operand_expr. eapply rets_bind; [apply rets_read|]. cbv beta. rewrite Hs.
  rewrite !Hkw by (unfold reserved; set_solver). simpl existsb. rewrite !Hkw by (unfold reserved; set_solver).
  simpl orb. cbv iota. eapply rets_bind; [by eapply rets_parse_identifier_expr|]. exact Hk.
Qed.

Definition config_ok (ts : list Token) (e : Node Expr) : Prop :=
  parses (fun rec => parse_config_expr rec) any ts e /\
  exists t ts', ts = t :: ts' /\ kind t = OpenDelim Brace.
Definition operand_ok (ts : list Token) (e : Node Expr) : Prop :=
  parses (fun rec => parse_operand_expr debug rec) any ts e /\ begins ts /\ node e <> EMissing.

Lemma operand_delim d ts e (m : calls -> P (Node Expr)) :
  parses m any ts e ->
  (exists t ts', ts = t :: ts' /\ kind t = OpenDelim d) ->
  (forall rec, match d with
   | Paren => m rec = parse_paren_expr rec
   | Bracket => m rec = parse_list_expr rec true
   | Brace => m rec = parse_config_expr rec
   | NoDelim => False
   end) ->
  parses (fun rec => parse_operand_expr debug rec) any ts e /\ begins ts.
Proof.
  intros Hm (t & ts' & -> & Ht) Hd. split.
  - intros p q Hr _. pose proof (Hm p q Hr I) as H. apply reads_inv in Hr as (Hp & _ & _). subst t.
    destruct H as [n0 H]. exists n0. intros n Hn. specialize (H n Hn). rewrite <- H.
    specialize (Hd (rec_at debug n)). unfold parse_operand_expr, read, gets, mbind, P_bind, mbind, st_bind.
    rewrite Ht. destruct d; [by rewrite Hd..|done].
  - apply begins_cons. unfold starts. rewrite Ht. specialize (Hd (rec_at debug 0)).
    by destruct d.
Qed.

Lemma name_schema_ok ts1 i ts2 c :
  free_name ts1 i -> config_ok ts2 c ->
  operand_ok (ts1 ++ ts2) (node_over (ts1 ++ ts2) (ESchema (mkSchemaExpr (node_over ts1 i) [] [] c))).
Proof.
  intros Hn [Hc (t & ts' & -> & Ht)]. split; [|split; [|done]].
  - intros p q Hr _. pose proof Hr as Hall. apply reads_app_inv in Hr as (p1 & Hr1 & Hr2).
    assert (kind (token p1) = OpenDelim Brace) as Hk by (by apply reads_inv in Hr2 as (-> & _)).
    eapply free_name_operand; [done..|by rewrite Hk|].
    eapply rets_bind; [apply rets_read|]. cbv beta. rewrite Hk.
    unfold parse_schema_expr. eapply rets_bind; [apply rets_ret|].
    eapply rets_bind; [by apply Hc|]. cbv beta.
    eapply rets_node_from; [done|by destruct Hn].
  - destruct Hn as [u s us i' Hs Hf _]. apply begins_app, begins_cons. unfold starts. rewrite Hs.
    by rewrite (bool_decide_true (s ∉ reserved)).
Qed.

Lemma name_schema_args_ok ts1 i t ts2 a k u ts3 c :
  free_name ts1 i -> kind t = OpenDelim Paren -> call_arguments_ok ts2 a k ->
  kind u = CloseDelim Paren -> config_ok ts3 c ->
  operand_ok (ts1 ++ t :: ts2 ++ u :: ts3)
    (node_over (ts1 ++ t :: ts2 ++ u :: ts3) (ESchema (mkSchemaExpr (node_over ts1 i) a k c))).
Proof.
  intros Hn Ht Ha Hu [Hc (b & ts' & -> & Hb)]. split; [|split; [|done]].
  - intros p q Hr _. pose proof Hr as Hall. apply reads_app_inv in Hr as (p1 & Hr1 & Hr2).
    change (t :: ts2 ++ u :: b :: ts') with ((t :: ts2) ++ u :: b :: ts') in Hr2.
    rewrite cons_middle, app_assoc in Hr2. apply reads_app_inv in Hr2 as (p2 & Hr2 & Hr3).
    change ((t :: ts2) ++ [u]) with (t :: ts2 ++ [u]) in Hr2.
    assert (kind (token p1) = OpenDelim Paren) as Hk by (by apply reads_inv in Hr2 as (-> & _)).
    assert (kind (token p2) = OpenDelim Brace) as Hk2 by (by apply reads_inv in Hr3 as (-> & _)).
    eapply free_name_operand; [done..|by rewrite Hk|].
    eapply rets_bind; [apply rets_read|]. cbv beta. rewrite Hk.
    eapply rets_bind; [by apply (rets_call_arguments t ts2 a k u)|].
    eapply rets_bind; [by apply rets_kind_is, bool_decide_true|]. cbv iota.
    unfold parse_schema_expr_with_args. eapply rets_bind; [apply rets_ret|].
    eapply rets_bind; [by apply Hc|]. cbv beta.
    eapply rets_node_from; [done|by destruct Hn].
  - destruct Hn as [u' s us i' Hs Hf _]. apply begins_app, begins_cons. unfold starts. rewrite Hs.
    by rewrite (bool_decide_true (s ∉ reserved)).
Qed.

(** ** Primary expressions *)

(** From the start of a primary expression to any round of the loop over its suffixes. *)
Definition primary_ok (s : shape) (ts : list Token) (e : Node Expr) : Prop :=
  begins ts /\ node e <> EMissing /\
  (s = Bare -> exists i, free_name ts i /\ e = node_over ts (EIdentifier i)) /\
  (forall t ts', ts = t :: ts' -> unary_op_of t = None) /\
  forall p p1 r q, reads p ts p1 ->
    kind (token p1) <> OpenDelim Brace -> (s <> Other -> kind (token p1) <> Dot) ->
    (s = Bare -> kind (token p1) <> OpenDelim Paren) ->
    loops debug (fun rec => primary_suffix rec (token p)) p1 e r q ->
    rets debug (fun rec => parse_primary_expr debug rec) p r q.

Lemma starts_no_unary t : 
  match kind t with Literal _ | OpenDelim _ => True | Ident s => s <> kw_not | _ => False end ->
  unary_op_of t = None.
Proof.
  unfold unary_op_of. destruct (kind t) eqn:E; try done; intros Hs.
  - by rewrite is_keyword_other by (intros s; by rewrite E).
  - by rewrite is_keyword_other by (intros s; by rewrite E).
  - rewrite (is_keyword_ident _ _ _ E). by rewrite bool_decide_false.
Qed.

Lemma free_name_head ts i t ts' : free_name ts i -> ts = t :: ts' -> unary_op_of t = None.
Proof.
  intros Hn E. destruct Hn as [u s us i' Hs Hf _]. injection E as -> ->. apply starts_no_unary.
  rewrite Hs. intros ->. apply Hf. unfold reserved. set_solver.
Qed.
Lemma free_name_begins ts i : free_name ts i -> begins ts.
Proof.
  intros Hn. destruct Hn as [u s us i' Hs Hf _]. apply begins_cons. unfold starts. rewrite Hs.
  by rewrite (bool_decide_true (s ∉ reserved)).
Qed.

Lemma primary_name_ok ts i : free_name ts i -> primary_ok Bare ts (node_over ts (EIdentifier i)).
Proof.
  intros Hn. split; [by eapply free_name_begins|]. split; [done|]. split; [by exists i|].
  split; [intros t ts' E; by eapply free_name_head|].
  intros p p1 r q Hr Hb Hd Hp Hl. unfold parse_primary_expr. eapply rets_bind; [apply rets_read|].
  eapply rets_bind; [|by apply rets_loop].
  eapply free_name_operand; [done..|by apply Hd|].
  eapply rets_bind; [apply rets_read|]. cbv beta. specialize (Hp eq_refl).
  destruct (kind (token p1)) as [| | | | | | | | | | | | |[]| | | | | | | | |]; try done; apply rets_ret.
Qed.

Lemma primary_operand_ok ts e :
  operand_ok ts e -> (forall t ts', ts = t :: ts' -> unary_op_of t = None) -> primary_ok Other ts e.
Proof.
  intros (Ho & Hb & Hm) Hu. split; [done|]. split; [done|]. split; [done|]. split; [done|].
  intros p p1 r q Hr _ _ _ Hl. unfold parse_primary_expr. eapply rets_bind; [apply rets_read|].
  eapply rets_bind; [by apply Ho|]. by apply rets_loop.
Qed.

(** A suffix after a primary expression. *)
Lemma primary_suffix_ok s s' ts1 x ts2 (e : Node Expr) :
  primary_ok s ts1 x -> node e <> EMissing -> s' <> Bare ->
  (forall p0 p q, reads p0 (ts1 ++ ts2) q -> reads p ts2 q -> (s' = Selected -> kind (token q) <> Dot) ->
     rets debug (fun rec => primary_suffix rec (token p0) x) p (inl e) q) ->
  (forall p q, reads p ts2 q -> kind (token p) <> OpenDelim Brace /\
     (s <> Other -> kind (token p) <> Dot) /\ (s = Bare -> kind (token p) <> OpenDelim Paren)) ->
  primary_ok s' (ts1 ++ ts2) e.
Proof.
  intros (Hb & _ & _ & Hu & Hx) Hm Hs' Hsuf Hk. split; [by apply begins_app|]. split; [done|].
  split; [done|]. split.
  { intros t ts' E. destruct Hb as (t' & us & -> & _). injection E as -> _. by eapply Hu. }
  intros p p1 r q Hr Hb1 Hd _ Hl. pose proof Hr as Hall. apply reads_app_inv in Hr as (p' & Hr1 & Hr2).
  destruct (Hk _ _ Hr2) as (Hk1 & Hk2 & Hk3). eapply Hx; [done..|].
  eapply loops_next; [|exact Hl]. apply Hsuf; [done..|]. intros ->. by apply Hd.
Qed.

Lemma open_subscript_kind ts hq ts' p q :
  open_subscript ts hq -> reads p (ts ++ ts') q ->
  kind (token p) = OpenDelim Bracket \/ kind (token p) = Question.
Proof. intros Ho Hr. destruct Ho; apply reads_inv in Hr as (-> & _); auto. Qed.

Lemma primary_call_ok s ts1 f t ts2 a k u :
  primary_ok s ts1 f -> kind t = OpenDelim Paren -> call_arguments_ok ts2 a k ->
  kind u = CloseDelim Paren ->
  primary_ok Other (ts1 ++ t :: ts2 ++ [u])
    (node_over (ts1 ++ t :: ts2 ++ [u]) (ECall (mkCallExpr f a k))).
Proof.
  intros Hf Ht Ha Hu. assert (ts1 <> []) as Hne by by destruct Hf as ((? & ? & -> & _) & _).
  assert (s = Bare \/ s <> Bare) as [->|Hs] by (destruct s; auto).
  - (* the operand parses the call itself *)
    destruct Hf as (Hb & _ & Hn & Hun & _). destruct (Hn eq_refl) as (i & Hi & ->).
    split; [by apply begins_app|]. split; [done|]. split; [done|]. split.
    { intros t' ts' E. destruct Hb as (v & vs & -> & _). injection E as -> _. by eapply Hun. }
    intros p p1 r q Hr Hb1 _ _ Hl. pose proof Hr as Hall. apply reads_app_inv in Hr as (p' & Hr1 & Hr2).
    assert (kind (token p') = OpenDelim Paren) as Hk by (by apply reads_inv in Hr2 as (-> & _)).
    unfold parse_primary_expr. eapply rets_bind; [apply rets_read|].
    eapply rets_bind; [|by apply rets_loop].
    eapply free_name_operand; [done..|by rewrite Hk|].
    eapply rets_bind; [apply rets_read|]. cbv beta. rewrite Hk.
    eapply rets_bind; [by apply (rets_call_arguments t ts2 a k u)|].
    eapply rets_bind; [by apply rets_kind_is, bool_decide_false|].
    eapply rets_node_from; [done|by destruct ts1].
  - eapply primary_suffix_ok; [exact Hf|done|done| |].
    + intros p0 p q Hall Hr _. eapply suffix_call_ok; try done. by destruct ts1.
    + intros p q Hr. apply reads_inv in Hr as (-> & _). by rewrite Ht.
Qed.

Lemma primary_dot_ok ts1 x t ts2 i :
  primary_ok Other ts1 x -> kind t = Dot -> name ts2 i ->
  primary_ok Selected (ts1 ++ t :: ts2)
    (node_over (ts1 ++ t :: ts2) (ESelector (mkSelectorExpr x (node_over ts2 i) Load false))).
Proof.
  intros Hx Ht Hn. assert (ts1 <> []) as Hne by by destruct Hx as ((? & ? & -> & _) & _).
  eapply primary_suffix_ok; [exact Hx|done|done| |].
  - intros p0 p q Hall Hr Hd. eapply suffix_dot_ok; try done; [by apply Hd|by destruct ts1].
  - intros p q Hr. apply reads_inv in Hr as (-> & _). by rewrite Ht.
Qed.

Lemma primary_question_dot_ok s ts1 x t u ts2 i :
  primary_ok s ts1 x -> kind t = Question -> kind u = Dot -> name ts2 i ->
  primary_ok Selected (ts1 ++ t :: u :: ts2)
    (node_over (ts1 ++ t :: u :: ts2) (ESelector (mkSelectorExpr x (node_over ts2 i) Load true))).
Proof.
  intros Hx Ht Hu Hn. assert (ts1 <> []) as Hne by by destruct Hx as ((? & ? & -> & _) & _).
  eapply primary_suffix_ok; [exact Hx|done|done| |].
  - intros p0 p q Hall Hr Hd. eapply suffix_question_dot_ok; try done; [by apply Hd|by destruct ts1].
  - intros p q Hr. apply reads_inv in Hr as (-> & _). by rewrite Ht.
Qed.

(** A subscript of any form. *)
Lemma primary_subscript_ok s ts1 x ts2 hq ts3 (e : Node Expr) :
  primary_ok s ts1 x -> open_subscript ts2 hq -> node e <> EMissing ->
  (forall p0 p q, reads p0 (ts1 ++ ts2 ++ ts3) q -> reads p (ts2 ++ ts3) q ->
     rets debug (fun rec => primary_suffix rec (token p0) x) p (inl e) q) ->
  primary_ok Other (ts1 ++ ts2 ++ ts3) e.
Proof.
  intros Hx Ho Hm Hs. eapply primary_suffix_ok; [exact Hx|done|done| |].
  - intros p0 p q Hall Hr _. by apply Hs.
  - intros p q Hr. by destruct (open_subscript_kind _ _ _ _ _ Ho Hr) as [->| ->].
Qed.

(** ** Unary and binary operators *)

Definition unary_ok (ts : list Token) (e : Node Expr) : Prop :=
  begins ts /\ node e <> EMissing /\
  parses (fun rec => parse_unary_expr debug rec) ends_operand ts e.

Lemma ends_operand_primary lot p e : ends_operand p ->
  loops debug (fun rec => primary_suffix rec lot) p e e p.
Proof.
  intros He. apply loops_done. unfold primary_suffix. eapply rets_bind; [apply rets_read|].
  eapply rets_bind; [apply rets_read|]. cbv beta. unfold ends_operand in He.
  destruct (kind (token p)) as [| | | | | | | | | | | | |[]| | | | | | | | |]; try done; try apply rets_ret.
  destruct (cursor_peek (cursor p)) as [t|]; [|apply rets_ret]. simpl in He.
  destruct (kind t) as [| | | | | | | | | | | | |[]| | | | | | | | |]; try done; apply rets_ret.
Qed.

Lemma ends_operand_kinds p : ends_operand p ->
  kind (token p) <> OpenDelim Brace /\ kind (token p) <> Dot /\ kind (token p) <> OpenDelim Paren.
Proof. unfold ends_operand. intros He. repeat split; intros E; rewrite E in He; done. Qed.

Lemma primary_parses s ts e : primary_ok s ts e ->
  parses (fun rec => parse_primary_expr debug rec) ends_operand ts e.
Proof.
  intros (_ & _ & _ & _ & Hx) p q Hr He. destruct (ends_operand_kinds _ He) as (? & ? & ?).
  eapply Hx; [done..|]. by apply ends_operand_primary.
Qed.

Lemma unary_primary_ok s ts e : primary_ok s ts e -> unary_ok ts e.
Proof.
  intros Hx. pose proof (primary_parses _ _ _ Hx) as Hp. destruct Hx as (Hb & Hm & _ & Hu & _).
  split; [done|]. split; [done|]. intros p q Hr He.
  unfold parse_unary_expr. eapply rets_bind; [apply rets_read|]. cbv beta.
  destruct Hb as (t & ts' & -> & _). pose proof (Hu _ _ eq_refl) as Hn.
  pose proof Hr as Hr'. apply reads_inv in Hr' as (-> & _). rewrite Hn. by apply Hp.
Qed.

Lemma unary_op_starts t op : unary_op_of t = Some op -> starts t = true.
Proof.
  unfold unary_op_of, starts. destruct (kind t) as [|[]| | | | | | | | | | | | | | |s| | | | | |] eqn:E;
    try done; try (rewrite is_keyword_other; [done|intros s; by rewrite E]).
  rewrite (is_keyword_ident _ _ _ E). case_bool_decide; [|done]. subst. by vm_compute.
Qed.

Lemma unary_op_ok s t op ts x :
  unary_op_of t = Some op -> primary_ok s ts x ->
  unary_ok (t :: ts) (node_over (t :: ts) (EUnary (mkUnaryExpr op x))).
Proof.
  intros Ho Hx. split; [by eapply begins_cons, unary_op_starts|]. split; [done|]. intros p q Hr He.
  pose proof Hr as Hall. apply reads_inv in Hr as (Hp & _ & Hr). subst t.
  unfold parse_unary_expr. eapply rets_bind; [apply rets_read|]. cbv beta. rewrite Ho.
  eapply rets_bind; [apply rets_bump|]. eapply rets_bind; [by eapply primary_parses|].
  by eapply rets_node_from.
Qed.

(** From the start of a simple expression to any round of the loop over its operators: the
    operand collected is the tree, or the comparison in progress that denotes it. *)
Definition represents (cmp : bool) (ts : list Token) (e x : Node Expr) (c : Compare Expr) : Prop :=
  if cmp then node e = ECompare c /\ ops c <> [] /\ e = node_over ts (ECompare c)
  else x = e /\ ops c = [] /\ comparators c = [].

Definition simple_ok (prec1 q1 : Precedence) (cmp : bool) (ts : list Token) (e : Node Expr) : Prop :=
  begins ts /\ node e <> EMissing /\ (prec_rank prec1 <= prec_rank q1)%nat /\
  (cmp = true -> exists c, represents true ts e e c) /\
  forall p p1 r q, reads p ts p1 -> follows q1 p1 ->
    (forall x c, represents cmp ts e x c ->
       loops debug (fun rec => binary_round rec prec1 (token p)) p1 (x, c) r q) ->
    rets debug (fun rec => do_parse_simple_expr debug rec prec1) p r q.

Lemma simple_parses prec1 q1 cmp ts e : simple_ok prec1 q1 cmp ts e ->
  parses (fun rec => rec _ (do_parse_simple_expr_call prec1)) (follows prec1) ts e.
Proof.
  intros (Hb & _ & Hq & _ & Hs) p q Hr Hf. apply rets_call. eapply Hs; [done|by eapply follows_weaken|].
  intros x c Hx. eapply binary_loop_end; [done|by destruct Hb as (? & ? & -> & _)|done|].
  destruct cmp; [|destruct Hx as (-> & -> & _); done]. destruct Hx as (_ & Hc & ->). by destruct (ops c).
Qed.

Lemma prec_rank_prefix p : (prec_rank p <= prec_rank Prefix)%nat.
Proof. destruct p; simpl; lia. Qed.

Lemma simple_unary_ok prec1 ts e : unary_ok ts e -> simple_ok prec1 Prefix false ts e.
Proof.
  intros (Hb & Hm & Hu). split; [done|]. split; [done|]. split; [apply prec_rank_prefix|]. split; [done|].
  intros p p1 r q Hr [He _] Hl. unfold do_parse_simple_expr. eapply rets_bind; [apply rets_read|].
  eapply rets_bind; [by apply Hu|]. apply rets_loop. by apply Hl; repeat split.
Qed.

(** An operator and its right operand, after any left operand. *)
Lemma simple_step prec1 q1 cmp cmp' ts1 l ots op o q' c' t ts2 y (e : Node Expr) :
  simple_ok prec1 q1 cmp ts1 l -> operator ots t op o -> tighter prec1 o -> prec_le o q1 = true ->
  simple_ok o q' c' (t :: ts2) y -> node e <> EMissing ->
  (cmp' = true -> exists c, represents true (ts1 ++ ots ++ t :: ts2) e e c) ->
  (forall p0 p p1 x c, reads p0 (ts1 ++ ots ++ t :: ts2) p1 -> represents cmp ts1 l x c ->
     (forall p2, reads p2 (t :: ts2) p1 -> rets debug (fun rec => rec _ (do_parse_simple_expr_call o)) p2 y p1) ->
     reads p (ots ++ t :: ts2) p1 ->
     exists x' c', represents cmp' (ts1 ++ ots ++ t :: ts2) e x' c' /\
       rets debug (fun rec => binary_round rec prec1 (token p0) (x, c)) p (inl (x', c')) p1) ->
  simple_ok prec1 o cmp' (ts1 ++ ots ++ t :: ts2) e.
Proof.
  intros (Hb & _ & _ & _ & Hl) Ho Ht Hoq Hy Hm Hc Hround. split; [by apply begins_app|]. split; [done|].
  split; [apply tighter_iff in Ht; lia|]. split; [done|].
  intros p p1 r q Hr Hf Hk. pose proof Hr as Hall. apply reads_app_inv in Hr as (p' & Hr1 & Hr2).
  eapply Hl; [done| |].
  - destruct (operator_step _ _ _ _ _ _ _ Ho Hr2) as (use & p2 & Hp & He & _).
    split; [done|]. by rewrite Hp.
  - intros x c Hx. destruct (Hround p p' p1 x c) as (x' & c2 & Hx' & Hrets); try done.
    + intros p2 Hp2. by eapply simple_parses.
    + eapply loops_next; [exact Hrets|]. by apply Hk.
Qed.

Lemma simple_binary_ok prec1 q1 ts1 x ots op o q' c' t ts2 y :
  simple_ok prec1 q1 false ts1 x -> operator ots t (BcBin op) o -> tighter prec1 o ->
  prec_le o q1 = true -> simple_ok o q' c' (t :: ts2) y ->
  simple_ok prec1 o false (ts1 ++ ots ++ t :: ts2)
    (node_over (ts1 ++ ots ++ t :: ts2) (EBinary (mkBinaryExpr x (BcBin op) y))).
Proof.
  intros Hx Ho Ht Hoq Hy. assert (ts1 <> []) by by destruct Hx as ((? & ? & -> & _) & _).
  eapply simple_step; [done..|]. intros p0 p p1 x' c Hall (-> & Hc & Hcs) Hy' Hr.
  eexists _, c. split; [by repeat split|].
  eapply binary_round_step; [done..|]. cbv iota. rewrite Hc.
  eapply rets_bind; [apply rets_ret|]. cbv beta iota.
  eapply rets_bind; [eapply rets_node_from; [done|by destruct ts1]|]. apply rets_ret.
Qed.

Lemma simple_binary_cmp_ok prec1 q1 ts1 x ots op o q' c' t ts2 y :
  simple_ok prec1 q1 true ts1 x -> operator ots t (BcBin op) o -> tighter prec1 o ->
  prec_le o q1 = true -> simple_ok o q' c' (t :: ts2) y ->
  simple_ok prec1 o false (ts1 ++ ots ++ t :: ts2)
    (node_over (ts1 ++ ots ++ t :: ts2)
       (EBinary (mkBinaryExpr (node_over (ts1 ++ ots ++ t :: ts2) (node x)) (BcBin op) y))).
Proof.
  intros Hx Ho Ht Hoq Hy. assert (ts1 <> []) by by destruct Hx as ((? & ? & -> & _) & _).
  eapply simple_step; [done..|]. intros p0 p p1 x' c Hall (Hn & Hc & _) Hy' Hr.
  eexists _, (mkCompare (cmp_left c) [] []). split; [by repeat split|].
  eapply binary_round_step; [done..|]. cbv iota. rewrite Hn.
  destruct (ops c) as [|o1 os] eqn:E; [done|].
  assert (ts1 ++ ots ++ t :: ts2 <> []) by by destruct ts1.
  eapply rets_bind; [eapply rets_bind; [by eapply rets_node_from|apply rets_ret]|]. cbv beta iota.
  eapply rets_bind; [by eapply rets_node_from|]. apply rets_ret.
Qed.

Lemma simple_compare_ok prec1 q1 ts1 x ots op o q' c' t ts2 y :
  simple_ok prec1 q1 false ts1 x -> operator ots t (BcCmp op) o -> tighter prec1 o ->
  prec_le o q1 = true -> simple_ok o q' c' (t :: ts2) y ->
  simple_ok prec1 o true (ts1 ++ ots ++ t :: ts2)
    (node_over (ts1 ++ ots ++ t :: ts2) (ECompare (mkCompare x [op] [y]))).
Proof.
  intros Hx Ho Ht Hoq Hy.
  eapply simple_step; [done..|by eexists|]. intros p0 p p1 x' c Hall (-> & Hc & Hcs) Hy' Hr.
  exists x, (mkCompare x [op] [y]). split; [by repeat split|].
  eapply binary_round_step; [done..|]. cbv beta iota zeta. rewrite Hc, Hcs. apply rets_ret.
Qed.

Lemma simple_compare_more_ok prec1 q1 ts1 x cmp ots op o q' c' t ts2 y :
  simple_ok prec1 q1 true ts1 x -> node x = ECompare cmp -> operator ots t (BcCmp op) o ->
  tighter prec1 o -> prec_le o q1 = true -> simple_ok o q' c' (t :: ts2) y ->
  simple_ok prec1 o true (ts1 ++ ots ++ t :: ts2)
    (node_over (ts1 ++ ots ++ t :: ts2)
       (ECompare (mkCompare (cmp_left cmp) (ops cmp ++ [op]) (comparators cmp ++ [y])))).
Proof.
  intros Hx Hn Ho Ht Hoq Hy.
  eapply simple_step; [done..| |].
  - intros _. eexists. split; [reflexivity|]. split; [|reflexivity]. simpl. by destruct (ops cmp).
  - intros p0 p p1 x' c Hall (Hn' & Hc & _) Hy' Hr. rewrite Hn in Hn'. injection Hn' as <-.
    eexists x', _. split; [split; [reflexivity|split; [|reflexivity]]; simpl; by destruct (ops cmp)|].
    eapply binary_round_step; [done..|]. cbv beta iota zeta.
    destruct (ops cmp); [done|]. apply rets_ret.
Qed.

(** ** Expressions *)

Lemma follows_keyword q kw :
  is_keyword (token q) kw = true -> kw ∈ [kw_if; kw_else] -> follows Lowest q.
Proof.
  intros Hk Hkw. apply is_keyword_true in Hk. split; [unfold ends_operand; by rewrite Hk|].
  rewrite !elem_of_cons, elem_of_nil in Hkw.
  rewrite peek_operator_plain by (rewrite (is_keyword_ident _ _ _ Hk); destruct Hkw as [->|[->|[]]]; by vm_compute).
  unfold precedence_of. rewrite Hk. rewrite !(is_keyword_ident _ _ _ Hk).
  destruct Hkw as [->|[->|[]]]; by vm_compute.
Qed.

Lemma expr_simple_ok q1 cmp ts e : simple_ok Lowest q1 cmp ts e -> expr_ok ts e.
Proof.
  intros Hs. pose proof (simple_parses _ _ _ _ _ Hs) as Hp. destruct Hs as (Hb & Hm & _).
  split; [|done]. intros p q Hr [Hf Hi]. apply rets_call. simpl handler. unfold parse_expr_body.
  eapply rets_bind; [apply rets_read|]. eapply rets_bind; [by apply Hp|].
  eapply rets_bind; [apply (rets_read debug (fun p => is_keyword (token p) kw_if))|]. cbv beta.
  rewrite Hi. apply rets_ret.
Qed.

Lemma expr_if_ok q1 c1 ts1 body t q2 c2 ts2 cond u ts3 orelse :
  simple_ok Lowest q1 c1 ts1 body -> is_keyword t kw_if = true ->
  simple_ok Lowest q2 c2 ts2 cond -> is_keyword u kw_else = true -> expr_ok ts3 orelse ->
  expr_ok (ts1 ++ t :: ts2 ++ u :: ts3)
    (node_over (ts1 ++ t :: ts2 ++ u :: ts3) (EIf (mkIfExpr body cond orelse))).
Proof.
  intros Hb Ht Hc Hu (He & _). pose proof (simple_parses _ _ _ _ _ Hb) as Hpb.
  pose proof (simple_parses _ _ _ _ _ Hc) as Hpc. destruct Hb as (Hbeg & _).
  split; [|split; [by apply begins_app|done]].
  intros p q Hr Hf. pose proof Hr as Hall. revert Hall. reads_split. intros Hall. subst t u.
  apply rets_call. simpl handler. unfold parse_expr_body.
  eapply rets_bind; [apply rets_read|].
  eapply rets_bind; [apply Hpb; [done|eapply follows_keyword; [done|set_solver]]|].
  eapply rets_bind; [apply (rets_read debug (fun p => is_keyword (token p) kw_if))|]. cbv beta.
  rewrite Ht. unfold parse_if_expr. eapply rets_bind; [apply rets_read|]. cbv beta. rewrite Ht.
  eapply rets_bind; [apply rets_bump|].
  eapply rets_bind; [apply Hpc; [done|eapply follows_keyword; [done|set_solver]]|].
  eapply rets_bind; [apply rets_read|]. cbv beta. rewrite Hu.
  eapply rets_bind; [apply rets_bump|]. eapply rets_bind; [by apply He|].
  eapply rets_node_from; [done|]. by destruct Hbeg as (? & ? & -> & _).
Qed.

(** ** The induction *)

Definition operand_head_ok (ts : list Token) (e : Node Expr) : Prop :=
  operand_ok ts e /\ forall t ts', ts = t :: ts' -> unary_op_of t = None.

(** An operand of one literal or keyword token. *)
Lemma token_operand t e :
  (forall p q, token p = t -> reads p [token p] q ->
     rets debug (fun rec => parse_operand_expr debug rec) p e q) ->
  starts t = true -> unary_op_of t = None -> node e <> EMissing -> operand_head_ok [t] e.
Proof.
  intros Hr Hs Hu Hm. split; [split; [|split; [by apply begins_cons|done]]|by intros t' ts' [= <- <-]].
  intros p q Hp _. pose proof Hp as Hp'. apply reads_inv in Hp' as (Ht & _). subst t. by apply Hr.
Qed.

Lemma literal_operand t lk e :
  kind t = Literal lk ->
  (forall p q, token p = t -> reads p [token p] q ->
     rets debug (fun rec => parse_operand_expr debug rec) p e q) ->
  node e <> EMissing -> operand_head_ok [t] e.
Proof.
  intros Ht Hr Hm. apply token_operand; [done| | |done].
  - unfold starts. by rewrite Ht.
  - apply starts_no_unary. by rewrite Ht.
Qed.

(** An operand between delimiters. *)
Lemma delim_operand d t ts e (m : calls -> P (Node Expr)) :
  parses m any (t :: ts) e -> kind t = OpenDelim d -> node e <> EMissing ->
  (forall rec, match d with
   | Paren => m rec = parse_paren_expr rec
   | Bracket => m rec = parse_list_expr rec true
   | Brace => m rec = parse_config_expr rec
   | NoDelim => False
   end) -> operand_head_ok (t :: ts) e.
Proof.
  intros Hm Ht He Hd. destruct (operand_delim d (t :: ts) e m Hm) as [Hp Hb]; [eauto|done|].
  split; [done|]. intros t' ts' [= <- <-]. apply starts_no_unary. by rewrite Ht.
Qed.

Lemma constant_ok t s c : kind t = Ident s -> (s, c) ∈ constants ->
  operand_head_ok [t] (node_over [t] (ENameConstantLit (mkNameConstantLit c))).
Proof.
  intros Ht Hc. assert (s ∈ [kw_True; kw_False; kw_None; kw_Undefined; kw_not] /\ s <> kw_not) as [Hs Hn].
  { unfold constants in Hc. rewrite !elem_of_cons, elem_of_nil in Hc.
    destruct Hc as [[= -> _]|[[= -> _]|[[= -> _]|[[= -> _]|[]]]]]; (split; [set_solver|by vm_compute]). }
  apply token_operand; [|unfold starts; rewrite Ht| |done].
  - intros p q <- Hr. by eapply rets_constant.
  - rewrite (bool_decide_true (s ∈ _)) by done. by rewrite orb_true_r.
  - apply starts_no_unary. by rewrite Ht.
Qed.

Lemma name_operand ts i ts' e :
  free_name ts i -> operand_ok (ts ++ ts') e -> operand_head_ok (ts ++ ts') e.
Proof.
  intros Hn Ho. split; [done|]. intros t us E. inversion Hn; subst. simplify_eq/=.
  by eapply free_name_head.
Qed.

Lemma grammar_ok :
  (forall ts e, expr debug ts e -> expr_ok ts e) /\
  (forall p q c ts e, simple debug p q c ts e -> simple_ok p q c ts e) /\
  (forall ts e, unary debug ts e -> unary_ok ts e) /\
  (forall s ts e, primary debug s ts e -> primary_ok s ts e) /\
  (forall ts o, opt_expr debug ts o -> opt_expr_ok ts o) /\
  (forall ts e, operand_of debug ts e -> operand_head_ok ts e) /\
  (forall ts e, config debug ts e -> config_ok ts e) /\
  (forall ts e, list_item debug ts e -> list_item_ok ts e) /\
  (forall b ts l, list_items debug b ts l -> list_items_ok b ts l) /\
  (forall ts e, config_entry debug ts e -> config_entry_ok ts e) /\
  (forall b ts l, config_entries debug b ts l -> config_entries_ok b ts l) /\
  (forall ts a k, call_arguments debug ts a k -> call_arguments_ok ts a k) /\
  (forall kw ts a k, arguments debug kw ts a k -> arguments_ok kw ts a k) /\
  (forall ts k, keyword_argument debug ts k -> keyword_ok ts k).
Proof.
  apply grammar_mind.
  - intros. by eapply expr_simple_ok.
  - intros. by eapply expr_if_ok.
  - intros. by apply simple_unary_ok.
  - intros. by eapply simple_binary_ok.
  - intros. by eapply simple_binary_cmp_ok.
  - intros. by eapply simple_compare_ok.
  - intros. by eapply simple_compare_more_ok.
  - intros. by eapply unary_primary_ok.
  - intros. by eapply unary_op_ok.
  - intros. by apply primary_name_ok.
  - intros ts e _ [Ho Hh]. by apply primary_operand_ok.
  - intros ts1 i ts2 c Hn _ Hc. destruct (name_operand ts1 i ts2 _ Hn (name_schema_ok _ _ _ _ Hn Hc)).
    by apply primary_operand_ok.
  - intros ts1 i t ts2 a k u ts3 c Hn Ht _ Ha Hu _ Hc.
    destruct (name_operand ts1 i _ _ Hn (name_schema_args_ok _ _ _ _ _ _ _ _ _ Hn Ht Ha Hu Hc)).
    by apply primary_operand_ok.
  - intros. by eapply primary_call_ok.
  - intros. by apply primary_dot_ok.
  - intros. by eapply primary_question_dot_ok.
  - intros s ts1 x ts2 hq ts3 i u _ Hx Ho _ Hi Hu. eapply primary_subscript_ok; [done..|].
    intros p0 p q Hall Hr. eapply suffix_index_ok; try done. by destruct Hx as ((? & ? & -> & _) & _).
  - intros s ts1 x ts2 hq ts3 lo t ts4 hi u _ Hx Ho _ Hlo Ht _ Hhi Hu.
    eapply primary_subscript_ok; [done..|].
    intros p0 p q Hall Hr. eapply suffix_slice_ok; try done. by destruct Hx as ((? & ? & -> & _) & _).
  - intros s ts1 x ts2 hq ts3 lo t ts4 hi t' ts5 st u _ Hx Ho _ Hlo Ht _ Hhi Ht' _ Hst Hu.
    eapply primary_subscript_ok; [done..|].
    intros p0 p q Hall Hr. eapply (suffix_slice_step_ok p0 _ x ts2 hq ts3 lo t ts4 hi t' ts5 st u); try done. by destruct Hx as ((? & ? & -> & _) & _).
  - by left.
  - intros ts e _ He. right. by exists e.
  - intros. by eapply constant_ok.
  - intros t lk v Ht Hk Hv. eapply literal_operand; [done| |done]. intros p q <- Hr. by eapply rets_integer.
  - intros t lk v Ht Hk Hv. eapply literal_operand; [done| |done]. intros p q <- Hr. by eapply rets_float.
  - intros t lk long is_raw Ht Hk Hv. eapply literal_operand; [done| |done].
    intros p q <- Hr. by eapply rets_string.
  - intros t ts e u Ht _ He Hu. by eapply (delim_operand Paren); [by apply paren_ok|..].
  - intros t u Ht Hu. by eapply (delim_operand Bracket); [by apply list_empty_ok|..].
  - intros t ts l u Ht _ Hl Hu. by eapply (delim_operand Bracket); [by apply list_line_ok|..].
  - intros t n ns i ts l d u Ht Hn Hi _ Hl Hd Hu.
    by eapply (delim_operand Bracket); [by apply list_block_ok|..].
  - intros ts e He [Hc (t & ts' & -> & Ht)]. eapply (delim_operand Brace); [exact Hc|done| |done].
    by inversion He.
  - intros. split; [by apply config_empty_ok|eauto].
  - intros. split; [by apply config_line_ok|eauto].
  - intros. split; [by eapply config_block_ok|eauto].
  - intros. by apply item_expr_ok.
  - intros. by apply item_starred_ok.
  - intros. by apply list_items_last.
  - intros. by apply list_items_cons.
  - intros. by apply entry_key_ok.
  - intros. by apply entry_unpack_ok.
  - intros. by apply config_entries_last.
  - intros. by apply config_entries_cons.
  - by left.
  - intros. by right.
  - intros ts e _ He. eapply (arguments_last false ts (inl e)); [by apply positional_ok|apply He|done].
  - intros kw ts k _ [Hk Hb]. by eapply (arguments_last kw ts (inr k)).
  - intros ts e t ts' a k _ He Ht _ Ha.
    apply (arguments_more false ts (inl e) t ts' [e] [] a k); [by apply positional_ok|apply He|done..].
  - intros kw ts k t ts' ks _ [Hk Hb] Ht _ Ha.
    by apply (arguments_more kw ts (inr k) t ts' [] [k] [] ks).
  - intros. by eapply keyword_intro_ok.
Qed.
End Complete.

(** ** Properties *)

(** The tokens from the current one on. *)
Definition remaining (p : parser) : list Token := token p :: drop (index (cursor p)) (stream (cursor p)).

Lemma remaining_eat p t u ts : remaining p = t :: u :: ts ->
  token p = t /\ cursor_peek (cursor p) = Some u /\ remaining (eat p) = u :: ts.
Proof.
  unfold remaining. intros [= Ht Hd]. split; [done|].
  assert (stream (cursor p) !! index (cursor p) = Some u) as Hp.
  { replace (index (cursor p)) with (index (cursor p) + 0)%nat by lia. by rewrite <- lookup_drop, Hd. }
  split; [done|]. unfold eat, cursor_next. rewrite Hp. simpl. f_equal.
  apply (f_equal (drop 1)) in Hd. rewrite drop_drop in Hd. simpl in Hd. rewrite drop_0 in Hd.
  by rewrite <- Hd, Nat.add_1_r.
Qed.

Lemma remaining_reads p ts u rest : remaining p = ts ++ u :: rest ->
  exists q, reads p ts q /\ remaining q = u :: rest.
Proof.
  revert p. induction ts as [|t ts IH]; intros p Hp; [exists p; split; [constructor|done]|].
  simpl in Hp. destruct (ts ++ u :: rest) as [|v vs] eqn:E; [by destruct ts|].
  apply remaining_eat in Hp as (Ht & Hk & Hq).
  destruct (IH (eat p)) as (q & Hr & Hrest); [done|].
  exists q. split; [|done]. constructor; [done|by eexists|done].
Qed.

Section Properties.
Context (debug : bool) {UT : UnicodeTables} {BD : BigDigits} {SM : SourceMap}.

Lemma expr_parsed ts e p u rest :
  expr debug ts e -> punctuation u = true -> remaining p = ts ++ u :: rest ->
  exists q, reads p ts q /\ remaining q = u :: rest /\
    exists n0, forall n, (n0 <= n)%nat -> parse_expr debug n p = Ok (e, q).
Proof.
  intros He Hu Hp. destruct (remaining_reads _ _ _ _ Hp) as (q & Hr & Hq).
  destruct (proj1 (grammar_ok debug) _ _ He) as [Hparse _].
  assert (follows_expr q) as Hf by (apply follows_punctuation; unfold remaining in Hq; by simplify_eq).
  exists q. split; [done|]. split; [done|].
  destruct (Hparse _ _ Hr Hf) as [n0 Hn]. exists n0. intros n. apply Hn.
Qed.

(** C1: the parser implements the grammar of expressions: whatever the parser's state, if the
    tokens from the current one on begin with a derivation of the tree [e] and go on with
    punctuation, then with enough fuel [parse_expr] returns exactly [e] - operands, operators
    by precedence, calls, subscripts, literals, each node with the position of its first and
    its last token - reports no error, and stops at the token after the derivation. *)
Theorem parse_expr_complete ts e p u rest :
  expr debug ts e -> punctuation u = true -> remaining p = ts ++ u :: rest ->
  exists q n0, (forall n, (n0 <= n)%nat -> parse_expr debug n p = Ok (e, q)) /\
    remaining q = u :: rest /\ errors q = errors p.
Proof.
  intros He Hu Hp. destruct (expr_parsed _ _ _ _ _ He Hu Hp) as (q & Hr & Hq & n0 & Hn).
  exists q, n0. split; [done|]. split; [done|]. by eapply reads_errors.
Qed.
End Properties.

Definition example_map : SourceMap := {|
  lookup_char_pos b := {| loc_file := []; loc_line := 1; loc_col := b |};
  span_to_snippet _ := None |}.

(** the grammar of expressions is unambiguous, and so are its precedences: the tokens
    determine the tree.  For it is the one the parser returns. *)
Theorem grammar_unambiguous debug {BD : BigDigits} {SM : SourceMap} ts e1 e2 :
  expr debug ts e1 -> expr debug ts e2 -> e1 = e2.
Proof.
  intros H1 H2. pose (u := new_token Eof DUMMY_SP).
  destruct ts as [|t ts'].
  { destruct (proj1 (grammar_ok debug (UT := ascii_tables)) _ _ H1) as (_ & (? & ? & [=] & _) & _). }
  pose (p := mkParser t t {| stream := ts' ++ [u]; index := 0 |} [] []).
  destruct (expr_parsed debug (UT := ascii_tables) _ _ p u [] H1 eq_refl eq_refl) as (q1 & _ & _ & n1 & Hn1).
  destruct (expr_parsed debug (UT := ascii_tables) _ _ p u [] H2 eq_refl eq_refl) as (q2 & _ & _ & n2 & Hn2).
  specialize (Hn1 (max n1 n2) ltac:(lia)). specialize (Hn2 (max n1 n2) ltac:(lia)).
  rewrite Hn1 in Hn2. by injection Hn2.
Qed.

(** *** An example: [a + b * c], in an indented block *)

Lemma simple_name debug `{BigDigits, SourceMap} p t s : kind t = Ident s -> s ∉ reserved ->
  simple debug p Prefix false [t] (node_over [t] (EIdentifier (mkIdentifier [node_over [t] s] [] Load))).
Proof.
  intros Hk Hs. eapply simple_unary, unary_primary, primary_name.
  apply (free_name_intro t s); [done|done|]. apply (name_dots t s); [done|constructor].
Qed.

Lemma operator_single t next op o : bin_or_cmp_op_of t = Some op -> precedence_of t = o ->
  is_keyword t kw_is && is_keyword next kw_not = false -> operator [t] next op o.
Proof. intros Ho <- Hn. by apply operator_one. Qed.

Definition example_tokens : list Token :=
  map (fun nk => new_token nk.2 (span_new nk.1 (nk.1 + 1)))
    [(0, Ident (txt "a")); (2, AstToken.BinOp Plus); (4, Ident (txt "b")); (6, AstToken.BinOp Star);
     (8, Ident (txt "c"))].
Definition example_name (n : Z) (s : string) : Node Expr :=
  let ts := [new_token (Ident (txt s)) (span_new n (n + 1))] in
  node_over (SM := example_map) ts (EIdentifier (mkIdentifier [node_over (SM := example_map) ts (txt s)] [] Load)).
Definition example_tree : Node Expr :=
  node_over (SM := example_map) example_tokens (EBinary (mkBinaryExpr (example_name 0 "a") (BcBin BAdd)
    (node_over (SM := example_map) (drop 2 example_tokens) (EBinary (mkBinaryExpr (example_name 4 "b")
       (BcBin BMul) (example_name 8 "c")))))).

Lemma example_derivation :
  expr true (BD := plain_digits) (SM := example_map) example_tokens example_tree.
Proof.
  eapply expr_simple.
  refine (simple_binary true Lowest Prefix [_] _ [_] BAdd Sum Product false _ [_; _] _ _ _ _ _ _);
    [by apply simple_name; [|vm_compute; set_solver]| |done|done|].
  { by apply operator_single. }
  refine (simple_binary true Sum Prefix [_] _ [_] BMul Product Prefix false _ [] _ _ _ _ _ _);
    [by apply simple_name; [|vm_compute; set_solver]| |done|done|].
  { by apply operator_single. }
  by apply simple_name; [|vm_compute; set_solver].
Qed.

(** The expression in the parentheses of a call, after an error. *)
Definition example_parser : parser :=
  let ts := example_tokens ++ [new_token (CloseDelim Paren) (span_new 9 10); new_token Eof (span_new 10 10)] in
  mkParser (default dummy (head ts)) dummy {| stream := ts; index := 1 |} []
    [Message (txt "unterminated string") (span_new 0 1)].

Lemma parse_expr_complete_witness :
  exists q n0,
    (forall n, (n0 <= n)%nat ->
       parse_expr true n example_parser (H := ascii_tables) (H0 := plain_digits) (H1 := example_map) =
         Ok (example_tree, q)) /\
    remaining q = drop 5 (stream (cursor example_parser)) /\ errors q = errors example_parser.
Proof.
  apply (parse_expr_complete true (UT := ascii_tables) (BD := plain_digits) (SM := example_map)
           example_tokens example_tree example_parser).
  - exact example_derivation.
  - reflexivity.
  - reflexivity.
Defined.

Lemma grammar_unambiguous_witness : exists e,
  expr true (BD := plain_digits) (SM := example_map) example_tokens e /\ e = example_tree.
Proof.
  exists example_tree. split; [exact example_derivation|].
  apply (grammar_unambiguous true (BD := plain_digits) (SM := example_map) example_tokens example_tree example_tree);
    exact example_derivation.
Defined.
