(* ===== verification/ParserFaults.v ===== *)
(** * Where the parser hangs, panics or misreads

    Inputs on which the parser does not do what its grammar says: loops without progress,
    which are out of fuel for every fuel, unchecked indexing and unwrapping, an operator that
    becomes another one.  The surrounding expressions are any expressions of the grammar. *)

From S2P Require Import Prelude MachineInt State Floats Chars Utf8 StrLiteral AstToken IntLiteral Ast ParserState ParserExpr ParserStmt ParserFrame ParserRun ParserGrammar ParserComplete.

Section Rules.
Context (debug : bool) {UT : UnicodeTables} {BD : BigDigits} {SM : SourceMap}.

(** ** Methods that panic with [e] from some fuel on *)

Definition fails {A} (e : string) (m : calls -> P A) (p : parser) : Prop :=
  exists n0, forall n, (n0 <= n)%nat -> m (rec_at debug n) n p = Panic e.

Inductive loop_fails {A R} (e : string) (body : calls -> A -> P (A + R)) : parser -> A -> Prop :=
| loop_fails_now p a : fails e (fun rec => body rec a) p -> loop_fails e body p a
| loop_fails_next p a a' p' :
    rets debug (fun rec => body rec a) p (inl a') p' -> loop_fails e body p' a' -> loop_fails e body p a.

Section FailRules.
Context {A B : Type} (e : string).

Lemma fails_now (m : calls -> P A) (f : calls -> A -> P B) p :
  fails e m p -> fails e (fun rec => m rec ≫= f rec) p.
Proof.
  intros [n0 Hm]. exists n0. intros n Hn. unfold mbind, P_bind, mbind, st_bind. by rewrite Hm.
Qed.

Lemma fails_later (m : calls -> P A) (f : calls -> A -> P B) p a p' :
  rets debug m p a p' -> fails e (fun rec => f rec a) p' -> fails e (fun rec => m rec ≫= f rec) p.
Proof.
  intros [n1 H1] [n2 H2]. exists (max n1 n2). intros n Hn.
  unfold mbind, P_bind, mbind, st_bind. rewrite H1 by lia. by rewrite H2 by lia.
Qed.

Lemma fails_abort p : fails e (fun _ => abort (A := A) e) p.
Proof. by exists O. Qed.

Lemma fails_call (c : call A) p :
  fails e (fun rec => handler debug rec c) p -> fails e (fun rec => rec A c) p.
Proof. intros [n0 H0]. exists (S n0). intros [|n] Hn; [lia|]. apply (H0 n). lia. Qed.

Lemma fails_loop (body : calls -> A -> P (A + B)) p a :
  loop_fails e body p a -> fails e (fun rec => loop (body rec) a) p.
Proof.
  intros Hl. enough (exists n0 k, forall n rounds, (n0 <= n)%nat -> (k <= rounds)%nat ->
    loop_rounds rounds (fun a => body (rec_at debug n) a n) a p = Panic e) as (n0 & k & Hn).
  { exists (max n0 k). intros n Hnk. apply Hn; lia. }
  induction Hl as [p a [n0 H0]|p a a' p' [n0 H0] Hl (n1 & k & IH)].
  - exists n0, 1%nat. intros n [|rounds] Hn Hk; [lia|]. simpl.
    unfold mbind, st_bind. by rewrite H0 by lia.
  - exists (max n0 n1), (S k). intros n [|rounds] Hn Hk; [lia|]. simpl.
    unfold mbind, st_bind. rewrite H0 by lia. apply IH; lia.
Qed.
End FailRules.

(** ** Results for every fuel

    [ends E m p Q]: whatever the fuel, [m] panics with an error that [E] allows (out of fuel at
    least) or its result satisfies [Q].  With no result at all, it never returns. *)

Section EndsRules.
Context (E : string -> Prop) (HE : E out_of_fuel).

Definition ends_in {A} (Q : A -> parser -> Prop) (o : outcome (A * parser)) : Prop :=
  match o with Ok (a, q) => Q a q | Panic e => E e end.
Definition ends {A} (m : calls -> P A) (p : parser) (Q : A -> parser -> Prop) : Prop :=
  forall n, ends_in Q (m (rec_at debug n) n p).

Lemma ends_mono {A} (m : calls -> P A) p (R Q : A -> parser -> Prop) :
  ends m p R -> (forall a q, R a q -> Q a q) -> ends m p Q.
Proof. intros Hm HQ n. specialize (Hm n). destruct (m _ n p) as [[a q]|e]; [by apply HQ|done]. Qed.

Section Combinators.
Context {A B : Type}.

Lemma ends_ret (a : A) p (Q : A -> parser -> Prop) : Q a p -> ends (fun _ => mret a) p Q.
Proof. by intros HQ n. Qed.

Lemma ends_bind (m : calls -> P A) (f : calls -> A -> P B) p (Q : B -> parser -> Prop) :
  ends m p (fun a q => ends (fun rec => f rec a) q Q) -> ends (fun rec => m rec ≫= f rec) p Q.
Proof.
  intros Hm n. specialize (Hm n). cbv beta in Hm. unfold mbind, P_bind, mbind, st_bind.
  destruct (m _ n p) as [[a q]|e]; [by apply (Hm n)|done].
Qed.

Lemma ends_read (f : parser -> A) p (Q : A -> parser -> Prop) : Q (f p) p -> ends (fun _ => read f) p Q.
Proof. by intros HQ n. Qed.

Lemma ends_write (f : parser -> parser) p (Q : unit -> parser -> Prop) :
  Q tt (f p) -> ends (fun _ => write f) p Q.
Proof. by intros HQ n. Qed.

Lemma ends_call (c : call A) p (Q : A -> parser -> Prop) :
  ends (fun rec => handler debug rec c) p Q -> ends (fun rec => rec A c) p Q.
Proof. intros Hc [|n]; [done|]. exact (Hc n). Qed.

(** A loop that never ends: what holds of the variables and the parser at every round. *)
Lemma loop_hangs (I : A -> parser -> Prop) (body : calls -> A -> P (A + B)) a p (Q : B -> parser -> Prop) :
  (forall a p, I a p -> ends (fun rec => body rec a) p
     (fun r q => exists a', r = inl a' /\ I a' q)) ->
  I a p -> ends (fun rec => loop (body rec) a) p Q.
Proof.
  intros Hb HI n. enough (forall rounds a p, I a p ->
    ends_in Q (loop_rounds rounds (fun a => body (rec_at debug n) a n) a p)) as Hr by by apply Hr.
  clear a p HI. intros rounds.
  induction rounds as [|rounds IH]; intros a p HI; [exact HE|]. simpl. unfold mbind, st_bind.
  specialize (Hb a p HI n). cbv beta in Hb. destruct (body _ a n p) as [[r q]|e]; [|done].
  destruct Hb as (a' & -> & HI'). by apply IH.
Qed.

(** One whose first round never returns. *)
Lemma ends_loop_first (body : calls -> A -> P (A + B)) a p (Q : B -> parser -> Prop) :
  ends (fun rec => body rec a) p (fun _ _ => False) -> ends (fun rec => loop (body rec) a) p Q.
Proof.
  intros Hb n. specialize (Hb n). cbv beta in Hb. enough (forall rounds,
    ends_in Q (loop_rounds rounds (fun a => body (rec_at debug n) a n) a p)) as Hr by by apply Hr.
  intros [|rounds]; [exact HE|].
  simpl. unfold mbind, st_bind. by destruct (body _ a n p) as [[r q]|e].
Qed.
End Combinators.

Lemma ends_kind_is k p (Q : bool -> parser -> Prop) :
  Q (bool_decide (kind (token p) = k)) p -> ends (fun _ => kind_is k) p Q.
Proof. by intros HQ n. Qed.

Lemma ends_bump p (Q : unit -> parser -> Prop) : Q tt (eat p) -> ends (fun _ => bump) p Q.
Proof.
  intros HQ n. unfold bump, write, modify, eat in *. simpl. by destruct (cursor_next _).
Qed.

(** The current token and the cursor; an error changes neither. *)
Definition stays (p q : parser) : Prop := token q = token p /\ cursor q = cursor p.

Lemma ends_error expected t p (Q : unit -> parser -> Prop) :
  (forall q, stays p q -> Q tt q) -> ends (fun _ => struct_token_error expected t) p Q.
Proof. intros HQ. apply ends_write. by apply HQ. Qed.
End EndsRules.
End Rules.

(** A step of a method that leaves the token alone. *)
Ltac ends_step :=
  cbv beta iota zeta;
  lazymatch goal with
  | |- ends _ _ (fun _ => mbind _ _) _ _ => apply ends_bind
  | |- ends _ _ (fun _ => mret _) _ _ => apply ends_ret
  | |- ends _ _ (fun _ => read _) _ _ => apply ends_read
  | |- ends _ _ (fun _ => kind_is _) _ _ => apply ends_kind_is
  | |- ends _ _ (fun _ => bump) _ _ => apply ends_bump
  | |- ends _ _ (fun _ => whenp false _) _ _ => apply ends_ret
  end.

(** Tests of one keyword against another. *)
Ltac decide_symbols :=
  repeat match goal with
  | |- context [bool_decide (?a = ?b)] =>
      
      let r := eval vm_compute in (bool_decide (a = b)) in
      replace (bool_decide (a = b)) with r by (vm_compute; reflexivity)
  end.

Section Hangs.
Context (debug : bool) {UT : UnicodeTables} {BD : BigDigits} {SM : SourceMap}.
Context (E : string -> Prop) (HE : E out_of_fuel).

(** ** Lambdas *)

(** No name, and nothing that ends the parameters or follows a name. *)
Definition stray (t : Token) : Prop :=
  match kind t with
  | Ident _ | RArrow | OpenDelim _ | Newline | Eof | Dot | Colon | Assign | Comma => False
  | _ => True
  end.

Lemma ends_identifier_stray p (Q : Node Identifier -> parser -> Prop) :
  stray (token p) -> (forall i q, stays p q -> Q i q) -> ends debug E (fun _ => parse_identifier) p Q.
Proof.
  intros Hs HQ. unfold parse_identifier. ends_step. ends_step.
  assert (ident (token p) = None) as -> by (unfold stray in Hs; unfold ident; by destruct (kind (token p))).
  ends_step. apply ends_error. intros q Hq. unfold empty_node. repeat ends_step. by apply HQ.
Qed.

(** A round of [parse_parameters] at a stray token reads nothing. *)
Lemma parse_parameters_hangs p (Q : option (Node (Arguments_ Expr)) -> parser -> Prop) :
  stray (token p) ->
  ends debug E (fun rec => parse_parameters rec [] [RArrow; OpenDelim Brace] false) p Q.
Proof.
  intros Hs. unfold parse_parameters. ends_step. ends_step. simpl existsb. cbv beta iota zeta.
  ends_step. ends_step. rewrite bool_decide_true by done. simpl andb. cbv iota. ends_step.
  apply (loop_hangs debug E HE (fun _ q => stray (token q))); [|done].
  clear p Hs. intros args p Hs. ends_step. ends_step.
  assert (forall k, ~ stray (new_token k DUMMY_SP) -> bool_decide (kind (token p) = k) = false) as Hk.
  { intros k Hk. apply bool_decide_false. intros Ek. apply Hk. unfold stray in *. simpl. by rewrite <- Ek. }
  simpl existsb. rewrite (bool_decide_ext (RArrow = _) (kind (token p) = RArrow)) by done.
  rewrite (bool_decide_ext (OpenDelim Brace = _) (kind (token p) = OpenDelim Brace)) by done.
  rewrite !Hk by (intros []). simpl orb. cbv iota.
  ends_step. apply ends_identifier_stray; [done|]. intros i q [Hq _].
  ends_step. ends_step. ends_step. ends_step. rewrite Hq, Hk by (intros []). ends_step. ends_step.
  ends_step. ends_step. rewrite Hq, Hk by (intros []). ends_step. ends_step.
  ends_step. unfold bump_if. ends_step. ends_step. rewrite Hq, Hk by (intros []). ends_step.
  ends_step. eexists. split; [done|]. by rewrite Hq.
Qed.

Lemma ends_bump_keyword kw p (Q : unit -> parser -> Prop) :
  is_keyword (token p) kw = true -> Q tt (eat p) -> ends debug E (fun _ => bump_keyword kw) p Q.
Proof.
  intros Hk HQ. unfold bump_keyword. ends_step. ends_step. rewrite Hk. simpl negb.
  ends_step. ends_step. ends_step. done.
Qed.

(** A step into [parse_lambda_expr], from an expression. *)
Lemma ends_lambda p (Q : Node Expr -> parser -> Prop) :
  is_keyword (token p) kw_lambda = true ->
  ends debug E (fun rec => parse_lambda_expr rec) p (fun _ _ => False) ->
  ends debug E (fun rec => rec _ parse_expr_call) p Q.
Proof.
  intros Hk Hl. pose proof (is_keyword_true _ _ Hk) as El.
  apply ends_call; [done|]. simpl handler. unfold parse_expr_body. ends_step. ends_step. ends_step.
  apply ends_call; [done|]. simpl handler. unfold do_parse_simple_expr. ends_step. ends_step. ends_step.
  unfold parse_unary_expr. ends_step. ends_step.
  unfold unary_op_of. rewrite El, (is_keyword_ident _ _ kw_not El). decide_symbols. cbv iota.
  unfold parse_primary_expr. ends_step. ends_step. ends_step.
  unfold parse_operand_expr. ends_step. ends_step. rewrite El, !(is_keyword_ident _ _ _ El).
  decide_symbols. simpl orb. cbv iota. eapply ends_mono; [exact Hl|]. by intros.
Qed.
End Hangs.

Section Lambda.
Context (debug : bool) {UT : UnicodeTables} {BD : BigDigits} {SM : SourceMap}.

(** a lambda whose parameters begin with anything but a name ([lambda 1], [lambda *args],
    [lambda )]) hangs the parser: [parse_parameters] reports an error, reads nothing and tries
    the same token again, so that [parse_expr] does not return, whatever the fuel. *)
Theorem lambda_parameters_hang p t :
  is_keyword (token p) kw_lambda = true -> cursor_peek (cursor p) = Some t -> stray t ->
  forall n, parse_expr debug n p = Panic out_of_fuel.
Proof.
  intros Hk Ht Hs n.
  enough (ends debug (eq out_of_fuel) (fun rec => rec _ parse_expr_call) p (fun _ _ => False)) as Hu.
  { specialize (Hu n). unfold parse_expr. unfold rec_at in Hu. by destruct (run _ n _ _ p) as [[? ?]|e]; simpl in Hu; subst. }
  apply ends_lambda; [done..|].
  unfold parse_lambda_expr. ends_step. ends_step. ends_step. apply ends_bump_keyword; [done|].
  ends_step. apply ends_read. rewrite (eat_peek _ _ Ht). ends_step.
  pose proof (eat_peek _ _ Ht) as Hp.
  assert (stray (token (eat p))) as Hs' by by rewrite Hp.
  unfold stray in Hs. destruct (kind t) as [| | | | | | | | | | | | |d|d| | | | | | | |]; try done;
    by apply parse_parameters_hangs.
Qed.
End Lambda.

(** ** Blocks that are not indented *)

Section Blocks.
Context (debug : bool) {UT : UnicodeTables} {BD : BigDigits} {SM : SourceMap}.

(** Methods whose result does not depend on the fuel, and methods that keep the frame. *)
Definition settled {A} (m : calls -> P A) : Prop :=
  forall rec rec', related_calls (PL := fuel_logic) rec rec' ->
    related (ParserLogic := fuel_logic) (m rec) (m rec').
Definition framed {A} (m : calls -> P A) : Prop :=
  forall rec, related_calls (PL := frame_logic) rec rec ->
    related (ParserLogic := frame_logic) (m rec) (m rec).

Lemma ends_rets E {A} (m : calls -> P A) p a q (Q : A -> parser -> Prop) :
  E out_of_fuel -> settled m -> rets debug m p a q -> Q a q -> ends debug E m p Q.
Proof.
  intros HE Hm [n0 Hr] HQ n. specialize (Hr (max n n0) ltac:(lia)).
  destruct (Hm (rec_at debug n) (rec_at debug (max n n0))) with (n := n) (n' := max n n0) (p := p)
    as [->|Heq]; [|lia|done|].
  - intros B c m1 m2 p' _. apply run_settles. lia.
  - rewrite <- Heq. by rewrite Hr.
Qed.

Lemma ends_later {A} (m : calls -> P A) p (Q : A -> parser -> Prop) :
  framed m -> (forall a q, later p q -> Q a q) -> ends debug (fun _ => True) m p Q.
Proof.
  intros Hm HQ n. destruct (m _ n p) as [[a q]|e] eqn:Em; [|done]. apply HQ.
  refine (Hm (rec_at debug n) _ n p a q Em). intros B c n' p' b q' Hb. exact (run_keeps debug n B c p' b q' Hb).
Qed.

(** What the parser after [p] may still be at. *)
Lemma later_remaining p q : later p q -> token q ∈ remaining p.
Proof. intros []. unfold remaining. apply elem_of_cons. naive_solver. Qed.

(** Without a dedent ahead, a block does not end. *)
Lemma block_hangs p (Q : list (Node Stmt) -> parser -> Prop) :
  Forall (fun t => kind t <> Dedent) (remaining p) ->
  ends debug (fun _ => True) (fun rec => parse_block_stmt_list rec Indent Dedent) p Q.
Proof.
  intros Hd. unfold parse_block_stmt_list.
  ends_step. apply ends_later; [intros rec _; apply (bump_token_related (PL := frame_logic))|].
  intros _ p1 H1. ends_step.
  apply (loop_hangs debug _ I (fun _ q => later p q)); [|done].
  clear p1 H1. intros stmts p1 H1. ends_step. ends_step.
  rewrite bool_decide_false by (rewrite Forall_forall in Hd; by apply Hd, later_remaining).
  ends_step. apply ends_later; [intros rec Hrec; apply Hrec|]. intros [s|] q Hq; cbv beta iota.
  - ends_step. eexists. split; [done|]. by etrans.
  - ends_step. apply ends_later; [intros rec _; apply related_bump|]. intros _ q' Hq'.
    ends_step. eexists. split; [done|]. by etrans; [|etrans].
Qed.
Lemma ends_skip_no_newlines p (Q : unit -> parser -> Prop) :
  kind (token p) <> Newline -> Q tt p -> ends debug (fun _ => True) (fun _ => skip_newlines) p Q.
Proof.
  intros Hk HQ. eapply ends_rets; [done| |by eapply (rets_skip_newlines debug p []); [|constructor|]|done].
  intros rec rec' _. apply (skip_newlines_related (PL := fuel_logic)).
Qed.

(** An [if] whose condition is followed by a colon and a newline. *)
Lemma if_stmt_hangs p t ts cond u v rest (Q : Node Stmt -> parser -> Prop) :
  is_keyword t kw_if = true -> expr debug ts cond -> kind u = Colon -> kind v = Newline ->
  Forall (fun t => kind t <> Dedent) rest -> remaining p = t :: ts ++ u :: v :: rest ->
  ends debug (fun _ => True) (fun rec => parse_if_stmt rec) p Q.
Proof.
  intros Ht He Hu Hv Hd Hp.
  destruct (remaining_reads p [t] (default u (head ts)) (tail (ts ++ [u]) ++ v :: rest)) as (p1 & Hr1 & Hp1).
  { rewrite Hp. by destruct ts; simpl; [|rewrite <- app_assoc]. }
  assert (remaining p1 = ts ++ u :: v :: rest) as Hp1'.
  { rewrite Hp1. by destruct ts; simpl; [|rewrite <- app_assoc]. }
  apply reads_one in Hr1 as [Htok ->].
  destruct (expr_parsed debug ts cond (eat p) u (v :: rest)) as (q & _ & Hq & Hn);
    [done|unfold punctuation; by rewrite Hu|done|].
  unfold parse_if_stmt. ends_step. ends_step. ends_step. apply ends_bump_keyword; [by rewrite Htok|].
  ends_step. eapply (ends_rets _ _ _ cond q); [done|intros rec rec' Hrec; apply Hrec|exact Hn|].
  apply remaining_eat in Hq as (Hq & _ & Hq'). ends_step.
  eapply ends_rets; [done|intros rec rec' _; apply (bump_token_related (PL := fuel_logic))|
    apply rets_bump_token; by rewrite Hq|].
  ends_step. unfold parse_if_body. ends_step. ends_step.
  assert (token (eat q) = v) as Hqv by by (unfold remaining in Hq'; simplify_eq).
  rewrite bool_decide_true by by rewrite Hqv. simpl negb. ends_step.
  apply ends_later; [intros rec _; apply (skip_newlines_related (PL := frame_logic))|].
  intros _ q' Hl. apply block_hangs. apply Forall_forall. intros w Hw.
  assert (w ∈ remaining (eat q)) as Hin.
  { destruct Hl. unfold remaining in *. apply elem_of_cons in Hw as [->|Hw]; [apply elem_of_cons; naive_solver|].
    apply elem_of_cons. right. rewrite later_stream in Hw.
    replace (index (cursor q')) with (index (cursor (eat q)) + (index (cursor q') - index (cursor (eat q))))%nat in Hw by lia.
    rewrite <- drop_drop in Hw. apply list_elem_of_lookup in Hw as [i Hi]. rewrite lookup_drop in Hi.
    by eapply list_elem_of_lookup_2. }
  rewrite Hq' in Hin. apply elem_of_cons in Hin as [->|Hin]; [by rewrite Hv|].
  rewrite Forall_forall in Hd. by apply Hd.
Qed.

(** C18: a module that begins with [if c:] and a newline, for any expression [c], and then a
    block that is not indented (so that no dedent follows), is never parsed: neither the
    statement after the colon nor the end of the file ends the block, and no fuel is enough. *)
Theorem if_block_not_indented p t ts cond u v rest :
  is_keyword t kw_if = true -> expr debug ts cond -> kind u = Colon -> kind v = Newline ->
  Forall (fun t => kind t <> Dedent) rest -> remaining p = t :: ts ++ u :: v :: rest ->
  forall n m q, parse_module debug n p <> Ok (m, q).
Proof.
  intros Ht He Hu Hv Hd Hp n m q Hm. destruct n as [|n]; [discriminate Hm|].
  assert (token p = t) as Htok by by (unfold remaining in Hp; simplify_eq).
  pose proof (is_keyword_true _ _ Ht) as Hk.
  enough (ends debug (fun _ => True) (fun rec => parse_module_body debug rec) p (fun _ _ => False)) as Hu'.
  { specialize (Hu' n). unfold parse_module in Hm. unfold rec_at in Hu'. by rewrite Hm in Hu'. }
  clear n m q Hm. unfold parse_module_body. ends_step. unfold parse_doc. ends_step. apply ends_read.
  rewrite Htok, Hk. ends_step. ends_step. unfold parse_body. apply (ends_loop_first debug _ I).
  unfold is_eof. ends_step. ends_step. rewrite Htok, Hk, bool_decide_false by done. ends_step.
  apply ends_call; [done|]. simpl handler. unfold parse_stmt_body. ends_step.
  apply ends_skip_no_newlines; [by rewrite Htok, Hk|]. ends_step. unfold is_eof. ends_step.
  rewrite Htok, Hk, bool_decide_false by done. ends_step. unfold parse_compound_stmt. ends_step.
  apply ends_skip_no_newlines; [by rewrite Htok, Hk|]. ends_step. ends_step.
  rewrite Htok, Hk, bool_decide_false by done. rewrite Ht. ends_step.
  by eapply if_stmt_hangs.
Qed.
End Blocks.

(** ** A third colon in a subscript *)

Section Slices.
Context (debug : bool) {UT : UnicodeTables} {BD : BigDigits} {SM : SourceMap}.

Definition index_out_of_bounds : string := "index out of bounds".

(** The tokens of a subscript up to its third colon, from where [i] colons were read: with
    [may] one expression may still be among them (with two, the five rounds of the loop end
    before what follows the third colon is read). *)
Inductive third_colon : nat -> bool -> list Token -> Prop :=
| third_colon_now may : third_colon 3 may []
| third_colon_colon i may c l :
    (i < 3)%nat -> kind c = Colon -> third_colon (S i) may l -> third_colon i may (c :: l)
| third_colon_expr i ts e l :
    (i < 3)%nat -> expr debug ts e -> third_colon i false l -> third_colon i true (ts ++ l).

(** The rounds and colons that the loop has counted. *)
Definition counted (i : nat) (may : bool) (s : slice_state) : Prop :=
  round s = Z.of_nat i + (if may then 0 else 1) /\ expr_index s = i /\ colon_counter s = Z.of_nat i /\
  length (parts s) = 3%nat.

(** The tokens are the same after an error. *)
Lemma rets_error b (m : P unit) p :
  (exists q, rets debug (fun _ => m) p tt q /\ remaining q = remaining p) ->
  exists q, rets debug (fun _ => whenp b m) p tt q /\ remaining q = remaining p.
Proof. intros Hm. destruct b; [done|]. exists p. split; [apply rets_ret|done]. Qed.
Lemma remaining_error expected p : exists q,
  rets debug (fun _ => t ← read token; struct_token_error expected t) p tt q /\ remaining q = remaining p.
Proof.
  eexists. split; [|shelve]. eapply rets_bind; [apply rets_read|]. cbv beta. by exists O.
  Unshelve. done.
Qed.
Lemma remaining_message msg p : exists q,
  rets debug (fun _ => t ← read token; struct_span_error msg (tok_span t)) p tt q /\ remaining q = remaining p.
Proof.
  eexists. split; [|shelve]. eapply rets_bind; [apply rets_read|]. cbv beta. by exists O.
  Unshelve. done.
Qed.
Lemma remaining_span_error msg span p : exists q,
  rets debug (fun _ => struct_span_error msg span) p tt q /\ remaining q = remaining p.
Proof. eexists. split; [by exists O|done]. Qed.

(** The kind of the token an expression begins with. *)
Lemma expr_begins ts e p q : expr debug ts e -> reads p ts q ->
  match kind (token p) with
  | Comma | Newline | Dedent | Eof | CloseDelim _ | Colon | Dot | Indent => False
  | _ => True
  end.
Proof.
  intros He Hr. pose proof (proj1 (proj2 (proj1 (grammar_ok debug) _ _ He))) as Hb.
  apply item_starts_kind. by eapply starts_item_reads; [apply begins_item|].
Qed.

Lemma third_colon_punctuation i l : third_colon i false l -> (i < 3)%nat ->
  exists c l', l = c :: l' /\ punctuation c = true.
Proof.
  intros Hl Hi. inversion Hl as [|? ? c l' _ Hc _|]; subst; [lia|].
  exists c, l'. split; [done|]. unfold punctuation. by rewrite Hc.
Qed.

Lemma subscript_four_parts s p ts e u rest :
  counted 3 true s \/ counted 3 false s ->
  expr debug ts e -> punctuation u = true -> remaining p = ts ++ u :: rest ->
  fails debug index_out_of_bounds (fun rec => subscript_round rec s) p.
Proof.
  intros Hs He Hu Hp. destruct (expr_parsed debug ts e p u rest He Hu Hp) as (q & Hr & Hq & Hn).
  pose proof (expr_begins _ _ _ _ He Hr) as Hk.
  assert (round s <=? 4 = true /\ expr_index s = 3%nat /\ length (parts s) = 3%nat /\ (round s =? 1) = false)
    as (Hround & Hi & Hl & H1) by (unfold counted in Hs; destruct Hs as [(-> & -> & _ & ->)|(-> & -> & _ & ->)]; done).
  unfold subscript_round. rewrite Hround. simpl negb. cbv iota.
  eapply fails_later; [apply rets_read|]. cbv beta. rewrite H1, andb_false_r, Hi, Hl. simpl Nat.ltb.
  destruct (kind (token p)); try done;
    (eapply fails_later; [apply rets_ret|]); (eapply fails_later; [exact Hn|]); apply fails_now, fails_abort.
Qed.

Lemma round_colon i may s p c l :
  counted i may s -> (i < 3)%nat -> kind c = Colon -> (exists v vs, l = v :: vs) -> remaining p = c :: l ->
  exists s' q, counted (S i) may s' /\ remaining q = l /\
    rets debug (fun rec => subscript_round rec s) p (inl s') q.
Proof.
  intros (Hr & Hi & Hc & Hl) Hlt Hk (v & vs & ->) Hp. apply remaining_eat in Hp as (Ht & _ & Hp).
  destruct (rets_error (2 <? colon_counter s + 1) _ (eat p)
    (remaining_error [txt "expression"; kind_text (CloseDelim Bracket)] (eat p))) as (q & Hq & Hrem).
  eexists _, q. split; [|split; [by rewrite Hrem|]].
  2: { unfold subscript_round. replace (round s <=? 4) with true by (destruct may; lia). simpl negb. cbv iota.
       eapply rets_bind; [apply rets_read|]. cbv beta. rewrite Ht, Hk.
       eapply rets_bind; [apply rets_bump|]. eapply rets_bind; [exact Hq|]. apply rets_ret. }
  unfold counted. simpl. split_and!; [lia|lia|lia|done].
Qed.

Lemma round_expr i s p ts e l :
  counted i true s -> (i < 3)%nat -> expr debug ts e ->
  (exists u vs, l = u :: vs /\ punctuation u = true) -> remaining p = ts ++ l ->
  exists s' q, counted i false s' /\ remaining q = l /\
    rets debug (fun rec => subscript_round rec s) p (inl s') q.
Proof.
  intros (Hr & Hi & Hc & Hl) Hlt He (u & vs & -> & Hu) Hp. cbn iota in Hr.
  set (b := negb (is_slice s) && (round s =? 1)).
  destruct (rets_error b _ p (remaining_span_error (txt "a list should have only one expr") (tok_span (token p)) p))
    as (p1 & Hp1 & Hrem1).
  destruct (expr_parsed debug ts e p1 u vs He Hu) as (q & Hreads & Hq & Hn); [by rewrite Hrem1|].
  destruct (rets_error (1 <? exprs_consecutive s + 1) _ q (remaining_message (txt "consecutive exprs found") q))
    as (q1 & Hq1 & Hrem2).
  pose proof (expr_begins _ _ _ _ He Hreads) as Hk.
  assert (token p1 = token p) as Htok by (unfold remaining in Hrem1; by simplify_eq).
  rewrite Htok in Hk.
  eexists _, q1. split; [|split; [by rewrite Hrem2|]].
  2: { unfold subscript_round. replace (round s <=? 4) with true by lia. simpl negb. cbv iota.
       eapply rets_bind; [apply rets_read|]. cbv beta. rewrite Hi, Hl. rewrite (proj2 (Nat.ltb_lt i 3) Hlt).
       destruct (kind (token p)); try done; (eapply rets_bind; [exact Hp1|]); (eapply rets_bind; [exact Hn|]);
         (eapply rets_bind; [apply rets_ret|]); (eapply rets_bind; [exact Hq1|]); apply rets_ret. }
  unfold counted. simpl. rewrite length_insert. split_and!; [lia|lia|lia|done].
Qed.

Lemma third_colon_fails i may l ts e u rest :
  third_colon i may l -> expr debug ts e -> punctuation u = true ->
  forall s p, counted i may s -> remaining p = l ++ ts ++ u :: rest ->
  loop_fails debug index_out_of_bounds subscript_round p s.
Proof.
  intros Hl He Hu. assert (forall l, exists v vs, l ++ ts ++ u :: rest = v :: vs) as Hshape
    by (intros [|v l']; simpl; [destruct ts; simpl|]; eauto).
  induction Hl as [may|i may c l Hi Hc Hl IH|i ts' e' l Hi He' Hl IH]; intros s p Hs Hp.
  - apply loop_fails_now. eapply subscript_four_parts; [|done..]. destruct may; auto.
  - destruct (round_colon i may s p c (l ++ ts ++ u :: rest)) as (s' & q & Hs' & Hq & Hn); [done..|].
    eapply loop_fails_next; [exact Hn|]. by apply IH.
  - destruct (third_colon_punctuation _ _ Hl Hi) as (c & l' & -> & Hc).
    destruct (round_expr i s p ts' e' ((c :: l') ++ ts ++ u :: rest)) as (s' & q & Hs' & Hq & Hn); [done..| |by rewrite app_assoc|].
    { simpl. eauto. }
    eapply loop_fails_next; [exact Hn|]. by apply IH.
Qed.

(** C19: indexing a literal, a list, a configuration or a parenthesised expression panics in
    the parser, when an expression follows the third colon and at most one is before it, as in
    [\[1\]\[:::x\]] and [\[1\]\[::2:x\]]: the part after the
    third colon would be the fourth of a slice of three, and the error that is reported at the
    colon does not stop the loop. *)
Theorem slice_third_colon_panics p ts x b pre ts' e u rest :
  operand_of debug ts x -> kind b = OpenDelim Bracket ->
  third_colon 0 true pre -> expr debug ts' e -> punctuation u = true ->
  remaining p = ts ++ b :: pre ++ ts' ++ u :: rest ->
  exists n0, forall n, (n0 <= n)%nat -> parse_expr debug n p = Panic index_out_of_bounds.
Proof.
  intros Hx Hb Hpre He Hu Hp.
  destruct (remaining_reads p ts b (pre ++ ts' ++ u :: rest) Hp) as (p1 & Hr & Hp1).
  assert (exists v vs, pre ++ ts' ++ u :: rest = v :: vs) as (v & vs & Hv)
    by (destruct pre; simpl; [destruct ts'; simpl|]; eauto).
  rewrite Hv in Hp1. apply remaining_eat in Hp1 as (Hb1 & _ & Hp1). rewrite <- Hv in Hp1.
  destruct (proj1 (proj2 (proj2 (proj2 (proj2 (proj2 (grammar_ok debug)))))) _ _ Hx)
    as [(Ho & (t & us & -> & _) & _) Hun].
  specialize (Hun _ _ eq_refl). pose proof Hr as Hr'. apply reads_inv in Hr' as (Htok & _ & _).
  enough (fails debug index_out_of_bounds (fun rec => rec _ parse_expr_call) p) as [n0 Hn] by (by exists n0).
  apply fails_call. simpl handler. unfold parse_expr_body.
  eapply fails_later; [apply rets_read|]. apply fails_now, fails_call. simpl handler.
  unfold do_parse_simple_expr. eapply fails_later; [apply rets_read|]. apply fails_now.
  unfold parse_unary_expr. eapply fails_later; [apply rets_read|]. cbv beta. rewrite Htok, Hun.
  unfold parse_primary_expr. eapply fails_later; [apply rets_read|].
  eapply fails_later; [by apply Ho|]. apply fails_loop, loop_fails_now. unfold primary_suffix.
  eapply fails_later; [apply rets_read|]. eapply fails_later; [apply rets_read|]. cbv beta.
  rewrite Hb1, Hb. apply fails_now. unfold parse_subscript_expr.
  eapply fails_later; [apply rets_kind_is, bool_decide_false; by rewrite Hb1, Hb|].
  eapply fails_later; [apply rets_ret|].
  eapply fails_later; [apply rets_bump_or_error; by rewrite Hb1|].
  apply fails_now, fails_loop. by apply (third_colon_fails 0 true pre ts' e u rest).
Qed.
End Slices.

(** ** Integer literals as types *)

Section LiteralTypes.
Context (debug : bool) {UT : UnicodeTables} {BD : BigDigits} {SM : SourceMap}.

(** an integer literal as a type must be written in decimal digits that fit 64 bits: the
    other integers of the language ([0x10], [1_000], [9223372036854775808]) are unwrapped from
    an error, so that the parser panics where a type is expected, whatever follows. *)
Theorem integer_type_panics p lk n :
  kind (token p) = Literal lk -> lit_kind lk = Integer -> i64_parse (lit_symbol lk) = None ->
  run debug (S n) _ parse_type_annotation_call p = Panic unwrap_err.
Proof.
  intros Hk Hi Hn.
  assert (forall kw, is_keyword (token p) kw = false) as Hkw
    by (intros kw; apply is_keyword_other; intros s Hs; by rewrite Hs in Hk).
  assert (list_find (fun kt => is_keyword (token p) kt.1 = true) keyword_types = None) as Hf.
  { apply list_find_None, Forall_forall. intros kt _. by rewrite Hkw. }
  simpl run. unfold handler, parse_type_annotation_body, parse_type_element.
  unfold mbind, P_bind, mbind, st_bind, read, gets. rewrite Hf, Hk.
  unfold parse_literal_type. by rewrite Hi, Hn.
Qed.
End LiteralTypes.

(** ** Examples *)

Definition parser_at (ks : list TokenKind) : parser :=
  let ts := map (fun k => new_token k DUMMY_SP) ks in
  mkParser (default dummy (head ts)) dummy {| stream := ts; index := 1 |} [] [].
Definition integer (s : string) : TokenKind :=
  Literal {| lit_kind := Integer; lit_symbol := txt s; suffix := None; raw := None |}.

Definition token_a : Token := new_token (Ident (txt "a")) DUMMY_SP.
Lemma example_a : exists e, expr true (BD := plain_digits) (SM := example_map) [token_a] e.
Proof.
  eexists. eapply expr_simple. apply (simple_name true Lowest token_a (txt "a")); [done|].
  vm_compute. set_solver.
Qed.

(** [lambda 1] *)
Lemma lambda_parameters_hang_witness :
  stray (new_token (integer "1") DUMMY_SP) /\
  parse_expr true 100 (parser_at [Ident kw_lambda; integer "1"; Newline; Eof])
    (H := ascii_tables) (H0 := plain_digits) (H1 := example_map) = Panic out_of_fuel.
Proof.
  split; [exact I|].
  by apply (lambda_parameters_hang true _ (new_token (integer "1") DUMMY_SP)).
Defined.

(** [if a:] and [b] on the next line, not indented. *)
Definition not_indented : parser :=
  parser_at [Ident kw_if; Ident (txt "a"); Colon; Newline; Ident (txt "b"); Newline; Eof].
Lemma if_block_not_indented_witness : ~ exists m q,
  parse_module true 100 not_indented
    (H := ascii_tables) (H0 := plain_digits) (H1 := example_map) = Ok (m, q).
Proof.
  intros (m & q & Hm). destruct example_a as [e Ha].
  refine (if_block_not_indented true (UT := ascii_tables) (BD := plain_digits) (SM := example_map)
    not_indented (new_token (Ident kw_if) DUMMY_SP) [token_a] e
    (new_token Colon DUMMY_SP) (new_token Newline DUMMY_SP)
    [new_token (Ident (txt "b")) DUMMY_SP; new_token Newline DUMMY_SP; new_token Eof DUMMY_SP]
    _ _ _ _ _ _ 100%nat m q Hm).
  - reflexivity.
  - exact Ha.
  - reflexivity.
  - reflexivity.
  - repeat (constructor; [discriminate|]). constructor.
  - reflexivity.
Defined.

(** [1[::a:a]] *)
Lemma slice_third_colon_panics_witness : exists n0, forall n, (n0 <= n)%nat ->
  parse_expr true n
    (parser_at [integer "1"; OpenDelim Bracket; Colon; Colon; Ident (txt "a"); Colon; Ident (txt "a");
                CloseDelim Bracket; Newline; Eof])
    (H := ascii_tables) (H0 := plain_digits) (H1 := example_map) = Panic index_out_of_bounds.
Proof.
  destruct example_a as [e Ha].
  refine (slice_third_colon_panics true (UT := ascii_tables) (BD := plain_digits) (SM := example_map)
    _ [new_token (integer "1") DUMMY_SP] _ (new_token (OpenDelim Bracket) DUMMY_SP)
    ([new_token Colon DUMMY_SP; new_token Colon DUMMY_SP; token_a; new_token Colon DUMMY_SP])
    [token_a] e (new_token (CloseDelim Bracket) DUMMY_SP)
    [new_token Newline DUMMY_SP; new_token Eof DUMMY_SP] _ _ _ _ _ _).
  - eapply (operand_integer true _ _ 1); reflexivity.
  - reflexivity.
  - apply third_colon_colon; [lia|reflexivity|]. apply third_colon_colon; [lia|reflexivity|].
    apply (third_colon_expr true 2 [token_a] e [new_token Colon DUMMY_SP]); [lia|exact Ha|].
    apply third_colon_colon; [lia|reflexivity|]. apply third_colon_now.
  - exact Ha.
  - reflexivity.
  - reflexivity.
Defined.

(** [0x10] *)
Lemma integer_type_panics_witness :
  run true 5 _ parse_type_annotation_call (parser_at [integer "0x10"; Newline; Eof])
    (H := ascii_tables) (H0 := plain_digits) (H1 := example_map) = Panic unwrap_err.
Proof. by apply (integer_type_panics true _ {| lit_kind := Integer; lit_symbol := txt "0x10"; suffix := None; raw := None |} 4). Defined.
