(* ===== verification/Value.v ===== *)
(** * Runtime values: data, kinds and conversions

    Models [kclvm/runtime/src/api/kclvm.rs] (the value types) and
    [kclvm/runtime/src/value/{val_kind,val_as_val,val_is_in,val_logic,val_len}.rs].

    [Value V] is one level of a runtime value over references of type [V]: the operations
    that only look at one level are defined on it, for every [V].  A [ValueRef] that is
    only read is the tree of the values it reaches ([value]); the operations that write
    through references are in [ValueHeap]. *)

From S2P Require Import Prelude MachineInt Floats Chars Utf8.

(** ** Data *)

Inductive ConfigEntryOperationKind := Union | Override | Insert.

#[export] Instance op_eq_dec : EqDecision ConfigEntryOperationKind.
Proof. solve_decision. Defined.

#[local] Unset Elimination Schemes.

Record DictValue (V : Type) := mkDict {
  values : list (string * V);
  ops : list (string * ConfigEntryOperationKind);
  insert_indexs : list (string * Z);
  attr_map : list (string * string);
}.
Arguments mkDict {V}.
Arguments values {V}.
Arguments ops {V}.
Arguments insert_indexs {V}.
Arguments attr_map {V}.

Record SchemaValue (V : Type) := mkSchema {
  name : string;
  pkgpath : string;
  config : DictValue V;
  config_keys : list string;
  config_meta : V;
  optional_mapping : V;
}.
Arguments mkSchema {V}.
Arguments name {V}.
Arguments pkgpath {V}.
Arguments config {V}.
Arguments config_keys {V}.
Arguments config_meta {V}.
Arguments optional_mapping {V}.

Record FuncValue (V : Type) := mkFunc {
  fn_ptr : Z;
  check_fn_ptr : Z;
  closure : V;
  func_name : string;
  runtime_type : string;
  is_external : bool;
}.
Arguments mkFunc {V}.
Arguments fn_ptr {V}.
Arguments check_fn_ptr {V}.
Arguments closure {V}.
Arguments func_name {V}.
Arguments runtime_type {V}.
Arguments is_external {V}.

Inductive Value (V : Type) :=
| undefined
| none
| bool_value (v : bool)
| int_value (v : Z)
| float_value (v : f64)
| str_value (v : string)
| list_value (v : list V)
| dict_value (v : DictValue V)
| schema_value (v : SchemaValue V)
| func_value (v : FuncValue V)
| unit_value (real : f64) (raw : Z) (unit : string).
Arguments undefined {V}.
Arguments none {V}.
Arguments bool_value {V}.
Arguments int_value {V}.
Arguments float_value {V}.
Arguments str_value {V}.
Arguments list_value {V}.
Arguments dict_value {V}.
Arguments schema_value {V}.
Arguments func_value {V}.
Arguments unit_value {V}.

(** The tree below a reference that is only read. *)
Inductive value := mkValue (v : Value value).

#[local] Set Elimination Schemes.

Definition get (x : value) : Value value := let 'mkValue v := x in v.

Inductive Kind :=
| KUndefined | KNone | KBool | KInt | KFloat | KStr | KList | KDict | KSchema | KUnit | KFunc.

#[export] Instance kind_eq_dec : EqDecision Kind.
Proof. solve_decision. Defined.

Record ContextConfig := mkConfig {
  debug_mode : bool;
  strict_range_check : bool;
}.

(** ** One-level operations *)

Section Shallow.
Context {V : Type}.
Implicit Types v : Value V.

Definition default_dict : DictValue V := mkDict [] [] [] [].

Definition kind v : Kind :=
  match v with
  | undefined => KUndefined
  | none => KNone
  | bool_value _ => KBool
  | int_value _ => KInt
  | float_value _ => KFloat
  | str_value _ => KStr
  | list_value _ => KList
  | dict_value _ => KDict
  | schema_value _ => KSchema
  | func_value _ => KFunc
  | unit_value _ _ _ => KUnit
  end.

Definition type_str v : string :=
  match v with
  | undefined => "UndefinedType"
  | none => "NoneType"
  | bool_value _ => "bool"
  | int_value _ => "int"
  | float_value _ => "float"
  | unit_value _ raw suffix => "number_multiplier(" +:+ pretty raw +:+ suffix +:+ ")"
  | str_value _ => "str"
  | list_value _ => "list"
  | dict_value _ => "dict"
  | schema_value s => name s
  | func_value _ => "function"
  end.

Definition is_undefined v : bool := match v with undefined => true | _ => false end.
Definition is_none v : bool := match v with none => true | _ => false end.
Definition is_bool v : bool := bool_decide (kind v = KBool).
Definition is_int v : bool := bool_decide (kind v = KInt).
Definition is_float v : bool := bool_decide (kind v = KFloat).
Definition is_str v : bool := bool_decide (kind v = KStr).
Definition is_list v : bool := bool_decide (kind v = KList).
Definition is_dict v : bool := bool_decide (kind v = KDict).
Definition is_schema v : bool := bool_decide (kind v = KSchema).
Definition is_number v : bool :=
  match v with int_value _ | float_value _ => true | _ => false end.
Definition is_config v : bool :=
  match v with schema_value _ | dict_value _ => true | _ => false end.
Definition is_list_or_config v : bool :=
  match v with list_value _ | schema_value _ | dict_value _ => true | _ => false end.
Definition is_func v : bool := bool_decide (kind v = KFunc).
Definition is_none_or_undefined v : bool :=
  match v with none | undefined => true | _ => false end.
Definition is_unit v : bool := match v with unit_value _ _ _ => true | _ => false end.

Definition is_truthy v : bool :=
  match v with
  | undefined => false
  | none => false
  | bool_value b => b
  | int_value z => negb (z =? 0)
  | float_value x => negb (f64_eqb x f64_zero)
  | str_value s => negb (bool_decide (s = ""))
  | list_value l => match l with [] => false | _ => true end
  | dict_value d => match values d with [] => false | _ => true end
  | schema_value s => match values (config s) with [] => false | _ => true end
  | func_value _ => true
  | unit_value real _ _ => negb (f64_eqb real f64_zero)
  end.

Definition logic_and v w : bool := is_truthy v && is_truthy w.
Definition logic_or v w : bool := is_truthy v || is_truthy w.

Definition as_bool v : bool := is_truthy v.
Definition as_int v : Z :=
  match v with
  | int_value z => z
  | float_value x => f64_as_i64 x
  | unit_value real _ _ => f64_as_i64 real
  | _ => 0
  end.
Definition as_float v : f64 :=
  match v with
  | int_value z => f64_of_Z z
  | float_value x => x
  | unit_value real _ _ => real
  | _ => f64_zero
  end.
Definition as_str v : string := match v with str_value s => s | _ => "" end.

Definition as_list_ref v : outcome (list V) :=
  match v with list_value l => Ok l | _ => Panic "invalid list value" end.
Definition as_dict_ref v : outcome (DictValue V) :=
  match v with
  | dict_value d => Ok d
  | schema_value s => Ok (config s)
  | _ => Panic "invalid dict value"
  end.
Definition as_unit v : outcome (f64 * Z * string) :=
  match v with
  | unit_value real raw unit => Ok (real, raw, unit)
  | _ => Panic "invalid unit value"
  end.

(** [str::len] counts bytes. *)
Definition len v : outcome nat :=
  match v with
  | str_value s => Ok (String.length s)
  | list_value l => Ok (length l)
  | dict_value d => Ok (length (values d))
  | schema_value s => Ok (length (values (config s)))
  | _ => Panic ("object of type '" +:+ type_str v +:+ "' has no len()")
  end.
Definition is_empty v : outcome bool := n ← len v; Ok (Nat.eqb n 0).

Definition has_key v (key : string) : bool :=
  match v with
  | dict_value d => im_contains key (values d)
  | schema_value s => im_contains key (values (config s))
  | _ => false
  end.

End Shallow.

(** ** Induction on value trees *)

Section Induction.
Context (P : value -> Prop).

(** The property at the references of one level. *)
Definition all_dict {V} (Q : V -> Prop) (d : DictValue V) : Prop :=
  Forall (fun kv => Q kv.2) (values d).
Definition all_refs {V} (Q : V -> Prop) (v : Value V) : Prop :=
  match v with
  | list_value l => Forall Q l
  | dict_value d => all_dict Q d
  | schema_value s => all_dict Q (config s) /\ Q (config_meta s) /\ Q (optional_mapping s)
  | func_value f => Q (closure f)
  | _ => True
  end.

Definition forall_list {A} (Q : A -> Prop) (f : forall a, Q a) : forall l, Forall Q l :=
  fix go l := match l with [] => Forall_nil_2 _ | a :: l' => Forall_cons_2 _ a l' (f a) (go l') end.

Context (step : forall v, all_refs P v -> P (mkValue v)).

Fixpoint value_ind (x : value) : P x :=
  match x with
  | mkValue v =>
      step v
        match v return all_refs P v with
        | list_value l => forall_list P value_ind l
        | dict_value d => forall_list (fun kv => P kv.2) (fun kv => value_ind kv.2) (values d)
        | schema_value s =>
            conj (forall_list (fun kv => P kv.2) (fun kv => value_ind kv.2) (values (config s)))
                 (conj (value_ind (config_meta s)) (value_ind (optional_mapping s)))
        | func_value f => value_ind (closure f)
        | _ => I
        end
  end.
End Induction.

(** ** Building values ([val.rs]) *)

Definition v_int (z : Z) : value := mkValue (int_value z).
Definition v_float (x : f64) : value := mkValue (float_value x).
Definition v_bool (b : bool) : value := mkValue (bool_value b).
Definition v_str (s : string) : value := mkValue (str_value s).
Definition v_list (l : list value) : value := mkValue (list_value l).
Definition v_none : value := mkValue none.
Definition v_undefined : value := mkValue undefined.

(** [ValueRef::dict]: the entries are inserted one after the other. *)
Definition v_dict (entries : list (string * value)) : value :=
  mkValue (dict_value
    (mkDict (fold_left (fun m kv => im_insert kv.1 kv.2 m) entries []) [] [] [])).

(** ** Well-formed values

    The maps of a value have distinct keys ([IndexMap]), its integers are [i64]s and its
    strings are UTF-8. *)

Definition wf_dict {V} (d : DictValue V) : Prop :=
  NoDup (map fst (values d)) /\ Forall (fun kv => utf8 kv.1) (values d).
Definition wf_level {V} (v : Value V) : Prop :=
  match v with
  | int_value z => in_i64 z = true
  | str_value s => utf8 s
  | dict_value d => wf_dict d
  | schema_value s => wf_dict (config s)
  | unit_value _ raw _ => in_i64 raw = true
  | _ => True
  end.

(** A property of every level of the tree, closures and schema metadata apart. *)
Fixpoint everywhere (Q : Value value -> Prop) (x : value) : Prop :=
  match x with
  | mkValue v =>
      Q v /\
      match v with
      | list_value l => fold_right (fun y H => everywhere Q y /\ H) True l
      | dict_value d => fold_right (fun kv H => everywhere Q kv.2 /\ H) True (values d)
      | schema_value s =>
          fold_right (fun kv H => everywhere Q kv.2 /\ H) True (values (config s))
      | _ => True
      end
  end.

Definition wf_value : value -> Prop := everywhere wf_level.

Section Everywhere.
Context (Q : Value value -> Prop).

Lemma everywhere_list l :
  everywhere Q (mkValue (list_value l)) <-> Q (list_value l) /\ Forall (everywhere Q) l.
Proof.
  simpl. enough (fold_right (fun y H => everywhere Q y /\ H) True l <-> Forall (everywhere Q) l)
    by naive_solver.
  induction l as [|x l IH]; simpl; [by rewrite Forall_nil|]. by rewrite IH, list.Forall_cons.
Qed.

Lemma everywhere_entries m :
  fold_right (fun (kv : string * value) H => everywhere Q kv.2 /\ H) True m <->
  Forall (fun kv => everywhere Q kv.2) m.
Proof.
  induction m as [|x m IH]; simpl; [by rewrite Forall_nil|]. by rewrite IH, list.Forall_cons.
Qed.

Lemma everywhere_dict d :
  everywhere Q (mkValue (dict_value d)) <->
  Q (dict_value d) /\ Forall (fun kv => everywhere Q kv.2) (values d).
Proof. simpl. by rewrite everywhere_entries. Qed.

Lemma everywhere_schema s :
  everywhere Q (mkValue (schema_value s)) <->
  Q (schema_value s) /\ Forall (fun kv => everywhere Q kv.2) (values (config s)).
Proof. simpl. by rewrite everywhere_entries. Qed.

Lemma everywhere_level v : everywhere Q (mkValue v) -> Q v.
Proof. by intros [H _]. Qed.
End Everywhere.

Lemma everywhere_mono (Q R : Value value -> Prop) x :
  (forall v, Q v -> R v) -> everywhere Q x -> everywhere R x.
Proof.
  intros HQR. induction x as [v IH] using value_ind.
  destruct v as [ | | | | | |l|d|s|f| ]; simpl in IH;
    rewrite ?everywhere_list, ?everywhere_dict, ?everywhere_schema; try (simpl; naive_solver).
  - intros [HQ Hl]. split; [by apply HQR|]. rewrite Forall_forall in *. eauto.
  - intros [HQ Hl]. split; [by apply HQR|]. unfold all_dict in IH. rewrite Forall_forall in *. eauto.
  - intros [HQ Hl]. split; [by apply HQR|]. destruct IH as [IH _]. unfold all_dict in IH.
    rewrite Forall_forall in *. eauto.
Qed.
