(* ===== verification/ValueCmp.v ===== *)
(** * Comparison, membership and compatibility of runtime values

    Models [kclvm/runtime/src/value/{val_cmp,val_is_in}.rs] and
    [kclvm/runtime/src/unification/subsume.rs]. *)

From S2P Require Import Prelude MachineInt Floats Chars Utf8 Value.

(** ** Equality *)

Fixpoint cmp_equal (self x : value) {struct self} : bool :=
  let 'mkValue va := self in
  let 'mkValue vb := x in
  match va with
  | int_value a =>
      match vb with
      | int_value b => a =? b
      | float_value b => f64_eqb (f64_of_Z a) b
      | _ => false
      end
  | float_value a =>
      match vb with
      | int_value b => f64_eqb a (f64_of_Z b)
      | float_value b => f64_eqb a b
      | _ => false
      end
  | _ =>
      match va, vb with
      | undefined, undefined => true
      | none, none => true
      | bool_value a, bool_value b => Bool.eqb a b
      | str_value a, str_value b => bool_decide (a = b)
      | list_value a, list_value b => list_eqb cmp_equal a b
      | dict_value a, dict_value b => im_eqb cmp_equal (values a) (values b)
      | schema_value a, schema_value b =>
          im_eqb cmp_equal (values (config a)) (values (config b))
      | func_value a, func_value b => fn_ptr a =? fn_ptr b
      | _, _ => false
      end
  end.

Definition cmp_not_equal (self x : value) : bool := negb (cmp_equal self x).

(** ** Ordering

    The four orderings have one shape and differ in the operator: [cmp_with] is that
    shape, over the operator on each kind of operand. *)

Record operator := {
  op_name : string;
  op_int : Z -> Z -> bool;
  op_float : f64 -> f64 -> bool;
  op_bool : bool -> bool -> bool;
  op_str : string -> string -> bool;
  op_len : nat -> nat -> bool;
}.

Definition cmp_unsupported (op : operator) (self x : value) : outcome bool :=
  Panic ("'" +:+ op_name op +:+ "' not supported between instances of '" +:+
         type_str (get self) +:+ "' and '" +:+ type_str (get x) +:+ "'").

(** The first pair of unequal elements decides, else the lengths. *)
Definition cmp_lists (rec : value -> value -> outcome bool) (by_length : bool)
    : list value -> list value -> outcome bool :=
  fix go l1 l2 :=
    match l1, l2 with
    | value1 :: l1', value2 :: l2' =>
        if negb (cmp_equal value1 value2) then rec value1 value2 else go l1' l2'
    | _, _ => Ok by_length
    end.

Fixpoint cmp_with (op : operator) (self x : value) {struct self} : outcome bool :=
  match self with
  | mkValue (int_value a) =>
      match get x with
      | int_value b => Ok (op_int op a b)
      | float_value b => Ok (op_float op (f64_of_Z a) b)
      | bool_value b => Ok (op_int op a (Z.b2z b))
      | _ => cmp_unsupported op self x
      end
  | mkValue (float_value a) =>
      match get x with
      | int_value b => Ok (op_float op a (f64_of_Z b))
      | float_value b => Ok (op_float op a b)
      | bool_value b => Ok (op_float op a (f64_of_Z (Z.b2z b)))
      | _ => cmp_unsupported op self x
      end
  | mkValue (bool_value a) =>
      match get x with
      | int_value b => Ok (op_int op (Z.b2z a) b)
      | float_value b => Ok (op_float op (f64_of_Z (Z.b2z a)) b)
      | bool_value b => Ok (op_bool op a b)
      | _ => cmp_unsupported op self x
      end
  | mkValue (str_value a) =>
      match get x with
      | str_value b => Ok (op_str op a b)
      | _ => cmp_unsupported op self x
      end
  | mkValue (list_value a) =>
      match get x with
      | list_value b => cmp_lists (cmp_with op) (op_len op (length a) (length b)) a b
      | _ => cmp_unsupported op self x
      end
  | _ => cmp_unsupported op self x
  end.

Definition less_than : operator := {|
  op_name := "<"; op_int := Z.ltb; op_float := f64_ltb;
  op_bool a b := negb a && b; op_str := String.ltb; op_len := Nat.ltb |}.
Definition less_than_or_equal : operator := {|
  op_name := "<="; op_int := Z.leb; op_float := f64_leb;
  op_bool a b := negb a || b; op_str := String.leb; op_len := Nat.leb |}.
Definition greater_than : operator := {|
  op_name := ">"; op_int a b := b <? a; op_float a b := f64_ltb b a;
  op_bool a b := a && negb b; op_str a b := String.ltb b a; op_len a b := Nat.ltb b a |}.
Definition greater_than_or_equal : operator := {|
  op_name := ">="; op_int a b := b <=? a; op_float a b := f64_leb b a;
  op_bool a b := a || negb b; op_str a b := String.leb b a; op_len a b := Nat.leb b a |}.

Definition cmp_less_than : value -> value -> outcome bool := cmp_with less_than.
Definition cmp_less_than_or_equal : value -> value -> outcome bool := cmp_with less_than_or_equal.
Definition cmp_greater_than : value -> value -> outcome bool := cmp_with greater_than.
Definition cmp_greater_than_or_equal : value -> value -> outcome bool :=
  cmp_with greater_than_or_equal.

(** ** Membership: [self in x] *)

Definition in_ (self x : value) : outcome bool :=
  match get x with
  | str_value b =>
      match get self with
      | str_value a => Ok (str_contains b a)
      | _ => Ok false
      end
  | list_value l => Ok (existsb (cmp_equal self) l)
  | dict_value d => Ok (im_contains (as_str (get self)) (values d))
  | schema_value s => Ok (im_contains (as_str (get self)) (values (config s)))
  | _ => Panic ("TypeError: argument of type '" +:+ type_str (get x) +:+ "' is not iterable")
  end.

Definition not_in (self x : value) : outcome bool := b ← in_ self x; Ok (negb b).
Definition has_value (self x : value) : outcome bool := in_ x self.

(** ** Compatibility: the check for conflicting values of a union *)

Definition subsume_configs (rec : value -> value -> bool) (should_recursive_check : bool)
    (value1_dict value2_dict : list (string * value)) : bool :=
  if Nat.eqb (length value1_dict) 0 then true
  else if forallb (fun kv => negb (im_contains kv.1 value2_dict)) value1_dict then true
  else if should_recursive_check then
    forallb (fun kv =>
      match im_get kv.1 value2_dict with
      | None => true
      | Some value2 => rec kv.2 value2
      end) value1_dict
  else true.

Fixpoint value_subsume (value1 value2 : value) (should_recursive_check : bool)
    {struct value1} : bool :=
  let 'mkValue v1 := value1 in
  let 'mkValue v2 := value2 in
  if is_none_or_undefined v1 || is_none_or_undefined v2 then true
  else if cmp_equal value1 value2 then true
  else if is_int v1 && is_int v2 then as_int v1 =? as_int v2
  else if is_float v1 && is_float v2 then f64_eqb (as_float v1) (as_float v2)
  else if is_bool v1 && is_bool v2 then Bool.eqb (as_bool v1) (as_bool v2)
  else if is_str v1 && is_str v2 then bool_decide (as_str v1 = as_str v2)
  else
    let configs := subsume_configs (fun a b => value_subsume a b should_recursive_check)
                     should_recursive_check in
    match v1, v2 with
    | list_value l1, list_value l2 =>
        list_eqb (fun item1 item2 => value_subsume item1 item2 should_recursive_check) l1 l2
    | dict_value d1, dict_value d2 => configs (values d1) (values d2)
    | dict_value d1, schema_value s2 => configs (values d1) (values (config s2))
    | schema_value s1, dict_value d2 => configs (values (config s1)) (values d2)
    | schema_value s1, schema_value s2 => configs (values (config s1)) (values (config s2))
    | _, _ => false
    end.

(** ** Equality is an equivalence where floats and units do not interfere *)

(** A level on which equality is reliable: no NaN, no unit value (which is not even equal
    to itself), and integers that a double represents exactly. *)
Definition regular_level {V} (v : Value V) : Prop :=
  match v with
  | int_value z => - 2 ^ 53 < z < 2 ^ 53
  | float_value x => f64_is_nan x = false
  | unit_value _ _ _ => False
  | _ => True
  end.
Definition regular (x : value) : Prop :=
  everywhere (fun v => wf_level v /\ regular_level v) x.

Lemma regular_wf x : regular x -> wf_value x.
Proof. apply everywhere_mono. by intros v [H _]. Qed.

(** Case analysis on a pair of levels that are compared. *)
Ltac levels v w := destruct v, w; simpl; try done.

Section Entries.
Context (R : value -> value -> bool).
Implicit Types m : list (string * value).

Lemma im_eqb_refl m :
  NoDup (map fst m) -> Forall (fun kv => R kv.2 kv.2 = true) m -> im_eqb R m m = true.
Proof.
  intros Hm HR. apply im_eqb_true; [done|]. split; [done|]. intros k v Hk. exists v.
  split; [done|]. rewrite Forall_forall in HR. apply (HR (k, v)), list_elem_of_In, im_get_In, Hk.
Qed.

Lemma im_eqb_flip m m' :
  NoDup (map fst m) -> NoDup (map fst m') ->
  (forall k v v', In (k, v) m -> In (k, v') m' -> R v v' = true -> R v' v = true) ->
  im_eqb R m m' = true -> im_eqb R m' m = true.
Proof.
  intros Hm Hm' HR. rewrite !im_eqb_true by done. intros [Hl H]. split; [done|].
  intros k v' Hk'.
  assert (Hin : In k (map fst m)).
  { apply (im_keys_incl m m'); [done|done| |].
    - intros j Hj%im_contains_true%im_contains_get. destruct Hj as [v Hv].
      destruct (H j v Hv) as (w & Hw & _). apply im_contains_true, im_contains_get. eauto.
    - apply im_contains_true, im_contains_get. eauto. }
  apply im_contains_true, im_contains_get in Hin as [v Hv]. exists v. split; [done|].
  destruct (H k v Hv) as (w & Hw & HRw). rewrite Hk' in Hw. injection Hw as <-.
  apply (HR k); [by apply im_get_In|by apply im_get_In|done].
Qed.

Lemma im_eqb_join m m' m'' :
  NoDup (map fst m) -> NoDup (map fst m') ->
  (forall k v v' v'', In (k, v) m -> In (k, v') m' -> In (k, v'') m'' ->
    R v v' = true -> R v' v'' = true -> R v v'' = true) ->
  im_eqb R m m' = true -> im_eqb R m' m'' = true -> im_eqb R m m'' = true.
Proof.
  intros Hm Hm' HR. rewrite !im_eqb_true by done. intros [Hl H] [Hl' H']. split; [congruence|].
  intros k v Hk. destruct (H k v Hk) as (v' & Hk' & Hv). destruct (H' k v' Hk') as (v'' & Hk'' & Hv').
  exists v''. split; [done|]. eapply HR; try done; by apply im_get_In.
Qed.
End Entries.

Lemma Forall_In_snd {A} (P : A -> Prop) (m : list (string * A)) k v :
  Forall (fun kv => P kv.2) m -> In (k, v) m -> P v.
Proof. rewrite Forall_forall. intros H Hin. apply (H (k, v)). by apply list_elem_of_In. Qed.

Lemma cmp_equal_refl x : regular x -> cmp_equal x x = true.
Proof.
  unfold regular.
  induction x as [v IH] using value_ind. destruct v as [ | |b|z|f|s|l|d|s|f| ]; simpl in IH.
  - done.
  - done.
  - intros _. apply eqb_reflx.
  - intros _. apply Z.eqb_refl.
  - intros [[_ H] _]. by apply f64_eqb_refl.
  - intros _. by apply bool_decide_eq_true_2.
  - intros [_ Hl]%everywhere_list. apply list_eqb_true, Forall_Forall2_diag.
    rewrite Forall_forall in *. eauto.
  - intros [[[Hd _] _] Hl]%everywhere_dict. apply im_eqb_refl; [done|].
    unfold all_dict in IH. rewrite Forall_forall in *. eauto.
  - intros [[[Hd _] _] Hl]%everywhere_schema. apply im_eqb_refl; [done|].
    destruct IH as [IH _]. unfold all_dict in IH. rewrite Forall_forall in *. eauto.
  - intros _. apply Z.eqb_refl.
  - by intros [[_ []] _].
Qed.

Lemma cmp_equal_flip x y :
  wf_value x -> wf_value y -> cmp_equal x y = true -> cmp_equal y x = true.
Proof.
  revert y. induction x as [v IH] using value_ind. intros [w] Hx Hy.
  destruct v as [ | |b|z|f|s|l|d|s|f| ], w as [ | |b'|z'|f'|s'|l'|d'|s'|f'| ]; simpl in *; try done.
  - by rewrite !eqb_true_iff.
  - by rewrite !Z.eqb_eq.
  - by rewrite f64_eqb_sym.
  - by rewrite f64_eqb_sym.
  - by rewrite f64_eqb_sym.
  - by rewrite !bool_decide_eq_true.
  - apply everywhere_list in Hx as [_ Hx]. apply everywhere_list in Hy as [_ Hy].
    rewrite !list_eqb_true. intros HR. apply Forall2_flip.
    revert IH Hx Hy. induction HR as [|a b l l' Hab _ IHl]; intros IH Hx Hy; constructor.
    + apply list.Forall_cons in IH as [IH _], Hx as [Hx _], Hy as [Hy _]. by apply IH.
    + apply list.Forall_cons in IH as [_ IH], Hx as [_ Hx], Hy as [_ Hy]. by apply IHl.
  - apply everywhere_dict in Hx as [[Hd _] Hx]. apply everywhere_dict in Hy as [[Hd' _] Hy].
    apply im_eqb_flip; [done..|]. intros k v v' Hin Hin'.
    apply (Forall_In_snd _ _ _ _ IH Hin); [by apply (Forall_In_snd _ _ _ _ Hx Hin)|by apply (Forall_In_snd _ _ _ _ Hy Hin')].
  - apply everywhere_schema in Hx as [[Hd _] Hx]. apply everywhere_schema in Hy as [[Hd' _] Hy].
    apply im_eqb_flip; [done..|]. intros k v v' Hin Hin'. destruct IH as [IH _].
    apply (Forall_In_snd _ _ _ _ IH Hin); [by apply (Forall_In_snd _ _ _ _ Hx Hin)|by apply (Forall_In_snd _ _ _ _ Hy Hin')].
  - by rewrite !Z.eqb_eq.
Qed.

Lemma cmp_equal_sym x y : wf_value x -> wf_value y -> cmp_equal x y = cmp_equal y x.
Proof.
  intros Hx Hy. destruct (cmp_equal x y) eqn:E, (cmp_equal y x) eqn:E'; try done.
  - apply cmp_equal_flip in E; [congruence|done..].
  - apply cmp_equal_flip in E'; [congruence|done..].
Qed.

(** On regular numbers equality is the one of the doubles. *)
Lemma cmp_equal_numbers v w :
  is_number v = true -> is_number w = true -> regular_level v -> regular_level w ->
  cmp_equal (mkValue v) (mkValue w) = f64_eqb (as_float v) (as_float w).
Proof.
  destruct v as [ | | |a|x| | | | | | ], w as [ | | |b|y| | | | | | ]; simpl; try done.
  intros _ _ Ha Hb. destruct (Z.eqb_spec a b) as [->|Hne].
  - by rewrite f64_eqb_refl by apply f64_of_Z_not_nan.
  - destruct (f64_eqb _ _) eqn:E; [|done]. by apply f64_of_Z_inj in E.
Qed.

Lemma cmp_equal_number_kind v w :
  cmp_equal (mkValue v) (mkValue w) = true -> is_number v = is_number w.
Proof. by destruct v, w. Qed.

Lemma cmp_equal_trans x y z :
  regular x -> regular y -> regular z ->
  cmp_equal x y = true -> cmp_equal y z = true -> cmp_equal x z = true.
Proof.
  revert y z. induction x as [v IH] using value_ind. intros [w] [u] Hx Hy Hz Hxy Hyz.
  pose proof (cmp_equal_number_kind _ _ Hxy) as K1. pose proof (cmp_equal_number_kind _ _ Hyz) as K2.
  destruct (is_number v) eqn:Nv.
  { pose proof (everywhere_level _ _ Hx) as [_ Rv]. pose proof (everywhere_level _ _ Hy) as [_ Rw].
    pose proof (everywhere_level _ _ Hz) as [_ Ru].
    rewrite cmp_equal_numbers in * by (done || congruence). by eapply f64_eqb_trans. }
  destruct v as [ | |b|n|f|s|l|d|s|f| ], w as [ | |b'|n'|f'|s'|l'|d'|s'|f'| ],
    u as [ | |b''|n''|f''|s''|l''|d''|s''|f''| ]; try done; cbn [cmp_equal] in *.
  - rewrite !eqb_true_iff in *. congruence.
  - rewrite !bool_decide_eq_true in *. congruence.
  - unfold regular in *. rewrite everywhere_list in Hx, Hy, Hz.
    destruct Hx as [_ Hx], Hy as [_ Hy], Hz as [_ Hz]. rewrite list_eqb_true in *.
    simpl in IH. clear K1 K2 Nv. revert l'' Hyz Hz IH Hx Hy.
    induction Hxy as [|a b l l' Hab _ IHl]; intros l'' Hyz Hz IH Hx Hy.
    { by inversion Hyz. }
    inversion Hyz as [|? c ? m Hbc Hm]; subst. constructor.
    + apply list.Forall_cons in IH as [IH _], Hx as [Hx _], Hy as [Hy _], Hz as [Hz _]. eapply IH; eauto.
    + apply list.Forall_cons in IH as [_ IH], Hx as [_ Hx], Hy as [_ Hy], Hz as [_ Hz]. eauto.
  - unfold regular in *. rewrite everywhere_dict in Hx, Hy, Hz.
    destruct Hx as [[[Hd _] _] Hx], Hy as [[[Hd' _] _] Hy], Hz as [_ Hz].
    eapply (im_eqb_join _ _ (values d')); try done. intros k p q r Hp Hq Hr.
    apply (Forall_In_snd _ _ _ _ IH Hp);
      [by apply (Forall_In_snd _ _ _ _ Hx Hp)|by apply (Forall_In_snd _ _ _ _ Hy Hq)|by apply (Forall_In_snd _ _ _ _ Hz Hr)].
  - unfold regular in *. rewrite everywhere_schema in Hx, Hy, Hz.
    destruct Hx as [[[Hd _] _] Hx], Hy as [[[Hd' _] _] Hy], Hz as [_ Hz].
    eapply (im_eqb_join _ _ (values (config s'))); try done. intros k p q r Hp Hq Hr.
    destruct IH as [IH _]. apply (Forall_In_snd _ _ _ _ IH Hp);
      [by apply (Forall_In_snd _ _ _ _ Hx Hp)|by apply (Forall_In_snd _ _ _ _ Hy Hq)|by apply (Forall_In_snd _ _ _ _ Hz Hr)].
  - rewrite Z.eqb_eq in *. congruence.
Qed.

(** C25: equality of runtime values ([cmp_equal], the [==] of the language and the
    [PartialEq] of [ValueRef]) is an equivalence on well-formed values without NaN,
    without number multipliers and with integers below 2^53 in magnitude; symmetry needs
    well-formedness alone. *)
Theorem cmp_equal_equivalence :
  (forall x y, wf_value x -> wf_value y -> cmp_equal x y = cmp_equal y x) /\
  (forall x, regular x -> cmp_equal x x = true) /\
  (forall x y z, regular x -> regular y -> regular z ->
     cmp_equal x y = true -> cmp_equal y z = true -> cmp_equal x z = true).
Proof. split_and!; [apply cmp_equal_sym|apply cmp_equal_refl|apply cmp_equal_trans]. Qed.

Lemma cmp_equal_equivalence_witness :
  let x := v_list [v_int 1; v_str "a"; v_dict [("k", v_float (f64_of_Z 2)); ("l", v_none)]] in
  let y := v_list [v_float (f64_of_Z 1); v_str "a"; v_dict [("l", v_none); ("k", v_int 2)]] in
  x <> y /\ cmp_equal x y = true /\ cmp_equal y x = true /\ cmp_equal x x = true.
Proof.
  assert (U : forall s, utf8 s -> utf8 s) by done.
  set (x := v_list _). set (y := v_list _). cbv zeta.
  assert (Ua : utf8 "a") by (exists [97]; done).
  assert (Uk : utf8 "k") by (exists [107]; done).
  assert (Ul : utf8 "l") by (exists [108]; done).
  assert (Hx : regular x).
  { split_and!; simpl; try done; try lia. unfold wf_dict. simpl.
    repeat constructor; simpl; try done. all: set_solver. }
  assert (Hy : regular y).
  { split_and!; simpl; try done; try lia. unfold wf_dict. simpl.
    repeat constructor; simpl; try done. all: set_solver. }
  assert (E : cmp_equal x y = true) by (vm_compute; reflexivity).
  split_and!; [discriminate|done| |].
  - rewrite <- (proj1 cmp_equal_equivalence x y); [done| |]; by apply regular_wf.
  - by apply (proj1 (proj2 cmp_equal_equivalence)).
Defined.

(** Beyond 2^53 the conversion to doubles identifies distinct integers, which stay
    distinct from each other; and a number multiplier is never equal to itself. *)
Lemma cmp_equal_not_transitive :
  let a := v_int (2 ^ 53) in let b := v_float (f64_of_Z (2 ^ 53)) in let c := v_int (2 ^ 53 + 1) in
  cmp_equal a b = true /\ cmp_equal b c = true /\ cmp_equal a c = false.
Proof. vm_compute. done. Qed.

Lemma unit_value_not_equal_to_itself real raw unit :
  let x := mkValue (unit_value real raw unit) in
  cmp_equal x x = false /\ value_subsume x x false = false.
Proof. done. Qed.

(** ** The four orderings agree *)

(** Values that are either all made of numbers or all made of booleans at the leaves that
    are numbers or booleans ([True] and [1] are ordered as equals but are not equal). *)
Definition sort_level {V} (bools : bool) (v : Value V) : Prop :=
  match v with
  | int_value _ => bools = false
  | float_value x => bools = false /\ f64_is_nan x = false
  | bool_value _ => bools = true
  | _ => True
  end.
Definition sorted (bools : bool) (x : value) : Prop :=
  everywhere (fun v => wf_level v /\ sort_level bools v) x.

Lemma sorted_wf bools x : sorted bools x -> wf_value x.
Proof. apply everywhere_mono. by intros v [H _]. Qed.

(** What the theorem says of one pair, from the result of [<]. *)
Definition agree (x y : value) (r : bool) : Prop :=
  cmp_greater_than y x = Ok r /\
  cmp_less_than_or_equal x y = Ok (r || cmp_equal x y) /\
  cmp_greater_than_or_equal x y = Ok (negb r) /\
  (r = true -> cmp_equal x y = false).

Lemma string_ltb_facts s s' :
  String.leb s s' = String.ltb s s' || bool_decide (s = s') /\
  String.leb s' s = negb (String.ltb s s') /\
  (String.ltb s s' = true -> bool_decide (s = s') = false).
Proof.
  unfold String.leb, String.ltb. rewrite (String.compare_antisym s' s).
  destruct (String.compare s s') eqn:E; simpl.
  - apply String.compare_eq_iff in E as ->. rewrite bool_decide_eq_true_2 by done. done.
  - rewrite bool_decide_eq_false_2; [done|]. intros ->.
    pose proof (String.compare_antisym s' s') as A. by rewrite E in A.
  - rewrite bool_decide_eq_false_2; [done|]. intros ->.
    pose proof (String.compare_antisym s' s') as A. by rewrite E in A.
Qed.

Lemma agree_floats x y :
  f64_is_nan x = false -> f64_is_nan y = false ->
  f64_leb x y = f64_ltb x y || f64_eqb x y /\ f64_leb y x = negb (f64_ltb x y) /\
  (f64_ltb x y = true -> f64_eqb x y = false).
Proof. intros Hx Hy. split_and!; [apply f64_leb_ltb_eqb|by apply f64_leb_antisym|apply f64_ltb_neq]. Qed.

Lemma agree_ints a b :
  (a <=? b) = (a <? b) || (a =? b) /\ (b <=? a) = negb (a <? b) /\
  ((a <? b) = true -> (a =? b) = false).
Proof. split_and!; lia. Qed.

Lemma agree_lists bools l l' :
  Forall (fun x => forall y r, sorted bools x -> sorted bools y ->
    cmp_less_than x y = Ok r -> agree x y r) l ->
  Forall (sorted bools) l -> Forall (sorted bools) l' ->
  forall n m r, cmp_lists cmp_less_than (Nat.ltb n m) l l' = Ok r ->
  (length l - length l' = n - m)%nat -> (length l' - length l = m - n)%nat ->
  cmp_lists cmp_greater_than (Nat.ltb n m) l' l = Ok r /\
  cmp_lists cmp_less_than_or_equal (Nat.leb n m) l l' = Ok (r || list_eqb cmp_equal l l') /\
  cmp_lists cmp_greater_than_or_equal (Nat.leb m n) l l' = Ok (negb r) /\
  (r = true -> list_eqb cmp_equal l l' = false).
Proof.
  revert l'. induction l as [|x l IHl]; intros [|y l'] IH Hl Hl' n m r Hr E1 E2; simpl in *.
  - injection Hr as <-. assert (n = m) as -> by lia.
    rewrite Nat.ltb_irrefl, Nat.leb_refl. done.
  - injection Hr as <-. assert (n < m)%nat as Hn by lia.
    rewrite (proj2 (Nat.ltb_lt _ _)) by done. rewrite (proj2 (Nat.leb_le _ _)) by lia.
    by rewrite (proj2 (Nat.leb_gt _ _)) by lia.
  - injection Hr as <-. assert (m < n)%nat as Hn by lia.
    rewrite (proj2 (Nat.ltb_ge _ _)) by lia. rewrite (proj2 (Nat.leb_le m n)) by lia.
    by rewrite (proj2 (Nat.leb_gt _ _)) by lia.
  - apply list.Forall_cons in IH as [IHx IH], Hl as [Hx Hl], Hl' as [Hy Hl'].
    rewrite (cmp_equal_sym y x) by (by apply (sorted_wf bools)).
    destruct (cmp_equal x y) eqn:E; simpl in *.
    + apply (IHl l'); done || lia.
    + destruct (IHx y r Hx Hy Hr) as (G & L & GE & _). rewrite E in L.
      by rewrite G, L, GE.
Qed.

Lemma cmp_agree bools x :
  forall y r, sorted bools x -> sorted bools y -> cmp_less_than x y = Ok r -> agree x y r.
Proof.
  induction x as [v IH] using value_ind. intros [w] r Hx Hy.
  pose proof (everywhere_level _ _ Hx) as [_ Sx]. pose proof (everywhere_level _ _ Hy) as [_ Sy].
  unfold agree, cmp_less_than, cmp_greater_than, cmp_less_than_or_equal, cmp_greater_than_or_equal.
  destruct v as [ | |b|z|f|s|l|d|s|f| ], w as [ | |b'|z'|f'|s'|l'|d'|s'|f'| ];
    simpl in Sx, Sy |- *; try discriminate; try naive_solver; intros Hr;
    try (injection Hr as <-).
  - by destruct b, b'.
  - pose proof (agree_ints z z') as (-> & -> & H). done.
  - destruct (agree_floats (f64_of_Z z) f') as (-> & -> & H); [apply f64_of_Z_not_nan|naive_solver|done].
  - destruct (agree_floats f (f64_of_Z z')) as (-> & -> & H); [naive_solver|apply f64_of_Z_not_nan|done].
  - destruct (agree_floats f f') as (-> & -> & H); [naive_solver..|done].
  - destruct (string_ltb_facts s s') as (-> & -> & H). done.
  - unfold sorted in Hx, Hy. rewrite everywhere_list in Hx, Hy. destruct Hx as [_ Hx], Hy as [_ Hy].
    by apply (agree_lists bools l l').
Qed.

(** the four orderings of the language agree: when [x < y] is defined, [y > x] gives
    the same answer, [x >= y] the opposite one, [x <= y] holds exactly when [x < y] or
    [x == y] does, and not both.  Lists are ordered lexicographically by the same rules.
    Numbers and booleans are not mixed, and no float is NaN. *)
Theorem cmp_orderings_agree bools x y r :
  sorted bools x -> sorted bools y -> cmp_less_than x y = Ok r ->
  cmp_greater_than y x = Ok r /\
  cmp_less_than_or_equal x y = Ok (r || cmp_equal x y) /\
  cmp_greater_than_or_equal x y = Ok (negb r) /\
  (r = true -> cmp_equal x y = false).
Proof. apply cmp_agree. Qed.

Lemma cmp_orderings_agree_witness :
  let x := v_list [v_int 1; v_float (f64_of_Z 2)] in
  let y := v_list [v_float (f64_of_Z 1); v_int 3] in
  cmp_less_than x y = Ok true /\ cmp_greater_than y x = Ok true.
Proof.
  set (x := v_list _). set (y := v_list _). cbv zeta.
  assert (E : cmp_less_than x y = Ok true) by (vm_compute; reflexivity).
  split; [exact E|].
  apply (cmp_orderings_agree false x y true); [| |exact E];
    split_and!; simpl; try done.
Defined.

(** ** Compatibility does not depend on the order of the operands *)

Definition entries_of (v : Value value) : option (list (string * value)) :=
  match v with
  | dict_value d => Some (values d)
  | schema_value s => Some (values (config s))
  | _ => None
  end.

Lemma subsume_configs_true R c m m' :
  NoDup (map fst m) ->
  subsume_configs R c m m' = true <->
  (c = true -> forall k v w, im_get k m = Some v -> im_get k m' = Some w -> R v w = true).
Proof.
  intros Hm. unfold subsume_configs. destruct c; cycle 1.
  { split; [done|]. intros _. by repeat case_match. }
  trans (forallb (fun kv => match im_get kv.1 m' with None => true | Some w => R kv.2 w end) m = true).
  - destruct m as [|e m]; [done|]. rewrite (proj2 (Nat.eqb_neq _ _)) by done.
    destruct (forallb (fun kv => negb _) (e :: m)) eqn:E; [|done].
    split; [|done]. intros _. rewrite forallb_forall in *. intros kv Hin. specialize (E kv Hin).
    unfold im_contains in E. by destruct (im_get kv.1 m').
  - rewrite forallb_forall. split.
    + intros H _ k v w Hv%im_get_In Hw. specialize (H _ Hv). simpl in H. by rewrite Hw in H.
    + intros H [k v] Hin%im_In_get; [|done]. simpl. destruct (im_get k m') eqn:E; [|done]. eauto.
Qed.

(** The equations of [value_subsume]: equal values and missing ones are compatible, lists
    element by element, configurations on their common keys; scalars only when equal. *)
Lemma value_subsume_eq v w c :
  value_subsume (mkValue v) (mkValue w) c =
  is_none_or_undefined v || is_none_or_undefined w || cmp_equal (mkValue v) (mkValue w) ||
  match v, w with
  | list_value l, list_value l' => list_eqb (fun a b => value_subsume a b c) l l'
  | _, _ =>
      match entries_of v, entries_of w with
      | Some m, Some m' => subsume_configs (fun a b => value_subsume a b c) c m m'
      | _, _ => false
      end
  end.
Proof.
  cbn [value_subsume].
  destruct (is_none_or_undefined v) eqn:Nv, (is_none_or_undefined w) eqn:Nw; try done; cbn [orb].
  destruct (cmp_equal (mkValue v) (mkValue w)) eqn:E; [done|]. cbn [orb].
  destruct v, w; try done; simpl in E |- *; try discriminate; first [done|by rewrite E].
Qed.

Lemma cmp_equal_levels v w :
  cmp_equal (mkValue v) (mkValue w) = true -> is_none_or_undefined v = is_none_or_undefined w.
Proof. by destruct v, w. Qed.

Lemma value_subsume_flip x c :
  forall y, wf_value x -> wf_value y -> value_subsume x y c = true -> value_subsume y x c = true.
Proof.
  induction x as [v IH] using value_ind. intros [w] Hx Hy.
  rewrite !value_subsume_eq, (cmp_equal_sym (mkValue w)) by done.
  rewrite (orb_comm (is_none_or_undefined w)).
  destruct (is_none_or_undefined v || is_none_or_undefined w || cmp_equal (mkValue v) (mkValue w)); [done|]. cbn [orb].
  assert (Hdict : forall m m', entries_of v = Some m -> entries_of w = Some m' ->
    subsume_configs (fun a b => value_subsume a b c) c m m' = true ->
    subsume_configs (fun a b => value_subsume a b c) c m' m = true).
  { intros m m' Em Em'.
    assert (NoDup (map fst m) /\ Forall (fun kv => wf_value kv.2) m) as [Hd HW].
    { destruct v; simplify_eq/=; [apply everywhere_dict in Hx|apply everywhere_schema in Hx];
        destruct Hx as [[? _] ?]; done. }
    assert (NoDup (map fst m') /\ Forall (fun kv => wf_value kv.2) m') as [Hd' HW'].
    { destruct w; simplify_eq/=; [apply everywhere_dict in Hy|apply everywhere_schema in Hy];
        destruct Hy as [[? _] ?]; done. }
    assert (HI : Forall (fun kv => forall y, wf_value kv.2 -> wf_value y ->
        value_subsume kv.2 y c = true -> value_subsume y kv.2 c = true) m).
    { destruct v; simplify_eq/=; [exact IH|exact (proj1 IH)]. }
    rewrite !subsume_configs_true by done. intros H Hc k q p Hq Hp.
    apply im_get_In in Hp as Hp', Hq as Hq'.
    apply (Forall_In_snd (fun x => forall y, wf_value x -> wf_value y ->
      value_subsume x y c = true -> value_subsume y x c = true) m k p HI Hp').
    - by apply (Forall_In_snd _ _ _ _ HW Hp').
    - by apply (Forall_In_snd _ _ _ _ HW' Hq').
    - by apply (H Hc k). }
  destruct v as [ | |b|z|f|s|l|d|s|f| ], w as [ | |b'|z'|f'|s'|l'|d'|s'|f'| ]; try done;
    try (by apply Hdict).
  unfold wf_value in Hx, Hy. rewrite everywhere_list in Hx, Hy.
  destruct Hx as [_ Hx], Hy as [_ Hy]. rewrite !list_eqb_true. intros HR. apply Forall2_flip.
  simpl in IH. clear Hdict. revert IH Hx Hy.
  induction HR as [|a b l l' Hab _ IHl]; intros IH Hx Hy; constructor.
  - apply list.Forall_cons in IH as [IH _], Hx as [Hx _], Hy as [Hy _]. by apply IH.
  - apply list.Forall_cons in IH as [_ IH], Hx as [_ Hx], Hy as [_ Hy]. by apply IHl.
Qed.

Lemma value_subsume_shallow x :
  forall y, value_subsume x y true = true -> value_subsume x y false = true.
Proof.
  induction x as [v IH] using value_ind. intros [w]. rewrite !value_subsume_eq.
  destruct (is_none_or_undefined v || is_none_or_undefined w || cmp_equal (mkValue v) (mkValue w)); [done|]. cbn [orb].
  destruct v as [ | |b|z|f|s|l|d|s|f| ], w as [ | |b'|z'|f'|s'|l'|d'|s'|f'| ]; try done; simpl;
    try (unfold subsume_configs; intros _; by repeat case_match).
  rewrite !list_eqb_true. simpl in IH. intros HR. revert IH.
  induction HR as [|a b l l' Hab _ IHl]; intros IH; constructor;
    apply list.Forall_cons in IH as [IHa IH]; auto.
Qed.

(** C24: the conflict check of configuration merging is symmetric on well-formed values,
    holds between a regular value and itself, and the recursive check is the stronger
    one; two configurations pass the recursive check exactly when the values of every
    key they share pass it. *)
Theorem value_subsume_compatible :
  (forall x y c, wf_value x -> wf_value y -> value_subsume x y c = value_subsume y x c) /\
  (forall x c, regular x -> value_subsume x x c = true) /\
  (forall x y, value_subsume x y true = true -> value_subsume x y false = true) /\
  (forall v w m m', entries_of v = Some m -> entries_of w = Some m' ->
     regular (mkValue v) -> regular (mkValue w) ->
     value_subsume (mkValue v) (mkValue w) true = true <->
     forall k p q, im_get k m = Some p -> im_get k m' = Some q -> value_subsume p q true = true).
Proof.
  split_and!.
  - intros x y c Hx Hy. destruct (value_subsume x y c) eqn:E, (value_subsume y x c) eqn:E'; try done;
      apply value_subsume_flip in E || apply value_subsume_flip in E'; congruence.
  - intros [v] c Hx. rewrite value_subsume_eq, cmp_equal_refl by done. by rewrite !orb_true_r.
  - apply value_subsume_shallow.
  - intros v w m m' Em Em' Hv Hw. rewrite value_subsume_eq.
    assert (Hd : NoDup (map fst m)).
    { apply regular_wf, everywhere_level in Hv. destruct v; simplify_eq/=; by destruct Hv. }
    assert (is_none_or_undefined v = false /\ is_none_or_undefined w = false) as [-> ->].
    { by destruct v, w. }
    rewrite Em, Em'. simpl.
    assert (E : match v, w with
      | list_value l, list_value l' => list_eqb (fun a b => value_subsume a b true) l l'
      | _, _ => subsume_configs (fun a b => value_subsume a b true) true m m'
      end = subsume_configs (fun a b => value_subsume a b true) true m m').
    { by destruct v, w. }
    rewrite E, orb_true_iff, (subsume_configs_true _ _ m m') by done. split; [|naive_solver].
    intros [Heq|H]; [|by apply H]. intros k p q Hp Hq.
    assert (He : im_eqb cmp_equal m m' = true) by (by destruct v, w; simplify_eq/=).
    apply im_eqb_true in He as [_ He]; [|done]. destruct (He k p Hp) as (q' & Hq' & Hpq).
    rewrite Hq in Hq'. injection Hq' as <-. destruct p as [p], q as [q].
    rewrite value_subsume_eq, Hpq. by rewrite !orb_true_r.
Qed.

Lemma value_subsume_compatible_witness :
  let x := v_dict [("a", v_int 1); ("b", v_int 2)] in
  let y := v_dict [("c", v_int 3); ("a", v_int 1)] in
  let z := v_dict [("a", v_int 4)] in
  value_subsume x y true = true /\ value_subsume y x true = true /\
  value_subsume x z true = false /\ value_subsume x z false = true.
Proof.
  set (x := v_dict _). set (y := v_dict _). set (z := v_dict _). cbv zeta.
  assert (Ua : utf8 "a") by (exists [97]; done).
  assert (Ub : utf8 "b") by (exists [98]; done).
  assert (Uc : utf8 "c") by (exists [99]; done).
  assert (Hx : regular x).
  { split_and!; simpl; try done. unfold wf_dict. simpl. repeat constructor; simpl; try done; set_solver. }
  assert (Hy : regular y).
  { split_and!; simpl; try done. unfold wf_dict. simpl. repeat constructor; simpl; try done; set_solver. }
  assert (Exy : value_subsume x y true = true) by (vm_compute; reflexivity).
  split_and!; [done| |vm_compute; reflexivity|vm_compute; reflexivity].
  rewrite <- (proj1 value_subsume_compatible x y true); [done| |]; by apply regular_wf.
Defined.
