(* ===== verification/ValueBin.v ===== *)
(** * Arithmetic on runtime values

    Models [kclvm/runtime/src/value/{val_overflow,val_panic,val_unary,val_bin}.rs] (the
    union operator of [bin_bit_or] apart, which writes through references) on one level
    of a value.  [powf] is the platform's floating point power function. *)

From S2P Require Import Prelude MachineInt Floats Chars Utf8 Value.

(** ** Integer powers and shifts *)

Definition i128_max : Z := 2 ^ 127 - 1.
Definition check128 (z : Z) : option Z :=
  if (- 2 ^ 127 <=? z) && (z <=? i128_max) then Some z else None.

(** [checked_pow]: the power when it fits.  Beyond the exponent 128 only the powers of
    -1, 0 and 1 fit any width. *)
Definition checked_pow (check : Z -> option Z) (a n : Z) : option Z :=
  if n =? 0 then Some 1
  else if Z.abs a <=? 1 then Some (if (a =? -1) && Z.even n then 1 else a)
  else if 128 <=? n then None
  else check (a ^ n).

(** [pow] in a release build: multiplication modulo [2 ^ w]. *)
Fixpoint wrapping_pow (w a : Z) (n : positive) : Z :=
  match n with
  | xH => wrap_s w a
  | xO n' => let h := wrapping_pow w a n' in wrap_s w (h * h)
  | xI n' => let h := wrapping_pow w a n' in wrap_s w (a * wrap_s w (h * h))
  end.

Definition pow_w (oc : bool) (w : Z) (check : Z -> option Z) (a n : Z) : outcome Z :=
  match checked_pow check a n with
  | Some z => Ok z
  | None => if oc then Panic "attempt to multiply with overflow"
            else Ok (wrapping_pow w a (Z.to_pos n))
  end.
Definition pow64 (oc : bool) : Z -> Z -> outcome Z := pow_w oc 64 check64.
Definition pow128 (oc : bool) : Z -> Z -> outcome Z := pow_w oc 128 check128.

(** [a << n] and [a >> n] on [w]-bit integers: an amount outside [0, w) panics in a debug
    build and is taken modulo [w] in a release build. *)
Definition shl_w (oc : bool) (w a n : Z) : outcome Z :=
  if (0 <=? n) && (n <? w) then Ok (wrap_s w (Z.shiftl a n))
  else if oc then Panic "attempt to shift left with overflow"
  else Ok (wrap_s w (Z.shiftl a (n mod w))).
Definition shr_w (oc : bool) (w a n : Z) : outcome Z :=
  if (0 <=? n) && (n <? w) then Ok (Z.shiftr a n)
  else if oc then Panic "attempt to shift right with overflow"
  else Ok (Z.shiftr a (n mod w)).

(** ** Range checks ([val_overflow.rs]) *)

Definition is_i32_overflow (v : Z) : bool := (i32_max <? v) || (v <? i32_min).
Definition is_i32_overflow2 (v1 v2 : Z) : bool := is_i32_overflow v1 || is_i32_overflow v2.
Definition is_f32_overflow (v : f64) : bool :=
  f64_ltb f32_max_as_f64 v || f64_ltb v f32_min_as_f64.
Definition is_f32_overflow2 (v1 v2 : f64) : bool := is_f32_overflow v1 || is_f32_overflow v2.

Definition is_i32_overflow_add (v1 v2 : Z) : bool :=
  is_i32_overflow2 v1 v2 || is_none_opt (check32 (as_i32 v1 + as_i32 v2)).
Definition is_i32_overflow_sub (v1 v2 : Z) : bool :=
  is_i32_overflow2 v1 v2 || is_none_opt (check32 (as_i32 v1 - as_i32 v2)).
Definition is_i32_overflow_mul (v1 v2 : Z) : bool :=
  is_i32_overflow2 v1 v2 || is_none_opt (check32 (as_i32 v1 * as_i32 v2)).
Definition is_i32_overflow_div (v1 v2 : Z) : bool :=
  is_i32_overflow2 v1 v2 || is_none_opt (checked_div check32 (as_i32 v1) (as_i32 v2)).
Definition is_i32_overflow_pow (v1 v2 : Z) : bool :=
  is_i32_overflow2 v1 v2 || is_none_opt (checked_pow check32 (as_i32 v1) (as_u32 v2)).
Definition is_i32_overflow_shl (v1 v2 : Z) : bool :=
  is_i32_overflow2 v1 v2 || is_none_opt (checked_shl 32 (as_i32 v1) (as_u32 v2)).
Definition is_i32_overflow_shr (v1 v2 : Z) : bool :=
  is_i32_overflow2 v1 v2 || is_none_opt (checked_shr 32 (as_i32 v1) (as_u32 v2)).

Definition is_i64_overflow_add (v1 v2 : Z) : bool := is_none_opt (check64 (v1 + v2)).
Definition is_i64_overflow_sub (v1 v2 : Z) : bool := is_none_opt (check64 (v1 - v2)).
Definition is_i64_overflow_mul (v1 v2 : Z) : bool := is_none_opt (check64 (v1 * v2)).
Definition is_i64_overflow_div (v1 v2 : Z) : bool := is_none_opt (checked_div check64 v1 v2).
Definition is_i64_overflow_pow (v1 v2 : Z) : bool :=
  is_i32_overflow v2 || is_none_opt (checked_pow check64 v1 (as_u32 v2)).
Definition is_i64_overflow_shl (v1 v2 : Z) : bool :=
  is_i32_overflow v2 || is_none_opt (checked_shl 64 v1 (as_u32 v2)).
Definition is_i64_overflow_shr (v1 v2 : Z) : bool :=
  is_i32_overflow v2 || is_none_opt (checked_shr 64 v1 (as_u32 v2)).

Definition is_f32_overflow_add (v1 v2 : f64) : bool :=
  is_f32_overflow2 v1 v2 || is_f32_overflow (f64_add v1 v2).
Definition is_f32_overflow_sub (v1 v2 : f64) : bool :=
  is_f32_overflow2 v1 v2 || is_f32_overflow (f64_sub v1 v2).
Definition is_f32_overflow_mul (v1 v2 : f64) : bool :=
  is_f32_overflow2 v1 v2 || is_f32_overflow (f64_mul v1 v2).
Definition is_f32_overflow_div (v1 v2 : f64) : bool :=
  is_f32_overflow2 v1 v2 || is_f32_overflow (f64_div v1 v2).
Definition is_f32_overflow_pow (powf : f64 -> f64 -> f64) (v1 v2 : f64) : bool :=
  is_f32_overflow2 v1 v2 || is_i32_overflow (f64_as_i64 v2) || is_f32_overflow (powf v1 v2).

(** ** Panics ([val_panic.rs]) *)

Definition panic_i32_overflow {A} (v : Z) : outcome A :=
  Panic (pretty v +:+ ": A 32 bit integer overflow").
Definition panic_i64_overflow {A} (v : Z) : outcome A :=
  Panic (pretty v +:+ ": A 64 bit integer overflow").

(** [s.replacen("e", "e+", 1)]. *)
Fixpoint replace_first_e (s : string) : string :=
  match s with
  | EmptyString => EmptyString
  | String c s' =>
      if bool_decide (c = "e"%char) then String c (String "+"%char s')
      else String c (replace_first_e s')
  end.
Definition panic_f32_overflow {A} (v : f64) : outcome A :=
  let s := f64_lower_exp v +:+ ": A 32-bit floating point number overflow" in
  Panic (if str_contains s "e-" then s else replace_first_e s).
Definition panic_unsupported_bin_op {A} (op left_type right_type : string) : outcome A :=
  Panic ("unsupported operand type(s) for " +:+ op +:+ ": '" +:+ left_type +:+
         "' and '" +:+ right_type +:+ "'").

(** [if cond { panic }]. *)
Definition panic_if (cond : bool) (p : outcome unit) : outcome unit :=
  if cond then p else Ok tt.


(** [str::repeat] and the loop that repeats a list (a reference takes 8 bytes): what
    cannot be allocated panics. *)
Fixpoint concat_n (n : nat) (s : string) : string :=
  match n with O => EmptyString | S n' => s +:+ concat_n n' s end.
Definition str_repeat (s : string) (n : Z) : outcome string :=
  if bool_decide (s = "") then Ok ""
  else if isize_max <? Z.of_nat (String.length s) * n then Panic "capacity overflow"
  else Ok (concat_n (Z.to_nat n) s).
Definition list_repeat {A} (l : list A) (n : Z) : outcome (list A) :=
  match l with
  | [] => Ok []
  | _ => if isize_max <? 8 * Z.of_nat (length l) * n then Panic "capacity overflow"
         else Ok (concat (repeat l (Z.to_nat n)))
  end.

Definition dquote : string := String (byte_of 34) EmptyString.

(** ** Operators *)

(** The result of a read: an existing reference, or a fresh value. *)
Inductive read (V : Type) := Shared (r : V) | Fresh (v : Value V).
Arguments Shared {V}.
Arguments Fresh {V}.

Section Operators.
Context {V : Type} (cfg : ContextConfig) (oc : bool) (powf : f64 -> f64 -> f64).
Implicit Types self x : Value V.

Definition unary_plus self : outcome (Value V) :=
  match self with
  | int_value a => Ok (int_value a)
  | float_value a => Ok (float_value a)
  | _ => Panic ("bad operand type for unary +: '" +:+ type_str self +:+ "'")
  end.

Definition unary_minus self : outcome (Value V) :=
  match self with
  | int_value a => z ← arith64 oc (0 - a); Ok (int_value z)
  | float_value a => Ok (float_value (f64_sub f64_zero a))
  | _ => Panic ("bad operand type for unary -: '" +:+ type_str self +:+ "'")
  end.

Definition unary_not self : Value V := int_value (Z.lnot (as_int self)).
Definition unary_l_not self : Value V := bool_value (negb (is_truthy self)).

Definition strict_range_check_32 : bool := strict_range_check cfg.
Definition strict_range_check_64 : bool := debug_mode cfg || negb (strict_range_check cfg).

Definition bin_add self x : outcome (Value V) :=
  match self, x with
  | int_value a, int_value b =>
      _ ← panic_if (strict_range_check_32 && is_i32_overflow_add a b) (panic_i32_overflow (a + b));
      _ ← panic_if (strict_range_check_64 && is_i64_overflow_add a b) (panic_i64_overflow (a + b));
      z ← arith64 oc (a + b);
      Ok (int_value z)
  | float_value a, float_value b =>
      _ ← panic_if (strict_range_check_32 && is_f32_overflow_add a b)
            (panic_f32_overflow (f64_add a b));
      Ok (float_value (f64_add a b))
  | int_value a, float_value b =>
      _ ← panic_if (is_f32_overflow_add (f64_of_Z a) b) (panic_f32_overflow (f64_add (f64_of_Z a) b));
      Ok (float_value (f64_add (f64_of_Z a) b))
  | float_value a, int_value b =>
      _ ← panic_if (is_f32_overflow_add a (f64_of_Z b)) (panic_f32_overflow (f64_add a (f64_of_Z b)));
      Ok (float_value (f64_add a (f64_of_Z b)))
  | str_value a, str_value b => Ok (str_value (a +:+ b))
  | list_value a, _ =>
      if is_list x then b ← as_list_ref x; Ok (list_value (a ++ b))
      else Panic ("can only concatenate list (not " +:+ dquote +:+ type_str x +:+ dquote +:+ ") to list")
  | _, _ => panic_unsupported_bin_op "+" (type_str self) (type_str x)
  end.

Definition bin_sub self x : outcome (Value V) :=
  match self, x with
  | int_value a, int_value b =>
      _ ← panic_if (strict_range_check_32 && is_i32_overflow_sub a b) (panic_i32_overflow (a - b));
      _ ← panic_if (strict_range_check_64 && is_i64_overflow_sub a b) (panic_i32_overflow (a - b));
      z ← arith64 oc (a - b);
      Ok (int_value z)
  | float_value a, float_value b =>
      _ ← panic_if (strict_range_check_32 && is_f32_overflow_sub a b)
            (panic_f32_overflow (f64_sub a b));
      Ok (float_value (f64_sub a b))
  | int_value a, float_value b =>
      _ ← panic_if (strict_range_check_32 && is_f32_overflow_sub (f64_of_Z a) b)
            (panic_f32_overflow (f64_sub (f64_of_Z a) b));
      Ok (float_value (f64_sub (f64_of_Z a) b))
  | float_value a, int_value b =>
      _ ← panic_if (strict_range_check_32 && is_f32_overflow_sub a (f64_of_Z b))
            (panic_f32_overflow (f64_sub a (f64_of_Z b)));
      Ok (float_value (f64_sub a (f64_of_Z b)))
  | _, _ => panic_unsupported_bin_op "-" (type_str self) (type_str x)
  end.

Definition bin_mul self x : outcome (Value V) :=
  match self, x with
  | int_value a, int_value b =>
      _ ← panic_if (strict_range_check_32 && is_i32_overflow_mul a b) (panic_i32_overflow (a * b));
      _ ← panic_if (strict_range_check_64 && is_i64_overflow_mul a b) (panic_i64_overflow (a * b));
      z ← arith64 oc (a * b);
      Ok (int_value z)
  | float_value a, float_value b =>
      _ ← panic_if (strict_range_check_32 && is_f32_overflow_mul a b)
            (panic_f32_overflow (f64_mul a b));
      Ok (float_value (f64_mul a b))
  | int_value a, float_value b =>
      _ ← panic_if (strict_range_check_32 && is_f32_overflow_mul (f64_of_Z a) b)
            (panic_f32_overflow (f64_mul (f64_of_Z a) b));
      Ok (float_value (f64_mul (f64_of_Z a) b))
  | float_value a, int_value b =>
      _ ← panic_if (strict_range_check_32 && is_f32_overflow_mul a (f64_of_Z b))
            (panic_f32_overflow (f64_mul a (f64_of_Z b)));
      Ok (float_value (f64_mul a (f64_of_Z b)))
  | str_value a, int_value b => s ← str_repeat a (as_usize b); Ok (str_value s)
  | int_value b, str_value a => s ← str_repeat a (as_usize b); Ok (str_value s)
  | list_value a, int_value b => l ← list_repeat a (as_usize b); Ok (list_value l)
  | int_value b, list_value a => l ← list_repeat a (as_usize b); Ok (list_value l)
  | _, _ => panic_unsupported_bin_op "*" (type_str self) (type_str x)
  end.

Definition bin_div self x : outcome (Value V) :=
  match self, x with
  | int_value a, int_value b => Ok (float_value (f64_div (f64_of_Z a) (f64_of_Z b)))
  | float_value a, float_value b => Ok (float_value (f64_div a b))
  | int_value a, float_value b => Ok (float_value (f64_div (f64_of_Z a) b))
  | float_value a, int_value b => Ok (float_value (f64_div a (f64_of_Z b)))
  | _, _ => panic_unsupported_bin_op "/" (type_str self) (type_str x)
  end.

Definition bin_mod self x : outcome (Value V) :=
  match self, x with
  | int_value x, int_value y =>
      z ← (if xorb (x <? 0) (y <? 0) then r ← rem64 x y; Ok (negb (r =? 0)) else Ok false);
      if (z : bool) then r ← rem64 x y; s ← arith64 oc (r + y); Ok (int_value s)
      else r ← rem64 x y; Ok (int_value r)
  | float_value a, float_value b => Ok (float_value (f64_rem a b))
  | int_value a, float_value b => Ok (float_value (f64_rem (f64_of_Z a) b))
  | float_value a, int_value b => Ok (float_value (f64_rem a (f64_of_Z b)))
  | _, _ => panic_unsupported_bin_op "%" (type_str self) (type_str x)
  end.

Definition bin_pow self x : outcome (Value V) :=
  match self, x with
  | int_value a, int_value b =>
      _ ← panic_if (strict_range_check_32 && is_i32_overflow_pow a b)
            (v ← pow128 oc a (as_u32 b); panic_i32_overflow v);
      _ ← panic_if (strict_range_check_64 && is_i64_overflow_pow a b)
            (v ← pow128 oc a (as_u32 b); panic_i64_overflow v);
      z ← pow64 oc a (as_u32 b);
      Ok (int_value z)
  | float_value a, float_value b =>
      _ ← panic_if (strict_range_check_32 && is_f32_overflow_pow powf a b)
            (panic_f32_overflow (powf a b));
      Ok (float_value (powf a b))
  | int_value a, float_value b =>
      _ ← panic_if (strict_range_check_32 && is_f32_overflow_pow powf (f64_of_Z a) b)
            (panic_f32_overflow (powf (f64_of_Z a) b));
      Ok (float_value (powf (f64_of_Z a) b))
  | float_value a, int_value b =>
      _ ← panic_if (strict_range_check_32 && is_f32_overflow_pow powf a (f64_of_Z b))
            (panic_f32_overflow (powf a (f64_of_Z b)));
      Ok (float_value (powf a (f64_of_Z b)))
  | _, _ => panic_unsupported_bin_op "**" (type_str self) (type_str x)
  end.

Definition bin_floor_div self x : outcome (Value V) :=
  match self, x with
  | int_value x, int_value y =>
      z ← (if xorb (x <? 0) (y <? 0) then r ← rem64 x y; Ok (negb (r =? 0)) else Ok false);
      if (z : bool) then q ← div64 x y; s ← arith64 oc (q - 1); Ok (int_value s)
      else q ← div64 x y; Ok (int_value q)
  | float_value a, float_value b => Ok (float_value (f64_floor (f64_div a b)))
  | int_value a, float_value b => Ok (float_value (f64_floor (f64_div (f64_of_Z a) b)))
  | float_value a, int_value b => Ok (float_value (f64_floor (f64_div a (f64_of_Z b))))
  | _, _ => panic_unsupported_bin_op "//" (type_str self) (type_str x)
  end.

Definition bin_bit_lshift self x : outcome (Value V) :=
  match self, x with
  | int_value a, int_value b =>
      _ ← panic_if (strict_range_check_32 && is_i32_overflow_shl a b)
            (v ← shl_w oc 128 a (as_u32 b); panic_i32_overflow v);
      _ ← panic_if (strict_range_check_64 && is_i64_overflow_shl a b)
            (v ← shl_w oc 128 a (as_u32 b); panic_i64_overflow v);
      z ← shl_w oc 64 a b;
      Ok (int_value z)
  | _, _ => panic_unsupported_bin_op "<<" (type_str self) (type_str x)
  end.

Definition bin_bit_rshift self x : outcome (Value V) :=
  match self, x with
  | int_value a, int_value b =>
      _ ← panic_if (strict_range_check_32 && is_i32_overflow_shr a b)
            (v ← shr_w oc 128 a (as_u32 b); panic_i32_overflow v);
      _ ← panic_if (strict_range_check_64 && is_i64_overflow_shr a b)
            (v ← shr_w oc 128 a (as_u32 b); panic_i64_overflow v);
      z ← shr_w oc 64 a b;
      Ok (int_value z)
  | _, _ => panic_unsupported_bin_op ">>" (type_str self) (type_str x)
  end.

Definition bin_bit_and self x : outcome (Value V) :=
  match self, x with
  | int_value a, int_value b => Ok (int_value (Z.land a b))
  | _, _ => panic_unsupported_bin_op "&" (type_str self) (type_str x)
  end.

Definition bin_bit_xor self x : outcome (Value V) :=
  match self, x with
  | int_value a, int_value b => Ok (int_value (Z.lxor a b))
  | _, _ => panic_unsupported_bin_op "^" (type_str self) (type_str x)
  end.

(** The integer case of [bin_bit_or]. *)
Definition bin_bit_or_int self x : option (Value V) :=
  match self, x with
  | int_value a, int_value b => Some (int_value (Z.lor a b))
  | _, _ => None
  end.

(** [(index + len as i64) as usize] for a negative index, [index as usize] otherwise. *)
Definition subscr_index (index : Z) (len : nat) : outcome Z :=
  if index <? 0 then i ← arith64 oc (index + Z.of_nat len); Ok (as_usize i)
  else Ok (as_usize index).

Definition bin_subscr self x : outcome (read V) :=
  match self, x with
  | str_value a, int_value b =>
      index ← subscr_index b (length (chars a));
      if index <? Z.of_nat (String.length a) then
        match nth_error (chars a) (Z.to_nat index) with
        | Some c => Ok (Fresh (str_value (encode_char c)))
        | None => Panic "called `Option::unwrap()` on a `None` value"
        end
      else Panic ("string index out of range: " +:+ pretty b)
  | list_value a, int_value b =>
      index ← subscr_index b (length a);
      if index <? Z.of_nat (length a) then
        match nth_error a (Z.to_nat index) with
        | Some r => Ok (Shared r)
        | None => Panic "index out of bounds"
        end
      else Panic ("list index out of range: " +:+ pretty b)
  | dict_value a, str_value b =>
      Ok match im_get b (values a) with Some r => Shared r | None => Fresh undefined end
  | dict_value _, _ => Ok (Fresh undefined)
  | schema_value a, str_value b =>
      Ok match im_get b (values (config a)) with Some r => Shared r | None => Fresh undefined end
  | _, _ => Panic ("'" +:+ type_str self +:+ "' object is not subscriptable with '" +:+
                   type_str x +:+ "'")
  end.

Definition bin_subscr_option self x : outcome (read V) :=
  if is_truthy self then bin_subscr self x else Ok (Fresh none).

End Operators.

(** ** Integer arithmetic is exact or panics *)

Inductive arith_op := Add | Sub | Mul | Pow.

Definition exact (op : arith_op) (a b : Z) : Z :=
  match op with Add => a + b | Sub => a - b | Mul => a * b | Pow => a ^ b end.

Definition run {V} (cfg : ContextConfig) (oc : bool) (powf : f64 -> f64 -> f64) (op : arith_op)
    : Value V -> Value V -> outcome (Value V) :=
  match op with
  | Add => bin_add cfg oc
  | Sub => bin_sub cfg oc
  | Mul => bin_mul cfg oc
  | Pow => bin_pow cfg oc powf
  end.

(** The operands and the result are in the range the configuration asks for. *)
Definition fits (cfg : ContextConfig) (a b z : Z) : bool :=
  in_i64 z && (negb (strict_range_check cfg) || (in_i32 a && in_i32 b && in_i32 z)).

Section Arithmetic.
Context {V : Type} (cfg : ContextConfig) (oc : bool) (powf : f64 -> f64 -> f64).
Implicit Types a b z : Z.

Lemma is_i32_overflow_in v : is_i32_overflow v = negb (in_i32 v).
Proof. unfold is_i32_overflow, in_i32. rewrite !Z.ltb_antisym. by destruct (_ <=? _), (_ <=? _). Qed.

Lemma check32_none z : is_none_opt (check32 z) = negb (in_i32 z).
Proof. unfold check32. by destruct (in_i32 z). Qed.

Lemma check64_none z : is_none_opt (check64 z) = negb (in_i64 z).
Proof. unfold check64. by destruct (in_i64 z). Qed.

(** On non-negative exponents [checked_pow] is the power, when it fits. *)
Lemma pow_small a n : 0 <= n -> Z.abs a <= 1 -> n <> 0 ->
  a ^ n = if (a =? -1) && Z.even n then 1 else a.
Proof.
  intros Hn Ha H0. assert (a = -1 \/ a = 0 \/ a = 1) as [-> | [-> | ->]] by lia; simpl.
  - destruct (Z.even n) eqn:E.
    + apply Z.even_spec in E as [k ->]. rewrite Z.pow_mul_r by lia. change ((-1) ^ 2) with 1.
      apply Z.pow_1_l. lia.
    + rewrite <- Z.negb_odd in E. apply negb_false_iff, Z.odd_spec in E as [k ->].
      rewrite Z.pow_add_r, Z.pow_mul_r by lia. change ((-1) ^ 2) with 1. by rewrite Z.pow_1_l by lia.
  - apply Z.pow_0_l. lia.
  - apply Z.pow_1_l. lia.
Qed.

Lemma pow_large a n w : 0 < w <= n -> 2 <= Z.abs a -> 2 ^ w <= Z.abs (a ^ n).
Proof.
  intros Hw Ha. rewrite Z.abs_pow. transitivity (Z.abs a ^ w); [apply Z.pow_le_mono_l; lia|].
  apply Z.pow_le_mono_r; lia.
Qed.

Lemma checked_pow_spec (w a n : Z) check :
  0 < w <= 128 -> 0 <= n ->
  (forall z, check z = if (- 2 ^ (w - 1) <=? z) && (z <=? 2 ^ (w - 1) - 1) then Some z else None) ->
  (1 < w) -> checked_pow check a n = check (a ^ n).
Proof.
  intros Hw Hn Hc Hw1. unfold checked_pow.
  assert (H2 : 2 <= 2 ^ (w - 1)) by (change 2 with (2 ^ 1) at 1; apply Z.pow_le_mono_r; lia).
  destruct (Z.eqb_spec n 0) as [->|H0].
  { rewrite Hc, Z.pow_0_r. rewrite (proj2 (Z.leb_le _ _)), (proj2 (Z.leb_le _ _)) by lia. done. }
  destruct (Z.leb_spec (Z.abs a) 1) as [Ha|Ha].
  { rewrite pow_small, Hc by done.
    destruct ((a =? -1) && Z.even n);
      rewrite (proj2 (Z.leb_le _ _)), (proj2 (Z.leb_le _ _)) by lia; done. }
  destruct (Z.leb_spec 128 n) as [Hl|Hl]; [|done].
  pose proof (pow_large a n w ltac:(lia) ltac:(lia)) as Hp. rewrite Hc.
  assert (H3 : 2 ^ (w - 1) < 2 ^ w) by (apply Z.pow_lt_mono_r; lia).
  destruct (_ && _) eqn:E; [|done]. apply andb_true_iff in E. lia.
Qed.

Lemma checked_pow64 a n : 0 <= n -> checked_pow check64 a n = check64 (a ^ n).
Proof. intros Hn. by apply (checked_pow_spec 64). Qed.

Lemma checked_pow32 a n : 0 <= n -> checked_pow check32 a n = check32 (a ^ n).
Proof. intros Hn. by apply (checked_pow_spec 32). Qed.

(** The guards of one integer operation: [ov32] and [ov64] are the overflow tests, [z] the
    exact result, [p32] and [p64] the panics. *)
Lemma guarded_exact a b z (ov32 ov64 : bool) (p32 p64 : outcome unit) (op : outcome Z)
    (H32 : ov32 = negb (in_i32 a && in_i32 b && in_i32 z))
    (H64 : ov64 = negb (in_i64 z))
    (Hop : in_i64 z = true -> op = Ok z)
    (P32 : exists m, p32 = Panic m) (P64 : exists m, p64 = Panic m) :
  let r := _ ← panic_if (strict_range_check_32 cfg && ov32) p32;
           _ ← panic_if (strict_range_check_64 cfg && ov64) p64;
           v ← op; Ok (int_value (V := V) v) in
  if fits cfg a b z then r = Ok (int_value z) else exists m, r = Panic m.
Proof.
  subst ov32 ov64. destruct P32 as [m32 ->], P64 as [m64 ->].
  unfold fits, strict_range_check_32, strict_range_check_64.
  destruct (strict_range_check cfg); simpl.
  - destruct (in_i32 a && in_i32 b && in_i32 z) eqn:E; simpl.
    + apply andb_true_iff in E as [_ E%i32_in_i64]. rewrite E. simpl.
      rewrite orb_false_r, andb_false_r. simpl. by rewrite Hop.
    + rewrite andb_false_r. eauto.
  - rewrite orb_true_r, andb_true_r. destruct (in_i64 z); simpl; [by rewrite Hop|eauto].
Qed.

Lemma as_u32_small z : 0 <= z <= i32_max -> as_u32 z = z.
Proof. unfold i32_max, as_u32, wrap_u. intros H. apply Z.mod_small. lia. Qed.

Lemma overflow32 a b z z' :
  (in_i32 a = true -> in_i32 b = true -> z' = z) ->
  is_i32_overflow2 a b || is_none_opt (check32 z') = negb (in_i32 a && in_i32 b && in_i32 z).
Proof.
  intros H. unfold is_i32_overflow2. rewrite !is_i32_overflow_in, check32_none.
  destruct (in_i32 a), (in_i32 b); simpl; try done. by rewrite H.
Qed.

Lemma pow128_panics a b (f : Z -> outcome unit) :
  (forall z, exists m, f z = Panic m) -> exists m, (v ← pow128 oc a b; f v) = Panic m.
Proof.
  intros Hf. unfold pow128, pow_w. destruct (checked_pow _ _ _); simpl; [apply Hf|].
  destruct oc; simpl; [eauto|apply Hf].
Qed.

End Arithmetic.


(** ** Division, shifts *)

Section Division.
Context {V : Type} (cfg : ContextConfig) (oc : bool).
Implicit Types a b : Z.

(** A division that is defined on [i64]. *)
Definition divisible a b : bool := negb (b =? 0) && in_i64 (Z.quot a b).

(** Truncated division to floored division: one step down exactly when the remainder is
    not zero and the signs differ. *)
Lemma floor_from_trunc a b :
  b <> 0 ->
  let q := Z.quot a b in
  let r := Z.rem a b in
  if xorb (a <? 0) (b <? 0) && negb (r =? 0)
  then a / b = q - 1 /\ a mod b = r + b /\ r <> 0
  else a / b = q /\ a mod b = r.
Proof.
  intros Hb q r. pose proof (Z.quot_rem a b Hb) as E.
  fold q r in E.
  assert (Hr : 0 <= a /\ 0 <= r < Z.abs b \/ a < 0 /\ - Z.abs b < r <= 0).
  { destruct (Z.le_gt_cases 0 a) as [Ha|Ha].
    - left. split; [done|]. pose proof (Z.rem_bound_pos a (Z.abs b) Ha ltac:(lia)) as B.
      by rewrite Z.rem_abs_r in B.
    - right. split; [done|]. pose proof (Z.rem_bound_pos (- a) (Z.abs b) ltac:(lia) ltac:(lia)) as B.
      rewrite Z.rem_abs_r, Z.rem_opp_l in B by done. fold r in B. lia. }
  assert (Hu : forall q' r', a = b * q' + r' -> (0 <= r' < b \/ b < r' <= 0) -> a / b = q' /\ a mod b = r').
  { intros q' r' E' B. split; symmetry; [by apply (Z.div_unique a b q' r')|by apply (Z.mod_unique a b q' r')]. }
  clearbody q r. destruct (Z.eqb_spec r 0) as [H0|H0]; simpl; rewrite ?andb_false_r, ?andb_true_r.
  - apply Hu; lia.
  - destruct (Z.ltb_spec a 0), (Z.ltb_spec b 0); simpl.
    + apply Hu; lia.
    + destruct (Hu (q - 1) (r + b)) as [E1 E2]; [lia|lia|done].
    + destruct (Hu (q - 1) (r + b)) as [E1 E2]; [lia|lia|done].
    + apply Hu; lia.
Qed.

Lemma quot_step a b :
  in_i64 (Z.quot a b) = true -> in_i64 a = true -> b <> 0 -> Z.rem a b <> 0 ->
  xorb (a <? 0) (b <? 0) = true -> in_i64 (Z.quot a b - 1) = true.
Proof.
  rewrite !in_i64_spec. unfold i64_min, i64_max. intros Hq Ha Hb Hr Hs.
  pose proof (Z.quot_rem a b Hb) as E.
  assert (Hb1 : 2 <= Z.abs b).
  { destruct (decide (b = 1)) as [->|]; [by rewrite Z.rem_1_r in Hr|].
    destruct (decide (b = -1)) as [->|]; [|lia].
    exfalso. apply Hr. change (-1) with (- (1)). by rewrite Z.rem_opp_r, Z.rem_1_r by lia. }
  pose proof (Z.quot_abs a b Hb) as Qa.
  assert (Z.abs (Z.quot a b) <= Z.abs a / 2).
  { rewrite <- Qa, Z.quot_div_nonneg by lia. apply Z.div_le_compat_l; lia. }
  assert (Z.abs a / 2 <= 2 ^ 62).
  { apply Z.div_le_upper_bound; lia. }
  lia.
Qed.

(** C32: integer [//] and [%] are the floored quotient and the remainder with the sign of
    the divisor, in every build, whenever the division is defined on 64-bit integers; a
    zero divisor and [MIN / -1] panic. *)
Theorem int_division_is_floored a b :
  in_i64 a = true -> in_i64 b = true ->
  if divisible a b
  then bin_floor_div oc (int_value a) (int_value b) = Ok (int_value (V := V) (a / b)) /\
       bin_mod oc (int_value a) (int_value b) = Ok (int_value (V := V) (a mod b)) /\
       a = b * (a / b) + a mod b
  else (exists m, bin_floor_div oc (int_value (V := V) a) (int_value b) = Panic m) /\
       (exists m, bin_mod oc (int_value (V := V) a) (int_value b) = Panic m).
Proof.
  intros Ha Hb. unfold divisible. cbn [bin_floor_div bin_mod]. unfold rem64, div64.
  destruct (Z.eqb_spec b 0) as [->|Hb0]; cbn [negb andb].
  { destruct (xorb _ _); simpl; eauto. }
  pose proof (floor_from_trunc a b Hb0) as F. cbv zeta in F.
  pose proof (quot_step a b) as QS.
  destruct (in_i64 (Z.quot a b)) eqn:Eq; cycle 1.
  { destruct (xorb _ _); simpl; eauto. }
  assert (Z.abs (Z.rem a b) < Z.abs b) by (by apply Z.rem_bound_abs).
  apply in_i64_spec in Ha as Ha', Hb as Hb'.
  destruct (xorb (a <? 0) (b <? 0)) eqn:Es; simpl in F |- *.
  - destruct (Z.eqb_spec (Z.rem a b) 0) as [H0|H0]; simpl in F |- *.
    + destruct F as [-> ->]. split_and!; [done|done|apply Z.quot_rem'].
    + destruct F as (Ed & Em & _). rewrite arith64_exact by auto. simpl.
      rewrite arith64_exact; [rewrite Ed, Em; split_and!; [done|done|]|].
      * pose proof (Z.quot_rem' a b). lia.
      * apply in_i64_spec. rewrite <- Em. pose proof (Z.mod_pos_bound a b). pose proof (Z.mod_neg_bound a b).
        unfold i64_min, i64_max in *. lia.
  - destruct F as [-> ->]. split_and!; [done|done|apply Z.quot_rem'].
Qed.

(** The amount passes the range checks exactly when it is below the width. *)
Lemma amount_below w (b : Z) :
  0 < w <= 64 -> is_i32_overflow b || negb (as_u32 b <? w) = negb ((0 <=? b) && (b <? w)).
Proof.
  intros Hw. rewrite is_i32_overflow_in. unfold as_u32, wrap_u.
  destruct (Z.leb_spec 0 b) as [Hb|Hb]; simpl.
  - destruct (Z.ltb_spec b w) as [Hl|Hl]; simpl.
    + rewrite (proj2 (in_i32_spec b)) by (unfold i32_min, i32_max; lia).
      rewrite Z.mod_small by lia. by rewrite (proj2 (Z.ltb_lt _ _)).
    + destruct (in_i32 b) eqn:E; [|done]. apply in_i32_spec in E. unfold i32_min, i32_max in E.
      rewrite Z.mod_small by lia. by rewrite (proj2 (Z.ltb_ge _ _)).
  - destruct (in_i32 b) eqn:E; [|done]. apply in_i32_spec in E. unfold i32_min, i32_max in E.
    replace (b mod 2 ^ 32) with (b + 2 ^ 32); [by rewrite (proj2 (Z.ltb_ge _ _)) by lia|].
    apply (Z.mod_unique _ _ (-1)); lia.
Qed.

Lemma checked_shl_none w a n : is_none_opt (checked_shl w a n) = negb (n <? w).
Proof. unfold checked_shl. by destruct (n <? w). Qed.

Lemma checked_shr_none w a n : is_none_opt (checked_shr w a n) = negb (n <? w).
Proof. unfold checked_shr. by destruct (n <? w). Qed.

Lemma shift_guards a b :
  let ok32 := (0 <=? b) && (b <? 32) && in_i32 a in
  let ok64 := (0 <=? b) && (b <? 64) in
  is_i32_overflow_shl a b = negb ok32 /\ is_i32_overflow_shr a b = negb ok32 /\
  is_i64_overflow_shl a b = negb ok64 /\ is_i64_overflow_shr a b = negb ok64.
Proof.
  unfold is_i32_overflow_shl, is_i32_overflow_shr, is_i64_overflow_shl, is_i64_overflow_shr,
    is_i32_overflow2. rewrite !checked_shl_none, !checked_shr_none, (amount_below 64) by lia.
  rewrite <- orb_assoc, (amount_below 32), (is_i32_overflow_in a), <- negb_andb by lia.
  by rewrite (andb_comm (in_i32 a)).
Qed.

Lemma then_panics {A B} (o : outcome A) (f : A -> outcome B) :
  (forall z, exists m, f z = Panic m) -> exists m, (v ← o; f v) = Panic m.
Proof. intros Hf. destruct o; simpl; [apply Hf|eauto]. Qed.

(** The two guards of a shift, then the shift itself. *)
Lemma guarded_shift (ok : bool) (ok32 ok64 : bool) (p32 p64 : outcome unit) (op : outcome Z) z
    (Hok : ok = if strict_range_check cfg then ok32 else ok64) (Himp : ok32 = true -> ok64 = true)
    (Hop : ok64 = true -> op = Ok z)
    (P32 : exists m, p32 = Panic m) (P64 : exists m, p64 = Panic m) :
  let r := _ ← panic_if (strict_range_check_32 cfg && negb ok32) p32;
           _ ← panic_if (strict_range_check_64 cfg && negb ok64) p64;
           v ← op; Ok (int_value (V := V) v) in
  if ok then r = Ok (int_value z) else exists m, r = Panic m.
Proof.
  subst ok. destruct P32 as [m32 ->], P64 as [m64 ->].
  unfold strict_range_check_32, strict_range_check_64.
  destruct (strict_range_check cfg); simpl.
  - destruct ok32; simpl; [|eauto].
    by rewrite (Hop (Himp eq_refl)), (Himp eq_refl), andb_false_r.
  - rewrite orb_true_r. destruct ok64; simpl; [by rewrite (Hop eq_refl)|eauto].
Qed.

(** a shift is defined exactly for an amount below the width the configuration checks
    (32 bits under the strict range check, whose operands must be 32-bit integers, 64
    bits otherwise); the left shift then keeps the low 64 bits, silently. *)
Theorem shift_amount_checked a b :
  in_i64 a = true -> in_i64 b = true ->
  if (0 <=? b) && (if strict_range_check cfg then (b <? 32) && in_i32 a else b <? 64)
  then bin_bit_lshift cfg oc (int_value a) (int_value b) =
         Ok (int_value (V := V) (as_i64 (a * 2 ^ b))) /\
       bin_bit_rshift cfg oc (int_value a) (int_value b) = Ok (int_value (V := V) (a / 2 ^ b))
  else (exists m, bin_bit_lshift cfg oc (int_value (V := V) a) (int_value b) = Panic m) /\
       (exists m, bin_bit_rshift cfg oc (int_value (V := V) a) (int_value b) = Panic m).
Proof.
  intros Ha Hb. cbn [bin_bit_lshift bin_bit_rshift].
  destruct (shift_guards a b) as (-> & -> & -> & ->).
  set (ok32 := (0 <=? b) && (b <? 32) && in_i32 a). set (ok64 := (0 <=? b) && (b <? 64)).
  set (ok := (0 <=? b) && (if strict_range_check cfg then _ else _)).
  assert (Eok : ok = if strict_range_check cfg then ok32 else ok64).
  { unfold ok, ok32, ok64. destruct (strict_range_check cfg); [by rewrite andb_assoc|done]. }
  assert (Himp : ok32 = true -> ok64 = true).
  { unfold ok32, ok64. rewrite !andb_true_iff, !Z.leb_le, !Z.ltb_lt. lia. }
  assert (Hs : ok64 = true -> shl_w oc 64 a b = Ok (as_i64 (a * 2 ^ b)) /\
                              shr_w oc 64 a b = Ok (a / 2 ^ b)).
  { intros E. unfold shl_w, shr_w. fold ok64. rewrite E. apply andb_true_iff in E as [E _].
    rewrite Z.leb_le in E. by rewrite Z.shiftl_mul_pow2, Z.shiftr_div_pow2. }
  pose proof (guarded_shift ok ok32 ok64 (v ← shl_w oc 128 a (as_u32 b); panic_i32_overflow v)
    (v ← shl_w oc 128 a (as_u32 b); panic_i64_overflow v) (shl_w oc 64 a b) _ Eok Himp
    (fun E => proj1 (Hs E))) as G1.
  pose proof (guarded_shift ok ok32 ok64 (v ← shr_w oc 128 a (as_u32 b); panic_i32_overflow v)
    (v ← shr_w oc 128 a (as_u32 b); panic_i64_overflow v) (shr_w oc 64 a b) _ Eok Himp
    (fun E => proj2 (Hs E))) as G2.
  destruct ok; (split; [apply G1|apply G2]); apply then_panics; by eexists.
Qed.
End Division.

Lemma int_division_is_floored_witness :
  bin_floor_div true (int_value (-7)) (int_value 2) = Ok (int_value (V := value) (-4)) /\
  bin_mod true (int_value (V := value) (-7)) (int_value 2) = Ok (int_value 1) /\
  (exists m, bin_mod false (int_value (V := value) i64_min) (int_value (-1)) = Panic m).
Proof.
  destruct (int_division_is_floored (V := value) true (-7) 2 eq_refl eq_refl) as (H1 & H2 & _).
  destruct (int_division_is_floored (V := value) false i64_min (-1) eq_refl eq_refl) as (_ & H3).
  done.
Defined.

Lemma shift_amount_checked_witness :
  let lax := {| debug_mode := false; strict_range_check := false |} in
  bin_bit_lshift lax true (int_value 1) (int_value 63) = Ok (int_value (V := value) i64_min) /\
  (exists m, bin_bit_lshift lax true (int_value (V := value) 1) (int_value 64) = Panic m).
Proof.
  intros lax. split.
  - exact (proj1 (shift_amount_checked (V := value) lax true 1 63 eq_refl eq_refl)).
  - exact (proj1 (shift_amount_checked (V := value) lax true 1 64 eq_refl eq_refl)).
Defined.

(** ** Subscripts *)

(** The position a subscript denotes in a sequence of [len] elements: from the end when it
    is negative. *)
Definition position (len : nat) (b : Z) : option nat :=
  let n := Z.of_nat len in
  if (0 <=? b) && (b <? n) then Some (Z.to_nat b)
  else if (- n <=? b) && (b <? 0) then Some (Z.to_nat (b + n))
  else None.

Section Subscript.
Context {V : Type} (oc : bool).

Lemma subscr_index_position b len (bound : Z) :
  in_i64 b = true -> Z.of_nat len <= bound <= isize_max ->
  exists i, subscr_index oc b len = Ok i /\
  match position len b with
  | Some p => i = Z.of_nat p /\ (p < len)%nat
  | None => Z.of_nat len <= i /\ (Z.of_nat len = bound -> bound <= i)
  end.
Proof.
  rewrite in_i64_spec. unfold subscr_index, position, i64_min, i64_max, isize_max, as_usize, wrap_u.
  intros Hb Hn. destruct (Z.ltb_spec b 0) as [Hneg|Hpos].
  - rewrite (proj2 (Z.leb_gt 0 b)) by lia. cbn [andb]. rewrite andb_true_r.
    rewrite arith64_exact by (apply in_i64_spec; unfold i64_min, i64_max; lia).
    eexists. split; [reflexivity|]. destruct (Z.leb_spec (- Z.of_nat len) b).
    + rewrite Z.mod_small by lia. lia.
    + assert (E : b + Z.of_nat len + 2 ^ 64 = (b + Z.of_nat len) mod 2 ^ 64).
      { apply (Z.mod_unique _ _ (-1)); lia. }
      rewrite <- E. lia.
  - rewrite (proj2 (Z.leb_le 0 b)) by lia. cbn [andb]. eexists. split; [reflexivity|].
    rewrite Z.mod_small by lia. destruct (Z.ltb_spec b (Z.of_nat len)); simpl; [lia|].
    rewrite andb_false_r. lia.
Qed.

(** a list or string subscript is defined exactly for the positions [-len <= i < len],
    where [len] counts elements or characters, and gives the element (the same reference)
    or the character there; every other subscript panics. *)
Theorem subscript_bounds (l : list V) (s : string) (b : Z) :
  Z.of_nat (length l) <= isize_max -> Z.of_nat (String.length s) <= isize_max -> utf8 s ->
  in_i64 b = true ->
  match position (length l) b with
  | Some p => exists r, nth_error l p = Some r /\
                bin_subscr oc (list_value l) (int_value b) = Ok (Shared r)
  | None => exists m, bin_subscr oc (list_value l) (int_value b) = Panic m
  end /\
  match position (length (chars s)) b with
  | Some p => exists c, nth_error (chars s) p = Some c /\
                bin_subscr (V := V) oc (str_value s) (int_value b) = Ok (Fresh (str_value (encode_char c)))
  | None => exists m, bin_subscr (V := V) oc (str_value s) (int_value b) = Panic m
  end.
Proof.
  intros Hl Hs Hu Hb. pose proof (chars_le_bytes s Hu) as Hc. split.
  - cbn [bin_subscr].
    destruct (subscr_index_position b (length l) (Z.of_nat (length l)) Hb ltac:(lia)) as (i & -> & Hi).
    simpl. destruct (position (length l) b) as [p|].
    + destruct Hi as [-> Hp]. rewrite (proj2 (Z.ltb_lt _ _)), Nat2Z.id by lia.
      destruct (nth_error l p) as [r|] eqn:E; [eauto|]. apply nth_error_None in E. lia.
    + rewrite (proj2 (Z.ltb_ge _ _)) by lia. eauto.
  - cbn [bin_subscr].
    destruct (subscr_index_position b (length (chars s)) (Z.of_nat (String.length s)) Hb ltac:(lia))
      as (i & -> & Hi).
    simpl. destruct (position (length (chars s)) b) as [p|].
    + destruct Hi as [-> Hp]. rewrite (proj2 (Z.ltb_lt _ _)), Nat2Z.id by lia.
      destruct (nth_error (chars s) p) as [c|] eqn:E; [eauto|]. apply nth_error_None in E. lia.
    + destruct (i <? _); [|eauto].
      destruct (nth_error (chars s) (Z.to_nat i)) as [c|] eqn:E; [|eauto].
      assert (Hlt : (Z.to_nat i < length (chars s))%nat) by (apply nth_error_Some; by rewrite E). lia.
Qed.

End Subscript.

Lemma subscript_bounds_witness :
  bin_subscr (V := value) true (str_value "a€z") (int_value (-2)) = Ok (Fresh (str_value "€")) /\
  bin_subscr true (list_value [v_int 5; v_int 6]) (int_value (-2)) = Ok (Shared (v_int 5)) /\
  exists m, bin_subscr (V := value) true (str_value "a€z") (int_value 3) = Panic m.
Proof.
  assert (U : utf8 "a€z") by (exists [97; 8364; 122]; done).
  assert (L : Z.of_nat (length [v_int 5; v_int 6]) <= isize_max) by (unfold isize_max; simpl; lia).
  assert (S : Z.of_nat (String.length "a€z") <= isize_max) by (unfold isize_max; simpl; lia).
  destruct (subscript_bounds true [v_int 5; v_int 6] "a€z" (-2) L S U eq_refl)
    as [(r & Er & Hl) (c & Ec & Hc)].
  destruct (subscript_bounds true [v_int 5; v_int 6] "a€z" 3 L S U eq_refl) as [_ Hp].
  simpl in Er. injection Er as <-. split_and!; [|exact Hl|exact Hp].
  rewrite Hc. vm_compute in Ec. injection Ec as <-. reflexivity.
Defined.
