(* ===== verification/ValueList.v ===== *)
(** * Slices, lookups by path and iteration

    Models the parts of [kclvm/runtime/src/value/val_list.rs] that only read, and
    [kclvm/runtime/src/value/{val_get_set,iter}.rs]. *)

From S2P Require Import Prelude MachineInt Floats Chars Utf8 Value ValueCmp ValueBin.

(** ** Slices *)

Section Slice.
Context {V : Type} (oc : bool).
Implicit Types start stop step : Value V.

Definition slice_unpack start stop step : outcome (Z * Z * Z) :=
  step_val ← match step with
             | int_value step => if step =? 0 then Panic "slice step cannot be zero" else Ok step
             | _ => Ok 1
             end;
  let start_val := match start with
                   | int_value start => start
                   | _ => if step_val <? 0 then i64_max else 0
                   end in
  let stop_val := match stop with
                  | int_value stop => stop
                  | _ => if step_val <? 0 then i64_min else i64_max
                  end in
  Ok (start_val, stop_val, step_val).

(** The adjustment of one bound. *)
Definition adjust_index (len x step : Z) : outcome Z :=
  if x <? 0 then
    x ← arith64 oc (x + len);
    Ok (if x <? 0 then (if step <? 0 then -1 else 0) else x)
  else if len <=? x then
    (if step <? 0 then arith64 oc (len - 1) else Ok len)
  else Ok x.

Definition slice_adjust_indices (len start stop step : Z) : outcome (Z * Z * Z) :=
  _ ← (if step =? 0 then Panic "assertion failed: step != 0" else Ok tt);
  start ← adjust_index len start step;
  stop ← adjust_index len stop step;
  slice_len ←
    (if step <? 0 then
       if stop <? start then
         d ← arith64 oc (start - stop);
         d ← arith64 oc (d - 1);
         s ← arith64 oc (- step);
         q ← div64 d s;
         arith64 oc (q + 1)
       else Ok 0
     else if start <? stop then
       d ← arith64 oc (stop - start);
       d ← arith64 oc (d - 1);
       q ← div64 d step;
       arith64 oc (q + 1)
     else Ok 0);
  Ok (start, stop, slice_len).

(** The loop that copies [n] elements from [cur] on. *)
Fixpoint slice_loop {A} (l : list A) (cur step : Z) (n : nat) : outcome (list A) :=
  match n with
  | O => Ok []
  | S n' =>
      match nth_error l (Z.to_nat (as_usize cur)) with
      | None => Panic "index out of bounds"
      | Some a =>
          cur ← arith64 oc (cur + step);
          rest ← slice_loop l cur step n';
          Ok (a :: rest)
      end
  end.

Definition slice_of {A} (l : list A) start stop step : outcome (list A) :=
  '(start, stop, step) ← slice_unpack start stop step;
  '(start, _, slice_len) ← slice_adjust_indices (Z.of_nat (length l)) start stop step;
  slice_loop l start step (Z.to_nat slice_len).

Definition list_slice (self start stop step : Value V) : outcome (Value V) :=
  match self with
  | list_value l => r ← slice_of l start stop step; Ok (list_value r)
  | str_value s => r ← slice_of (chars s) start stop step; Ok (str_value (encode r))
  | _ => Panic ("invalid slice object " +:+ type_str self)
  end.

(** ** Reads of a list *)

Definition list_get (self : Value V) (i : Z) : outcome (option V) :=
  match self with
  | list_value l =>
      index ← (if i <? 0 then j ← arith64 oc (i + Z.of_nat (length l)); Ok (as_usize j)
               else Ok (as_usize i));
      match l with
      | [] => Ok None
      | _ => if index <? Z.of_nat (length l) then Ok (nth_error l (Z.to_nat index))
             else Panic "index out of bounds"
      end
  | _ => Panic "Invalid list object in list_get"
  end.

Definition list_get_option (self : Value V) (i : Z) : outcome (option V) :=
  match self with
  | list_value l =>
      index ← (if i <? 0 then j ← arith64 oc (i + Z.of_nat (length l)); Ok (as_usize j)
               else Ok (as_usize i));
      Ok (if index <? Z.of_nat (length l) then nth_error l (Z.to_nat index) else None)
  | _ => Panic "Invalid list object in list_get_option"
  end.

End Slice.

Definition list_count (self item : value) : outcome nat :=
  match get self with
  | list_value l => Ok (length (List.filter (fun v => cmp_equal v item) l))
  | _ => Panic "Invalid list object in list_find"
  end.

Fixpoint find_from (i : Z) (item : value) (l : list value) : Z :=
  match l with
  | [] => -1
  | v :: l' => if cmp_equal v item then i else find_from (i + 1) item l'
  end.
Definition list_find (self item : value) : outcome Z :=
  match get self with
  | list_value l => Ok (find_from 0 item l)
  | _ => Panic "Invalid list object in list_find"
  end.

(** ** Lookup by key and by path ([val_get_set.rs]) *)

(** [str::parse::<usize>]: decimal digits, an optional plus sign, no overflow. *)
Fixpoint parse_digits (acc : Z) (s : string) : option Z :=
  match s with
  | EmptyString => Some acc
  | String c s' =>
      if is_digit10 (byte_val c) then
        let acc := acc * 10 + (byte_val c - 48) in
        if acc <=? usize_max then parse_digits acc s' else None
      else None
  end.
Definition parse_usize (s : string) : option Z :=
  match s with
  | EmptyString => None
  | String c EmptyString => parse_digits 0 s
  | String c s' => if bool_decide (c = "+"%char) then parse_digits 0 s' else parse_digits 0 s
  end.

Definition get_by_key {V} (self : Value V) (key : string) : option V :=
  match self with
  | list_value l =>
      match parse_usize key with
      | Some i => if i <? Z.of_nat (length l) then nth_error l (Z.to_nat i) else None
      | None => None
      end
  | dict_value d => im_get key (values d)
  | schema_value s => im_get key (values (config s))
  | _ => None
  end.

(** [path.split('.')]. *)
Fixpoint split_dots (s : string) : list string :=
  match s with
  | EmptyString => [EmptyString]
  | String c s' =>
      if bool_decide (c = "."%char) then EmptyString :: split_dots s'
      else match split_dots s' with
           | p :: ps => String c p :: ps
           | [] => [String c EmptyString]
           end
  end.

Fixpoint get_by_keys (val : value) (path : list string) : option value :=
  match path with
  | [] => Some val
  | key :: path' =>
      match get_by_key (get val) key with
      | Some x => get_by_keys x path'
      | None => None
      end
  end.
Definition get_by_path (self : value) (path : string) : option value :=
  get_by_keys self (split_dots path).

(** ** Iteration ([iter.rs]) *)

(** [end_val] is used as a flag: whether the pointer is not null. *)
Record ValueIterator := mkIterator {
  it_len : nat;
  cur_key : value;
  cur_val : value;
  end_val : bool;
  keys : list string;
  pos : Z;
}.

Definition default_iterator : ValueIterator :=
  {| it_len := 0; cur_key := v_undefined; cur_val := v_undefined; end_val := false;
     keys := []; pos := 0 |}.

Definition iterator_over (n : nat) (ks : list string) : ValueIterator :=
  {| it_len := n; cur_key := v_undefined; cur_val := v_undefined; end_val := true;
     keys := ks; pos := 0 |}.

Definition from_value (p : value) : outcome ValueIterator :=
  let v := get p in
  if negb (is_str v) && negb (is_list v) && negb (is_config v)
  then Panic ("'" +:+ type_str v +:+ "' object is not iterable")
  else
    e ← is_empty v;
    if (e : bool) then Ok default_iterator
    else Ok match v with
            | str_value s => iterator_over (String.length s) []
            | list_value l => iterator_over (length l) []
            | dict_value d => iterator_over (length (values d)) (map fst (values d))
            | schema_value s =>
                iterator_over (length (values (config s))) (map fst (values (config s)))
            | _ => default_iterator
            end.

Definition is_end (it : ValueIterator) : bool := as_i32 (Z.of_nat (it_len it)) <=? pos it.

Definition key (it : ValueIterator) : option value :=
  if (pos it =? 0) || (as_i32 (Z.of_nat (it_len it)) <? pos it) then None
  else if end_val it then Some (cur_key it) else None.

Definition val (it : ValueIterator) : option value :=
  if pos it =? 0 then None else if end_val it then Some (cur_val it) else None.

Definition set_current (it : ValueIterator) (k v : value) : outcome ValueIterator :=
  Ok {| it_len := it_len it; cur_key := k; cur_val := v; end_val := true; keys := keys it;
        pos := pos it + 1 |}.

(** The lookup of the key at the current position, in a dict or a schema. *)
Definition next_entry (it : ValueIterator) (m : list (string * value))
    : outcome (ValueIterator * option value) :=
  match nth_error (keys it) (Z.to_nat (as_usize (pos it))) with
  | None => Panic "index out of bounds"
  | Some k =>
      match im_get k m with
      | None => Panic "IndexMap: key not found"
      | Some v => it ← set_current it (v_str k) v; Ok (it, Some (v_str k))
      end
  end.

Definition next (it : ValueIterator) (host : value) : outcome (ValueIterator * option value) :=
  e ← is_empty (get host);
  if (e : bool) then Ok (it, None)
  else
    n ← len (get host);
    if as_i32 (Z.of_nat n) <=? pos it then
      Ok ({| it_len := it_len it; cur_key := cur_key it; cur_val := cur_val it;
             end_val := false; keys := keys it; pos := pos it |}, None)
    else
      match get host with
      | str_value s =>
          match nth_error (chars s) (Z.to_nat (as_usize (pos it))) with
          | None => Panic "called `Option::unwrap()` on a `None` value"
          | Some c =>
              it ← set_current it (v_int (pos it)) (v_str (encode_char c));
              Ok (it, Some (v_str (encode_char c)))
          end
      | list_value l =>
          match nth_error l (Z.to_nat (as_usize (pos it))) with
          | None => Panic "index out of bounds"
          | Some v => it ← set_current it (v_int (pos it)) v; Ok (it, Some v)
          end
      | dict_value d => next_entry it (values d)
      | schema_value s => next_entry it (values (config s))
      | v => Panic (type_str v +:+ " object is not iterable")
      end.

(** The loop of a comprehension, as it is compiled: test the end, take the next value, read
    the current key and value.  [fuel] bounds the number of iterations. *)
Fixpoint iterate (fuel : nat) (it : ValueIterator) (host : value)
    : outcome (list (value * value)) :=
  match fuel with
  | O => Panic "out of fuel"
  | S fuel' =>
      if is_end it then Ok []
      else
        '(it, r) ← next it host;
        match r with
        | None => Panic "null pointer"
        | Some _ =>
            rest ← iterate fuel' it host;
            Ok ((cur_key it, cur_val it) :: rest)
        end
  end.

Definition generate (fuel : nat) (host : value) : outcome (list (value * value)) :=
  it ← from_value host; iterate fuel it host.

(** ** Slices are those of the language the syntax comes from

    [range start stop step] are the positions a slice visits; [clamp] is the adjustment of
    a bound to a sequence of [len] elements. *)

Definition clamp (len x step : Z) : Z :=
  let x := if x <? 0 then x + len else x in
  if step <? 0 then Z.max (-1) (Z.min x (len - 1)) else Z.max 0 (Z.min x len).

Definition more (cur stop step : Z) : bool := if step <? 0 then stop <? cur else cur <? stop.

Fixpoint range (fuel : nat) (cur stop step : Z) : list nat :=
  match fuel with
  | O => []
  | S fuel' => if more cur stop step then Z.to_nat cur :: range fuel' (cur + step) stop step else []
  end.

Definition count (cur stop step : Z) : Z :=
  if step <? 0 then (if stop <? cur then (cur - stop - 1) / (- step) + 1 else 0)
  else (if cur <? stop then (stop - cur - 1) / step + 1 else 0).

Section SliceFacts.
Context {A : Type} (oc : bool) (l : list A).
Let n := Z.of_nat (length l).
Implicit Types start stop cur step : Z.
Context (n_ok : n <= isize_max).

Lemma n_nonneg : 0 <= n.
Proof. unfold n. lia. Qed.

Lemma adjust_index_clamp x step :
  in_i64 x = true -> adjust_index oc n x step = Ok (clamp n x step).
Proof.
  rewrite in_i64_spec. unfold adjust_index, clamp, i64_min, i64_max.
  pose proof n_nonneg. unfold isize_max in n_ok. intros Hx.
  destruct (Z.ltb_spec x 0).
  - rewrite arith64_exact by (apply in_i64_spec; unfold i64_min, i64_max; lia). simpl.
    f_equal. destruct (Z.ltb_spec (x + n) 0), (Z.ltb_spec step 0); lia.
  - destruct (Z.leb_spec n x).
    + destruct (Z.ltb_spec step 0); [|f_equal; lia].
      rewrite arith64_exact by (apply in_i64_spec; unfold i64_min, i64_max; lia). f_equal. lia.
    + f_equal. destruct (Z.ltb_spec step 0); lia.
Qed.

Lemma clamp_bounds x step :
  if step <? 0 then -1 <= clamp n x step <= n - 1 else 0 <= clamp n x step <= n.
Proof. unfold clamp. pose proof n_nonneg. destruct (Z.ltb_spec step 0); lia. Qed.

(** The adjusted bounds and the number of elements. *)
Lemma slice_adjust_indices_spec start stop step :
  in_i64 start = true -> in_i64 stop = true -> step <> 0 -> i64_min < step <= i64_max ->
  slice_adjust_indices oc n start stop step =
  Ok (clamp n start step, clamp n stop step, count (clamp n start step) (clamp n stop step) step).
Proof.
  intros Ha Hb Hs Hr. unfold slice_adjust_indices.
  rewrite (proj2 (Z.eqb_neq step 0)), !adjust_index_clamp by done. simpl.
  pose proof (clamp_bounds start step) as Ca. pose proof (clamp_bounds stop step) as Cb.
  pose proof n_nonneg. unfold isize_max in n_ok. unfold i64_min, i64_max in Hr.
  set (a := clamp n start step) in *. set (b := clamp n stop step) in *. clearbody a b.
  assert (Hin : forall z, -2 <= z -> z <= isize_max -> in_i64 z = true).
  { intros z Hz Hz'. apply in_i64_spec. unfold i64_min, i64_max, isize_max in *. lia. }
  assert (Hq : forall d s, 0 <= d -> 0 < s -> Z.quot d s = d / s /\ 0 <= d / s <= d).
  { intros d s Hd Hs'. rewrite Z.quot_div_nonneg by lia. split; [done|].
    split; [apply Z.div_pos; lia|]. apply Z.div_le_upper_bound; nia. }
  unfold count, div64. destruct (Z.ltb_spec step 0) as [Hneg|Hpos].
  - destruct (Z.ltb_spec b a) as [Hba|]; [|done].
    destruct (Hq (a - b - 1) (- step)) as [Eq Bq]; [lia|lia|].
    rewrite (arith64_exact _ (a - b)) by (apply Hin; unfold isize_max; lia). simpl.
    rewrite (arith64_exact _ (a - b - 1)) by (apply Hin; unfold isize_max; lia). simpl.
    rewrite (arith64_exact _ (- step)) by (apply in_i64_spec; unfold i64_min, i64_max; lia). simpl.
    rewrite (proj2 (Z.eqb_neq _ _)), Eq, Hin by (unfold isize_max; lia). simpl.
    by rewrite arith64_exact by (apply Hin; unfold isize_max; lia).
  - destruct (Z.ltb_spec a b) as [Hab|]; [|done].
    destruct (Hq (b - a - 1) step) as [Eq Bq]; [lia|lia|].
    rewrite (arith64_exact _ (b - a)) by (apply Hin; unfold isize_max; lia). simpl.
    rewrite (arith64_exact _ (b - a - 1)) by (apply Hin; unfold isize_max; lia). simpl.
    rewrite (proj2 (Z.eqb_neq _ _)), Eq, Hin by (unfold isize_max; lia). simpl.
    by rewrite arith64_exact by (apply Hin; unfold isize_max; lia).
Qed.

(** The count is the length of the walk. *)
Lemma count_step cur stop step :
  step <> 0 ->
  if more cur stop step then count cur stop step = 1 + count (cur + step) stop step
  else count cur stop step = 0.
Proof.
  intros Hs. unfold more, count. destruct (Z.ltb_spec step 0) as [Hneg|Hpos].
  - destruct (Z.ltb_spec stop cur) as [Hm|]; [|done].
    destruct (Z.ltb_spec stop (cur + step)).
    + replace (cur - stop - 1) with ((cur + step - stop - 1) + 1 * (- step)) by lia.
      rewrite Z.div_add by lia. lia.
    + rewrite (Z.div_small (cur - stop - 1)) by lia. lia.
  - destruct (Z.ltb_spec cur stop) as [Hm|]; [|done].
    destruct (Z.ltb_spec (cur + step) stop).
    + replace (stop - cur - 1) with ((stop - (cur + step) - 1) + 1 * step) by lia.
      rewrite Z.div_add by lia. lia.
    + rewrite (Z.div_small (stop - cur - 1)) by lia. lia.
Qed.

Lemma count_nonneg cur stop step : step <> 0 -> 0 <= count cur stop step.
Proof.
  intros Hs. unfold count. destruct (Z.ltb_spec step 0), (Z.ltb_spec stop cur), (Z.ltb_spec cur stop);
    try lia; match goal with |- 0 <= ?a / ?b + 1 => pose proof (Z.div_pos a b) end; lia.
Qed.

(** The elements at the visited positions are copied, in the order of the walk. *)
Lemma slice_loop_range fuel cur stop step :
  step <> 0 -> i64_min + n <= step <= i64_max - n ->
  (if step <? 0 then -1 <= stop /\ cur <= n - 1 else 0 <= cur /\ stop <= n) ->
  (Z.to_nat (count cur stop step) <= fuel)%nat ->
  exists r, slice_loop oc l cur step (Z.to_nat (count cur stop step)) = Ok r /\
    map Some r = map (nth_error l) (range fuel cur stop step).
Proof.
  intros Hs Hov. revert cur. induction fuel as [|fuel IH]; intros cur Hb Hf.
  { assert (Z.to_nat (count cur stop step) = 0%nat) as -> by lia. by exists []. }
  pose proof (count_step cur stop step Hs) as Hc. pose proof (count_nonneg (cur + step) stop step Hs).
  simpl. destruct (more cur stop step) eqn:Em; cycle 1.
  { rewrite Hc. by exists []. }
  rewrite Hc in Hf |- *. rewrite Z2Nat.inj_add by lia. change (Z.to_nat 1) with 1%nat. simpl.
  assert (Hcur : 0 <= cur < n).
  { unfold more in Em. destruct (Z.ltb_spec step 0); apply Z.ltb_lt in Em; lia. }
  unfold as_usize, wrap_u. unfold isize_max in n_ok. rewrite Z.mod_small by lia.
  destruct (nth_error l (Z.to_nat cur)) as [x|] eqn:Ex; cycle 1.
  { apply nth_error_None in Ex. unfold n in Hcur. lia. }
  rewrite arith64_exact by (apply in_i64_spec; unfold i64_min, i64_max in *; lia). simpl.
  destruct (IH (cur + step)) as (r & Er & Hr).
  - unfold more in Em. destruct (Z.ltb_spec step 0); apply Z.ltb_lt in Em; lia.
  - lia.
  - rewrite Er. exists (x :: r). split; [done|]. simpl. by rewrite Hr.
Qed.

Lemma count_le cur stop step :
  step <> 0 -> (if step <? 0 then -1 <= stop /\ cur <= n - 1 else 0 <= cur /\ stop <= n) ->
  count cur stop step <= n.
Proof.
  intros Hs. unfold count. pose proof n_nonneg.
  destruct (Z.ltb_spec step 0); intros Hb.
  - destruct (Z.ltb_spec stop cur); [|lia].
    pose proof (Z.div_le_upper_bound (cur - stop - 1) (- step) (cur - stop - 1)). nia.
  - destruct (Z.ltb_spec cur stop); [|lia].
    pose proof (Z.div_le_upper_bound (stop - cur - 1) step (stop - cur - 1)). nia.
Qed.
End SliceFacts.

(** The three numbers a slice uses: a missing start or stop is the far end in the
    direction of the step. *)
Definition slice_numbers {V} (start stop step : Value V) : Z * Z * Z :=
  let s := match step with int_value z => z | _ => 1 end in
  (match start with int_value z => z | _ => if s <? 0 then i64_max else 0 end,
   match stop with int_value z => z | _ => if s <? 0 then i64_min else i64_max end, s).

Section SliceTheorem.
Context {V : Type} (oc : bool).
Implicit Types start stop step : Value V.

Lemma slice_of_range {A} (l : list A) start stop step a b s :
  slice_numbers start stop step = (a, b, s) ->
  wf_level start -> wf_level stop -> s <> 0 ->
  let n := Z.of_nat (length l) in
  n <= isize_max -> i64_min + n <= s <= i64_max - n -> i64_min < s ->
  exists r, slice_of oc l start stop step = Ok r /\
    map Some r = map (nth_error l) (range (length l) (clamp n a s) (clamp n b s) s).
Proof.
  intros [= <- <- E] Ha Hb Hs n Hn Hov Hmin. rewrite E in *.
  unfold slice_of, slice_unpack. fold n.
  assert (Hu : match step with
    | int_value step => if step =? 0 then Panic "slice step cannot be zero" else Ok step
    | _ => Ok 1 end = Ok s).
  { subst s. destruct step; try done. by rewrite (proj2 (Z.eqb_neq _ _)). }
  rewrite Hu. cbn [mbind outcome_bind]. clear Hu E.
  set (x := match start with int_value _ => _ | _ => _ end).
  set (y := match stop with int_value _ => _ | _ => _ end).
  assert (Hx : in_i64 x = true) by (unfold x; destruct start; simpl in Ha; try done; by case_match).
  assert (Hy : in_i64 y = true) by (unfold y; destruct stop; simpl in Hb; try done; by case_match).
  rewrite (slice_adjust_indices_spec oc l) by (done || lia). cbn [mbind outcome_bind]. fold n.
  pose proof (clamp_bounds l x s) as Cx. pose proof (clamp_bounds l y s) as Cy. fold n in Cx, Cy.
  assert (Hwalk : if s <? 0 then -1 <= clamp n y s /\ clamp n x s <= n - 1
                  else 0 <= clamp n x s /\ clamp n y s <= n).
  { destruct (s <? 0); lia. }
  apply (slice_loop_range oc l Hn); [done|done|done|].
  pose proof (count_le l (clamp n x s) (clamp n y s) s Hs Hwalk). unfold n in *. lia.
Qed.

(** C21: a slice of a list or of a string, for any start, stop and step (missing ones
    included) whose step is not zero and not within one length of the 64-bit limits, is
    the sequence of the elements (the same references) or characters at the positions
    [range start stop step], both bounds counted from the end when negative and clamped to
    the sequence; it never panics. *)
Theorem slice_is_range (l : list V) (str : string) start stop step a b s :
  slice_numbers start stop step = (a, b, s) ->
  wf_level start -> wf_level stop -> s <> 0 -> utf8 str ->
  let bytes := Z.of_nat (String.length str) in
  let n := Z.of_nat (length l) in
  n <= isize_max -> bytes <= isize_max ->
  i64_min + n < s < i64_max - n -> i64_min + bytes < s < i64_max - bytes ->
  (exists r, list_slice oc (list_value l) start stop step = Ok (list_value r) /\
     map Some r = map (nth_error l) (range (length l) (clamp n a s) (clamp n b s) s)) /\
  (exists r, list_slice oc (str_value str) start stop step = Ok (str_value (encode r)) /\
     let m := Z.of_nat (length (chars str)) in
     map Some r = map (nth_error (chars str)) (range (length (chars str)) (clamp m a s) (clamp m b s) s)).
Proof.
  intros E Ha Hb Hs Hu bytes n Hn Hbytes Hov Hov'. pose proof (chars_le_bytes str Hu).
  cbn [list_slice]. split.
  - destruct (slice_of_range l start stop step a b s) as (r & -> & Hr); try done; [lia..|eauto].
  - destruct (slice_of_range (chars str) start stop step a b s) as (r & -> & Hr); try done; [lia..|eauto].
Qed.
End SliceTheorem.

Lemma slice_is_range_witness :
  exists r r', list_slice (V := value) true (list_value [v_int 1; v_int 2; v_int 3]) undefined undefined (int_value (-1))
    = Ok (list_value r) /\ r = [v_int 3; v_int 2; v_int 1] /\
  list_slice (V := value) true (str_value "a€z") undefined undefined (int_value (-1))
    = Ok (str_value (encode r')) /\ encode r' = "z€a".
Proof.
  assert (U : utf8 "a€z") by (exists [97; 8364; 122]; done).
  destruct (slice_is_range (V := value) true [v_int 1; v_int 2; v_int 3] "a€z" undefined undefined
    (int_value (-1)) i64_max i64_min (-1)) as [(r & Hr & Er) (r' & Hr' & Er')];
    try done; try (unfold isize_max; simpl; lia); try (unfold i64_min, i64_max; simpl; lia).
  exists r, r'. split_and!; [done| |done|].
  - vm_compute in Er. destruct r as [|? [|? [|? [|]]]]; simplify_eq/=. reflexivity.
  - vm_compute in Er'. destruct r' as [|? [|? [|? [|]]]]; simplify_eq/=. reflexivity.
Defined.

(** ** Lookup by path composes *)

Lemma split_dots_cons s : exists p ps, split_dots s = p :: ps.
Proof.
  induction s as [|c s (p & ps & IH)]; simpl; [eauto|]. rewrite IH. case_bool_decide; eauto.
Qed.

Lemma split_dots_app p q : split_dots (p +:+ String "."%char q) = split_dots p ++ split_dots q.
Proof.
  induction p as [|c p IH]; [done|]. rewrite str_app_cons. cbn [split_dots].
  rewrite IH. case_bool_decide; [done|].
  by destruct (split_dots_cons p) as (k & ks & ->).
Qed.

Lemma split_dots_key k : str_contains k "." = false -> split_dots k = [k].
Proof.
  induction k as [|c k IH]; [done|]. rewrite str_contains_eq. cbn [split_dots].
  intros [H1 H2]%orb_false_iff. rewrite IH by done. case_bool_decide as Hc; [|done].
  subst c. by destruct k.
Qed.

Lemma get_by_keys_app x p q :
  get_by_keys x (p ++ q) = match get_by_keys x p with Some y => get_by_keys y q | None => None end.
Proof.
  revert x. induction p as [|k p IH]; intros x; simpl; [done|].
  destruct (get_by_key (get x) k); [apply IH|done].
Qed.

(** looking a path up is looking its keys up one after the other: the lookup of
    [p.q] is the lookup of [q] in the result of [p], and the lookup of a key without a dot
    is the one of [get_by_key] (the entry of a dict or schema, the element of a list at a
    decimal index). *)
Theorem get_by_path_composes (x : value) (p q k : string) :
  get_by_path x (p +:+ "." +:+ q) =
    match get_by_path x p with Some y => get_by_path y q | None => None end /\
  (str_contains k "." = false -> get_by_path x k = get_by_key (get x) k).
Proof.
  unfold get_by_path. split.
  - change ("." +:+ q) with (String "."%char q). by rewrite split_dots_app, get_by_keys_app.
  - intros Hk. rewrite split_dots_key by done. simpl. by destruct (get_by_key (get x) k).
Qed.

Lemma get_by_path_composes_witness :
  let x := v_dict [("a", v_list [v_int 1; v_dict [("k", v_int 7)]])] in
  get_by_path x "a.1.k" = Some (v_int 7) /\ get_by_path x "b" = None.
Proof.
  intros x. split.
  - change "a.1.k" with ("a" +:+ "." +:+ "1.k").
    rewrite (proj1 (get_by_path_composes x "a" "1.k" "")). vm_compute. reflexivity.
  - rewrite (proj2 (get_by_path_composes x "" "" "b") eq_refl). vm_compute. reflexivity.
Defined.

(** ** Iteration *)

(** The elements a loop visits, with their keys. *)
Definition elements (v : Value value) : list (value * value) :=
  match v with
  | str_value s => imap (fun i c => (v_int (Z.of_nat i), v_str (encode_char c))) (chars s)
  | list_value l => imap (fun i x => (v_int (Z.of_nat i), x)) l
  | dict_value d => map (fun kv => (v_str kv.1, kv.2)) (values d)
  | schema_value s => map (fun kv => (v_str kv.1, kv.2)) (values (config s))
  | _ => []
  end.

Section Iteration.
Context (host : value) (n : nat) (ks : list string) (els : list (value * value)).
Context (Hlen : len (get host) = Ok n) (Hn : Z.of_nat n <= i32_max).

Definition at_pos (it : ValueIterator) (i : nat) : Prop :=
  it_len it = n /\ keys it = ks /\ pos it = Z.of_nat i.
Definition advance (it : ValueIterator) (kv : value * value) : ValueIterator :=
  {| it_len := it_len it; cur_key := kv.1; cur_val := kv.2; end_val := true; keys := keys it;
     pos := pos it + 1 |}.

Context (Hstep : forall it i kv, at_pos it i -> nth_error els i = Some kv ->
  exists r, next it host = Ok (advance it kv, Some r)).

Lemma is_end_at it i : at_pos it i -> is_end it = (n <=? i)%nat.
Proof.
  intros (Hl & _ & Hp). unfold is_end. rewrite Hl, Hp.
  rewrite as_i32_id by (apply in_i32_spec; unfold i32_min, i32_max in *; lia).
  destruct (Nat.leb_spec n i); [apply Z.leb_le|apply Z.leb_gt]; lia.
Qed.

Lemma iterate_elements :
  length els = n ->
  forall fuel it i, at_pos it i -> (n - i < fuel)%nat -> iterate fuel it host = Ok (drop i els).
Proof.
  intros He. induction fuel as [|fuel IH]; intros it i Hat Hf; [lia|].
  cbn [iterate]. rewrite (is_end_at it i Hat).
  destruct (Nat.leb_spec n i) as [Hge|Hlt]; [by rewrite drop_ge by lia|].
  destruct (nth_error els i) as [kv|] eqn:E; cycle 1.
  { apply nth_error_None in E. lia. }
  destruct (Hstep it i kv Hat E) as (r & ->). cbn [mbind outcome_bind].
  destruct Hat as (Hl & Hk & Hp). rewrite (IH (advance it kv) (S i)); [|split_and!; simpl; [done..|lia]|lia].
  simpl. f_equal. symmetry. rewrite (drop_S _ kv i); [by destruct kv|].
  by rewrite <- E, nth_error_lookup.
Qed.

Lemma iterate_panics :
  (length els < n)%nat ->
  (forall it, at_pos it (length els) -> exists m, next it host = Panic m) ->
  forall fuel it i, at_pos it i -> (i <= length els)%nat -> (length els - i < fuel)%nat ->
  exists m, iterate fuel it host = Panic m.
Proof.
  intros He Hp. induction fuel as [|fuel IH]; intros it i Hat Hi Hf; [lia|].
  cbn [iterate]. rewrite (is_end_at it i Hat), (proj2 (Nat.leb_gt _ _)) by lia.
  destruct (nth_error els i) as [kv|] eqn:E; cycle 1.
  { apply nth_error_None in E. assert (i = length els) as -> by lia.
    destruct (Hp it Hat) as [m ->]. by exists m. }
  destruct (Hstep it i kv Hat E) as (r & ->). cbn [mbind outcome_bind].
  assert (i < length els)%nat by (apply nth_error_Some; by rewrite E).
  destruct Hat as (Hl & Hk & Hpos).
  destruct (IH (advance it kv) (S i)) as [m ->]; [split_and!; simpl; [done..|lia]|lia|lia|].
  by exists m.
Qed.
End Iteration.

Lemma as_usize_nat i : Z.of_nat i <= i32_max -> Z.to_nat (as_usize (Z.of_nat i)) = i.
Proof. unfold as_usize, wrap_u, i32_max. intros H. rewrite Z.mod_small by lia. lia. Qed.

(** One call of [next] at a position inside the host. *)
Lemma next_inside it host n i :
  len (get host) = Ok n -> Z.of_nat n <= i32_max -> pos it = Z.of_nat i -> (i < n)%nat ->
  next it host =
  match get host with
  | str_value s =>
      match nth_error (chars s) i with
      | None => Panic "called `Option::unwrap()` on a `None` value"
      | Some c => it ← set_current it (v_int (pos it)) (v_str (encode_char c));
                  Ok (it, Some (v_str (encode_char c)))
      end
  | list_value l =>
      match nth_error l i with
      | None => Panic "index out of bounds"
      | Some v => it ← set_current it (v_int (pos it)) v; Ok (it, Some v)
      end
  | dict_value d => next_entry it (values d)
  | schema_value s => next_entry it (values (config s))
  | v => Panic (type_str v +:+ " object is not iterable")
  end.
Proof.
  intros Hl Hn Hp Hi. unfold next, is_empty. rewrite Hl. cbn [mbind outcome_bind].
  destruct (Nat.eqb_spec n 0); [lia|].
  rewrite as_i32_id by (apply in_i32_spec; unfold i32_min, i32_max in *; lia).
  rewrite Hp, (proj2 (Z.leb_gt _ _)) by lia. by rewrite as_usize_nat by lia.
Qed.

Lemma next_entry_inside it (m : list (string * value)) i kv :
  NoDup (map fst m) -> keys it = map fst m -> pos it = Z.of_nat i -> Z.of_nat i <= i32_max ->
  nth_error m i = Some kv ->
  next_entry it m = Ok (advance it (v_str kv.1, kv.2), Some (v_str kv.1)).
Proof.
  intros Hd Hk Hp Hi E. unfold next_entry. rewrite Hk, Hp, as_usize_nat by done.
  rewrite nth_error_map, E. destruct kv as [k v]. simpl.
  rewrite (im_In_get k v m) by (done || by eapply nth_error_In). simpl. unfold advance. by rewrite Hp.
Qed.

Lemma nth_error_imap {A B} (f : nat -> A -> B) l i b :
  nth_error (imap f l) i = Some b -> exists a, nth_error l i = Some a /\ b = f i a.
Proof.
  rewrite !nth_error_lookup, list_lookup_imap. destruct (l !! i) as [a|]; [|done].
  intros [= <-]. eauto.
Qed.

Lemma nth_error_map_inv {A B} (f : A -> B) l i b :
  nth_error (map f l) i = Some b -> exists a, nth_error l i = Some a /\ b = f a.
Proof.
  rewrite nth_error_map. destruct (nth_error l i) as [a|]; [|done]. intros [= <-]. eauto.
Qed.

Lemma nth_error_lt {A} (l : list A) i a : nth_error l i = Some a -> (i < length l)%nat.
Proof. intros E. apply nth_error_Some. by rewrite E. Qed.

(** Each call of [next] yields the element at its position. *)
Lemma next_element host n ks it i kv :
  wf_value host -> len (get host) = Ok n -> Z.of_nat n <= i32_max ->
  match get host with
  | dict_value d => ks = map fst (values d)
  | schema_value s => ks = map fst (values (config s))
  | _ => True
  end ->
  at_pos n ks it i -> nth_error (elements (get host)) i = Some kv ->
  exists r, next it host = Ok (advance it kv, Some r).
Proof.
  intros Hw Hl Hn Hks (Hli & Hki & Hpi) E.
  destruct host as [v]. pose proof (everywhere_level _ _ Hw) as Hv.
  destruct v as [ | |b|z|f|s|l|d|s|f| ]; cbn [get elements] in *; try (by destruct i); simpl in Hl, Hv;
    injection Hl as <-.
  - apply nth_error_imap in E as (c & Ec & ->). pose proof (nth_error_lt _ _ _ Ec).
    pose proof (chars_le_bytes s Hv).
    rewrite (next_inside it _ (String.length s) i) by (done || lia). simpl. rewrite Ec. simpl.
    unfold advance. rewrite Hpi. eauto.
  - apply nth_error_imap in E as (c & Ec & ->). pose proof (nth_error_lt _ _ _ Ec).
    rewrite (next_inside it _ (length l) i) by (done || lia). simpl. rewrite Ec. simpl.
    unfold advance. rewrite Hpi. eauto.
  - apply nth_error_map_inv in E as (e & Ee & ->). pose proof (nth_error_lt _ _ _ Ee).
    rewrite (next_inside it _ (length (values d)) i) by (done || lia). simpl. subst ks.
    destruct Hv. rewrite (next_entry_inside it (values d) i e) by (done || lia). eauto.
  - apply nth_error_map_inv in E as (e & Ee & ->). pose proof (nth_error_lt _ _ _ Ee).
    rewrite (next_inside it _ (length (values (config s))) i) by (done || lia). simpl. subst ks.
    destruct Hv. rewrite (next_entry_inside it (values (config s)) i e) by (done || lia). eauto.
Qed.

(** The iterator of a value that is not empty. *)
Lemma from_value_some host n :
  len (get host) = Ok n -> n <> 0%nat ->
  exists ks, from_value host = Ok (iterator_over n ks) /\
  match get host with
  | dict_value d => ks = map fst (values d)
  | schema_value s => ks = map fst (values (config s))
  | _ => True
  end.
Proof.
  intros Hl H0. unfold from_value, is_empty. destruct host as [v]. simpl in *.
  destruct v; simpl in Hl |- *; try discriminate; injection Hl as <-;
    rewrite (proj2 (Nat.eqb_neq _ _)) by done; eauto.
Qed.

(** Only strings have a length that is not their number of elements. *)
Lemma elements_length host n :
  wf_value host -> len (get host) = Ok n ->
  length (elements (get host)) = n \/
  exists s, get host = str_value s /\ n = String.length s /\ (length (chars s) < n)%nat /\
            length (elements (get host)) = length (chars s).
Proof.
  intros Hw Hl. destruct host as [v]. pose proof (everywhere_level _ _ Hw) as Hv.
  destruct v as [ | |b|z|f|s|l|d|s|f| ]; try discriminate; simpl in Hl, Hv |- *; injection Hl as <-;
    rewrite ?length_imap, ?length_map; try (by left).
  pose proof (chars_le_bytes s Hv).
  destruct (decide (length (chars s) = String.length s)) as [E|E]; [by left|]. right. exists s.
  split_and!; [done|done|lia|done].
Qed.

(** C33: the loop of a comprehension visits the elements of a list with their indices and
    the entries of a dict or schema in insertion order, each once, and the characters of a
    string; on a string with a character of several bytes it panics after the last
    character, because the end test counts bytes. *)
Theorem iteration_visits_elements (host : value) (n : nat) :
  wf_value host -> len (get host) = Ok n -> Z.of_nat n <= i32_max ->
  if Nat.eqb (length (elements (get host))) n
  then generate (S n) host = Ok (elements (get host))
  else (exists s, get host = str_value s /\ (length (chars s) < String.length s)%nat) /\
       exists m, generate (S n) host = Panic m.
Proof.
  intros Hw Hl Hn. pose proof (elements_length host n Hw Hl) as He.
  destruct (decide (n = 0%nat)) as [->|Hn0].
  { destruct He as [He|(?&?&?&?&?)]; [|lia]. rewrite He. simpl. apply length_zero_iff_nil in He.
    rewrite He. unfold generate, from_value, is_empty. rewrite Hl. destruct host as [[]]; try discriminate;
      reflexivity. }
  destruct (from_value_some host n Hl Hn0) as (ks & Ei & Hks). unfold generate. rewrite Ei.
  cbn [mbind outcome_bind].
  assert (Hstep : forall it i kv, at_pos n ks it i -> nth_error (elements (get host)) i = Some kv ->
    exists r, next it host = Ok (advance it kv, Some r)) by (intros; by eapply next_element).
  destruct He as [He|(s & Es & En & Hlt & Hle)].
  - rewrite (proj2 (Nat.eqb_eq _ _) He).
    by rewrite (iterate_elements host n ks _ Hn Hstep He _ _ 0) by (done || lia).
  - rewrite (proj2 (Nat.eqb_neq _ _)) by lia. split; [exists s; split; [done|lia]|].
    apply (iterate_panics host n ks (elements (get host)) Hn Hstep) with (i := 0%nat); [lia| |done|lia|lia].
    intros it (Hli & Hki & Hpi). rewrite (next_inside it host n _ Hl Hn Hpi) by lia. rewrite Es.
    destruct (nth_error (chars s) _) eqn:E; [apply nth_error_lt in E; rewrite Es in *; lia|by eexists].
Qed.

Lemma iteration_visits_elements_witness :
  generate 3 (v_list [v_int 5; v_str "x"]) = Ok [(v_int 0, v_int 5); (v_int 1, v_str "x")] /\
  exists m, generate 4 (v_str "é!") = Panic m.
Proof.
  assert (U : utf8 "x") by (exists [120]; done). assert (U' : utf8 "é!") by (exists [233; 33]; done).
  split.
  - exact (iteration_visits_elements (v_list [v_int 5; v_str "x"]) 2 (conj I (conj (conj eq_refl I) (conj (conj U I) I)))
      eq_refl ltac:(unfold i32_max; lia)).
  - exact (proj2 (iteration_visits_elements (v_str "é!") 3 (conj U' I) eq_refl ltac:(unfold i32_max; lia))).
Defined.
