(* ===== verification/Heap.v ===== *)
(** * References: the store of runtime values and its borrows

    A [ValueRef] of [kclvm/runtime/src/api/kclvm.rs] is an [Rc<RefCell<Value>>]: a
    location of a store whose cells hold one level of a value over locations, so that
    sharing is explicit.  A computation runs under the borrows that are live around it
    ([RefCell::borrow] and [borrow_mut] panic when they conflict with one) and may update
    the store.  Borrows are lexically scoped in the code, so they are a parameter of the
    computation and not a part of the store. *)

From S2P Require Import Prelude MachineInt Floats Chars Utf8 Value.

Definition loc := nat.
Definition store := gmap loc (Value loc).

Record borrows := mkBorrows { writing : list loc; reading : list loc }.
Definition no_borrows : borrows := {| writing := []; reading := [] |}.

Definition rt (A : Type) : Type := borrows -> store -> outcome (A * store).

#[export] Instance rt_ret : MRet rt := fun A a b s => Ok (a, s).
#[export] Instance rt_bind : MBind rt :=
  fun A B f m b s => match m b s with Ok (a, s') => f a b s' | Panic e => Panic e end.

Definition rt_panic {A} (e : string) : rt A := fun _ _ => Panic e.
Definition rt_lift {A} (o : outcome A) : rt A :=
  fun _ s => match o with Ok a => Ok (a, s) | Panic e => Panic e end.

Definition mem (l : loc) (ls : list loc) : bool := bool_decide (l ∈ ls).

(** [Rc::new(RefCell::new(v))]. *)
Definition alloc (v : Value loc) : rt loc :=
  fun _ s => let l := fresh (dom s) in Ok (l, <[l := v]> s).

(** A shared borrow that ends at once, and one that lasts for [k]. *)
Definition read_cell (l : loc) : rt (Value loc) :=
  fun b s =>
    if mem l (writing b) then Panic "already mutably borrowed: BorrowError"
    else match s !! l with Some v => Ok (v, s) | None => Panic "dangling reference" end.
Definition borrow {A} (l : loc) (k : Value loc -> rt A) : rt A :=
  fun b s =>
    match read_cell l b s with
    | Ok (v, s) => k v {| writing := writing b; reading := l :: reading b |} s
    | Panic e => Panic e
    end.

(** A mutable borrow: [k] gets the content of the cell and returns its new content. *)
Definition borrow_mut {A} (l : loc) (k : Value loc -> rt (A * Value loc)) : rt A :=
  fun b s =>
    if mem l (writing b) || mem l (reading b) then Panic "already borrowed: BorrowMutError"
    else match s !! l with
         | None => Panic "dangling reference"
         | Some v =>
             match k v {| writing := l :: writing b; reading := reading b |} s with
             | Ok ((a, v'), s') => Ok (a, <[l := v']> s')
             | Panic e => Panic e
             end
         end.

(** A mutable borrow whose body does not touch the store. *)
Definition update_cell {A} (l : loc) (k : Value loc -> outcome (A * Value loc)) : rt A :=
  borrow_mut l (fun v => rt_lift (k v)).

(** [is_same_ref]: both cells are borrowed, then their addresses are compared. *)
Definition is_same_ref (self x : loc) : rt bool :=
  _ ← read_cell self; _ ← read_cell x; mret (bool_decide (self = x)).

(** The tree below a reference, as a comparison reads it: closures and the metadata of
    schemas are not looked at.  [fuel] is the depth a stack allows. *)
Fixpoint mapM_rt {A B} (f : A -> rt B) (l : list A) : rt (list B) :=
  match l with
  | [] => mret []
  | a :: l' => x ← f a; r ← mapM_rt f l'; mret (x :: r)
  end.

Fixpoint snapshot (fuel : nat) (l : loc) : rt value :=
  match fuel with
  | O => rt_panic "stack overflow"
  | S fuel' =>
      v ← read_cell l;
      let entries (d : DictValue loc) : rt (DictValue value) :=
        vs ← mapM_rt (fun kv => x ← snapshot fuel' kv.2; mret (kv.1, x)) (values d);
        mret (mkDict vs (ops d) (insert_indexs d) (attr_map d)) in
      match v with
      | undefined => mret (mkValue undefined)
      | none => mret (mkValue none)
      | bool_value b => mret (mkValue (bool_value b))
      | int_value z => mret (mkValue (int_value z))
      | float_value x => mret (mkValue (float_value x))
      | str_value s => mret (mkValue (str_value s))
      | unit_value real raw unit => mret (mkValue (unit_value real raw unit))
      | list_value ls => ts ← mapM_rt (snapshot fuel') ls; mret (mkValue (list_value ts))
      | dict_value d => d ← entries d; mret (mkValue (dict_value d))
      | schema_value s =>
          d ← entries (config s);
          mret (mkValue (schema_value
            (mkSchema (name s) (pkgpath s) d (config_keys s) v_undefined v_undefined)))
      | func_value f =>
          mret (mkValue (func_value
            (mkFunc (fn_ptr f) (check_fn_ptr f) v_undefined (func_name f) (runtime_type f)
               (is_external f))))
      end
  end.

(** ** Weakest preconditions *)

Definition rwp {A} (m : rt A) (b : borrows) (s : store) (Q : A -> store -> Prop) : Prop :=
  match m b s with Ok (a, s') => Q a s' | Panic _ => False end.

Section Rwp.
Context {A B : Type}.
Implicit Types (m : rt A) (f : A -> rt B) (b : borrows) (s : store) (Q : A -> store -> Prop).

Lemma rwp_bind m f b s R : rwp m b s (fun a s' => rwp (f a) b s' R) -> rwp (m ≫= f) b s R.
Proof. unfold rwp, mbind, rt_bind. by destruct (m b s) as [[a s']|e]. Qed.

Lemma rwp_ret (a : A) b s Q : Q a s -> rwp (mret a) b s Q.
Proof. done. Qed.

Lemma rwp_mono m b s Q (Q' : A -> store -> Prop) :
  rwp m b s Q -> (forall a s', Q a s' -> Q' a s') -> rwp m b s Q'.
Proof. unfold rwp. destruct (m b s) as [[a s']|e]; auto. Qed.

Lemma rwp_alloc v b s (Q : loc -> store -> Prop) :
  (forall l, l ∉ dom s -> Q l (<[l := v]> s)) -> rwp (alloc v) b s Q.
Proof. intros H. apply H. apply is_fresh. Qed.

Lemma mem_false l ls : l ∉ ls -> mem l ls = false.
Proof. intros H. unfold mem. by apply bool_decide_eq_false_2. Qed.

Lemma rwp_read l b s v (Q : Value loc -> store -> Prop) :
  s !! l = Some v -> l ∉ writing b -> Q v s -> rwp (read_cell l) b s Q.
Proof. intros Hl Hw HQ. unfold rwp, read_cell. by rewrite mem_false, Hl. Qed.

Lemma rwp_borrow l (k : Value loc -> rt A) b s v Q :
  s !! l = Some v -> l ∉ writing b ->
  rwp (k v) {| writing := writing b; reading := l :: reading b |} s Q -> rwp (borrow l k) b s Q.
Proof. intros Hl Hw HQ. unfold rwp, borrow, read_cell in *. by rewrite mem_false, Hl. Qed.

Lemma rwp_borrow_mut l (k : Value loc -> rt (A * Value loc)) b s v Q :
  s !! l = Some v -> l ∉ writing b -> l ∉ reading b ->
  rwp (k v) {| writing := l :: writing b; reading := reading b |} s
    (fun av s' => Q av.1 (<[l := av.2]> s')) ->
  rwp (borrow_mut l k) b s Q.
Proof.
  intros Hl Hw Hr HQ. unfold rwp, borrow_mut in *. rewrite !mem_false, Hl by done. simpl.
  by destruct (k v _ s) as [[[a v'] s']|e].
Qed.

Lemma rwp_update l (k : Value loc -> outcome (A * Value loc)) b s v a v' Q :
  s !! l = Some v -> l ∉ writing b -> l ∉ reading b -> k v = Ok (a, v') ->
  Q a (<[l := v']> s) -> rwp (update_cell l k) b s Q.
Proof.
  intros Hl Hw Hr Hk HQ. unfold update_cell. eapply rwp_borrow_mut; [done..|].
  unfold rwp, rt_lift. by rewrite Hk.
Qed.

Lemma rwp_ok m b s Q : rwp m b s Q <-> exists a s', m b s = Ok (a, s') /\ Q a s'.
Proof.
  unfold rwp. destruct (m b s) as [[a s']|e]; split; [eauto|naive_solver|done|naive_solver].
Qed.
End Rwp.

(** Symbolic execution of the combinators. *)
Ltac rwp_step :=
  lazymatch goal with
  | |- rwp (mbind _ _) _ _ _ => apply rwp_bind
  | |- rwp (mret _) _ _ _ => apply rwp_ret
  | |- rwp (alloc _) _ _ _ => apply rwp_alloc
  | |- rwp (read_cell _) _ _ _ => eapply rwp_read; [eassumption|try eassumption|]
  | |- rwp (let '(_, _) := ?p in _) _ _ _ => destruct p
  end.
