(* ===== verification/ValueHeap.v ===== *)
(** * Operations that write through references

    Models the writing operations of [kclvm/runtime/src/value/val_list.rs], those of
    [val_dict.rs], [val_clone.rs] and the conversions of [val_schema.rs].  A method that
    takes [&mut self] writes the cell of [self]; elements are shared, never copied, except
    by [deep_copy]. *)

From S2P Require Import Prelude MachineInt Floats Chars Utf8 Value ValueCmp ValueBin ValueList Heap.

(** ** Vectors *)

(** [Vec::insert] and [Vec::remove] panic past the end. *)
Definition vec_insert {A} (i : Z) (x : A) (l : list A) : outcome (list A) :=
  if (0 <=? i) && (i <=? Z.of_nat (length l))
  then Ok (take (Z.to_nat i) l ++ x :: drop (Z.to_nat i) l)
  else Panic "insertion index should be <= len".
Definition vec_remove {A} (i : Z) (l : list A) : outcome (A * list A) :=
  match (if 0 <=? i then l !! Z.to_nat i else None) with
  | Some x => Ok (x, take (Z.to_nat i) l ++ drop (S (Z.to_nat i)) l)
  | None => Panic "removal index should be < len"
  end.

(** The elements of [xs] inserted one after the other from position [i] on. *)
Fixpoint insert_all {A} (i : Z) (xs l : list A) : outcome (list A) :=
  match xs with
  | [] => Ok l
  | x :: xs' => l ← vec_insert i x l; insert_all (i + 1) xs' l
  end.

Section Vectors.
Context {A : Type}.
Implicit Types (l xs : list A) (i : Z).

Lemma insert_all_spec xs l i :
  0 <= i <= Z.of_nat (length l) ->
  insert_all i xs l = Ok (take (Z.to_nat i) l ++ xs ++ drop (Z.to_nat i) l).
Proof.
  revert i l. induction xs as [|x xs IH]; intros i l Hi; cbn [insert_all].
  { by rewrite app_nil_l, take_drop. }
  unfold vec_insert. rewrite (proj2 (Z.leb_le 0 i)), (proj2 (Z.leb_le i _)) by lia. simpl.
  assert (Hl : length (take (Z.to_nat i) l) = Z.to_nat i) by (rewrite length_take; lia).
  rewrite IH by (rewrite length_app; simpl; rewrite length_take, length_drop; lia).
  f_equal. replace (Z.to_nat (i + 1)) with (length (take (Z.to_nat i) l) + 1)%nat by lia.
  rewrite take_app_add, drop_app_add. simpl. by rewrite <- app_assoc.
Qed.

Lemma insert_all_panics xs l i :
  xs <> [] -> ~ (0 <= i <= Z.of_nat (length l)) -> exists m, insert_all i xs l = Panic m.
Proof.
  intros Hx Hi. destruct xs as [|x xs]; [done|]. cbn [insert_all]. unfold vec_insert.
  destruct (_ && _) eqn:E; [|by eexists]. apply andb_true_iff in E. lia.
Qed.
End Vectors.

(** ** Lists *)

Definition alloc_str (s : string) : rt loc := alloc (str_value s).

(** [list.values] of the cell, updated in place; another value is the error [e]. *)
Definition update_list {A} (self : loc) (e : string) (k : list loc -> outcome (A * list loc))
    : rt A :=
  update_cell self (fun v =>
    match v with
    | list_value l => '(a, l) ← k l; Ok (a, list_value l)
    | _ => Panic e
    end).

Definition list_resize (self : loc) (newsize : nat) : rt unit :=
  borrow_mut self (fun v =>
    match v with
    | list_value l =>
        if (newsize <? length l)%nat then mret (tt, list_value (take newsize l))
        else new ← mapM_rt (fun _ => alloc undefined) (repeat tt (newsize - length l));
             mret (tt, list_value (l ++ new))
    | _ => rt_panic "Invalid list object in list_resize"
    end).

Definition list_clear (self : loc) : rt unit :=
  update_list self "Invalid list object in list_clear" (fun _ => Ok (tt, [])).

(** [list_set] does nothing past the end. *)
Definition list_set (self : loc) (i : Z) (v : loc) : rt unit :=
  update_list self "Invalid list object in list_set" (fun l =>
    Ok (tt, if i <? Z.of_nat (length l) then <[Z.to_nat i := v]> l else l)).

Definition list_pop (self : loc) : rt (option loc) :=
  update_list self "Invalid list object in list_pop" (fun l =>
    Ok (last l, take (length l - 1) l)).

Definition list_pop_first (self : loc) : rt (option loc) :=
  update_list self "Invalid list object in list_pop" (fun l =>
    match l with
    | [] => Ok (None, [])
    | _ => '(x, l) ← vec_remove 0 l; Ok (Some x, l)
    end).

Definition list_append (self v : loc) : rt unit :=
  update_list self "Invalid list object in list_append" (fun l => Ok (tt, l ++ [v])).

(** The references an unpacked value contributes: its elements, or fresh strings for the
    keys of a dict or schema. *)
Definition unpacked (x : Value loc) : rt (option (list loc)) :=
  match x with
  | list_value l => mret (Some l)
  | dict_value d => ks ← mapM_rt alloc_str (map fst (values d)); mret (Some ks)
  | schema_value s => ks ← mapM_rt alloc_str (map fst (values (config s))); mret (Some ks)
  | none | undefined => mret (Some [])
  | _ => mret None
  end.

Definition unpack_error : string :=
  "only list, dict and schema object can be used with unpack operators * and **".

Definition list_append_unpack (self x_or_list : loc) : rt unit :=
  borrow_mut self (fun v =>
    match v with
    | list_value l =>
        borrow x_or_list (fun x =>
          r ← unpacked x;
          match r with
          | Some ls => mret (tt, list_value (l ++ ls))
          | None => rt_panic unpack_error
          end)
    | _ => rt_panic "Invalid list object in list_append_unpack"
    end).

Definition list_append_unpack_first (self x_or_list : loc) : rt unit :=
  borrow_mut self (fun v =>
    match v with
    | list_value l =>
        borrow x_or_list (fun x =>
          r ← unpacked x;
          l ← rt_lift (insert_all 0 (match r with Some ls => ls | None => [x_or_list] end) l);
          mret (tt, list_value l))
    | _ => rt_panic "Invalid list object in list_append_unpack_first"
    end).

Definition list_insert_at (self : loc) (i : Z) (v : loc) : rt unit :=
  update_list self "Invalid list object in list_insert_at" (fun l =>
    l ← vec_insert i v l; Ok (tt, l)).

Definition list_remove_at (self : loc) (i : Z) : rt unit :=
  update_list self "Invalid list object in list_remove_at" (fun l =>
    '(_, l) ← vec_remove i l; Ok (tt, l)).

(** The index of the last element equal to [item]. *)
Fixpoint last_equal (fuel : nat) (item : loc) (i : Z) (l : list loc) (index : option Z)
    : rt (option Z) :=
  match l with
  | [] => mret index
  | v :: l' =>
      a ← snapshot fuel v; b ← snapshot fuel item;
      last_equal fuel item (i + 1) l' (if cmp_equal a b then Some i else index)
  end.

Definition list_remove (fuel : nat) (self item : loc) : rt unit :=
  borrow_mut self (fun v =>
    match v with
    | list_value l =>
        index ← last_equal fuel item 0 l None;
        match index with
        | Some i => '(_, l) ← rt_lift (vec_remove i l); mret (tt, list_value l)
        | None => mret (tt, list_value l)
        end
    | _ => rt_panic "Invalid list object in list_remove_at"
    end).

(** ** Dicts *)

Definition with_values {V} (d : DictValue V) (m : list (string * V)) : DictValue V :=
  mkDict m (ops d) (insert_indexs d) (attr_map d).
Definition with_config {V} (s : SchemaValue V) (d : DictValue V) : SchemaValue V :=
  mkSchema (name s) (pkgpath s) d (config_keys s) (config_meta s) (optional_mapping s).

(** The [DictValue] of a dict or of the configuration of a schema, updated in place. *)
Definition update_dict {A} (self : loc) (e : Value loc -> string)
    (k : DictValue loc -> outcome (A * DictValue loc)) : rt A :=
  update_cell self (fun v =>
    match v with
    | dict_value d => '(a, d) ← k d; Ok (a, dict_value d)
    | schema_value s => '(a, d) ← k (config s); Ok (a, schema_value (with_config s d))
    | _ => Panic (e v)
    end).

(** [DictValue::get], [insert] and [insert_unpack]: keys that are not strings are ignored. *)
Definition dictvalue_get {V} (d : DictValue V) (key : Value V) : option V :=
  match key with str_value s => im_get s (values d) | _ => None end.
Definition dictvalue_insert {V} (d : DictValue V) (key : Value V) (v : V) : DictValue V :=
  match key with str_value s => with_values d (im_insert s v (values d)) | _ => d end.
Definition insert_entries {V} (m new : list (string * V)) : list (string * V) :=
  fold_left (fun m kv => im_insert kv.1 kv.2 m) new m.
Definition dictvalue_insert_unpack {V} (d : DictValue V) (v : Value V) : DictValue V :=
  match v with
  | dict_value b => with_values d (insert_entries (values d) (values b))
  | _ => d
  end.

Definition dict_config (self : loc) : rt (DictValue loc) :=
  v ← read_cell self;
  match v with
  | dict_value d => mret d
  | schema_value s => mret (config s)
  | _ => rt_panic ("invalid dict config value type " +:+ type_str v)
  end.

Definition dict_clear (self : loc) : rt unit :=
  update_dict self (fun _ => "invalid config value in dict_clear")
    (fun d => Ok (tt, with_values d [])).

Definition dict_keys (self : loc) : rt loc :=
  d ← dict_config self;
  ks ← mapM_rt alloc_str (map fst (values d));
  alloc (list_value ks).

Definition dict_values (self : loc) : rt loc :=
  d ← dict_config self;
  alloc (list_value (map snd (values d))).

Definition dict_get (self key : loc) : rt (option loc) :=
  v ← read_cell self;
  match v with
  | dict_value d => k ← read_cell key; mret (dictvalue_get d k)
  | schema_value s => k ← read_cell key; mret (dictvalue_get (config s) k)
  | _ => rt_panic "invalid config value in dict_get"
  end.

Definition dict_get_value (self : loc) (key : string) : rt (option loc) :=
  v ← read_cell self;
  mret match v with
       | dict_value d => im_get key (values d)
       | schema_value s => im_get key (values (config s))
       | _ => None
       end.

(** The entry of [key] in [d], inserted in [new] with its operation and index. *)
Definition op_of {V} (d : DictValue V) (key : string) : ConfigEntryOperationKind :=
  match im_get key (ops d) with Some op => op | None => Union end.
Definition index_of {V} (d : DictValue V) (key : string) : Z :=
  match im_get key (insert_indexs d) with Some i => i | None => -1 end.
Definition update_entry {V} (d : DictValue V) (key : string) (val : V)
    (op : ConfigEntryOperationKind) (index : Z) : DictValue V :=
  mkDict (im_insert key val (values d)) (im_insert key op (ops d))
    (im_insert key index (insert_indexs d)) (attr_map d).
Definition copy_entry {V} (d new : DictValue V) (key : string) : DictValue V :=
  match im_get key (values d) with
  | Some v => update_entry new key v (op_of d key) (index_of d key)
  | None => new
  end.

Definition dict_get_entry (self : loc) (key : string) : rt (option loc) :=
  v ← read_cell self;
  match as_dict_ref v with
  | Ok d => if im_contains key (values d)
            then l ← alloc (dict_value (copy_entry d default_dict key)); mret (Some l)
            else mret None
  | Panic _ => rt_panic "invalid config value in dict_get_entry"
  end.

Definition dict_get_entries (self : loc) (ks : list string) : rt loc :=
  v ← read_cell self;
  match as_dict_ref v with
  | Ok d => alloc (dict_value (fold_left (copy_entry d) ks default_dict))
  | Panic _ => rt_panic "invalid config value in dict_get_entries"
  end.

Definition dict_update (self v : loc) : rt unit :=
  borrow_mut self (fun c =>
    match as_dict_ref c with
    | Panic _ => rt_panic ("invalid dict update value: " +:+ type_str c)
    | Ok d =>
        w ← read_cell v;
        let d := match as_dict_ref w with
                 | Ok e => with_values d (insert_entries (values d) (values e))
                 | Panic _ => d
                 end in
        mret (tt, match c with schema_value s => schema_value (with_config s d)
                             | _ => dict_value d end)
    end).

Definition dict_update_key_value (self : loc) (key : string) (val : loc) : rt unit :=
  update_dict self (fun v => "invalid dict update value: " +:+ type_str v)
    (fun d => Ok (tt, with_values d (im_insert key val (values d)))).

Definition dict_update_entry (self : loc) (key : string) (val : loc)
    (op : ConfigEntryOperationKind) (index : Z) : rt unit :=
  update_dict self (fun v => "invalid dict update value: " +:+ type_str v)
    (fun d => Ok (tt, update_entry d key val op index)).

(** [IndexMap::remove] moves the last entry into the place of the removed one. *)
Fixpoint im_position {V} (k : string) (m : list (string * V)) : option nat :=
  match m with
  | [] => None
  | kv :: m' => if bool_decide (kv.1 = k) then Some O else S <$> im_position k m'
  end.
Definition im_swap_remove {V} (k : string) (m : list (string * V)) : list (string * V) :=
  match im_position k m, last m with
  | Some i, Some e => take (length m - 1) (<[i := e]> m)
  | _, _ => m
  end.

Definition dict_remove (self : loc) (key : string) : rt unit :=
  update_dict self (fun v => "invalid dict remove value: " +:+ type_str v)
    (fun d => Ok (tt, with_values d (im_swap_remove key (values d)))).

Definition update_attr_map (self : loc) (attr type_str : string) : rt unit :=
  update_dict self (fun v => "invalid object '" +:+ Value.type_str v +:+ "' in update_attr_map")
    (fun d => Ok (tt, mkDict (values d) (ops d) (insert_indexs d)
                        (im_insert attr type_str (attr_map d)))).

Definition attr_map_get (self : loc) (attr : string) : rt (option string) :=
  v ← read_cell self;
  match as_dict_ref v with
  | Ok d => mret (im_get attr (attr_map d))
  | Panic _ => rt_panic ("invalid object '" +:+ type_str v +:+ "' in attr_map_get")
  end.

(** ** Schemas *)

Definition dict_to_schema (self : loc) (nm pkg : string) (ks : list string)
    (meta mapping : loc) : rt loc :=
  v ← read_cell self;
  match v with
  | dict_value d => alloc (schema_value (mkSchema nm pkg d ks meta mapping))
  | schema_value _ => mret self
  | _ => rt_panic "invalid dict object to schema"
  end.

Definition schema_to_dict (self : loc) : rt loc :=
  v ← read_cell self;
  match v with
  | schema_value s => alloc (dict_value (config s))
  | dict_value _ => mret self
  | _ => rt_panic "invalid schema object to dict"
  end.

Definition schema_optional_mapping (self : loc) : rt loc :=
  v ← read_cell self;
  match v with
  | schema_value s => mret (optional_mapping s)
  | _ => alloc (dict_value default_dict)
  end.

Definition schema_config_meta (self : loc) : rt loc :=
  v ← read_cell self;
  match v with
  | schema_value s => mret (config_meta s)
  | _ => alloc (dict_value default_dict)
  end.

Definition schema_update_with_schema (self x : loc) : rt unit :=
  borrow_mut self (fun v =>
    w ← read_cell x;
    match v, w with
    | schema_value s, schema_value t =>
        let step d kv := update_entry d kv.1 kv.2 (op_of (config t) kv.1) (index_of (config t) kv.1) in
        mret (tt, schema_value (with_config s (fold_left step (values (config t)) (config s))))
    | _, _ => mret (tt, v)
    end).

(** ** Deep copies *)

(** The entries of [d], copied by [copy] one after the other.  The attribute map is kept
    for a schema only, for the attributes that have a value. *)
Definition copy_dict (copy : loc -> rt loc) (d : DictValue loc) (attrs : bool)
    : rt (DictValue loc) :=
  vs ← mapM_rt (fun kv => l ← copy kv.2; mret (kv.1, l)) (values d);
  mret (fold_left (fun new kv =>
          let new := update_entry new kv.1 kv.2 (op_of d kv.1) (index_of d kv.1) in
          match (if attrs then im_get kv.1 (attr_map d) else None) with
          | Some t => mkDict (values new) (ops new) (insert_indexs new)
                        (im_insert kv.1 t (attr_map new))
          | None => new
          end) vs default_dict).

Fixpoint deep_copy (fuel : nat) (self : loc) : rt loc :=
  match fuel with
  | O => rt_panic "stack overflow"
  | S fuel' =>
      borrow self (fun v =>
        match v with
        | func_value f =>
            c ← deep_copy fuel' (closure f);
            alloc (func_value (mkFunc (fn_ptr f) (check_fn_ptr f) c (func_name f)
                                 (runtime_type f) (is_external f)))
        | list_value l => l ← mapM_rt (deep_copy fuel') l; alloc (list_value l)
        | dict_value d => d ← copy_dict (deep_copy fuel') d false; alloc (dict_value d)
        | schema_value s =>
            d ← copy_dict (deep_copy fuel') (config s) true;
            alloc (schema_value (mkSchema (name s) (pkgpath s) d (config_keys s)
                                   (config_meta s) (optional_mapping s)))
        | _ => alloc v
        end)
  end.
