(* ===== verification/ValueUnion.v ===== *)
(** * Union of runtime values

    Models [kclvm/runtime/src/value/val_union.rs], [resolve_schema] of [val_type.rs] and
    the insertions of [val_dict.rs] that go through the union.  The rendered texts of the
    conflict message ([obj_json], [delta_json]) are left out; the path is kept.  The
    construct functions of schemas are compiled code: they are the parameter [schema_fn],
    from the runtime type name of a registered schema to the function, which gets the
    [record_instance] flag and the configuration. *)

From S2P Require Import Prelude MachineInt Floats Chars Utf8 Value ValueCmp ValueBin ValueList Heap ValueHeap.

Record UnionContext := mkUnionContext {
  path_backtrace : list string;
  conflict : bool;
}.
Definition default_context : UnionContext := {| path_backtrace := []; conflict := false |}.

Record UnionOptions := mkOptions {
  list_override : bool;
  idempotent_check : bool;
  config_resolve : bool;
}.
Definition default_options : UnionOptions :=
  {| list_override := false; idempotent_check := true; config_resolve := true |}.

Definition push_path (uc : UnionContext) (p : string) : UnionContext :=
  {| path_backtrace := path_backtrace uc ++ [p]; conflict := conflict uc |}.
Definition set_conflict (uc : UnionContext) : UnionContext :=
  {| path_backtrace := path_backtrace uc; conflict := true |}.

Definition schema_runtime_type (name pkgpath : string) : string := pkgpath +:+ "." +:+ name.

Section Union.
Context (schema_fn : string -> option (bool -> loc -> rt loc)).

(** The schema function runs twice over one configuration, first for the evaluation order,
    then for the instance. *)
Definition resolve_schema (schema : loc) (ks : list string) : rt loc :=
  v ← read_cell schema;
  match v with
  | schema_value s =>
      match schema_fn (schema_runtime_type (name s) (pkgpath s)) with
      | Some f =>
          config ← dict_get_entries schema ks;
          _ ← f false config;
          f true config
      | None => mret schema
      end
  | _ => mret schema
  end.

(** [value_subsume] on references. *)
Definition subsume_refs (fuel : nat) (value1 value2 : loc) (recursive : bool) : rt bool :=
  a ← snapshot fuel value1; b ← snapshot fuel value2; mret (value_subsume a b recursive).

Section Step.
Context (fuel : nat) (opts : UnionOptions).
(** The union of two references, for the values below: the new left reference. *)
Context (rec : loc -> loc -> UnionContext -> rt (loc * UnionContext)).

(** [ConfigEntryOperationKind::Insert] on a key that is present. *)
Definition insert_elements (obj : DictValue loc) (k : string) (origin_value v : loc) (index : Z)
    : rt (DictValue loc) :=
  o ← read_cell origin_value;
  origin_value ← (if is_none_or_undefined o then alloc (list_value []) else mret origin_value);
  let obj := with_values obj (im_insert k origin_value (values obj)) in
  same ← is_same_ref origin_value v;
  if (same : bool) then mret obj
  else
    borrow_mut origin_value (fun origin =>
      borrow v (fun value =>
        match origin, value with
        | list_value origin, list_value value =>
            if index =? -1 then mret (obj, list_value (origin ++ value))
            else if 0 <=? index then
              l ← rt_lift (insert_all index value origin); mret (obj, list_value l)
            else mret (obj, list_value origin)
        | _, _ => rt_panic "only list attribute can be inserted value"
        end)).

(** One entry [k : v] of the delta; the flag tells to go on. *)
Definition union_one (delta obj : DictValue loc) (uc : UnionContext) (k : string) (v : loc)
    : rt (DictValue loc * UnionContext * bool) :=
  let operation := op_of delta k in
  let index := index_of delta k in
  match im_get k (values obj) with
  | None => mret (with_values obj (im_insert k v (values obj)), uc, true)
  | Some obj_value =>
      match operation with
      | Union =>
          ok ← (if idempotent_check opts then subsume_refs fuel v obj_value false else mret true);
          if negb ok then mret (obj, push_path (set_conflict uc) k, false)
          else
            '(obj_value, uc) ← rec obj_value v uc;
            let obj := with_values obj (im_insert k obj_value (values obj)) in
            if conflict uc then mret (obj, push_path uc k, false) else mret (obj, uc, true)
      | Override =>
          if index <? 0 then mret (with_values obj (im_insert k v (values obj)), uc, true)
          else
            o ← read_cell obj_value;
            if negb (is_list o) then rt_panic "only list attribute can be inserted value"
            else
              w ← read_cell v;
              _ ← (if is_none_or_undefined w then list_remove_at obj_value index
                   else list_set obj_value index v);
              mret (obj, uc, true)
      | Insert =>
          obj ← insert_elements obj k obj_value v index;
          mret (obj, uc, true)
      end
  end.

Fixpoint union_entries (delta obj : DictValue loc) (uc : UnionContext)
    (entries : list (string * loc)) : rt (DictValue loc * UnionContext) :=
  match entries with
  | [] => mret (obj, uc)
  | (k, v) :: entries' =>
      '(obj, uc, go_on) ← union_one delta obj uc k v;
      if (go_on : bool) then union_entries delta obj uc entries' else mret (obj, uc)
  end.

(** The closure [union_fn]. *)
Definition union_fn (obj delta : DictValue loc) (uc : UnionContext)
    : rt (DictValue loc * UnionContext) :=
  let obj := mkDict (values obj)
               (fold_left (fun m kv => im_insert kv.1 kv.2 m) (ops delta) (ops obj))
               (fold_left (fun m kv => im_insert kv.1 kv.2 m) (insert_indexs delta) (insert_indexs obj))
               (attr_map obj) in
  union_entries delta obj uc (values delta).

(** Lists are united index by index; a conflict does not stop the loop. *)
Fixpoint union_lists (idx : Z) (obj delta : list loc) (uc : UnionContext)
    : rt (list loc * UnionContext) :=
  match obj, delta with
  | [], _ => mret (delta, uc)
  | _, [] => mret (obj, uc)
  | o :: obj', d :: delta' =>
      '(o, uc) ← rec o d uc;
      let uc := if conflict uc then push_path uc ("list[" +:+ pretty idx +:+ "]") else uc in
      '(r, uc) ← union_lists (idx + 1) obj' delta' uc;
      mret (o :: r, uc)
  end.

(** What the match on the two values leaves for the end: the context, and the name,
    package and keys of the schema to build. *)
Definition union_match (obj delta : Value loc) (uc : UnionContext)
    : rt (UnionContext * option (string * string * list string) * Value loc) :=
  match obj, delta with
  | list_value o, list_value d =>
      if negb (list_override opts) then
        '(l, uc) ← union_lists 0 o d uc; mret (uc, None, list_value l)
      else mret (uc, None, list_value o)
  | dict_value o, dict_value d =>
      '(o, uc) ← union_fn o d uc; mret (uc, None, dict_value o)
  | schema_value o, dict_value d =>
      '(c, uc) ← union_fn (config o) d uc;
      mret (uc, Some (name o, pkgpath o, config_keys o ++ map fst (values d)),
            schema_value (with_config o c))
  | schema_value o, schema_value d =>
      '(c, uc) ← union_fn (config o) (config d) uc;
      mret (uc, Some (name o, pkgpath o, config_keys o ++ config_keys d),
            schema_value (with_config o c))
  | dict_value o, schema_value d =>
      '(o, uc) ← union_fn o (config d) uc;
      mret (uc, Some (name d, pkgpath d, config_keys d ++ map fst (values o)), dict_value o)
  | _, _ => rt_panic "union failure"
  end.

Definition do_union (self x : loc) (uc : UnionContext) : rt (loc * UnionContext) :=
  same ← is_same_ref self x;
  if (same : bool) then mret (self, uc)
  else
    '(uc, union_schema) ←
      borrow_mut self (fun obj => borrow x (fun delta => union_match obj delta uc));
    if conflict uc then mret (self, uc)
    else
      match union_schema with
      | None => mret (self, uc)
      | Some (nm, pkg, common_keys) =>
          mapping ← schema_optional_mapping self;
          meta ← schema_config_meta x;
          schema ← dict_to_schema self nm pkg common_keys meta mapping;
          if config_resolve opts
          then r ← resolve_schema schema common_keys; mret (r, uc)
          else mret (schema, uc)
      end.
End Step.

(** [union] gives the reference that [*self] ends as.  [fuel] is the depth of the values
    the stack allows. *)
Fixpoint union (fuel : nat) (opts : UnionOptions) (or_mode : bool) (self x : loc)
    (uc : UnionContext) : rt (loc * UnionContext) :=
  match fuel with
  | O => rt_panic "stack overflow"
  | S fuel' =>
      a ← read_cell self;
      if is_none_or_undefined a then mret (x, uc)
      else
        b ← read_cell x;
        if is_none_or_undefined b then mret (self, uc)
        else if is_list_or_config a && is_list_or_config b then
          do_union fuel' opts (union fuel' opts false) self x uc
        else if or_mode then
          borrow_mut self (fun a =>
            borrow x (fun b =>
              match a, b with
              | int_value a, int_value b => mret ((self, uc), int_value (Z.lor a b))
              | _, _ => rt_panic "unsupported operand type(s) for |"
              end))
        else mret (x, uc)
  end.

Definition union_entry (fuel : nat) (self x : loc) (or_mode : bool) (opts : UnionOptions)
    : rt loc :=
  '(ret, uc) ← union fuel opts or_mode self x default_context;
  if conflict uc then
    rt_panic ("conflicting values on the attribute with union path : " +:+
              str_join "." (rev (path_backtrace uc)))
  else mret ret.

(** [bin_bit_or] of [val_bin.rs]. *)
Definition bin_bit_or (fuel : nat) (self x : loc) : rt loc :=
  a ← read_cell self; b ← read_cell x;
  match bin_bit_or_int a b with
  | Some v => alloc v
  | None => c ← deep_copy fuel self; union_entry fuel c x true default_options
  end.

(** The insertions of [val_dict.rs]: the range check of integers is made in debug mode
    only; then the entry is united as a one-key dict. *)
Definition dict_merge_key_value_pair (cfg : ContextConfig) (fuel : nat) (self : loc)
    (key : string) (v : loc) (op : ConfigEntryOperationKind) (insert_index : Z)
    (idempotent : bool) : rt loc :=
  _ ← (if debug_mode cfg then
         w ← read_cell v;
         match w with
         | int_value x =>
             if strict_range_check cfg then
               if negb (x =? as_i32 x) then rt_lift (panic_i32_overflow x) else mret tt
             else if (debug_mode cfg || negb (strict_range_check cfg)) && negb (x =? as_i64 x)
             then rt_lift (panic_i64_overflow x) else mret tt
         | _ => mret tt
         end
       else mret tt);
  c ← read_cell self;
  if is_config c then
    d ← alloc (dict_value (mkDict [(key, v)] [(key, op)] [(key, insert_index)] []));
    union_entry fuel self d true
      {| list_override := false; idempotent_check := idempotent; config_resolve := false |}
  else rt_panic ("invalid dict insert value: " +:+ type_str c).

Definition dict_insert (cfg : ContextConfig) (fuel : nat) (self : loc) (key : string) (v : loc)
    (op : ConfigEntryOperationKind) (insert_index : Z) : rt loc :=
  dict_merge_key_value_pair cfg fuel self key v op insert_index true.
Definition dict_merge (cfg : ContextConfig) (fuel : nat) (self : loc) (key : string) (v : loc)
    (op : ConfigEntryOperationKind) (insert_index : Z) : rt loc :=
  dict_merge_key_value_pair cfg fuel self key v op insert_index false.

(** [bin_aug_bit_or] of [val_bin_aug.rs]: the reference [*self] ends as. *)
Definition bin_aug_bit_or (fuel : nat) (self x : loc) : rt loc :=
  valid ← borrow_mut self (fun a =>
    borrow x (fun b =>
      match a, b with
      | int_value a, int_value b => mret (true, int_value (Z.lor a b))
      | _, _ => mret (false, a)
      end));
  if (valid : bool) then mret self
  else
    a ← read_cell self; b ← read_cell x;
    if is_list_or_config a || is_list_or_config b
    then union_entry fuel self x true default_options
    else rt_lift (panic_unsupported_bin_op "|" (type_str a) (type_str b)).

Definition bin_aug_union_with (fuel : nat) (self x : loc) : rt loc := bin_aug_bit_or fuel self x.

Definition dict_insert_unpack (fuel : nat) (self v : loc) : rt loc :=
  a ← read_cell self; b ← read_cell v;
  if negb (is_config a) then rt_panic unpack_error
  else if is_config b then
    d ← schema_to_dict v; c ← deep_copy fuel d; bin_aug_bit_or fuel self c
  else if is_none_or_undefined b then mret self
  else rt_panic unpack_error.

End Union.
