(* ===== verification/UnionSpec.v ===== *)
(** * What the union of configurations means

    [t_union] is the union on trees: no references, no borrows, no context, [None] where
    the code reports a conflict or panics.  [union_refines] (in [UnionRefine]) shows that
    the code computes it. *)

From S2P Require Import Prelude MachineInt Floats Chars Utf8 Value ValueCmp ValueBin Heap ValueHeap ValueUnion.

(** ** The union of trees *)

(** An element list inserted at an index: -1 is the end, other negative indexes insert
    nothing. *)
Definition t_splice (index : Z) (origin new : list value) : option (list value) :=
  if index =? -1 then Some (origin ++ new)
  else if index <? 0 then Some origin
  else match new with
       | [] => Some origin
       | _ => if index <=? Z.of_nat (length origin)
              then Some (take (Z.to_nat index) origin ++ new ++ drop (Z.to_nat index) origin)
              else None
       end.

Definition t_insert (index : Z) (origin v : value) : option value :=
  match (if is_none_or_undefined (get origin) then list_value [] else get origin), get v with
  | list_value o, list_value n => v_list <$> t_splice index o n
  | _, _ => None
  end.

(** An override with an index replaces or, by a missing value, removes one element. *)
Definition t_override (index : Z) (origin v : value) : option value :=
  if index <? 0 then Some v
  else match get origin with
       | list_value o =>
           if is_none_or_undefined (get v) then
             if index <? Z.of_nat (length o)
             then Some (v_list (take (Z.to_nat index) o ++ drop (S (Z.to_nat index)) o)) else None
           else Some (v_list (if index <? Z.of_nat (length o) then <[Z.to_nat index := v]> o else o))
       | _ => None
       end.

Section Merge.
Context (opts : UnionOptions) (rec : value -> value -> option value).

(** The value of [k] after [k : v] of the delta is united with [o]. *)
Definition t_one (delta : DictValue value) (k : string) (v : value) (o : value) : option value :=
  match op_of delta k with
  | Union => if idempotent_check opts && negb (value_subsume v o false) then None else rec v o
  | Override => t_override (index_of delta k) o v
  | Insert => t_insert (index_of delta k) o v
  end.

Definition t_entries (delta : DictValue value)
    : list (string * value) -> list (string * value) -> option (list (string * value)) :=
  fix go entries obj :=
    match entries with
    | [] => Some obj
    | (k, v) :: entries' =>
        match im_get k obj with
        | None => go entries' (im_insert k v obj)
        | Some o => match t_one delta k v o with
                    | Some r => go entries' (im_insert k r obj)
                    | None => None
                    end
        end
    end.

Definition t_dict (delta obj : DictValue value) : option (DictValue value) :=
  match t_entries delta (values delta) (values obj) with
  | Some m =>
      Some (mkDict m
        (fold_left (fun m kv => im_insert kv.1 kv.2 m) (ops delta) (ops obj))
        (fold_left (fun m kv => im_insert kv.1 kv.2 m) (insert_indexs delta) (insert_indexs obj))
        (attr_map obj))
  | None => None
  end.

Definition t_lists : list value -> list value -> option (list value) :=
  fix go delta obj :=
    match delta, obj with
    | _, [] => Some delta
    | [], _ => Some obj
    | d :: delta', o :: obj' =>
        match rec d o with
        | Some r => match go delta' obj' with Some rs => Some (r :: rs) | None => None end
        | None => None
        end
    end.
End Merge.

(** [t_union opts x self] is [self | x]. *)
Fixpoint t_union (opts : UnionOptions) (x self : value) {struct x} : option value :=
  let 'mkValue b := x in
  let 'mkValue a := self in
  if is_none_or_undefined a then Some x
  else if is_none_or_undefined b then Some self
  else match b with
  | list_value d =>
      match a with
      | list_value o =>
          if list_override opts then Some self else v_list <$> t_lists (t_union opts) d o
      | dict_value _ | schema_value _ => None
      | _ => Some x
      end
  | dict_value d =>
      match a with
      | dict_value o => (fun r => mkValue (dict_value r)) <$> t_dict opts (t_union opts) d o
      | list_value _ | schema_value _ => None
      | _ => Some x
      end
  | _ => Some x
  end.

(** ** Trees in the store *)

Definition all2 {A B} (R : A -> B -> Prop) : list A -> list B -> Prop :=
  fix go l1 l2 :=
    match l1, l2 with
    | [], [] => True
    | a :: l1', b :: l2' => R a b /\ go l1' l2'
    | _, _ => False
    end.

Lemma all2_Forall2 {A B} (R : A -> B -> Prop) l1 l2 : all2 R l1 l2 <-> Forall2 R l1 l2.
Proof.
  revert l2. induction l1 as [|a l1 IH]; intros [|b l2]; simpl.
  - split; [constructor|done].
  - split; [done|inversion 1].
  - split; [done|inversion 1].
  - rewrite IH. split; [intros []; by constructor|inversion 1; done].
Qed.

(** The scalars of plain data. *)
Definition scalar_cell (v : Value loc) (w : Value value) : Prop :=
  match v, w with
  | undefined, undefined | none, none => True
  | bool_value a, bool_value b => a = b
  | int_value a, int_value b => a = b
  | float_value a, float_value b => a = b
  | str_value a, str_value b => a = b
  | unit_value a r u, unit_value a' r' u' => a = a' /\ r = r' /\ u = u'
  | _, _ => False
  end.

Definition same_meta {V W} (d : DictValue V) (e : DictValue W) : Prop :=
  ops d = ops e /\ insert_indexs d = insert_indexs e /\ attr_map d = attr_map e.

(** [den s D t l]: the reference [l] holds the plain data [t], within the cells [D];
    sharing is allowed. *)
Fixpoint den (s : store) (D : gset loc) (t : value) (l : loc) {struct t} : Prop :=
  let 'mkValue w := t in
  l ∈ D /\ exists v, s !! l = Some v /\
  match w with
  | list_value ts => match v with list_value ls => all2 (den s D) ts ls | _ => False end
  | dict_value e =>
      match v with
      | dict_value d =>
          same_meta d e /\
          all2 (fun kt kl => kt.1 = kl.1 /\ den s D kt.2 kl.2) (values e) (values d)
      | _ => False
      end
  | schema_value _ | func_value _ => False
  | _ => scalar_cell v w
  end.

(** Separated ownership of a list of references. *)
Definition sep {A B} (R : A -> gset loc -> B -> Prop) : list A -> gset loc -> list B -> Prop :=
  fix go ts F ls :=
    match ts, ls with
    | [], [] => F = ∅
    | t :: ts', l :: ls' =>
        exists F1 F2, F = F1 ∪ F2 /\ F1 ## F2 /\ R t F1 l /\ go ts' F2 ls'
    | _, _ => False
    end.

(** [own s t F l]: the reference [l] holds the plain data [t] in exactly the cells [F],
    none of which is shared. *)
Fixpoint own (s : store) (t : value) (F : gset loc) (l : loc) {struct t} : Prop :=
  let 'mkValue w := t in
  exists v F', s !! l = Some v /\ l ∉ F' /\ F = {[l]} ∪ F' /\
  match w with
  | list_value ts => match v with list_value ls => sep (own s) ts F' ls | _ => False end
  | dict_value e =>
      match v with
      | dict_value d =>
          same_meta d e /\
          sep (fun kt F kl => kt.1 = kl.1 /\ own s kt.2 F kl.2) (values e) F' (values d)
      | _ => False
      end
  | schema_value _ | func_value _ => False
  | _ => scalar_cell v w /\ F' = ∅
  end.

(** The height of plain data. *)
Fixpoint depth (t : value) : nat :=
  match t with
  | mkValue (list_value ts) => S (list_max (map depth ts))
  | mkValue (dict_value d) => S (list_max (map (fun kv => depth kv.2) (values d)))
  | mkValue _ => 1
  end.

(** The keys of every dict are distinct. *)
Definition distinct_keys : value -> Prop :=
  everywhere (fun v => match v with dict_value d => NoDup (map fst (values d)) | _ => True end).
