(* ===== verification/TreeStore.v ===== *)
(** * Plain data in the store: framing, copying and reading

    [den] and [own] of [UnionSpec] under changes of the store, what [snapshot] reads of a
    shared tree, and the partial weakest precondition (nothing is said of a panic). *)

From S2P Require Import Prelude MachineInt Floats Chars Utf8 Value ValueCmp ValueBin Heap ValueHeap ValueUnion UnionSpec.

(** ** Parallel lists *)

Section All2.
Context {A B : Type}.
Implicit Types (R S : A -> B -> Prop) (ts : list A) (ls : list B) (F : gset loc).

Lemma all2_impl R S ts ls :
  Forall (fun t => forall l, R t l -> S t l) ts -> all2 R ts ls -> all2 S ts ls.
Proof.
  intros H. revert ls. induction H as [|t ts Ht _ IH]; intros [|l ls]; simpl; [done..|].
  intros []; split; eauto.
Qed.

Lemma sep_impl (R S : A -> gset loc -> B -> Prop) ts F ls :
  Forall (fun t => forall F' l, F' ⊆ F -> R t F' l -> S t F' l) ts -> sep R ts F ls -> sep S ts F ls.
Proof.
  intros H. assert (Hgen : forall F', F' ⊆ F -> sep R ts F' ls -> sep S ts F' ls); [|by apply Hgen].
  revert ls.
  induction H as [|t ts Ht _ IH]; intros [|l ls] F' HF; simpl; [done..|].
  intros (F1 & F2 & -> & Hd & HR & Hs). exists F1, F2. split_and!; [done|done| |].
  - apply Ht; [set_solver|done].
  - apply IH; [set_solver|done].
Qed.

Lemma sep_all2 (R : A -> gset loc -> B -> Prop) (S : A -> B -> Prop) ts F ls :
  Forall (fun t => forall F' l, F' ⊆ F -> R t F' l -> S t l) ts -> sep R ts F ls -> all2 S ts ls.
Proof.
  intros H. assert (Hgen : forall F', F' ⊆ F -> sep R ts F' ls -> all2 S ts ls); [|by apply Hgen].
  revert ls.
  induction H as [|t ts Ht _ IH]; intros [|l ls] F' HF; simpl; [done..|].
  intros (F1 & F2 & -> & Hd & HR & Hs). split.
  - apply (Ht F1); [set_solver|done].
  - apply (IH _ F2); [set_solver|done].
Qed.

Lemma sep_subset (R : A -> gset loc -> B -> Prop) (X : gset loc) ts F ls :
  Forall (fun t => forall F' l, R t F' l -> F' ⊆ X) ts -> sep R ts F ls -> F ⊆ X.
Proof.
  intros H. revert F ls.
  induction H as [|t ts Ht _ IH]; intros F [|l ls]; simpl; [by intros ->|done..|].
  intros (F1 & F2 & -> & Hd & HR & Hs). apply union_least; eauto.
Qed.

Lemma all2_length R ts ls : all2 R ts ls -> length ts = length ls.
Proof. rewrite all2_Forall2. apply Forall2_length. Qed.
End All2.

(** ** Framing *)

Section Frame.
Implicit Types (s : store) (t : value) (l : loc) (D F : gset loc).

Lemma den_frame s s' D D' t l :
  D ⊆ D' -> (forall k, k ∈ D -> s' !! k = s !! k) -> den s D t l -> den s' D' t l.
Proof.
  intros HD Hs. revert l. induction t as [w IH] using value_ind. intros l.
  cbn [den]. intros (Hl & v & Hv & Hw). split; [by apply HD|]. exists v.
  split; [by rewrite Hs|].
  destruct w; try exact Hw; destruct v; try exact Hw.
  - eapply all2_impl; [|exact Hw]. apply IH.
  - destruct Hw as [Hm Hw]. split; [done|]. eapply all2_impl; [|exact Hw].
    unfold all_refs, all_dict in IH. eapply list.Forall_impl; [exact IH|].
    intros kt Hkt kl [-> Hd]. split; [done|]. by apply Hkt.
Qed.

Lemma own_frame s s' F t l :
  (forall k, k ∈ F -> s' !! k = s !! k) -> own s t F l -> own s' t F l.
Proof.
  revert F l. induction t as [w IH] using value_ind. intros F l Hs.
  cbn [own]. intros (v & F' & Hv & Hl & -> & Hw). exists v, F'.
  split_and!; [rewrite Hs; [done|set_solver]|done|done|].
  destruct w; try exact Hw; destruct v; try exact Hw.
  - eapply sep_impl; [|exact Hw]. eapply list.Forall_impl; [exact IH|].
    intros x Hx G l' HG Ho. apply Hx; [|done]. intros k Hk. apply Hs. set_solver.
  - destruct Hw as [Hm Hw]. split; [done|]. eapply sep_impl; [|exact Hw].
    unfold all_refs, all_dict in IH. eapply list.Forall_impl; [exact IH|].
    intros kt Hkt G kl HG [-> Ho]. split; [done|]. apply Hkt; [|done].
    intros k Hk. apply Hs. set_solver.
Qed.

Lemma own_den s F D t l : F ⊆ D -> own s t F l -> den s D t l.
Proof.
  revert F l. induction t as [w IH] using value_ind. intros F l HF.
  cbn [own den]. intros (v & F' & Hv & Hl & -> & Hw). split; [set_solver|]. exists v.
  split; [done|].
  destruct w; try (destruct Hw as [? _]; done); destruct v; try (destruct Hw; done).
  - eapply sep_all2; [|exact Hw]. eapply list.Forall_impl; [exact IH|].
    intros x Hx G l' HG Ho. apply (Hx G); [|done]. set_solver.
  - destruct Hw as [Hm Hw]. split; [done|]. eapply sep_all2; [|exact Hw].
    unfold all_refs, all_dict in IH. eapply list.Forall_impl; [exact IH|].
    intros kt Hkt G kl HG [-> Ho]. split; [done|]. apply (Hkt G); [|done]. set_solver.
Qed.

Lemma den_dom s D t l : den s D t l -> l ∈ dom s.
Proof. destruct t as [w]. cbn [den]. intros (_ & v & Hv & _). by apply elem_of_dom_2 in Hv. Qed.

Lemma own_root s F t l : own s t F l -> l ∈ F.
Proof. destruct t as [w]. cbn [own]. intros (v & F' & _ & _ & -> & _). set_solver. Qed.

Lemma own_subset s F t l : own s t F l -> F ⊆ dom s.
Proof.
  revert F l. induction t as [w IH] using value_ind. intros F l.
  cbn [own]. intros (v & F' & Hv & Hl & -> & Hw). apply elem_of_dom_2 in Hv.
  assert (F' ⊆ dom s); [|set_solver].
  destruct w; try (destruct Hw as [_ ->]; set_solver); destruct v; try (destruct Hw; done).
  - eapply sep_subset; [|exact Hw]. apply IH.
  - destruct Hw as [_ Hw]. eapply sep_subset; [|exact Hw].
    unfold all_refs, all_dict in IH. eapply list.Forall_impl; [exact IH|].
    intros kt Hkt G kl [_ Ho]. by eapply Hkt.
Qed.
End Frame.

(** ** Reading *)

Lemma mapM_rt_pure {A B C} (f : A -> rt B) (g : C -> A -> B -> Prop) b s cs ls (h : C -> B) :
  Forall (fun c => forall l, g c l (h c) -> f l b s = Ok (h c, s)) cs ->
  all2 (fun c l => g c l (h c)) cs ls -> mapM_rt f ls b s = Ok (map h cs, s).
Proof.
  intros H. revert ls. induction H as [|c cs Hc _ IH]; intros [|l ls]; simpl; [done..|].
  intros [Hg Hr]. unfold mbind, rt_bind. by rewrite (Hc l Hg), (IH _ Hr).
Qed.

Lemma list_max_map {A} (f : A -> nat) l n :
  (S (list_max (map f l)) <= S n)%nat -> Forall (fun x => (f x <= n)%nat) l.
Proof. induction l as [|x l IH]; simpl; [done|]. intros H. constructor; [lia|]. apply IH. lia. Qed.

Lemma depth_list_inv ts n :
  (depth (mkValue (list_value ts)) <= S n)%nat -> Forall (fun t => (depth t <= n)%nat) ts.
Proof. apply list_max_map. Qed.

Lemma depth_dict_inv d n :
  (depth (mkValue (dict_value d)) <= S n)%nat -> Forall (fun kv => (depth kv.2 <= n)%nat) (values d).
Proof. apply (list_max_map (fun kv => depth kv.2)). Qed.

Lemma depth_pos t : (1 <= depth t)%nat.
Proof. destruct t as [[]]; simpl; lia. Qed.

Lemma snapshot_den n s b D t l :
  den s D t l -> (depth t <= n)%nat -> (forall k, k ∈ writing b -> k ∉ D) ->
  snapshot n l b s = Ok (t, s).
Proof.
  revert t l. induction n as [|n IH]; intros t l Hden Hn Hw.
  { pose proof (depth_pos t). lia. }
  destruct t as [w]. cbn [den] in Hden. destruct Hden as (Hl & v & Hv & Hval).
  cbn [snapshot]. unfold mbind at 1, rt_bind at 1, read_cell.
  rewrite mem_false, Hv by (intros Hin; by destruct (Hw _ Hin)).
  destruct w; destruct v; try done; try (by destruct Hval as [Hval _]);
    try (simpl in Hval; by subst); try (destruct Hval as (-> & -> & ->); done).
  - unfold mbind, rt_bind.
    rewrite (mapM_rt_pure (snapshot n) (fun t l _ => den s D t l) b s v0 v (fun t => t)), map_id; [done| |done].
    eapply list.Forall_impl; [apply (depth_list_inv _ _ Hn)|]. intros t Ht l' Hl'. by apply IH.
  - destruct Hval as [(E1 & E2 & E3) Hval]. unfold mbind, rt_bind.
    rewrite (mapM_rt_pure _ (fun kt kl _ => kt.1 = kl.1 /\ den s D kt.2 kl.2) b s
               (values v0) (values v) (fun kv => kv)), map_id; [| |done].
    + cbn. rewrite E1, E2, E3. by destruct v0.
    + eapply list.Forall_impl; [apply (depth_dict_inv _ _ Hn)|].
      intros kt Ht kl [E Hl']. rewrite (IH kt.2) by done. rewrite <- E. by destruct kt.
Qed.

(** ** Computing a result that may be a panic *)

Definition rpp {A} (m : rt A) (b : borrows) (s : store) (Q : A -> store -> Prop) : Prop :=
  match m b s with Ok (a, s') => Q a s' | Panic _ => True end.

Section Rpp.
Context {A B : Type}.
Implicit Types (m : rt A) (f : A -> rt B) (b : borrows) (s : store) (Q : A -> store -> Prop).

Lemma rpp_bind m f b s R : rpp m b s (fun a s' => rpp (f a) b s' R) -> rpp (m ≫= f) b s R.
Proof. unfold rpp, mbind, rt_bind. by destruct (m b s) as [[a s']|e]. Qed.

Lemma rpp_ret (a : A) b s Q : Q a s -> rpp (mret a) b s Q.
Proof. done. Qed.

Lemma rpp_panic e b s Q : rpp (rt_panic e) b s Q.
Proof. done. Qed.

Lemma rpp_mono m b s Q (Q' : A -> store -> Prop) :
  rpp m b s Q -> (forall a s', Q a s' -> Q' a s') -> rpp m b s Q'.
Proof. unfold rpp. destruct (m b s) as [[a s']|e]; auto. Qed.

Lemma rpp_any m b s Q : (forall a s', Q a s') -> rpp m b s Q.
Proof. unfold rpp. destruct (m b s) as [[a s']|e]; auto. Qed.

Lemma rwp_rpp m b s Q : rwp m b s Q -> rpp m b s Q.
Proof. unfold rwp, rpp. by destruct (m b s). Qed.

Lemma rpp_borrow l (k : Value loc -> rt A) b s Q :
  (forall v b', rpp (k v) b' s Q) -> rpp (borrow l k) b s Q.
Proof.
  intros H. unfold rpp, borrow, read_cell.
  destruct (mem l (writing b)); [done|]. destruct (s !! l); [apply H|done].
Qed.

Lemma rpp_borrow_mut l (k : Value loc -> rt (A * Value loc)) b s Q :
  (forall v b', rpp (k v) b' s (fun av s' => Q av.1 (<[l := av.2]> s'))) ->
  rpp (borrow_mut l k) b s Q.
Proof.
  intros H. unfold rpp, borrow_mut in *. destruct (_ || _); [done|].
  destruct (s !! l) as [v|]; [|done].
  specialize (H v {| writing := l :: writing b; reading := reading b |}).
  by destruct (k v _ s) as [[[a v'] s']|e].
Qed.
End Rpp.
