(* ===== verification/UnionRefine.v ===== *)
(** * The union of references computes the union of trees

    The left operand owns its cells, as the deep copy [bin_bit_or] makes of it does; the
    right operand may share cells with itself and with the rest of the store.  Under these
    conditions [union] gives exactly [t_union], writes only the cells of the left operand,
    and reports a conflict or panics exactly where [t_union] is undefined. *)

From S2P Require Import Prelude MachineInt Floats Chars Utf8 Value ValueCmp ValueBin ValueList Heap ValueHeap ValueUnion UnionSpec TreeStore.

(** ** Results *)

(** With a tree-level result the run returns without a conflict, without one it panics or
    flags a conflict. *)
Definition computes {A T} (o : option T) (m : rt (A * UnionContext)) (b : borrows) (s : store)
    (Q : T -> A -> store -> Prop) : Prop :=
  match o with
  | Some t => rwp m b s (fun r s' => conflict r.2 = false /\ Q t r.1 s')
  | None => rpp m b s (fun r _ => conflict r.2 = true)
  end.

(** Once flagged, a conflict stays. *)
Definition sticky {A} (m : rt (A * UnionContext)) : Prop :=
  forall b s, rpp m b s (fun r _ => conflict r.2 = true).

Lemma computes_bind {A B T U} (o : option T) (g : T -> option U) (m : rt (A * UnionContext))
    (f : A * UnionContext -> rt (B * UnionContext)) b s Q R :
  computes o m b s Q ->
  (forall t a uc s', conflict uc = false -> Q t a s' -> computes (g t) (f (a, uc)) b s' R) ->
  (forall a uc, conflict uc = true -> sticky (f (a, uc))) ->
  computes (match o with Some t => g t | None => None end) (m ≫= f) b s R.
Proof.
  intros Hm Hf Hs. destruct o as [t|]; simpl in *.
  - destruct (g t) as [u|] eqn:E; simpl.
    + apply rwp_bind. eapply rwp_mono; [exact Hm|]. intros [a uc] s' [Hc HQ].
      specialize (Hf t a uc s' Hc HQ). rewrite E in Hf. exact Hf.
    + apply rpp_bind. eapply rpp_mono; [apply rwp_rpp, Hm|]. intros [a uc] s' [Hc HQ].
      specialize (Hf t a uc s' Hc HQ). rewrite E in Hf. exact Hf.
  - apply rpp_bind. eapply rpp_mono; [exact Hm|]. intros [a uc] s' Hc. by apply Hs.
Qed.

Lemma computes_mono {A T} (o : option T) (m : rt (A * UnionContext)) b s
    (Q R : T -> A -> store -> Prop) :
  computes o m b s Q -> (forall t a s', Q t a s' -> R t a s') -> computes o m b s R.
Proof.
  intros Hm HQ. destruct o as [t|]; [|exact Hm]. eapply rwp_mono; [exact Hm|]. naive_solver.
Qed.

(** ** The part of the store a run may change *)

Definition framed (F : gset loc) (s s' : store) : Prop :=
  dom s ⊆ dom s' /\ forall l, l ∈ dom s -> l ∉ F -> s' !! l = s !! l.

Lemma dom_cell (s : store) l v : dom (<[l := v]> s) = {[l]} ∪ dom s.
Proof. unfold store. by rewrite dom_insert_L. Qed.
Lemma cell_eq (s : store) l v : <[l := v]> s !! l = Some v.
Proof. unfold store. apply lookup_insert_eq. Qed.
Lemma cell_ne (s : store) l k v : l <> k -> <[l := v]> s !! k = s !! k.
Proof. unfold store. apply lookup_insert_ne. Qed.

Section Framed.
Implicit Types (s : store) (F D : gset loc) (t : value) (l : loc).

Lemma framed_refl F s : framed F s s.
Proof. by split. Qed.

Lemma framed_trans F1 F2 F s1 s2 s3 :
  F1 ⊆ F -> F2 ⊆ F -> framed F1 s1 s2 -> framed F2 s2 s3 -> framed F s1 s3.
Proof.
  intros H1 H2 [Hd1 He1] [Hd2 He2]. split; [set_solver|].
  intros l Hl HF. rewrite He2, He1; [done|set_solver..].
Qed.

Lemma framed_mono F F' s s' : F ⊆ F' -> framed F s s' -> framed F' s s'.
Proof. intros HF [Hd He]. split; [done|]. intros l Hl Hn. apply He; set_solver. Qed.

Lemma framed_insert F s l v : l ∈ F \/ l ∉ dom s -> framed F s (<[l := v]> s).
Proof.
  intros Hl. split; [rewrite dom_cell; set_solver|].
  intros k Hk HF. rewrite cell_ne; [done|]. intros ->. naive_solver.
Qed.

Lemma den_framed F D D' s s' t l :
  framed F s s' -> D ⊆ dom s -> D ## F -> D ⊆ D' -> den s D t l -> den s' D' t l.
Proof.
  intros [Hd He] HD HF HD'. apply den_frame; [done|]. intros k Hk. apply He; set_solver.
Qed.
End Framed.

(** The cells of the left operand are not borrowed, those borrowed for writing are in [R],
    which is left alone. *)
Record clear (b : borrows) (s : store) (R F : gset loc) : Prop := {
  clear_dom : R ⊆ dom s;
  clear_disj : F ## R;
  clear_writing : forall l, l ∈ writing b -> l ∈ R;
  clear_reading : forall l, l ∈ reading b -> l ∈ dom s /\ l ∉ F;
}.

Lemma clear_sub b s s' R R' F F' :
  clear b s R F -> dom s ⊆ dom s' -> F' ⊆ F -> R ⊆ R' -> R' ⊆ dom s' -> F' ## R' -> clear b s' R' F'.
Proof.
  intros [H1 H2 H3 H4] Hd HF HR HR' Hdis. split; [done|done|set_solver|].
  intros l Hl. destruct (H4 l Hl). set_solver.
Qed.

(** Trees within the reach of the stack. *)
Definition good (n : nat) (t : value) : Prop := distinct_keys t /\ (depth t <= n)%nat.

Definition refines (n : nat) (trec : value -> value -> option value)
    (rec : loc -> loc -> UnionContext -> rt (loc * UnionContext)) : Prop :=
  forall b s R F tself self tx x uc,
    clear b s R F -> own s tself F self -> den s (dom s ∖ (F ∪ R)) tx x ->
    good n tself -> good n tx -> conflict uc = false ->
    computes (trec tx tself) (rec self x uc) b s
      (fun t l s' => framed F s s' /\ den s' (dom s' ∖ R) t l).

(** ** The root of a tree *)

Lemma den_root s D t l :
  den s D t l -> l ∈ D /\ exists c, s !! l = Some c /\ kind c = kind (get t).
Proof.
  destruct t as [w]. cbn [den get]. intros (Hl & c & Hc & Hw). split; [done|]. exists c.
  split; [done|]. by destruct w, c.
Qed.

Lemma kind_missing {V W} (v : Value V) (w : Value W) :
  kind v = kind w -> is_none_or_undefined v = is_none_or_undefined w.
Proof. by destruct v, w. Qed.
Lemma kind_list_or_config {V W} (v : Value V) (w : Value W) :
  kind v = kind w -> is_list_or_config v = is_list_or_config w.
Proof. by destruct v, w. Qed.
Lemma kind_is_list {V W} (v : Value V) (w : Value W) : kind v = kind w -> is_list v = is_list w.
Proof. unfold is_list. by intros ->. Qed.

(** An owned tree is one cell that belongs to nobody else, and what is below it. *)
Lemma own_root_cell s t F l :
  own s t F l -> exists c F', s !! l = Some c /\ l ∉ F' /\ F = {[l]} ∪ F' /\ kind c = kind (get t).
Proof.
  destruct t as [w]. cbn [own get]. intros (c & F' & Hc & Hl & -> & Hw). exists c, F'.
  split_and!; [done..|]. by destruct w, c; try done; destruct Hw as [? _].
Qed.

Lemma own_list s ts F l :
  own s (mkValue (list_value ts)) F l ->
  exists ls F', s !! l = Some (list_value ls) /\ l ∉ F' /\ F = {[l]} ∪ F' /\
    sep (own s) ts F' ls /\ all2 (den s F') ts ls.
Proof.
  cbn [own]. intros (c & F' & Hc & Hl & -> & Hw). destruct c; try done.
  exists v, F'. split_and!; [done..|]. eapply sep_all2; [|exact Hw].
  apply Forall_true. intros t G k HG. by apply own_den.
Qed.

Lemma den_list s D ts l :
  den s D (mkValue (list_value ts)) l ->
  l ∈ D /\ exists ls, s !! l = Some (list_value ls) /\ all2 (den s D) ts ls.
Proof. cbn [den]. intros (Hl & c & Hc & Hw). destruct c; try done. eauto. Qed.

Lemma den_list_intro s D ts l ls :
  l ∈ D -> s !! l = Some (list_value ls) -> all2 (den s D) ts ls -> den s D (mkValue (list_value ts)) l.
Proof. intros Hl Hs H. cbn [den]. eauto. Qed.

Lemma all2_den_frame s s' D D' ts ls :
  D ⊆ D' -> (forall k, k ∈ D -> s' !! k = s !! k) -> all2 (den s D) ts ls -> all2 (den s' D') ts ls.
Proof.
  intros HD Hs. apply all2_impl, Forall_true. intros t l. by apply den_frame.
Qed.

(** ** One entry of a dict *)

(** As [computes], for a step of the loop over the entries: its flag tells to go on. *)
Definition steps {T} (o : option T) (m : rt (DictValue loc * UnionContext * bool)) (b : borrows)
    (s : store) (Q : T -> DictValue loc -> store -> Prop) : Prop :=
  match o with
  | Some t => rwp m b s (fun r s' => conflict r.1.2 = false /\ r.2 = true /\ Q t r.1.1 s')
  | None => rpp m b s (fun r _ => conflict r.1.2 = true /\ r.2 = false)
  end.

(** Returns a result that has [Q], or panics when there is none. *)
Definition returns {A T} (o : option T) (m : rt A) (b : borrows) (s : store)
    (Q : T -> A -> store -> Prop) : Prop :=
  match o with Some t => rwp m b s (Q t) | None => rpp m b s (fun _ _ => False) end.

Lemma im_insert_same {V} k (v : V) m : im_get k m = Some v -> im_insert k v m = m.
Proof.
  induction m as [|[k' v'] m IH]; simpl; [done|].
  case_bool_decide; [naive_solver|]. intros Hk. by rewrite IH.
Qed.

Lemma with_values_same {V} (d : DictValue V) : with_values d (values d) = d.
Proof. by destruct d. Qed.

Lemma bind_ok {A B} (m : rt A) (f : A -> rt B) b s a s' :
  m b s = Ok (a, s') -> (m ≫= f) b s = f a b s'.
Proof. intros E. unfold mbind, rt_bind. by rewrite E. Qed.

(** The combinators under borrows that do not conflict. *)
Section Borrows.
Context {A : Type} (l : loc) (c : Value loc) (b : borrows) (s : store).
Context (Hc : s !! l = Some c) (Hw : l ∉ writing b).

Lemma read_cell_ok : read_cell l b s = Ok (c, s).
Proof. unfold read_cell. by rewrite mem_false, Hc. Qed.

Lemma is_same_ref_ok x cx :
  s !! x = Some cx -> x ∉ writing b -> is_same_ref l x b s = Ok (bool_decide (l = x), s).
Proof.
  intros Hx Hxw. unfold is_same_ref, mbind, rt_bind, read_cell. by rewrite !mem_false, Hc, Hx.
Qed.

Lemma borrow_ok (k : Value loc -> rt A) :
  borrow l k b s = k c {| writing := writing b; reading := l :: reading b |} s.
Proof. unfold borrow. by rewrite read_cell_ok. Qed.

Lemma borrow_mut_ok (k : Value loc -> rt (A * Value loc)) :
  l ∉ reading b ->
  borrow_mut l k b s =
    match k c {| writing := l :: writing b; reading := reading b |} s with
    | Ok ((a, v'), s') => Ok (a, <[l := v']> s')
    | Panic e => Panic e
    end.
Proof. intros Hr. unfold borrow_mut. by rewrite !mem_false, Hc. Qed.
End Borrows.

(** A value of the left operand that is replaced: the new one is seen outside of [R]. *)
Definition replaced (obj : DictValue loc) (k : string) (F R : gset loc) (s : store)
    (t : value) (obj' : DictValue loc) (s' : store) : Prop :=
  exists l', obj' = with_values obj (im_insert k l' (values obj)) /\
    framed F s s' /\ den s' (dom s' ∖ R) t l'.

(** What a write to the list cell [l] leaves. *)
Lemma list_cell_written s R l ts ls :
  R ⊆ dom s -> l ∈ dom s -> l ∉ R -> all2 (den s (dom s ∖ ({[l]} ∪ R))) ts ls ->
  den (<[l := list_value ls]> s) (dom (<[l := list_value ls]> s) ∖ R) (v_list ts) l.
Proof.
  intros Rdom Hl HR H. eapply den_list_intro; [rewrite dom_cell; set_solver|apply cell_eq|].
  eapply all2_den_frame; [| |exact H]; [rewrite dom_cell; set_solver|].
  intros k Hk. apply cell_ne. set_solver.
Qed.
(** The splice of an insertion. *)
Lemma splice_computes {A} (index : Z) (ns : list value) (nl : list loc) os ls (D : value -> loc -> Prop)
    (b : borrows) (s : store) (r : A) :
  all2 D os ls -> all2 D ns nl ->
  returns (t_splice index os ns)
    (if index =? -1 then mret (r, list_value (ls ++ nl))
     else if 0 <=? index then l ← rt_lift (insert_all index nl ls); mret (r, list_value l)
     else mret (r, list_value ls)) b s
    (fun ts av s' => exists ls', av = (r, list_value ls') /\ all2 D ts ls' /\ s' = s).
Proof.
  rewrite !all2_Forall2. intros Ho Hn. unfold t_splice.
  destruct (index =? -1); [simpl; unfold rwp; simpl; exists (ls ++ nl); rewrite all2_Forall2; eauto using Forall2_app|].
  rewrite Z.ltb_antisym. destruct (0 <=? index) eqn:E; simpl.
  2: { unfold rwp. simpl. exists ls. by rewrite all2_Forall2. }
  apply Z.leb_le in E. pose proof (Forall2_length _ _ _ Ho) as Hlen.
  destruct ns as [|n ns].
  { apply Forall2_nil_inv_l in Hn as ->. unfold returns, rwp. simpl. exists ls. by rewrite all2_Forall2. }
  destruct (index <=? Z.of_nat (length os)) eqn:E2.
  - apply Z.leb_le in E2. simpl. unfold rwp, mbind, rt_bind, rt_lift.
    rewrite insert_all_spec by lia. simpl. eexists. split; [done|]. split; [|done].
    rewrite all2_Forall2. apply Forall2_app; [by apply Forall2_take|].
    inversion Hn; subst. constructor; [done|]. apply Forall2_app; [done|]. by apply Forall2_drop.
  - apply Z.leb_gt in E2. destruct (insert_all_panics nl ls index) as [m Hm].
    { inversion Hn; by subst. }
    { lia. }
    simpl. unfold rpp, mbind, rt_bind, rt_lift. by rewrite Hm.
Qed.

(** The elements of [v] go into the list cell [l]. *)
Lemma insert_tail_computes b s R (obj : DictValue loc) l v index os ls tv :
  R ⊆ dom s -> (forall k, k ∈ writing b -> k ∈ R) -> l ∉ R -> l ∉ reading b ->
  s !! l = Some (list_value ls) -> all2 (den s (dom s ∖ ({[l]} ∪ R))) os ls ->
  den s (dom s ∖ ({[l]} ∪ R)) tv v ->
  returns (match get tv with list_value ns => v_list <$> t_splice index os ns | _ => None end)
    (same ← is_same_ref l v;
     if (same : bool) then mret obj
     else
       borrow_mut l (fun origin =>
         borrow v (fun value =>
           match origin, value with
           | list_value origin, list_value value =>
               if index =? -1 then mret (obj, list_value (origin ++ value))
               else if 0 <=? index then
                 l ← rt_lift (insert_all index value origin); mret (obj, list_value l)
               else mret (obj, list_value origin)
           | _, _ => rt_panic "only list attribute can be inserted value"
           end))) b s
    (fun r obj' s' => obj' = obj /\ framed {[l]} s s' /\ den s' (dom s' ∖ R) r l).
Proof.
  intros HR Hw HlR Hlr Hl Hls Hv. destruct (den_root _ _ _ _ Hv) as (Hvd & c & Hc & Hkind).
  assert (Hne : l <> v) by set_solver. assert (HvR : v ∉ R) by set_solver.
  assert (Hld : l ∈ dom s) by (by eapply elem_of_dom_2).
  assert (HlW : l ∉ writing b) by (intros Hin; by apply Hw in Hin).
  assert (HvW : v ∉ writing b) by (intros Hin; by apply Hw in Hin).
  unfold returns, rwp, rpp.
  rewrite !(bind_ok _ _ _ _ _ _ (is_same_ref_ok _ _ _ _ Hl HlW _ _ Hc HvW)), (bool_decide_eq_false_2 _ Hne).
  rewrite (borrow_mut_ok _ _ _ _ Hl HlW) by done.
  rewrite (borrow_ok _ _ _ _ Hc) by set_solver. simpl.
  destruct (get tv) as [ | | | | | |ns| | | | ] eqn:Etv; destruct c as [ | | | | | |nl| | | | ];
    try done; try exact I.
  assert (Hns : all2 (den s (dom s ∖ ({[l]} ∪ R))) ns nl).
  { destruct tv as [w]. simpl in Etv. subst w. apply den_list in Hv as (_ & ? & Hc' & Hns).
    rewrite Hc in Hc'. by injection Hc' as ->. }
  pose proof (splice_computes index ns nl os ls _
    {| writing := l :: writing b; reading := v :: reading b |} s obj Hls Hns) as Hsp.
  unfold returns, rwp, rpp in Hsp.
  destruct (t_splice index os ns) as [ts|]; simpl in *;
    match type of Hsp with match ?m with _ => _ end => destruct m as [[av s']|] end; try done.
  destruct Hsp as (ls' & -> & Hall & ->). split; [done|split].
  - apply framed_insert. left. set_solver.
  - by apply list_cell_written.
Qed.

Lemma returns_mono {A T} (o : option T) (m : rt A) b s (Q Q' : T -> A -> store -> Prop) :
  returns o m b s Q -> (forall t a s', Q t a s' -> Q' t a s') -> returns o m b s Q'.
Proof. intros Hm HQ. destruct o; [|exact Hm]. eapply rwp_mono; [exact Hm|]. auto. Qed.

Lemma returns_bind_ok {A B T} (o : option T) (m : rt A) (f : A -> rt B) b s a s' Q :
  m b s = Ok (a, s') -> returns o (f a) b s' Q -> returns o (m ≫= f) b s Q.
Proof. intros E. unfold returns, rwp, rpp. by rewrite (bind_ok _ _ _ _ _ _ E). Qed.

Section Entry.
Context (b : borrows) (s : store) (R F : gset loc) (Hclear : clear b s R F).
Context (obj : DictValue loc) (k : string) (index : Z).
Context (to tv : value) (lo v : loc).
Context (Hown : own s to F lo) (Hden : den s (dom s ∖ (F ∪ R)) tv v).

Lemma entry_left : exists c F', s !! lo = Some c /\ F = {[lo]} ∪ F' /\ lo ∉ F' /\
  kind c = kind (get to) /\ lo ∈ dom s /\ lo ∉ R /\ lo ∉ writing b /\ lo ∉ reading b.
Proof.
  destruct (own_root_cell _ _ _ _ Hown) as (c & F' & Hc & Hl & HF & Hk).
  exists c, F'. destruct Hclear as [_ Hd Hw Hr]. assert (lo ∉ R) by set_solver.
  split_and!; [done..|by eapply elem_of_dom_2|done| |].
  - intros Hin. by apply Hw in Hin.
  - intros Hin. apply Hr in Hin as [_ Hin]. set_solver.
Qed.

Lemma entry_right : exists c, s !! v = Some c /\ kind c = kind (get tv) /\
  v ∈ dom s ∖ (F ∪ R) /\ v ∉ writing b.
Proof.
  destruct (den_root _ _ _ _ Hden) as (Hd & c & Hc & Hk). exists c.
  split_and!; [done..|]. intros Hin. apply Hclear in Hin. set_solver.
Qed.

(** ** Inserted elements *)

Lemma insert_elements_computes :
  returns (t_insert index to tv) (insert_elements obj k lo v index) b s (replaced obj k F R s).
Proof.
  destruct entry_left as (c & F' & Hc & HF & HlF & Hk & Hld & HlR & Hlw & Hlr).
  destruct entry_right as (cv & Hcv & _ & Hvd & Hvw). pose proof Hclear as [HR Hdis Hw Hr].
  unfold insert_elements. eapply returns_bind_ok; [by apply read_cell_ok|].
  rewrite (kind_missing _ _ Hk). unfold t_insert.
  destruct (is_none_or_undefined (get to)) eqn:Em.
  - set (l0 := fresh (dom s)). assert (Hl0 : l0 ∉ dom s) by apply is_fresh.
    assert (Hfr : framed ∅ s (<[l0 := list_value []]> s)) by (apply framed_insert; by right).
    assert (Hl0b : l0 ∉ reading b) by (intros Hin; by apply Hr in Hin as [Hin _]).
    eapply returns_bind_ok; [done|]. cbv zeta. fold l0.
    eapply returns_mono; [apply (insert_tail_computes _ _ R _ _ _ _ [] [] tv)|].
    + rewrite dom_cell. set_solver.
    + done.
    + set_solver.
    + done.
    + apply cell_eq.
    + done.
    + eapply den_framed; [exact Hfr|..|exact Hden]; [set_solver|set_solver|].
      rewrite dom_cell. set_solver.
    + intros r obj' s' (-> & Hfr' & Hd'). exists l0. split_and!; [done| |done].
      destruct Hfr as [Hf1 Hf2], Hfr' as [Hf3 Hf4]. split; [set_solver|].
      intros i Hi HiF. rewrite Hf4, Hf2; set_solver.
  - eapply returns_bind_ok; [done|]. cbv zeta.
    destruct (get to) as [ | | | | | |os| | | | ] eqn:Eto; destruct c as [ | | | | | |ls| | | | ]; try done;
      try (unfold returns, rpp;
           rewrite (bind_ok _ _ _ _ _ _ (is_same_ref_ok _ _ _ _ Hc Hlw _ _ Hcv Hvw)),
             bool_decide_eq_false_2, (borrow_mut_ok _ _ _ _ Hc Hlw) by set_solver;
           rewrite (borrow_ok _ _ _ _ Hcv) by set_solver; done).
    destruct to as [w]. simpl in Eto. subst w.
    destruct (own_list _ _ _ _ Hown) as (ls' & F2 & Hc' & HlF2 & HF2 & _ & Hall).
    eapply returns_mono; [apply (insert_tail_computes _ _ R _ _ _ _ os ls tv)|].
    + done.
    + done.
    + done.
    + done.
    + done.
    + rewrite Hc in Hc'. injection Hc' as <-.
      eapply all2_den_frame; [|done|exact Hall]. pose proof (own_subset _ _ _ _ Hown). set_solver.
    + eapply den_frame; [|done|exact Hden]. set_solver.
    + intros r obj' s' (-> & Hfr' & Hd'). exists lo. split_and!; [done| |done].
      eapply framed_mono; [|exact Hfr']. set_solver.
Qed.

(** ** Overridden elements *)

Lemma override_computes :
  0 <= index ->
  returns (t_override index to tv)
    (o ← read_cell lo;
     if negb (is_list o) then rt_panic "only list attribute can be inserted value"
     else
       w ← read_cell v;
       if is_none_or_undefined w then list_remove_at lo index else list_set lo index v) b s
    (fun r _ s' => framed F s s' /\ den s' (dom s' ∖ R) r lo).
Proof.
  intros Hi. destruct entry_left as (c & F' & Hc & HF & HlF & Hk & Hld & HlR & Hlw & Hlr).
  destruct entry_right as (cv & Hcv & Hkv & Hvd & Hvw). pose proof Hclear as [HR Hdis Hw Hr].
  unfold t_override. rewrite (proj2 (Z.ltb_ge _ _) Hi).
  eapply returns_bind_ok; [by apply read_cell_ok|].
  destruct (get to) as [ | | | | | |os| | | | ] eqn:Eto; destruct c as [ | | | | | |ls| | | | ]; try done.
  change (negb (is_list (list_value ls))) with false. cbv iota.
  eapply returns_bind_ok; [by apply read_cell_ok|]. rewrite (kind_missing _ _ Hkv).
  destruct to as [w]. simpl in Eto. subst w.
  destruct (own_list _ _ _ _ Hown) as (ls' & F2 & Hc' & HlF2 & HF2 & _ & Hall).
  rewrite Hc in Hc'. injection Hc' as <-.
  assert (Hos : all2 (den s (dom s ∖ ({[lo]} ∪ R))) os ls).
  { eapply all2_den_frame; [|done|exact Hall]. pose proof (own_subset _ _ _ _ Hown). set_solver. }
  pose proof (all2_length _ _ _ Hos) as Hlen. rewrite Hlen.
  unfold returns, rwp, rpp, list_remove_at, list_set, update_list, update_cell.
  assert (Hput : forall ts ls', all2 (den s (dom s ∖ ({[lo]} ∪ R))) ts ls' ->
    framed F s (<[lo := list_value ls']> s) /\
    den (<[lo := list_value ls']> s) (dom (<[lo := list_value ls']> s) ∖ R) (v_list ts) lo).
  { intros ts ls' Hts. split; [apply framed_insert; left; set_solver|by apply list_cell_written]. }
  rewrite !all2_Forall2 in Hos. setoid_rewrite all2_Forall2 in Hput.
  destruct (is_none_or_undefined (get tv)).
  - rewrite (borrow_mut_ok _ _ _ _ Hc Hlw _ Hlr). unfold vec_remove.
    rewrite (proj2 (Z.leb_le _ _) Hi). unfold rt_lift.
    destruct (index <? Z.of_nat (length ls)) eqn:E.
    + apply Z.ltb_lt in E. destruct (lookup_lt_is_Some_2 ls (Z.to_nat index)) as [x Hx]; [lia|].
      rewrite Hx. simpl. apply Hput, Forall2_app; [by apply Forall2_take|by apply Forall2_drop].
    + apply Z.ltb_ge in E. rewrite lookup_ge_None_2 by lia. done.
  - rewrite (borrow_mut_ok _ _ _ _ Hc Hlw _ Hlr). unfold rt_lift. simpl. apply Hput.
    destruct (_ <? _); [|done]. apply Forall2_insert; [done|].
    eapply den_frame; [|done|exact Hden]. set_solver.
Qed.
End Entry.

(** ** One entry *)

Lemma steps_of_returns {A T} (o : option T) (m : rt A) (g : A -> DictValue loc) uc b s
    (Q : T -> A -> store -> Prop) (Q' : T -> DictValue loc -> store -> Prop) :
  conflict uc = false -> returns o m b s Q -> (forall t a s', Q t a s' -> Q' t (g a) s') ->
  steps o (m ≫= fun a => mret (g a, uc, true)) b s Q'.
Proof.
  intros Hc Hm HQ. destruct o as [t|]; simpl in *.
  - apply rwp_bind. eapply rwp_mono; [exact Hm|]. intros a s' Ha. apply rwp_ret. split_and!; [done..|by apply HQ].
  - apply rpp_bind. eapply rpp_mono; [exact Hm|]. done.
Qed.

Lemma steps_ext {T} (o : option T) m m' b s Q : m b s = m' b s -> steps o m' b s Q -> steps o m b s Q.
Proof. unfold steps, rwp, rpp. by intros ->. Qed.

Lemma steps_bind_ok {A T} (o : option T) (m : rt A) f b s a s' Q :
  m b s = Ok (a, s') -> steps o (f a) b s' Q -> steps o (m ≫= f) b s Q.
Proof. intros E. unfold steps, rwp, rpp. by rewrite (bind_ok _ _ _ _ _ _ E). Qed.

Lemma union_one_computes n opts trec rec (dt : DictValue value) (delta obj : DictValue loc) b s R F
    k to tv lo v uc :
  refines n trec rec -> clear b s R F -> own s to F lo -> den s (dom s ∖ (F ∪ R)) tv v ->
  good n to -> good n tv -> conflict uc = false -> same_meta delta dt ->
  im_get k (values obj) = Some lo ->
  steps (t_one opts trec dt k tv to) (union_one n opts rec delta obj uc k v) b s
    (replaced obj k F R s).
Proof.
  intros Hrec Hclear Hown Hden Hgo Hgv Hc (Eops & Eidx & _) Hget.
    pose proof Hclear as [HR Hdis Hw Hr].
  unfold union_one, t_one, op_of, index_of. rewrite Hget, Eops, Eidx.
  set (index := match im_get k (insert_indexs dt) with Some i => i | None => -1 end).
  destruct (match im_get k (ops dt) with Some op => op | None => Union end).
  - set (ok := if idempotent_check opts then value_subsume tv to false else true).
    eapply (steps_bind_ok _ _ _ _ _ ok s).
    { unfold ok. destruct (idempotent_check opts); [|done]. unfold subsume_refs.
      rewrite (bind_ok _ _ _ _ _ _ (snapshot_den _ _ _ _ _ _ Hden (proj2 Hgv) ltac:(set_solver))).
      rewrite (bind_ok _ _ _ _ _ _ (snapshot_den _ _ _ _ _ _ (own_den _ _ F _ _ ltac:(done) Hown)
                 (proj2 Hgo) ltac:(set_solver))). done. }
    replace (idempotent_check opts && negb (value_subsume tv to false)) with (negb ok)
      by (unfold ok; by destruct (idempotent_check opts)).
    destruct ok; simpl negb; cbv iota; [|by unfold steps, rpp].
    pose proof (Hrec _ _ _ _ _ _ _ _ uc Hclear Hown Hden Hgo Hgv Hc) as Hu.
    destruct (trec tv to) as [r|]; unfold computes, steps in *.
    + apply rwp_bind. eapply rwp_mono; [exact Hu|]. intros [l' uc'] s' [Hc' [Hfr Hd]]. simpl in Hc'.
      rewrite Hc'. apply rwp_ret. split_and!; [done..|]. by exists l'.
    + apply rpp_bind. eapply rpp_mono; [exact Hu|]. intros [l' uc'] s' Hc'. simpl in Hc'.
      rewrite Hc'. apply rpp_ret. done.
  - destruct (index <? 0) eqn:Ei.
    + unfold t_override. rewrite Ei. apply rwp_ret. split_and!; [done..|]. exists v.
      split_and!; [done|apply framed_refl|]. eapply den_frame; [|done|exact Hden]. set_solver.
    + apply Z.ltb_ge in Ei.
      eapply steps_ext; [|eapply (steps_of_returns _ _ (fun _ => obj));
        [exact Hc|by eapply override_computes|]].
      * unfold mbind, rt_bind. destruct (read_cell lo b s) as [[o s1]|]; [|done].
        destruct (negb (is_list o)); [done|]. by destruct (read_cell v b s1) as [[w s2]|].
      * intros t _ s' [Hfr Hd]. exists lo. rewrite im_insert_same, with_values_same by done. done.
  - eapply (steps_of_returns _ _ (fun obj => obj));
      [exact Hc|by eapply insert_elements_computes|done].
Qed.

(** ** The entries of a dict *)

(** A value of the left dict: owned while its key is to come, afterwards a result outside
    of the cells that are still owned. *)
Definition slot (n : nat) (s : store) (G : gset loc) (ks : list string)
    (kt : string * value) (F : gset loc) (kl : string * loc) : Prop :=
  kt.1 = kl.1 /\
  if decide (kt.1 ∈ ks) then own s kt.2 F kl.2 /\ good n kt.2 else F = ∅ /\ den s G kt.2 kl.2.

Definition entry_den (s : store) (D : gset loc) (kt : string * value) (kl : string * loc) : Prop :=
  kt.1 = kl.1 /\ den s D kt.2 kl.2.

Section Slots.
Context (n : nat).
Implicit Types (s : store) (G F : gset loc) (k : string) (ks : list string).
Implicit Types (mt : list (string * value)) (ml : list (string * loc)).

Lemma slot_frame s s' G G' ks kt F kl :
  G ⊆ G' -> (forall i, i ∈ G ∪ F -> s' !! i = s !! i) -> slot n s G ks kt F kl -> slot n s' G' ks kt F kl.
Proof.
  intros HG Hs [Hk H]. split; [done|]. destruct (decide _).
  - destruct H as [Ho Hg]. split; [|done]. eapply own_frame; [|exact Ho]. set_solver.
  - destruct H as [HF Hd]. split; [done|]. eapply den_frame; [exact HG| |exact Hd]. set_solver.
Qed.

Lemma slots_frame s s' G G' ks mt F ml :
  G ⊆ G' -> (forall i, i ∈ G ∪ F -> s' !! i = s !! i) ->
  sep (slot n s G ks) mt F ml -> sep (slot n s' G' ks) mt F ml.
Proof.
  intros HG Hs. apply sep_impl, Forall_true. intros kt F' kl HF.
  apply slot_frame; [done|]. set_solver.
Qed.

Lemma slot_skip s G k ks kt F kl : kt.1 <> k -> slot n s G (k :: ks) kt F kl -> slot n s G ks kt F kl.
Proof.
  intros Hne [Hk H]. split; [done|].
  destruct (decide (kt.1 ∈ k :: ks)), (decide (kt.1 ∈ ks)); set_solver.
Qed.

Lemma slots_skip s G k ks mt F ml :
  k ∉ map fst mt -> sep (slot n s G (k :: ks)) mt F ml -> sep (slot n s G ks) mt F ml.
Proof.
  intros Hk. apply sep_impl, list.Forall_forall. intros kt Hin F' kl _. apply slot_skip.
  intros <-. apply Hk, list_elem_of_fmap. eauto.
Qed.

Lemma slots_keys s G ks mt F ml : sep (slot n s G ks) mt F ml -> map fst mt = map fst ml.
Proof.
  revert F ml. induction mt as [|kt mt IH]; intros F [|kl ml]; simpl; [done..|].
  intros (F1 & F2 & _ & _ & [Hk _] & H). f_equal; eauto.
Qed.

Lemma slots_init s ks mt F ml :
  Forall (fun kt => good n kt.2) mt ->
  sep (fun kt F kl => kt.1 = kl.1 /\ own s kt.2 F kl.2) mt F ml ->
  exists F', F' ⊆ F /\ forall G, F ∖ F' ⊆ G -> sep (slot n s G ks) mt F' ml.
Proof.
  intros Hg. revert F ml. induction Hg as [|kt mt Hkt _ IH]; intros F [|kl ml]; simpl; [|done..|].
  { intros ->. exists ∅. by split. }
  intros (F1 & F2 & -> & Hd & [Hk Ho] & Hs). destruct (IH _ _ Hs) as (F' & HF' & Hslots).
  destruct (decide (kt.1 ∈ ks)) as [Hin|Hnin].
  - exists (F1 ∪ F'). split; [set_solver|]. intros G HG. exists F1, F'.
    split_and!; [done|set_solver| |apply Hslots; set_solver].
    split; [done|]. by rewrite decide_True.
  - exists F'. split; [set_solver|]. intros G HG. exists ∅, F'.
    split_and!; [set_solver|set_solver| |apply Hslots; set_solver].
    split; [done|]. rewrite decide_False by done. split; [done|]. eapply own_den; [|exact Ho].
    set_solver.
Qed.

Lemma slots_done s G mt F ml : sep (slot n s G []) mt F ml -> all2 (entry_den s G) mt ml.
Proof.
  apply sep_all2, Forall_true. intros kt F' kl _ [Hk H]. rewrite decide_False in H by set_solver.
  split; [done|]. apply H.
Qed.

Lemma slots_add s G k ks mt F ml t l :
  k ∉ ks -> k ∉ map fst mt -> den s G t l -> sep (slot n s G ks) mt F ml ->
  sep (slot n s G ks) (im_insert k t mt) F (im_insert k l ml).
Proof.
  intros Hk. revert F ml. induction mt as [|[k1 t1] mt IH]; intros F [|[k2 l2] ml]; simpl; [|done..|].
  - intros _ Hd ->. exists ∅, ∅. split_and!; [set_solver|set_solver| |done].
    split; [done|]. by rewrite decide_False.
  - intros Hnin Hd (F1 & F2 & -> & Hdis & [Hk1 Hsl] & H). simpl in Hk1. subst k2.
    rewrite bool_decide_eq_false_2 by set_solver.
    exists F1, F2. split_and!; [done..|]. apply IH; [set_solver|done|done].
Qed.

(** The slot of the next key is taken out, and put back with its result. *)
Lemma slots_take s G k ks mt F ml to :
  k ∉ ks -> NoDup (map fst mt) -> im_get k mt = Some to ->
  sep (slot n s G (k :: ks)) mt F ml ->
  exists F1 F2 lo, F = F1 ∪ F2 /\ F1 ## F2 /\ im_get k ml = Some lo /\ own s to F1 lo /\ good n to /\
    forall s' G' t l, G ⊆ G' -> (forall i, i ∈ G ∪ F2 -> s' !! i = s !! i) -> den s' G' t l ->
      sep (slot n s' G' ks) (im_insert k t mt) F2 (im_insert k l ml).
Proof.
  intros Hk. revert F ml. induction mt as [|[k1 t1] mt IH]; intros F [|[k2 l2] ml]; simpl; [done..|].
  rewrite NoDup_cons. intros [Hk1 Hnd] Hget (F1 & F2 & -> & Hdis & [Hk2 Hsl] & H). simpl in Hk2. subst k2.
  destruct (bool_decide_reflect (k = k1)) as [->|Hne].
  - injection Hget as ->. simpl in Hsl. rewrite decide_True in Hsl by set_solver.
    exists F1, F2, l2. split_and!; [done..|apply Hsl|apply Hsl|].
    intros s' G' t l HG Hs Hd. exists ∅, F2. split_and!; [set_solver|set_solver| |].
    + split; [done|]. simpl. by rewrite decide_False.
    + eapply slots_frame; [exact HG|exact Hs|]. by eapply slots_skip.
  - destruct (IH _ _ Hnd Hget H) as (F3 & F4 & lo & -> & Hd34 & Hlo & Ho & Hg & Hput).
    exists F3, (F1 ∪ F4), lo. split_and!; [set_solver|set_solver|done..|].
    intros s' G' t l HG Hs Hd. exists F1, F4. split_and!; [done|set_solver| |].
    + eapply slot_frame; [exact HG| |eapply slot_skip; [|by split]]; [set_solver|done].
    + apply Hput; [done|set_solver|done].
Qed.
End Slots.

Section Loops.
Context (n : nat) (opts : UnionOptions).
Context (trec : value -> value -> option value).
Context (rec : loc -> loc -> UnionContext -> rt (loc * UnionContext)).
Context (Hrec : refines n trec rec).

Lemma framed_agree F1 F2 R s s' :
  F1 ∪ F2 ⊆ dom s -> F1 ## F2 -> framed F1 s s' ->
  forall i, i ∈ dom s ∖ (F1 ∪ F2 ∪ R) ∪ F2 -> s' !! i = s !! i.
Proof. intros HF Hd [_ He] i Hi. apply He; set_solver. Qed.

Lemma union_entries_computes (dt : DictValue value) (delta : DictValue loc) b R es el :
  same_meta delta dt -> forall mt obj F s uc,
  clear b s R F -> F ⊆ dom s -> all2 (entry_den s (dom s ∖ (F ∪ R))) es el ->
  NoDup (map fst es) -> Forall (fun kt => good n kt.2) es -> NoDup (map fst mt) ->
  sep (slot n s (dom s ∖ (F ∪ R)) (map fst es)) mt F (values obj) -> conflict uc = false ->
  computes (t_entries opts trec dt es mt) (union_entries n opts rec delta obj uc el) b s
    (fun mt' obj' s' => framed F s s' /\ obj' = with_values obj (values obj') /\
       all2 (entry_den s' (dom s' ∖ R)) mt' (values obj')).
Proof.
  intros Hmeta. revert el.
  induction es as [|[k tv] es IH]; intros [|[k' v] el] mt obj F s uc Hclear HF Hes Hnd Hg Hndm Hsl Hc;
    simpl in Hes; [|done..|].
  { apply rwp_ret. split_and!; [done|apply framed_refl|by rewrite with_values_same|].
    eapply all2_impl; [|by eapply slots_done]. apply Forall_true. intros kt kl [Hk Hd].
    split; [done|]. eapply den_frame; [|done|exact Hd]. set_solver. }
  destruct Hes as [[Hk Hv] Hes]. simpl in Hk, Hv. subst k'.
  apply NoDup_cons in Hnd as [Hnin Hnd]. apply list.Forall_cons in Hg as [Hgv Hg].
  cbn [t_entries union_entries]. pose proof (slots_keys _ _ _ _ _ _ _ Hsl) as Hkeys.
  destruct (im_get k mt) as [to|] eqn:Hget.
  - destruct (slots_take _ _ _ _ _ _ _ _ _ Hnin Hndm Hget Hsl)
      as (F1 & F2 & lo & -> & Hdis & Hlo & Ho & Hgo & Hput).
    assert (Hclear1 : clear b s (F2 ∪ R) F1).
    { pose proof Hclear as [? ? _ _]. eapply clear_sub; [exact Hclear|set_solver..]. }
    assert (Hv1 : den s (dom s ∖ (F1 ∪ (F2 ∪ R))) tv v).
    { eapply den_frame; [|done|exact Hv]. set_solver. }
    pose proof (union_one_computes n opts trec rec dt delta obj b s _ F1 k to tv lo v uc
      Hrec Hclear1 Ho Hv1 Hgo Hgv Hc Hmeta Hlo) as Hone.
    destruct (t_one opts trec dt k tv to) as [r|]; simpl in Hone.
    2: { apply rpp_bind. eapply rpp_mono; [exact Hone|]. intros [[obj' uc'] go] s' [Hc' Hgo'].
         simpl in Hc', Hgo'. subst go. by apply rpp_ret. }
    enough (Hnext : forall l' uc' s', conflict uc' = false -> framed F1 s s' ->
      den s' (dom s' ∖ (F2 ∪ R)) r l' ->
      computes (t_entries opts trec dt es (im_insert k r mt))
        (union_entries n opts rec delta (with_values obj (im_insert k l' (values obj))) uc' el) b s'
        (fun mt' obj' s'' => framed (F1 ∪ F2) s s'' /\ obj' = with_values obj (values obj') /\
           all2 (entry_den s'' (dom s'' ∖ R)) mt' (values obj'))).
    { unfold computes in *. destruct (t_entries opts trec dt es (im_insert k r mt)) as [mt'|].
      - apply rwp_bind. eapply rwp_mono; [exact Hone|]. intros [[obj' uc'] go] s' (Hc' & Hgo' & l' & HO & Hfr & Hd).
        simpl in HO, Hc', Hgo'. subst. by apply Hnext.
      - apply rpp_bind. eapply rpp_mono; [apply rwp_rpp, Hone|].
        intros [[obj' uc'] go] s' (Hc' & Hgo' & l' & HO & Hfr & Hd).
        simpl in HO, Hc', Hgo'. subst. by apply Hnext. }
    intros l' uc' s' Hc' Hfr Hd. pose proof (framed_agree _ _ R _ _ HF Hdis Hfr) as Hag.
    assert (Hdom : dom s ⊆ dom s') by apply Hfr. pose proof Hclear as [HR HRF _ _].
    eapply computes_mono; [eapply (IH el (im_insert k r mt) _ F2 s' uc')|].
    + eapply clear_sub; [exact Hclear|set_solver..].
    + set_solver.
    + eapply all2_impl; [|exact Hes]. apply Forall_true. intros kt kl [Hk2 Hd2].
      split; [done|]. eapply den_frame; [| |exact Hd2]; [set_solver|]. intros i Hi. apply Hag. set_solver.
    + done.
    + done.
    + by apply im_insert_NoDup.
    + apply Hput; [set_solver|exact Hag|done].
    + done.
    + intros mt' obj' s'' (Hfr' & HO & Hall). split_and!; [|by rewrite HO|done].
      eapply framed_trans; [| |exact Hfr|exact Hfr']; set_solver.
  - assert (Hlo : im_get k (values obj) = None).
    { apply im_get_None. rewrite <- Hkeys. by apply im_get_None. }
    assert (Hone : union_one n opts rec delta obj uc k v b s =
      Ok (with_values obj (im_insert k v (values obj)), uc, true, s)).
    { unfold union_one. by rewrite Hlo. }
    pose proof (proj1 (im_get_None _ _) Hget) as Hkm.
    unfold computes, rwp, rpp. rewrite (bind_ok _ _ _ _ _ _ Hone).
    assert (Hnext := IH el (im_insert k tv mt) (with_values obj (im_insert k v (values obj))) F s uc
      Hclear HF Hes Hnd Hg (im_insert_NoDup _ _ _ Hndm)
      (slots_add _ _ _ _ _ _ _ _ _ _ Hnin Hkm Hv (slots_skip _ _ _ _ _ _ _ _ Hkm Hsl)) Hc).
    unfold computes, rwp, rpp in Hnext. exact Hnext.
Qed.

Lemma union_fn_computes (dt ot : DictValue value) (delta obj : DictValue loc) b R F s uc :
  same_meta delta dt -> same_meta obj ot -> clear b s R F -> F ⊆ dom s ->
  all2 (entry_den s (dom s ∖ (F ∪ R))) (values dt) (values delta) ->
  NoDup (map fst (values dt)) -> Forall (fun kt => good n kt.2) (values dt) ->
  NoDup (map fst (values ot)) -> Forall (fun kt => good n kt.2) (values ot) ->
  sep (fun kt F kl => kt.1 = kl.1 /\ own s kt.2 F kl.2) (values ot) F (values obj) ->
  conflict uc = false ->
  computes (t_dict opts trec dt ot) (union_fn n opts rec obj delta uc) b s
    (fun d obj' s' => framed F s s' /\ same_meta obj' d /\
       all2 (entry_den s' (dom s' ∖ R)) (values d) (values obj')).
Proof.
  intros Hmd (Eo1 & Eo2 & Eo3) Hclear HF Hdelta Hndd Hgd Hndo Hgo Hown Hc.
  destruct (slots_init n s (map fst (values dt)) _ _ _ Hgo Hown) as (F' & HF' & Hslots).
  unfold t_dict, union_fn. pose proof Hmd as (Ed1 & Ed2 & _). rewrite Ed1, Ed2, Eo1, Eo2, Eo3.
  pose proof Hclear as [HR HRF _ _].
  set (obj1 := mkDict (values obj) _ _ _).
  assert (Hents := union_entries_computes dt delta b R (values dt) (values delta) Hmd (values ot) obj1 F' s uc).
  eapply computes_mono with (R := fun mt' obj' s' => framed F s s' /\ obj' = with_values obj1 (values obj') /\
       all2 (entry_den s' (dom s' ∖ R)) mt' (values obj')) in Hents.
  - unfold computes in *. destruct (t_entries opts trec dt (values dt) (values ot)) as [m|]; [|exact Hents].
    eapply rwp_mono; [exact Hents|]. intros [obj' uc'] s' (Hc' & Hfr & HO & Hall).
    split; [done|]. simpl in *. split; [done|]. split; [|done]. by rewrite HO.
  - eapply clear_sub; [exact Hclear|set_solver..].
  - set_solver.
  - eapply all2_impl; [|exact Hdelta]. apply Forall_true. intros kt kl [Hk Hd]. split; [done|].
    eapply den_frame; [|done|exact Hd]. set_solver.
  - done.
  - done.
  - done.
  - apply Hslots. set_solver.
  - done.
  - intros t a s' (Hfr & HO & Hall). split; [|done]. by eapply framed_mono.
Qed.
(** ** Conflicts are never cleared *)

Context (Hsticky : forall l x uc, conflict uc = true -> sticky (rec l x uc)).

Lemma union_lists_sticky idx ol dl uc : conflict uc = true -> sticky (union_lists rec idx ol dl uc).
Proof.
  revert idx dl uc. induction ol as [|o ol IH]; intros idx [|d dl] uc Hc b s; cbn [union_lists];
    try by apply rpp_ret.
  apply rpp_bind. eapply rpp_mono; [by apply Hsticky|]. intros [o' uc'] s' Hc'. simpl in Hc'.
  rewrite Hc'. apply rpp_bind. eapply rpp_mono; [by apply IH|]. intros [r uc''] s'' Hc''. done.
Qed.

Lemma union_one_sticky delta obj uc k v b s :
  conflict uc = true ->
  rpp (union_one n opts rec delta obj uc k v) b s (fun r _ => conflict r.1.2 = true).
Proof.
  intros Hc. unfold union_one. destruct (im_get k (values obj)); [|by apply rpp_ret].
  destruct (op_of delta k).
  - apply rpp_bind, rpp_any. intros ok s1. destruct ok; simpl; [|by apply rpp_ret].
    apply rpp_bind. eapply rpp_mono; [by apply Hsticky|]. intros [o uc'] s' Hc'. simpl in Hc'.
    rewrite Hc'. by apply rpp_ret.
  - destruct (_ <? 0); [by apply rpp_ret|]. apply rpp_bind, rpp_any. intros o s1.
    destruct (negb _); [done|]. apply rpp_bind, rpp_any. intros w s2.
    apply rpp_bind, rpp_any. intros _ s3. by apply rpp_ret.
  - apply rpp_bind, rpp_any. intros o s1. by apply rpp_ret.
Qed.

Lemma union_entries_sticky delta obj uc el :
  conflict uc = true -> sticky (union_entries n opts rec delta obj uc el).
Proof.
  revert obj uc. induction el as [|[k v] el IH]; intros obj uc Hc b s; cbn [union_entries];
    [by apply rpp_ret|].
  apply rpp_bind. eapply rpp_mono; [by apply union_one_sticky|]. intros [[obj' uc'] []] s' Hc'.
  - by apply IH.
  - by apply rpp_ret.
Qed.

Lemma union_match_sticky obj delta uc b s :
  conflict uc = true -> rpp (union_match n opts rec obj delta uc) b s (fun r _ => conflict r.1.1 = true).
Proof.
  intros Hc. unfold union_match, union_fn.
  destruct obj, delta; try done; try destruct (negb _); try (by apply rpp_ret);
    apply rpp_bind; (eapply rpp_mono; [first [by apply union_lists_sticky|by apply union_entries_sticky]|]);
    intros [r uc'] s' Hc'; by apply rpp_ret.
Qed.

(** ** The elements of a list *)

Lemma union_lists_computes b R dts : forall dl ots ol idx F s uc,
  clear b s R F -> F ⊆ dom s -> all2 (den s (dom s ∖ (F ∪ R))) dts dl -> sep (own s) ots F ol ->
  Forall (good n) dts -> Forall (good n) ots -> conflict uc = false ->
  computes (t_lists trec dts ots) (union_lists rec idx ol dl uc) b s
    (fun ts ls s' => framed F s s' /\ all2 (den s' (dom s' ∖ R)) ts ls).
Proof.
  assert (Hd : forall b s (F : gset loc) uc dts dl, conflict uc = false ->
    all2 (den s (dom s ∖ (F ∪ R))) dts dl ->
    computes (Some dts) (mret (dl, uc)) b s
      (fun ts ls s' => framed F s s' /\ all2 (den s' (dom s' ∖ R)) ts ls)).
  { intros b' s F uc dts' dl Hc Hall. apply rwp_ret. split_and!; [done|apply framed_refl|].
    eapply all2_den_frame; [|done|exact Hall]. set_solver. }
  induction dts as [|d dts IH]; intros [|dl0 dl] [|o ots] [|ol0 ol] idx F s uc Hclear HF Hds Hos Hgd Hgo Hc;
    try (simpl in Hds, Hos; done); try (by apply Hd).
  { apply rwp_ret. pose proof Hclear as [? ? _ _]. split_and!; [done|apply framed_refl|].
    eapply sep_all2; [|exact Hos]. apply Forall_true. intros t F' l HF' Ho.
    eapply own_den; [|exact Ho]. set_solver. }
  destruct Hds as [Hd1 Hds]. destruct Hos as (F1 & F2 & -> & Hdis & Ho & Hos).
  apply list.Forall_cons in Hgd as [Hgd1 Hgd]. apply list.Forall_cons in Hgo as [Hgo1 Hgo].
  pose proof Hclear as [HR HRF _ _]. cbn [t_lists union_lists].
  eapply (computes_bind (trec d o) (fun r => match t_lists trec dts ots with Some rs => Some (r :: rs) | None => None end)).
  - eapply (Hrec b s (F2 ∪ R) F1); [..|exact Hc]; [|exact Ho| |done|done].
    + eapply clear_sub; [exact Hclear|set_solver..].
    + eapply den_frame; [|done|exact Hd1]. set_solver.
  - intros t l uc' s' Hc' [Hfr Hdl]. cbv beta iota. rewrite Hc'.
    pose proof (framed_agree _ _ R _ _ HF Hdis Hfr) as Hag. assert (Hdom : dom s ⊆ dom s') by apply Hfr.
    eapply (computes_bind (t_lists trec dts ots) (fun rs => Some (t :: rs))).
    + eapply (IH dl ots ol (idx + 1) F2 s' uc'); [..|done]; [|set_solver| | |done|done].
      * eapply clear_sub; [exact Hclear|set_solver..].
      * eapply all2_den_frame; [| |exact Hds]; [set_solver|]. intros i Hi. apply Hag. set_solver.
      * eapply sep_impl; [|exact Hos]. apply Forall_true. intros x F' k HF'. apply own_frame.
        intros i Hi. apply Hag. set_solver.
    + intros ts ls uc'' s'' Hc'' [Hfr' Hall]. apply rwp_ret. split_and!; [done| |].
      * eapply framed_trans; [| |exact Hfr|exact Hfr']; set_solver.
      * split; [|done]. destruct Hfr' as [Hdom' He']. eapply den_frame; [| |exact Hdl]; [set_solver|].
        intros i Hi. apply He'; set_solver.
    + intros a uc'' Hc''. by intros b' s''.
  - intros l uc' Hc' b' s'. cbv beta iota. rewrite Hc'. apply rpp_bind.
    eapply rpp_mono; [by apply union_lists_sticky|]. intros [r uc''] s'' Hc''. done.
Qed.
End Loops.

(** ** The union *)

Section Union.
Context (schema_fn : string -> option (bool -> loc -> rt loc)).

Lemma do_union_sticky fuel opts rec self x uc :
  (forall l x uc, conflict uc = true -> sticky (rec l x uc)) ->
  conflict uc = true -> sticky (do_union schema_fn fuel opts rec self x uc).
Proof.
  intros Hrec Hc b s. unfold do_union. apply rpp_bind, rpp_any. intros [] s1; [by apply rpp_ret|].
  apply rpp_bind. eapply rpp_mono with (Q := fun r _ => conflict r.1 = true).
  - apply rpp_borrow_mut. intros v b1. apply rpp_borrow. intros w b2.
    eapply rpp_mono; [by apply union_match_sticky|]. by intros [[uc' sch] v'] s'.
  - intros [uc' sch] s' Hc'. simpl in Hc'. rewrite Hc'. by apply rpp_ret.
Qed.

Lemma union_sticky fuel opts : forall or_mode self x uc,
  conflict uc = true -> sticky (union schema_fn fuel opts or_mode self x uc).
Proof.
  induction fuel as [|fuel IH]; intros or_mode self x uc Hc b s; [done|]. cbn [union].
  apply rpp_bind, rpp_any. intros a s1. destruct (is_none_or_undefined a); [by apply rpp_ret|].
  apply rpp_bind, rpp_any. intros c s2. destruct (is_none_or_undefined c); [by apply rpp_ret|].
  destruct (_ && _); [apply do_union_sticky; [intros; by apply IH|done]|]. destruct or_mode; [|by apply rpp_ret].
  apply rpp_borrow_mut. intros v b1. apply rpp_borrow. intros w b2.
  destruct v, w; try done.
Qed.

Lemma good_list n ts : good (S n) (mkValue (list_value ts)) -> Forall (good n) ts.
Proof.
  intros [Hk Hd%depth_list_inv]. apply everywhere_list in Hk as [_ Hk].
  rewrite list.Forall_forall in *. intros t Ht. split; [by apply Hk|by apply Hd].
Qed.

Lemma good_dict n d : good (S n) (mkValue (dict_value d)) ->
  NoDup (map fst (values d)) /\ Forall (fun kv => good n kv.2) (values d).
Proof.
  intros [Hk Hd%depth_dict_inv]. apply everywhere_dict in Hk as [Hnd Hk]. split; [done|].
  rewrite list.Forall_forall in *. intros t Ht. split; [by apply Hk|by apply Hd].
Qed.

Lemma clear_child b s R self F' x :
  clear b s R ({[self]} ∪ F') -> self ∈ dom s -> self ∉ F' -> x ∈ dom s ∖ ({[self]} ∪ F' ∪ R) ->
  clear {| writing := self :: writing b; reading := x :: reading b |} s ({[self]} ∪ R) F'.
Proof.
  intros [H1 H2 H3 H4] Hs HF Hx. split; simpl.
  - set_solver.
  - set_solver.
  - intros l [->|Hl]%elem_of_cons; [set_solver|]. apply H3 in Hl. set_solver.
  - intros l [->|Hl]%elem_of_cons; [set_solver|]. apply H4 in Hl. set_solver.
Qed.

(** The match on the two values, for plain data: no schema is left to build. *)
Definition matches (o : option value) (m : rt (UnionContext * option (string * string * list string) * Value loc))
    (b : borrows) (s : store) (Q : value -> Value loc -> store -> Prop) : Prop :=
  match o with
  | Some t => rwp m b s (fun r s' => conflict r.1.1 = false /\ r.1.2 = None /\ Q t r.2 s')
  | None => rpp m b s (fun r _ => conflict r.1.1 = true)
  end.

(** The cell of [self] is written with what the match gives. *)
Lemma do_union_computes o fuel opts rec b s R F' self x uc v w (Q : value -> Value loc -> store -> Prop) :
  clear b s R ({[self]} ∪ F') -> s !! self = Some v -> s !! x = Some w ->
  x ∈ dom s ∖ ({[self]} ∪ F' ∪ R) ->
  matches o (union_match fuel opts rec v w uc)
    {| writing := self :: writing b; reading := x :: reading b |} s Q ->
  computes o (do_union schema_fn fuel opts rec self x uc) b s
    (fun t l s' => l = self /\ exists v' s1, Q t v' s1 /\ s' = <[self := v']> s1).
Proof.
  intros [HR HFR Hw Hr] Hv Hwx Hx Hm.
  assert (Hsw : self ∉ writing b) by (intros Hin; apply Hw in Hin; set_solver).
  assert (Hxw : x ∉ writing b) by (intros Hin; apply Hw in Hin; set_solver).
  assert (Hsr : self ∉ reading b) by (intros Hin; apply Hr in Hin; set_solver).
  assert (Hne : self <> x) by set_solver.
  unfold computes, rwp, rpp, do_union.
  rewrite !(bind_ok _ _ _ _ _ _ (is_same_ref_ok _ _ _ _ Hv Hsw _ _ Hwx Hxw)), (bool_decide_eq_false_2 _ Hne).
  unfold mbind, rt_bind. rewrite !(borrow_mut_ok _ _ _ _ Hv Hsw) by done.
  rewrite !(borrow_ok _ _ _ _ Hwx) by set_solver. unfold matches, rwp, rpp in Hm. simpl in Hm |- *.
  destruct (union_match fuel opts rec v w uc _ s) as [[[[uc' sch] v'] s']|]; [|by destruct o].
  simpl in Hm. destruct o as [t|].
  - destruct Hm as (Huc & -> & HQ). rewrite Huc. split_and!; [done|done|]. eauto.
  - rewrite Hm. done.
Qed.

(** The cell of [self] after the loops: its references were computed outside of it. *)
Lemma self_written s s1 R F' self v' :
  self ∈ dom s -> self ∉ F' -> framed F' s s1 -> framed ({[self]} ∪ F') s (<[self := v']> s1) /\
  forall t l, den s1 (dom s1 ∖ ({[self]} ∪ R)) t l ->
    den (<[self := v']> s1) (dom (<[self := v']> s1) ∖ R) t l.
Proof.
  intros Hs Hn [Hd He]. split.
  - split; [rewrite dom_cell; set_solver|]. intros l Hl HF. rewrite cell_ne by set_solver. apply He; set_solver.
  - intros t l. apply den_frame; [rewrite dom_cell; set_solver|]. intros k Hk. apply cell_ne. set_solver.
Qed.

Section Level.
Context (n : nat) (opts : UnionOptions) (Hrec : refines n (t_union opts) (union schema_fn n opts false)).

Lemma list_list_computes b s R F self x os ds uc :
  clear b s R F -> own s (mkValue (list_value os)) F self ->
  den s (dom s ∖ (F ∪ R)) (mkValue (list_value ds)) x ->
  good (S n) (mkValue (list_value os)) -> good (S n) (mkValue (list_value ds)) -> conflict uc = false ->
  computes (t_union opts (mkValue (list_value ds)) (mkValue (list_value os)))
    (do_union schema_fn n opts (union schema_fn n opts false) self x uc) b s
    (fun t l s' => framed F s s' /\ den s' (dom s' ∖ R) t l).
Proof.
  intros Hclear Hown Hden Hgo%good_list Hgd%good_list Hc. pose proof (own_subset _ _ _ _ Hown) as HFd.
  destruct (own_list _ _ _ _ Hown) as (ol & F' & Hl & Hn & -> & Hsep & Hos).
  apply den_list in Hden as (Hx & dl & Hxl & Hds). pose proof Hclear as [HR HFR _ _].
  eapply computes_mono; [eapply (do_union_computes _ _ _ _ _ _ _ _ _ _ _ _ _
    (fun t v' s' => exists ts ls, t = v_list ts /\ v' = list_value ls /\ framed F' s s' /\
       all2 (den s' (dom s' ∖ ({[self]} ∪ R))) ts ls)); [exact Hclear|exact Hl|exact Hxl|exact Hx|]|].
  - cbn [union_match t_union is_none_or_undefined]. destruct (list_override opts); simpl negb; cbv iota.
    + apply rwp_ret. split_and!; [done..|]. exists os, ol. split_and!; [done..|apply framed_refl|].
      eapply all2_den_frame; [|done|exact Hos]. set_solver.
    + assert (Hch := clear_child _ _ _ _ _ _ Hclear ltac:(set_solver) Hn Hx).
      assert (Hds' : all2 (den s (dom s ∖ (F' ∪ ({[self]} ∪ R)))) ds dl).
      { eapply all2_den_frame; [|done|exact Hds]. set_solver. }
      pose proof (union_lists_computes n (t_union opts) (union schema_fn n opts false) Hrec
        (union_sticky n opts false) _ _ ds dl os ol 0 F' s uc Hch ltac:(set_solver) Hds' Hsep Hgd Hgo Hc)
        as Hlist.
      unfold computes, matches in *. destruct (t_lists (t_union opts) ds os) as [ts|]; simpl.
      * apply rwp_bind. eapply rwp_mono; [exact Hlist|]. intros [ls uc'] s' (Hc' & Hfr & Hall).
        apply rwp_ret. split_and!; [done..|]. exists ts, ls. done.
      * apply rpp_bind. eapply rpp_mono; [exact Hlist|]. intros [ls uc'] s' Hc'. done.
  - intros t l s' (-> & v' & s1 & (ts & ls & -> & -> & Hfr & Hall) & ->).
    destruct (self_written s s1 R F' self (list_value ls) ltac:(set_solver) Hn Hfr) as [Hfr' Hput].
    split; [done|]. eapply den_list_intro; [rewrite dom_cell; set_solver|apply cell_eq|].
    eapply all2_impl; [|exact Hall]. apply Forall_true. intros t l. apply Hput.
Qed.

Lemma dict_dict_computes b s R F self x od dd uc :
  clear b s R F -> own s (mkValue (dict_value od)) F self ->
  den s (dom s ∖ (F ∪ R)) (mkValue (dict_value dd)) x ->
  good (S n) (mkValue (dict_value od)) -> good (S n) (mkValue (dict_value dd)) -> conflict uc = false ->
  computes (t_union opts (mkValue (dict_value dd)) (mkValue (dict_value od)))
    (do_union schema_fn n opts (union schema_fn n opts false) self x uc) b s
    (fun t l s' => framed F s s' /\ den s' (dom s' ∖ R) t l).
Proof.
  intros Hclear Hown Hden [Hndo Hgo]%good_dict [Hndd Hgd]%good_dict Hc.
  pose proof (own_subset _ _ _ _ Hown) as HFd. pose proof Hclear as [HR HFR _ _].
  cbn [own] in Hown. destruct Hown as (c & F' & Hl & Hn & -> & Hw). destruct c; try done.
  destruct Hw as [Hmo Hsep]. rename v into o.
  cbn [den] in Hden. destruct Hden as (Hx & c & Hxl & Hw). destruct c; try done.
  destruct Hw as [Hmd Hds]. rename v into d.
  eapply computes_mono; [eapply (do_union_computes _ _ _ _ _ _ _ _ _ _ _ _ _
    (fun t v' s' => exists e e', t = mkValue (dict_value e) /\ v' = dict_value e' /\ framed F' s s' /\
       same_meta e' e /\ all2 (entry_den s' (dom s' ∖ ({[self]} ∪ R))) (values e) (values e')));
    [exact Hclear|exact Hl|exact Hxl|exact Hx|]|].
  - cbn [union_match t_union is_none_or_undefined].
    assert (Hch := clear_child _ _ _ _ _ _ Hclear ltac:(set_solver) Hn Hx).
    assert (Hds' : all2 (entry_den s (dom s ∖ (F' ∪ ({[self]} ∪ R)))) (values dd) (values d)).
    { eapply all2_impl; [|exact Hds]. apply Forall_true. intros kt kl [Hk Hd]. split; [done|].
      eapply den_frame; [|done|exact Hd]. set_solver. }
    pose proof (union_fn_computes n opts (t_union opts) (union schema_fn n opts false) Hrec
      dd od d o _ _ F' s uc Hmd Hmo Hch ltac:(set_solver) Hds' Hndd Hgd Hndo Hgo Hsep Hc) as Hfn.
    unfold computes, matches in *. destruct (t_dict opts (t_union opts) dd od) as [e|]; simpl.
    + apply rwp_bind. eapply rwp_mono; [exact Hfn|]. intros [e' uc'] s' (Hc' & Hfr & Hall).
      apply rwp_ret. split_and!; [done..|]. exists e, e'. split_and!; [done..|apply Hall|apply Hall].
    + apply rpp_bind. eapply rpp_mono; [exact Hfn|]. intros [ls uc'] s' Hc'. done.
  - intros t l s' (-> & v' & s1 & (e & e' & -> & -> & Hfr & Hm & Hall) & ->).
    destruct (self_written s s1 R F' self (dict_value e') ltac:(set_solver) Hn Hfr) as [Hfr' Hput].
    split; [done|]. cbn [den]. split; [rewrite dom_cell; set_solver|].
    exists (dict_value e'). split; [apply cell_eq|]. split; [done|].
    eapply all2_impl; [|exact Hall]. apply Forall_true. intros kt kl [Hk Hd]. split; [done|]. by apply Hput.
Qed.

Lemma union_step : refines (S n) (t_union opts) (union schema_fn (S n) opts false).
Proof.
  intros b s R F tself self tx x uc Hclear Hown Hden Hgo Hgd Hc.
  destruct (entry_left _ _ _ _ Hclear _ _ _ _ Hown Hden)
    as (a & F' & Ha & HF & _ & Hka & _ & _ & Haw & _).
  destruct (entry_right _ _ _ _ Hclear _ _ _ _ Hown Hden) as (c & Hx & Hkc & Hxd & Hxw).
  assert (Hret_x : computes (Some tx) (mret (x, uc)) b s (fun t l s' => framed F s s' /\ den s' (dom s' ∖ R) t l)).
  { apply rwp_ret. split_and!; [done|apply framed_refl|].
    eapply den_frame; [|done|exact Hden]. set_solver. }
  assert (Hret_self : computes (Some tself) (mret (self, uc)) b s (fun t l s' => framed F s s' /\ den s' (dom s' ∖ R) t l)).
  { apply rwp_ret. split_and!; [done|apply framed_refl|]. eapply own_den; [|exact Hown].
    pose proof (own_subset _ _ _ _ Hown). destruct Hclear. set_solver. }
  unfold computes, rwp, rpp. cbn [union].
  rewrite !(bind_ok _ _ _ _ _ _ (read_cell_ok _ _ _ _ Ha Haw)), (kind_missing _ _ Hka).
  destruct tself as [o], tx as [d]. cbn [get] in Hka, Hkc |- *.
  destruct (is_none_or_undefined o) eqn:Eo; [cbn [t_union]; rewrite Eo; exact Hret_x|].
  rewrite !(bind_ok _ _ _ _ _ _ (read_cell_ok _ _ _ _ Hx Hxw)), (kind_missing _ _ Hkc).
  cbn [get]. destruct (is_none_or_undefined d) eqn:Ed.
  { cbn [t_union]; rewrite Eo, Ed; exact Hret_self. }
  rewrite (kind_list_or_config _ _ Hka), (kind_list_or_config _ _ Hkc).
  destruct (is_list_or_config o && is_list_or_config d) eqn:Elc.
  2: { cbn [t_union]. rewrite Eo, Ed. by destruct d; try exact Hret_x; destruct o; try exact Hret_x. }
  assert (Hmixed : (forall fuel rec uc, union_match fuel opts rec a c uc = rt_panic "union failure") ->
    computes None (do_union schema_fn n opts (union schema_fn n opts false) self x uc) b s
      (fun (t : value) l s' => framed F s s' /\ den s' (dom s' ∖ R) t l)).
  { intros Hp. rewrite HF in Hclear, Hxd.
    eapply computes_mono; [eapply (do_union_computes None _ _ _ _ _ _ _ _ _ _ _ _ (fun _ _ _ => False));
      [exact Hclear|exact Ha|exact Hx|exact Hxd|]|].
    - by rewrite Hp.
    - by intros t l s' (_ & v' & s1 & [] & _). }
  destruct o; try done; try (by destruct Hown as (? & ? & _ & _ & _ & []));
    destruct d; try done; try (by destruct Hden as (_ & ? & _ & [])).
  - by eapply (list_list_computes b s R F).
  - apply Hmixed. intros. destruct a; try done. by destruct c.
  - apply Hmixed. intros. destruct a; try done. by destruct c.
  - by eapply (dict_dict_computes b s R F).
Qed.
End Level.

(** The recursion of the code, for every depth of the stack. *)
Lemma union_refines_at n opts : refines n (t_union opts) (union schema_fn n opts false).
Proof.
  induction n as [|n IH]; [|by apply union_step].
  intros b s R F tself self tx x uc _ _ _ [_ Hd] _ _. pose proof (depth_pos tself). lia.
Qed.
End Union.

(** ** The union of two references *)

Lemma union_entry_spec schema_fn n opts s F tself self tx x :
  own s tself F self -> den s (dom s ∖ F) tx x ->
  distinct_keys tself -> distinct_keys tx -> (depth tself <= n)%nat -> (depth tx <= n)%nat ->
  match t_union opts tx tself with
  | Some t => exists l s', union_entry schema_fn n self x false opts no_borrows s = Ok (l, s') /\
      den s' (dom s') t l /\ forall k, k ∈ dom s ∖ F -> s' !! k = s !! k
  | None => exists e, union_entry schema_fn n self x false opts no_borrows s = Panic e
  end.
Proof.
  intros Hown Hden Hk1 Hk2 Hd1 Hd2.
  assert (Hu : computes (t_union opts tx tself)
    (union schema_fn n opts false self x default_context) no_borrows s
    (fun t l s' => framed F s s' /\ den s' (dom s' ∖ ∅) t l)).
  { eapply union_refines_at; [|exact Hown| |by split..|done].
    - split; [set_solver..| |]; simpl; set_solver.
    - eapply den_frame; [|done|exact Hden]. set_solver. }
  unfold union_entry, mbind, rt_bind. unfold computes, rwp, rpp in Hu.
  destruct (t_union opts tx tself) as [t|];
    destruct (union schema_fn n opts false self x default_context no_borrows s) as [[[l uc] s']|e];
    simpl in Hu; try done; try (by eexists).
  - destruct Hu as (-> & [_ Hfr] & Hd). exists l, s'. split_and!; [done| |].
    + eapply den_frame; [|done|exact Hd]. set_solver.
    + intros k Hk. apply Hfr; set_solver.
  - rewrite Hu. by eexists.
Qed.

(** C5: The union of references refines the union of trees: when the left operand owns its
    cells and the right one is plain data elsewhere, [union_entry] returns a reference to
    [t_union] of the two trees and changes only cells of the left operand; where [t_union]
    is undefined (a conflict, or values that cannot be united) it panics.  The fuel is the
    depth of the operands. *)
Theorem union_entry_refines schema_fn n opts s F tself self tx x :
  own s tself F self -> den s (dom s ∖ F) tx x ->
  distinct_keys tself -> distinct_keys tx -> (depth tself <= n)%nat -> (depth tx <= n)%nat ->
  match t_union opts tx tself with
  | Some t => exists l s', union_entry schema_fn n self x false opts no_borrows s = Ok (l, s') /\
      den s' (dom s') t l /\ forall k, k ∈ dom s ∖ F -> s' !! k = s !! k
  | None => exists e, union_entry schema_fn n self x false opts no_borrows s = Panic e
  end.
Proof. apply union_entry_spec. Qed.

(** [{a = 1} | {a = 1, b = [2]}]. *)
Definition union_example : store :=
  <[0%nat := dict_value (mkDict [("a", 1%nat)] [] [] [])]>
  (<[1%nat := int_value 1]>
  (<[2%nat := dict_value (mkDict [("a", 3%nat); ("b", 4%nat)] [] [] [])]>
  (<[3%nat := int_value 1]> (<[4%nat := list_value [5%nat]]> (<[5%nat := int_value 2]> ∅))))).

Lemma union_example_own :
  own union_example (v_dict [("a", v_int 1)]) {[0%nat; 1%nat]} 0%nat.
Proof.
  exists (dict_value (mkDict [("a", 1%nat)] [] [] [])), {[1%nat]}.
  split; [done|]. split; [set_solver|]. split; [set_solver|]. split; [done|].
  exists {[1%nat]}, ∅. split; [set_solver|]. split; [set_solver|]. split; [|done]. split; [done|].
  exists (int_value 1), ∅. split; [done|]. split; [set_solver|]. split; [set_solver|done].
Qed.
Lemma union_example_den :
  den union_example (dom union_example ∖ {[0%nat; 1%nat]}) (v_dict [("a", v_int 1); ("b", v_list [v_int 2])]) 2%nat.
Proof.
  assert (Hin : forall k, (2 <= k <= 5)%nat -> k ∈ dom union_example ∖ {[0%nat; 1%nat]}).
  { intros k Hk. apply elem_of_difference. split;
      [|intros [Hk0%elem_of_singleton|Hk1%elem_of_singleton]%elem_of_union; lia].
    destruct k as [|[|[|[|[|[|]]]]]]; try lia; by apply elem_of_dom. }
  split; [apply Hin; simpl; lia|]. eexists. split; [done|]. split; [done|].
  split; [split; [done|]; split; [apply Hin; simpl; lia|]; by eexists|].
  split; [|done]. split; [done|]. split; [apply Hin; simpl; lia|]. eexists. split; [done|].
  split; [|done]. split; [apply Hin; simpl; lia|]. by eexists.
Qed.

Lemma union_entry_refines_witness :
  exists l s', union_entry (fun _ => None) 3 0%nat 2%nat false default_options no_borrows union_example
    = Ok (l, s') /\
    den s' (dom s') (v_dict [("a", v_int 1); ("b", v_list [v_int 2])]) l /\
    forall k, k ∈ dom union_example ∖ {[0%nat; 1%nat]} -> s' !! k = union_example !! k.
Proof.
  refine (union_entry_refines (fun _ => None) 3 default_options union_example {[0%nat; 1%nat]}
    (v_dict [("a", v_int 1)]) 0%nat (v_dict [("a", v_int 1); ("b", v_list [v_int 2])]) 2%nat
    union_example_own union_example_den _ _ _ _).
  - split; [|done]. vm_compute. repeat constructor; set_solver.
  - split; [vm_compute; repeat constructor; set_solver|]. by split.
  - vm_compute. lia.
  - vm_compute. lia.
Defined.
