(* ===== verification/CopyRefine.v ===== *)
(** * Deep copies, and the operator [|] on references

    [deep_copy] of plain data allocates every cell of the result and leaves the store as it
    was; with it [bin_bit_or] leaves both operands as they were, whatever they share. *)

From S2P Require Import Prelude MachineInt Floats Chars Utf8 Value ValueCmp ValueBin ValueList Heap ValueHeap ValueUnion UnionSpec TreeStore UnionRefine.

(** ** The tree of a copy: every entry gets its operation and index, the attribute types of
    a dict are dropped *)

Definition copied {V W} (d : DictValue V) (vs : list (string * W)) : DictValue W :=
  fold_left (fun new kv => update_entry new kv.1 kv.2 (op_of d kv.1) (index_of d kv.1)) vs default_dict.

Fixpoint t_copy (t : value) : value :=
  match t with
  | mkValue (list_value ts) => mkValue (list_value (map t_copy ts))
  | mkValue (dict_value d) =>
      mkValue (dict_value (copied d (map (fun kv => (kv.1, t_copy kv.2)) (values d))))
  | _ => t
  end.

Section Copied.
Context {V W X Y : Type}.

Lemma im_insert_new {Z} k (v : Z) m : k ∉ map fst m -> im_insert k v m = m ++ [(k, v)].
Proof.
  induction m as [|[k' v'] m IH]; simpl; [done|]. intros Hk.
  rewrite bool_decide_eq_false_2 by set_solver. f_equal. apply IH. set_solver.
Qed.

Lemma copied_values (d : DictValue V) (vs : list (string * W)) :
  NoDup (map fst vs) -> values (copied d vs) = vs.
Proof.
  unfold copied. intros Hnd. change vs with (values (@default_dict W) ++ vs) at 2.
  assert (Hnd' : NoDup (map fst (values (@default_dict W) ++ vs))) by done. clear Hnd.
  generalize dependent (@default_dict W). induction vs as [|[k v] vs IH]; intros acc Hnd; simpl.
  { by rewrite app_nil_r. }
  rewrite map_app in Hnd. simpl in Hnd. pose proof Hnd as (_ & Hnotin & _)%NoDup_app.
  assert (Hk : k ∉ map fst (values acc)) by (intros Hin; apply (Hnotin k Hin); set_solver).
  rewrite IH; simpl; rewrite im_insert_new by done; rewrite <- app_assoc; [done|].
  by rewrite map_app.
Qed.

(** The metadata depends on the keys and on the metadata of the original only. *)
Lemma copied_meta (d : DictValue V) (e : DictValue W) (vs : list (string * X)) (ws : list (string * Y)) :
  same_meta d e -> map fst vs = map fst ws -> same_meta (copied d vs) (copied e ws).
Proof.
  unfold copied. intros (E1 & E2 & _) Hk.
  assert (Hm : same_meta (@default_dict X) (@default_dict Y)) by done.
  generalize dependent (@default_dict Y). generalize dependent (@default_dict X).
  revert ws Hk. induction vs as [|[k v] vs IH]; intros [|[k' w] ws] Hk; simplify_eq/=; [done|].
  intros a b (A1 & A2 & A3). apply IH; [done|]. unfold update_entry, same_meta, op_of, index_of.
  simpl. by rewrite E1, E2, A1, A2, A3.
Qed.
End Copied.

Lemma copy_keys (m : list (string * value)) : map fst (map (fun kv => (kv.1, t_copy kv.2)) m) = map fst m.
Proof. rewrite map_map. by apply map_ext. Qed.

Lemma kind_copy t : kind (get (t_copy t)) = kind (get t).
Proof. by destruct t as [[]]. Qed.

Lemma copy_distinct t : distinct_keys t -> distinct_keys (t_copy t).
Proof.
  induction t as [v IH] using value_ind. destruct v; try done.
  - intros [_ H]%everywhere_list. apply everywhere_list. split; [done|]. apply Forall_map.
    simpl in IH. rewrite list.Forall_forall in *. intros x Hx. apply IH; [done|by apply H].
  - intros [Hnd H]%everywhere_dict. cbn [t_copy].
    assert (Hv : values (copied v (map (fun kv => (kv.1, t_copy kv.2)) (values v))) =
      map (fun kv => (kv.1, t_copy kv.2)) (values v)) by (apply copied_values; by rewrite copy_keys).
    apply everywhere_dict. rewrite Hv, copy_keys. split; [done|]. apply Forall_map.
    simpl in IH. unfold all_dict in IH. rewrite list.Forall_forall in *. simpl. intros x Hx. apply IH; [done|by apply H].
Qed.

Lemma list_max_map_eq {A} (f g : A -> nat) l :
  Forall (fun x => f x = g x) l -> list_max (map f l) = list_max (map g l).
Proof. induction 1 as [|x l Hx _ IH]; simpl; [done|]. by rewrite Hx, IH. Qed.

Lemma copy_depth t : distinct_keys t -> depth (t_copy t) = depth t.
Proof.
  induction t as [v IH] using value_ind. destruct v; try done.
  - intros [_ H]%everywhere_list. cbn [t_copy depth]. f_equal. rewrite map_map.
    apply list_max_map_eq. simpl in IH. rewrite list.Forall_forall in *. intros x Hx. apply IH; [done|by apply H].
  - intros [Hnd H]%everywhere_dict. cbn [t_copy depth]. f_equal.
    rewrite copied_values by (by rewrite copy_keys). rewrite map_map.
    apply list_max_map_eq. simpl in IH. unfold all_dict in IH. rewrite list.Forall_forall in *.
    simpl. intros x Hx. apply IH; [done|by apply H].
Qed.

(** ** Copying *)

(** Fresh cells hold [t], everything else is as before. *)
Definition fresh_tree (s : store) (t : value) (l : loc) (s' : store) : Prop :=
  exists F, own s' t F l /\ F ## dom s /\ framed ∅ s s'.

Section Copy.
Context (b : borrows).

Lemma mapM_copy {A B C} (f : B -> rt C) (R : store -> A -> gset loc -> C -> Prop) (P : store -> A -> B -> Prop) :
  (forall s s' t F l, (forall k, k ∈ F -> s' !! k = s !! k) -> R s t F l -> R s' t F l) ->
  (forall s t F l, R s t F l -> F ⊆ dom s) ->
  (forall s s' t l, framed ∅ s s' -> P s t l -> P s' t l) ->
  forall ts ls s, Forall (fun t => forall l s, P s t l ->
      rwp (f l) b s (fun l' s' => exists F, R s' t F l' /\ F ## dom s /\ framed ∅ s s')) ts ->
    all2 (P s) ts ls ->
    rwp (mapM_rt f ls) b s (fun ls' s' => exists F, sep (R s') ts F ls' /\ F ## dom s /\ framed ∅ s s').
Proof.
  intros HR Hdom HP ts. induction ts as [|t ts IH]; intros [|l ls] s Hf Hall; simpl in Hall; try done.
  { apply rwp_ret. exists ∅. split_and!; [done|set_solver|apply framed_refl]. }
  destruct Hall as [Hl Hls]. apply list.Forall_cons in Hf as [Hft Hf]. cbn [mapM_rt].
  apply rwp_bind. eapply rwp_mono; [by apply Hft|]. intros l' s1 (F1 & HF1 & Hd1 & Hfr1).
  apply rwp_bind. eapply rwp_mono; [apply IH; [done|]|].
  { eapply all2_impl; [|exact Hls]. apply Forall_true. intros t' k. by apply HP. }
  intros ls' s2 (F2 & HF2 & Hd2 & Hfr2). apply rwp_ret. pose proof (Hdom _ _ _ _ HF1) as HF1d.
  exists (F1 ∪ F2). split_and!; [|destruct Hfr1; set_solver|by eapply framed_trans].
  exists F1, F2. split_and!; [done|set_solver| |done]. eapply HR; [|exact HF1].
  intros k Hk. apply Hfr2; set_solver.
Qed.

(** A fresh cell on top of fresh cells. *)
Lemma alloc_fresh s s1 (F : gset loc) (v : Value loc) (t : value) :
  F ## dom s -> F ⊆ dom s1 -> framed ∅ s s1 ->
  (forall l s2, s2 = <[l := v]> s1 -> l ∉ dom s1 -> own s2 t ({[l]} ∪ F) l) ->
  rwp (alloc v) b s1 (fresh_tree s t).
Proof.
  intros HF HF1 Hfr Ho. apply rwp_alloc. intros l Hl. exists ({[l]} ∪ F).
  split_and!; [by apply Ho|destruct Hfr; set_solver|].
  eapply framed_trans; [done|done|exact Hfr|]. apply framed_insert. by right.
Qed.

(** Plain data within [D], where [D] is allocated. *)
Definition within (D : gset loc) (s : store) (t : value) (l : loc) : Prop := D ⊆ dom s /\ den s D t l.

Lemma within_fresh D s s' t l : framed ∅ s s' -> within D s t l -> within D s' t l.
Proof.
  intros [Hd He] [HD H]. split; [set_solver|]. eapply den_frame; [done| |exact H].
  intros k Hk. apply He; set_solver.
Qed.

End Copy.

Lemma own_dict_frame (s s' : store) (kt : string * value) F (kl : string * loc) :
  (forall k, k ∈ F -> s' !! k = s !! k) ->
  kt.1 = kl.1 /\ own s kt.2 F kl.2 -> kt.1 = kl.1 /\ own s' kt.2 F kl.2.
Proof. intros Hs [Hk Ho]. split; [done|]. by eapply own_frame. Qed.

Lemma sep_map {A A' B} (R : A -> gset loc -> B -> Prop) (g : A' -> A) ts : forall F ls,
  sep (fun t => R (g t)) ts F ls -> sep R (map g ts) F ls.
Proof.
  induction ts as [|t ts IH]; intros F [|l ls]; simpl; [done..|].
  intros (F1 & F2 & HF & Hd & HR & Hs). exists F1, F2. auto.
Qed.

Lemma sep_keys (s : store) (ts : list (string * value)) : forall F (ls : list (string * loc)),
  sep (fun kt F kl => kt.1 = kl.1 /\ own s kt.2 F kl.2) ts F ls -> map fst ts = map fst ls.
Proof.
  induction ts as [|t ts IH]; intros F [|l ls]; simpl; [done..|].
  intros (F1 & F2 & _ & _ & [Hk _] & Hs). f_equal; eauto.
Qed.

Lemma sep_own_dom s ts : forall F ls, sep (own s) ts F ls -> F ⊆ dom s.
Proof. intros F ls. apply sep_subset, Forall_true. intros t F' l. apply own_subset. Qed.

Lemma deep_copy_fresh n : forall b s D t l,
  within D s t l -> distinct_keys t -> (depth t <= n)%nat -> (forall k, k ∈ writing b -> k ∉ D) ->
  rwp (deep_copy n l) b s (fresh_tree s (t_copy t)).
Proof.
  induction n as [|n IH]; intros b s D t l [HD Hden] Hk Hn Hw.
  { pose proof (depth_pos t). lia. }
  destruct t as [w]. cbn [den] in Hden. destruct Hden as (Hl & v & Hv & Hval).
  assert (Hlw : l ∉ writing b) by (intros Hin; by apply (Hw l)).
  cbn [deep_copy]. eapply rwp_borrow; [exact Hv|exact Hlw|].
  set (b' := {| writing := writing b; reading := l :: reading b |}).
  assert (Hscalar : scalar_cell v w -> rwp (alloc v) b' s (fresh_tree s (mkValue w))).
  { intros Hs. apply (alloc_fresh _ _ _ ∅); [set_solver..|apply framed_refl|].
    intros l' s2 -> Hl'. exists v, ∅. split_and!; [apply cell_eq|set_solver|done|]. by destruct w, v. }
  destruct w; try (destruct v; try done; by apply Hscalar).
  - destruct v; try done. apply everywhere_list in Hk as [_ Hk]. apply depth_list_inv in Hn.
    apply rwp_bind. eapply rwp_mono.
    + eapply (mapM_copy _ _ (fun s t => own s (t_copy t)) (within D)); [| | | |].
      * intros. by eapply own_frame.
      * intros. by eapply own_subset.
      * apply within_fresh.
      * rewrite list.Forall_forall in *. intros t Ht k s' Hin. by eapply IH; [exact Hin|apply Hk|apply Hn|].
      * eapply all2_impl; [|exact Hval]. apply Forall_true. by split.
    + intros ls s1 (F & HF%sep_map & Hd & Hfr).
      apply (alloc_fresh _ _ _ F); [done|by eapply sep_own_dom|done|].
      intros l' s2 -> Hl'. exists (list_value ls), F. pose proof (sep_own_dom _ _ _ _ HF).
      split_and!; [apply cell_eq|set_solver|done|]. eapply sep_impl; [|exact HF].
      apply Forall_true. intros t F' k HF'. apply own_frame. intros i Hi. apply cell_ne. set_solver.
  - destruct v; try done. destruct Hval as [Hm Hval].
    apply everywhere_dict in Hk as [Hnd Hk]. apply depth_dict_inv in Hn.
    apply rwp_bind. unfold copy_dict. apply rwp_bind. eapply rwp_mono.
    + eapply (mapM_copy _ _ (fun s kt F (kl : string * loc) => kt.1 = kl.1 /\ own s (t_copy kt.2) F kl.2)
        (fun s (kt : string * value) kl => kt.1 = kl.1 /\ within D s kt.2 kl.2)); [| | | |].
      * intros s1 s2 kt F kl Hs [Hk' Ho]. split; [done|]. by eapply own_frame.
      * intros s1 kt F kl [_ Ho]. by eapply own_subset.
      * intros s1 s2 kt kl Hfr [Hk' Ho]. split; [done|]. by eapply within_fresh.
      * rewrite list.Forall_forall in *. intros kt Ht kl s' [Hk' Hin]. apply rwp_bind.
        eapply rwp_mono; [by eapply IH; [exact Hin|apply Hk|apply Hn|]|].
        intros l' s1 (F & Ho & Hd & Hfr). apply rwp_ret. by exists F.
      * eapply all2_impl; [|exact Hval]. apply Forall_true. by intros kt kl [].
    + intros vs s1 (F & HF & Hd & Hfr). apply rwp_ret. cbn [t_copy].
      apply (sep_map (fun kt F kl => kt.1 = kl.1 /\ own s1 kt.2 F kl.2)
               (fun kt => (kt.1, t_copy kt.2))) in HF.
      set (ts := map (fun kt => (kt.1, t_copy kt.2)) (values v0)) in *.
      pose proof (sep_keys _ _ _ _ HF) as Hkeys.
      assert (Hndt : NoDup (map fst ts)) by (unfold ts; by rewrite copy_keys).
      assert (HFd : F ⊆ dom s1).
      { eapply sep_subset; [|exact HF]. apply Forall_true. intros kt F' kl [_ Ho]. by eapply own_subset. }
      apply (alloc_fresh _ _ _ F); [done|done|done|].
      intros l' s2 -> Hl'. eexists _, F. split_and!; [apply cell_eq|set_solver|done|].
      change (fold_left _ vs default_dict) with (copied v vs). split; [by apply copied_meta|].
      rewrite !copied_values by (done || by rewrite <- Hkeys).
      eapply sep_impl; [|exact HF]. apply Forall_true. intros kt F' kl HF'. apply own_dict_frame.
      intros i Hi. apply cell_ne. set_solver.
Qed.

(** ** The operator *)

(** [self | x] on plain data. *)
Definition t_bit_or (self x : value) : option value :=
  match get self, get x with
  | int_value a, int_value b => Some (v_int (Z.lor a b))
  | a, b =>
      if is_none_or_undefined a || is_none_or_undefined b ||
         (is_list_or_config a && is_list_or_config b)
      then t_union default_options x (t_copy self) else None
  end.

(** With a missing operand, or with lists and configurations, the mode makes no difference. *)
Lemma union_or_mode schema_fn n opts self x uc b s a c :
  s !! self = Some a -> s !! x = Some c -> self ∉ writing b -> x ∉ writing b ->
  is_none_or_undefined a || is_none_or_undefined c || (is_list_or_config a && is_list_or_config c) = true ->
  union schema_fn n opts true self x uc b s = union schema_fn n opts false self x uc b s.
Proof.
  intros Ha Hc Haw Hcw Hor. destruct n as [|n]; [done|]. cbn [union].
  rewrite !(bind_ok _ _ _ _ _ _ (read_cell_ok _ _ _ _ Ha Haw)).
  destruct (is_none_or_undefined a); [done|].
  rewrite !(bind_ok _ _ _ _ _ _ (read_cell_ok _ _ _ _ Hc Hcw)).
  destruct (is_none_or_undefined c); [done|]. simpl in Hor. by rewrite Hor.
Qed.

(** Other scalars do not unite. *)
Lemma union_or_scalars schema_fn n opts self x uc s a c :
  s !! self = Some a -> s !! x = Some c -> self <> x ->
  is_none_or_undefined a || is_none_or_undefined c || (is_list_or_config a && is_list_or_config c) = false ->
  (forall p q, a = int_value p -> c = int_value q -> False) ->
  exists e, union schema_fn n opts true self x uc no_borrows s = Panic e.
Proof.
  intros Ha Hc Hne Hor Hint. apply orb_false_iff in Hor as [[Hma Hmc]%orb_false_iff Hlc].
  destruct n as [|n]; [by eexists|]. cbn [union].
  rewrite (bind_ok _ _ _ _ _ _ (read_cell_ok _ _ no_borrows _ Ha ltac:(simpl; set_solver))), Hma.
  rewrite (bind_ok _ _ _ _ _ _ (read_cell_ok _ _ no_borrows _ Hc ltac:(simpl; set_solver))), Hmc, Hlc.
  rewrite (borrow_mut_ok _ _ _ _ Ha) by (simpl; set_solver).
  rewrite (borrow_ok _ _ _ _ Hc) by (simpl; set_solver).
  destruct a, c; try by eexists. by destruct (Hint v v0).
Qed.

(** C9: The operator [|] on plain data, whatever the operands share: it returns their union
    (for two integers their bitwise or) and changes no cell of the store, so that both
    operands are as before; it panics exactly where there is no union.  The fuel is the
    depth of the operands. *)
Theorem bit_or_leaves_operands schema_fn n s D ta a tb c :
  D ⊆ dom s -> den s D ta a -> den s D tb c -> distinct_keys ta -> distinct_keys tb ->
  (depth ta <= n)%nat -> (depth tb <= n)%nat ->
  match t_bit_or ta tb with
  | Some t => exists l s', bin_bit_or schema_fn n a c no_borrows s = Ok (l, s') /\
      den s' (dom s') t l /\ forall k, k ∈ dom s -> s' !! k = s !! k
  | None => exists e, bin_bit_or schema_fn n a c no_borrows s = Panic e
  end.
Proof.
  intros HD Ha Hc Hka Hkc Hda Hdc.
  destruct (den_root _ _ _ _ Ha) as (HaD & va & Hva & Hkva).
  destruct (den_root _ _ _ _ Hc) as (HcD & vc & Hvc & Hkvc).
  unfold bin_bit_or.
  rewrite (bind_ok _ _ _ _ _ _ (read_cell_ok _ _ no_borrows _ Hva ltac:(simpl; set_solver))).
  rewrite (bind_ok _ _ _ _ _ _ (read_cell_ok _ _ no_borrows _ Hvc ltac:(simpl; set_solver))).
  destruct ta as [wa], tb as [wc]. unfold t_bit_or. cbn [get] in *.
  destruct (bin_bit_or_int va vc) as [v|] eqn:Eint.
  { destruct va, vc; try done. injection Eint as <-. destruct wa; try done. destruct wc; try done.
    destruct Ha as (_ & ? & Ha & Hsa). rewrite Hva in Ha. injection Ha as <-.
    destruct Hc as (_ & ? & Hc & Hsc). rewrite Hvc in Hc. injection Hc as <-. simpl in Hsa, Hsc. subst.
    unfold alloc. eexists _, _. split; [done|]. split.
    - split; [rewrite dom_cell; set_solver|]. eexists. split; [apply cell_eq|done].
    - intros k Hk. apply cell_ne. intros <-. by apply (is_fresh (dom s)). }
  pose proof (deep_copy_fresh n no_borrows s D (mkValue wa) a (conj HD Ha) Hka Hda ltac:(simpl; set_solver)) as Hcopy.
  apply rwp_ok in Hcopy as (lo & s1 & Hcopy & F & Hown & HF & Hfr).
  rewrite (bind_ok _ _ _ _ _ _ Hcopy).
  assert (Hden : within D s1 (mkValue wc) c) by (by eapply within_fresh). destruct Hden as [HD1 Hden].
  destruct (own_root_cell _ _ _ _ Hown) as (vo & F' & Hvo & _ & HF' & Hkvo).
  pose proof (kind_copy (mkValue wa)) as Hkc'. cbn [get] in Hkc'.
  destruct (den_root _ _ _ _ Hden) as (_ & vc1 & Hvc1 & Hkvc1). cbn [get] in Hkvc1.
  assert (Hne : lo <> c) by set_solver.
  set (cond := is_none_or_undefined wa || is_none_or_undefined wc || (is_list_or_config wa && is_list_or_config wc)).
  assert (Hcond : is_none_or_undefined vo || is_none_or_undefined vc1 ||
    (is_list_or_config vo && is_list_or_config vc1) = cond).
  { unfold cond. rewrite Hkc' in Hkvo.
    by rewrite (kind_missing _ _ Hkvo), (kind_missing _ _ Hkvc1), (kind_list_or_config _ _ Hkvo),
      (kind_list_or_config _ _ Hkvc1). }
  assert (Hint : forall p q, wa = int_value p -> wc = int_value q -> False).
  { intros p q -> ->. by destruct va, vc. }
  replace (match wa, wc with int_value a, int_value b => Some (v_int (Z.lor a b)) | _, _ => _ end)
    with (if cond then t_union default_options (mkValue wc) (t_copy (mkValue wa)) else None).
  2: { unfold cond. destruct wa; try done. destruct wc; try done. by destruct (Hint v v0). }
  destruct cond.
  - pose proof (union_entry_spec schema_fn n default_options s1 F (t_copy (mkValue wa)) lo (mkValue wc) c
      Hown) as Hu.
    assert (Hden2 : den s1 (dom s1 ∖ F) (mkValue wc) c).
    { eapply den_frame; [|done|exact Hden]. set_solver. }
    specialize (Hu Hden2 (copy_distinct _ Hka) Hkc).
    rewrite copy_depth in Hu by done. specialize (Hu Hda Hdc).
    assert (Heq : union_entry schema_fn n lo c true default_options no_borrows s1 =
      union_entry schema_fn n lo c false default_options no_borrows s1).
    { unfold union_entry, mbind, rt_bind. erewrite union_or_mode; [done|exact Hvo|exact Hvc1|..|exact Hcond];
        simpl; set_solver. }
    rewrite Heq. destruct (t_union _ _ _); [|exact Hu]. destruct Hu as (l & s' & Hu & Hd & He).
    exists l, s'. split_and!; [done|done|]. intros k Hk. destruct Hfr as [Hd1 He1].
    rewrite He by set_solver. apply He1; set_solver.
  - destruct (union_or_scalars schema_fn n default_options lo c default_context s1 vo vc1 Hvo Hvc1 Hne Hcond)
      as [e He].
    { intros p q -> ->. rewrite Hkc' in Hkvo. destruct wa; try done. destruct wc; try done.
      by destruct (Hint v v0). }
    exists e. unfold union_entry, mbind, rt_bind. by rewrite He.
Qed.

(** [a | a], for [a = {x = [1]}]: the lists are united element by element. *)
Definition shared_example : store :=
  <[0%nat := dict_value (mkDict [("x", 1%nat)] [] [] [])]>
  (<[1%nat := list_value [2%nat]]> (<[2%nat := int_value 1]> ∅)).

Lemma bit_or_leaves_operands_witness :
  exists l s', bin_bit_or (fun _ => None) 3 0%nat 0%nat no_borrows shared_example = Ok (l, s') /\
    den s' (dom s') (mkValue (dict_value
      (mkDict [("x", v_list [v_int 1])] [("x", Union)] [("x", -1)] []))) l /\
    forall k, k ∈ dom shared_example -> s' !! k = shared_example !! k.
Proof.
  assert (Hden : den shared_example (dom shared_example) (v_dict [("x", v_list [v_int 1])]) 0%nat).
  { assert (Hin : forall k, (k <= 2)%nat -> k ∈ dom shared_example).
    { intros k Hk. destruct k as [|[|[|]]]; try lia; by apply elem_of_dom. }
    split; [apply Hin; lia|]. eexists. split; [done|]. split; [done|].
    split; [|done]. split; [done|]. split; [apply Hin; simpl; lia|]. eexists. split; [done|].
    split; [|done]. split; [apply Hin; simpl; lia|]. by eexists. }
  assert (Hk : distinct_keys (v_dict [("x", v_list [v_int 1])])).
  { split; [vm_compute; repeat constructor; set_solver|]. by split. }
  refine (bit_or_leaves_operands (fun _ => None) 3 shared_example (dom shared_example)
    (v_dict [("x", v_list [v_int 1])]) 0%nat (v_dict [("x", v_list [v_int 1])]) 0%nat _ Hden Hden Hk Hk _ _);
    [done|vm_compute; lia|vm_compute; lia].
Defined.
