(* ===== verification/UnionLaws.v ===== *)
(** * Laws of the union of trees

    What the union of references computes ([UnionRefine]), read on dicts, entry by entry, and
    that uniting a value with an equal one changes nothing. *)

From S2P Require Import Prelude MachineInt Floats Chars Utf8 Value ValueCmp ValueBin Heap ValueHeap ValueUnion UnionSpec TreeStore UnionRefine.

Lemma filter_snoc (k : string) (l ks : list string) :
  k ∉ ks -> filter (fun x => x ∉ l ++ [k]) ks = filter (fun x => x ∉ l) ks.
Proof.
  induction ks as [|x ks IH]; [done|]. intros Hk. rewrite !filter_cons, IH by set_solver.
  destruct (decide (x ∉ l ++ [k])), (decide (x ∉ l)); set_solver.
Qed.

Section Entries.
Context (opts : UnionOptions) (rec : value -> value -> option value) (delta : DictValue value).
Implicit Types (k : string) (v w : value) (es obj m : list (string * value)).

(** What key [k] holds after the entries [es] were united into [obj]. *)
Definition united (es obj : list (string * value)) (k : string) : option value :=
  match im_get k es, im_get k obj with
  | Some v, Some o => t_one opts rec delta k v o
  | Some v, None => Some v
  | None, o => o
  end.

Lemma t_entries_defined es obj :
  NoDup (map fst es) ->
  is_Some (t_entries opts rec delta es obj) <->
  (forall k v o, im_get k es = Some v -> im_get k obj = Some o -> is_Some (t_one opts rec delta k v o)).
Proof.
  revert obj. induction es as [|[k v] es IH]; intros obj Hnd; cbn [t_entries].
  { split; [done|]. intros _. by eexists. }
  apply NoDup_cons in Hnd as [Hk Hnd]. pose proof (proj2 (im_get_None _ _) Hk) as Hke. cbn [fst] in Hk, Hke.
  assert (Hgen : forall r, is_Some (t_entries opts rec delta es (im_insert k r obj)) <->
    forall k' v' o, im_get k' es = Some v' -> im_get k' obj = Some o -> is_Some (t_one opts rec delta k' v' o)).
  { intros r. rewrite IH by done. split; intros Hall k' v' o Hv Ho.
    - apply Hall; [done|]. rewrite im_get_insert_ne; [done|]. intros ->. congruence.
    - apply (Hall k' v' o); [done|]. rewrite im_get_insert_ne in Ho; [done|].
      intros ->. congruence. }
  assert (Hcons : forall k' v' , im_get k' ((k, v) :: es) = Some v' <-> (k' = k /\ v' = v) \/ im_get k' es = Some v').
  { intros k' v'. simpl. destruct (bool_decide_reflect (k' = k)) as [->|]; naive_solver. }
  destruct (im_get k obj) as [o|] eqn:Eo.
  - destruct (t_one opts rec delta k v o) as [r|] eqn:Er.
    + rewrite Hgen. split.
      * intros Hall k' v' o' [[-> ->]|Hv]%Hcons Ho'; [|by eapply Hall]. simplify_eq. by rewrite Er.
      * intros Hall k' v' o' Hv Ho'. eapply Hall; [|done]. apply Hcons. by right.
    + split; [by intros []|]. intros Hall. destruct (Hall k v o) as [r Hr]; [|done|congruence].
      apply Hcons. by left.
  - rewrite Hgen. split.
    + intros Hall k' v' o' [[-> ->]|Hv]%Hcons Ho'; [congruence|by eapply Hall].
    + intros Hall k' v' o' Hv Ho'. eapply Hall; [|done]. apply Hcons. by right.
Qed.

Lemma t_entries_get es obj m k :
  NoDup (map fst es) -> t_entries opts rec delta es obj = Some m -> im_get k m = united es obj k.
Proof.
  unfold united. revert obj. induction es as [|[k1 v] es IH]; intros obj Hnd Hm; cbn [t_entries] in Hm.
  { by injection Hm as ->. }
  apply NoDup_cons in Hnd as [Hk Hnd]. pose proof (proj2 (im_get_None _ _) Hk) as Hke. cbn [fst] in Hk, Hke.
  assert (Hgen : forall r, t_entries opts rec delta es (im_insert k1 r obj) = Some m ->
    im_get k m = if bool_decide (k = k1) then Some r else
      match im_get k es, im_get k obj with
      | Some v, Some o => t_one opts rec delta k v o | Some v, None => Some v | None, o => o end).
  { intros r Hr. rewrite (IH _ Hnd Hr). destruct (bool_decide_reflect (k = k1)) as [->|Hne].
    - by rewrite Hke, im_get_insert_eq.
    - by rewrite im_get_insert_ne. }
  simpl. destruct (im_get k1 obj) as [o|] eqn:Eo.
  - destruct (t_one opts rec delta k1 v o) as [r|] eqn:Er; [|done]. rewrite (Hgen r Hm).
    destruct (bool_decide_reflect (k = k1)) as [->|]; [by rewrite Eo, Er|done].
  - rewrite (Hgen v Hm). destruct (bool_decide_reflect (k = k1)) as [->|]; [by rewrite Eo|done].
Qed.

Lemma t_entries_keys es obj m :
  NoDup (map fst es) -> t_entries opts rec delta es obj = Some m ->
  map fst m = map fst obj ++ filter (fun k => k ∉ map fst obj) (map fst es).
Proof.
  revert obj. induction es as [|[k v] es IH]; intros obj Hnd Hm; cbn [t_entries] in Hm.
  { injection Hm as ->. by rewrite app_nil_r. }
  apply NoDup_cons in Hnd as [Hk Hnd]. simpl.
  destruct (im_get k obj) as [o|] eqn:Eo.
  - destruct (t_one opts rec delta k v o) as [r|]; [|done].
    assert (Hin : k ∈ map fst obj).
    { destruct (decide (k ∈ map fst obj)) as [|Hn]; [done|]. apply im_get_None in Hn. congruence. }
    rewrite (IH _ Hnd Hm), im_insert_keys. unfold im_contains. rewrite Eo.
    by rewrite filter_cons_False by naive_solver.
  - rewrite (IH _ Hnd Hm), im_insert_keys. unfold im_contains. rewrite Eo.
    apply im_get_None in Eo. rewrite filter_cons_True by done. rewrite <- app_assoc. simpl.
    do 2 f_equal. by apply filter_snoc.
Qed.
End Entries.

Lemma t_union_dicts opts d o :
  NoDup (map fst (values d)) ->
  (is_Some (t_union opts (mkValue (dict_value d)) (mkValue (dict_value o))) <->
   forall k v w, im_get k (values d) = Some v -> im_get k (values o) = Some w ->
     is_Some (t_one opts (t_union opts) d k v w)) /\
  forall t, t_union opts (mkValue (dict_value d)) (mkValue (dict_value o)) = Some t -> exists r,
    t = mkValue (dict_value r) /\
    map fst (values r) =
      map fst (values o) ++ filter (fun k => k ∉ map fst (values o)) (map fst (values d)) /\
    forall k, im_get k (values r) = united opts (t_union opts) d (values d) (values o) k.
Proof.
  intros Hnd. cbn [t_union is_none_or_undefined]. unfold t_dict. split.
  - rewrite <- (t_entries_defined opts (t_union opts) d _ _ Hnd).
    destruct (t_entries opts (t_union opts) d (values d) (values o)); simpl; split; intros [? ?]; try done; by eexists.
  - intros t Ht. destruct (t_entries opts (t_union opts) d (values d) (values o)) as [m|] eqn:Em; [|done].
    simpl in Ht. injection Ht as <-. eexists. split; [done|]. simpl. split; [by eapply t_entries_keys|].
    intros k. by apply t_entries_get.
Qed.

(** C27: The union of two dicts, entry by entry: for a left dict [o] that owns its cells and a
    right dict [d] of plain data elsewhere, [union_entry] returns exactly when every common key
    can be united ([t_one]: by the operation that [d] gives for the key); the dict it returns
    has the keys of [o] in their order, then the new ones of [d] in theirs, and every key holds
    the value of the one dict that has it, or the two united; and no cell outside of the left
    dict is changed. *)
Theorem dict_union_pointwise schema_fn n opts s F o self d x :
  own s (mkValue (dict_value o)) F self -> den s (dom s ∖ F) (mkValue (dict_value d)) x ->
  distinct_keys (mkValue (dict_value o)) -> distinct_keys (mkValue (dict_value d)) ->
  (depth (mkValue (dict_value o)) <= n)%nat -> (depth (mkValue (dict_value d)) <= n)%nat ->
  ((exists l s', union_entry schema_fn n self x false opts no_borrows s = Ok (l, s')) <->
   forall k v w, im_get k (values d) = Some v -> im_get k (values o) = Some w ->
     is_Some (t_one opts (t_union opts) d k v w)) /\
  forall l s', union_entry schema_fn n self x false opts no_borrows s = Ok (l, s') -> exists r,
    den s' (dom s') (mkValue (dict_value r)) l /\
    map fst (values r) =
      map fst (values o) ++ filter (fun k => k ∉ map fst (values o)) (map fst (values d)) /\
    (forall k, im_get k (values r) = united opts (t_union opts) d (values d) (values o) k) /\
    forall k, k ∈ dom s ∖ F -> s' !! k = s !! k.
Proof.
  intros Hown Hden Hko Hkd Hdo Hdd.
  pose proof (union_entry_spec schema_fn n opts s F _ self _ x Hown Hden Hko Hkd Hdo Hdd) as Hu.
  apply everywhere_dict in Hkd as [Hnd _]. destruct (t_union_dicts opts d o Hnd) as [Hdef Hval].
  destruct (t_union opts (mkValue (dict_value d)) (mkValue (dict_value o))) as [t|].
  - destruct Hu as (l & s' & Hu & Hd & Hfr). split.
    + split; [intros _; apply Hdef; by eexists|intros _; eauto].
    + intros l' s'' Hu'. rewrite Hu in Hu'. injection Hu' as <- <-.
      destruct (Hval t eq_refl) as (r & -> & Hkeys & Hget). by exists r.
  - destruct Hu as [e Hu]. split; [|intros l s'; by rewrite Hu].
    split; [intros (l & s' & Hu'); by rewrite Hu in Hu'|]. intros H. by apply Hdef in H as [].
Qed.

(** [{a = 1} | {a = 1, b = [2]}]. *)
Lemma dict_union_pointwise_witness :
  let o := mkDict [("a", v_int 1)] [] [] [] in
  let d := mkDict [("a", v_int 1); ("b", v_list [v_int 2])] [] [] [] in
  exists l s' r,
    union_entry (fun _ => None) 3 0%nat 2%nat false default_options no_borrows union_example = Ok (l, s') /\
    den s' (dom s') (mkValue (dict_value r)) l /\ map fst (values r) = ["a"; "b"] /\
    forall k, im_get k (values r) = united default_options (t_union default_options) d (values d) (values o) k.
Proof.
  intros o d.
  assert (Ho : distinct_keys (mkValue (dict_value o))) by (split; [vm_compute; repeat constructor; set_solver|done]).
  assert (Hd : distinct_keys (mkValue (dict_value d)))
    by (split; [vm_compute; repeat constructor; set_solver|by split]).
  assert (Hdo : (depth (mkValue (dict_value o)) <= 3)%nat) by (vm_compute; lia).
  assert (Hdd : (depth (mkValue (dict_value d)) <= 3)%nat) by (vm_compute; lia).
  destruct (dict_union_pointwise (fun _ => None) 3 default_options union_example {[0%nat; 1%nat]}
    o 0%nat d 2%nat union_example_own union_example_den Ho Hd Hdo Hdd) as [_ H].
  pose proof (union_entry_spec (fun _ => None) 3 default_options union_example {[0%nat; 1%nat]}
    _ 0%nat _ 2%nat union_example_own union_example_den Ho Hd Hdo Hdd) as (l & s' & Hu & _).
  destruct (H l s' Hu) as (r & Hr & Hkeys & Hget & _). by exists l, s', r.
Defined.

(** ** Idempotence *)

(** Data without schemas whose entries are all united, its maps with distinct keys. *)
Definition plain_level (v : Value value) : Prop :=
  match v with
  | dict_value d =>
      NoDup (map fst (values d)) /\ NoDup (map fst (ops d)) /\ NoDup (map fst (insert_indexs d)) /\
      Forall (fun kv => kv.2 = Union) (ops d)
  | schema_value _ => False
  | _ => True
  end.

Lemma insert_own_entries {V} (m : list (string * V)) :
  NoDup (map fst m) -> fold_left (fun m kv => im_insert kv.1 kv.2 m) m m = m.
Proof.
  intros Hnd. assert (H : forall l, (forall kv, kv ∈ l -> im_get kv.1 m = Some kv.2) ->
    fold_left (fun m kv => im_insert kv.1 kv.2 m) l m = m).
  { induction l as [|kv l IH]; intros Hl; simpl; [done|].
    assert (E : im_insert kv.1 kv.2 m = m).
    { specialize (Hl kv ltac:(set_solver)). clear -Hl. induction m as [|[k v] m IHm]; simpl in *; [done|].
      case_bool_decide; [by simplify_eq|]. by rewrite IHm. }
    rewrite E. apply IH. set_solver. }
  apply H. intros [k v] Hin. apply im_In_get; [done|]. by apply list_elem_of_In.
Qed.

Lemma t_entries_id opts delta (es obj : list (string * value)) :
  Forall (fun kv => im_get kv.1 obj = Some kv.2 /\ op_of delta kv.1 = Union /\
    value_subsume kv.2 kv.2 false = true /\ t_union opts kv.2 kv.2 = Some kv.2) es ->
  t_entries opts (t_union opts) delta es obj = Some obj.
Proof.
  induction 1 as [|[k v] es (Hg & Hop & Hs & Hu) _ IH]; [done|]. cbn [t_entries].
  simpl in *. rewrite Hg. unfold t_one. rewrite Hop, Hs, andb_false_r, Hu.
  assert (E : im_insert k v obj = obj).
  { clear -Hg. induction obj as [|[k' v'] m IHm]; simpl in *; [done|].
    case_bool_decide; [by simplify_eq|]. by rewrite IHm. }
  by rewrite E.
Qed.

Lemma plain_op_of d k : Forall (fun kv => kv.2 = Union) (@ops value d) -> op_of d k = Union.
Proof.
  intros Ho. unfold op_of. destruct (im_get k (ops d)) as [op|] eqn:E; [|done].
  apply im_get_In, list_elem_of_In in E. rewrite list.Forall_forall in Ho. by apply (Ho (k, op)).
Qed.

Lemma value_subsume_self x c : regular x -> value_subsume x x c = true.
Proof.
  intros Hx%cmp_equal_refl. destruct x as [v]. rewrite value_subsume_eq, Hx. by rewrite !orb_true_r.
Qed.

Lemma t_union_self opts x :
  everywhere plain_level x -> regular x -> t_union opts x x = Some x.
Proof.
  induction x as [v IH] using value_ind. intros Hp Hr.
  destruct v as [ | | | | | |l|d|s|f| ]; try done.
  - apply everywhere_list in Hp as [_ Hp]. apply everywhere_list in Hr as [_ Hr].
    cbn [t_union is_none_or_undefined]. destruct (list_override opts); [done|].
    assert (E : t_lists (t_union opts) l l = Some l); [|by rewrite E].
    simpl in IH. induction l as [|x l IHl]; [done|]. cbn [t_lists].
    apply list.Forall_cons in IH as [IHx IH], Hp as [Hpx Hp], Hr as [Hrx Hr].
    rewrite (IHx Hpx Hrx). by rewrite (IHl IH Hp Hr).
  - apply everywhere_dict in Hp as [(Hnd & Hno & Hni & Hop) Hp]. apply everywhere_dict in Hr as [_ Hr].
    cbn [t_union is_none_or_undefined]. unfold t_dict.
    rewrite t_entries_id; [rewrite !insert_own_entries by done; by destruct d|].
    simpl in IH. unfold all_dict in IH. rewrite list.Forall_forall in IH, Hp, Hr |- *.
    intros [k v] Hin. split_and!.
    + apply im_In_get; [done|]. by apply list_elem_of_In.
    + by apply plain_op_of.
    + simpl. specialize (Hr _ Hin). simpl in Hr. by rewrite value_subsume_self.
    + apply (IH (k, v) Hin); [apply (Hp (k, v) Hin)|apply (Hr (k, v) Hin)].
Qed.

Lemma plain_distinct x : everywhere plain_level x -> distinct_keys x.
Proof.
  induction x as [v IH] using value_ind. intros Hp. destruct v as [ | | | | | |l|d|s|f| ]; try done.
  - apply everywhere_list in Hp as [_ Hp]. apply everywhere_list. split; [done|]. simpl in IH.
    rewrite list.Forall_forall in *. intros y Hy. by apply (IH y Hy), Hp.
  - apply everywhere_dict in Hp as [(Hnd & _) Hp]. apply everywhere_dict. split; [done|]. simpl in IH.
    unfold all_dict in IH. rewrite list.Forall_forall in *. intros y Hy. by apply (IH y Hy), Hp.
  - by destruct Hp.
Qed.

(** C28: Uniting a value with an equal one changes nothing: for data without schemas whose
    entries all have the union operation (and no NaN, unit value or integer beyond 2^53 in it,
    on which the conflict check fails), when the left operand owns its cells and the right one
    is another copy of the same tree, [union_entry] finds no conflict, whatever the options,
    and returns a reference to that tree; the right copy is not changed. *)
Theorem union_idempotent schema_fn n opts s F t self x :
  everywhere plain_level t -> regular t -> (depth t <= n)%nat ->
  own s t F self -> den s (dom s ∖ F) t x ->
  exists l s', union_entry schema_fn n self x false opts no_borrows s = Ok (l, s') /\
    den s' (dom s') t l /\ forall k, k ∈ dom s ∖ F -> s' !! k = s !! k.
Proof.
  intros Hp Hr Hn Hown Hden. pose proof (plain_distinct t Hp) as Hk.
  pose proof (union_entry_spec schema_fn n opts s F t self t x Hown Hden Hk Hk Hn Hn) as Hu.
  by rewrite t_union_self in Hu.
Qed.

(** Two copies of [{a = [1]}]. *)
Definition copies_example : store :=
  <[0%nat := dict_value (mkDict [("a", 1%nat)] [] [] [])]>
  (<[1%nat := list_value [2%nat]]>
  (<[2%nat := int_value 1]>
  (<[3%nat := dict_value (mkDict [("a", 4%nat)] [] [] [])]>
  (<[4%nat := list_value [5%nat]]> (<[5%nat := int_value 1]> ∅))))).

Lemma union_idempotent_witness :
  let t := v_dict [("a", v_list [v_int 1])] in
  exists l s', union_entry (fun _ => None) 3 0%nat 3%nat false default_options no_borrows copies_example = Ok (l, s') /\
    den s' (dom s') t l /\
    forall k, k ∈ dom copies_example ∖ {[0%nat; 1%nat; 2%nat]} -> s' !! k = copies_example !! k.
Proof.
  intros t.
  refine (union_idempotent (fun _ => None) 3 default_options copies_example {[0%nat; 1%nat; 2%nat]} t 0%nat 3%nat
    _ _ _ _ _).
  - cbn. split_and!; try done; repeat constructor; set_solver.
  - cbn. split_and!; unfold wf_dict; simpl; try done; split_and!; try done;
      repeat first [apply (bool_decide_unpack (NoDup _)); vm_compute; exact I
                   |by apply utf8_check; vm_compute|constructor].
  - vm_compute. lia.
  - exists (dict_value (mkDict [("a", 1%nat)] [] [] [])), {[1%nat; 2%nat]}.
    split; [done|]. split; [set_solver|]. split; [set_solver|]. split; [done|].
    exists {[1%nat; 2%nat]}, ∅. split; [set_solver|]. split; [set_solver|]. split; [|done]. split; [done|].
    exists (list_value [2%nat]), {[2%nat]}. split; [done|]. split; [set_solver|]. split; [set_solver|].
    exists {[2%nat]}, ∅. split; [set_solver|]. split; [set_solver|]. split; [|done].
    exists (int_value 1), ∅. split; [done|]. split; [set_solver|]. split; [set_solver|done].
  - assert (Hin : forall k, (3 <= k <= 5)%nat -> k ∈ dom copies_example ∖ {[0%nat; 1%nat; 2%nat]}).
    { intros k Hk. apply elem_of_difference. split; [|rewrite !elem_of_union, !elem_of_singleton; lia].
      destruct k as [|[|[|[|[|[|]]]]]]; try lia; by apply elem_of_dom. }
    split; [apply Hin; simpl; lia|]. eexists. split; [done|]. split; [done|]. split; [|done]. split; [done|].
    split; [apply Hin; simpl; lia|]. eexists. split; [done|]. split; [|done].
    split; [apply Hin; simpl; lia|]. by eexists.
Defined.
