(* ===== verification/ValueAug.v ===== *)
(** * Augmented assignment

    Models [kclvm/runtime/src/value/val_bin_aug.rs]; its union operator is in [ValueUnion].
    The new content of the cell of [self] is computed from one level of both operands while
    [self] is borrowed for writing and [x] for reading. *)

From S2P Require Import Prelude MachineInt Floats Chars Utf8 Value ValueCmp ValueBin ValueList Heap ValueHeap ValueUnion TreeStore UnionRefine.

(** [f as u32] saturates; what an [i64] cannot hold is beyond [u32] too. *)
Definition f64_as_u32 (x : f64) : Z := Z.max 0 (Z.min u32_max (f64_as_i64 x)).

Section Aug.
Context {V : Type} (cfg : ContextConfig) (oc : bool) (powf : f64 -> f64 -> f64).
Implicit Types self x : Value V.

Definition aug_add self x : outcome (Value V) :=
  match self, x with
  | int_value a, int_value b =>
      _ ← panic_if (strict_range_check_32 cfg && is_i32_overflow_add a b) (panic_i32_overflow (a + b));
      _ ← panic_if (strict_range_check_64 cfg && is_i64_overflow_add a b) (panic_i64_overflow (a + b));
      z ← arith64 oc (a + b);
      Ok (int_value z)
  | float_value a, float_value b =>
      _ ← panic_if (strict_range_check_32 cfg && is_f32_overflow_add a b)
            (panic_f32_overflow (f64_add a b));
      Ok (float_value (f64_add a b))
  | int_value a, float_value b =>
      _ ← panic_if (is_f32_overflow_add (f64_of_Z a) b) (panic_f32_overflow (f64_add (f64_of_Z a) b));
      z ← arith64 oc (a + f64_as_i64 b);
      Ok (int_value z)
  | float_value a, int_value b =>
      _ ← panic_if (is_f32_overflow_add a (f64_of_Z b)) (panic_f32_overflow (f64_add a (f64_of_Z b)));
      Ok (float_value (f64_add a (f64_of_Z b)))
  | str_value a, str_value b => Ok (str_value (a +:+ b))
  | list_value a, list_value b => Ok (list_value (a ++ b))
  | _, _ => panic_unsupported_bin_op "+" (type_str self) (type_str x)
  end.

Definition aug_sub self x : outcome (Value V) :=
  match self, x with
  | int_value a, int_value b =>
      _ ← panic_if (strict_range_check_32 cfg && is_i32_overflow_sub a b) (panic_i32_overflow (a - b));
      _ ← panic_if (strict_range_check_64 cfg && is_i64_overflow_sub a b) (panic_i32_overflow (a - b));
      z ← arith64 oc (a - b);
      Ok (int_value z)
  | float_value a, float_value b =>
      _ ← panic_if (strict_range_check_32 cfg && is_f32_overflow_sub a b)
            (panic_f32_overflow (f64_sub a b));
      Ok (float_value (f64_sub a b))
  | int_value a, float_value b =>
      _ ← panic_if (strict_range_check_32 cfg && is_f32_overflow_sub (f64_of_Z a) b)
            (panic_f32_overflow (f64_sub (f64_of_Z a) b));
      z ← arith64 oc (a - f64_as_i64 b);
      Ok (int_value z)
  | float_value a, int_value b =>
      _ ← panic_if (strict_range_check_32 cfg && is_f32_overflow_sub a (f64_of_Z b))
            (panic_f32_overflow (f64_sub a (f64_of_Z b)));
      Ok (float_value (f64_sub a (f64_of_Z b)))
  | _, _ => panic_unsupported_bin_op "-" (type_str self) (type_str x)
  end.

(** A list is extended by [b - 1] copies of itself: nothing happens for [b <= 1]. *)
Definition aug_mul self x : outcome (Value V) :=
  match self, x with
  | int_value a, int_value b =>
      _ ← panic_if (strict_range_check_32 cfg && is_i32_overflow_mul a b) (panic_i32_overflow (a * b));
      _ ← panic_if (strict_range_check_64 cfg && is_i64_overflow_mul a b) (panic_i64_overflow (a * b));
      z ← arith64 oc (a * b);
      Ok (int_value z)
  | float_value a, float_value b =>
      _ ← panic_if (strict_range_check_32 cfg && is_f32_overflow_mul a b)
            (panic_f32_overflow (f64_mul a b));
      Ok (float_value (f64_mul a b))
  | int_value a, float_value b =>
      _ ← panic_if (strict_range_check_32 cfg && is_f32_overflow_mul (f64_of_Z a) b)
            (panic_f32_overflow (f64_mul (f64_of_Z a) b));
      z ← arith64 oc (a * f64_as_i64 b);
      Ok (int_value z)
  | float_value a, int_value b =>
      _ ← panic_if (strict_range_check_32 cfg && is_f32_overflow_mul a (f64_of_Z b))
            (panic_f32_overflow (f64_mul a (f64_of_Z b)));
      Ok (float_value (f64_mul a (f64_of_Z b)))
  | str_value a, int_value b => s ← str_repeat a (as_usize b); Ok (str_value s)
  | list_value a, int_value b =>
      l ← list_repeat a (Z.max 1 (as_usize b)); Ok (list_value l)
  | _, _ => panic_unsupported_bin_op "*" (type_str self) (type_str x)
  end.

Definition aug_div self x : outcome (Value V) :=
  match self, x with
  | int_value a, int_value b => z ← div64 a b; Ok (int_value z)
  | int_value a, float_value b => z ← div64 a (f64_as_i64 b); Ok (int_value z)
  | float_value a, int_value b => Ok (float_value (f64_div a (f64_of_Z b)))
  | float_value a, float_value b => Ok (float_value (f64_div a b))
  | _, _ => panic_unsupported_bin_op "/" (type_str self) (type_str x)
  end.

Definition aug_mod self x : outcome (Value V) :=
  match self, x with
  | int_value a, int_value b =>
      z ← (if xorb (a <? 0) (b <? 0) then r ← rem64 a b; Ok (negb (r =? 0)) else Ok false);
      if (z : bool) then r ← rem64 a b; s ← arith64 oc (r + b); Ok (int_value s)
      else r ← rem64 a b; Ok (int_value r)
  | int_value a, float_value b => z ← rem64 a (f64_as_i64 b); Ok (int_value z)
  | float_value a, int_value b => Ok (float_value (f64_rem a (f64_of_Z b)))
  | float_value a, float_value b => Ok (float_value (f64_rem a b))
  | _, _ => panic_unsupported_bin_op "%" (type_str self) (type_str x)
  end.

Definition aug_pow self x : outcome (Value V) :=
  match self, x with
  | int_value a, int_value b =>
      _ ← panic_if (strict_range_check_32 cfg && is_i32_overflow_pow a b)
            (v ← pow128 oc a (as_u32 b); panic_i32_overflow v);
      _ ← panic_if (strict_range_check_64 cfg && is_i64_overflow_pow a b)
            (v ← pow128 oc a (as_u32 b); panic_i64_overflow v);
      z ← pow64 oc a (as_u32 b);
      Ok (int_value z)
  | float_value a, float_value b =>
      _ ← panic_if (strict_range_check_32 cfg && is_f32_overflow_pow powf a b)
            (panic_f32_overflow (powf a b));
      Ok (float_value (powf a b))
  | int_value a, float_value b =>
      _ ← panic_if (strict_range_check_32 cfg && is_f32_overflow_pow powf (f64_of_Z a) b)
            (panic_f32_overflow (powf (f64_of_Z a) b));
      z ← pow64 oc a (f64_as_u32 b);
      Ok (int_value z)
  | float_value a, int_value b =>
      _ ← panic_if (strict_range_check_32 cfg && is_f32_overflow_pow powf a (f64_of_Z b))
            (panic_f32_overflow (powf a (f64_of_Z b)));
      Ok (float_value (powf a (f64_of_Z b)))
  | _, _ => panic_unsupported_bin_op "**" (type_str self) (type_str x)
  end.

Definition aug_floor_div self x : outcome (Value V) :=
  match self, x with
  | int_value a, int_value b =>
      z ← (if xorb (a <? 0) (b <? 0) then r ← rem64 a b; Ok (negb (r =? 0)) else Ok false);
      if (z : bool) then q ← div64 a b; s ← arith64 oc (q - 1); Ok (int_value s)
      else q ← div64 a b; Ok (int_value q)
  | int_value a, float_value b => Ok (int_value (f64_as_i64 (f64_div (f64_of_Z a) b)))
  | float_value a, int_value b => Ok (float_value (f64_div a (f64_of_Z b)))
  | float_value a, float_value b => Ok (float_value (f64_div a b))
  | _, _ => panic_unsupported_bin_op "//" (type_str self) (type_str x)
  end.

Definition aug_bit_lshift self x : outcome (Value V) :=
  match self, x with
  | int_value a, int_value b =>
      _ ← panic_if (strict_range_check_32 cfg && is_i32_overflow_shl a b)
            (v ← shl_w oc 128 a (as_u32 b); panic_i32_overflow v);
      _ ← panic_if (strict_range_check_64 cfg && is_i64_overflow_shl a b)
            (v ← shl_w oc 128 a (as_u32 b); panic_i64_overflow v);
      z ← shl_w oc 64 a (as_usize b);
      Ok (int_value z)
  | _, _ => panic_unsupported_bin_op "<<" (type_str self) (type_str x)
  end.

Definition aug_bit_rshift self x : outcome (Value V) :=
  match self, x with
  | int_value a, int_value b =>
      _ ← panic_if (strict_range_check_32 cfg && is_i32_overflow_shr a b)
            (v ← shr_w oc 128 a (as_u32 b); panic_i32_overflow v);
      _ ← panic_if (strict_range_check_64 cfg && is_i64_overflow_shr a b)
            (v ← shr_w oc 128 a (as_u32 b); panic_i64_overflow v);
      z ← shr_w oc 64 a (as_usize b);
      Ok (int_value z)
  | _, _ => panic_unsupported_bin_op ">>" (type_str self) (type_str x)
  end.

(** The message of [&=] names the operator [^]. *)
Definition aug_bit_and self x : outcome (Value V) :=
  match self, x with
  | int_value a, int_value b => Ok (int_value (Z.land a b))
  | _, _ => panic_unsupported_bin_op "^" (type_str self) (type_str x)
  end.

Definition aug_bit_xor self x : outcome (Value V) :=
  match self, x with
  | int_value a, int_value b => Ok (int_value (Z.lxor a b))
  | _, _ => panic_unsupported_bin_op "^" (type_str self) (type_str x)
  end.
End Aug.

(** ** On references *)

Definition aug (op : Value loc -> Value loc -> outcome (Value loc)) (self x : loc) : rt loc :=
  borrow_mut self (fun a => borrow x (fun b => v ← rt_lift (op a b); mret (self, v))).

Section Refs.
Context (cfg : ContextConfig) (oc : bool) (powf : f64 -> f64 -> f64).

Definition bin_aug_add : loc -> loc -> rt loc := aug (aug_add cfg oc).
Definition bin_aug_sub : loc -> loc -> rt loc := aug (aug_sub cfg oc).
Definition bin_aug_mul : loc -> loc -> rt loc := aug (aug_mul cfg oc).
Definition bin_aug_div : loc -> loc -> rt loc := aug aug_div.
Definition bin_aug_mod : loc -> loc -> rt loc := aug (aug_mod oc).
Definition bin_aug_pow : loc -> loc -> rt loc := aug (aug_pow cfg oc powf).
Definition bin_aug_floor_div : loc -> loc -> rt loc := aug (aug_floor_div oc).
Definition bin_aug_bit_lshift : loc -> loc -> rt loc := aug (aug_bit_lshift cfg oc).
Definition bin_aug_bit_rshift : loc -> loc -> rt loc := aug (aug_bit_rshift cfg oc).
Definition bin_aug_bit_and : loc -> loc -> rt loc := aug aug_bit_and.
Definition bin_aug_bit_xor : loc -> loc -> rt loc := aug aug_bit_xor.
End Refs.

(** ** Agreement with the binary operators *)

Inductive binop :=
| BAdd | BSub | BMul | BDiv | BMod | BPow | BFloorDiv | BLShift | BRShift | BAnd | BXor.

Section Agreement.
Context (cfg : ContextConfig) (oc : bool) (powf : f64 -> f64 -> f64).

Definition run_bin {V} (op : binop) : Value V -> Value V -> outcome (Value V) :=
  match op with
  | BAdd => bin_add cfg oc
  | BSub => bin_sub cfg oc
  | BMul => bin_mul cfg oc
  | BDiv => bin_div
  | BMod => bin_mod oc
  | BPow => bin_pow cfg oc powf
  | BFloorDiv => bin_floor_div oc
  | BLShift => bin_bit_lshift cfg oc
  | BRShift => bin_bit_rshift cfg oc
  | BAnd => bin_bit_and
  | BXor => bin_bit_xor
  end.

Definition run_aug (op : binop) : loc -> loc -> rt loc :=
  match op with
  | BAdd => bin_aug_add cfg oc
  | BSub => bin_aug_sub cfg oc
  | BMul => bin_aug_mul cfg oc
  | BDiv => bin_aug_div
  | BMod => bin_aug_mod oc
  | BPow => bin_aug_pow cfg oc powf
  | BFloorDiv => bin_aug_floor_div oc
  | BLShift => bin_aug_bit_lshift cfg oc
  | BRShift => bin_aug_bit_rshift cfg oc
  | BAnd => bin_aug_bit_and
  | BXor => bin_aug_bit_xor
  end.

Definition level_op {V} (op : binop) : Value V -> Value V -> outcome (Value V) :=
  match op with
  | BAdd => aug_add cfg oc
  | BSub => aug_sub cfg oc
  | BMul => aug_mul cfg oc
  | BDiv => aug_div
  | BMod => aug_mod oc
  | BPow => aug_pow cfg oc powf
  | BFloorDiv => aug_floor_div oc
  | BLShift => aug_bit_lshift cfg oc
  | BRShift => aug_bit_rshift cfg oc
  | BAnd => aug_bit_and
  | BXor => aug_bit_xor
  end.

(** Where the augmented form means the same: not where the type of the left operand would
    change ([int op float], [/] on integers, [int * str]), not for the floor of a float
    quotient, and not for a list repeated zero times. *)
Definition same_meaning {V} (op : binop) (a b : Value V) : bool :=
  match a, b with
  | int_value _, int_value _ => match op with BDiv => false | _ => true end
  | int_value _, float_value _ =>
      match op with BLShift | BRShift | BAnd | BXor => true | _ => false end
  | float_value _, int_value _ | float_value _, float_value _ =>
      match op with BFloorDiv => false | _ => true end
  | int_value _, str_value _ | int_value _, list_value _ =>
      match op with BMul => false | _ => true end
  | list_value _, int_value n => match op with BMul => negb (as_usize n =? 0) | _ => true end
  | _, _ => true
  end.

(** Equal up to the text of a panic. *)
Definition agree {A} (o1 o2 : outcome A) : Prop :=
  match o1, o2 with Ok x, Ok y => x = y | Panic _, Panic _ => True | _, _ => False end.

Lemma agree_refl {A} (o : outcome A) : agree o o.
Proof. by destruct o. Qed.

Lemma as_usize_shift n : in_i64 n = true ->
  ((0 <=? n) && (n <? 64)) = ((0 <=? as_usize n) && (as_usize n <? 64)) /\
  (((0 <=? n) && (n <? 64)) = true -> as_usize n = n) /\ as_usize n mod 64 = n mod 64.
Proof.
  unfold in_i64, as_usize, wrap_u, i64_min, i64_max. intros Hn.
  assert (H : 0 <= n /\ n mod 2 ^ 64 = n \/ n < 0 /\ n mod 2 ^ 64 = n + 2 ^ 64).
  { destruct (Z.lt_ge_cases n 0) as [Hlt|Hge].
    - right. split; [done|]. rewrite <- (Z.mod_add n 1 (2 ^ 64)) by done. apply Z.mod_small. lia.
    - left. split; [done|]. apply Z.mod_small. lia. }
  split_and!; [lia|lia|].
  change 64 with (2 ^ 6) at 2 3. rewrite <- Znumtheory.Zmod_div_mod; [done|lia|lia|].
  exists (2 ^ 58). reflexivity.
Qed.

Lemma shl_usize w a n : w = 64 -> in_i64 n = true -> shl_w oc w a (as_usize n) = shl_w oc w a n.
Proof.
  intros -> Hn. destruct (as_usize_shift n Hn) as (H1 & H2 & H3). unfold shl_w. rewrite <- H1, H3.
  destruct (_ && _); [by rewrite H2|done].
Qed.
Lemma shr_usize w a n : w = 64 -> in_i64 n = true -> shr_w oc w a (as_usize n) = shr_w oc w a n.
Proof.
  intros -> Hn. destruct (as_usize_shift n Hn) as (H1 & H2 & H3). unfold shr_w. rewrite <- H1, H3.
  destruct (_ && _); [by rewrite H2|done].
Qed.

Lemma levels_agree op (a b : Value loc) :
  wf_level b -> same_meaning op a b = true -> agree (level_op op a b) (run_bin op a b).
Proof.
  intros Hb Hsame.
  destruct op, a; try (destruct b; done); destruct b; try done; try apply agree_refl.
  - simpl in Hsame. rewrite negb_true_iff, Z.eqb_neq in Hsame. simpl.
    assert (0 <= as_usize v0) by (apply Z.mod_pos_bound; lia).
    rewrite Z.max_r by lia. apply agree_refl.
  - simpl. rewrite shl_usize by done. apply agree_refl.
  - simpl. rewrite shr_usize by done. apply agree_refl.
Qed.
End Agreement.

(** C29: Augmented assignment: where the two forms mean the same, [self op= x] on two
    different references writes to the cell of [self] what [self op x] would give, changes
    nothing else and returns [self], and panics when the operator does; on one reference
    ([x += x]) it always panics, because the cell is borrowed twice. *)
Theorem augmented_assignment cfg oc powf op self x s a b :
  s !! self = Some a -> s !! x = Some b -> wf_level b -> same_meaning op a b = true ->
  agree (run_aug cfg oc powf op self x no_borrows s)
    (if decide (self = x) then Panic "already mutably borrowed: BorrowError"
     else v ← run_bin cfg oc powf op a b; Ok (self, <[self := v]> s)).
Proof.
  intros Ha Hb Hwf Hsame.
  assert (Haug : run_aug cfg oc powf op self x = aug (level_op cfg oc powf op) self x) by (by destruct op).
  rewrite Haug. unfold aug. rewrite (borrow_mut_ok _ _ _ _ Ha) by (simpl; set_solver).
  destruct (decide (self = x)) as [->|Hne].
  - unfold borrow, read_cell, mem. simpl. by rewrite bool_decide_eq_true_2 by set_solver.
  - rewrite (borrow_ok _ _ _ _ Hb) by (simpl; set_solver). unfold mbind at 1, rt_bind at 1, rt_lift.
    pose proof (levels_agree cfg oc powf op a b Hwf Hsame) as Hag. unfold mbind, outcome_bind.
    destruct (level_op cfg oc powf op a b), (run_bin cfg oc powf op a b); simpl in Hag |- *; by subst.
Qed.

Lemma augmented_assignment_witness :
  let s : store := <[0%nat := list_value [1%nat]]> (<[1%nat := int_value 3]> ∅) in
  let cfg := mkConfig false false in
  agree (run_aug cfg true (fun x _ => x) BMul 0%nat 1%nat no_borrows s)
    (Ok (0%nat, <[0%nat := list_value [1%nat; 1%nat; 1%nat]]> s)) /\
  agree (run_aug cfg true (fun x _ => x) BAdd 1%nat 1%nat no_borrows s) (Panic "borrowed").
Proof.
  intros s cfg. split.
  - exact (augmented_assignment cfg true (fun x _ => x) BMul 0%nat 1%nat s (list_value [1%nat])
      (int_value 3) eq_refl eq_refl eq_refl eq_refl).
  - exact (augmented_assignment cfg true (fun x _ => x) BAdd 1%nat 1%nat s (int_value 3)
      (int_value 3) eq_refl eq_refl eq_refl eq_refl).
Defined.
