(* ===== verification/TypeString.v ===== *)
(** * Runtime type checks against type strings

    Models the type strings of [kclvm/runtime/src/value/val_type.rs]: splitting unions,
    keys and values and element types off a type string, and [check_type].  The regular
    expressions of string literals and number multipliers are run by the crate
    [fancy_regex], the class [Regexes]; [value.to_string()] and the [Debug] form of strings
    are those of [val_fmt.rs] and of the standard library. *)

From S2P Require Import Prelude MachineInt Floats Chars Utf8 Value.

(** [find(t)]: the text of the leftmost match. *)
Class Regexes := {
  find_double_quoted : text -> option text;
  find_single_quoted : text -> option text;
  is_number_multiplier : text -> bool;
}.

Definition KCL_TYPE_ANY : text := txt "any".
Definition BUILTIN_TYPE_INT : text := txt "int".
Definition BUILTIN_TYPE_FLOAT : text := txt "float".
Definition BUILTIN_TYPE_STR : text := txt "str".
Definition BUILTIN_TYPE_BOOL : text := txt "bool".
Definition BUILTIN_TYPES : list text :=
  [BUILTIN_TYPE_STR; BUILTIN_TYPE_BOOL; BUILTIN_TYPE_INT; BUILTIN_TYPE_FLOAT].
Definition KCL_NAME_CONSTANT_NONE : text := txt "None".
Definition KCL_NAME_CONSTANT_UNDEFINED : text := txt "Undefined".
Definition KCL_NAME_CONSTANT_TRUE : text := txt "True".
Definition KCL_NAME_CONSTANT_FALSE : text := txt "False".
Definition KCL_NAME_CONSTANTS : list text :=
  [KCL_NAME_CONSTANT_NONE; KCL_NAME_CONSTANT_UNDEFINED; KCL_NAME_CONSTANT_TRUE;
   KCL_NAME_CONSTANT_FALSE].
Definition NUMBER_MULTIPLIER_TYPE : text := txt "units.NumberMultiplier".

Definition teq (s t : text) : bool := bool_decide (s = t).
Definition tmem (s : text) (l : list text) : bool := bool_decide (s ∈ l).
Definition quote : char := 34.
Definition apostrophe : char := 39.

(** ** Taking type strings apart *)

(** [str_isdigit] of [val_str.rs]: [c as u16] drops the high bits of a code point. *)
Definition superscript_digits : list Z :=
  [8304; 185; 178; 179; 8308; 8309; 8310; 8311; 8312; 8313].
Definition is_digit (c : char) : bool :=
  is_digit10 c || bool_decide (c mod 65536 ∈ superscript_digits).
Definition str_isdigit (s : text) : bool :=
  match s with [] => false | _ => forallb is_digit s end.

(** [tpe.replacen('.', "", 1)]. *)
Fixpoint remove_first_dot (s : text) : text :=
  match s with
  | [] => []
  | c :: s' => if c =? ch "." then s' else c :: remove_first_dot s'
  end.
Definition count_dots (s : text) : nat := length (filter (fun c => c = ch ".") s).

Definition ends_with_char (c : char) (s : text) : bool :=
  match last s with Some d => d =? c | None => false end.
Definition starts_with_char (c : char) (s : text) : bool :=
  match s with d :: _ => d =? c | [] => false end.

Definition is_literal_type (tpe : text) : bool :=
  if tmem tpe KCL_NAME_CONSTANTS then true
  else if starts_with_char quote tpe then ends_with_char quote tpe
  else if starts_with_char apostrophe tpe then ends_with_char apostrophe tpe
  else if str_isdigit tpe then true
  else str_isdigit (remove_first_dot tpe) && (count_dots tpe <? 2)%nat.

Definition is_dict_type (tpe : text) : bool :=
  (2 <=? length tpe)%nat && starts_with_char (ch "{") tpe && ends_with_char (ch "}") tpe.
Definition is_list_type (tpe : text) : bool :=
  (2 <=? length tpe)%nat && starts_with_char (ch "[") tpe && ends_with_char (ch "]") tpe.
Definition is_builtin_type (tpe : text) : bool := tmem tpe BUILTIN_TYPES.
Definition is_schema_type (expected_type : text) : bool :=
  match expected_type with
  | [] => true
  | _ => negb (is_list_type expected_type) && negb (is_dict_type expected_type) &&
         negb (is_builtin_type expected_type) && negb (is_literal_type expected_type)
  end.

Definition is_open (c : char) : bool := (c =? ch "[") || (c =? ch "{").
Definition is_close (c : char) : bool := (c =? ch "]") || (c =? ch "}").

Section Split.
Context `{Regexes}.

(** The characters a string literal at the head of [t] lets the scan skip. *)
Definition literal_skip (t : text) : nat :=
  match t with
  | c :: _ =>
      let m := if c =? quote then find_double_quoted t
               else if c =? apostrophe then find_single_quoted t else None in
      match m with Some v => (length v - 1)%nat | None => O end
  | [] => O
  end.

(** The scan of [is_type_union] and [split_type_union]; [stack] holds the open brackets,
    [skip] characters are passed over. *)
Fixpoint union_scan (t : text) (skip : nat) (stack : list char) : bool :=
  match t with
  | [] => false
  | c :: t' =>
      match skip with
      | S skip' => union_scan t' skip' stack
      | O =>
          if (c =? ch "|") && bool_decide (stack = []) then true
          else if is_open c then union_scan t' O (c :: stack)
          else if is_close c then union_scan t' O (tail stack)
          else union_scan t' (literal_skip t) stack
      end
  end.
Definition is_type_union (tpe : text) : bool := union_scan tpe O [].

(** [part] is the text since the last separator. *)
Fixpoint split_scan (t : text) (skip : nat) (stack : list char) (part : text) : list text :=
  match t with
  | [] => [part]
  | c :: t' =>
      match skip with
      | S skip' => split_scan t' skip' stack (part ++ [c])
      | O =>
          if (c =? ch "|") && bool_decide (stack = []) then part :: split_scan t' O stack []
          else if is_open c then split_scan t' O (c :: stack) (part ++ [c])
          else if is_close c then split_scan t' O (tail stack) (part ++ [c])
          else split_scan t' (literal_skip t) stack (part ++ [c])
      end
  end.
Definition split_type_union (tpe : text) : list text := split_scan tpe O [] [].
End Split.

(** The position of the colon is counted in characters and used as a byte offset. *)
Fixpoint kv_scan (t : text) (n : Z) (stack : list char) (whole : text) : outcome (text * text) :=
  match t with
  | [] => Ok ([], [])
  | c :: t' =>
      if is_open c then kv_scan t' (n + 1) (c :: stack) whole
      else if is_close c then
        match stack with
        | top :: stack' =>
            if top =? (if c =? ch "]" then ch "[" else ch "{") then kv_scan t' (n + 1) stack' whole
            else Panic "invalid type string"
        | [] => Panic "attempt to subtract with overflow"
        end
      else if c =? ch ":" then
        match stack with
        | [] => k ← take_bytes n whole; v ← drop_bytes (n + 1) whole; Ok (k, v)
        | _ => Panic "invalid type string"
        end
      else kv_scan t' (n + 1) stack whole
  end.
Definition separate_kv (expected_type : text) : outcome (text * text) :=
  kv_scan expected_type 0 [] expected_type.

(** [&tpe[0..1]] and [&tpe[len - 1..]] are byte slices. *)
Definition dereference_type (tpe : text) : outcome text :=
  let len := str_len tpe in
  let bracketed (o c : char) : outcome bool :=
    h ← slice 0 1 tpe;
    if teq h [o] then l ← drop_bytes (len - 1) tpe; Ok (teq l [c]) else Ok false in
  if len <=? 1 then Ok tpe
  else
    b ← bracketed (ch "[") (ch "]");
    b ← (if (b : bool) then Ok true else bracketed (ch "{") (ch "}"));
    if (b : bool) then slice 1 (len - 1) tpe else Ok tpe.

(** [Display] of the numbers ([val_fmt.rs]). *)
Definition number_to_string {V} (v : Value V) : string :=
  match v with
  | int_value z => pretty z
  | float_value x =>
      let float_str := f64_display x in
      if negb (str_contains float_str ".") then float_str +:+ ".0" else float_str
  | _ => ""
  end.

(** ** Checks *)

Section Check.
Context `{Regexes, DebugTables}.

Definition check_type_literal {V} (v : Value V) (tpe : text) : bool :=
  if negb (is_literal_type tpe) then false
  else if is_none v then teq tpe KCL_NAME_CONSTANT_NONE
  else if is_undefined v then teq tpe KCL_NAME_CONSTANT_UNDEFINED
  else if is_bool v then
    teq tpe (if as_bool v then KCL_NAME_CONSTANT_TRUE else KCL_NAME_CONSTANT_FALSE)
  else if is_int v || is_float v then teq (chars (number_to_string v)) tpe
  else if is_str v then teq (debug_str (chars (as_str v))) tpe
  else false.

Definition check_number_multiplier_type {V} (v : Value V) (tpe : text) : bool :=
  match v with
  | unit_value _ raw suffix =>
      if is_number_multiplier tpe then teq (chars (pretty raw +:+ suffix)) tpe
      else teq tpe NUMBER_MULTIPLIER_TYPE
  | _ => false
  end.

Definition match_builtin_type {V} (v : Value V) (tpe : text) : bool :=
  teq (chars (type_str v)) tpe ||
  (teq (chars (type_str v)) BUILTIN_TYPE_INT && teq tpe BUILTIN_TYPE_FLOAT).

Section Rec.
Context (check : value -> text -> outcome bool).

Definition check_type_union (x : value) (tpe : text) : outcome bool :=
  let expected_types := split_type_union tpe in
  if (length expected_types <=? 1)%nat then Ok false else any_m (check x) expected_types.

Definition check_type_dict (x : value) (tpe : text) : outcome bool :=
  if teq tpe [] then Ok true
  else match get x with
  | dict_value d =>
      if negb (is_dict_type tpe) then Ok false
      else
        expected_type ← dereference_type tpe;
        '(_, expected_value_type) ← separate_kv expected_type;
        all_m (fun kv => check kv.2 expected_value_type) (values d)
  | _ => Ok false
  end.

Definition check_type_list (x : value) (tpe : text) : outcome bool :=
  if teq tpe [] then Ok true
  else match get x with
  | list_value l =>
      if negb (is_list_type tpe) then Ok false
      else
        expected_type ← dereference_type tpe;
        all_m (fun y => check y expected_type) l
  | _ => Ok false
  end.
End Rec.

(** Every call gets a shorter type string; [fuel] bounds its length. *)
Fixpoint check_type (fuel : nat) (x : value) (tpe : text) : outcome bool :=
  match fuel with
  | O => Panic "stack overflow"
  | S fuel' =>
      let v := get x in
      if teq tpe [] || teq tpe KCL_TYPE_ANY then Ok true
      else if is_none_or_undefined v then Ok true
      else if is_type_union tpe then check_type_union (check_type fuel') x tpe
      else if check_type_literal v tpe then Ok true
      else if check_number_multiplier_type v tpe then Ok true
      else if is_dict v then check_type_dict (check_type fuel') x tpe
      else if is_list v then check_type_list (check_type fuel') x tpe
      else if match_builtin_type v tpe then Ok true
      else if is_schema v then Ok (is_schema_type tpe)
      else Ok false
  end.
End Check.

(** ** Termination *)

Section Termination.
Context `{Regexes, DebugTables}.

Lemma teq_true s t : teq s t = true <-> s = t.
Proof. unfold teq. by rewrite bool_decide_eq_true. Qed.

Lemma union_scan_split t : forall skip stack part,
  union_scan t skip stack = (1 <? length (split_scan t skip stack part))%nat.
Proof.
  induction t as [|c t IH]; intros skip stack part; [done|]. cbn [union_scan split_scan].
  destruct skip as [|skip]; [|by apply IH].
  destruct ((c =? ch "|") && _).
  - cbn [length]. destruct (split_scan t 0 stack []) eqn:E; [|done].
    exfalso. revert E. clear. generalize (@nil char) at 1 as part. generalize O at 1 as skip. revert stack.
    induction t as [|c t IH]; intros stack skip part; [done|]. cbn [split_scan].
    destruct skip; [|apply IH]. by repeat case_match; try apply IH.
  - by repeat case_match.
Qed.

(** The parts and their separators make up the text. *)
Lemma split_scan_length t : forall skip stack part,
  (foldr (fun p n => S (length p + n)) 0 (split_scan t skip stack part) = S (length part + length t))%nat.
Proof.
  induction t as [|c t IH]; intros skip stack part; [simpl; lia|]. cbn [split_scan].
  destruct skip; [|rewrite IH, length_app; simpl; lia].
  repeat case_match; cbn [foldr]; rewrite IH, ?length_app; simpl; lia.
Qed.

Lemma split_shorter tpe p :
  (1 < length (split_type_union tpe))%nat -> p ∈ split_type_union tpe -> (length p < length tpe)%nat.
Proof.
  unfold split_type_union. pose proof (split_scan_length tpe 0 [] []) as Hl. revert Hl.
  generalize (split_scan tpe 0 [] []) as ps. intros ps Hl Hn Hin.
  destruct ps as [|p1 [|p2 ps]]; simpl in *; try lia.
  assert (Hle : forall ps, p ∈ ps -> (length p < foldr (fun p n => S (length p + n)) 0 ps)%nat).
  { clear. induction ps as [|q ps IH]; [set_solver|]. intros [->|Hin]%elem_of_cons; simpl; [lia|].
    specialize (IH Hin). lia. }
  apply elem_of_cons in Hin as [->|[->|Hin]%elem_of_cons]; [lia|lia|]. specialize (Hle _ Hin). lia.
Qed.

Lemma take_bytes_length n t u : take_bytes n t = Ok u -> (length u <= length t)%nat.
Proof.
  revert n u. induction t as [|c t IH]; intros n u; cbn [take_bytes]; destruct (n =? 0); try done;
    try (intros [= <-]; simpl; lia).
  destruct (n <? len_utf8 c); [done|]. intros Hb. inv_bind Hb. injection Hb as <-.
  apply IH in Hb0. simpl. lia.
Qed.
Lemma drop_bytes_length n t u : drop_bytes n t = Ok u -> (length u <= length t)%nat.
Proof.
  revert n u. induction t as [|c t IH]; intros n u; cbn [drop_bytes]; destruct (n =? 0); try done;
    try (intros [= <-]; simpl; lia).
  destruct (n <? len_utf8 c); [done|]. intros Hb%IH. simpl. lia.
Qed.

Lemma separate_kv_length t k v : separate_kv t = Ok (k, v) -> (length v <= length t)%nat.
Proof.
  unfold separate_kv. generalize 0 as n, (@nil char) as stack. generalize t at 2 3 as whole.
  induction t as [|c t IH]; intros whole n stack; cbn [kv_scan].
  { intros [= <- <-]. simpl. lia. }
  destruct (is_open c); [apply IH|]. destruct (is_close c).
  { destruct stack as [|top stack]; [done|]. destruct (top =? _); [apply IH|done]. }
  destruct (c =? ch ":"); [|apply IH]. destruct stack; [|done].
  intros Hb. inv_bind Hb. inv_bind Hb. injection Hb as <- <-. by eapply drop_bytes_length.
Qed.

(** A text between brackets. *)
Lemma bracketed_inv o c t :
  o <> c -> (2 <=? length t)%nat && starts_with_char o t && ends_with_char c t = true ->
  exists mid, t = o :: mid ++ [c].
Proof.
  intros Hne [[H2 Hs]%andb_true_iff He]%andb_true_iff. destruct t as [|a t]; [done|].
  simpl in Hs. apply Z.eqb_eq in Hs as ->. destruct t as [|b t] using rev_ind; [done|].
  exists t. f_equal. unfold ends_with_char in He.
  replace (last (o :: t ++ [b])) with (Some b) in He by (by rewrite app_comm_cons, last_snoc).
  by apply Z.eqb_eq in He as ->.
Qed.

Lemma dereference_bracketed o c mid :
  (o = ch "[" /\ c = ch "]") \/ (o = ch "{" /\ c = ch "}") ->
  dereference_type (o :: mid ++ [c]) = Ok mid.
Proof.
  intros Hoc. unfold dereference_type. pose proof (str_len_nonneg mid).
  assert (Ho : len_utf8 o = 1 /\ len_utf8 c = 1) by (by destruct Hoc as [[-> ->]|[-> ->]]).
  destruct Ho as [Ho Hc].
  assert (Hlen : str_len (o :: mid ++ [c]) = str_len mid + 2).
  { rewrite str_len_cons, str_len_app. simpl. lia. }
  rewrite Hlen, (proj2 (Z.leb_gt _ _)) by lia.
  assert (Hh : slice 0 1 (o :: mid ++ [c]) = Ok [o]).
  { change (o :: mid ++ [c]) with ([] ++ [o] ++ (mid ++ [c])). apply slice_app; simpl; lia. }
  assert (Hl : drop_bytes (str_len mid + 2 - 1) (o :: mid ++ [c]) = Ok [c]).
  { replace (str_len mid + 2 - 1) with (str_len (o :: mid)) by (rewrite str_len_cons; lia).
    apply (drop_bytes_app (o :: mid)). }
  assert (Hm : slice 1 (str_len mid + 2 - 1) (o :: mid ++ [c]) = Ok mid).
  { change (o :: mid ++ [c]) with ([o] ++ mid ++ [c]). apply slice_app; simpl; lia. }
  rewrite Hh, Hl, Hm. by destruct Hoc as [[-> ->]|[-> ->]].
Qed.

Lemma list_type_inv tpe : is_list_type tpe = true -> exists mid, tpe = ch "[" :: mid ++ [ch "]"].
Proof. by apply bracketed_inv. Qed.
Lemma dict_type_inv tpe : is_dict_type tpe = true -> exists mid, tpe = ch "{" :: mid ++ [ch "}"].
Proof. by apply bracketed_inv. Qed.

Lemma all_m_ext {A} (f g : A -> outcome bool) l :
  (forall x, f x = g x) -> all_m f l = all_m g l.
Proof. intros Hfg. induction l as [|x l IH]; simpl; [done|]. by rewrite Hfg, IH. Qed.

Lemma any_m_ext {A} (f g : A -> outcome bool) l :
  (forall x, x ∈ l -> f x = g x) -> any_m f l = any_m g l.
Proof.
  induction l as [|x l IH]; intros Hfg; simpl; [done|].
  rewrite Hfg by set_solver. rewrite IH by set_solver. done.
Qed.

Lemma all_m_not {A} (f : A -> outcome bool) l e :
  (forall x, f x <> Panic e) -> all_m f l <> Panic e.
Proof.
  intros Hf. induction l as [|x l IH]; simpl; [done|]. specialize (Hf x).
  by destruct (f x) as [[]|].
Qed.
Lemma any_m_not {A} (f : A -> outcome bool) l e :
  (forall x, x ∈ l -> f x <> Panic e) -> any_m f l <> Panic e.
Proof.
  induction l as [|x l IH]; intros Hf; simpl; [done|]. specialize (IH ltac:(set_solver)).
  specialize (Hf x ltac:(set_solver)). by destruct (f x) as [[]|].
Qed.

Definition overflow : string := "stack overflow".

(** The recursive calls only depend on shorter type strings. *)
Lemma union_ext f g x tpe :
  is_type_union tpe = true ->
  (forall p, (length p < length tpe)%nat -> f x p = g x p) ->
  check_type_union f x tpe = check_type_union g x tpe.
Proof.
  unfold check_type_union, is_type_union. rewrite (union_scan_split _ _ _ []). intros Hu%Nat.ltb_lt Hfg.
  destruct (_ <=? 1)%nat; [done|]. apply any_m_ext. intros p Hp. apply Hfg. by apply split_shorter.
Qed.

Lemma dict_ext f g x tpe :
  (forall y p, (length p < length tpe)%nat -> f y p = g y p) ->
  check_type_dict f x tpe = check_type_dict g x tpe.
Proof.
  intros Hfg. unfold check_type_dict. destruct (teq tpe []); [done|]. destruct (get x); try done.
  destruct (negb (is_dict_type tpe)) eqn:E; [done|]. apply negb_false_iff, dict_type_inv in E as [mid ->].
  rewrite dereference_bracketed by auto. cbn [mbind outcome_bind].
  destruct (separate_kv mid) as [[k t]|] eqn:Es; [|done]. cbn [mbind outcome_bind].
  apply all_m_ext. intros kv. apply Hfg. apply separate_kv_length in Es. simpl. rewrite length_app. simpl. lia.
Qed.

Lemma list_ext f g x tpe :
  (forall y p, (length p < length tpe)%nat -> f y p = g y p) ->
  check_type_list f x tpe = check_type_list g x tpe.
Proof.
  intros Hfg. unfold check_type_list. destruct (teq tpe []); [done|]. destruct (get x); try done.
  destruct (negb (is_list_type tpe)) eqn:E; [done|]. apply negb_false_iff, list_type_inv in E as [mid ->].
  rewrite dereference_bracketed by auto. cbn [mbind outcome_bind].
  apply all_m_ext. intros y. apply Hfg. simpl. rewrite length_app. simpl. lia.
Qed.

Lemma check_type_fuel n m x tpe :
  (length tpe < n)%nat -> (length tpe < m)%nat -> check_type n x tpe = check_type m x tpe.
Proof.
  revert m x tpe. induction n as [|n IH]; intros [|m] x tpe Hn Hm; try lia. cbn [check_type].
  destruct (_ || _); [done|]. destruct (is_none_or_undefined _); [done|].
  destruct (is_type_union tpe) eqn:Eu; [apply union_ext; [done|]; intros p Hp; apply IH; lia|].
  destruct (check_type_literal _ _); [done|]. destruct (check_number_multiplier_type _ _); [done|].
  destruct (is_dict _); [apply dict_ext; intros y p Hp; apply IH; lia|].
  destruct (is_list _); [apply list_ext; intros y p Hp; apply IH; lia|]. done.
Qed.
End Termination.

Section Overflow.
Context `{Regexes, DebugTables}.

Lemma take_bytes_overflow n t : take_bytes n t <> Panic overflow.
Proof.
  revert n. induction t as [|c t IH]; intros n; cbn [take_bytes]; destruct (n =? 0); try done.
  destruct (n <? len_utf8 c); [done|]. specialize (IH (n - len_utf8 c)).
  by destruct (take_bytes (n - len_utf8 c) t).
Qed.
Lemma drop_bytes_overflow n t : drop_bytes n t <> Panic overflow.
Proof.
  revert n. induction t as [|c t IH]; intros n; cbn [drop_bytes]; destruct (n =? 0); try done.
  by destruct (n <? len_utf8 c).
Qed.
Lemma separate_kv_overflow t : separate_kv t <> Panic overflow.
Proof.
  unfold separate_kv. generalize 0 as n, (@nil char) as stack. generalize t at 2 as whole.
  induction t as [|c t IH]; intros whole n stack; cbn [kv_scan]; [done|].
  destruct (is_open c); [apply IH|]. destruct (is_close c).
  { destruct stack as [|top stack]; [done|]. destruct (top =? _); [apply IH|done]. }
  destruct (c =? ch ":"); [|apply IH]. destruct stack; [|done].
  intros Hb. destruct (take_bytes n whole) as [u|e] eqn:E1; cbn [mbind outcome_bind] in Hb.
  - destruct (drop_bytes (n + 1) whole) as [w|e] eqn:E2; cbn [mbind outcome_bind] in Hb; [done|].
    apply (drop_bytes_overflow (n + 1) whole). congruence.
  - apply (take_bytes_overflow n whole). congruence.
Qed.

Lemma check_type_overflow n x tpe : (length tpe < n)%nat -> check_type n x tpe <> Panic overflow.
Proof.
  revert x tpe. induction n as [|n IH]; intros x tpe Hn; [lia|]. cbn [check_type].
  destruct (_ || _); [done|]. destruct (is_none_or_undefined _); [done|].
  destruct (is_type_union tpe) eqn:Eu.
  { unfold check_type_union. destruct (_ <=? 1)%nat eqn:E1; [done|]. apply any_m_not.
    intros p Hp. apply IH. apply split_shorter in Hp; [lia|]. apply Nat.leb_gt in E1. lia. }
  destruct (check_type_literal _ _); [done|]. destruct (check_number_multiplier_type _ _); [done|].
  destruct (is_dict _).
  { unfold check_type_dict. destruct (teq tpe []); [done|]. destruct (get x); try done.
    destruct (negb (is_dict_type tpe)) eqn:E; [done|]. apply negb_false_iff, dict_type_inv in E as [mid ->].
    rewrite dereference_bracketed by auto. cbn [mbind outcome_bind].
    destruct (separate_kv mid) as [[k t]|e] eqn:Es; cbn [mbind outcome_bind].
    2: { intros Hb. apply (separate_kv_overflow mid). congruence. }
    apply all_m_not. intros kv. apply IH. apply separate_kv_length in Es.
    simpl in Hn. rewrite length_app in Hn. simpl in Hn. lia. }
  destruct (is_list _).
  { unfold check_type_list. destruct (teq tpe []); [done|]. destruct (get x); try done.
    destruct (negb (is_list_type tpe)) eqn:E; [done|]. apply negb_false_iff, list_type_inv in E as [mid ->].
    rewrite dereference_bracketed by auto. cbn [mbind outcome_bind].
    apply all_m_not. intros y. apply IH. simpl in Hn. rewrite length_app in Hn. simpl in Hn. lia. }
  destruct (match_builtin_type _ _); [done|]. by destruct (is_schema _).
Qed.
End Overflow.

(** C20: Checking a value against a type string terminates, whatever the string: every
    recursive call gets a shorter one (a part of a union, the inside of brackets), so that
    recursion as deep as the string is long is enough, the answer does not depend on how
    much more is allowed, and the stack is never exhausted. *)
Theorem check_type_terminates `{Regexes, DebugTables} x tpe fuel :
  (length tpe < fuel)%nat ->
  check_type fuel x tpe = check_type (S (length tpe)) x tpe /\
  check_type fuel x tpe <> Panic overflow.
Proof. intros Hf. split; [apply check_type_fuel; lia|by apply check_type_overflow]. Qed.

#[export] Instance no_regexes : Regexes := {|
  find_double_quoted := fun _ => None;
  find_single_quoted := fun _ => None;
  is_number_multiplier := fun _ => false;
|}.

Lemma check_type_terminates_witness :
  let x := v_list [v_int 1; v_dict [("k", v_str "a")]] in
  let tpe := txt "bool|[int|{str:str}]" in
  check_type 100 x tpe = check_type (S (length tpe)) x tpe /\ check_type 100 x tpe <> Panic overflow.
Proof. intros x tpe. apply (check_type_terminates x tpe 100). vm_compute. lia. Defined.

Example check_type_ex :
  check_type 100 (v_list [v_int 1; v_dict [("k", v_str "a")]]) (txt "bool|[int|{str:str}]") = Ok true /\
  check_type 100 (v_int 0) (txt "str") = Ok false /\
  check_type 100 (v_str "123") (quote :: txt "123" ++ [quote]) = Ok true.
Proof. vm_compute. done. Qed.
