(* ===== verification/TypeAnnotation.v ===== *)
(** * Types printed by the compiler, checked at run time

    The resolver prints a type with [into_type_annotation_str] ([TypeData]); the compiled
    program hands the text to [check_type] ([TypeString]).  For the types below the check
    of the text is the check of the type. *)

From S2P Require Import Prelude MachineInt Floats Chars Utf8 Value TypeString.
From S2P Require TypeData.
Import TypeData(ty, mkType, KNone, KAny, KBool, KBoolLit, KInt, KIntLit, KFloat, KFloatLit, KStr,
  KStrLit, KList, KDict, KUnion, KSchema, KNumberMultiplier, KFunction, KVoid, KModule, KNamed,
  is_literal_nm, escape_quotes, ty_str_with_pkgpath, into_type_annotation_str).

(** ** What a type admits *)

(** A schema instance is admitted by the name of any schema, and by the number multipliers,
    whose type is a name too: the compiler has checked it. *)
Fixpoint has_type (t : ty) (x : value) {struct t} : bool :=
  let 'mkType k _ _ := t in
  is_none_or_undefined (get x) ||
  match k with
  | KAny => true
  | KBool => is_bool (get x)
  | KInt => is_int (get x)
  | KFloat => is_float (get x) || is_int (get x)
  | KStr => is_str (get x)
  | KBoolLit b => match get x with bool_value b' => Bool.eqb b b' | _ => false end
  | KIntLit n => match get x with int_value z => z =? n | _ => false end
  | KFloatLit f => match get x with float_value g => f64_eqb g f | _ => false end
  | KStrLit s => match get x with str_value s' => bool_decide (s' = s) | _ => false end
  | KList item => match get x with list_value l => forallb (has_type item) l | _ => false end
  | KDict _ val =>
      match get x with
      | dict_value d => forallb (fun kv => has_type val kv.2) (values d)
      | _ => false
      end
  | KUnion types => existsb (fun t => has_type t x) types
  | KSchema _ => is_schema (get x)
  | KNumberMultiplier _ => is_unit (get x) || is_schema (get x)
  | _ => false
  end.

(** ** The types and values considered *)

Definition special (c : char) : bool :=
  bool_decide (c ∈ [ch "|"; ch "["; ch "]"; ch "{"; ch "}"; ch "("; quote; apostrophe; ch ","]).
Definition reserved : list text :=
  map txt ["any"; "int"; "float"; "str"; "bool"; "None"; "Undefined"; "True"; "False";
           "UndefinedType"; "NoneType"; "list"; "dict"; "function"; "units.NumberMultiplier"].

(** The name of a schema, with its package. *)
Definition name_ok (t : text) : bool :=
  match t with
  | c :: _ => negb (is_digit c) && negb (c =? ch ".") && negb (c =? ch "-")
  | [] => false
  end && forallb (fun c => negb (special c)) t && negb (tmem t reserved).

Definition literal_char (c : char) : bool :=
  in_range 32 c 126 && negb (c =? quote) && negb (c =? ch "\").
Definition literal_ok (s : string) : bool :=
  bool_decide (encode (chars s) = s) && forallb is_scalar (chars s) &&
  negb (bool_decide (s = "")) && forallb literal_char (chars s).

(** The text of a key type is ASCII and free of brackets and colons. *)
Definition key_ok (t : text) : bool :=
  forallb (fun c => is_ascii c && negb (is_open c) && negb (is_close c) && negb (c =? ch ":")) t.

Fixpoint join_bars (l : list text) : text :=
  match l with
  | [] => []
  | [t] => t
  | t :: l' => t ++ ch "|" :: join_bars l'
  end.

(** The printed type, as characters. *)
Fixpoint render (t : ty) : text :=
  let 'mkType k _ _ := t in
  match k with
  | KNone => txt "None"
  | KAny => txt "any"
  | KBool => txt "bool"
  | KInt => txt "int"
  | KFloat => txt "float"
  | KStr => txt "str"
  | KBoolLit b => txt (if b then "True" else "False")
  | KIntLit n => chars (pretty n)
  | KStrLit s => quote :: chars s ++ [quote]
  | KList item => ch "[" :: render item ++ [ch "]"]
  | KDict key val => ch "{" :: (render key ++ ch ":" :: render val) ++ [ch "}"]
  | KUnion types => join_bars (map render types)
  | KSchema s => chars (ty_str_with_pkgpath s)
  | KNumberMultiplier _ => NUMBER_MULTIPLIER_TYPE
  | _ => []
  end.

Fixpoint ok (t : ty) : bool :=
  let 'mkType k _ _ := t in
  match k with
  | KNone | KAny | KBool | KInt | KFloat | KStr | KBoolLit _ => true
  | KIntLit n => 0 <=? n
  | KStrLit s => literal_ok s
  | KList item => ok item
  | KDict key val => ok key && key_ok (render key) && ok val
  | KUnion types => negb (bool_decide (length types = 0%nat)) && forallb ok types
  | KSchema s =>
      let t := ty_str_with_pkgpath s in
      bool_decide (encode (chars t) = t) && forallb is_scalar (chars t) && name_ok (chars t)
  | KNumberMultiplier nm => negb (is_literal_nm nm)
  | _ => false
  end.

(** Values whose strings are UTF-8 and whose schemas have ordinary names. *)
Definition ok_value : value -> Prop :=
  everywhere (fun v => wf_level v /\
    match v with schema_value s => name_ok (chars (name s)) = true | _ => True end).

(** What is used of the regular expressions: a string without quotes, backslashes and line
    ends is a match, and a number multiplier begins with a digit and is more than digits. *)
Class RegexLaws (R : Regexes) : Prop := {
  find_literal : forall s rest, s <> [] -> forallb literal_char s = true ->
    find_double_quoted (quote :: s ++ quote :: rest) = Some (quote :: s ++ [quote]);
  multiplier_head : forall c t, is_number_multiplier (c :: t) = true -> is_digit10 c = true;
  multiplier_suffix : forall t, is_number_multiplier t = true -> forallb is_digit10 t = false;
}.

(** ** Printed numbers are ASCII *)

Definition codes (s : string) : text := map byte_val (String.list_ascii_of_string s).
Definition number_char (c : char) : bool :=
  is_digit10 c || bool_decide (c ∈ [ch "."; ch "-"; ch "i"; ch "n"; ch "f"; ch "N"; ch "a"]).

Lemma codes_cons c s : codes (String c s) = byte_val c :: codes s.
Proof. done. Qed.
Lemma codes_app s s' : codes (s +:+ s') = codes s ++ codes s'.
Proof. induction s as [|c s IH]; [done|]. by rewrite str_app_cons, !codes_cons, IH. Qed.

Lemma chars_codes s : forallb is_ascii (codes s) = true -> chars s = codes s.
Proof.
  induction s as [|c s IH]; [done|]. cbn [codes String.list_ascii_of_string map forallb chars].
  intros [[_ Hc]%andb_true_iff Hs]%andb_true_iff. rewrite Hc. f_equal. by apply IH.
Qed.

Lemma number_char_ascii t : forallb number_char t = true -> forallb is_ascii t = true.
Proof.
  intros H. apply forallb_forall. intros c Hc. pose proof (proj1 (forallb_forall _ _) H c Hc) as Hn.
  unfold number_char in Hn. apply orb_true_iff in Hn as [Hn|Hn%bool_decide_eq_true_1].
  - unfold is_digit10, in_range, is_ascii in *. change (ch "0") with 48 in *. change (ch "9") with 57 in *. lia.
  - repeat (apply elem_of_cons in Hn as [->|Hn]; [reflexivity|]). by apply elem_of_nil in Hn.
Qed.

Lemma pretty_N_char_digit x : is_digit10 (byte_val (pretty_N_char x)) = true.
Proof. unfold pretty_N_char. by repeat case_match. Qed.

Lemma pretty_N_go_codes x : forall acc,
  exists t, codes (pretty_N_go x acc) = t ++ codes acc /\ forallb is_digit10 t = true /\ (x <> 0%N -> t <> []).
Proof.
  induction (N.lt_wf_0 x) as [x _ IH]. intros acc.
  destruct (decide (x = 0)%N) as [->|Hx]; [by exists []|].
  assert (Hlt : (x `div` 10 < x)%N) by (apply N.div_lt; lia).
  rewrite pretty_N_go_step by lia. destruct (IH (x `div` 10)%N Hlt
    (String (pretty_N_char (x `mod` 10)%N) acc)) as (t & E & Ht & _).
  exists (t ++ [byte_val (pretty_N_char (x `mod` 10)%N)]). split_and!.
  - by rewrite E, <- app_assoc.
  - rewrite forallb_app, Ht. simpl. by rewrite pretty_N_char_digit.
  - by destruct t.
Qed.

Lemma pretty_N_codes (n : N) : forallb is_digit10 (codes (pretty n)) = true /\ codes (pretty n) <> [].
Proof.
  unfold pretty, pretty_N. case_decide as Hn; [done|].
  destruct (pretty_N_go_codes n "") as (t & -> & Ht & Hne). rewrite app_nil_r. auto.
Qed.

Lemma digits_number t : forallb is_digit10 t = true -> forallb number_char t = true.
Proof.
  intros H. apply forallb_forall. intros c Hc. pose proof (proj1 (forallb_forall _ _) H c Hc) as Hd.
  unfold number_char. by rewrite Hd.
Qed.

Lemma pretty_Z_number (z : Z) : forallb number_char (codes (pretty z)) = true.
Proof.
  destruct z as [|p|p]; [done| |].
  - apply digits_number, (pretty_N_codes (N.pos p)).
  - change (pretty (Z.neg p)) with ("-" +:+ pretty (N.pos p)). rewrite codes_app, forallb_app.
    simpl. apply digits_number, (pretty_N_codes (N.pos p)).
Qed.

Lemma pretty_Z_digits (z : Z) : 0 <= z ->
  chars (pretty z) <> [] /\ forallb is_digit10 (chars (pretty z)) = true.
Proof.
  intros Hz. rewrite chars_codes by apply number_char_ascii, pretty_Z_number.
  destruct z as [|p|p]; [done| |lia]. split; apply (pretty_N_codes (N.pos p)).
Qed.

Lemma codes_substring n m s : forallb number_char (codes s) = true ->
  forallb number_char (codes (String.substring n m s)) = true.
Proof.
  revert n m. induction s as [|c s IH]; intros n m; [by destruct n, m|].
  cbn [codes String.list_ascii_of_string map forallb]. intros [Hc Hs]%andb_true_iff.
  destruct n, m; try done; cbn [String.substring]; try by apply IH.
  rewrite codes_cons. cbn [forallb]. rewrite Hc. by apply IH.
Qed.

Lemma zeros_number n : forallb number_char (codes (str_zeros n)) = true.
Proof. induction n as [|n IH]; [done|]. cbn [str_zeros]. by rewrite codes_app, forallb_app, IH. Qed.

Lemma f64_display_number x : forallb number_char (codes (f64_display x)) = true.
Proof.
  destruct x as [s|s| |s m e]; try done; try by destruct s. cbn [f64_display].
  assert (Hd : forallb number_char (codes (f64_digits m e).1) = true).
  { unfold f64_digits. cbv zeta. destruct (shortest _ _ _ _ _ _ _) as [d t].
    apply digits_number, pretty_N_codes. }
  destruct (f64_digits m e) as [ds t]. cbn [fst] in Hd. cbv zeta.
  rewrite codes_app, forallb_app. apply andb_true_iff. split; [by destruct s|].
  repeat case_match; rewrite ?codes_app, ?forallb_app, ?Hd, ?zeros_number, ?codes_substring by done; done.
Qed.

Lemma number_to_string_codes {V} (v : Value V) :
  forallb number_char (codes (number_to_string v)) = true.
Proof.
  destruct v; try done; cbn [number_to_string]; [apply pretty_Z_number|].
  pose proof (f64_display_number v). destruct (negb _); [|done]. by rewrite codes_app, forallb_app, H.
Qed.

(** A printed float has a point in it. *)
Lemma float_has_point {V} x : ch "." ∈ chars (number_to_string (@float_value V x)).
Proof.
  rewrite chars_codes by apply number_char_ascii, number_to_string_codes. cbn [number_to_string].
  assert (Hp : forall s, str_contains s "." = true -> ch "." ∈ codes s).
  { intros s (s1 & s2 & ->)%str_contains_spec. rewrite !codes_app. set_solver. }
  destruct (str_contains (f64_display x) ".") eqn:E; simpl; [by apply Hp|].
  rewrite codes_app. apply elem_of_app. right. by apply list_elem_of_here.
Qed.

Lemma number_no_quote {V} (v : Value V) : quote ∉ chars (number_to_string v).
Proof.
  rewrite chars_codes by apply number_char_ascii, number_to_string_codes.
  intros Hin%list_elem_of_In. pose proof (proj1 (forallb_forall _ _) (number_to_string_codes v) _ Hin).
  done.
Qed.

(** ** Scanning a printed type *)

Section Induction.
Context (P : ty -> Prop).
Definition subtypes (k : TypeData.type_kind) : Prop :=
  match k with
  | KList t => P t
  | KDict key val => P key /\ P val
  | KUnion ts => Forall P ts
  | _ => True
  end.
Context (step : forall k a f, subtypes k -> P (mkType k a f)).

Fixpoint ty_induction (t : ty) : P t :=
  match t with
  | mkType k a f =>
      step k a f
        match k return subtypes k with
        | KList t => ty_induction t
        | KDict key val => conj (ty_induction key) (ty_induction val)
        | KUnion ts => forall_list P ty_induction ts
        | _ => I
        end
  end.
End Induction.

(** Characters the scan passes over. *)
Definition plain (c : char) : bool :=
  negb (c =? ch "|") && negb (is_open c) && negb (is_close c) && negb (c =? quote) && negb (c =? apostrophe).

Lemma digit_plain t : forallb is_digit10 t = true -> forallb plain t = true.
Proof.
  intros H. apply forallb_forall. intros c Hc. pose proof (proj1 (forallb_forall _ _) H c Hc) as Hd.
  unfold is_digit10, in_range, plain, is_open, is_close, quote, apostrophe in *.
  change (ch "0") with 48 in *. change (ch "9") with 57 in *. change (ch "|") with 124 in *.
  change (ch "[") with 91 in *. change (ch "{") with 123 in *. change (ch "]") with 93 in *.
  change (ch "}") with 125 in *. lia.
Qed.

Lemma special_plain c : special c = false -> plain c = true.
Proof.
  unfold special. rewrite bool_decide_eq_false. intros Hs.
  unfold plain, is_open, is_close. rewrite !andb_true_iff, !negb_true_iff, !orb_false_iff, !Z.eqb_neq.
  set_solver.
Qed.

Section Scan.
Context {R : Regexes} `{!RegexLaws R, DebugTables}.

Lemma scan_plain p rest stack part :
  forallb plain p = true -> split_scan (p ++ rest) 0 stack part = split_scan rest 0 stack (part ++ p).
Proof.
  revert part. induction p as [|c p IH]; intros part; [by rewrite app_nil_r|].
  cbn [forallb app split_scan]. intros [Hc Hp]%andb_true_iff. unfold plain in Hc.
  rewrite !andb_true_iff, !negb_true_iff in Hc. destruct Hc as [[[[H1 H2] H3] H4] H5].
  unfold literal_skip. rewrite H1, H2, H3, H4, H5. simpl. rewrite IH by done. by rewrite <- app_assoc.
Qed.

Lemma scan_skip p rest stack part :
  split_scan (p ++ rest) (length p) stack part = split_scan rest 0 stack (part ++ p).
Proof.
  revert part. induction p as [|c p IH]; intros part; [by rewrite app_nil_r|].
  cbn [app length split_scan]. rewrite IH. by rewrite <- app_assoc.
Qed.

Lemma scan_literal s rest stack part :
  s <> [] -> forallb literal_char s = true ->
  split_scan (quote :: (s ++ [quote]) ++ rest) 0 stack part =
  split_scan rest 0 stack (part ++ quote :: s ++ [quote]).
Proof.
  intros Hs Hl. cbn [split_scan]. change (quote =? ch "|") with false.
  change (is_open quote) with false. change (is_close quote) with false. cbv [andb]. cbv iota.
  assert (E : literal_skip (quote :: (s ++ [quote]) ++ rest) = length (s ++ [quote])).
  { unfold literal_skip. change (quote =? quote) with true. cbv iota.
    rewrite <- app_assoc. simpl. rewrite find_literal by done. simpl. lia. }
  rewrite E, scan_skip. by rewrite <- app_assoc.
Qed.

Definition is_union (t : ty) : bool := let 'mkType k _ _ := t in match k with KUnion _ => true | _ => false end.

Lemma scan_open c t rest stack part :
  is_open c = true -> c =? ch "|" = false ->
  split_scan (c :: t ++ rest) 0 stack part = split_scan (t ++ rest) 0 (c :: stack) (part ++ [c]).
Proof. intros Ho Hb. cbn [split_scan]. by rewrite Hb, Ho. Qed.

Lemma scan_close c rest stack part :
  is_close c = true -> is_open c = false -> c =? ch "|" = false ->
  split_scan (c :: rest) 0 stack part = split_scan rest 0 (tail stack) (part ++ [c]).
Proof. intros Hc Ho Hb. cbn [split_scan]. by rewrite Hb, Ho, Hc. Qed.

Definition scans (t : ty) : Prop :=
  ok t = true -> forall rest stack part, stack <> [] \/ is_union t = false ->
  split_scan (render t ++ rest) 0 stack part = split_scan rest 0 stack (part ++ render t).

Lemma scan_bars ts :
  Forall scans ts -> forallb ok ts = true -> forall rest stack part, stack <> [] ->
  split_scan (join_bars (map render ts) ++ rest) 0 stack part =
  split_scan rest 0 stack (part ++ join_bars (map render ts)).
Proof.
  induction 1 as [|t ts Ht _ IH]; intros Hok rest stack part Hst; [by rewrite app_nil_r|].
  cbn [forallb] in Hok. apply andb_true_iff in Hok as [Hot Hok].
  destruct ts as [|t2 ts]; [apply Ht; auto|].
  change (join_bars (map render (t :: t2 :: ts)))
    with (render t ++ ch "|" :: join_bars (render t2 :: map render ts)).
  change (map render (t2 :: ts)) with (render t2 :: map render ts) in IH.
  set (more := join_bars (render t2 :: map render ts)) in *.
  rewrite <- app_assoc, Ht by auto. cbn [app split_scan].
  rewrite (bool_decide_eq_false_2 _ Hst). change (ch "|" =? ch "|") with true.
  change (is_open (ch "|")) with false. change (is_close (ch "|")) with false. cbv [andb]. cbv iota.
  change (literal_skip (ch "|" :: more ++ rest)) with 0%nat. rewrite IH by done.
  by rewrite <- !app_assoc.
Qed.

Lemma scan_render t : scans t.
Proof.
  induction t as [k al f IH] using ty_induction. intros Hok rest stack part Hst.
  destruct k; cbn [ok] in Hok; try done; cbn [render]; try (apply scan_plain; reflexivity).
  - destruct b; by apply scan_plain.
  - apply scan_plain, digit_plain, pretty_Z_digits. lia.
  - unfold literal_ok in Hok. rewrite !andb_true_iff in Hok. destruct Hok as [[[He Hs] Hne] Hl].
    apply (scan_literal (chars s)); [|done].
    intros E. apply bool_decide_eq_true_1 in He. rewrite E in He. simpl in He. by subst.
  - cbn [app]. rewrite <- app_assoc, scan_open by done. rewrite (IH Hok) by (by left).
    cbn [app]. rewrite scan_close by done. simpl. by rewrite <- !app_assoc.
  - rewrite !andb_true_iff in Hok. destruct Hok as [[Hok1 _] Hok2]. destruct IH as [IH1 IH2].
    cbn [app]. rewrite <- !app_assoc, scan_open by done.
    rewrite (IH1 Hok1) by (by left). cbn [app].
    change (ch ":" :: render val_ty ++ ch "}" :: rest)
      with ([ch ":"] ++ (render val_ty ++ ch "}" :: rest)).
    rewrite (scan_plain [ch ":"]) by done. rewrite (IH2 Hok2) by (by left).
    cbn [app]. rewrite scan_close by done. simpl. by rewrite <- !app_assoc.
  - destruct Hst as [Hst|?]; [|done]. apply andb_true_iff in Hok as [_ Hok]. by apply scan_bars.
  - rewrite !andb_true_iff in Hok. destruct Hok as [_ Hn]. unfold name_ok in Hn.
    rewrite !andb_true_iff in Hn. destruct Hn as [[_ Hn] _]. apply scan_plain.
    apply forallb_forall. intros c Hc. pose proof (proj1 (forallb_forall _ _) Hn c Hc) as Hs.
    by apply special_plain, negb_true_iff.
Qed.
End Scan.

(** ** The members of a union *)

Fixpoint atoms (t : ty) : list ty :=
  let 'mkType k _ _ := t in
  match k with KUnion ts => concat (map atoms ts) | _ => [t] end.

Lemma join_bars_app l1 l2 : l1 <> [] -> l2 <> [] ->
  join_bars (l1 ++ l2) = join_bars l1 ++ ch "|" :: join_bars l2.
Proof.
  intros H1 H2. induction l1 as [|a l1 IH]; [done|]. destruct l1 as [|b l1].
  - destruct l2; [done|]. reflexivity.
  - change (join_bars ((a :: b :: l1) ++ l2)) with (a ++ ch "|" :: join_bars ((b :: l1) ++ l2)).
    change (join_bars (a :: b :: l1)) with (a ++ ch "|" :: join_bars (b :: l1)).
    rewrite IH by done. by rewrite <- app_assoc.
Qed.

Lemma atoms_ok t : ok t = true ->
  atoms t <> [] /\ Forall (fun a => ok a = true /\ is_union a = false) (atoms t) /\
  render t = join_bars (map render (atoms t)) /\
  forall x, has_type t x = existsb (fun a => has_type a x) (atoms t).
Proof.
  induction t as [k al f IH] using ty_induction. intros Hok.
  assert (Hone : is_union (mkType k al f) = false -> atoms (mkType k al f) = [mkType k al f]).
  { by destruct k. }
  destruct (is_union (mkType k al f)) eqn:Eu.
  2: { rewrite Hone by done. split_and!; [done|by repeat constructor|done|].
       intros x. cbn [existsb]. by rewrite orb_false_r. }
  destruct k; try done. cbn [ok] in Hok. apply andb_true_iff in Hok as [Hne Hok].
  cbn [atoms]. cbn [subtypes] in IH.
  assert (Hts : types <> []) by (intros ->; by vm_compute in Hne). clear Hne Hone Eu.
  assert (Hgen : concat (map atoms types) <> [] /\
    Forall (fun a => ok a = true /\ is_union a = false) (concat (map atoms types)) /\
    join_bars (map render types) = join_bars (map render (concat (map atoms types))) /\
    forall x, existsb (fun t => has_type t x) types = existsb (fun a => has_type a x) (concat (map atoms types))).
  { induction types as [|t ts IHts]; [done|]. clear Hts.
    apply list.Forall_cons in IH as [IHt IH]. cbn [forallb] in Hok. apply andb_true_iff in Hok as [Hot Hok].
    destruct (IHt Hot) as (H1 & H2 & H3 & H4). cbn [map concat].
    destruct ts as [|t2 ts].
    - cbn [map concat]. rewrite app_nil_r. split_and!; [done..|]. intros x. cbn [existsb].
      by rewrite orb_false_r.
    - destruct (IHts IH Hok) as (G1 & G2 & G3 & G4); [done|]. split_and!.
      + intros [? ?]%app_eq_nil. done.
      + by apply Forall_app.
      + change (join_bars (render t :: map render (t2 :: ts)))
          with (render t ++ ch "|" :: join_bars (map render (t2 :: ts))).
        rewrite G3, H3, map_app, join_bars_app; [done|by destruct (atoms t)|].
        by destruct (concat (map atoms (t2 :: ts))).
      + intros x. cbn [existsb] in *. rewrite existsb_app, H4. f_equal. apply G4. }
  destruct Hgen as (G1 & G2 & G3 & G4). split_and!; [done..|].
  intros x. cbn [has_type]. rewrite G4.
  destruct (is_none_or_undefined (get x)) eqn:Em; [|done]. simpl. symmetry. apply existsb_exists.
  destruct (concat (map atoms types)) as [|[k a g] l] eqn:E; [done|]. exists (mkType k a g).
  split; [by left|]. cbn [has_type]. by rewrite Em.
Qed.

Section Check.
Context {R : Regexes} `{!RegexLaws R, DebugTables}.

Lemma split_bars ts part :
  ts <> [] -> Forall (fun a => ok a = true /\ is_union a = false) ts ->
  split_scan (join_bars (map render ts)) 0 [] part =
  match ts with a :: ts' => (part ++ render a) :: map render ts' | [] => [] end.
Proof.
  intros Hne Hts. revert part. induction Hts as [|t ts [Hok Hu] Hts IH]; intros part; [done|].
  destruct ts as [|t2 ts].
  - cbn [map join_bars]. pose proof (scan_render t Hok [] [] part (or_intror Hu)) as E.
    rewrite app_nil_r in E. by rewrite E.
  - change (join_bars (map render (t :: t2 :: ts)))
      with (render t ++ ch "|" :: join_bars (map render (t2 :: ts))).
    rewrite scan_render by auto. cbn [split_scan].
    change ((ch "|" =? ch "|") && bool_decide ((@nil char) = [])) with true. cbv iota.
    f_equal. rewrite IH by done. done.
Qed.

Lemma split_render t : ok t = true -> split_type_union (render t) = map render (atoms t).
Proof.
  intros Hok. destruct (atoms_ok t Hok) as (Hne & Hat & -> & _). unfold split_type_union.
  rewrite split_bars by done. by destruct (atoms t).
Qed.

Lemma ascii_len t : forallb is_ascii t = true -> str_len t = Z.of_nat (length t).
Proof.
  induction t as [|c t IH]; [done|]. cbn [forallb]. intros [Hc Ht]%andb_true_iff.
  rewrite str_len_cons, IH by done. unfold len_utf8, is_ascii in *.
  rewrite (proj2 (Z.ltb_lt c 128)) by lia. simpl length. lia.
Qed.

Lemma separate_kv_printed k v : key_ok k = true -> separate_kv (k ++ ch ":" :: v) = Ok (k, v).
Proof.
  intros Hk. unfold separate_kv.
  assert (Hgen : forall p q, k = p ++ q ->
    kv_scan (q ++ ch ":" :: v) (Z.of_nat (length p)) [] (k ++ ch ":" :: v) = Ok (k, v)).
  2: { by apply (Hgen [] k). }
  intros p q. revert p. induction q as [|c q IH]; intros p E.
  - rewrite app_nil_r in E. subst p. cbn [app kv_scan].
    change (is_open (ch ":")) with false. change (is_close (ch ":")) with false.
    change (ch ":" =? ch ":") with true. cbv iota.
    assert (Hlen : Z.of_nat (length k) = str_len k).
    { symmetry. apply ascii_len, forallb_forall. intros c Hc.
      pose proof (proj1 (forallb_forall _ _) Hk c Hc) as Ha. cbv beta in Ha.
      rewrite !andb_true_iff in Ha. by destruct Ha as [[[Ha _] _] _]. }
    rewrite Hlen, take_bytes_app. cbn [mbind outcome_bind].
    replace (str_len k + 1) with (str_len (k ++ [ch ":"])) by (rewrite str_len_app; reflexivity).
    replace (k ++ ch ":" :: v) with ((k ++ [ch ":"]) ++ v) by (by rewrite <- app_assoc).
    by rewrite drop_bytes_app.
  - cbn [app kv_scan]. assert (Hin : In c k) by (subst k; apply in_or_app; right; by left).
    pose proof (proj1 (forallb_forall _ _) Hk c Hin) as Hc. cbv beta in Hc.
    rewrite !andb_true_iff, !negb_true_iff in Hc. destruct Hc as [[[_ -> ] ->] ->].
    replace (Z.of_nat (length p) + 1) with (Z.of_nat (length (p ++ [c]))) by (rewrite length_app; simpl; lia).
    apply IH. by rewrite <- app_assoc.
Qed.
End Check.

(** ** A value against one member *)

Lemma teq_false s t c : c ∈ s -> c ∉ t -> teq s t = false.
Proof. intros Hs Ht. unfold teq. apply bool_decide_eq_false. by intros ->. Qed.
Lemma teq_false_r s t c : c ∉ s -> c ∈ t -> teq s t = false.
Proof. intros Hs Ht. unfold teq. apply bool_decide_eq_false. by intros ->. Qed.

Lemma forallb_elem {A} (f : A -> bool) l x : forallb f l = true -> x ∈ l -> f x = true.
Proof. intros H Hx%list_elem_of_In. by apply (proj1 (forallb_forall f l)). Qed.

Lemma number_text {V} (v : Value V) c :
  number_char c = false -> c ∉ chars (number_to_string v).
Proof.
  rewrite chars_codes by apply number_char_ascii, number_to_string_codes.
  intros Hc Hin. pose proof (forallb_elem _ _ _ (number_to_string_codes v) Hin). congruence.
Qed.

Lemma unit_type_text {V} real raw unit :
  exists t, chars (type_str (@unit_value V real raw unit)) = txt "number_multiplier(" ++ t.
Proof. by eexists. Qed.

Section Debug.
Context `{DebugTables}.

Lemma debug_str_literal s t :
  forallb literal_char t = true -> teq (debug_str s) (quote :: t ++ [quote]) = teq s t.
Proof.
  intros Ht. unfold debug_str.
  enough (E : flat_map debug_char s = t <-> s = t).
  { unfold teq. apply bool_decide_ext. rewrite <- E. split; [|by intros ->].
    intros [= Eq]. by apply app_inj_2 in Eq as [-> _]. }
  assert (Hone : forall c, literal_char c = true -> debug_char c = [c]).
  { intros c Hc. unfold literal_char in Hc. rewrite !andb_true_iff, !negb_true_iff in Hc.
    destruct Hc as [[Hr Hq] Hb]. unfold debug_char. change (c =? 34) with (c =? quote). rewrite Hq, Hb. unfold in_range in Hr.
    rewrite !(proj2 (Z.eqb_neq c _)) by lia. simpl. unfold is_ascii.
    destruct ((0 <=? c) && (c <? 128)) eqn:E; [|lia].
    unfold in_range. by rewrite Hr. }
  split.
  - revert s. induction t as [|c t IH]; intros [|d s] E; try done; cbn [flat_map] in E.
    + exfalso. assert (Hd : debug_char d <> []); [|by destruct (debug_char d)].
      unfold debug_char. by repeat case_match.
    + cbn [forallb] in Ht. apply andb_true_iff in Ht as [Hc Ht].
      assert (Hd : debug_char d = [d] \/ exists u, debug_char d = ch "\" :: u).
      { unfold debug_char. repeat case_match; eauto. }
      destruct Hd as [Hd|[u Hd]]; rewrite Hd in E; cbn [app] in E.
      * injection E as -> E. f_equal. by apply IH.
      * injection E as <- E. by vm_compute in Hc.
  - intros ->. induction t as [|c t IH]; [done|]. cbn [forallb flat_map] in *.
    apply andb_true_iff in Ht as [Hc Ht]. rewrite Hone by done. simpl. f_equal. by apply IH.
Qed.

Lemma debug_str_head s : exists t, debug_str s = quote :: t.
Proof. by eexists. Qed.
End Debug.

Section Atoms.
Context {R : Regexes} `{!RegexLaws R, DebugTables}.

Definition scalar_check {V} (v : Value V) (tpe : text) : bool :=
  check_type_literal v tpe || check_number_multiplier_type v tpe ||
  (negb (is_dict v) && negb (is_list v) &&
   (match_builtin_type v tpe || (is_schema v && is_schema_type tpe))).

Lemma check_scalar n x tpe :
  tpe <> [] -> tpe <> KCL_TYPE_ANY -> is_type_union tpe = false ->
  is_list_type tpe = false -> is_dict_type tpe = false ->
  is_none_or_undefined (get x) = false ->
  check_type (S n) x tpe = Ok (scalar_check (get x) tpe).
Proof.
  intros H1 H2 H3 H4 H5 Hx. cbn [check_type]. unfold scalar_check.
  assert (E1 : teq tpe [] = false) by (by apply bool_decide_eq_false).
  assert (E2 : teq tpe KCL_TYPE_ANY = false) by (by apply bool_decide_eq_false).
  rewrite E1, E2, Hx, H3. cbn [orb].
  destruct (check_type_literal _ _); [done|]. destruct (check_number_multiplier_type _ _); [done|].
  unfold check_type_dict, check_type_list. rewrite E1, H4, H5.
  generalize (match_builtin_type (get x) tpe) (is_schema_type tpe). intros m i.
  clear -Hx. destruct (get x); simpl in Hx; try discriminate Hx; destruct m; reflexivity.
Qed.

Lemma multiplier_no_digit c t : is_digit10 c = false -> is_number_multiplier (c :: t) = false.
Proof.
  intros Hc. destruct (is_number_multiplier (c :: t)) eqn:E; [|done].
  apply multiplier_head in E. congruence.
Qed.

Lemma name_ok_inv t : name_ok t = true ->
  (exists c t', t = c :: t' /\ is_digit c = false /\ c <> ch "." /\ c <> ch "-") /\
  (forall c, special c = true -> c ∉ t) /\ (forall r, r ∈ reserved -> teq r t = false).
Proof.
  unfold name_ok. rewrite !andb_true_iff. intros [[Hh Hs] Hr]. split_and!.
  - destruct t as [|c t]; [done|]. rewrite !andb_true_iff, !negb_true_iff, !Z.eqb_neq in Hh.
    destruct Hh as [[? ?] ?]. eauto 6.
  - intros c Hc Hin. pose proof (forallb_elem _ _ _ Hs Hin) as E. cbv beta in E. by rewrite Hc in E.
  - intros r Hin. unfold teq. apply bool_decide_eq_false. intros <-.
    apply negb_true_iff, bool_decide_eq_false in Hr. done.
Qed.

Lemma reserved_constants r : r ∈ KCL_NAME_CONSTANTS ++ BUILTIN_TYPES -> r ∈ reserved.
Proof.
  intros Hr. assert (E : forallb (fun r => bool_decide (r ∈ reserved)) (KCL_NAME_CONSTANTS ++ BUILTIN_TYPES) = true)
    by (vm_compute; reflexivity).
  pose proof (forallb_elem _ _ _ E Hr) as Hb. by apply bool_decide_eq_true_1 in Hb.
Qed.

Lemma name_not_literal t : name_ok t = true -> is_literal_type t = false.
Proof.
  intros Hn. destruct (name_ok_inv t Hn) as ((c & t' & -> & Hd & Hdot & _) & Hs & Hr).
  unfold is_literal_type.
  assert (Hc : tmem (c :: t') KCL_NAME_CONSTANTS = false).
  { apply bool_decide_eq_false. intros Hin.
    assert (Hall : forall r, r ∈ KCL_NAME_CONSTANTS -> teq r (c :: t') = false).
    { intros r Hrin. apply Hr. apply reserved_constants, elem_of_app. by left. }
    specialize (Hall _ Hin). apply bool_decide_eq_false in Hall. done. }
  rewrite Hc. assert (Hq : c =? quote = false).
  { apply Z.eqb_neq. intros ->. apply (Hs quote); [done|left]. }
  assert (Ha : c =? apostrophe = false).
  { apply Z.eqb_neq. intros ->. apply (Hs apostrophe); [done|left]. }
  simpl. rewrite Hq, Ha, Hd. cbn [andb]. rewrite (proj2 (Z.eqb_neq _ _) Hdot). simpl. by rewrite Hd.
Qed.

(** The schema names of a value. *)
Definition name_level (v : Value value) : Prop :=
  match v with
  | schema_value s => name_ok (chars (name s)) = true
  | str_value s => utf8 s
  | _ => True
  end.

Ltac closed := vm_compute; reflexivity.

(** The types of a unit value and of a schema are not the name of another type. *)
Lemma unit_type_special t real raw u :
  ch "(" ∉ t -> teq (chars (type_str (@unit_value value real raw u))) t = false.
Proof.
  intros Ht. destruct (@unit_type_text value real raw u) as [w E]. rewrite E.
  apply (teq_false _ _ (ch "(")); [|done]. apply elem_of_app. left.
  apply (bool_decide_eq_true_1 _). closed.
Qed.

Lemma schema_type_reserved t s : name_ok (chars (name s)) = true -> t ∈ reserved ->
  teq (chars (type_str (@schema_value value s))) t = false.
Proof.
  intros Hn Ht. destruct (name_ok_inv _ Hn) as (_ & _ & Hr). specialize (Hr t Ht).
  unfold teq in *. apply bool_decide_eq_false in Hr. apply bool_decide_eq_false.
  intros E. apply Hr. by rewrite <- E.
Qed.

(** Against a closed type name that is no literal. *)
Lemma scalar_closed (v : Value value) tpe (spec : bool) :
  name_level v -> tpe ∈ reserved -> ch "(" ∉ tpe -> is_number_multiplier tpe = false ->
  is_literal_type tpe = false ->
  (forall s, v = schema_value s -> is_schema_type tpe = spec) ->
  (forall real raw u, v = unit_value real raw u -> teq tpe NUMBER_MULTIPLIER_TYPE = spec) ->
  (is_schema v = false -> is_unit v = false ->
   negb (is_dict v) && negb (is_list v) && match_builtin_type v tpe = spec) ->
  scalar_check v tpe = spec.
Proof.
  intros Hv Ht Hp Hm Hl Hs Hu Hrest. unfold scalar_check, check_type_literal. rewrite Hl. cbn [negb orb].
  destruct (is_schema v) eqn:Es.
  - destruct v as [ | | | | | | | |s| | ]; try done. cbn [check_number_multiplier_type orb].
    unfold match_builtin_type. rewrite (schema_type_reserved tpe s Hv) by done.
    rewrite (schema_type_reserved BUILTIN_TYPE_INT s Hv) by (apply (bool_decide_eq_true_1 _); closed).
    by rewrite (Hs _ eq_refl).
  - destruct (is_unit v) eqn:Eu.
    + destruct v; try done. cbn [check_number_multiplier_type]. rewrite Hm, (Hu _ _ _ eq_refl).
      unfold match_builtin_type. rewrite (unit_type_special tpe) by done.
      rewrite (unit_type_special BUILTIN_TYPE_INT) by (apply (bool_decide_eq_true_1 _); closed).
      by rewrite orb_false_r, orb_false_r || destruct spec.
    + assert (Hn : check_number_multiplier_type v tpe = false) by (by destruct v).
      rewrite Hn, andb_false_l, orb_false_r, orb_false_l. by apply Hrest.
Qed.

(** Against a literal type: only its own kind of value can match. *)
Lemma scalar_literal (v : Value value) c t (spec : bool) :
  name_level v -> is_none_or_undefined v = false -> is_literal_type (c :: t) = true ->
  is_number_multiplier (c :: t) = false -> c :: t <> NUMBER_MULTIPLIER_TYPE ->
  ch "(" ∉ c :: t \/ c <> ch "n" -> (forall s, name_ok s = true -> s <> c :: t) ->
  c :: t ∉ [txt "bool"; txt "int"; txt "float"; txt "str"; txt "function"] ->
  (check_type_literal v (c :: t) = spec) -> scalar_check v (c :: t) = spec.
Proof.
  intros Hv Hmiss Hl Hm Hnm Hp Hname Hb <-. unfold scalar_check.
  assert (E1 : check_number_multiplier_type v (c :: t) = false).
  { destruct v; try done. cbn [check_number_multiplier_type]. rewrite Hm.
    by apply bool_decide_eq_false. }
  assert (E2 : is_schema_type (c :: t) = false).
  { unfold is_schema_type. by rewrite Hl, andb_false_r. }
  assert (E3 : negb (is_dict v) && negb (is_list v) && match_builtin_type v (c :: t) = false).
  { assert (Hf : teq (c :: t) BUILTIN_TYPE_FLOAT = false) by (apply bool_decide_eq_false; set_solver).
    unfold match_builtin_type. rewrite Hf, andb_false_r, orb_false_r.
    assert (Hin : forall s, bool_decide (chars s ∈ [txt "bool"; txt "int"; txt "float"; txt "str"; txt "function"]) = true ->
      teq (chars s) (c :: t) = false).
    { intros s Hs%bool_decide_eq_true_1. apply bool_decide_eq_false. intros Eq. apply Hb. by rewrite <- Eq. }
    destruct (is_dict v) eqn:Ed; [reflexivity|]. destruct (is_list v) eqn:El; [reflexivity|].
    cbn [negb andb].
    destruct v as [ | | | | | | | |s| |real raw u]; try discriminate.
    - apply Hin. closed.
    - apply Hin. closed.
    - apply Hin. closed.
    - apply Hin. closed.
    - apply bool_decide_eq_false. by apply Hname.
    - apply Hin. closed.
    - destruct (@unit_type_text value real raw u) as [w E]. rewrite E.
      apply bool_decide_eq_false. intros Eq. destruct Hp as [Hp|Hp].
      + apply Hp. rewrite <- Eq. apply elem_of_app. left. apply (bool_decide_eq_true_1 _). closed.
      + apply Hp. symmetry. change (txt "number_multiplier(" ++ w) with (ch "n" :: txt "umber_multiplier(" ++ w) in Eq.
        by injection Eq. }
  rewrite E1, E2, andb_false_r, !orb_false_r, E3. by rewrite orb_false_r.
Qed.

Lemma digits_head c t : is_digit10 c = true -> name_ok (c :: t) = false.
Proof. intros Hc. unfold name_ok, is_digit. by rewrite Hc. Qed.

Lemma chars_pretty_inj z n : 0 <= n -> teq (chars (pretty z)) (chars (pretty n)) = (z =? n).
Proof.
  intros Hn. unfold teq. destruct (z =? n) eqn:E.
  - apply Z.eqb_eq in E as ->. by apply bool_decide_eq_true.
  - apply Z.eqb_neq in E. apply bool_decide_eq_false.
    rewrite !chars_codes by apply number_char_ascii, pretty_Z_number. intros Eq. apply E.
    apply (inj (pretty (A:=Z))). unfold codes in Eq.
    assert (Hb : forall a b, byte_val a = byte_val b -> a = b).
    { intros a b Hab. unfold byte_val in Hab. apply N2Z.inj in Hab.
      rewrite <- (Ascii.ascii_N_embedding a), <- (Ascii.ascii_N_embedding b). by rewrite Hab. }
    assert (Hmap : forall l l', map byte_val l = map byte_val l' -> l = l').
    { induction l as [|a l IH]; intros [|a' l'] El; simplify_eq/=; [done|]. f_equal; auto. }
    apply Hmap in Eq.
    rewrite <- (String.string_of_list_ascii_of_string (pretty z)), Eq.
    apply String.string_of_list_ascii_of_string.
Qed.

Lemma closed_member (t : text) (l : list text) : bool_decide (t ∈ l) = true -> t ∈ l.
Proof. apply bool_decide_eq_true_1. Qed.
Lemma closed_not_member (t : text) (l : list text) : bool_decide (t ∉ l) = true -> t ∉ l.
Proof. apply bool_decide_eq_true_1. Qed.
Lemma closed_not_char (c : char) (t : text) : bool_decide (c ∉ t) = true -> c ∉ t.
Proof. apply bool_decide_eq_true_1. Qed.

(** The members without brackets. *)
Definition is_scalar_type (t : ty) : bool :=
  let 'mkType k _ _ := t in
  match k with KAny | KList _ | KDict _ _ | KUnion _ => false | _ => true end.

Ltac reserved_name :=
  apply scalar_closed;
  [assumption|apply closed_member; closed|apply closed_not_char; closed
  |by apply multiplier_no_digit|closed| | |].

Lemma name_not_reserved s t : name_ok s = true -> t ∈ reserved -> s <> t.
Proof. intros Hs Ht ->. unfold name_ok in Hs. apply andb_true_iff in Hs as [_ Hs].
  apply negb_true_iff, bool_decide_eq_false in Hs. done. Qed.

(** A constant that is no number: only the spelling of a boolean can equal it. *)
Lemma scalar_constant v c t :
  name_level v -> is_none_or_undefined v = false -> c :: t ∈ KCL_NAME_CONSTANTS ->
  c :: t ∈ reserved -> (exists d, d ∈ c :: t /\ number_char d = false) -> c <> quote ->
  is_digit10 c = false -> c <> ch "n" -> c :: t <> NUMBER_MULTIPLIER_TYPE ->
  c :: t ∉ [txt "bool"; txt "int"; txt "float"; txt "str"; txt "function"] ->
  scalar_check v (c :: t) =
    match v with
    | bool_value b => teq (c :: t) (if b then KCL_NAME_CONSTANT_TRUE else KCL_NAME_CONSTANT_FALSE)
    | _ => false
    end.
Proof.
  intros Hv Hmiss Hc Hr (d & Hd & Hnd) Hq Hdig Hn Hnm Hb.
  assert (Hl : is_literal_type (c :: t) = true).
  { unfold is_literal_type, tmem. by rewrite bool_decide_eq_true_2. }
  apply scalar_literal; try done.
  - by apply multiplier_no_digit.
  - by right.
  - intros s Hs. by apply name_not_reserved.
  - unfold check_type_literal. rewrite Hl. cbn [negb]. destruct v; try done; simpl.
    + apply (teq_false_r _ _ d); [exact (number_text (@int_value value v) d Hnd)|done].
    + apply (teq_false_r _ _ d); [exact (number_text (@float_value value v) d Hnd)|done].
    + apply bool_decide_eq_false. intros E. by injection E as E _.
Qed.

Lemma scalar_digits v n :
  0 <= n -> name_level v -> is_none_or_undefined v = false ->
  scalar_check v (chars (pretty n)) = match v with int_value z => z =? n | _ => false end.
Proof.
  intros Hn Hv Hmiss. destruct (pretty_Z_digits n Hn) as [Hne Hd].
  assert (Hchars : forall c, c ∈ chars (pretty n) -> is_digit10 c = true) by (intros c; by apply forallb_elem).
  pose proof chars_pretty_inj as Hinj.
  remember (chars (pretty n)) as d eqn:Ed. destruct d as [|c t]; [done|].
  assert (Hc : is_digit10 c = true) by (apply Hchars; left).
  assert (Hl : is_literal_type (c :: t) = true).
  { unfold is_literal_type. destruct (tmem _ _); [done|]. cbn [starts_with_char].
    assert (Hq : c =? quote = false /\ c =? apostrophe = false).
    { clear -Hc. unfold is_digit10, in_range, quote, apostrophe in *. change (ch "0") with 48 in Hc.
      change (ch "9") with 57 in Hc. lia. }
    destruct Hq as [-> ->]. unfold str_isdigit.
    assert (E : forallb is_digit (c :: t) = true); [|by rewrite E].
    apply forallb_forall. intros e He%list_elem_of_In. unfold is_digit. by rewrite (Hchars e He). }
  assert (Hnodigit : forall (s : text) e, e ∈ s -> is_digit10 e = false -> s <> c :: t).
  { intros s e He Hne' ->. rewrite (Hchars e He) in Hne'. done. }
  apply scalar_literal; try done.
  - destruct (is_number_multiplier (c :: t)) eqn:E; [|done]. apply multiplier_suffix in E. congruence.
  - intros E. apply (Hnodigit NUMBER_MULTIPLIER_TYPE (ch "u")); [by left|done|done].
  - right. intros ->. done.
  - intros s Hs ->. by rewrite digits_head in Hs.
  - intros Hin. assert (E : forallb (fun s => existsb (fun e => negb (is_digit10 e)) s)
      [txt "bool"; txt "int"; txt "float"; txt "str"; txt "function"] = true) by closed.
    pose proof (forallb_elem _ _ _ E Hin) as Hx. apply existsb_exists in Hx as (e & He & Hx).
    apply list_elem_of_In in He. by rewrite (Hchars e He) in Hx.
  - unfold check_type_literal. rewrite Hl. cbn [negb]. destruct v; try done; simpl.
    + apply bool_decide_eq_false. intros E. apply (Hnodigit (if v then KCL_NAME_CONSTANT_TRUE else KCL_NAME_CONSTANT_FALSE) (ch "e")).
      * destruct v; apply (bool_decide_eq_true_1 _); closed.
      * done.
      * by destruct v.
    + rewrite Ed. by apply Hinj.
    + apply (teq_false _ _ (ch ".")); [exact (@float_has_point value v)|]. intros Hin. by apply Hchars in Hin.
    + apply bool_decide_eq_false. intros E. injection E as E _. by subst c.
Qed.

Lemma literal_text s : literal_ok s = true ->
  chars s <> [] /\ forallb literal_char (chars s) = true /\ encode (chars s) = s.
Proof.
  unfold literal_ok. rewrite !andb_true_iff, negb_true_iff, bool_decide_eq_false.
  intros [[[He%bool_decide_eq_true_1 Hs] Hne] Hl]. split_and!; [|done|done].
  intros E. apply Hne. rewrite <- He, E. done.
Qed.

Lemma scalar_string v s :
  literal_ok s = true -> name_level v -> is_none_or_undefined v = false ->
  scalar_check v (quote :: chars s ++ [quote]) =
    match v with str_value s' => bool_decide (s' = s) | _ => false end.
Proof.
  intros (Hne & Hlit & Henc)%literal_text Hv Hmiss.
  assert (Hl : is_literal_type (quote :: chars s ++ [quote]) = true).
  { unfold is_literal_type. destruct (tmem _ _); [done|]. cbn [starts_with_char].
    change (quote =? quote) with true. cbv iota. unfold ends_with_char.
    by rewrite app_comm_cons, last_snoc. }
  assert (Hp : forallb literal_char (chars s) = true) by done.
  assert (Hhead : forall c w, c <> quote -> c :: w <> quote :: chars s ++ [quote]).
  { intros c w Hc E. by injection E. }
  apply scalar_literal; try done.
  - by apply multiplier_no_digit.
  - by right.
  - intros w Hw ->. destruct (name_ok_inv _ Hw) as (_ & Hs & _). apply (Hs quote); [done|left].
  - intros Hin. assert (E : forallb (fun w => negb (starts_with_char quote w))
      [txt "bool"; txt "int"; txt "float"; txt "str"; txt "function"] = true) by closed.
    pose proof (forallb_elem _ _ _ E Hin) as Hx. done.
  - unfold check_type_literal. rewrite Hl. cbn [negb]. destruct v; try done; simpl.
    + by destruct v.
    + apply (teq_false_r _ _ quote); [exact (number_no_quote (@int_value value v))|left].
    + apply (teq_false_r _ _ quote); [exact (number_no_quote (@float_value value v))|left].
    + rewrite debug_str_literal by done. unfold teq. apply bool_decide_ext. simpl in Hv.
      split; [|by intros ->]. intros E. by rewrite <- (encode_chars v Hv), E.
Qed.

Lemma scalar_schema v t :
  name_ok t = true -> name_level v -> is_none_or_undefined v = false ->
  scalar_check v t = is_schema v.
Proof.
  intros Hn Hv Hmiss. destruct (name_ok_inv t Hn) as ((c & t' & -> & Hd & _) & Hs & Hr).
  pose proof (name_not_literal _ Hn) as Hl.
  assert (Hdig : is_digit10 c = false) by (unfold is_digit in Hd; by apply orb_false_iff in Hd as [? _]).
  assert (Hst : is_schema_type (c :: t') = true).
  { unfold is_schema_type. rewrite Hl.
    assert (E1 : is_list_type (c :: t') = false).
    { unfold is_list_type. cbn [starts_with_char]. destruct (c =? ch "[") eqn:E; [|by rewrite andb_false_r].
      apply Z.eqb_eq in E as ->. destruct (Hs (ch "[")); [done|left]. }
    assert (E2 : is_dict_type (c :: t') = false).
    { unfold is_dict_type. cbn [starts_with_char]. destruct (c =? ch "{") eqn:E; [|by rewrite andb_false_r].
      apply Z.eqb_eq in E as ->. destruct (Hs (ch "{")); [done|left]. }
    assert (E3 : is_builtin_type (c :: t') = false).
    { unfold is_builtin_type, tmem. apply bool_decide_eq_false. intros Hin.
      specialize (Hr (c :: t') ltac:(apply reserved_constants, elem_of_app; by right)).
      by apply bool_decide_eq_false in Hr. }
    by rewrite E1, E2, E3. }
  assert (Hty : forall s, bool_decide (chars s ∈ reserved) = true -> teq (chars s) (c :: t') = false).
  { intros s Hin%bool_decide_eq_true_1. by apply Hr. }
  unfold scalar_check, check_type_literal. rewrite Hl, Hst. cbn [negb orb].
  unfold match_builtin_type.
  assert (Hf : teq (c :: t') BUILTIN_TYPE_FLOAT = false).
  { specialize (Hr BUILTIN_TYPE_FLOAT ltac:(apply closed_member; closed)).
    apply bool_decide_eq_false in Hr. apply bool_decide_eq_false. congruence. }
  rewrite Hf, andb_false_r, orb_false_r.
  destruct v as [ | | | | | |l|d|s| |real raw u]; try discriminate Hmiss;
    cbn [check_number_multiplier_type orb].
  - rewrite Hty by closed. done.
  - rewrite Hty by closed. done.
  - rewrite Hty by closed. done.
  - rewrite Hty by closed. done.
  - done.
  - done.
  - change (negb (is_dict (@schema_value value s)) && negb (is_list (@schema_value value s))) with true.
    change (is_schema (@schema_value value s)) with true. cbn [andb]. by rewrite orb_true_r.
  - rewrite Hty by closed. done.
  - rewrite multiplier_no_digit by done.
    assert (Hnm : teq (c :: t') NUMBER_MULTIPLIER_TYPE = false).
    { specialize (Hr NUMBER_MULTIPLIER_TYPE ltac:(apply closed_member; closed)).
      apply bool_decide_eq_false in Hr. apply bool_decide_eq_false. congruence. }
    rewrite Hnm, unit_type_special by (by apply Hs). done.
Qed.

Lemma scalar_has t v :
  ok t = true -> is_scalar_type t = true -> name_level v -> is_none_or_undefined v = false ->
  scalar_check v (render t) = has_type t (mkValue v).
Proof.
  destruct t as [k al f]. intros Hok Hsc Hv Hmiss. cbn [has_type get]. rewrite Hmiss. cbn [orb].
  destruct k; try done; cbn [render ok] in *.
  - change (txt "None") with (ch "N" :: txt "one").
    rewrite (scalar_constant v (ch "N") (txt "one")); try done; try (apply closed_member; closed);
      try (apply closed_not_member; closed).
    + destruct v; try done. by destruct v.
    + exists (ch "o"). split; [apply (bool_decide_eq_true_1 _); closed|closed].
  - reserved_name; [intros s ->; closed|intros ? ? ? ->; closed|].
    intros Hs Hu. by destruct v.
  - destruct b.
    + change (txt "True") with (ch "T" :: txt "rue").
      rewrite (scalar_constant v (ch "T") (txt "rue")); try done; try (apply closed_member; closed);
        try (apply closed_not_member; closed).
      * destruct v; try done. by destruct v.
      * exists (ch "T"). split; [apply (bool_decide_eq_true_1 _); closed|closed].
    + change (txt "False") with (ch "F" :: txt "alse").
      rewrite (scalar_constant v (ch "F") (txt "alse")); try done; try (apply closed_member; closed);
        try (apply closed_not_member; closed).
      * destruct v; try done. by destruct v.
      * exists (ch "F"). split; [apply (bool_decide_eq_true_1 _); closed|closed].
  - reserved_name; [intros s ->; closed|intros ? ? ? ->; closed|].
    intros Hs Hu. by destruct v.
  - apply scalar_digits; [lia|done|done].
  - reserved_name; [intros s ->; closed|intros ? ? ? ->; closed|].
    intros Hs Hu. by destruct v.
  - reserved_name; [intros s ->; closed|intros ? ? ? ->; closed|].
    intros Hs Hu. by destruct v.
  - by apply scalar_string.
  - apply scalar_schema; [|done|done]. by rewrite !andb_true_iff in Hok; destruct Hok.
  - reserved_name; [intros s' ->; closed|intros ? ? ? ->; closed|].
    intros Hs Hu. by destruct v.
Qed.

Lemma ok_name_level x : ok_value x -> name_level (get x).
Proof. destruct x as [v]. intros [[Hw Hn] _]. by destruct v. Qed.

(** The printed scalars begin like no list and no dictionary. *)
Lemma scalar_shape t :
  ok t = true -> is_scalar_type t = true ->
  exists c r, render t = c :: r /\ is_open c = false /\ c :: r <> KCL_TYPE_ANY.
Proof.
  destruct t as [k al f]. intros Hok Hsc.
  destruct k; try done; cbn [render ok] in *; try (by do 2 eexists).
  - destruct b; by do 2 eexists.
  - destruct (pretty_Z_digits n ltac:(lia)) as [Hne Hd]. destruct (chars (pretty n)) as [|c r]; [done|].
    exists c, r. cbn [forallb] in Hd. apply andb_true_iff in Hd as [Hc _]. split_and!; [done| |].
    + pose proof (digit_plain [c]) as Hp. cbn [forallb] in Hp. rewrite Hc in Hp.
      specialize (Hp eq_refl). unfold plain in Hp. rewrite !andb_true_iff, !negb_true_iff in Hp.
      by destruct Hp as [[[[[_ ?] _] _] _] _].
    + intros E. injection E as E _. by subst c.
  - rewrite !andb_true_iff in Hok. destruct Hok as [_ Hn].
    destruct (name_ok_inv _ Hn) as ((c & r & E & _) & Hs & Hr). rewrite E in *. exists c, r.
    split_and!; [done| |].
    + unfold is_open. rewrite orb_false_iff, !Z.eqb_neq. split; intros ->.
      * apply (Hs (ch "[")); [done|left].
      * apply (Hs (ch "{")); [done|left].
    + intros Ea. specialize (Hr KCL_TYPE_ANY ltac:(apply closed_member; closed)).
      apply bool_decide_eq_false in Hr. by rewrite Ea in Hr.
Qed.

Lemma not_bracketed c r : is_open c = false ->
  is_list_type (c :: r) = false /\ is_dict_type (c :: r) = false.
Proof.
  unfold is_open, is_list_type, is_dict_type. cbn [starts_with_char]. intros [-> ->]%orb_false_iff.
  by rewrite !andb_false_r.
Qed.

(** Against a bracketed type, a value is checked as a list or dictionary or not at all. *)
Lemma check_bracketed n x o m c :
  (o = ch "[" /\ c = ch "]") \/ (o = ch "{" /\ c = ch "}") ->
  name_level (get x) -> is_none_or_undefined (get x) = false ->
  is_type_union (o :: m ++ [c]) = false ->
  check_type (S n) x (o :: m ++ [c]) =
  match get x with
  | dict_value _ => check_type_dict (check_type n) x (o :: m ++ [c])
  | list_value _ => check_type_list (check_type n) x (o :: m ++ [c])
  | _ => Ok false
  end.
Proof.
  intros Hoc Hv Hx Hu. cbn [check_type].
  assert (Ho : (ch "(" <> o) /\ is_digit o = false /\ is_digit10 o = false /\ o <> ch "u" /\ o <> ch "a" /\
    o <> ch "n" /\ special o = true /\ o =? quote = false /\ o =? apostrophe = false /\ o =? ch "." = false /\
    forall s, bool_decide (ch "[" ∉ chars s /\ ch "{" ∉ chars s) = true -> teq (chars s) (o :: m ++ [c]) = false).
  { assert (Hs : forall s, bool_decide (ch "[" ∉ chars s /\ ch "{" ∉ chars s) = true ->
      teq (chars s) (o :: m ++ [c]) = false).
    { intros s [H1 H2]%bool_decide_eq_true_1.
      destruct Hoc as [[-> ->]|[-> ->]]; [apply (teq_false_r _ _ (ch "["))|apply (teq_false_r _ _ (ch "{"))];
        try done; left. }
    by destruct Hoc as [[-> ->]|[-> ->]]. }
  destruct Ho as (H1 & H2 & H3 & H4 & H5 & H6 & H7 & Hq & Ha & Hdot & Hty).
  set (tpe := o :: m ++ [c]) in *.
  assert (E1 : teq tpe [] = false) by (by apply bool_decide_eq_false).
  assert (E2 : teq tpe KCL_TYPE_ANY = false) by (apply bool_decide_eq_false; by intros [= ? _]).
  assert (E3 : is_literal_type tpe = false).
  { unfold is_literal_type. assert (Et : tmem tpe KCL_NAME_CONSTANTS = false).
    { apply bool_decide_eq_false. intros Hin. unfold tpe in Hin.
      assert (Hall : forallb (fun r => match r with e :: _ => negb (is_open e) | [] => true end) KCL_NAME_CONSTANTS = true)
        by closed.
      pose proof (forallb_elem _ _ _ Hall Hin) as Hopen. cbv beta iota in Hopen.
      by destruct Hoc as [[-> _]|[-> _]]. }
    rewrite Et. unfold tpe. cbn [starts_with_char str_isdigit forallb remove_first_dot].
    by rewrite Hq, Ha, H2, Hdot; cbn [str_isdigit forallb]; rewrite H2. }
  assert (E4 : is_number_multiplier tpe = false) by (by apply multiplier_no_digit).
  assert (E5 : teq tpe NUMBER_MULTIPLIER_TYPE = false) by (apply bool_decide_eq_false; by intros [= ? _]).
  assert (E6 : teq tpe BUILTIN_TYPE_FLOAT = false).
  { apply bool_decide_eq_false. intros [= ? _]. by destruct Hoc as [[-> _]|[-> _]]. }
  assert (E7 : is_schema_type tpe = false).
  { unfold is_schema_type. unfold tpe at 1. assert (Hb : is_list_type tpe = true \/ is_dict_type tpe = true).
    { destruct Hoc as [[-> ->]|[-> ->]]; [left|right]; unfold is_list_type, is_dict_type, tpe;
        cbn [length starts_with_char]; unfold ends_with_char;
        rewrite length_app, app_comm_cons, last_snoc; simpl length; rewrite Nat.add_comm; done. }
    destruct Hb as [-> | ->]; simpl; by rewrite ?andb_false_r. }
  unfold check_type_literal, match_builtin_type. rewrite E1, E2, E3, E6, E7, Hx, Hu. cbn [orb negb].
  rewrite andb_false_r, orb_false_r.
  destruct (get x) as [ | |b|z|f|w|l|d|s|g|real raw u]; try discriminate Hx;
    cbn [check_number_multiplier_type]; cbv [is_dict is_list is_schema]; try reflexivity.
  - rewrite (Hty (type_str (@bool_value value b))) by closed. reflexivity.
  - rewrite (Hty (type_str (@int_value value z))) by closed. reflexivity.
  - rewrite (Hty (type_str (@float_value value f))) by closed. reflexivity.
  - rewrite (Hty (type_str (@str_value value w))) by closed. reflexivity.
  - enough (Es : teq (chars (type_str (@schema_value value s))) tpe = false) by (by rewrite Es).
    cbn [type_str]. destruct (name_ok_inv _ Hv) as (_ & Hs & _). specialize (Hs o H7).
    apply (teq_false_r _ _ o); [exact Hs|left].
  - rewrite (Hty (type_str (@func_value value g))) by closed. reflexivity.
  - rewrite E4, E5. destruct (@unit_type_text value real raw u) as [w E]. rewrite E.
    assert (Es : teq (txt "number_multiplier(" ++ w) tpe = false); [|by rewrite Es].
    apply bool_decide_eq_false. intros Eq. apply H6. symmetry.
    change (txt "number_multiplier(" ++ w) with (ch "n" :: txt "umber_multiplier(" ++ w) in Eq.
    by injection Eq.
Qed.

Lemma check_list_type n item x :
  (forall y, ok_value y -> check_type n y (render item) = Ok (has_type item y)) -> ok_value x ->
  forall l, get x = list_value l ->
  check_type_list (check_type n) x (ch "[" :: render item ++ [ch "]"]) = Ok (forallb (has_type item) l).
Proof.
  intros Hitem Hx l Hl. unfold check_type_list. rewrite Hl, dereference_bracketed by auto.
  assert (E : is_list_type (ch "[" :: render item ++ [ch "]"]) = true).
  { unfold is_list_type, ends_with_char. cbn [starts_with_char length].
    rewrite length_app, app_comm_cons, last_snoc, Nat.add_comm. done. }
  rewrite E. change (teq (ch "[" :: render item ++ [ch "]"]) []) with false.
  cbn [negb mbind outcome_bind]. apply all_m_pure. destruct x as [v]. cbn [get] in Hl. subst v.
  apply everywhere_list in Hx as [_ Hx]. by eapply Forall_impl.
Qed.

Lemma check_dict_type n key val x :
  key_ok (render key) = true ->
  (forall y, ok_value y -> check_type n y (render val) = Ok (has_type val y)) -> ok_value x ->
  forall d, get x = dict_value d ->
  check_type_dict (check_type n) x (ch "{" :: (render key ++ ch ":" :: render val) ++ [ch "}"]) =
  Ok (forallb (fun kv => has_type val kv.2) (values d)).
Proof.
  intros Hk Hval Hx d Hd. unfold check_type_dict. rewrite Hd, dereference_bracketed by auto.
  set (mid := render key ++ ch ":" :: render val).
  assert (E : is_dict_type (ch "{" :: mid ++ [ch "}"]) = true).
  { unfold is_dict_type, ends_with_char. cbn [starts_with_char length].
    rewrite length_app, app_comm_cons, last_snoc, Nat.add_comm. done. }
  rewrite E. change (teq (ch "{" :: mid ++ [ch "}"]) []) with false. unfold mid.
  cbn [negb mbind outcome_bind]. rewrite separate_kv_printed by done. cbn [mbind outcome_bind].
  apply all_m_pure. destruct x as [v]. cbn [get] in Hd. subst v.
  apply everywhere_dict in Hx as [_ Hx]. eapply Forall_impl; [exact Hx|]. intros kv. apply Hval.
Qed.

Lemma missing_has_type t x : ok t = true -> is_none_or_undefined (get x) = true -> has_type t x = true.
Proof. destruct t. cbn [has_type]. by intros _ ->. Qed.

Lemma render_nonempty t : ok t = true -> is_union t = false -> render t <> [].
Proof.
  intros Hok Hu. destruct (is_scalar_type t) eqn:Es.
  - destruct (scalar_shape t Hok Es) as (c & r & -> & _). done.
  - by destruct t as [k al f]; destruct k.
Qed.

(** One member of a union. *)
Lemma check_atom n t x :
  ok t = true -> is_union t = false -> ok_value x ->
  (forall t' y, ok t' = true -> ok_value y -> (length (render t') < length (render t))%nat ->
     check_type n y (render t') = Ok (has_type t' y)) ->
  check_type (S n) x (render t) = Ok (has_type t x).
Proof.
  intros Hok Hu Hx IH.
  assert (Hun : is_type_union (render t) = false).
  { unfold is_type_union. rewrite (union_scan_split _ _ _ []).
    change (split_scan (render t) 0 [] []) with (split_type_union (render t)).
    rewrite split_render by done. destruct t as [k al f]. by destruct k. }
  destruct (is_none_or_undefined (get x)) eqn:Em.
  { rewrite missing_has_type by done. cbn [check_type]. rewrite Em. by destruct (_ || _). }
  pose proof (ok_name_level x Hx) as Hv. destruct (is_scalar_type t) eqn:Es.
  - destruct (scalar_shape t Hok Es) as (c & r & Er & Ho & Hany).
    destruct (not_bracketed c r Ho) as [Hl Hd].
    rewrite check_scalar, scalar_has; rewrite ?Er; try done. by destruct x.
    by rewrite <- Er.
  - destruct t as [k al f]. destruct k; try done; cbn [render ok] in *.
    + cbn [has_type]. by rewrite orb_true_r.
    + rewrite check_bracketed by auto. cbn [has_type]. rewrite Em. cbn [orb].
      destruct (get x) as [ | | | | | |l|d| | | ] eqn:Eg; try done.
      * apply (check_list_type n _ x); [|done|done]. intros y Hy. apply IH; [done..|].
        simpl. rewrite length_app. simpl. lia.
      * unfold check_type_dict. rewrite Eg. unfold is_dict_type. cbn [starts_with_char].
        by rewrite andb_false_r.
    + rewrite !andb_true_iff in Hok. destruct Hok as [[_ Hk] Hval].
      rewrite check_bracketed by auto. cbn [has_type]. rewrite Em. cbn [orb].
      destruct (get x) as [ | | | | | |l|d| | | ] eqn:Eg; try done.
      * unfold check_type_list. rewrite Eg. unfold is_list_type. cbn [starts_with_char].
        by rewrite andb_false_r.
      * apply (check_dict_type n _ _ x); [done| |done|done]. intros y Hy. apply IH; [done..|].
        simpl. rewrite !length_app. simpl. lia.
Qed.

Lemma check_render n t x :
  ok t = true -> ok_value x -> (length (render t) < n)%nat ->
  check_type n x (render t) = Ok (has_type t x).
Proof.
  revert t x. induction n as [|n IH]; intros t x Hok Hx Hn; [lia|].
  destruct (atoms_ok t Hok) as (Hne & Hat & Er & Hhas).
  pose proof (split_render t Hok) as Hsplit. rewrite Hhas.
  destruct (atoms t) as [|a [|b ts]] eqn:Ea; [done| |].
  - cbn [map join_bars] in Er. rewrite Er in Hn. rewrite Er. cbn [existsb]. rewrite orb_false_r.
    inversion Hat as [|? ? [Hoka Hua] _]; subst. apply check_atom; try done.
    intros t' y Ht' Hy Hlt. apply IH; [done|done|lia].
  - assert (Hu : is_type_union (render t) = true).
    { unfold is_type_union. rewrite (union_scan_split _ _ _ []).
      change (split_scan (render t) 0 [] []) with (split_type_union (render t)). by rewrite Hsplit. }
    assert (E1 : teq (render t) [] = false).
    { apply bool_decide_eq_false. intros E. by rewrite E in Hu. }
    assert (E2 : teq (render t) KCL_TYPE_ANY = false).
    { apply bool_decide_eq_false. intros E. by rewrite E in Hu. }
    destruct (is_none_or_undefined (get x)) eqn:Em.
    { rewrite <- Hhas, missing_has_type by done. cbn [check_type]. by rewrite E1, E2, Em. }
    cbn [check_type]. rewrite E1, E2, Em, Hu. cbn [orb]. unfold check_type_union.
    rewrite Hsplit. change (length (map render (a :: b :: ts)) <=? 1)%nat with false. cbv iota.
    rewrite <- (any_m_pure (fun a => check_type n x (render a)) (fun a => has_type a x)).
    + generalize (a :: b :: ts). clear. intros l. induction l as [|t l IHl]; [done|].
      cbn [map any_m]. by rewrite IHl.
    + apply list.Forall_forall. intros a' Ha'.
      destruct (proj1 (list.Forall_forall _ _) Hat a' Ha') as [Hoka _]. apply IH; [done..|].
      assert (length (render a') < length (render t))%nat; [|lia]. apply split_shorter.
      * rewrite Hsplit. simpl. lia.
      * rewrite Hsplit. by apply list_elem_of_fmap_2.
Qed.
End Atoms.

(** ** The printed type is the text checked *)

Lemma byte_of_val c : byte_of (byte_val c) = c.
Proof. unfold byte_of, byte_val. by rewrite N2Z.id, Ascii.ascii_N_embedding. Qed.

Lemma encode_codes s : forallb is_ascii (codes s) = true -> encode (codes s) = s.
Proof.
  induction s as [|c s IH]; [done|]. rewrite codes_cons. cbn [forallb encode].
  intros [[_ Hc]%andb_true_iff Hs]%andb_true_iff. unfold encode_char.
  rewrite Hc, byte_of_val, str_app_cons, str_app_nil. f_equal. by apply IH.
Qed.

Lemma ascii_scalar t : forallb is_ascii t = true -> forallb is_scalar t = true.
Proof.
  intros H. apply forallb_forall. intros c Hc. pose proof (proj1 (forallb_forall _ _) H c Hc) as Ha.
  unfold is_ascii, is_scalar, in_range in *. lia.
Qed.

Lemma escape_literal t : forallb literal_char t = true -> escape_quotes (encode t) = encode t.
Proof.
  induction t as [|c t IH]; [done|]. cbn [forallb encode]. intros [Hc Ht]%andb_true_iff.
  unfold literal_char, in_range in Hc. rewrite !andb_true_iff, !negb_true_iff, !Z.eqb_neq in Hc.
  destruct Hc as [[[H1 H2] Hq] _]. unfold encode_char. rewrite (proj2 (Z.ltb_lt c 128)) by lia.
  rewrite str_app_cons, str_app_nil. cbn [escape_quotes]. rewrite IH by done.
  rewrite bool_decide_eq_false_2; [done|]. intros E. apply Hq.
  assert (Ev : byte_val (byte_of c) = c) by (apply byte_val_of; lia). rewrite <- Ev, E. done.
Qed.

Definition printed (t : ty) : Prop :=
  ok t = true ->
  into_type_annotation_str t = encode (render t) /\ forallb is_scalar (render t) = true.

Lemma printed_bars ts :
  Forall printed ts -> forallb ok ts = true ->
  str_join "|" (map into_type_annotation_str ts) = encode (join_bars (map render ts)) /\
  forallb is_scalar (join_bars (map render ts)) = true.
Proof.
  induction 1 as [|t ts Ht _ IH]; [done|]. cbn [forallb]. intros [Hot Hok]%andb_true_iff.
  destruct (Ht Hot) as [E1 E2]. destruct ts as [|t2 ts]; [done|].
  destruct (IH Hok) as [E3 E4].
  change (join_bars (map render (t :: t2 :: ts)))
    with (render t ++ [ch "|"] ++ join_bars (map render (t2 :: ts))).
  change (str_join "|" (map into_type_annotation_str (t :: t2 :: ts)))
    with (into_type_annotation_str t +:+ "|" +:+ str_join "|" (map into_type_annotation_str (t2 :: ts))).
  rewrite E1, E3, !encode_app, !forallb_app, E2, E4. done.
Qed.

Lemma printed_render t : printed t.
Proof.
  induction t as [k al f IH] using ty_induction. intros Hok.
  destruct k; cbn [ok] in Hok; try done; cbn [render into_type_annotation_str subtypes] in *.
  - by destruct b.
  - rewrite chars_codes by apply number_char_ascii, pretty_Z_number. split.
    + by rewrite encode_codes by apply number_char_ascii, pretty_Z_number.
    + apply ascii_scalar, number_char_ascii, pretty_Z_number.
  - destruct (literal_text s Hok) as (_ & Hl & He).
    change (quote :: chars s ++ [quote]) with ([quote] ++ chars s ++ [quote]).
    rewrite !encode_app, !forallb_app. rewrite <- He at 1. rewrite escape_literal, He by done.
    split; [done|]. unfold literal_ok in Hok. rewrite !andb_true_iff in Hok.
    destruct Hok as [[[_ Hs] _] _]. by rewrite Hs.
  - destruct (IH Hok) as [E1 E2]. change (ch "[" :: render item_ty ++ [ch "]"])
      with ([ch "["] ++ render item_ty ++ [ch "]"]).
    by rewrite !encode_app, !forallb_app, E1, E2.
  - rewrite !andb_true_iff in Hok. destruct Hok as [[Hk _] Hv]. destruct IH as [IH1 IH2].
    destruct (IH1 Hk) as [E1 E2], (IH2 Hv) as [E3 E4].
    change (ch "{" :: (render key_ty ++ ch ":" :: render val_ty) ++ [ch "}"])
      with ([ch "{"] ++ (render key_ty ++ [ch ":"] ++ render val_ty) ++ [ch "}"]).
    rewrite !encode_app, !forallb_app, E1, E2, E3, E4, !str_app_assoc. done.
  - apply andb_true_iff in Hok as [_ Hok]. by apply printed_bars.
  - rewrite !andb_true_iff in Hok. destruct Hok as [[He%bool_decide_eq_true_1 Hs] _]. auto.
  - apply negb_true_iff in Hok. by rewrite Hok.
Qed.

(** C7: The runtime check of a value against a printed type is membership in the type.  The
    compiler prints the type with [into_type_annotation_str] and the compiled program checks
    the value against the text: splitting the text at its bars, brackets and colons finds
    the parts of the type again, whatever their nesting, and no scalar type name or literal
    is mistaken for another. *)
Theorem check_type_of_annotation {R : Regexes} `{!RegexLaws R, DebugTables} t x fuel :
  ok t = true -> ok_value x -> (length (render t) < fuel)%nat ->
  check_type fuel x (chars (into_type_annotation_str t)) = Ok (has_type t x).
Proof.
  intros Hok Hx Hf. destruct (printed_render t Hok) as [-> Hs]. rewrite chars_encode by done.
  by apply check_render.
Qed.

(** A concrete matcher: up to the closing quote, escapes skipped; digits and a suffix. *)
Fixpoint to_quote (q : char) (s : text) : option text :=
  match s with
  | [] => None
  | c :: s' =>
      if c =? q then Some [c]
      else if c =? ch "\" then None
      else cons c <$> to_quote q s'
  end.
Definition find_quoted (q : char) (s : text) : option text :=
  match s with c :: s' => if c =? q then cons c <$> to_quote q s' else None | [] => None end.
#[local] Instance quoted_regexes : Regexes := {|
  find_double_quoted := find_quoted quote;
  find_single_quoted := find_quoted apostrophe;
  is_number_multiplier := fun t =>
    match rev t with
    | u :: (_ :: _) as ds => bool_decide (u ∈ [ch "K"; ch "M"; ch "G"; ch "k"; ch "m"]) &&
        match t with c :: _ => is_digit10 c | [] => false end
    | _ => false
    end;
|}.

#[local] Instance quoted_laws : RegexLaws quoted_regexes.
Proof.
  split.
  - intros s rest _ Hs. cbn [find_double_quoted quoted_regexes find_quoted].
    change (quote =? quote) with true. cbv iota.
    assert (E : to_quote quote (s ++ quote :: rest) = Some (s ++ [quote])); [|by rewrite E].
    induction s as [|c s IH]; [done|]. cbn [forallb] in Hs. apply andb_true_iff in Hs as [Hc Hs].
    unfold literal_char in Hc. rewrite !andb_true_iff, !negb_true_iff in Hc.
    destruct Hc as [[_ Hq] Hb]. cbn [app to_quote]. by rewrite Hq, Hb, IH.
  - intros c t. cbn [is_number_multiplier quoted_regexes].
    destruct (rev (c :: t)) as [|u [|v l]]; try done. by intros [_ H]%andb_true_iff.
  - intros t. cbn [is_number_multiplier quoted_regexes].
    destruct (rev t) as [|u [|v l]] eqn:E; try done. intros [Hu _]%andb_true_iff.
    apply bool_decide_eq_true_1 in Hu.
    assert (Hd : is_digit10 u = false).
    { repeat (apply elem_of_cons in Hu as [->|Hu]; [done|]). by apply elem_of_nil in Hu. }
    apply not_true_iff_false. intros Ht. assert (Hin : u ∈ t).
    { apply list_elem_of_In, in_rev. rewrite E. by left. }
    pose proof (forallb_elem _ _ _ Ht Hin). congruence.
Qed.

Lemma check_type_of_annotation_witness :
  let t := TypeData.mkType (KUnion [mkType (KList (mkType (KDict (mkType KStr false 0)
             (mkType (KUnion [mkType KInt false 0; mkType (KStrLit "a|b]") false 0]) false 0)) false 0)) false 0;
             mkType (KIntLit 12) false 0]) false 0 in
  let x := v_list [v_dict [("k", v_str "a|b]"); ("l", v_int 3)]] in
  into_type_annotation_str t =
    encode (txt "[{str:int|" ++ quote :: txt "a|b]" ++ quote :: txt "}]|12") /\
  check_type 100 x (chars (into_type_annotation_str t)) = Ok true.
Proof.
  intros t x. split; [vm_compute; reflexivity|].
  rewrite (check_type_of_annotation t x 100); [vm_compute; reflexivity|vm_compute; reflexivity| |vm_compute; lia].
  unfold x. repeat (first [split | apply utf8_check; vm_compute; reflexivity | constructor
    | vm_compute; set_solver]).
Defined.
