(* ===== verification/SubSpec.v ===== *)
(** * What subtyping is documented to be

    [Unify] proves that [subsume] computes [SubBy spelled], where a literal is below the
    primitive types whose names its rendering contains.  The comment in the code says
    [float_lit -> float], [int_lit -> int], [bool_lit -> bool], [str_lit -> str] and
    [int_lit/bool_lit -> float]: here is that relation, and how far the code has it. *)

From S2P Require Import Prelude MachineInt Floats Chars TypeData Unify SubOrder TypeAnnotation.

(** A literal is below its own primitive type. *)
Definition widens (l r : ty) : Prop := kind r = own_prim (kind l).
Notation Sub := (SubBy widens).

(** No string literal in the type contains the name of another primitive type. *)
Definition spells_no_type_text (s : string) : bool :=
  negb (str_contains s "bool" || str_contains s "int" || str_contains s "float").
Fixpoint spells_no_type (t : ty) : bool :=
  match kind t with
  | KStrLit s => spells_no_type_text s
  | KList item => spells_no_type item
  | KDict key val => spells_no_type key && spells_no_type val
  | KUnion types => forallb spells_no_type types
  | _ => true
  end.

(** ** The renderings of literals *)

(** What contains a text has its characters. *)
Lemma contains_codes s p c : str_contains s p = true -> c ∈ codes p -> c ∈ codes s.
Proof. intros (s1 & s2 & ->)%str_contains_spec Hc. rewrite !codes_app, !elem_of_app. auto. Qed.

Lemma number_lacks s c : forallb number_char (codes s) = true -> number_char c = false -> c ∉ codes s.
Proof.
  intros Hs Hc Hin. rewrite forallb_forall in Hs. apply list_elem_of_In, Hs in Hin. congruence.
Qed.

(** A text between brackets does not contain a name because of them. *)
Lemma contains_closed s p : ")"%char ∉ String.list_ascii_of_string p -> p <> "" ->
  str_contains (s +:+ ")") p = str_contains s p.
Proof.
  intros Hp Hne. assert (Hs : forall q s, ")"%char ∉ String.list_ascii_of_string q ->
    starts_with q (s +:+ ")") = starts_with q s).
  { induction q as [|c q IH]; intros [|d t] Hq; try done.
    - simpl in *. by rewrite bool_decide_eq_false_2 by set_solver.
    - rewrite str_app_cons. simpl in *. by rewrite IH by set_solver. }
  induction s as [|c s IH].
  - destruct p as [|d p]; [done|]. simpl in *. by rewrite bool_decide_eq_false_2 by set_solver.
  - rewrite str_app_cons, !(str_contains_eq (String c _)), IH, <- str_app_cons, Hs by done. done.
Qed.

Lemma number_rendering_clean name s p c :
  forallb number_char (codes s) = true -> number_char c = false -> c ∈ codes p ->
  c ∉ codes name -> c <> 40 -> c <> 41 -> str_contains (name +:+ "(" +:+ s +:+ ")") p = false.
Proof.
  intros Hs Hc Hp Hn H1 H2. apply not_true_is_false. intros Hin.
  apply (contains_codes _ _ _ Hin) in Hp. rewrite !codes_app, !elem_of_app in Hp.
  pose proof (number_lacks _ _ Hs Hc). cbn in Hp. set_solver.
Qed.

Lemma peel c s p : starts_with p (String c s) = false -> str_contains (String c s) p = str_contains s p.
Proof. intros H. by rewrite str_contains_eq, H. Qed.

Lemma int_rendering_clean (z : Z) p : p ∈ [BOOL_TYPE_STR; FLOAT_TYPE_STR; STR_TYPE_STR] ->
  str_contains (INT_TYPE_STR +:+ "(" +:+ pretty z +:+ ")") p = false.
Proof.
  assert (forall c, c ∈ codes p -> number_char c = false -> c ∉ codes INT_TYPE_STR -> c <> 40 -> c <> 41 ->
    str_contains (INT_TYPE_STR +:+ "(" +:+ pretty z +:+ ")") p = false) as Hn
    by (intros c ?????; eapply number_rendering_clean; [apply pretty_Z_number|..]; done).
  rewrite !elem_of_cons, elem_of_nil. intros [->|[->|[->|[]]]];
    [apply (Hn (ch "b"))|apply (Hn (ch "l"))|apply (Hn (ch "s"))]; try done; vm_compute; set_solver.
Qed.

Lemma float_rendering_clean x p : p ∈ [BOOL_TYPE_STR; INT_TYPE_STR; STR_TYPE_STR] ->
  str_contains (FLOAT_TYPE_STR +:+ "(" +:+ f64_display x +:+ ")") p = false.
Proof.
  intros Hp. pose proof (f64_display_number x) as Hx.
  change (FLOAT_TYPE_STR +:+ "(" +:+ f64_display x +:+ ")") with
    (String "f" (String "l" (String "o" (String "a" (String "t" ("" +:+ "(" +:+ f64_display x +:+ ")")))))).
  rewrite !peel by (rewrite !elem_of_cons, elem_of_nil in Hp; naive_solver).
  assert (forall c, c ∈ codes p -> number_char c = false -> c <> 40 -> c <> 41 ->
    str_contains ("" +:+ "(" +:+ f64_display x +:+ ")") p = false) as Hn
    by (intros c ????; eapply number_rendering_clean; try done; vm_compute; set_solver).
  rewrite !elem_of_cons, elem_of_nil in Hp. destruct Hp as [->|[->|[->|[]]]];
    [apply (Hn (ch "b"))|apply (Hn (ch "t"))|apply (Hn (ch "s"))]; try done; vm_compute; set_solver.
Qed.

Lemma str_rendering s p : p ∈ [BOOL_TYPE_STR; INT_TYPE_STR; FLOAT_TYPE_STR] ->
  str_contains (STR_TYPE_STR +:+ "(" +:+ s +:+ ")") p = str_contains s p.
Proof.
  intros Hp. change (STR_TYPE_STR +:+ "(" +:+ s +:+ ")") with
    (String "s" (String "t" (String "r" (String "(" (s +:+ ")"))))).
  rewrite !peel by (rewrite !elem_of_cons, elem_of_nil in Hp; naive_solver).
  apply contains_closed; rewrite !elem_of_cons, elem_of_nil in Hp;
    destruct Hp as [->|[->|[->|[]]]]; try done; vm_compute; set_solver.
Qed.

Lemma literal_clean l :
  lit_kind (kind l) = true -> spells_no_type l = true -> lit_clean l = true.
Proof.
  destruct l as [[ | | |b| |z| |x| |s| | | | | | | | | ] a f]; try done; intros _ Hs;
    unfold lit_clean, primitives; cbn [forallb kind own_prim kind_eqb ty_str BOOL INT FLOAT STR].
  - by destruct b.
  - rewrite (int_rendering_clean z BOOL_TYPE_STR), (int_rendering_clean z FLOAT_TYPE_STR),
      (int_rendering_clean z STR_TYPE_STR) by set_solver. done.
  - rewrite (float_rendering_clean x BOOL_TYPE_STR), (float_rendering_clean x INT_TYPE_STR),
      (float_rendering_clean x STR_TYPE_STR) by set_solver. done.
  - cbn in Hs. unfold spells_no_type_text in Hs.
    rewrite (str_rendering s BOOL_TYPE_STR), (str_rendering s INT_TYPE_STR), (str_rendering s FLOAT_TYPE_STR) by set_solver.
    change BOOL_TYPE_STR with "bool". change INT_TYPE_STR with "int". change FLOAT_TYPE_STR with "float".
    by destruct (str_contains s "bool"), (str_contains s "int"), (str_contains s "float").
Qed.

(** ** The tests of the code against the documented relation *)

Lemma documented_spelled l r : lit_kind (kind l) = true -> widens l r -> spelled l r.
Proof.
  unfold widens, spelled. intros Hl E. destruct r as [k a f]. simpl in E. subst k.
  destruct l as [[] al fl]; try discriminate Hl; apply str_contains_prefix.
Qed.

Lemma Sub_TextSub c l r : Sub c l r -> TextSub c l r.
Proof.
  induction 1.
  all: try solve [econstructor; eauto using documented_spelled].
Qed.

Lemma spells_members t ts u : spells_no_type t = true -> kind t = KUnion ts -> u ∈ ts -> spells_no_type u = true.
Proof.
  destruct t as [k a f]. cbn. intros Ht ->. rewrite forallb_forall in Ht. intros. by apply Ht, list_elem_of_In.
Qed.

Lemma TextSub_Sub c l r : TextSub c l r -> spells_no_type l = true -> Sub c l r.
Proof.
  induction 1 as [| | |c l r ts El _ IH|c l r ts t Er Ht _ IH| | | | | | |c l r El Er Hs|c l r x y El Er _ IH
    |c l r k v k' v' El Er _ IHk _ IHv|]; intros Hl; try solve [econstructor; eauto].
  - eapply Sub_union_l; [done|]. intros t Ht. apply IH; [done|]. by eapply spells_members.
  - eapply Sub_lit_prim; [done..|]. apply lit_clean_prim; auto using literal_clean.
  - eapply Sub_list; [done..|]. apply IH. destruct l as [k a f]. simpl in *. by subst k.
  - destruct l as [k0 a f]. simpl in El. subst k0. apply andb_true_iff in Hl as [Hk Hv].
    eapply Sub_dict; [done..| |]; auto.
Qed.

(** ** Properties *)



(** C39: the documented relation is not what the code tests: a string literal that contains the
    name of another primitive type, as ["print"] contains [int], is no subtype of that type,
    and can be assigned to it. *)
Theorem str_literal_named_as_type_is_subsumed s p :
  p ∈ [BOOL; INT; FLOAT] -> str_contains s (ty_str p) = true ->
  ~ Sub true (str_lit s) p /\ assignable_to (str_lit s) p = Ok true.
Proof.
  intros Hp Hs. rewrite !elem_of_cons, elem_of_nil in Hp. split.
  - intros HS. destruct Hp as [->|[->|[->|[]]]]; inversion HS as [| | | | | | | | |? ? ? _ E|? ? ? _ Hn|? ? ? _ _ Hw| | |];
      try done; simpl in *; try discriminate; by eapply Hn.
  - unfold assignable_to. change (negb _) with false. cbv iota.
    apply subsume_complete; [|done|by destruct Hp as [->|[->|[->|[]]]]].
    apply Sub_lit_prim; [done|by destruct Hp as [->|[->|[->|[]]]]|]. unfold spelled.
    change (ty_str (str_lit s)) with (STR_TYPE_STR +:+ "(" +:+ s +:+ ")").
    rewrite str_rendering; [done|]. destruct Hp as [->|[->|[->|[]]]]; set_solver.
Qed.

Lemma str_literal_named_as_type_is_subsumed_witness :
  ~ Sub true (str_lit "print") INT /\ assignable_to (str_lit "print") INT = Ok true.
Proof. apply str_literal_named_as_type_is_subsumed; [set_solver|vm_compute; reflexivity]. Defined.
