(* ===== verification/TypeParserLaws.v ===== *)
(** * Reading the printed type

    [TypeData.into_type_annotation_str] prints a type for the compiler and for type aliases;
    [TypeParser.parse_type] reads a type string.  The reading of a printed type is the type,
    with schemas as names and the members of a union joined. *)

From S2P Require Import Prelude MachineInt Floats Chars Utf8 StrLiteral Value TypeString TypeAnnotation.
From S2P Require Import TypeData Unify SubOrder Sup.
From S2P Require ParserExpr ParserStmt.
Import ParserExpr(lower_char, f64_parse, f64_sign, take_digits) ParserStmt(i64_parse).
From S2P Require Import Units TypeParser.
#[local] Notation is_union := TypeAnnotation.is_union.

(** What is used of the regular expressions: a match lies in the text, a string without
    quotes, backslashes and line ends is a match, and a number multiplier begins with a
    digit and is more than digits. *)
Class TypeRegexLaws (T : TypeRegexes) : Prop := {
  double_end_in : forall t e, double_quoted_end t = Some e -> 1 <= e <= str_len t;
  single_end_in : forall t e, single_quoted_end t = Some e -> 1 <= e <= str_len t;
  double_end_literal : forall s rest, s <> [] -> forallb literal_char s = true ->
    double_quoted_end (quote :: s ++ quote :: rest) = Some (Z.of_nat (length s) + 2);
  type_multiplier_head : forall c t, number_multiplier_regex (c :: t) = true -> is_digit10 c = true;
  type_multiplier_suffix : forall t, number_multiplier_regex t = true -> forallb is_digit10 t = false;
}.

(** The regular expressions of the runtime, which look at the matched text. *)
Definition runtime_regexes (T : TypeRegexes) : Regexes := {|
  find_double_quoted t := e ← double_quoted_end t; Some (take (Z.to_nat e) t);
  find_single_quoted t := e ← single_quoted_end t; Some (take (Z.to_nat e) t);
  TypeString.is_number_multiplier := number_multiplier_regex |}.

Section Laws.
Context {T : TypeRegexes} {TL : TypeRegexLaws T}.
#[local] Instance derived_regexes : Regexes := runtime_regexes T.

#[local] Instance derived_laws : RegexLaws derived_regexes.
Proof.
  split; [|exact type_multiplier_head|exact type_multiplier_suffix].
  intros s rest Hne Hs. cbn. rewrite double_end_literal by done. cbn. f_equal.
  replace (Z.to_nat (Z.of_nat (length s) + 2)) with (S (length s + 1)) by lia. cbn [take]. f_equal.
  rewrite take_app_ge by lia. f_equal. by replace (length s + 1 - length s)%nat with 1%nat by lia.
Qed.

(** ** The scans on ASCII text *)

Lemma ascii_at (a t : text) : forallb is_ascii (a ++ t) = true -> drop_bytes (Z.of_nat (length a)) (a ++ t) = Ok t.
Proof. rewrite forallb_app. intros [Ha Ht]%andb_true_iff. apply (ascii_slices a t Ha Ht). Qed.

Lemma quoted_skip_ascii a c t : forallb is_ascii (a ++ c :: t) = true ->
  quoted_skip c (Z.of_nat (length a)) (a ++ c :: t) = Ok (literal_skip (c :: t)).
Proof.
  intros Ha. unfold quoted_skip, literal_skip. change quote with 34. change apostrophe with 39.
  assert (Hlen : forall e, e <= str_len (c :: t) -> 1 <= e ->
    (length (take (Z.to_nat e) (c :: t)) - 1)%nat = Z.to_nat (e - 1)).
  { intros e He H1. rewrite forallb_app in Ha. apply andb_true_iff in Ha as [_ Ha].
    rewrite ascii_len in He by done. rewrite length_take. lia. }
  destruct (c =? 34).
  { rewrite ascii_at by done. cbn. destruct (double_quoted_end (c :: t)) as [e|] eqn:E; [|done]. cbn.
    destruct (double_end_in _ _ E). by rewrite <- Hlen. }
  destruct (c =? 39); [|done]. rewrite ascii_at by done. cbn.
  destruct (single_quoted_end (c :: t)) as [e|] eqn:E; [|done]. cbn.
  destruct (single_end_in _ _ E). by rewrite <- Hlen.
Qed.

Lemma next_index (a : text) (c : char) : Z.of_nat (length a) + 1 = Z.of_nat (length (a ++ [c])).
Proof. rewrite length_app. cbn [length]. lia. Qed.

Lemma union_loop_ascii t : forall a skip stack, forallb is_ascii (a ++ t) = true ->
  union_loop t (Z.of_nat (length a)) skip stack (a ++ t) = Ok (union_scan t skip stack).
Proof.
  induction t as [|c t IH]; intros a skip stack Ha; [done|]. cbn [union_loop union_scan].
  rewrite (next_index a c). assert (E : a ++ c :: t = (a ++ [c]) ++ t) by (by rewrite <- app_assoc).
  destruct skip as [|skip]; [|rewrite E in *; by apply IH].
  destruct ((c =? ch "|") && bool_decide (stack = [])); [done|].
  change (is_open_bracket c) with (is_open c). change (is_close_bracket c) with (is_close c).
  destruct (is_open c); [rewrite E in *; by apply IH|]. destruct (is_close c); [rewrite E in *; by apply IH|].
  rewrite quoted_skip_ascii by done. cbn [mbind outcome_bind]. rewrite E in *. by apply IH.
Qed.

Lemma split_loop_ascii t : forall a part skip stack, forallb is_ascii (a ++ part ++ t) = true ->
  split_loop t (Z.of_nat (length (a ++ part))) skip stack (Z.of_nat (length a)) (a ++ part ++ t) =
  Ok (split_scan t skip stack part).
Proof.
  induction t as [|c t IH]; intros a part skip stack Ha.
  { cbn [split_loop split_scan]. rewrite ascii_at by done. cbn. by rewrite app_nil_r. }
  cbn [split_loop split_scan]. rewrite (next_index (a ++ part) c).
  assert (Hgo : forall skip stack,
    split_loop t (Z.of_nat (length ((a ++ part) ++ [c]))) skip stack (Z.of_nat (length a)) (a ++ part ++ c :: t) =
    Ok (split_scan t skip stack (part ++ [c]))).
  { intros sk st. rewrite <- app_assoc. replace (a ++ part ++ c :: t) with (a ++ (part ++ [c]) ++ t)
      by (by rewrite <- (app_assoc part)). apply IH. by rewrite <- (app_assoc part). }
  destruct skip as [|skip]; [|by apply Hgo].
  destruct ((c =? ch "|") && bool_decide (stack = [])).
  { assert (Hs : slice (Z.of_nat (length a)) (Z.of_nat (length (a ++ part))) (a ++ part ++ c :: t) = Ok part).
    { unfold slice. rewrite (proj2 (Z.ltb_ge _ _)) by (rewrite length_app; lia). rewrite ascii_at by done.
      cbn [mbind outcome_bind]. replace (Z.of_nat (length (a ++ part)) - Z.of_nat (length a)) with (Z.of_nat (length part))
        by (rewrite length_app; lia).
      rewrite forallb_app in Ha. apply andb_true_iff in Ha as [_ Ha]. rewrite forallb_app in Ha.
      apply andb_true_iff in Ha as [H1 H2]. apply (ascii_slices part (c :: t) H1 H2). }
    rewrite Hs. cbn [mbind outcome_bind].
    assert (E : a ++ part ++ c :: t = ((a ++ part) ++ [c]) ++ [] ++ t) by (cbn [app]; by rewrite <- !app_assoc).
    pose proof (IH ((a ++ part) ++ [c]) [] O stack) as IH'. rewrite app_nil_r in IH'. rewrite E in *.
    rewrite IH' by done. reflexivity. }
  change (is_open_bracket c) with (is_open c). change (is_close_bracket c) with (is_close c).
  destruct (is_open c); [apply Hgo|]. destruct (is_close c); [apply Hgo|].
  assert (E : a ++ part ++ c :: t = (a ++ part) ++ c :: t) by apply app_assoc.
  rewrite E at 1. rewrite quoted_skip_ascii by (by rewrite <- E). cbn [mbind outcome_bind]. apply Hgo.
Qed.

Lemma split_ascii s : forallb is_ascii s = true -> split_type_union_str s = Ok (split_type_union s).
Proof. intros H. apply (split_loop_ascii s [] [] O [] H). Qed.

Lemma union_ascii s : forallb is_ascii s = true ->
  is_union_type_str s = Ok (1 <? length (split_type_union s))%nat.
Proof.
  intros H. unfold is_union_type_str, split_type_union. rewrite <- union_scan_split.
  apply (union_loop_ascii s [] O [] H).
Qed.

(** ** Literals *)

Lemma f64_parse_head c t :
  is_digit10 c = false -> c <> ch "-" -> c <> ch "+" -> c <> ch "." ->
  lower_char c <> ch "i" -> lower_char c <> ch "n" -> f64_parse (c :: t) = None.
Proof.
  intros Hd H1 H2 H3 H4 H5. unfold f64_parse, f64_sign.
  rewrite (proj2 (Z.eqb_neq c _)), (proj2 (Z.eqb_neq c _)) by done. cbn [map].
  rewrite !bool_decide_false by (intros [= ? _]; done). cbn [orb take_digits]. rewrite Hd.
  by rewrite (proj2 (Z.eqb_neq c _)) by done.
Qed.

Lemma i64_parse_head c t : is_digit10 c = false -> c <> ch "-" -> c <> ch "+" -> i64_parse (c :: t) = None.
Proof.
  intros Hd H1 H2. unfold i64_parse, f64_sign.
  rewrite (proj2 (Z.eqb_neq c _)), (proj2 (Z.eqb_neq c _)) by done. cbn [take_digits]. by rewrite Hd.
Qed.

Section Eval.
Context (oc : bool) `{UnicodeTables}.

Lemma literal_loop_plain s : forall fuel acc, forallb literal_char s = true -> (length s < fuel)%nat ->
  literal_loop oc fuel quote false false false (s ++ [quote]) acc = Ok (Some (acc ++ s)).
Proof.
  induction s as [|c s IH]; intros fuel acc Hs Hf; (destruct fuel as [|fuel]; [cbn in Hf; lia|]).
  - cbn. by rewrite app_nil_r.
  - cbn [forallb] in Hs. apply andb_true_iff in Hs as [Hc Hs]. unfold literal_char, in_range in Hc.
    rewrite !andb_true_iff, !negb_true_iff, !Z.eqb_neq in Hc. change (ch "\") with 92 in Hc.
    cbn [app literal_loop next_char]. rewrite (proj2 (Z.eqb_neq c 92)), (proj2 (Z.eqb_neq c quote)) by lia.
    rewrite (proj2 (Z.eqb_neq c 10)) by lia. cbn [andb orb]. rewrite IH by (done || (cbn in Hf; lia)).
    by rewrite <- app_assoc.
Qed.

Lemma str_literal_eval_plain s : s <> [] -> forallb literal_char s = true ->
  str_literal_eval oc (quote :: s ++ [quote]) false false = Ok (Some s).
Proof.
  intros Hne Hs. destruct s as [|c s]; [done|]. cbn [forallb] in Hs. apply andb_true_iff in Hs as [Hc Hs].
  unfold str_literal_eval. cbn [app].
  assert (E : c =? quote = false).
  { unfold literal_char in Hc. rewrite !andb_true_iff, !negb_true_iff in Hc. apply Hc. }
  rewrite E. change (c :: s ++ [quote]) with ((c :: s) ++ [quote]).
  rewrite literal_loop_plain; [done| |rewrite length_app; cbn; lia]. cbn [forallb]. by rewrite Hc.
Qed.

Lemma quoted_is_literal s : is_literal_type_str (quote :: s ++ [quote]) = true.
Proof.
  unfold is_literal_type_str. rewrite bool_decide_false.
  - cbn [head_is]. change (quote =? 34) with true. cbv iota. unfold last_is.
    by rewrite app_comm_cons, last_snoc.
  - cbn. rewrite !elem_of_cons, elem_of_nil. intros Hin. destruct_or!; discriminate Hin || done.
Qed.

Lemma parse_quoted s : s <> [] -> forallb literal_char s = true ->
  parse_lit_type_str oc (quote :: s ++ [quote]) = Ok (str_lit (encode s)).
Proof.
  intros Hne Hs. unfold parse_lit_type_str, teqb. rewrite !bool_decide_false by (by intros [=]).
  rewrite i64_parse_head, f64_parse_head by done. by rewrite str_literal_eval_plain.
Qed.

Lemma chars_pretty (z : Z) : chars (pretty z) = txt (pretty z).
Proof. apply (chars_codes (pretty z)), number_char_ascii, pretty_Z_number. Qed.

Lemma integer_is_literal z : 0 <= z -> is_literal_type_str (txt (pretty z)) = true.
Proof.
  intros Hz. destruct (pretty_digits z Hz) as (c & t & E & Hd & Ht). rewrite E.
  cbn [forallb] in Hd. apply andb_true_iff in Hd as [Hc Hd].
  assert (Hr : 48 <= c <= 57).
  { unfold is_digit10, in_range in Hc. change (ch "0") with 48 in Hc. change (ch "9") with 57 in Hc. lia. }
  unfold is_literal_type_str. rewrite bool_decide_false.
  2: { cbn. rewrite !elem_of_cons, elem_of_nil. intros Hin. destruct_or!; try done;
       injection Hin as Hin _; subst c; destruct Hr as [_ Hr]; by vm_compute in Hr. }
  cbn [head_is]. rewrite (proj2 (Z.eqb_neq c 34)), (proj2 (Z.eqb_neq c 39)) by lia.
  apply bool_decide_eq_true. unfold f64_parse. rewrite digit_no_sign by done.
  assert (Hlow : lower_char c = c) by (unfold lower_char, in_range; change (ch "A") with 65; change (ch "Z") with 90;
    rewrite (proj2 (Z.leb_gt _ _)) by lia; done).
  cbn [map]. rewrite Hlow. rewrite !bool_decide_false by (intros [= ? _]; subst c; destruct Hr as [_ Hr]; by vm_compute in Hr). cbn [orb].
  specialize (Ht []). rewrite app_nil_r in Ht. rewrite Ht. cbn. by eexists.
Qed.

Lemma parse_integer z : in_i64 z = true -> parse_lit_type_str oc (txt (pretty z)) = Ok (int_lit z).
Proof.
  intros Hz. unfold parse_lit_type_str. assert (Hc : forallb number_char (txt (pretty z)) = true) by apply pretty_Z_number.
  unfold teqb. rewrite !bool_decide_false by (intros E; rewrite E in Hc; discriminate Hc).
  by rewrite i64_parse_pretty.
Qed.
End Eval.

(** ** What the reader gives back *)

(** Beyond [ok]: no [None], integers of 64 bits, and the names are ASCII, without blanks and
    no number. *)
Fixpoint readable (t : ty) : bool :=
  let 'mkType k _ _ := t in
  match k with
  | KNone => false
  | KIntLit n => in_i64 n
  | KList item => readable item
  | KDict key val => readable key && readable val
  | KUnion types => forallb readable types
  | KSchema s =>
      let u := chars (ty_str_with_pkgpath s) in
      forallb (fun c => is_ascii c && negb (is_strip_char c)) u && bool_decide (f64_parse u = None)
  | _ => true
  end.

(** A single member is itself, several are joined. *)
Definition joined (members : list ty) : outcome ty :=
  match members with [t] => Ok t | _ => sup members end.

(** The members of a type, with names for schemas. *)
Fixpoint members (t : ty) : outcome (list ty) :=
  let 'mkType k _ _ := t in
  match k with
  | KUnion types => ms ← map_m members types; Ok (concat ms)
  | KList item => m ← members item; x ← joined m; Ok [list_of x]
  | KDict key val =>
      k ← members key; k ← joined k; v ← members val; v ← joined v; Ok [dict_of k v]
  | KSchema s => Ok [named (ty_str_with_pkgpath s)]
  | KNumberMultiplier _ => Ok [named NUMBER_MULTIPLIER_PKG_TYPE_STR]
  | _ => Ok [mkType k false (kind_flags k)]
  end.
Definition read_back (t : ty) : outcome ty := m ← members t; joined m.

Lemma map_m_app {A B} (f : A -> outcome B) l1 l2 :
  map_m f (l1 ++ l2) = (x ← map_m f l1; y ← map_m f l2; Ok (x ++ y)).
Proof.
  induction l1 as [|a l1 IH]; cbn; [by destruct (map_m f l2)|]. destruct (f a); cbn; [|done].
  fold (map_m f). rewrite IH. destruct (map_m f l1); cbn; [|done]. by destruct (map_m f l2).
Qed.

Lemma members_single t : is_union t = false ->
  members t = (x ← read_back t; Ok [x]).
Proof.
  destruct t as [k al f]. destruct k; try done; intros _; unfold read_back; cbn [members]; try reflexivity.
  - destruct (members item_ty) as [m|]; [|done]. cbn. by destruct (joined m).
  - destruct (members key_ty) as [m|]; [|done]. cbn. destruct (joined m); [|done]. cbn.
    destruct (members val_ty) as [m'|]; [|done]. cbn. by destruct (joined m').
Qed.

(** The members are those of the atoms. *)
Lemma members_atoms t : members t = map_m read_back (atoms t).
Proof.
  induction t as [k al f IH] using ty_induction.
  destruct (is_union (mkType k al f)) eqn:Eu.
  2: { replace (atoms (mkType k al f)) with [mkType k al f] by (by destruct k). rewrite members_single by done.
       cbn [map_m]. by destruct (read_back _). }
  destruct k; try done. cbn [subtypes members atoms] in *. clear Eu.
  induction IH as [|t ts Ht Hts IHts]; [done|]. cbn [map_m map concat]. rewrite Ht, map_m_app.
  destruct (map_m read_back (atoms t)); cbn; [|done]. fold (@map_m ty (list ty) members).
  rewrite <- IHts. by destruct (map_m members ts).
Qed.

Lemma atoms_readable t : readable t = true -> Forall (fun a => readable a = true) (atoms t).
Proof.
  induction t as [k al f IH] using ty_induction. intros Hr.
  destruct (is_union (mkType k al f)) eqn:Eu; [|replace (atoms (mkType k al f)) with [mkType k al f] by (by destruct k); by constructor].
  destruct k; try done. cbn [readable atoms subtypes] in *. clear Eu.
  induction IH as [|t ts Ht Hts IHts]; [by constructor|]. cbn [forallb] in Hr. apply andb_true_iff in Hr as [H1 H2].
  cbn [map concat]. apply Forall_app. auto.
Qed.

(** ** The printed text *)

Lemma txt_ascii s : forallb is_ascii (txt s) = true -> chars s = txt s.
Proof. apply chars_codes. Qed.

Lemma literal_chars_ascii s : forallb literal_char s = true -> forallb is_ascii s = true.
Proof.
  intros H. apply forallb_forall. intros c Hc. pose proof (proj1 (forallb_forall _ _) H c Hc) as Hl.
  unfold literal_char, in_range, is_ascii in *. lia.
Qed.

Lemma join_bars_all (f : char -> bool) l : f (ch "|") = true ->
  Forall (fun t => forallb f t = true) l -> forallb f (join_bars l) = true.
Proof.
  intros Hb Hl. induction Hl as [|t l Ht Hl IH]; [done|]. destruct l as [|u l]; [done|].
  cbn [join_bars] in *. rewrite forallb_app. cbn [forallb]. by rewrite Ht, Hb, IH.
Qed.

Lemma render_ascii t : ok t = true -> readable t = true -> forallb is_ascii (render t) = true.
Proof.
  induction t as [k al f IH] using ty_induction. intros Hok Hr.
  destruct k; cbn [ok readable render subtypes] in *; try done.
  - by destruct b.
  - rewrite chars_pretty. apply number_char_ascii, pretty_Z_number.
  - destruct (literal_text _ Hok) as (_ & Hl & _). cbn [forallb]. rewrite forallb_app, literal_chars_ascii by done. done.
  - cbn [forallb]. rewrite forallb_app, IH by done. done.
  - destruct IH as [IH1 IH2]. apply andb_true_iff in Hr as [? ?], Hok as [[? _]%andb_true_iff ?].
    cbn [forallb]. rewrite !forallb_app. cbn [forallb]. by rewrite IH1, IH2.
  - apply andb_true_iff in Hok as [_ Hok]. apply join_bars_all; [done|].
    induction IH as [|t ts Ht Hts IHts]; [constructor|]. cbn [forallb map] in *.
    apply andb_true_iff in Hok as [? ?], Hr as [? ?]. constructor; auto.
  - apply andb_true_iff in Hr as [Hr _]. apply forallb_forall. intros c Hc.
    pose proof (proj1 (forallb_forall _ _) Hr c Hc) as H. cbv beta in H. apply andb_true_iff in H; apply H.
Qed.

(** The first and the last character of an atom are not stripped. *)
Definition edges (s : text) : Prop :=
  exists c, head s = Some c /\ is_strip_char c = false /\ exists d, last s = Some d /\ is_strip_char d = false.

Lemma edges_strip s : edges s -> ty_str_strip s = s.
Proof.
  intros (c & Hc & Ec & d & Hd & Ed). unfold ty_str_strip. destruct s as [|c' s]; [done|]. injection Hc as ->.
  cbn [trim_start]. rewrite Ec. destruct (c :: s) as [|x l _] using rev_ind; [done|].
  rewrite last_snoc in Hd. injection Hd as ->. rewrite rev_app_distr. cbn [rev app trim_start]. rewrite Ed.
  change (d :: rev l) with ([d] ++ rev l). rewrite rev_app_distr, rev_involutive. done.
Qed.

Lemma edges_all s : s <> [] -> forallb (fun c => negb (is_strip_char c)) s = true -> edges s.
Proof.
  intros Hne Hs. pose proof (proj1 (forallb_forall _ _) Hs) as Hall. destruct s as [|c s]; [done|].
  exists c. split; [done|]. split; [by apply negb_true_iff, Hall; left|].
  destruct (c :: s) as [|x l _] using rev_ind; [done|]. exists x. rewrite last_snoc. split; [done|].
  apply negb_true_iff, Hall, in_app_iff. by right; left.
Qed.

Lemma edges_between o m c : is_strip_char o = false -> is_strip_char c = false -> edges (o :: m ++ [c]).
Proof. intros Ho Hc. exists o. split_and!; [done|done|]. exists c. by rewrite app_comm_cons, last_snoc. Qed.

Lemma number_no_strip t : forallb number_char t = true -> forallb (fun c => negb (is_strip_char c)) t = true.
Proof.
  intros H. apply forallb_forall. intros c Hc. pose proof (proj1 (forallb_forall _ _) H c Hc) as Hn.
  apply negb_true_iff, bool_decide_eq_false. rewrite !elem_of_cons, elem_of_nil. intros Hin.
  destruct_or!; subst; discriminate Hn || done.
Qed.

Lemma edges_atom t : ok t = true -> readable t = true -> is_union t = false -> edges (render t).
Proof.
  destruct t as [k al f]. intros Hok Hr Hu. destruct k; try done; cbn [render ok readable] in *;
    try (by apply edges_all); try (by apply edges_between).
  - destruct b; by apply edges_all.
  - apply edges_all; [apply pretty_Z_digits; lia|]. rewrite chars_pretty. apply number_no_strip, pretty_Z_number.
  - apply andb_true_iff in Hok as [_ Hn], Hr as [Hr _].
    destruct (name_ok_inv _ Hn) as ((c & t' & E & _) & _). apply edges_all; [by rewrite E|].
    apply forallb_forall. intros d Hd. pose proof (proj1 (forallb_forall _ _) Hr d Hd) as H. cbv beta in H.
    apply andb_true_iff in H; apply H.
Qed.

Lemma edges_bars l : l <> [] -> Forall edges l -> edges (join_bars l).
Proof.
  intros Hne Hl. induction Hl as [|t l Ht Hl IH]; [done|]. destruct l as [|u l]; [done|].
  specialize (IH ltac:(done)). destruct Ht as (c & Hc & Ec & _), IH as (c' & _ & _ & d & Hd & Ed).
  change (join_bars (t :: u :: l)) with (t ++ ch "|" :: join_bars (u :: l)).
  exists c. split_and!; [by destruct t|done|]. exists d. split; [|done].
  destruct (join_bars (u :: l)) as [|x s _] eqn:E using rev_ind; [done|].
  rewrite last_snoc in Hd. injection Hd as ->. by rewrite app_comm_cons, app_assoc, last_snoc.
Qed.

Lemma edges_render t : ok t = true -> readable t = true -> edges (render t).
Proof.
  intros Hok Hr. destruct (atoms_ok t Hok) as (Hne & Hat & -> & _). pose proof (atoms_readable t Hr) as Hrd.
  apply edges_bars; [by destruct (atoms t)|]. apply Forall_map.
  clear Hne. induction Hat as [|a l [Ha Hu] Hl IH]; [constructor|]. apply list.Forall_cons in Hrd as [? ?].
  constructor; [by apply edges_atom|auto].
Qed.

(** ** The reader *)

Section Reader.
Context (oc : bool) (powf : f64 -> f64 -> f64) `{UnicodeTables}.
#[local] Notation parse := (parse_type_str oc powf).
#[local] Notation unmapped := (unmapped_type oc powf).

Definition basic_names : list text := map txt ["int"; "float"; "str"; "bool"; "any"].

Lemma no_multiplier c t : is_digit10 c = false -> number_multiplier_regex (c :: t) = false.
Proof. intros Hc. destruct (number_multiplier_regex _) eqn:E; [|done]. apply type_multiplier_head in E. congruence. Qed.

(** The bracketed entries of the table agree with the general rules. *)
Lemma mapped_agrees n s u : mapped_type s = Some u -> s ∉ basic_names -> unmapped (parse (S n)) s = Ok u.
Proof.
  unfold mapped_type. intros Hm Hb. destruct (List.find _ _) as [p|] eqn:E; [|done]. injection Hm as <-.
  apply find_some in E as [Hin Hp]. apply bool_decide_eq_true_1 in Hp. subst s.
  cbn in Hin. destruct_or!; try done; subst p; cbn [fst snd] in *;
    try (exfalso; apply Hb; cbn; rewrite !elem_of_cons; tauto);
    (unfold unmapped_type;
     match goal with |- context [is_union_type_str ?s] => change (is_union_type_str s) with (Ok (A := bool) false) end;
     match goal with |- context [is_literal_type_str ?s] => change (is_literal_type_str s) with false end;
     cbn [mbind outcome_bind];
     rewrite no_multiplier by done; reflexivity).
Qed.

Lemma parse_step n s : edges s -> s ∉ basic_names -> parse (S (S n)) s = unmapped (parse (S n)) s.
Proof.
  intros He Hb. generalize (mapped_agrees n s). generalize (S n) as m. intros m Hag. cbn [parse_type_str].
  rewrite edges_strip by done.
  replace (teqb s []) with false by (symmetry; apply bool_decide_eq_false; intros ->; by destruct He as (? & ? & _)).
  cbn zeta. destruct (mapped_type s) as [u|] eqn:E; [|done]. symmetry. by apply Hag.
Qed.

Lemma bracketed_between o m c o' c' : is_ascii o = true -> is_ascii c = true -> forallb is_ascii m = true ->
  bracketed o' c' (o :: m ++ [c]) = Ok ((o =? o') && (c =? c')).
Proof.
  intros Ho Hc Hm. unfold bracketed.
  assert (Ha : forallb is_ascii (o :: m ++ [c]) = true) by (cbn [forallb]; rewrite forallb_app; cbn; by rewrite Ho, Hm, Hc).
  assert (Hl : str_len (o :: m ++ [c]) = Z.of_nat (length (o :: m)) + 1)
    by (rewrite ascii_len by done; cbn [length]; rewrite length_app; cbn [length]; lia).
  rewrite Hl. rewrite (proj2 (Z.leb_le _ _)) by (cbn [length]; lia).
  assert (Hs : slice 0 1 (o :: m ++ [c]) = Ok [o]).
  { unfold slice. cbn [Z.ltb Z.compare drop_bytes Z.eqb mbind outcome_bind].
    apply (ascii_slices [o] (m ++ [c])); [cbn; by rewrite Ho|rewrite forallb_app; cbn; by rewrite Hm, Hc]. }
  rewrite Hs. cbn [mbind outcome_bind]. replace (Z.of_nat (length (o :: m)) + 1 - 1) with (Z.of_nat (length (o :: m))) by lia.
  rewrite (app_comm_cons m [c] o). rewrite ascii_at by (by rewrite <- app_comm_cons). cbn [mbind outcome_bind].
  unfold teqb. destruct (Z.eqb_spec o o') as [->|Hne]; [rewrite bool_decide_true by done|rewrite bool_decide_false by congruence; done].
  destruct (Z.eqb_spec c c') as [->|Hne]; [by rewrite bool_decide_true|by rewrite bool_decide_false by congruence].
Qed.

Lemma dereference_between o m c :
  (o = ch "[" /\ c = ch "]") \/ (o = ch "{" /\ c = ch "}") -> forallb is_ascii m = true ->
  dereference_type_str (o :: m ++ [c]) = Ok m.
Proof.
  intros Hoc Hm. unfold dereference_type_str. assert (Ho : is_ascii o = true /\ is_ascii c = true) by (by destruct Hoc as [[-> ->]|[-> ->]]).
  destruct Ho as [Ho Hc]. rewrite !bracketed_between by done. cbn [mbind outcome_bind].
  assert (Hl : str_len (o :: m ++ [c]) = Z.of_nat (length m) + 2).
  { rewrite ascii_len; [cbn [length]; rewrite length_app; cbn [length]; lia|]. cbn [forallb]. rewrite forallb_app. cbn. by rewrite Ho, Hm, Hc. }
  assert (Hs : slice 1 (str_len (o :: m ++ [c]) - 1) (o :: m ++ [c]) = Ok m).
  { rewrite Hl. unfold slice. rewrite (proj2 (Z.ltb_ge _ _)) by lia.
    destruct (ascii_slices [o] (m ++ [c])) as (_ & _ & D); [cbn; by rewrite Ho|rewrite forallb_app; cbn; by rewrite Hm, Hc|].
    change (o :: m ++ [c]) with ([o] ++ m ++ [c]). change (Z.of_nat (length [o])) with 1 in D. rewrite D. cbn [mbind outcome_bind].
    replace (Z.of_nat (length m) + 2 - 1 - 1) with (Z.of_nat (length m)) by lia.
    apply (ascii_slices m [c]); [done|cbn; by rewrite Hc]. }
  destruct Hoc as [[-> ->]|[-> ->]]; cbn [mbind outcome_bind]; exact Hs.
Qed.

Lemma not_open_bracketed o c s : s <> [] -> head_is o s = false -> forallb is_ascii s = true -> bracketed o c s = Ok false.
Proof.
  intros Hne Ho Ha. unfold bracketed. destruct (2 <=? str_len s); [|done]. destruct s as [|x s]; [done|].
  cbn [forallb] in Ha. apply andb_true_iff in Ha as [Hx Ha].
  assert (Hs : slice 0 1 (x :: s) = Ok [x]).
  { unfold slice. cbn [Z.ltb Z.compare drop_bytes Z.eqb mbind outcome_bind]. apply (ascii_slices [x] s); [cbn; by rewrite Hx|done]. }
  rewrite Hs. cbn in *. rewrite Z.eqb_neq in Ho. unfold teqb. by rewrite bool_decide_false by congruence.
Qed.

Lemma kv_loop_scan t : forall n stack whole, kv_loop t n stack whole = kv_scan t n stack whole.
Proof.
  induction t as [|c t IH]; intros n stack whole; [done|]. cbn [kv_loop kv_scan].
  change (is_open_bracket c) with (is_open c). change (is_close_bracket c) with (is_close c).
  destruct (is_open c); [apply IH|]. destruct (is_close c).
  - destruct stack as [|top stack]; [done|]. by destruct (top =? _).
  - destruct (c =? ch ":"); [done|]. apply IH.
Qed.

(** What is read of the printed [t]. *)
Definition reads_back (t : ty) : Prop :=
  ok t = true -> readable t = true -> forall n, (length (render t) < n)%nat -> parse n (render t) = read_back t.

Lemma not_basic_bar s : ch "|" ∈ s -> s ∉ basic_names.
Proof.
  intros Hs Hin. cbn in Hin. rewrite !elem_of_cons, elem_of_nil in Hin.
  destruct_or!; try done; subst s; revert Hs; by apply (bool_decide_unpack (_ ∉ _)).
Qed.

Lemma render_union_bar a b l : ch "|" ∈ join_bars (a :: b :: l).
Proof. change (join_bars (a :: b :: l)) with (a ++ ch "|" :: join_bars (b :: l)). apply elem_of_app. right. left. Qed.

Lemma map_m_ext {A B} (f g : A -> outcome B) l : Forall (fun x => f x = g x) l -> map_m f l = map_m g l.
Proof. induction 1 as [|x l E _ IH]; [done|]. cbn [map_m]. by rewrite E, IH. Qed.

Lemma map_m_map {A B C} (f : B -> outcome C) (g : A -> B) l : map_m f (map g l) = map_m (fun x => f (g x)) l.
Proof. induction l as [|x l IH]; [done|]. cbn [map map_m]. by rewrite IH. Qed.

Lemma bar_parts_short l p : p ∈ l -> (length p <= length (join_bars l))%nat /\ ((1 < length l)%nat -> (length p < length (join_bars l))%nat).
Proof.
  induction l as [|a l IH]; [by intros ?%elem_of_nil|]. destruct l as [|b l].
  - intros ->%list_elem_of_singleton. cbn. lia.
  - change (join_bars (a :: b :: l)) with (a ++ ch "|" :: join_bars (b :: l)). rewrite length_app. cbn [length].
    intros [->|Hin]%elem_of_cons; [lia|]. destruct (IH Hin). lia.
Qed.

(** A type is read from its atoms. *)
Lemma read_atoms t : Forall reads_back (atoms t) -> reads_back t.
Proof.
  intros Hat Hok Hr n Hn. destruct (atoms_ok t Hok) as (Hne & Hoks & Er & _). pose proof (atoms_readable t Hr) as Hrd.
  unfold read_back. rewrite members_atoms.
  assert (Hall : Forall (fun a => forall n, (length (render a) < n)%nat -> parse n (render a) = read_back a) (atoms t)).
  { clear Hne Er. induction Hoks as [|a l [Ha _] _ IH]; [constructor|]. apply list.Forall_cons in Hat as [? ?], Hrd as [? ?].
    constructor; auto. }
  destruct (atoms t) as [|a [|b l]] eqn:Ea; [done| |].
  { cbn [map join_bars] in Er. rewrite Er in *. apply list.Forall_cons in Hall as [Hall _]. rewrite Hall by done.
    cbn [map_m]. by destruct (read_back a). }
  assert (Hn2 : (2 <= n)%nat).
  { rewrite Er in Hn. cbn [map] in Hn. pose proof (render_union_bar (render a) (render b) (map render l)) as Hb.
    destruct (join_bars _); [by apply elem_of_nil in Hb|]. cbn in Hn. lia. }
  destruct n as [|[|n]]; [lia|lia|].
  rewrite parse_step; [|by apply edges_render|rewrite Er; apply not_basic_bar, render_union_bar].
  unfold unmapped_type. pose proof (render_ascii t Hok Hr) as Ha. rewrite union_ascii, split_ascii by done.
  rewrite split_render, Ea by done. cbn [map length mbind outcome_bind]. change (1 <? S (S _))%nat with true. cbv iota.
  change (render a :: render b :: map render l) with (map render (a :: b :: l)). rewrite map_m_map.
  rewrite (map_m_ext _ read_back).
  2: { rewrite list.Forall_forall in Hall |- *. intros x Hx. apply Hall; [done|].
       destruct (bar_parts_short (map render (a :: b :: l)) (render x)) as [_ Hlt].
       - apply list_elem_of_In, in_map, list_elem_of_In, Hx.
       - rewrite Er in Hn. specialize (Hlt ltac:(cbn; lia)). lia. }
  cbn [map_m]. destruct (read_back a) as [ta|]; [|done]. cbn [mbind outcome_bind]. destruct (read_back b) as [tb|]; [|done].
  cbn [mbind outcome_bind]. by destruct (map_m read_back l).
Qed.

Lemma atom_not_union t : ok t = true -> readable t = true -> is_union t = false -> is_union_type_str (render t) = Ok false.
Proof.
  intros Hok Hr Hu. rewrite union_ascii by (by apply render_ascii). rewrite split_render by done.
  by replace (atoms t) with [t] by (by destruct t as [[] ? ?]).
Qed.

Lemma not_basic_head s c : head s = Some c -> c ∉ [ch "i"; ch "f"; ch "s"; ch "b"; ch "a"] -> s ∉ basic_names.
Proof.
  intros Hs Hc Hin. apply Hc. cbn in Hin. rewrite !elem_of_cons, elem_of_nil in Hin.
  destruct_or!; try done; subst s; injection Hs as <-; by apply (bool_decide_unpack (_ ∈ _)).
Qed.

Lemma reserved_names u : u ∈ basic_names \/ u ∈ map txt NAME_CONSTANTS -> u ∈ reserved.
Proof.
  intros Hin. assert (Hall : forallb (fun u => bool_decide (u ∈ reserved)) (basic_names ++ map txt NAME_CONSTANTS) = true) by reflexivity.
  rewrite forallb_forall in Hall. apply (bool_decide_eq_true_1 _), Hall, in_app_iff. by rewrite <- !list_elem_of_In.
Qed.

Ltac not_basic := eapply not_basic_head; [reflexivity|by apply (bool_decide_unpack (_ ∉ _))].
Ltac fuel2 n := destruct n as [|[|n]]; [exfalso; match goal with H : (_ < _)%nat |- _ => clear -H; cbn in H; lia end ..|].

(** An atom is read back when the types in it are. *)
Lemma read_atom t : is_union t = false ->
  match kind t with
  | KList i => reads_back i
  | KDict k v => reads_back k /\ reads_back v
  | _ => True
  end -> reads_back t.
Proof.
  intros Hu IH Hok Hr n Hn. pose proof (edges_atom t Hok Hr Hu) as He. pose proof (render_ascii t Hok Hr) as Ha.
  pose proof (atom_not_union t Hok Hr Hu) as Hun.
  destruct t as [k al f]. destruct k; try done; cbn [kind] in IH.
  1,2,4,6,7: (fuel2 n; reflexivity).
  - destruct b; fuel2 n; reflexivity.
  - cbn [ok readable render] in *. rewrite chars_pretty in *. destruct (pretty_digits n0 ltac:(lia)) as (c & r & E & Hd & _).
    assert (Hc : is_digit10 c = true) by (cbn in Hd; apply andb_true_iff in Hd; apply Hd).
    destruct n as [|[|n]]; [lia|rewrite E in Hn; cbn in Hn; lia|]. rewrite parse_step; [|done|].
    + unfold unmapped_type. rewrite Hun. cbn [mbind outcome_bind]. rewrite integer_is_literal by lia. by rewrite parse_integer.
    + rewrite E. apply (not_basic_head _ c); [done|]. rewrite !elem_of_cons, elem_of_nil. intros Hin.
      destruct_or!; try done; subst c; by vm_compute in Hc.
  - cbn [ok readable render] in *. destruct (literal_text _ Hok) as (Hne & Hl & Es). fuel2 n.
    rewrite parse_step; [|done|not_basic].
    unfold unmapped_type. rewrite Hun. cbn [mbind outcome_bind]. rewrite quoted_is_literal, parse_quoted by done.
    by rewrite Es.
  - cbn [ok readable render] in *. cbn [forallb] in Ha. apply andb_true_iff in Ha as [_ Ha]. rewrite forallb_app in Ha.
    apply andb_true_iff in Ha as [Ha _]. cbn [length] in Hn. rewrite length_app in Hn. destruct n as [|[|n]]; [lia|cbn in Hn; lia|].
    rewrite parse_step; [|done|not_basic].
    unfold unmapped_type. rewrite Hun. cbn [mbind outcome_bind].
    replace (is_literal_type_str (ch "[" :: render item_ty ++ [ch "]"])) with false.
    rewrite no_multiplier by done. unfold is_dict_type_str, is_list_type_str. rewrite !bracketed_between by done.
    change (ch "[" =? ch "{") with false. cbn [andb mbind outcome_bind]. rewrite !Z.eqb_refl. cbn [andb].
    rewrite dereference_between by auto. cbn [mbind outcome_bind]. rewrite IH by (done || (cbn in Hn; lia)).
    unfold read_back. cbn [members]. destruct (members item_ty) as [m|]; [|done]. cbn. by destruct (joined m).
  - cbn [ok readable render] in *. apply andb_true_iff in Hr as [Hr1 Hr2], Hok as [[Ho1 Hk]%andb_true_iff Ho2]. destruct IH as [IH1 IH2].
    cbn [forallb] in Ha. apply andb_true_iff in Ha as [_ Ha]. rewrite forallb_app in Ha.
    apply andb_true_iff in Ha as [Ha _]. cbn [length] in Hn. rewrite !length_app in Hn. cbn [length] in Hn. destruct n as [|[|n]]; [lia|lia|].
    rewrite parse_step; [|done|not_basic].
    unfold unmapped_type. rewrite Hun. cbn [mbind outcome_bind].
    replace (is_literal_type_str (ch "{" :: (render key_ty ++ ch ":" :: render val_ty) ++ [ch "}"])) with false.
    rewrite no_multiplier by done. unfold is_dict_type_str. rewrite bracketed_between by done.
    rewrite !Z.eqb_refl. cbn [andb mbind outcome_bind]. rewrite dereference_between by auto. cbn [mbind outcome_bind].
    unfold separate_kv_str. rewrite kv_loop_scan. fold (separate_kv (render key_ty ++ ch ":" :: render val_ty)).
    rewrite separate_kv_printed by done. cbn [mbind outcome_bind]. rewrite IH1, IH2 by (done || lia).
    unfold read_back. cbn [members]. destruct (members key_ty) as [m|]; [|done]. cbn. destruct (joined m); [|done]. cbn.
    destruct (members val_ty) as [m'|]; [|done]. cbn. by destruct (joined m').
  - cbn [ok readable render] in *. apply andb_true_iff in Hr as [_ Hf%bool_decide_eq_true_1].
    apply andb_true_iff in Hok as [[Es%bool_decide_eq_true_1 _]%andb_true_iff Hname].
    destruct (name_ok_inv _ Hname) as ((c & r & E & Hd & _) & Hs & Hres).
    assert (Hnot : forall u, u ∈ reserved -> chars (ty_str_with_pkgpath schema) <> u).
    { intros u Hin Eu. specialize (Hres u Hin). by apply bool_decide_eq_false in Hres. }
    assert (Hc : forall d, special d = true -> c <> d) by (intros d Hd' ->; apply (Hs d Hd'); rewrite E; left).
    destruct n as [|[|n]]; [lia|rewrite E in Hn; cbn in Hn; lia|]. rewrite parse_step; [|done|].
    2: { intros Hin. by apply (Hnot _ (reserved_names _ (or_introl Hin))). }
    unfold unmapped_type. rewrite Hun. cbn [mbind outcome_bind].
    replace (is_literal_type_str (chars (ty_str_with_pkgpath schema))) with false.
    2: { unfold is_literal_type_str. rewrite Hf. rewrite bool_decide_false.
         - rewrite E. cbn [head_is]. rewrite (proj2 (Z.eqb_neq c 34)), (proj2 (Z.eqb_neq c 39)) by (by apply Hc). done.
         - intros Hin. by apply (Hnot _ (reserved_names _ (or_intror Hin))). }
    assert (Hd10 : is_digit10 c = false) by (unfold is_digit in Hd; by apply orb_false_iff in Hd as [? _]).
    rewrite E at 1. rewrite no_multiplier by done. unfold is_dict_type_str, is_list_type_str.
    rewrite !not_open_bracketed; [|rewrite E; done|rewrite E; cbn; apply Z.eqb_neq, Hc; done|done|rewrite E; done|rewrite E; cbn; apply Z.eqb_neq, Hc; done|done].
    cbn [mbind outcome_bind]. unfold parse_named_type_str, read_back. cbn. by rewrite Es.
  - fuel2 n. rewrite parse_step; [|done|not_basic].
    unfold unmapped_type. rewrite Hun. cbn [mbind outcome_bind].
    change (is_literal_type_str (render (mkType (KNumberMultiplier nm) al f))) with false. cbn [render].
    change NUMBER_MULTIPLIER_TYPE with (ch "u" :: txt "nits.NumberMultiplier"). rewrite no_multiplier by done. reflexivity.
Qed.

(** C4: the string that a type is printed as is read back as the type: a schema is the name
    it is looked up by, the members of a union are joined, and everything else is itself. *)
Theorem parse_type_of_annotation t :
  ok t = true -> readable t = true ->
  parse_type oc powf (chars (into_type_annotation_str t)) = read_back t.
Proof.
  intros Hok Hr. destruct (printed_render t Hok) as [-> Hsc]. rewrite chars_encode by done.
  assert (H' : reads_back t).
  { clear Hok Hr Hsc. enough (Hat : Forall reads_back (atoms t)) by (by apply read_atoms).
    induction t as [k al f IH] using ty_induction.
    destruct (is_union (mkType k al f)) eqn:Eu.
    - destruct k; try done. cbn [subtypes atoms] in *. clear Eu.
      induction IH as [|t ts Ht _ IHts]; [constructor|]. cbn [map concat]. by apply Forall_app.
    - replace (atoms (mkType k al f)) with [mkType k al f] by (by destruct k). constructor; [|constructor].
      apply read_atom; [done|]. cbn [kind]. destruct k; try done; cbn [subtypes] in IH.
      + by apply read_atoms.
      + destruct IH. split; by apply read_atoms. }
  unfold parse_type. apply H'; [done|done|]. rewrite ascii_len by (by apply render_ascii). lia.
Qed.

(** strings that are not read as the types they name: [None] is a string literal, a name
    that is a float of the standard library is a literal, a name that does not begin with an
    ASCII character panics, and so does a multiplier of the suffix [E], which the regular
    expression takes. *)
Theorem type_string_faults :
  parse_type oc powf (chars (into_type_annotation_str NONE)) = Ok (str_lit "one") /\
  parse_type oc powf (txt "inf") = Ok (float_lit (SpecFloat.S754_infinity false)) /\
  parse_type oc powf (233 :: txt "tat") = Panic "byte index is not a char boundary" /\
  (number_multiplier_regex (txt "1E") = true -> parse_type oc powf (txt "1E") = Panic invalid_suffix).
Proof.
  split_and!; [reflexivity|vm_compute; reflexivity| |].
  - unfold parse_type. cbn [parse_type_str]. change (teqb (233 :: txt "tat") []) with false. cbv iota zeta.
    change (ty_str_strip (233 :: txt "tat")) with (233 :: txt "tat").
    change (mapped_type (233 :: txt "tat")) with (@None ty). cbv iota. unfold unmapped_type.
    change (is_union_type_str (233 :: txt "tat")) with (Ok (A := bool) false).
    change (is_literal_type_str (233 :: txt "tat")) with false. cbn [mbind outcome_bind].
    by rewrite no_multiplier.
  - intros Hm. unfold parse_type. cbn [parse_type_str]. change (teqb (txt "1E") []) with false. cbv iota zeta.
    change (ty_str_strip (txt "1E")) with (txt "1E"). change (mapped_type (txt "1E")) with (@None ty). cbv iota.
    unfold unmapped_type. change (is_union_type_str (txt "1E")) with (Ok (A := bool) false).
    change (is_literal_type_str (txt "1E")) with false. cbn [mbind outcome_bind]. rewrite Hm. reflexivity.
Qed.
End Reader.
End Laws.

(** A matcher: up to the closing quote; digits and a suffix. *)
#[local] Instance quoted_type_regexes : TypeRegexes := {|
  double_quoted_end := fun t => str_len <$> find_quoted quote t;
  single_quoted_end := fun t => str_len <$> find_quoted apostrophe t;
  number_multiplier_regex := fun t =>
    match t with
    | c :: _ => is_digit10 c && match last t with Some u => bool_decide (u ∈ [ch "K"; ch "M"; ch "E"]) | None => false end
    | [] => false
    end;
|}.

Lemma find_quoted_prefix q t v : find_quoted q t = Some v -> exists r, t = v ++ r /\ v <> [].
Proof.
  assert (Hto : forall t v, to_quote q t = Some v -> exists r, t = v ++ r).
  { clear t v. intros t. induction t as [|c t IH]; intros v; [done|]. cbn [to_quote].
    destruct (c =? q); [intros [= <-]; by exists t|]. destruct (c =? ch "\"); [done|].
    destruct (to_quote q t) as [w|] eqn:E; [|done]. intros [= <-]. destruct (IH w eq_refl) as [r ->]. by exists r. }
  destruct t as [|c t]; [done|]. cbn [find_quoted]. destruct (c =? q); [|done].
  destruct (to_quote q t) as [w|] eqn:E; [|done]. intros [= <-]. destruct (Hto _ _ E) as [r ->]. by exists r.
Qed.

Lemma str_len_ge_1 v : v <> [] -> 1 <= str_len v.
Proof.
  destruct v as [|c v]; [done|]. intros _. rewrite str_len_cons.
  assert (0 <= str_len v) by (induction v as [|d v IH]; [done|rewrite str_len_cons; unfold len_utf8; repeat case_match; lia]).
  unfold len_utf8. repeat case_match; lia.
Qed.

#[local] Instance quoted_type_laws : TypeRegexLaws quoted_type_regexes.
Proof.
  assert (Hend : forall q t e, str_len <$> find_quoted q t = Some e -> 1 <= e <= str_len t).
  { intros q t e. destruct (find_quoted q t) as [v|] eqn:E; [|done]. intros [= <-].
    destruct (find_quoted_prefix _ _ _ E) as (r & -> & Hne). pose proof (str_len_ge_1 v Hne).
    rewrite str_len_app. destruct r as [|c r]; [cbn; lia|]. pose proof (str_len_ge_1 (c :: r) ltac:(done)). lia. }
  split; [apply Hend|apply Hend| | |].
  - intros s rest _ Hs. cbn [double_quoted_end quoted_type_regexes find_quoted]. change (quote =? quote) with true. cbv iota.
    assert (E : to_quote quote (s ++ quote :: rest) = Some (s ++ [quote])).
    { induction s as [|c s IH]; [done|]. cbn [forallb] in Hs. apply andb_true_iff in Hs as [Hc Hs].
      unfold literal_char in Hc. rewrite !andb_true_iff, !negb_true_iff in Hc.
      destruct Hc as [[_ Hq] Hb]. cbn [app to_quote]. by rewrite Hq, Hb, IH. }
    rewrite E. cbn. f_equal. rewrite ascii_len; [cbn [length]; rewrite length_app; cbn; lia|].
    cbn [forallb]. rewrite forallb_app, literal_chars_ascii by done. done.
  - by intros c t [H _]%andb_true_iff.
  - intros [|c t] H; [done|]. apply andb_true_iff in H as [_ H]. destruct (last (c :: t)) as [u|] eqn:E; [|done].
    apply bool_decide_eq_true_1 in H. apply not_true_iff_false. intros Ht.
    assert (Hd : is_digit10 u = false).
    { repeat (apply elem_of_cons in H as [->|H]; [done|]). by apply elem_of_nil in H. }
    assert (Hin : u ∈ c :: t) by (apply last_Some in E as [l ->]; set_solver).
    pose proof (forallb_elem _ _ _ Ht Hin). congruence.
Qed.

Definition annotated : ty :=
  dict_of STR (union_of [list_of (str_lit "on"); int_lit 8080; list_of (union_of [BOOL; FLOAT])]).

Lemma parse_type_of_annotation_witness :
  ok annotated = true /\ readable annotated = true /\
  parse_type true (fun x _ => x) (H := ascii_tables) (chars (into_type_annotation_str annotated)) = read_back annotated /\
  read_back annotated = Ok annotated.
Proof.
  assert (Ho : ok annotated = true) by (vm_compute; reflexivity).
  assert (Hr : readable annotated = true) by (vm_compute; reflexivity).
  split; [exact Ho|]. split; [exact Hr|]. split; [|vm_compute; reflexivity].
  apply (parse_type_of_annotation true (fun x _ => x) annotated Ho Hr).
Defined.

Lemma type_string_faults_witness :
  number_multiplier_regex (txt "1E") = true /\
  parse_type true (fun x _ => x) (H := ascii_tables) (txt "1E") = Panic invalid_suffix.
Proof. split; [reflexivity|]. by apply (type_string_faults true (fun x _ => x) (H := ascii_tables)). Defined.
