(* ===== verification/OperatorSound.v ===== *)
(** * The types of operators are those of their values

    [Calculation] gives the type of an operator from the types of its operands; [ValueBin]
    computes it.  On the types below, whose least upper bounds exist, the value has the type,
    but for the listed operators; and an accepted operator on numbers, strings and lists
    fails on overflow and division by zero only. *)

From S2P Require Import Prelude MachineInt State Floats Chars Utf8 Value ValueBin TypeString TypeAnnotation.
From S2P Require TypeData.
From S2P Require Import TypeData Unify SubOrder Sup TypeContext.
From S2P Require Import Diagnostic Calculation.
From S2P Require Ast.
Import Ast(BinOp, BAdd, BSub, BMul, BDiv, BMod, BPow, BFloorDiv, BLShift, BRShift, BBitXor,
  BBitAnd, BBitOr, BAnd, BOr, BAs, UnaryOp, UAdd, USub, UInvert, UNot).

(** ** Types with least upper bounds

    No unions inside, no schemas, no float and boolean literals: the resolver takes [1] for
    a [1.5] and [True] for a float. *)

Fixpoint element (t : ty) : bool :=
  match t with
  | mkType k al f =>
      negb al && (f =? kind_flags k) &&
      match k with
      | KNone | KAny | KBool | KInt | KFloat | KStr => true
      | KIntLit _ | KStrLit _ => lit_clean t
      | KList item => element item
      | KDict key val => element key && element val
      | _ => false
      end
  end.
Definition simple (t : ty) : bool :=
  match t with
  | mkType (KUnion types) al f => negb al && (f =? kind_flags (KUnion types)) && forallb element types
  | _ => element t
  end.

Notation values t x := (has_type t x = true).

Lemma element_wf t : element t = true -> wf_ty t = true.
Proof.
  induction t as [k a f IH] using ty_ind. cbn [element wf_ty].
  rewrite !andb_true_iff. intros [[_ Hf] Hk]. split; [done|]. destruct k; simpl in *; try done; [auto|].
  rewrite andb_true_iff in *. naive_solver.
Qed.
Lemma element_plain t : element t = true -> plain ∅ t.
Proof.
  induction t as [k a f IH] using ty_ind. cbn [element plain].
  rewrite !andb_true_iff. intros [_ Hk]. destruct k; simpl in *; try done; [auto|].
  rewrite andb_true_iff in *. naive_solver.
Qed.
Lemma element_simple t : element t = true -> simple t = true.
Proof. destruct t as [[] a f]; try done. simpl. rewrite !andb_true_iff. naive_solver. Qed.

(** ** Subsumption is inclusion *)

(** What is known of a kind, from the type around it. *)
Definition element_kind (k : type_kind) : bool :=
  match k with
  | KNone | KAny | KBool | KInt | KFloat | KStr | KIntLit _ | KStrLit _ => true
  | KList item => element item
  | KDict key val => element key && element val
  | _ => false
  end.
Lemma element_kind_of t : element t = true -> element_kind (kind t) = true.
Proof. destruct t as [k a f]. simpl. rewrite !andb_true_iff. intros [_ Hk]. by destruct k. Qed.
Lemma element_lit_clean t : element t = true -> lit_kind (kind t) = true -> lit_clean t = true.
Proof. destruct t as [k a f]. cbn [element kind]. rewrite !andb_true_iff. intros [_ Hk]. by destruct k. Qed.
Lemma simple_members t ts : simple t = true -> kind t = KUnion ts -> forallb element ts = true.
Proof. destruct t as [k a f]. simpl. intros Hs ->. rewrite !andb_true_iff in Hs. tauto. Qed.
Lemma simple_element t : simple t = true -> union_kind (kind t) = false -> element t = true.
Proof. by destruct t as [[] a f]. Qed.
Lemma member_simple t ts : forallb element ts = true -> t ∈ ts -> element t = true.
Proof. rewrite forallb_forall. intros H Ht. apply H. by apply list_elem_of_In. Qed.

(** The values of a kind. *)
Definition of_kind (k : type_kind) (x : value) : bool := has_type (mkType k false 0) x.
Lemma has_type_kind t x : has_type t x = of_kind (kind t) x.
Proof. by destruct t. Qed.
Lemma any_values t x : kind t = KAny -> values t x.
Proof. rewrite has_type_kind. intros ->. apply orb_true_r. Qed.
Lemma union_values t ts u x : kind t = KUnion ts -> u ∈ ts -> values u x -> values t x.
Proof.
  rewrite (has_type_kind t). intros -> Hu Hx. unfold of_kind. simpl.
  rewrite orb_true_iff. right. apply existsb_exists. exists u. by rewrite <- list_elem_of_In.
Qed.

Lemma missing_values t x : is_none_or_undefined (get x) = true -> values t x.
Proof. destruct t as [k a f]. simpl. by intros ->. Qed.

(** The values of a type below are values of the type above. *)
Lemma Sub_values c l r x : TextSub c l r -> c = false -> simple l = true -> simple r = true ->
  values l x -> values r x.
Proof.
  intros HS. revert x. induction HS as [c l r Hr|c l r Hl|l r Hl|c l r ts Hl _ IH|c l r ts t Hr Ht HS IH
    |c l r s s' Hl|c l r Hl Hr|c l r m m' Hl|c l r Hl E|c l r Hl E|c l r Hl Hn Hr|c l r Hl Hr Hc
    |c l r a b Hl Hr HS IH|c l r k v k' v' Hl Hr HS1 IH1 HS2 IH2|c l r Hl E];
    intros x Ec Sl Er Hx; try discriminate Ec; try subst c.
  3: { rewrite has_type_kind, Hl in Hx. unfold of_kind in Hx. simpl in Hx.
       apply orb_true_iff in Hx as [Hx|(u & Hu & Hx)%existsb_exists]; [by apply missing_values|].
       apply (IH u); [by apply list_elem_of_In|done| |done|done].
       apply element_simple. eapply member_simple; [by apply (simple_members l)|by apply list_elem_of_In]. }
  3: { apply (union_values _ ts t); [done..|]. apply IH; [done..| |done]. apply element_simple.
       eapply member_simple; [by apply (simple_members r)|done]. }
  1: by apply any_values.
  all: assert (element l = true) as El by
         (apply simple_element; [done|]; destruct (kind l); simpl in *; congruence).
  all: pose proof (element_kind_of _ El) as Kl; try (rewrite Hl in Kl; discriminate Kl).
  - rewrite has_type_kind, Hl in Hx. rewrite has_type_kind. unfold of_kind in *. simpl in *.
    rewrite orb_false_r in Hx. destruct (kind r); simpl; by rewrite Hx.
  - rewrite has_type_kind in Hx |- *. assert (element r = true) as Fr.
    { apply simple_element; [done|]. by destruct (kind r). }
    apply element_kind_of in Fr. destruct (kind l), (kind r); try done; unfold of_kind in *; simpl in *;
      rewrite !orb_true_iff in *; destruct (get x); naive_solver.
  - by rewrite has_type_kind, <- E, <- has_type_kind.
  - rewrite has_type_kind in Hx |- *. destruct (kind l), (kind r); try done; simpl in E.
    all: unfold of_kind in *; simpl in *; rewrite orb_true_iff in *; destruct Hx as [?|Hx]; [by left|right].
    all: destruct (get x); try done.
    + apply Z.eqb_eq in E as ->. done.
    + apply bool_decide_eq_true in E as ->. done.
  - rewrite has_type_kind in Hx |- *. destruct (kind l) eqn:E; try done; [|by edestruct Hn].
    rewrite Hr. unfold of_kind in *; simpl in *. rewrite !orb_true_iff in *. destruct (get x); naive_solver.
  - pose proof (lit_clean_prim _ _ (element_lit_clean _ El Hl) Hr Hc) as Ho.
    rewrite has_type_kind in Hx |- *. rewrite Ho. destruct (kind l); try done; simpl.
    all: unfold of_kind in *; simpl in *; rewrite !orb_true_iff in *; destruct (get x); naive_solver.
  - assert (element_kind (kind r) = true) as Kr.
    { apply element_kind_of, simple_element; [done|by rewrite Hr]. }
    rewrite Hl in Kl. rewrite Hr in Kr. simpl in Kl, Kr. apply element_simple in Kl, Kr.
    rewrite has_type_kind in Hx |- *. rewrite Hl in Hx. rewrite Hr. unfold of_kind in *. simpl in *.
    rewrite orb_true_iff in *. destruct Hx as [?|Hx]; [by left|right].
    destruct (get x) as [| | | | | |items| | | |]; try done. rewrite !forallb_forall in *. auto.
  - assert (element_kind (kind r) = true) as Kr.
    { apply element_kind_of, simple_element; [done|by rewrite Hr]. }
    rewrite Hl in Kl. rewrite Hr in Kr. simpl in Kl, Kr. apply andb_true_iff in Kl as [_ Kl], Kr as [_ Kr].
    apply element_simple in Kl, Kr.
    rewrite has_type_kind in Hx |- *. rewrite Hl in Hx. rewrite Hr. unfold of_kind in *. simpl in *.
    rewrite orb_true_iff in *. destruct Hx as [?|Hx]; [by left|right].
    destruct (get x); try done. rewrite !forallb_forall in *. auto.
  - by destruct (kind l).
Qed.

(** ** Subsumption is antisymmetric *)

Lemma element_eq t u : element t = true -> element u = true -> kind t = kind u -> t = u.
Proof.
  destruct t as [k a f], u as [k' a' f']. cbn [element kind]. rewrite !andb_true_iff.
  intros [[Ha Hf] _] [[Ha' Hf'] _] <-. apply negb_true_iff in Ha, Ha'. apply Z.eqb_eq in Hf, Hf'. congruence.
Qed.
(** Subsumption, read on the kinds of elements. *)
Definition below (k k' : type_kind) : Prop :=
  match k, k' with
  | _, KAny | KNone, _ => True
  | KInt, KInt | KInt, KFloat | KFloat, KFloat | KBool, KBool | KStr, KStr => True
  | KIntLit _, KInt | KIntLit _, KFloat | KStrLit _, KStr => True
  | KIntLit n, KIntLit m => n = m
  | KStrLit s, KStrLit s' => s = s'
  | KList a, KList b => TextSub false a b
  | KDict a b, KDict a' b' => TextSub false a a' /\ TextSub false b b'
  | _, _ => False
  end.
Lemma Sub_below t u : element t = true -> element u = true -> TextSub false t u -> below (kind t) (kind u).
Proof.
  intros Et Eu HS. pose proof (element_kind_of _ Et) as Kt. pose proof (element_kind_of _ Eu) as Ku.
  inversion HS as [c l r Hr|c l r Hl|l r Hl|c l r ts Hl|c l r ts w Hr Ht
    |c l r s s' Hl|c l r Hl Hr|c l r m m' Hl|c l r Hl E|c l r Hl E|c l r Hl Hn Hr|c l r Hl Hr Hc
    |c l r a b Hl Hr|c l r k v k' v' Hl Hr|c l r Hl E]; subst;
    try (rewrite Hl in Kt; discriminate Kt); try (rewrite Hr in Ku; discriminate Ku).
  - rewrite Hr. by destruct (kind t).
  - rewrite Hl. by destruct (kind u).
  - by destruct (kind t), (kind u).
  - rewrite <- E. by destruct (kind t).
  - destruct (kind t), (kind u); try done; simpl in *.
    + by apply Z.eqb_eq in E.
    + by apply bool_decide_eq_true in E.
  - rewrite Hr. destruct (kind t) eqn:E; try done. by edestruct Hn.
  - rewrite (lit_clean_prim _ _ (element_lit_clean _ Et Hl) Hr Hc). by destruct (kind t).
  - by rewrite Hl, Hr.
  - by rewrite Hl, Hr.
  - by destruct (kind t).
Qed.
Lemma Sub_antisym t : forall u, element t = true -> element u = true -> TextSub false t u -> TextSub false u t -> t = u.
Proof.
  induction t as [k a f IH] using ty_ind. intros u Et Eu H1 H2.
  pose proof (element_kind_of _ Et) as Kt. pose proof (element_kind_of _ Eu) as Ku.
  apply element_eq; [done..|]. apply Sub_below in H1, H2; try done. simpl in *.
  destruct k, (kind u); simpl in *; try done; try congruence.
  - f_equal. by apply IH.
  - rewrite andb_true_iff in *. destruct H1, H2, IH as [IH1 IH2], Kt, Ku. f_equal; [by apply IH1|by apply IH2].
Qed.

(** ** Least upper bounds *)

Lemma element_refl t : element t = true -> ty_eqb t t = true.
Proof.
  induction t as [k a f IH] using ty_ind. intros Et. pose proof (element_kind_of _ Et) as Kt.
  cbn [ty_eqb]. rewrite eqb_reflx, Z.eqb_refl, !andb_true_r.
  destruct k; simpl in *; try done; try apply Z.eqb_refl; try by apply bool_decide_eq_true.
  - by apply IH.
  - apply andb_true_iff in Kt as [? ?]. apply andb_true_iff. split; by apply IH.
Qed.
Lemma simple_wf t : simple t = true -> wf_ty t = true.
Proof.
  destruct (union_kind (kind t)) eqn:E; [|intros; by apply element_wf, simple_element].
  destruct t as [[] a f]; try done. cbn [simple wf_ty]. rewrite !andb_true_iff. intros [[_ Hf] Hts].
  split; [done|]. rewrite forallb_forall in *. intros. by apply element_wf, Hts.
Qed.
Lemma simple_good t : simple t = true -> good ∅ t.
Proof.
  intros Hs. split; [by apply simple_wf|].
  destruct (union_kind (kind t)) eqn:E; [|by apply element_plain, simple_element].
  destruct t as [[] a f]; try done. cbn [simple plain] in *. rewrite !andb_true_iff in Hs. destruct Hs as [_ Hts].
  rewrite Forall_map. apply Forall_forall. intros t Ht. eapply element_plain, member_simple; done.
Qed.
Lemma simple_leaves t u : simple t = true -> u ∈ leaves t -> element u = true.
Proof.
  destruct (union_kind (kind t)) eqn:E.
  - destruct t as [[] a f]; try done. cbn [simple leaves]. rewrite !andb_true_iff. intros [_ Hts] Hu.
    apply list_elem_of_In, in_flat_map in Hu as (w & Hw & Hu). rewrite forallb_forall in Hts.
    specialize (Hts w Hw). pose proof (element_kind_of _ Hts).
    assert (leaves w = [w]) as Hl by (by destruct w as [[] ? ?]).
    rewrite Hl in Hu. destruct Hu as [->|[]]. done.
  - intros Hs Hu. assert (leaves t = [t]) as Hl by (by destruct t as [[] ? ?]). rewrite Hl in Hu.
    apply list_elem_of_singleton in Hu as ->. by apply simple_element.
Qed.

Section Joins.
Context (ts : list ty) (Hts : Forall (fun t => simple t = true) ts).

Lemma joins_good : Forall (good ∅) ts.
Proof. eapply Forall_impl; [exact Hts|]. apply simple_good. Qed.
Lemma joins_leaves u : u ∈ flat_map leaves ts -> element u = true.
Proof.
  intros (t & Ht & Hu)%list_elem_of_In%in_flat_map. rewrite Forall_forall in Hts.
  eapply simple_leaves; [apply Hts; by apply list_elem_of_In|by apply list_elem_of_In].
Qed.
Lemma joins_set u : u ∈ add_types_to_type_set [] ts -> element u = true.
Proof. rewrite add_types_leaves. intros [?|Hu]%fold_add_leaf_elem; [set_solver|by apply joins_leaves]. Qed.

Lemma sup_simple s : sup ts = Ok s -> simple s = true.
Proof.
  destruct (sup_spec ts (good_wf _ _ joins_good)) as (kept & _ & Hsub & _ & _ & ->). intros [= <-].
  assert (Hk : forall u, u ∈ kept -> element u = true).
  { intros u Hu. apply joins_set. by eapply elem_of_sublist. }
  destruct kept as [|u [|v kept]]; [done|apply element_simple, Hk; set_solver|].
  cbn [simple union_of]. rewrite Z.eqb_refl. apply forallb_forall. intros w Hw. by apply Hk, list_elem_of_In.
Qed.

(** A least upper bound has the values of all that it bounds. *)
Lemma sup_values s t x : sup ts = Ok s -> t ∈ ts -> values t x -> values s x.
Proof.
  intros Hs Ht Hx. pose proof joins_good as Hg. pose proof (sup_simple s Hs) as Ss.
  assert (subsume t s false = Ok true) as Hsub.
  { eapply sup_upper_aux; [done| | |done|done].
    - intros i j u v Hi Hj Hij H1 H2.
      assert (element u = true) as Eu by (apply joins_set; by eapply list_elem_of_lookup_2).
      assert (element v = true) as Ev by (apply joins_set; by eapply list_elem_of_lookup_2).
      apply subsume_sound in H1, H2; try by apply element_wf.
      assert (u = v) as -> by (by apply Sub_antisym).
      destruct (type_set_of_ok ts (good_wf _ _ Hg)) as (_ & Hd & _).
      assert (exists a b, (a < b)%nat /\ add_types_to_type_set [] ts !! a = Some v /\
        add_types_to_type_set [] ts !! b = Some v) as (a & b & Hab & Ha & Hb).
      { destruct (decide (i < j)%nat); [by exists i, j|exists j, i; split; [lia|done]]. }
      pose proof (ForallOrdPairs_lookup _ _ a b v v Hd Hab Ha Hb) as Hne. simpl in Hne.
      by rewrite element_refl in Hne.
    - apply Forall_forall. intros u Hu%joins_leaves. split; [|by apply element_refl].
      apply element_kind_of in Hu as Ku. apply element_wf, wf_flags in Hu. unfold is_void, contains_flags.
      rewrite Hu. by destruct (kind u). }
  rewrite Forall_forall in Hts. apply subsume_sound in Hsub; [|by apply simple_wf, Hts|by apply simple_wf].
  by apply (Sub_values _ _ _ _ Hsub); [|apply Hts| |].
Qed.
End Joins.

(** ** Widening keeps the values *)

Lemma map_m_widen ts :
  Forall (fun t => exists s, infer_to_variable_type t = Ok s /\ element s = true /\ forall x, values t x -> values s x) ts ->
  exists ss, map_m infer_to_variable_type ts = Ok ss /\ Forall (fun s => element s = true) ss /\
    forall t x, t ∈ ts -> values t x -> exists s, s ∈ ss /\ values s x.
Proof.
  induction 1 as [|t ts (s & E & Es & Hs) _ (ss & Ess & Hss & IH)]; [exists []; split_and!; [done..|]; by intros ? ? ?%not_elem_of_nil|].
  exists (s :: ss). simpl. rewrite E, Ess. split_and!; [done|by constructor|].
  intros t' x [->|Ht]%elem_of_cons Hx; [exists s; split; [left|auto]|].
  destruct (IH _ _ Ht Hx) as (s' & ? & ?). exists s'. split; [by right|done].
Qed.

Lemma infer_element t : element t = true ->
  exists s, infer_to_variable_type t = Ok s /\ element s = true /\ forall x, values t x -> values s x.
Proof.
  induction t as [k a f IH] using ty_ind. intros Et. pose proof (element_kind_of _ Et) as Kt.
  assert (Hself : forall x, has_type (mkType k a f) x = of_kind k x) by (intros; apply has_type_kind).
  destruct k; simpl in Kt; try done; cbn [infer_to_variable_type].
  - exists ANY. split_and!; [done..|]. intros. by apply any_values.
  - eexists; split_and!; [done|done|auto].
  - eexists; split_and!; [done|done|auto].
  - eexists; split_and!; [done|done|auto].
  - exists INT. split_and!; [done..|]. intros x. rewrite Hself. unfold of_kind. simpl.
    rewrite !orb_true_iff. destruct (get x); naive_solver.
  - eexists; split_and!; [done|done|auto].
  - eexists; split_and!; [done|done|auto].
  - exists STR. split_and!; [done..|]. intros x. rewrite Hself. unfold of_kind. simpl.
    rewrite !orb_true_iff. destruct (get x); naive_solver.
  - destruct (IH Kt) as (s & -> & Es & Hs). exists (list_of s). split_and!; [done|done|].
    intros x. rewrite Hself. unfold of_kind. simpl. rewrite !orb_true_iff.
    intros [?|Hx]; [by left|right]. destruct (get x); try done. rewrite !forallb_forall in *. auto.
  - apply andb_true_iff in Kt as [Kk Kv]. destruct IH as [IHk IHv].
    destruct (IHk Kk) as (k' & -> & Ek & _), (IHv Kv) as (v' & -> & Ev & Hv). exists (dict_of k' v').
    split_and!; [done|simpl; by rewrite Ek, Ev|].
    intros x. rewrite Hself. unfold of_kind. simpl. rewrite !orb_true_iff.
    intros [?|Hx]; [by left|right]. destruct (get x); try done. rewrite !forallb_forall in *. auto.
Qed.

Lemma widen_simple t : simple t = true ->
  exists s, literal_union_type_to_variable_type t = Ok s /\ simple s = true /\ forall x, values t x -> values s x.
Proof.
  intros St. unfold literal_union_type_to_variable_type. rewrite wf_is_union by (by apply simple_wf).
  destruct (kind t) eqn:E; try (by exists t). destruct t as [k a f]. simpl in E. subst k.
  pose proof (simple_members _ _ St eq_refl) as Hts. cbn [infer_to_variable_type].
  destruct (map_m_widen types) as (ss & -> & Hss & Hin).
  { apply Forall_forall. intros u Hu. apply infer_element. eapply member_simple; done. }
  assert (Sss : Forall (fun t => simple t = true) ss) by (eapply Forall_impl; [exact Hss|apply element_simple]).
  destruct (sup_total ss (good_wf _ _ (joins_good _ Sss))) as [s Hs]. exists s. simpl. split_and!; [done|by apply (sup_simple ss)|].
  intros x Hx. apply orb_true_iff in Hx as [Hx|(u & Hu & Hx)%existsb_exists]; [by apply missing_values|].
  apply list_elem_of_In in Hu. destruct (Hin u x Hu Hx) as (s' & ? & ?). by eapply (sup_values ss).
Qed.

(** A union that was widened has no literal. *)
Definition no_literal_union (t : ty) : bool :=
  match kind t with KUnion ts => forallb (fun u => negb (lit_kind (kind u))) ts | _ => true end.
Lemma widened_no_literal t s : wf_ty t = true -> literal_union_type_to_variable_type t = Ok s ->
  no_literal_union s = true.
Proof.
  unfold literal_union_type_to_variable_type. intros Wt. rewrite wf_is_union by done.
  destruct (kind t) eqn:E; try (intros [= <-]; unfold no_literal_union; by rewrite E).
  intros Hs. destruct (infer_spec t Wt) as (s' & Hs' & _ & Hn). rewrite Hs in Hs'. injection Hs' as <-.
  apply normal_variable in Hn. destruct s as [[] a f]; try done. unfold no_literal_union. simpl in *.
  rewrite forallb_forall in *. intros u Hu. specialize (Hn u Hu). by destruct u as [[] ? ?].
Qed.

(** ** Operators *)

(** A type an operand may have: one with least upper bounds, or a float or boolean literal. *)
Definition operand (t : ty) : bool :=
  simple t || (wf_ty t && match kind t with KFloatLit _ | KBoolLit _ => true | _ => false end).
Lemma operand_wf t : operand t = true -> wf_ty t = true.
Proof. unfold operand. rewrite orb_true_iff, andb_true_iff. intros [?%simple_wf|[? _]]; done. Qed.
Lemma widen_operand t s : operand t = true -> literal_union_type_to_variable_type t = Ok s ->
  operand s = true /\ forall x, values t x -> values s x.
Proof.
  unfold operand at 1. intros [St|[Wt Kt]%andb_true_iff]%orb_true_iff Hs.
  - destruct (widen_simple t St) as (s' & E & Ss & ?). rewrite E in Hs. injection Hs as <-. split; [|done]. unfold operand. by rewrite Ss.
  - unfold literal_union_type_to_variable_type in Hs. rewrite wf_is_union in Hs by done.
    assert (s = t) as -> by (destruct (kind t); congruence). split; [|done].
    unfold operand. by rewrite Wt, Kt, orb_true_r.
Qed.

(** Run an operator whose result is known. *)
Ltac run_operator :=
  repeat first [discriminate | match goal with
    | H : mbind _ ?o = Ok _ |- _ => destruct o eqn:?; simpl in H
    | H : (if ?b then _ else _) = Ok _ |- _ => destruct b eqn:?
    | H : Ok _ = Ok ?w |- _ => first [is_var w; injection H as <-|injection H as H]
    end].

Section Operators.
Context (cfg : ContextConfig) (oc : bool) (powf : f64 -> f64 -> f64).

(** What the compiled program calls; [and] and [or] evaluate to an operand.  The union, which
    writes through references, and [as], which calls the type check, are not here. *)
Definition operator (op : BinOp) : option (Value value -> Value value -> outcome (Value value)) :=
  match op with
  | BAdd => Some (bin_add cfg oc)
  | BSub => Some (bin_sub cfg oc)
  | BMul => Some (bin_mul cfg oc)
  | BDiv => Some bin_div
  | BMod => Some (bin_mod oc)
  | BPow => Some (bin_pow cfg oc powf)
  | BFloorDiv => Some (bin_floor_div oc)
  | BLShift => Some (bin_bit_lshift cfg oc)
  | BRShift => Some (bin_bit_rshift cfg oc)
  | BBitXor => Some bin_bit_xor
  | BBitAnd => Some bin_bit_and
  | BAnd => Some (fun a b => Ok (if is_truthy a then b else a))
  | BOr => Some (fun a b => Ok (if is_truthy a then a else b))
  | BBitOr | BAs => None
  end.

(** Where the resolver's type is not the type of the value. *)
Definition mistyped (op : BinOp) (t1 t2 : ty) : bool :=
  match op with
  | BDiv => negb (is_float t1 || is_float t2)
  | BMod => is_float t1 || is_float t2
  | BMul => (is_str t1 && is_literal t1) || (is_str t2 && is_literal t2)
  | BAnd => negb (is_bool t1 && is_bool t2)
  | BOr => negb (simple t1 && simple t2)
  | _ => false
  end.

Definition numeric (a : Value value) : bool := Value.is_int a || Value.is_float a.
Definition scalar (a : Value value) : bool := is_none_or_undefined a || numeric a || Value.is_bool a.

Lemma arith_numeric op f a b v : op ∈ [BAdd; BSub; BMul; BPow; BFloorDiv; BDiv] -> operator op = Some f ->
  scalar a = true -> scalar b = true -> f a b = Ok v ->
  numeric v = true /\ (op <> BDiv -> Value.is_float a = false -> Value.is_float b = false -> Value.is_int v = true).
Proof.
  intros Hop Hf Ha Hb E.
  repeat (apply elem_of_cons in Hop as [->|Hop]); try (by apply not_elem_of_nil in Hop); injection Hf as <-.
  all: destruct a; try discriminate Ha; destruct b; try discriminate Hb; simpl in E; run_operator; (split; [done|intros; first [done|exfalso; auto]]).
Qed.

(** ** Canonical forms *)

Section Canonical.
Context (t : ty) (x : value) (Wt : wf_ty t = true) (Hx : values t x).

Ltac canonical :=
  rewrite has_type_kind in Hx; destruct (kind t); try done; unfold of_kind in Hx; simpl in Hx;
  unfold scalar, numeric; destruct (get x); simpl in *; (done || naive_solver).

Lemma canonical_number : is_number t = true -> scalar (get x) = true.
Proof.
  unfold is_number. fold (is_int t) (is_float t) (is_bool t). autorewrite with ty_flags. canonical.
Qed.
Lemma canonical_int : is_int t = true -> is_none_or_undefined (get x) || Value.is_int (get x) = true.
Proof. autorewrite with ty_flags. canonical. Qed.
Lemma canonical_not_float : is_number t = true -> is_float t = false -> Value.is_float (get x) = false.
Proof.
  unfold is_number. fold (is_int t) (is_float t) (is_bool t). autorewrite with ty_flags. canonical.
Qed.
Lemma canonical_str : is_str t = true -> is_none_or_undefined (get x) || Value.is_str (get x) = true.
Proof. autorewrite with ty_flags. canonical. Qed.
Lemma canonical_list item : list_item_ty t = Ok item ->
  is_none_or_undefined (get x) = true \/ exists l, get x = list_value l /\ Forall (fun y => values item y) l.
Proof.
  unfold list_item_ty. rewrite has_type_kind in Hx. destruct (kind t); try done. intros [= <-].
  unfold of_kind in Hx. simpl in Hx. apply orb_true_iff in Hx as [?|Hl]; [by left|right].
  destruct (get x) as [| | | | | |l| | | |]; try done. exists l. split; [done|].
  apply Forall_forall. rewrite forallb_forall in Hl. intros y Hy. by apply Hl, list_elem_of_In.
Qed.
End Canonical.

(** Values of the results. *)
Lemma int_of v : Value.is_int v = true -> values INT (mkValue v).
Proof. simpl. intros ->. apply orb_true_r. Qed.
Lemma number_binary_of t1 t2 v : numeric v = true ->
  (is_float t1 || is_float t2 = false -> Value.is_int v = true) -> values (number_binary t1 t2) (mkValue v).
Proof.
  intros Hv Hi. unfold number_binary. destruct (_ || _); [|by apply int_of, Hi].
  simpl. unfold numeric in Hv. apply orb_true_iff in Hv as [Hv|Hv]; by rewrite Hv, ?orb_true_r.
Qed.

(** ** The table *)

Section Table.
Context (t1 t2 : ty) (O1 : operand t1 = true) (O2 : operand t2 = true).
Context (x y : value) (Hx : values t1 x) (Hy : values t2 y).
Let W1 : wf_ty t1 = true := operand_wf _ O1.
Let W2 : wf_ty t2 = true := operand_wf _ O2.

Lemma numbers_sound op f v : op ∈ [BAdd; BSub; BMul; BPow; BFloorDiv; BDiv] -> operator op = Some f ->
  is_number t1 && is_number t2 = true -> mistyped op t1 t2 = false -> f (get x) (get y) = Ok v ->
  values (number_binary t1 t2) (mkValue v).
Proof.
  intros Hop Hf [H1 H2]%andb_true_iff Hm E.
  destruct (arith_numeric op f _ _ v Hop Hf (canonical_number _ _ W1 Hx H1) (canonical_number _ _ W2 Hy H2) E)
    as [Hv Hi].
  apply number_binary_of; [done|]. intros [F1 F2]%orb_false_iff. apply Hi.
  - intros ->. simpl in Hm. by rewrite F1, F2 in Hm.
  - by apply (canonical_not_float t1).
  - by apply (canonical_not_float t2).
Qed.

Lemma ints_sound op f v : op ∈ [BMod; BLShift; BRShift; BBitXor; BBitAnd] -> operator op = Some f ->
  is_none_or_undefined (get x) || Value.is_int (get x) || Value.is_bool (get x) = true ->
  is_none_or_undefined (get y) || Value.is_int (get y) || Value.is_bool (get y) = true ->
  f (get x) (get y) = Ok v -> values INT (mkValue v).
Proof.
  intros Hop Hf H1 H2 E. apply int_of.
  repeat (apply elem_of_cons in Hop as [->|Hop]); try (by apply not_elem_of_nil in Hop); injection Hf as <-.
  all: destruct (get x); try discriminate H1; destruct (get y); try discriminate H2; simpl in E; run_operator; done.
Qed.

Lemma list_items t item : operand t = true -> list_item_ty t = Ok item -> simple item = true.
Proof.
  unfold list_item_ty. intros Ot Hi. destruct (kind t) eqn:E; try done. injection Hi as <-.
  assert (element t = true) as Et.
  { unfold operand in Ot. rewrite E, andb_false_r, orb_false_r in Ot. by apply simple_element; [|rewrite E]. }
  apply element_kind_of in Et. rewrite E in Et. by apply element_simple.
Qed.

Lemma lists_sound i1 i2 s v : list_item_ty t1 = Ok i1 -> list_item_ty t2 = Ok i2 -> sup [i1; i2] = Ok s ->
  bin_add cfg oc (get x) (get y) = Ok v -> values (list_of s) (mkValue v).
Proof.
  intros H1 H2 Hs E.
  assert (Hjoin : forall i z, i ∈ [i1; i2] -> values i z -> values s z).
  { intros i z Hi Hz. eapply sup_values; [|exact Hs|exact Hi|exact Hz].
    apply list.Forall_cons; split; [|apply list.Forall_singleton].
    - by apply (list_items t1).
    - by apply (list_items t2). }
  destruct (canonical_list _ _ Hx _ H1) as [M|(l & El & Hl)]; [destruct (get x); try discriminate M; discriminate E|].
  destruct (canonical_list _ _ Hy _ H2) as [M|(l' & El' & Hl')];
    rewrite El in E; [destruct (get y); try discriminate M; discriminate E|].
  rewrite El' in E. injection E as <-. simpl. apply forallb_forall. intros z Hz.
  apply in_app_iff in Hz as [Hz|Hz]; apply list_elem_of_In in Hz; rewrite Forall_forall in Hl, Hl'.
  - apply (Hjoin i1); [set_solver|auto].
  - apply (Hjoin i2); [set_solver|auto].
Qed.
End Table.

(** A repeated string or list has the type of the string or list. *)
Lemma list_repeat_items {A} (P : A -> Prop) l n l' : list_repeat l n = Ok l' -> Forall P l -> Forall P l'.
Proof.
  unfold list_repeat. destruct l as [|a l]; [intros [= <-]; done|]. destruct (_ <? _); [done|].
  intros [= <-] Hl. apply Forall_concat. apply Forall_forall. intros k Hk.
  apply list_elem_of_In, repeat_spec in Hk as ->. done.
Qed.
Definition repeatable (t : ty) : bool :=
  match kind t with KInt | KFloat | KBool | KStr | KList _ => true | _ => false end.
Lemma repeat_sound u a z v : repeatable u = true -> is_none_or_undefined a || Value.is_int a = true ->
  values u z -> bin_mul cfg oc a (get z) = Ok v \/ bin_mul cfg oc (get z) a = Ok v -> values u (mkValue v).
Proof.
  unfold repeatable. rewrite !has_type_kind. intros Hu Ha Hz E.
  destruct a; try discriminate Ha;
    [destruct E as [E|E]; destruct (get z); discriminate E|destruct E as [E|E]; destruct (get z); discriminate E|].
  destruct (kind u); try discriminate Hu; unfold of_kind in *; simpl in *;
    destruct (get z) as [| | | | | |l| | | |]; try discriminate Hz;
    destruct E as [E|E]; simpl in E; run_operator; try reflexivity.
  all: change (forallb (has_type item_ty) l = true) in Hz; change (forallb (has_type item_ty) a = true).
  all: rewrite forallb_forall in *; intros w Hw; apply list_elem_of_In in Hw.
  all: eapply (proj1 (Forall_forall (fun w => values item_ty w) a)); [|exact Hw].
  all: eapply list_repeat_items; [eassumption|]; apply Forall_forall; intros w' Hw'; apply Hz, list_elem_of_In, Hw'.
Qed.

(** No literal, and no literal in a union. *)
Definition no_literal (t : ty) : bool :=
  match kind t with
  | KUnion ts => forallb (fun u => negb (lit_kind (kind u))) ts
  | k => negb (lit_kind k)
  end.
Lemma variable_no_literal t : variable t = true -> no_literal t = true.
Proof.
  destruct t as [[] a f]; try done. cbn [variable no_literal kind]. unfold no_literal. simpl.
  rewrite !forallb_forall. intros Hv u Hu. specialize (Hv u Hu). by destruct u as [[] ? ?].
Qed.

Lemma mul_kind t : wf_ty t = true -> no_literal t = true -> is_mul_val_type_or_mul_val_union_type t = true ->
  match kind t with KUnion ts => forall u, u ∈ ts -> repeatable u = true | _ => repeatable t = true end.
Proof.
  intros Wt Vt Hm. unfold is_mul_val_type_or_mul_val_union_type, is_kind_type_or_kind_union_type in Hm.
  assert (Hone : forall u, wf_ty u = true -> negb (lit_kind (kind u)) = true ->
    existsb (fun flag => contains_flags u flag)
      [TypeFlags.INT; TypeFlags.FLOAT; TypeFlags.BOOL; TypeFlags.STR; TypeFlags.LIST] = true ->
    repeatable u = true).
  { intros u Wu Vu. cbn [existsb]. fold (is_int u) (is_float u) (is_bool u) (is_str u) (is_list u).
    autorewrite with ty_flags. unfold repeatable. destruct u as [[] a f]; done. }
  destruct t as [k a f]. unfold no_literal in Vt. destruct k; try by apply Hone.
  simpl in *. intros u Hu. rewrite forallb_forall in *. apply list_elem_of_In in Hu.
  apply andb_true_iff in Wt as [_ Wt]. rewrite forallb_forall in Wt. apply Hone; auto.
Qed.

Lemma mul_sound t a z v : wf_ty t = true -> no_literal t = true -> is_mul_val_type_or_mul_val_union_type t = true ->
  is_none_or_undefined a || Value.is_int a = true -> values t z ->
  bin_mul cfg oc a (get z) = Ok v \/ bin_mul cfg oc (get z) a = Ok v -> values t (mkValue v).
Proof.
  intros Wt Vt Hm Ha Hz E. pose proof (mul_kind t Wt Vt Hm) as Hk.
  destruct (kind t) eqn:Ek; try by eapply repeat_sound.
  rewrite has_type_kind, Ek in Hz. unfold of_kind in Hz. simpl in Hz.
  apply orb_true_iff in Hz as [M|(u & Hu & Hz)%existsb_exists].
  - destruct (get z); try discriminate M; destruct a; try discriminate Ha; destruct E as [E|E]; discriminate E.
  - apply list_elem_of_In in Hu. eapply union_values; [done|done|]. eapply repeat_sound; eauto.
Qed.

Lemma lift_inv {S A} (o : outcome A) (s : S) a s' : lift o s = Ok (a, s') -> o = Ok a.
Proof. unfold lift. destruct o; [|done]. by intros [= <- _]. Qed.
Lemma lift_state {S A} (o : outcome A) (s : S) a s' : lift o s = Ok (a, s') -> s' = s.
Proof. unfold lift. destruct o; [|done]. by intros [= _ <-]. Qed.
Lemma when_bind {A} b (m : check unit) (k : check A) h r :
  (when b m ≫= fun _ => k) h = Ok r -> exists h1, k h1 = Ok r.
Proof.
  unfold when, mbind, st_bind. destruct b; [|intros E; exists h; exact E].
  destruct (m h) as [[[] h1]|e]; [|discriminate]. intros E. exists h1. exact E.
Qed.

Section TableSound.
Context (t1 t2 : ty) (O1 : operand t1 = true) (O2 : operand t2 = true).
Context (N1 : no_literal_union t1 = true) (N2 : no_literal_union t2 = true).
Context (x y : value) (Hx : values t1 x) (Hy : values t2 y).

Lemma no_literal_of t : wf_ty t = true -> no_literal_union t = true -> is_str t && is_literal t = false ->
  is_number t = false -> no_literal t = true.
Proof.
  intros Wt. unfold is_number. fold (is_int t) (is_float t) (is_bool t). autorewrite with ty_flags.
  unfold no_literal_union, no_literal. by destruct (kind t).
Qed.
Lemma int_is_number t : is_int t = true -> is_number t = true.
Proof. unfold is_number, is_int. by intros ->. Qed.

Ltac returns H := injection H as <- <- <-.
Ltac on_numbers op f :=
  match goal with H : (if is_number t1 && is_number t2 then _ else _) _ = _ |- _ =>
    destruct (is_number t1 && is_number t2) eqn:?;
    [try (apply when_bind in H as [? H]); returns H; apply (numbers_sound t1 t2 O1 O2 x y Hx Hy op f); [set_solver|done..]|]
  end.
(** Each branch of the table gives the values their type. *)
Lemma table_sound op pos h b r h' f v : mistyped op t1 t2 = false -> operator op = Some f ->
  binary_table t1 t2 op pos h = Ok ((b, r), h') -> f (get x) (get y) = Ok v -> values r (mkValue v).
Proof.
  intros Hm Hf Ht E. pose proof (operand_wf _ O1) as W1. pose proof (operand_wf _ O2) as W2.
  assert (Hany : values ANY (mkValue v)) by by apply any_values.
  assert (Hint : is_int t1 && is_int t2 = true -> op ∈ [BLShift; BRShift; BBitXor; BBitAnd] ->
    values INT (mkValue v)).
  { intros [I1 I2]%andb_true_iff Hop. eapply (ints_sound x y op f); [set_solver|done| | |done].
    - rewrite (canonical_int t1) by done. done.
    - rewrite (canonical_int t2) by done. done. }
  destruct op; try discriminate Hf; cbn [binary_table] in Ht.
  - on_numbers BAdd f. destruct (_ && _) eqn:Hs in Ht.
    { returns Ht. apply andb_true_iff in Hs as [S1 S2]. injection Hf as <-.
      apply (canonical_str _ _ W1 Hx) in S1. apply (canonical_str _ _ W2 Hy) in S2.
      destruct (get x); try discriminate S1; destruct (get y); try discriminate S2; simpl in E; run_operator; done. }
    destruct (_ && _) eqn:Hl in Ht; [|by returns Ht].
    apply st_bind_inv in Ht as (i1 & h1 & H1 & Ht). apply st_bind_inv in Ht as (i2 & h2 & H2 & Ht).
    apply st_bind_inv in Ht as (s & h3 & H3 & Ht). returns Ht. injection Hf as <-.
    apply lift_inv in H1, H2, H3. by eapply (lists_sound t1 t2).
  - on_numbers BSub f. by returns Ht.
  - on_numbers BMul f. injection Hf as <-. simpl in Hm. apply orb_false_iff in Hm as [M1 M2].
    destruct (_ && _) eqn:Hl in Ht; [|destruct (_ && _) eqn:Hr in Ht; [|by returns Ht]]; returns Ht.
    + apply andb_true_iff in Hl as [I1 L2]. rewrite (int_is_number t1 I1) in *. simpl in *.
      apply (mul_sound t2 (get x) y); auto; [apply no_literal_of; auto|by apply (canonical_int t1)].
    + apply andb_true_iff in Hr as [L1 I2]. rewrite (int_is_number t2 I2), andb_true_r in *.
      apply (mul_sound t1 (get y) x); auto; [apply no_literal_of; auto|by apply (canonical_int t2)].
  - on_numbers BDiv f. by returns Ht.
  - destruct (_ && _) eqn:Hn in Ht; [|by returns Ht]. apply when_bind in Ht as [? Ht]. returns Ht.
    apply andb_true_iff in Hn as [H1 H2]. simpl in Hm. apply orb_false_iff in Hm as [F1 F2].
    assert (forall t z, wf_ty t = true -> values t z -> is_number t = true -> is_float t = false ->
      is_none_or_undefined (get z) || Value.is_int (get z) || Value.is_bool (get z) = true) as Hc.
    { intros t z Wt Hz Ht Ft. pose proof (canonical_number t z Wt Hz Ht) as Hs.
      pose proof (canonical_not_float t z Wt Hz Ht Ft). by destruct (get z). }
    eapply (ints_sound x y BMod f); [set_solver|done|by apply (Hc t1)|by apply (Hc t2)|done].
  - on_numbers BPow f. by returns Ht.
  - on_numbers BFloorDiv f. by returns Ht.
  - destruct (_ && _) eqn:Hn in Ht; returns Ht; [apply Hint; [done|set_solver]|done].
  - destruct (_ && _) eqn:Hn in Ht; returns Ht; [apply Hint; [done|set_solver]|done].
  - destruct (_ && _) eqn:Hn in Ht; returns Ht; [apply Hint; [done|set_solver]|done].
  - destruct (_ && _) eqn:Hn in Ht; returns Ht; [apply Hint; [done|set_solver]|done].
  - returns Ht. injection Hf as <-. injection E as <-. simpl in Hm. apply negb_false_iff, andb_true_iff in Hm as [B1 B2].
    assert (forall t z, wf_ty t = true -> values t z -> is_bool t = true -> values BOOL (mkValue (get z))) as Hc.
    { intros t z Wt Hz Bt. rewrite wf_is_bool in Bt by done. rewrite has_type_kind in Hz.
      destruct (kind t); try done; unfold of_kind in Hz; simpl in *; destruct (get z); naive_solver. }
    destruct (is_truthy _); [by apply (Hc t2)|by apply (Hc t1)].
  - apply st_bind_inv in Ht as (s & h1 & Hs & Ht). returns Ht. apply lift_inv in Hs. injection Hf as <-.
    injection E as <-. simpl in Hm. apply negb_false_iff, andb_true_iff in Hm as [S1 S2].
    assert (Forall (fun t => simple t = true) [t1; t2]) as Hts by (by repeat constructor).
    destruct x as [vx], y as [vy]. simpl. destruct (is_truthy vx).
    + eapply (sup_values _ Hts s t1); [done|set_solver|done].
    + eapply (sup_values _ Hts s t2); [done|set_solver|done].
Qed.
End TableSound.

(** ** Failures *)

(** A message of an overflow or of a division by zero. *)
Definition fault (e : string) : bool := str_contains e "overflow" || str_contains e "zero".
Definition faults {A} (o : outcome A) : Prop := match o with Ok _ => True | Panic e => fault e = true end.

Lemma fault_suffix p e : fault e = true -> fault (p +:+ e) = true.
Proof.
  unfold fault. rewrite !orb_true_iff, !str_contains_spec.
  intros [(s1 & s2 & ->)|(s1 & s2 & ->)]; [left|right]; exists (p +:+ s1), s2; by rewrite <- !str_app_assoc.
Qed.
Lemma faults_bind {A B} (o : outcome A) (k : A -> outcome B) :
  faults o -> (forall a, faults (k a)) -> faults (o ≫= k).
Proof. destruct o; simpl; auto. Qed.
Lemma faults_panic_if b p : faults p -> faults (panic_if b p).
Proof. by destruct b. Qed.
Lemma faults_arith64 z : faults (arith64 oc z).
Proof. unfold arith64. destruct (in_i64 z), oc; done. Qed.
Lemma faults_rem64 a b : faults (rem64 a b).
Proof. unfold rem64. by repeat case_match. Qed.
Lemma faults_div64 a b : faults (div64 a b).
Proof. unfold div64. by repeat case_match. Qed.
Lemma faults_pow w c a n : faults (pow_w oc w c a n).
Proof. unfold pow_w. by destruct (checked_pow c a n), oc. Qed.
Lemma faults_pow64 a n : faults (pow64 oc a n).
Proof. apply faults_pow. Qed.
Lemma faults_pow128 a n : faults (pow128 oc a n).
Proof. apply faults_pow. Qed.
Lemma faults_shl w a n : faults (shl_w oc w a n).
Proof. unfold shl_w. by repeat case_match. Qed.
Lemma faults_shr w a n : faults (shr_w oc w a n).
Proof. unfold shr_w. by repeat case_match. Qed.
Lemma faults_i32 {A} v : faults (A := A) (panic_i32_overflow v).
Proof. by apply fault_suffix. Qed.
Lemma faults_i64 {A} v : faults (A := A) (panic_i64_overflow v).
Proof. by apply fault_suffix. Qed.
Lemma replace_first_e_app a b : exists a', replace_first_e (a +:+ b) = a' +:+ b \/
  replace_first_e (a +:+ b) = a' +:+ replace_first_e b.
Proof.
  induction a as [|c a [a' IH]]; [exists ""; by right|]. simpl. case_bool_decide.
  - exists (String c (String "+"%char a)). by left.
  - exists (String c a'). simpl. destruct IH as [-> | ->]; [by left|by right].
Qed.
Lemma faults_f32 {A} v : faults (A := A) (panic_f32_overflow v).
Proof.
  unfold panic_f32_overflow. simpl. destruct (str_contains _ _); [by apply fault_suffix|].
  destruct (replace_first_e_app (f64_lower_exp v) ": A 32-bit floating point number overflow") as [a' [-> | ->]];
    by apply fault_suffix.
Qed.
Lemma faults_str_repeat t n : faults (str_repeat t n).
Proof. unfold str_repeat. by repeat case_match. Qed.
Lemma faults_list_repeat {A} (l : list A) n : faults (list_repeat l n).
Proof. unfold list_repeat. by repeat case_match. Qed.
#[local] Hint Resolve faults_panic_if faults_arith64 faults_rem64 faults_div64 faults_pow64 faults_pow128 faults_shl
  faults_shr faults_i32 faults_i64 faults_f32 faults_str_repeat faults_list_repeat : faults.

(** The operands that [op] computes on. *)
Definition computes (op : BinOp) (a b : Value value) : bool :=
  match op with
  | BAdd => (numeric a && numeric b) || (Value.is_str a && Value.is_str b) || (Value.is_list a && Value.is_list b)
  | BMul => (numeric a && numeric b) || (Value.is_int a && (Value.is_str b || Value.is_list b)) ||
            ((Value.is_str a || Value.is_list a) && Value.is_int b)
  | BSub | BDiv | BMod | BPow | BFloorDiv => numeric a && numeric b
  | BLShift | BRShift | BBitXor | BBitAnd => Value.is_int a && Value.is_int b
  | _ => true
  end.
Lemma computes_faults op f a b : operator op = Some f -> computes op a b = true -> faults (f a b).
Proof.
  intros Hf Hc. destruct op; try discriminate Hf; injection Hf as <-; try exact I.
  all: destruct a; try discriminate Hc; destruct b; try discriminate Hc; try exact I; cbn.
  all: repeat first [exact I | solve [auto 2 with faults] | apply faults_bind; [|intros ?] | apply faults_panic_if
    | match goal with |- faults (if ?b then _ else _) => destruct b end].
Qed.

(** *** What the resolver accepts *)

(** A type whose values are known: a number but no boolean, a string or a list. *)
Definition concrete (t : ty) : bool :=
  operand t && match kind t with
               | KInt | KIntLit _ | KFloat | KFloatLit _ | KStr | KStrLit _ | KList _ => true
               | _ => false
               end.
Lemma concrete_values t x : concrete t = true -> values t x -> is_none_or_undefined (get x) = false ->
  (is_number t = true -> numeric (get x) = true) /\ (is_int t = true -> Value.is_int (get x) = true) /\
  (is_str t = true -> Value.is_str (get x) = true) /\ (is_list t = true -> Value.is_list (get x) = true) /\
  is_any t = false /\ is_none t = false /\ is_dict t = false /\ is_schema t = false /\
  literal_union_type_to_variable_type t = Ok t /\
  (is_mul_val_type_or_mul_val_union_type t = true -> is_number t = false ->
   Value.is_str (get x) = true \/ Value.is_list (get x) = true).
Proof.
  intros [Ho Hk]%andb_true_iff Hx Hm. pose proof (operand_wf _ Ho) as Wt.
  unfold is_number, literal_union_type_to_variable_type, is_mul_val_type_or_mul_val_union_type,
    is_kind_type_or_kind_union_type. cbn [existsb].
  fold (is_int t) (is_float t) (is_bool t) (is_str t) (is_list t). autorewrite with ty_flags.
  rewrite has_type_kind in Hx. unfold numeric.
  destruct (kind t); try discriminate Hk; unfold of_kind in Hx; simpl in Hx; rewrite Hm in Hx; simpl in Hx;
    destruct (get x); try discriminate Hx; split_and!; (done || auto).
Qed.

Lemma binary_inv left right op pos h r h' : binary left right op pos h = Ok (r, h') ->
  exists t1 t2, literal_union_type_to_variable_type left = Ok t1 /\
    literal_union_type_to_variable_type right = Ok t2 /\
    ((has_any_type [t1; t2] = true /\ r = ANY) \/
     exists b h1, binary_table t1 t2 op pos h = Ok ((b, r), h1) /\ (b = false -> h' <> [])).
Proof.
  unfold binary. intros E. apply st_bind_inv in E as (t1 & h1 & E1 & E). apply st_bind_inv in E as (t2 & h2 & E2 & E).
  pose proof (lift_state _ _ _ _ E1) as ->. pose proof (lift_state _ _ _ _ E2) as ->.
  apply lift_inv in E1, E2. exists t1, t2. split_and!; [done..|].
  destruct (has_any_type _); [left; by injection E|right].
  apply st_bind_inv in E as ([b r'] & h3 & Et & E). apply st_bind_inv in E as ([] & h4 & Ew & E).
  injection E as -> ->. exists b, h3. split; [done|]. intros ->. simpl in Ew.
  destruct (add_diagnostic_spec (new_with_code LError (unsupported (Ast.bin_symbol op) left right) None pos
    (Some (DError TypeError))) h3) as (h5 & E5 & _ & Hin & _).
  unfold add_type_error in Ew. rewrite E5 in Ew. injection Ew as ->. intros ->. by apply not_elem_of_nil in Hin.
Qed.

Lemma accepted_computes left right op pos r f x y : concrete left = true -> concrete right = true ->
  operator op = Some f -> binary left right op pos [] = Ok (r, []) ->
  values left x -> values right y ->
  is_none_or_undefined (get x) = false -> is_none_or_undefined (get y) = false ->
  computes op (get x) (get y) = true.
Proof.
  intros Cl Cr Hf Hb Hx Hy Mx My.
  destruct (concrete_values _ _ Cl Hx Mx) as (Xn & Xi & Xs & Xl & Xa & Xo & _ & _ & Xw & Xm).
  destruct (concrete_values _ _ Cr Hy My) as (Yn & Yi & Ys & Yl & Ya & Yo & _ & _ & Yw & Ym).
  apply binary_inv in Hb as (t1 & t2 & E1 & E2 & Ht). rewrite Xw in E1. rewrite Yw in E2.
  injection E1 as <-. injection E2 as <-.
  destruct Ht as [[Ha _]|(b & h1 & Ht & Hne)]; [simpl in Ha; by rewrite Xa, Ya in Ha|].
  assert (b = true) as -> by (destruct b; [done|by destruct (Hne eq_refl)]). clear Hne.
  assert (Hnn : is_number left && is_number right = true -> numeric (get x) && numeric (get y) = true).
  { intros [? ?]%andb_true_iff. by rewrite Xn, Yn. }
  assert (Hii : is_int left && is_int right = true -> Value.is_int (get x) && Value.is_int (get y) = true).
  { intros [? ?]%andb_true_iff. by rewrite Xi, Yi. }
  destruct op; try discriminate Hf; try reflexivity; cbn [binary_table computes] in *.
  all: repeat match type of Ht with (if ?c then _ else _) _ = _ => destruct c eqn:?C end; try discriminate Ht;
    try by auto.
  - by rewrite Hnn.
  - apply andb_true_iff in C0 as [? ?]. rewrite (Xs), (Ys) by done. by rewrite orb_true_r.
  - apply andb_true_iff in C1 as [? ?]. rewrite (Xl), (Yl) by done. by rewrite !orb_true_r.
  - by rewrite Hnn.
  - apply andb_true_iff in C0 as [I M]. rewrite (int_is_number _ I) in C. rewrite (Xi I).
    destruct (Ym M C) as [-> | ->]; by rewrite ?orb_true_r.
  - apply andb_true_iff in C1 as [M I]. rewrite (int_is_number _ I), andb_true_r in C. rewrite (Yi I).
    destruct (Xm M C) as [-> | ->]; by rewrite ?orb_true_r.
Qed.
End Operators.

(** The widened type of an operand. *)
Definition widened (t : ty) : ty := match literal_union_type_to_variable_type t with Ok s => s | Panic _ => t end.

Section Soundness.
Context (cfg : ContextConfig) (oc : bool) (powf : f64 -> f64 -> f64).
Notation operator := (operator cfg oc powf).


(** C16: an operator on numbers, strings and lists that the resolver accepts without a report
    fails at run time on an overflow or a zero divisor only, never on its operands. *)
Theorem accepted_operator_faults left right op pos r f x y e :
  concrete left = true -> concrete right = true -> operator op = Some f ->
  binary left right op pos [] = Ok (r, []) ->
  has_type left x = true -> has_type right y = true ->
  is_none_or_undefined (get x) = false -> is_none_or_undefined (get y) = false ->
  f (get x) (get y) = Panic e -> fault e = true.
Proof.
  intros Cl Cr Hf Hb Hx Hy Mx My E.
  pose proof (accepted_computes cfg oc powf _ _ _ _ _ _ _ _ Cl Cr Hf Hb Hx Hy Mx My) as Hc.
  pose proof (computes_faults cfg oc powf op f (get x) (get y) Hf Hc) as Hs. by rewrite E in Hs.
Qed.

(** *** Unary operators *)

Definition unary_operator (op : UnaryOp) : Value value -> outcome (Value value) :=
  match op with
  | UAdd => unary_plus
  | USub => unary_minus oc
  | UInvert => fun a => Ok (unary_not a)
  | UNot => fun a => Ok (unary_l_not a)
  end.
(** The resolver gives an operator the type of its operand, a literal too. *)
Definition mistyped_unary (op : UnaryOp) (t : ty) : bool :=
  match op with
  | UAdd => false
  | USub => is_literal t
  | UInvert => is_literal t || is_bool t
  | UNot => negb (is_bool t) || is_literal t
  end.

(** the same for the unary operators. *)
Theorem unary_sound t op pos h r h' x v :
  operand t = true -> mistyped_unary op (widened t) = false ->
  unary t op pos h = Ok (r, h') -> has_type t x = true ->
  unary_operator op (get x) = Ok v -> has_type r (mkValue v) = true.
Proof.
  intros Ot Hm Hu Hx E. unfold unary in Hu. destruct (has_any_type [t]).
  { injection Hu as <- <-. by apply any_values. }
  apply st_bind_inv in Hu as (s & h1 & Es & Hu). apply lift_inv in Es. unfold widened in Hm. rewrite Es in Hm.
  destruct (widen_operand _ _ Ot Es) as [Os Vs]. apply Vs in Hx. pose proof (operand_wf _ Os) as Ws.
  destruct (match op with UAdd | USub => _ | _ => _ end) eqn:Hr in Hu; cbn iota in Hu.
  2: { apply st_bind_inv in Hu as ([] & h2 & _ & Hu). injection Hu as <- _. by apply any_values. }
  injection Hu as <- _. revert Hm Hr. unfold mistyped_unary, is_number.
  fold (is_int s) (is_float s) (is_bool s). autorewrite with ty_flags.
  rewrite has_type_kind in Hx |- *. intros Hm Hr.
  destruct op; destruct (kind s); try discriminate Hr; try discriminate Hm;
    unfold of_kind in *; simpl in *; destruct (get x); try discriminate Hx; simpl in *; run_operator; done.
Qed.
End Soundness.

(** ** Instances *)

Definition no_strict : ContextConfig := mkConfig false false.
Definition tree_int (z : Z) : value := mkValue (int_value z).
Definition tree_list (l : list value) : value := mkValue (list_value l).

#[local] Ltac computed := first [reflexivity|vm_compute; reflexivity].

Lemma unary_sound_witness : has_type INT (tree_int (-5)) = true.
Proof.
  eapply (unary_sound true (union_of [int_lit 5; INT]) USub dummy_pos [] INT [] (tree_int 5)); computed.
Defined.

Lemma accepted_operator_faults_witness :
  exists e, bin_mod true (get (tree_int 1)) (get (tree_int 0)) = Panic e /\ fault e = true.
Proof.
  eexists. split; [reflexivity|].
  eapply (accepted_operator_faults no_strict true f64_add INT INT BMod dummy_pos INT (bin_mod true)
    (tree_int 1) (tree_int 0)); computed.
Defined.

(** ** Exceptions *)

(** [left op right], of operands [x] and [y], is given the type [r] without a report, and is
    [v]. *)
Definition evaluates (op : BinOp) (left right r : ty) (x y v : Value value) : Prop :=
  binary left right op dummy_pos [] = Ok (r, []) /\ has_type left (mkValue x) = true /\
  has_type right (mkValue y) = true /\
  exists f, operator no_strict true f64_add op = Some f /\ f x y = Ok v.

(** The exceptions are real.  An integer division is an int for the resolver and a float
    in the program; the remainder of floats is an int for the resolver; a repeated string
    keeps its literal type; [and] is a boolean for the resolver and an operand in the
    program; a negated literal keeps its type; [not] has the type of its operand; and a
    boolean is accepted as a number, on which the program panics. *)
Example mistyped_operators :
  let half := f64_of_decimal false 15 (-1) in
  (exists v, evaluates BDiv INT INT INT (int_value 1) (int_value 2) v /\ has_type INT (mkValue v) = false) /\
  (exists v, evaluates BMod FLOAT INT INT (float_value half) (int_value 1) v /\ has_type INT (mkValue v) = false) /\
  (exists v, evaluates BMul INT (str_lit "a") (str_lit "a") (int_value 2) (str_value "a") v /\
             has_type (str_lit "a") (mkValue v) = false) /\
  (exists v, evaluates BAnd INT INT BOOL (int_value 1) (int_value 2) v /\ has_type BOOL (mkValue v) = false) /\
  (exists v, evaluates BAdd (list_of (int_lit 1)) (list_of (float_lit half)) (list_of (float_lit half))
               (list_value [tree_int 1]) (list_value [mkValue (float_value half)]) v /\
             has_type (list_of (float_lit half)) (mkValue v) = false) /\
  (unary (int_lit 5) USub dummy_pos [] = Ok (int_lit 5, []) /\ has_type (int_lit 5) (tree_int (-5)) = false) /\
  (unary INT UNot dummy_pos [] = Ok (INT, []) /\ has_type INT (mkValue (unary_l_not (get (tree_int 1)))) = false) /\
  (binary BOOL INT BAdd dummy_pos [] = Ok (INT, []) /\
   bin_add (V := value) no_strict true (bool_value true) (int_value 1) =
   panic_unsupported_bin_op "+" "bool" "int").
Proof.
  cbv zeta. split_and!.
  1-5: eexists; split; [split_and!; [computed|computed|computed|eexists; split; [reflexivity|reflexivity]]|computed].
  all: computed.
Qed.
