(* ===== verification/Resolver.v ===== *)
(** * The resolver ([kclvm/sema/src/resolver])

    The state of the resolver and the operations on it that do not walk the tree: scopes
    ([scope.rs]), variables ([var.rs]), attributes ([attr.rs]), types ([ty.rs]), the stack of
    configurations and the checks of its entries ([config.rs]), loops ([loop.rs]), parameters
    ([para.rs]) and packages ([import.rs]).  A scope is an index of the arena of [Scope]; the
    schema under construction has one owner and is a value. *)

From S2P Require Import Prelude MachineInt State Floats Chars Utf8 StrLiteral TypeData Unify Sup TypeContext.
From S2P Require Import Diagnostic Calculation AstPos Builtins Scope DocString TypeParser.
From S2P Require Ast.
Import Ast(Node, node, Expr, EIdentifier, ESelector, EParen, ESubscript, EStringLit, EJoinedString, EMissing, ENumberLit, Identifier).

(** What the resolver takes from elsewhere: the graph of dependencies, the profile, the power
    of doubles, Unicode tables and regular expressions. *)
Class ResolverEnv := {
  Graph : Type; re_graph :: DiGraph Graph; re_overflow_checks : bool; re_powf : f64 -> f64 -> f64;
  re_unicode :: UnicodeTables; re_types :: TypeRegexes; re_docs :: DocRegex }.

(** ** Names *)

Definition dot : Ascii.ascii := ".".
Fixpoint split_dots (s : string) (part : string) : list string :=
  match s with
  | EmptyString => [part]
  | String c s' =>
      if bool_decide (c = dot) then part :: split_dots s' "" else split_dots s' (part +:+ String c "")
  end.
(** [split('.')]. *)
Definition split_name (s : string) : list string := split_dots s "".
(** [rsplitn(2, '.')]: the parts before and after the last dot. *)
Fixpoint rsplit_dot (s : string) : option (string * string) :=
  match s with
  | EmptyString => None
  | String c s' =>
      match rsplit_dot s' with
      | Some (before, after) => Some (String c before, after)
      | None => if bool_decide (c = dot) then Some ("", s') else None
      end
  end.
(** [replace('@', "")]. *)
Fixpoint remove_at (s : string) : string :=
  match s with
  | EmptyString => ""
  | String c s' => if bool_decide (c = ("@"%char : Ascii.ascii)) then remove_at s' else String c (remove_at s')
  end.
Fixpoint str_drop (n : nat) (s : string) : string :=
  match n, s with S n', String _ s' => str_drop n' s' | _, _ => s end.
(** [replacen(p, "", 1)]. *)
Fixpoint remove_first (p s : string) : string :=
  if starts_with p s then str_drop (String.length p) s
  else match s with String c s' => String c (remove_first p s') | EmptyString => "" end.
(** [ends_with]. *)
Fixpoint str_ends_with (p s : string) : bool :=
  string_eqb p s || match s with String _ s' => str_ends_with p s' | EmptyString => false end.

Definition is_private_field (name : string) : bool := starts_with "_" name.
Definition schema_runtime_type (name pkgpath : string) : string := pkgpath +:+ "." +:+ name.

Definition ty_str_to_pkgpath (ty_str : string) : string :=
  match rsplit_dot ty_str with Some (before, _) => before | None => ty_str end.
Definition ty_str_replace_pkgpath (ty_str pkgpath : string) : string :=
  let pkgpath := "@" +:+ pkgpath in
  if str_contains ty_str "." && string_eqb (ty_str_to_pkgpath ty_str) pkgpath
  then remove_first (pkgpath +:+ ".") ty_str else ty_str.
(** The names of a named type. *)
Definition names_of_named (ty_str : string) : list string :=
  if starts_with "@" ty_str then
    match rsplit_dot ty_str with Some (before, after) => [before; after] | None => [ty_str] end
  else split_name ty_str.

Definition RESERVED_TYPE_IDENTIFIERS : list string :=
  [ANY_TYPE_STR; INT_TYPE_STR; FLOAT_TYPE_STR; STR_TYPE_STR; BOOL_TYPE_STR].
Definition quoted_name (s : string) : string := dquote +:+ s +:+ dquote.
(** Printed with [{:?}]. *)
Definition reserved_debug : string := "[" +:+ str_join ", " (map quoted_name RESERVED_TYPE_IDENTIFIERS) +:+ "]".
Definition PLUGIN_MODULE_PREFIX : string := "kcl_plugin.".

(** ** Fields of types *)

Definition sch_doc (s : schema_type) : string :=
  let 'mkSchemaType _ _ _ d _ _ _ _ _ _ _ _ _ _ _ := s in d.
Definition sch_is_mixin (s : schema_type) : bool :=
  let 'mkSchemaType _ _ _ _ _ m _ _ _ _ _ _ _ _ _ := s in m.
Definition sch_is_protocol (s : schema_type) : bool :=
  let 'mkSchemaType _ _ _ _ _ _ p _ _ _ _ _ _ _ _ := s in p.
Definition sch_is_rule (s : schema_type) : bool :=
  let 'mkSchemaType _ _ _ _ _ _ _ r _ _ _ _ _ _ _ := s in r.
Definition sch_func (s : schema_type) : function_type :=
  let 'mkSchemaType _ _ _ _ _ _ _ _ _ _ _ _ f _ _ := s in f.
Definition fn_params (f : function_type) : list parameter := let 'mkFunctionType _ p _ _ _ _ := f in p.
Definition fn_return_ty (f : function_type) : ty := let 'mkFunctionType _ _ _ t _ _ := f in t.
Definition param_name (p : parameter) : string := let 'mkParameter n _ _ := p in n.
Definition param_ty (p : parameter) : ty := let 'mkParameter _ t _ := p in t.
Definition attr_is_optional (a : schema_attr) : bool := let 'mkSchemaAttr o _ _ _ _ := a in o.
Definition attr_pos (a : schema_attr) : position := let 'mkSchemaAttr _ _ _ p _ := a in p.
Definition attr_doc_of (a : schema_attr) : option string := let 'mkSchemaAttr _ _ _ _ d := a in d.
Definition index_key_name (i : schema_index_signature) : option string := let 'mkIndexSignature k _ _ _ := i in k.
Definition index_any_other (i : schema_index_signature) : bool := let 'mkIndexSignature _ _ _ o := i in o.
(** A type with the mark of an alias. *)
Definition as_alias (t : ty) : ty := let 'mkType k _ f := t in mkType k true f.
(** The schema of a type as an instance, or not. *)
Definition with_instance (i : bool) (t : ty) : ty :=
  match t with mkType (KSchema s) a f => mkType (KSchema (sch_with_instance s i)) a f | _ => t end.

Section Resolver.
Context `{ResolverEnv}.

(** ** The state *)

Record Context_ : Type := mkContext {
  cx_filename : string;
  cx_pkgpath : string;
  cx_schema : option schema_type;
  schema_mapping : list (string * schema_type);
  local_vars : list string;
  import_names : list (string * list (string * string));
  global_names : list (string * list (string * position));
  l_value : bool;
  start_pos : position;
  end_pos : position;
  in_lambda_expr : list bool;
  config_expr_context : list (option ScopeObject);
  ty_ctx : type_context Graph;
  type_alias_mapping : list (string * list (string * string)) }.

Definition set_filename (x : string) (c : Context_) : Context_ :=
  mkContext x (cx_pkgpath c) (cx_schema c) (schema_mapping c) (local_vars c) (import_names c) (global_names c) (l_value c) (start_pos c) (end_pos c) (in_lambda_expr c) (config_expr_context c) (ty_ctx c) (type_alias_mapping c).
Definition set_pkgpath (x : string) (c : Context_) : Context_ :=
  mkContext (cx_filename c) x (cx_schema c) (schema_mapping c) (local_vars c) (import_names c) (global_names c) (l_value c) (start_pos c) (end_pos c) (in_lambda_expr c) (config_expr_context c) (ty_ctx c) (type_alias_mapping c).
Definition set_schema (x : option schema_type) (c : Context_) : Context_ :=
  mkContext (cx_filename c) (cx_pkgpath c) x (schema_mapping c) (local_vars c) (import_names c) (global_names c) (l_value c) (start_pos c) (end_pos c) (in_lambda_expr c) (config_expr_context c) (ty_ctx c) (type_alias_mapping c).
Definition set_schema_mapping (x : list (string * schema_type)) (c : Context_) : Context_ :=
  mkContext (cx_filename c) (cx_pkgpath c) (cx_schema c) x (local_vars c) (import_names c) (global_names c) (l_value c) (start_pos c) (end_pos c) (in_lambda_expr c) (config_expr_context c) (ty_ctx c) (type_alias_mapping c).
Definition set_local_vars (x : list string) (c : Context_) : Context_ :=
  mkContext (cx_filename c) (cx_pkgpath c) (cx_schema c) (schema_mapping c) x (import_names c) (global_names c) (l_value c) (start_pos c) (end_pos c) (in_lambda_expr c) (config_expr_context c) (ty_ctx c) (type_alias_mapping c).
Definition set_import_names (x : list (string * list (string * string))) (c : Context_) : Context_ :=
  mkContext (cx_filename c) (cx_pkgpath c) (cx_schema c) (schema_mapping c) (local_vars c) x (global_names c) (l_value c) (start_pos c) (end_pos c) (in_lambda_expr c) (config_expr_context c) (ty_ctx c) (type_alias_mapping c).
Definition set_global_names (x : list (string * list (string * position))) (c : Context_) : Context_ :=
  mkContext (cx_filename c) (cx_pkgpath c) (cx_schema c) (schema_mapping c) (local_vars c) (import_names c) x (l_value c) (start_pos c) (end_pos c) (in_lambda_expr c) (config_expr_context c) (ty_ctx c) (type_alias_mapping c).
Definition set_l_value (x : bool) (c : Context_) : Context_ :=
  mkContext (cx_filename c) (cx_pkgpath c) (cx_schema c) (schema_mapping c) (local_vars c) (import_names c) (global_names c) x (start_pos c) (end_pos c) (in_lambda_expr c) (config_expr_context c) (ty_ctx c) (type_alias_mapping c).
Definition set_start_pos (x : position) (c : Context_) : Context_ :=
  mkContext (cx_filename c) (cx_pkgpath c) (cx_schema c) (schema_mapping c) (local_vars c) (import_names c) (global_names c) (l_value c) x (end_pos c) (in_lambda_expr c) (config_expr_context c) (ty_ctx c) (type_alias_mapping c).
Definition set_end_pos (x : position) (c : Context_) : Context_ :=
  mkContext (cx_filename c) (cx_pkgpath c) (cx_schema c) (schema_mapping c) (local_vars c) (import_names c) (global_names c) (l_value c) (start_pos c) x (in_lambda_expr c) (config_expr_context c) (ty_ctx c) (type_alias_mapping c).
Definition set_in_lambda_expr (x : list bool) (c : Context_) : Context_ :=
  mkContext (cx_filename c) (cx_pkgpath c) (cx_schema c) (schema_mapping c) (local_vars c) (import_names c) (global_names c) (l_value c) (start_pos c) (end_pos c) x (config_expr_context c) (ty_ctx c) (type_alias_mapping c).
Definition set_config_expr_context (x : list (option ScopeObject)) (c : Context_) : Context_ :=
  mkContext (cx_filename c) (cx_pkgpath c) (cx_schema c) (schema_mapping c) (local_vars c) (import_names c) (global_names c) (l_value c) (start_pos c) (end_pos c) (in_lambda_expr c) x (ty_ctx c) (type_alias_mapping c).
Definition set_ty_ctx (x : type_context Graph) (c : Context_) : Context_ :=
  mkContext (cx_filename c) (cx_pkgpath c) (cx_schema c) (schema_mapping c) (local_vars c) (import_names c) (global_names c) (l_value c) (start_pos c) (end_pos c) (in_lambda_expr c) (config_expr_context c) x (type_alias_mapping c).
Definition set_type_alias_mapping (x : list (string * list (string * string))) (c : Context_) : Context_ :=
  mkContext (cx_filename c) (cx_pkgpath c) (cx_schema c) (schema_mapping c) (local_vars c) (import_names c) (global_names c) (l_value c) (start_pos c) (end_pos c) (in_lambda_expr c) (config_expr_context c) (ty_ctx c) x.

Record resolver : Type := mkResolver {
  scopes : arena;
  scope_map : list (string * nat);
  scope : nat;
  scope_level : Z;
  ctx : Context_;
  handler : Handler }.

Definition set_scopes (x : arena) (r : resolver) : resolver :=
  mkResolver x (scope_map r) (scope r) (scope_level r) (ctx r) (handler r).
Definition set_scope_map (x : list (string * nat)) (r : resolver) : resolver :=
  mkResolver (scopes r) x (scope r) (scope_level r) (ctx r) (handler r).
Definition set_scope (x : nat) (r : resolver) : resolver :=
  mkResolver (scopes r) (scope_map r) x (scope_level r) (ctx r) (handler r).
Definition set_scope_level (x : Z) (r : resolver) : resolver :=
  mkResolver (scopes r) (scope_map r) (scope r) x (ctx r) (handler r).
Definition set_ctx (x : Context_) (r : resolver) : resolver :=
  mkResolver (scopes r) (scope_map r) (scope r) (scope_level r) x (handler r).
Definition set_handler (x : Handler) (r : resolver) : resolver :=
  mkResolver (scopes r) (scope_map r) (scope r) (scope_level r) (ctx r) x.

Definition default_context : Context_ :=
  mkContext "" "" None [] [] [] [] false (mkPosition "" 0 None) (mkPosition "" 0 None) [] [] (new_context) [].
Definition new_resolver : resolver := mkResolver [builtin_scope] [] 0 0 default_context [].

Notation R := (st resolver).
Notation "m1 ;; m2" := (m1 ≫= fun _ => m2) (at level 100, right associativity, only parsing).

Definition on_ctx (f : Context_ -> Context_) : R unit := modify (fun r => set_ctx (f (ctx r)) r).
(** A check uses the handler only. *)
Definition report {A} (m : st Handler A) : R A :=
  fun r => match m (handler r) with Ok (a, h) => Ok (a, set_handler h r) | Panic e => Panic e end.
Definition compile_error (msg : string) (pos : position) : R unit := report (add_compile_error msg pos).
Definition type_error (msg : string) (pos : position) : R unit := report (add_type_error msg pos).
(** [add_error] with one message. *)
Definition error_at (k : ErrorKind) (pos : position) (msg : string) (note : option string) : R unit :=
  report (add_error k [mkMessage pos LineAndColumn msg note]).

(** ** Scopes *)

Definition enter_scope (start end_ : position) (kind : ScopeKind) : R unit :=
  modify (fun r =>
    set_scope (length (scopes r)) (set_scope_level (scope_level r + 1)
      (set_scopes (push_scope (scopes r) (scope r) (mkScope (Some (scope r)) [] [] start end_ kind)) r))).

Definition leave_scope : R unit :=
  on_ctx (set_local_vars []);;
  s ← gets (fun r => scopes r !! scope r);
  match s with
  | None => panic dangling
  | Some s =>
      match sc_parent s with
      | None => panic "the scope parent is empty, can't leave the scope"
      | Some parent =>
          level ← gets scope_level;
          if level =? 0 then panic "attempt to subtract with overflow"
          else modify (fun r => set_scope parent (set_scope_level (level - 1) r))
      end
  end.

Definition current_elems (r : resolver) : list (string * ScopeObject) :=
  match scopes r !! scope r with Some s => sc_elems s | None => [] end.
Definition find_type_in_scope (name : string) : R (option ty) :=
  gets (fun r => (fun p => so_ty p.2) <$> lookup_obj (scopes r) (scope r) name).
Definition not_defined (name : string) : string := "name '" +:+ remove_at name +:+ "' is not defined".
Definition lookup_type_from_scope (name : string) (pos : position) : R ty :=
  t ← find_type_in_scope name;
  match t with
  | Some t => mret t
  | None => compile_error (not_defined name) pos;; mret ANY
  end.
Definition set_type_to_scope (name : string) (t : ty) (pos : position) : R unit :=
  obj ← gets (fun r => im_get name (current_elems r));
  match obj with
  | Some _ =>
      t ← lift (infer_to_variable_type t);
      modify (fun r => set_scopes (fst (set_ty (scopes r) (scope r) name t)) r)
  | None => compile_error (not_defined name) pos
  end.
Definition insert_object (name : string) (obj : ScopeObject) : R unit :=
  modify (fun r => set_scopes (insert_elem (scopes r) (scope r) name obj) r).
Definition contains_object (name : string) : R bool := gets (fun r => im_contains name (current_elems r)).

(** The objects that the resolver inserts. *)
Definition new_object (name : string) (start end_ : position) (t : ty) (k : ScopeObjectKind) : ScopeObject :=
  mkScopeObject name start end_ t k false None.
Definition insert_variable (name : string) (start end_ : position) (t : ty) : R unit :=
  insert_object name (new_object name start end_ t Variable_).

(** ** The nested tables of the context *)

Definition insert_nested {V} (outer inner : string) (v : V) (m : list (string * list (string * V))) :=
  im_insert outer (im_insert inner v (default [] (im_get outer m))) m.
Definition get_nested {V} (outer inner : string) (m : list (string * list (string * V))) : option V :=
  m ← im_get outer m; im_get inner m.

Definition insert_global_name (name : string) (pos : position) : R unit :=
  on_ctx (fun c => set_global_names (insert_nested (cx_pkgpath c) name pos (global_names c)) c).
Definition get_global_name_pos (name : string) : R (option position) :=
  gets (fun r => get_nested (cx_pkgpath (ctx r)) name (global_names (ctx r))).
Definition contains_global_name (name : string) : R bool :=
  p ← get_global_name_pos name; mret (bool_decide (is_Some p)).
Definition resolve_unique_key (name : string) (pos : position) : R unit :=
  known ← contains_global_name name;
  level ← gets scope_level;
  if negb known && (level =? 0) then insert_global_name name pos
  else
    declared ← get_global_name_pos name;
    report (add_error UniqueKeyError
      (mkMessage pos LineAndColumn ("Unique key error name '" +:+ name +:+ "'") None ::
       match declared with
       | Some p => [mkMessage p LineAndColumn ("The variable '" +:+ name +:+ "' is declared here") None]
       | None => []
       end)).

Definition add_type_alias (name alias : string) : R unit :=
  if (if starts_with "@" alias then string_eqb name (str_drop 1 alias) else string_eqb name alias)
  then mret tt
  else on_ctx (fun c => set_type_alias_mapping (insert_nested (cx_pkgpath c) name alias (type_alias_mapping c)) c).

(** ** Attributes *)

Definition check_attr_ty (t : ty) (pos : position) : R unit :=
  when (negb (is_any t) && negb (is_key t))
    (error_at IllegalAttributeError pos ("A attribute must be string type, got '" +:+ ty_str t +:+ "'") None).

(** The schema as it was built last, when it was. *)
Definition built_schema (s : schema_type) : R schema_type :=
  gets (fun r => default s (im_get (schema_runtime_type (sch_name s) (sch_pkgpath s)) (schema_mapping (ctx r)))).
Definition open_schema (s : schema_type) : bool :=
  sch_is_mixin s || bool_decide (is_Some (sch_index_signature s)).

Definition check_config_attr (attr : string) (pos : position) (s : schema_type) : R unit :=
  s ← built_schema s;
  when (negb (bool_decide (is_Some (get_obj_of_attr s attr))) && negb (open_schema s))
    (compile_error ("Cannot add member '" +:+ attr +:+ "' to schema '" +:+ sch_name s +:+ "'") pos).

Definition schema_load_attr (s : schema_type) (attr : string) : R (bool * ty) :=
  s ← built_schema s;
  mret match get_type_of_attr s attr with
       | Some t => (true, t)
       | None => (open_schema s, ANY)
       end.

Definition module_load_attr (m : module_type) (attr : string) (pos : position) : R (bool * ty) :=
  match mod_kind m with
  | User =>
      v ← gets (fun r => i ← im_get (mod_pkgpath m) (scope_map r); s ← scopes r !! i; im_get attr (sc_elems s));
      match v with
      | Some v =>
          _ ← when (is_module (so_ty v))
            (compile_error ("can not import the attribute '" +:+ attr +:+ "' from the module '" +:+ mod_pkgpath m +:+ "'") pos);
          mret (true, so_ty v)
      | None => mret (false, ANY)
      end
  | System =>
      if string_eqb (mod_pkgpath m) UNITS_MODULE && string_eqb attr UNITS_NUMBER_MULTIPLIER
      then mret (true, number_multiplier_non_lit_ty)
      else
        members ← lift (get_system_module_members (mod_pkgpath m));
        mret (bool_decide (attr ∈ members), ANY)
  | Plugin => mret (true, ANY)
  end.

Definition attr_of (obj : ty) (attr : string) (pos : position) : R (bool * ty) :=
  match kind obj with
  | KAny => mret (true, ANY)
  | KNone | KBool | KBoolLit _ | KInt | KIntLit _ | KFloat | KFloatLit _ | KList _
  | KNumberMultiplier _ | KFunction _ | KNamed _ | KVoid => mret (false, ANY)
  | KStr | KStrLit _ =>
      mret match im_get attr STRING_MEMBER_FUNCTIONS with Some t => (true, t) | None => (false, ANY) end
  | KDict _ val_ty => mret (true, val_ty)
  | KUnion _ => mret (true, ANY)
  | KSchema s =>
      '(result, t) ← schema_load_attr s attr;
      mret (if (result : bool) then (true, t)
            else if is_member_functions s attr
                 then (true, function_of (Some obj) (list_of ANY) [] "" false None)
                 else (false, ANY))
  | KModule m => module_load_attr m attr pos
  end.

Definition load_attr (obj : ty) (attr : string) (pos : position) : R ty :=
  '(result, return_ty) ← attr_of obj attr pos;
  _ ← when (negb result)
    (type_error (ty_str obj +:+ " has no attribute " +:+
                 (if string_eqb attr "" then "[missing name]" else attr)) pos);
  mret return_ty.

(** ** Variables *)

(** [resolve_var] of one name. *)
Definition resolve_name (name : string) (pos : position) : R ty :=
  l ← gets (fun r => l_value (ctx r));
  schema ← gets (fun r => cx_schema (ctx r));
  match schema with
  | Some s =>
      let t := get_type_of_attr s name in
      if negb l then
        scope_ty ← find_type_in_scope name;
        local ← gets (fun r => bool_decide (name ∈ local_vars (ctx r)));
        mret match t with
             | Some t => if (local : bool) || is_any t then default ANY scope_ty else t
             | None => default ANY scope_ty
             end
      else
        known ← contains_object name;
        if negb known || negb (bool_decide (is_Some t)) then
          insert_variable name pos pos ANY;;
          _ ← when (negb (bool_decide (is_Some t))) (on_ctx (set_schema (Some (set_type_of_attr s name ANY))));
          mret ANY
        else
          found ← lookup_type_from_scope name pos;
          mret (default found t)
  | None =>
      if negb l then lookup_type_from_scope name pos
      else
        known ← contains_object name;
        if negb known then insert_variable name pos pos ANY;; mret ANY
        else lookup_type_from_scope name pos
  end.

Definition check_update (pkgpath : string) (pos : position) : R unit :=
  l ← gets (fun r => l_value (ctx r));
  when (negb (string_eqb pkgpath "") && l)
    (compile_error "only schema and dict object can be updated attribute" pos).

(** The object that the name of a package finds is used. *)
Definition mark_used (name : string) : R unit :=
  modify (fun r => match lookup_obj (scopes r) (scope r) name with
                   | Some (i, obj) => set_scopes (insert_elem (scopes r) i name (with_used obj)) r
                   | None => r
                   end).

Fixpoint load_attrs (t : ty) (names : list string) (pos : position) : R ty :=
  match names with
  | [] => mret t
  | name :: names' =>
      l ← gets (fun r => l_value (ctx r));
      _ ← (match kind t with KSchema s => when l (check_config_attr name pos s) | _ => mret tt end);
      t ← load_attr t name pos;
      load_attrs t names' pos
  end.

Definition resolve_var (names : list string) (pkgpath : string) (pos : position) : R ty :=
  check_update pkgpath pos;;
  match names with
  | [name] => resolve_name name pos
  | name :: rest =>
      _ ← when (negb (string_eqb pkgpath "")) (mark_used pkgpath);
      check_update pkgpath pos;;
      t ← resolve_name (if string_eqb pkgpath "" then name else pkgpath) pos;
      load_attrs t rest pos
  | [] => compile_error "missing variable" pos;; mret ANY
  end.

(** ** Types *)

(** [Iterator::all] and [Iterator::any] of a check. *)
Definition all_st {A} (f : A -> check bool) : list A -> check bool :=
  fix go l := match l with [] => mret true | x :: l' => b ← f x; if (b : bool) then go l' else mret false end.
Definition any_st {A} (f : A -> check bool) : list A -> check bool :=
  fix go l := match l with [] => mret false | x :: l' => b ← f x; if (b : bool) then mret true else go l' end.

Definition dict_assignable_to_schema (key_ty val_ty : ty) (s : schema_type) (pos : position) : check bool :=
  match sch_index_signature s with
  | Some ix =>
      b ← lift (assignable_to val_ty (is_val_ty ix));
      _ ← when (negb b)
        (add_type_error ("expected schema index signature value type " +:+ ty_str (is_val_ty ix) +:+ ", got " +:+ ty_str val_ty) pos);
      if index_any_other ix then
        k ← lift (assignable_to key_ty (is_key_ty ix));
        if (k : bool) then lift (assignable_to val_ty (is_val_ty ix)) else mret false
      else mret true
  | None => mret true
  end.

Fixpoint check_type (t : ty) (pos : position) {struct t} : ty -> check bool :=
  fix expected (e : ty) : check bool :=
    match t, e with
    | mkType (KList item_ty) _ _, mkType (KList expected_item_ty) _ _ => check_type item_ty pos expected_item_ty
    | mkType (KDict key_ty val_ty) _ _, mkType (KDict expected_key_ty expected_val_ty) _ _ =>
        k ← check_type key_ty pos expected_key_ty;
        if (k : bool) then check_type val_ty pos expected_val_ty else mret false
    | mkType (KDict key_ty val_ty) _ _, mkType (KSchema s) _ _ => dict_assignable_to_schema key_ty val_ty s pos
    | mkType (KUnion types) _ _, _ => all_st (fun t => check_type t pos e) types
    | _, mkType (KUnion types) _ _ => any_st expected types
    | _, _ => lift (assignable_to t e)
    end.

Definition must_assignable_to (t expected_ty : ty) (pos : position) (expected_pos : option position) : R unit :=
  report (
    b ← check_type t pos expected_ty;
    when (negb b)
      (add_error TypeError
        (mkMessage pos LineAndColumn ("expected " +:+ ty_str expected_ty +:+ ", got " +:+ ty_str t) None ::
         match expected_pos with
         | Some p => [mkMessage p LineAndColumn ("variable is defined here, its type is " +:+ ty_str expected_ty +:+
                                                 ", but got " +:+ ty_str t) None]
         | None => []
         end))).

(** [iter().map(..).collect()] of a method. *)
Definition map_st {A B} (f : A -> R B) : list A -> R (list B) :=
  fix go l := match l with [] => mret [] | x :: l' => y ← f x; ys ← go l'; mret (y :: ys) end.
Definition for_each {A} (f : A -> R unit) : list A -> R unit :=
  fix go l := match l with [] => mret tt | x :: l' => _ ← f x; go l' end.

(** The type that a name of an annotation stands for. *)
Definition resolve_named (ty_str : string) (pos : position) : R ty :=
  pkg ← gets (fun r => cx_pkgpath (ctx r));
  let names := names_of_named (ty_str_replace_pkgpath ty_str pkg) in
  match names with
  | [] => compile_error "missing type annotation" pos;; mret ANY
  | name :: _ =>
      pkgpath ← gets (fun r =>
        if (1 <? length names)%nat && negb (bool_decide (name ∈ local_vars (ctx r)))
        then default "" (get_nested (cx_filename (ctx r)) name (import_names (ctx r))) else "");
      on_ctx (set_l_value false);;
      resolve_var names pkgpath pos
  end.

Fixpoint upgrade_named_ty_with_scope (t : ty) (pos : position) : R ty :=
  match t with
  | mkType (KList item_ty) _ _ => t ← upgrade_named_ty_with_scope item_ty pos; mret (list_of t)
  | mkType (KDict key_ty val_ty) _ _ =>
      k ← upgrade_named_ty_with_scope key_ty pos; v ← upgrade_named_ty_with_scope val_ty pos; mret (dict_of k v)
  | mkType (KUnion types) _ _ =>
      ts ← map_st (fun t => upgrade_named_ty_with_scope t pos) types; mret (union_of ts)
  | mkType (KNamed ty_str) _ _ => resolve_named ty_str pos
  | _ => mret t
  end.

Definition parse_ty_with_scope (t : Ast.Type_) (pos : position) : R ty :=
  t ← lift (type_of_ast re_powf t);
  ret_ty ← upgrade_named_ty_with_scope t pos;
  add_type_alias (into_type_annotation_str t) (into_type_annotation_str ret_ty);;
  mret ret_ty.

Definition parse_ty_str_with_scope (ty_str : text) (pos : position) : R ty :=
  t ← lift (parse_type re_overflow_checks re_powf ty_str);
  ret_ty ← upgrade_named_ty_with_scope t pos;
  add_type_alias (encode ty_str) (into_type_annotation_str ret_ty);;
  mret ret_ty.

(** ** The stack of configurations ([config.rs]) *)

Definition new_config_expr_context_item (name : string) (t : ty) (start end_ : position) : ScopeObject :=
  new_object name start end_ t Scope.Attribute.

(** The item for an attribute of the item at the top. *)
Definition config_item_of (key_name : string) (obj : ScopeObject) : option ScopeObject :=
  match kind (so_ty obj) with
  | KDict _ val_ty => Some (new_config_expr_context_item key_name val_ty (so_start obj) (so_end obj))
  | KSchema s =>
      match get_obj_of_attr s key_name with
      | Some a => Some (new_config_expr_context_item key_name (attr_ty a) (attr_pos a) (attr_pos a))
      | None =>
          match sch_index_signature s with
          | Some ix => Some (new_config_expr_context_item key_name (is_val_ty ix) (so_start obj) (so_end obj))
          | None => None
          end
      end
  | _ => None
  end.
Definition find_schema_attr_obj_from_schema_expr_stack (key_name : string) : R (option ScopeObject) :=
  gets (fun r => if string_eqb key_name "" then None
                 else obj ← mjoin (last (config_expr_context (ctx r))); config_item_of key_name obj).

(** Each returns how many items it pushed. *)
Definition switch_config_expr_context (config_ctx_obj : option ScopeObject) : R nat :=
  on_ctx (fun c => set_config_expr_context (config_expr_context c ++ [config_ctx_obj]) c);; mret 1%nat.
Definition switch_config_expr_context_by_name (name : string) : R nat :=
  obj ← find_schema_attr_obj_from_schema_expr_stack name;
  switch_config_expr_context obj.
Definition switch_config_expr_context_by_names : list string -> R nat :=
  fix go names := match names with
                  | [] => mret 0%nat
                  | name :: names' =>
                      d ← switch_config_expr_context_by_name name; ds ← go names'; mret (d + ds)%nat
                  end.

Definition restore_config_expr_context : R (option ScopeObject) :=
  obj ← gets (fun r => mjoin (last (config_expr_context (ctx r))));
  on_ctx (fun c => set_config_expr_context (removelast (config_expr_context c)) c);;
  mret obj.
Fixpoint restore_times (n : nat) : R unit :=
  match n with O => mret tt | S n' => _ ← restore_config_expr_context; restore_times n' end.
Definition clear_config_expr_context (stack_depth : nat) (clear_all : bool) : R unit :=
  if clear_all then on_ctx (set_config_expr_context []) else restore_times stack_depth.

(** A stretch of work with an item at the top. *)
Definition with_config_context {A} (obj : ScopeObject) (m : R A) : R A :=
  init_stack_depth ← switch_config_expr_context (Some obj);
  a ← m;
  clear_config_expr_context init_stack_depth false;;
  mret a.

(** The names of a key: of an identifier, of an identifier with a number as its index, or the
    text of a string; the flag says that there is an index. *)
Definition key_names (key : Node Expr) : option (list string * bool) :=
  match node key with
  | EIdentifier identifier => Some (map encode (Ast.get_names identifier), false)
  | ESubscript subscript =>
      match node (Ast.sub_value subscript), Ast.sub_index subscript with
      | EIdentifier identifier, Some index =>
          match node index with ENumberLit _ => Some (map encode (Ast.get_names identifier), true) | _ => None end
      | _, _ => None
      end
  | EStringLit string_lit => Some ([encode (Ast.sl_value string_lit)], false)
  | _ => None
  end.

Definition switch_config_expr_context_by_key (key : option (Node Expr)) : R nat :=
  match key with
  | Some key =>
      match node key with
      | EJoinedString _ | EMissing => switch_config_expr_context_by_names [""]
      | _ => match key_names key with
             | Some (names, _) => switch_config_expr_context_by_names names
             | None => mret 0%nat
             end
      end
  | None => mret 0%nat
  end.

Definition check_config_expr_by_key_name (name : string) (key : Node Expr) : R unit :=
  if string_eqb name "" then mret tt
  else
    obj ← gets (fun r => mjoin (last (config_expr_context (ctx r))));
    match obj with
    | Some obj =>
        match kind (so_ty obj) with KSchema s => check_config_attr name (get_pos key) s | _ => mret tt end
    | None => mret tt
    end.

(** [names.len() - 1]. *)
Definition length_minus_one {A} (l : list A) : outcome nat :=
  match l with _ :: l' => Ok (length l') | [] => Panic "attempt to subtract with overflow" end.
Definition nested_dict (n : nat) (t : ty) : ty := Nat.iter n (dict_of STR) t.

(** ** Loops ([loop.rs]) *)

(** The name of a loop variable is bound, or the [unwrap] panics. *)
Definition set_loop_var (name : option string) (t : ty) (pos : position) : R unit :=
  match name with
  | Some name => set_type_to_scope name t pos
  | None => panic "called `Option::unwrap()` on a `None` value"
  end.

(** The types that an iterable gives to one variable, and to the first and second of two. *)
Definition loop_types (iter_ty : ty) : option (ty * ty * ty) :=
  match kind iter_ty with
  | KList item_ty => Some (item_ty, INT, item_ty)
  | KDict key_ty val_ty => Some (key_ty, key_ty, val_ty)
  | KSchema s => Some (schema_key_ty s, schema_key_ty s, schema_val_ty s)
  | KStr | KStrLit _ => Some (STR, INT, STR)
  | _ => None
  end.

Definition loop_step (first_var_name second_var_name : option string) (pos iter_pos : position)
    (vars : ty * ty) (iter_ty : ty) : R (ty * ty) :=
  let '(first_var_ty, second_var_ty) := vars in
  _ ← when (negb (is_iterable iter_ty || is_any iter_ty))
    (compile_error ("'" +:+ ty_str iter_ty +:+ "' object is not iterable") iter_pos);
  match loop_types iter_ty with
  | Some (one, first_, second_) =>
      if bool_decide (is_Some second_var_name) then
        match kind iter_ty with
        | KDict _ _ | KSchema _ =>
            t1 ← lift (sup [first_; first_var_ty]);
            set_loop_var first_var_name t1 pos;;
            t2 ← lift (sup [second_; second_var_ty]);
            set_loop_var second_var_name t2 pos;; mret (t1, t2)
        | _ =>
            t1 ← lift (sup [first_; first_var_ty]);
            t2 ← lift (sup [second_; second_var_ty]);
            set_loop_var first_var_name t1 pos;;
            set_loop_var second_var_name t2 pos;; mret (t1, t2)
        end
      else
        t1 ← lift (sup [one; first_var_ty]);
        set_loop_var first_var_name t1 pos;; mret (t1, second_var_ty)
  | None => mret vars
  end.

Fixpoint loop_steps (first_var_name second_var_name : option string) (pos iter_pos : position)
    (vars : ty * ty) (types : list ty) : R unit :=
  match types with
  | [] => mret tt
  | t :: types' =>
      vars ← loop_step first_var_name second_var_name pos iter_pos vars t;
      loop_steps first_var_name second_var_name pos iter_pos vars types'
  end.

Definition do_loop_type_check (target_node : Node Identifier) (first_var_name second_var_name : option string)
    (iter_ty : ty) (iter_pos : position) : R unit :=
  let types := match kind iter_ty with KUnion types => types | _ => [iter_ty] end in
  loop_steps first_var_name second_var_name (get_pos target_node) iter_pos (VOID, VOID) types.

(** The targets of a loop: their names are bound, and the last one with a name, the first
    name and the second are returned. *)
Fixpoint bind_targets (i : nat) (count : nat) (target_node : option (Node Identifier)) (key_name val_name : option string)
    (targets : list (Node Identifier)) : R (option (Node Identifier) * option string * option string) :=
  match targets with
  | [] => mret (target_node, key_name, val_name)
  | target :: targets' =>
      match Ast.names (node target) with
      | [] => bind_targets (S i) count target_node key_name val_name targets'
      | first :: more =>
          _ ← when (negb (bool_decide (more = [])))
            (compile_error "loop variables can only be ordinary identifiers" (get_pos target));
          let name := encode (node first) in
          match i with
          | O | S O =>
              on_ctx (fun c => set_local_vars (local_vars c ++ [name]) c);;
              insert_variable name (get_pos target) (get_end_pos target) ANY;;
              bind_targets (S i) count (Some target)
                (match i with O => Some name | _ => key_name end)
                (match i with O => val_name | _ => Some name end) targets'
          | _ =>
              compile_error ("the number of loop variables is " +:+ pretty count +:+ ", which can only be 1 or 2") (get_pos target);;
              mret (Some target, key_name, val_name)
          end
      end
  end.

(** ** Parameters ([para.rs]) *)

(** From the last default to the first. *)
Fixpoint check_defaults (mark : bool) (rev_defaults : list (option (Node Expr))) : R unit :=
  match rev_defaults with
  | [] => mret tt
  | Some default :: rest =>
      _ ← when mark (error_at IllegalParameterError (get_pos default)
        "non-default argument follows default argument" (Some "A default argument"));
      check_defaults mark rest
  | None :: rest => check_defaults true rest
  end.
Definition do_parameters_check (args : option (Node (Ast.Arguments_ Expr))) : R unit :=
  match args with Some args => check_defaults false (rev (Ast.defaults (node args))) | None => mret tt end.

(** ** Arguments ([arg.rs]) *)

Fixpoint get_func_name (func : Expr) : string :=
  match func with
  | EIdentifier identifier => quoted_name (encode (Ast.get_name identifier))
  | ESelector selector_expr => quoted_name (encode (Ast.get_name (node (Ast.attr selector_expr))))
  | EParen x => get_func_name (node (Ast.paren_expr x))
  | _ => "anonymous function"
  end.

(** ** Packages ([import.rs]) *)

Definition package_scope : Scope := mkScope (Some 0%nat) [] [] dummy_pos dummy_pos (SkPackage []).
Definition change_package_context (pkgpath filename : string) : R unit :=
  if string_eqb pkgpath "" then mret tt
  else
    known ← gets (fun r => im_contains pkgpath (scope_map r));
    _ ← when (negb known)
      (modify (fun r => set_scope (length (scopes r))
         (set_scope_map (im_insert pkgpath (length (scopes r)) (scope_map r))
           (set_scopes (scopes r ++ [package_scope]) r))));
    on_ctx (fun c => set_filename filename (set_pkgpath pkgpath c));;
    i ← gets (fun r => im_get pkgpath (scope_map r));
    match i with
    | Some i => modify (set_scope i)
    | None => panic "called `Option::unwrap()` on a `None` value"
    end.
End Resolver.
