(* ===== verification/ResolverWalk.v ===== *)
(** * The walk of the resolver over the tree

    One definition per method of [kclvm/sema/src/resolver/{node,config,schema,arg}.rs], each
    over the walk of the expressions it contains.  Every method recurs on parts of its node,
    some of them twice ([check_config_entry] and [walk_config_entries] both walk a value). *)

From S2P Require Import Prelude MachineInt State Floats Chars Utf8 StrLiteral TypeData Unify Sup TypeContext.
From S2P Require Import Diagnostic Calculation AstPos Builtins Scope Units TypeParser.
From S2P Require Ast.
Import Ast(Node, node, Expr, Stmt, Stmt_,
  EIdentifier, EUnary, EBinary, EIf, ESelector, ECall, EParen, EQuant, EList, EListIfItem, EListComp, EStarred, EDictComp,
  EConfigIfEntry, ECompClause, ESchema, EConfig, ECheck, ELambda, ESubscript, EKeyword, EArguments, ECompare, ENumberLit,
  EStringLit, ENameConstantLit, EJoinedString, EFormattedValue, EMissing,
  STypeAlias, SExpr, SUnification, SAssign, SAugAssign, SAssert, SIf, SImport, SSchemaAttr, SSchema, SRule,
  Identifier, mkIdentifier).
From S2P Require Import Resolver.

Section Walk.
Context `{ResolverEnv}.
Notation R := (st resolver).
Notation "m1 ;; m2" := (m1 ≫= fun _ => m2) (at level 100, right associativity, only parsing).

Definition unwrap {A} (o : option A) : R A :=
  match o with Some a => mret a | None => panic "called `Option::unwrap()` on a `None` value" end.
Definition at_index {A} (l : list A) (i : nat) : R A :=
  match l !! i with Some a => mret a | None => panic "index out of bounds" end.

Definition walk_identifier_expr (identifier : Node Identifier) : R ty :=
  resolve_var (map encode (Ast.get_names (node identifier))) (encode (Ast.pkgpath (node identifier))) (get_pos identifier).

Definition walk_identifier (identifier : Identifier) : R ty :=
  pos ← gets (fun r => start_pos (ctx r));
  resolve_var (map encode (Ast.get_names identifier)) (encode (Ast.pkgpath identifier)) pos.

Definition walk_number_lit (x : Ast.NumberLit) : R ty :=
  match Ast.binary_suffix x with
  | Some suffix =>
      raw_value ← (match Ast.nl_value x with
                   | Ast.NlInt int_val => mret int_val
                   | Ast.NlFloat float_val =>
                       pos ← gets (fun r => start_pos (ctx r));
                       compile_error "float literal can not be followed the unit suffix" pos;;
                       mret (f64_as_i64 float_val)
                   end);
      let binary_suffix_str := IntLiteral.suffix_value suffix in
      value ← lift (cal_num re_powf raw_value (txt binary_suffix_str));
      mret (number_multiplier value raw_value binary_suffix_str)
  | None => mret match Ast.nl_value x with
                 | Ast.NlInt int_val => int_lit int_val
                 | Ast.NlFloat float_val => float_lit float_val
                 end
  end.

Definition walk_string_lit (x : Ast.StringLit) : R ty := mret (str_lit (encode (Ast.sl_value x))).

Definition walk_name_constant_lit (x : Ast.NameConstantLit) : R ty :=
  mret match Ast.nc_value x with
       | Ast.NcTrue => bool_lit true
       | Ast.NcFalse => bool_lit false
       | Ast.NcNone | Ast.NcUndefined => NONE
       end.

(** [to_lowercase] of the letters of the specifications: no other character becomes one. *)
Definition lower (c : char) : char := if (65 <=? c) && (c <=? 90) then c + 32 else c.
Definition VALID_FORMAT_SPEC_SET : list text := [txt "#json"; txt "#yaml"].

(** The item types of a value that is unpacked, and whether all of it can be. *)
Fixpoint starred_ty_walk_fn (t : ty) : outcome (ty * bool) :=
  match t with
  | mkType KNone _ _ | mkType KAny _ _ => Ok (t, true)
  | mkType (KList item_ty) _ _ => Ok (item_ty, true)
  | mkType (KDict key_ty _) _ _ => Ok (key_ty, true)
  | mkType (KSchema s) _ _ => Ok (schema_key_ty s, true)
  | mkType (KUnion types) _ _ =>
      results ← TypeParser.map_m starred_ty_walk_fn types;
      s ← sup (map fst results);
      Ok (s, forallb snd results)
  | _ => Ok (ANY, false)
  end.

Section Methods.
Context (walk_expr : Expr -> R ty).

Definition expr (n : Node Expr) : R ty :=
  _ ← (match node n with
       | EIdentifier _ => on_ctx (fun c => set_end_pos (get_end_pos n) (set_start_pos (get_pos n) c))
       | _ => mret tt
       end);
  walk_expr (node n).
Definition exprs (l : list (Node Expr)) : R (list ty) := map_st expr l.
Definition expr_or_any_type (o : option (Node Expr)) : R ty :=
  match o with Some n => walk_expr (node n) | None => mret ANY end.
Definition must_be_type (n : Node Expr) (expected_ty : ty) : R unit :=
  t ← expr n;
  must_assignable_to t expected_ty (get_pos n) None.

(** ** Arguments ([arg.rs]) *)

(** The types of the keyword arguments, in order. *)
Fixpoint walk_kwargs (func_name : string) (check_table : list string) (kwargs : list (Node (Ast.Keyword Expr)))
    : R (list (string * ty)) :=
  match kwargs with
  | [] => mret []
  | kw :: kwargs' =>
      match Ast.names (node (Ast.kw_arg (node kw))) with
      | first :: _ =>
          let arg_name := encode (node first) in
          _ ← when (bool_decide (arg_name ∈ check_table))
            (compile_error (func_name +:+ " has duplicated keyword argument " +:+ arg_name) (get_pos kw));
          t ← expr_or_any_type (Ast.kw_value (node kw));
          rest ← walk_kwargs func_name (check_table ++ [arg_name]) kwargs';
          mret ((arg_name, t) :: rest)
      | [] =>
          compile_error "missing argument" (get_pos kw);;
          walk_kwargs func_name check_table kwargs'
      end
  end.

(** The positional arguments against the parameters; false when there are too many. *)
Fixpoint check_positional (func_name : string) (params : list parameter) (given : nat) (i : nat)
    (args : list (Node Expr)) (arg_types : list ty) : R bool :=
  match arg_types, args with
  | t :: arg_types', arg :: args' =>
      match params !! i with
      | Some param =>
          must_assignable_to t (param_ty param) (get_pos arg) None;;
          check_positional func_name params given (S i) args' arg_types'
      | None =>
          compile_error (func_name +:+ " takes " +:+ pretty (length params) +:+ " positional argument but " +:+
                         pretty given +:+ " were given") (get_pos arg);;
          mret false
      end
  | _, _ => mret true
  end.

(** The keyword arguments; the position is that of the keyword with the same index, also
    when an earlier one had no name. *)
Fixpoint check_keywords (func_name : string) (params : list parameter) (kwargs : list (Node (Ast.Keyword Expr)))
    (kwarg_types : list (string * ty)) : R unit :=
  match kwarg_types, kwargs with
  | (arg_name, kwarg_ty) :: kwarg_types', kw :: kwargs' =>
      _ ← when (negb (existsb (fun p => string_eqb (param_name p) arg_name) params))
        (compile_error (func_name +:+ " got an unexpected keyword argument '" +:+ arg_name +:+ "'") (get_pos kw));
      _ ← (match List.find (fun p => string_eqb (param_name p) arg_name) params with
           | Some p => must_assignable_to kwarg_ty (param_ty p) (get_pos kw) None
           | None => mret tt
           end);
      check_keywords func_name params kwargs' kwarg_types'
  | _, _ => mret tt
  end.

Definition do_arguments_type_check (func : Expr) (args : list (Node Expr)) (kwargs : list (Node (Ast.Keyword Expr)))
    (params : list parameter) : R unit :=
  let func_name := get_func_name func in
  arg_types ← exprs args;
  kwarg_types ← walk_kwargs func_name [] kwargs;
  match params with
  | [] => mret tt
  | _ =>
      go_on ← check_positional func_name params (length args) 0 args arg_types;
      if (go_on : bool) then check_keywords func_name params kwargs kwarg_types else mret tt
  end.

(** ** Configurations ([config.rs]) *)

Definition check_names (key : Node Expr) : list string -> R nat :=
  fix go names :=
    match names with
    | [] => mret 0%nat
    | name :: names' =>
        check_config_expr_by_key_name name key;;
        d ← switch_config_expr_context_by_name name;
        ds ← go names';
        mret (d + ds)%nat
    end.

Definition check_config_entry (key : option (Node Expr)) (value : Node Expr) : R unit :=
  match key with
  | None => mret tt
  | Some key =>
      top ← gets (fun r => mjoin (last (config_expr_context (ctx r))));
      match top, key_names key with
      | Some _, Some (names, has_index) =>
          stack_depth ← check_names key names;
          val_ty ← expr value;
          n ← lift (length_minus_one names);
          let val_ty := nested_dict n val_ty in
          let val_ty := if (has_index : bool) then list_of val_ty else val_ty in
          obj_last ← gets (fun r => mjoin (last (config_expr_context (ctx r))));
          _ ← (match obj_last with
               | Some obj_last => must_assignable_to val_ty (so_ty obj_last) (get_pos key) (Some (so_start obj_last))
               | None => mret tt
               end);
          clear_config_expr_context stack_depth false
      | _, _ => mret tt
      end
  end.

Definition insert_attribute (name : string) (key : Node Expr) (t : ty) : R unit :=
  insert_object name (new_object name (get_pos key) (get_end_pos key) t Scope.Attribute).

(** The types of an entry's keys and values, and that of its value. *)
Definition walk_config_key (key : Node Expr) (value : Node Expr) : R (list ty * list ty * ty * bool) :=
  match node key with
  | EIdentifier identifier =>
      val_ty ← expr value;
      n ← lift (length_minus_one (Ast.names identifier));
      let val_ty := nested_dict n val_ty in
      key_ty ← (match Ast.names identifier with
                | [first] =>
                    let name := encode (node first) in
                    local ← gets (fun r => bool_decide (name ∈ local_vars (ctx r)));
                    key_ty ← (if (local : bool) then expr key else mret (str_lit name));
                    check_attr_ty key_ty (get_pos key);;
                    insert_attribute name key val_ty;;
                    mret key_ty
                | _ => mret STR
                end);
      mret ([key_ty], [val_ty], val_ty, false)
  | _ =>
      if match node key with
         | ESubscript subscript => match node (Ast.sub_value subscript) with EIdentifier _ => true | _ => false end
         | _ => false
         end
      then
        val_ty ← expr value;
        mret ([STR], [list_of val_ty], val_ty, true)
      else
        key_ty ← expr key;
        val_ty ← expr value;
        check_attr_ty key_ty (get_pos key);;
        _ ← (match node key with
             | EStringLit string_lit => insert_attribute (encode (Ast.sl_value string_lit)) key val_ty
             | _ => mret tt
             end);
        mret ([key_ty], [val_ty], val_ty, false)
  end.

(** An entry without a key unpacks its value. *)
Definition walk_unpacked (value : Node Expr) : R (list ty * list ty * ty * bool) :=
  val_ty ← expr value;
  '(key_types, val_types) ←
    (match kind val_ty with
     | KNone | KAny => mret ([], [val_ty])
     | KDict key_ty val_ty => mret ([key_ty], [val_ty])
     | KSchema s => mret ([schema_key_ty s], [schema_val_ty s])
     | k =>
         match (match k with
                | KUnion types => if is_config_type_or_config_union_type val_ty then Some types else None
                | _ => None
                end) with
         | Some types =>
             ks ← lift (TypeParser.map_m config_key_ty types);
             k ← lift (sup ks);
             vs ← lift (TypeParser.map_m config_val_ty types);
             v ← lift (sup vs);
             mret ([k], [v])
         | None =>
             compile_error ("only dict and schema can be used ** unpack, got '" +:+ ty_str val_ty +:+ "'") (get_pos value);;
             mret ([], [])
         end
     end);
  mret (key_types, val_types, val_ty, false).

Definition walk_config_entry (item : Node (Ast.ConfigEntry Expr)) : R (list ty * list ty) :=
  let key := Ast.ce_key (node item) in
  let value := Ast.ce_value (node item) in
  check_config_entry key value;;
  stack_depth ← switch_config_expr_context_by_key key;
  '(key_types, val_types, val_ty, has_insert_index) ←
    (match key with Some key => walk_config_key key value | None => walk_unpacked value end);
  _ ← when (match Ast.operation (node item) with Ast.OpInsert => true | _ => false end &&
            negb has_insert_index && negb (is_any val_ty) && negb (is_list val_ty))
    (error_at IllegalAttributeError (get_pos value) ("only list type can in inserted, got '" +:+ ty_str val_ty +:+ "'") None);
  clear_config_expr_context stack_depth false;;
  mret (key_types, val_types).

Definition walk_config_entries (entries : list (Node (Ast.ConfigEntry Expr))) : R ty :=
  '(start, end_) ← gets (fun r => (start_pos (ctx r), end_pos (ctx r)));
  enter_scope start end_ SkConfig;;
  types ← map_st walk_config_entry entries;
  leave_scope;;
  key_ty ← lift (sup (concat (map fst types)));
  val_ty ← lift (sup (concat (map snd types)));
  mret (dict_of key_ty val_ty).

Definition walk_config_expr (x : Ast.ConfigExpr Expr) : R ty := walk_config_entries (Ast.items x).

Definition walk_config_if_entry_expr (x : Ast.ConfigIfEntryExpr Expr) : R ty :=
  expr (Ast.ci_if_cond x);;
  dict_ty ← walk_config_entries (Ast.ci_items x);
  match Ast.ci_orelse x with
  | Some orelse => or_else_ty ← expr orelse; lift (sup [dict_ty; or_else_ty])
  | None => mret dict_ty
  end.

(** ** Operators and accesses *)

Definition walk_if_expr (x : Ast.IfExpr Expr) : R ty :=
  expr (Ast.ie_cond x);;
  body_ty ← expr (Ast.ie_body x);
  orelse_ty ← expr (Ast.ie_orelse x);
  lift (sup [body_ty; orelse_ty]).

Definition walk_unary_expr (x : Ast.UnaryExpr Expr) : R ty :=
  operand_ty ← expr (Ast.operand x);
  report (unary operand_ty (Ast.un_op x) (get_pos (Ast.operand x))).

(** The right operand of [as] is a type. *)
Definition as_type (identifier : Identifier) (right_pos : position) : R ty :=
  right_ty ← parse_ty_str_with_scope (Ast.get_name identifier) right_pos;
  right_ty ← (if is_schema right_ty
              then s ← lift (into_schema_type right_ty); mret (schema_of (sch_with_instance s true))
              else mret right_ty);
  pkg ← gets (fun r => cx_pkgpath (ctx r));
  add_type_alias (encode (Ast.get_name identifier)) (ty_str_replace_pkgpath (into_type_annotation_str right_ty) pkg);;
  mret right_ty.

Definition walk_binary_expr (x : Ast.BinaryExpr Expr) : R ty :=
  left_ty ← expr (Ast.left x);
  right_ty ← expr (Ast.right x);
  let pos := get_pos (Ast.left x) in
  match Ast.bin_op x with
  | Ast.BcBin Ast.BAs =>
      match node (Ast.right x) with
      | EIdentifier identifier =>
          right_ty ← as_type identifier (get_pos (Ast.right x));
          report (binary left_ty right_ty Ast.BAs pos)
      | _ => compile_error "keyword 'as' right operand must be a type" pos;; mret left_ty
      end
  | Ast.BcBin bin_op => report (binary left_ty right_ty bin_op pos)
  | Ast.BcCmp cmp_op => report (compare left_ty right_ty cmp_op pos)
  end.

Fixpoint select_attrs (t : ty) (names : list string) (pos : position) {struct names} : R ty :=
  match names with
  | [] => mret t
  | name :: names' => t ← load_attr t name pos; select_attrs t names' pos
  end.
Definition walk_selector_expr (x : Ast.SelectorExpr Expr) : R ty :=
  value_ty ← expr (Ast.sel_value x);
  let pos := get_pos (Ast.attr x) in
  let attr := encode (Ast.get_name (node (Ast.attr x))) in
  _ ← when (is_module value_ty && Ast.sel_has_question x)
    (compile_error ("For the module type, the use of '?." +:+ attr +:+ "' is unnecessary and it can be modified as '." +:+
                    attr +:+ "'") (get_pos (Ast.sel_value x)));
  select_attrs value_ty (map (fun n => encode (node n)) (Ast.names (node (Ast.attr x)))) pos.

Definition walk_call_expr (x : Ast.CallExpr Expr) : R ty :=
  call_ty ← expr (Ast.func x);
  let pos := get_pos (Ast.func x) in
  let check_args params := do_arguments_type_check (node (Ast.func x)) (Ast.args x) (Ast.keywords x) params in
  if is_any call_ty then check_args [];; mret ANY
  else match kind call_ty with
  | KFunction func_ty => check_args (fn_params func_ty);; mret (fn_return_ty func_ty)
  | KSchema s =>
      if sch_is_instance s then
        compile_error ("schema '" +:+ ty_str call_ty +:+ "' instance is not callable") pos;; mret ANY
      else
        check_args (fn_params (sch_func s));; mret (schema_of (sch_with_instance s true))
  | _ => compile_error ("'" +:+ ty_str call_ty +:+ "' object is not callable") pos;; mret ANY
  end.

Definition is_str_kind (t : ty) : bool := match kind t with KStr | KStrLit _ => true | _ => false end.

(** The type of an element of a dict or schema; the test for a literal key looks at the value
    and not at the index. *)
Definition subscript_entry (x : Ast.Subscript Expr) (value_ty val_ty : ty) : R ty :=
  let pos := get_pos (Ast.sub_value x) in
  match Ast.sub_index x with
  | Some index =>
      index_key_ty ← expr index;
      if is_none_or_any index_key_ty then mret val_ty
      else if negb (is_key index_key_ty) then
        compile_error ("invalid dict/schema key type: '" +:+ ty_str index_key_ty +:+ "'") pos;; mret ANY
      else match node (Ast.sub_value x) with
      | EStringLit string_lit => load_attr value_ty (encode (Ast.sl_value string_lit)) pos
      | _ => mret val_ty
      end
  | None => compile_error "unhashable type: 'slice'" pos;; mret ANY
  end.

Definition bound_must_be_int (o : option (Node Expr)) : R unit :=
  match o with Some n => must_be_type n INT | None => mret tt end.

Definition walk_subscript (x : Ast.Subscript Expr) : R ty :=
  value_ty ← expr (Ast.sub_value x);
  if is_any value_ty then mret value_ty
  else match kind value_ty with
  | KStr | KStrLit _ | KList _ =>
      match Ast.sub_index x with
      | Some index =>
          must_be_type index ANY;;
          if is_list value_ty then lift (list_item_ty value_ty) else mret STR
      | None =>
          bound_must_be_int (Ast.lower x);;
          bound_must_be_int (Ast.upper x);;
          bound_must_be_int (Ast.step x);;
          mret (if is_list value_ty then value_ty else STR)
      end
  | KDict _ val_ty => subscript_entry x value_ty val_ty
  | KSchema s => subscript_entry x value_ty (schema_val_ty s)
  | _ =>
      compile_error ("'" +:+ ty_str value_ty +:+ "' object is not subscriptable") (get_pos (Ast.sub_value x));;
      mret ANY
  end.

Definition walk_paren_expr (x : Ast.ParenExpr Expr) : R ty := expr (Ast.paren_expr x).

(** The comparators after the first are not walked: their operators are checked against the
    type of the first. *)
Fixpoint compare_rest (t1 t2 : ty) (ops : list Ast.CmpOp) (comparators : list (Node Expr)) (i n : nat) : R unit :=
  match n with
  | O => mret tt
  | S n' =>
      op ← at_index ops (S i);
      c ← at_index comparators i;
      _ ← report (compare t1 t2 op (get_pos c));
      compare_rest t1 t2 ops comparators (S i) n'
  end.
Definition walk_compare (x : Ast.Compare Expr) : R ty :=
  t1 ← expr (Ast.cmp_left x);
  first ← (match Ast.comparators x with c :: _ => mret c | [] => panic "index out of bounds" end);
  t2 ← (match Ast.comparators x with c :: _ => expr c | [] => panic "index out of bounds" end);
  op ← at_index (Ast.ops x) 0;
  _ ← report (compare t1 t2 op (get_pos first));
  compare_rest t1 t2 (Ast.ops x) (Ast.comparators x) 1 (length (Ast.comparators x) - 2);;
  mret BOOL.

(** ** Lists, comprehensions and quantifiers *)

Definition walk_list_expr (x : Ast.ListExpr Expr) : R ty :=
  types ← exprs (Ast.elts x);
  item_type ← lift (sup types);
  mret (list_of item_type).

Definition walk_list_if_item_expr (x : Ast.ListIfItemExpr Expr) : R ty :=
  expr (Ast.li_if_cond x);;
  or_else_ty ← expr_or_any_type (Ast.li_orelse x);
  let or_else_ty := match kind or_else_ty with KList item_ty => item_ty | _ => or_else_ty end in
  types ← exprs (Ast.li_exprs x);
  exprs_ty ← lift (sup types);
  lift (sup [or_else_ty; exprs_ty]).

Definition walk_starred_expr (x : Ast.StarredExpr Expr) : R ty :=
  value_ty ← expr (Ast.star_value x);
  '(t, result) ← lift (starred_ty_walk_fn value_ty);
  _ ← when (negb result)
    (compile_error ("only list, dict, schema object can be used * unpacked, got " +:+ ty_str t) (get_pos (Ast.star_value x)));
  mret t.

Definition walk_comp_clause (x : Ast.CompClause Expr) : R ty :=
  iter_ty ← expr (Ast.iter x);
  '(target_node, key_name, val_name) ← bind_targets 0 (length (Ast.cc_targets x)) None None None (Ast.cc_targets x);
  if is_any iter_ty then mret iter_ty
  else
    target_node ← unwrap target_node;
    do_loop_type_check target_node key_name val_name iter_ty (get_pos (Ast.iter x));;
    exprs (Ast.ifs x);;
    mret ANY.
Definition walk_comp_clauses (l : list (Node (Ast.CompClause Expr))) : R unit :=
  for_each (fun c => walk_comp_clause (node c);; mret tt) l.

(** The end of the last generator, or of the element. *)
Definition comp_end (generators : list (Node (Ast.CompClause Expr))) (n : Node Expr) : position :=
  match last generators with Some g => get_end_pos g | None => get_end_pos n end.

Definition walk_list_comp (x : Ast.ListComp Expr) : R ty :=
  let start := get_pos (Ast.elt x) in
  enter_scope start (comp_end (Ast.lc_generators x) (Ast.elt x)) SkLoop;;
  walk_comp_clauses (Ast.lc_generators x);;
  _ ← (match node (Ast.elt x) with
       | EStarred _ => compile_error "list unpacking cannot be used in list comprehension" start
       | _ => mret tt
       end);
  item_ty ← expr (Ast.elt x);
  leave_scope;;
  mret (list_of item_ty).

Definition walk_dict_comp (x : Ast.DictComp Expr) : R ty :=
  match Ast.ce_key (Ast.dc_entry x) with
  | None => panic "called `Option::unwrap()` on a `None` value"
  | Some key =>
      let start := get_pos key in
      enter_scope start (comp_end (Ast.dc_generators x) (Ast.ce_value (Ast.dc_entry x))) SkLoop;;
      walk_comp_clauses (Ast.dc_generators x);;
      key_ty ← expr key;
      check_attr_ty key_ty start;;
      val_ty ← expr (Ast.ce_value (Ast.dc_entry x));
      leave_scope;;
      mret (dict_of key_ty val_ty)
  end.

Definition walk_quant_expr (x : Ast.QuantExpr Expr) : R ty :=
  iter_ty ← expr (Ast.target x);
  if is_any iter_ty then mret iter_ty
  else
    '(start, end_) ← gets (fun r => (start_pos (ctx r), end_pos (ctx r)));
    enter_scope start end_ SkLoop;;
    '(target_node, key_name, val_name) ← bind_targets 0 (length (Ast.variables x)) None None None (Ast.variables x);
    target_node ← unwrap target_node;
    do_loop_type_check target_node key_name val_name iter_ty (get_pos (Ast.target x));;
    expr_or_any_type (Ast.quant_if_cond x);;
    item_ty ← expr (Ast.quant_test x);
    leave_scope;;
    mret match Ast.quant_op x with
         | Ast.QAll | Ast.QAny => BOOL
         | Ast.QFilter => iter_ty
         | Ast.QMap => list_of item_ty
         end.

(** ** Schemas and strings *)

Definition walk_schema_expr (x : Ast.SchemaExpr Expr) : R ty :=
  def_ty ← walk_identifier_expr (Ast.se_name x);
  _ ← (match node (Ast.se_config x) with
       | EConfig _ => mret tt
       | _ => compile_error "Invalid schema config expr, expect config entries, e.g., {k1 = v1, k2 = v2}" (get_pos (Ast.se_config x))
       end);
  let pos := get_pos (Ast.se_name x) in
  match kind def_ty with
  | KDict _ _ =>
      config_ty ← with_config_context (new_config_expr_context_item "" def_ty dummy_pos dummy_pos) (expr (Ast.se_config x));
      ret_ty ← report (binary def_ty config_ty Ast.BBitOr pos);
      let def_ty_clone := with_instance true def_ty in
      mret (if is_schema def_ty_clone then def_ty_clone else ret_ty)
  | KSchema s =>
      _ ← when (negb (sch_is_instance s))
        (pkg ← gets (fun r => cx_pkgpath (ctx r));
         add_type_alias (encode (Ast.get_name (node (Ast.se_name x))))
           (ty_str_replace_pkgpath (into_type_annotation_str def_ty) pkg));
      _ ← with_config_context (new_config_expr_context_item (sch_name s) def_ty dummy_pos dummy_pos) (expr (Ast.se_config x));
      _ ← (if sch_is_instance s then
             when (negb (bool_decide (Ast.se_args x = [])) || negb (bool_decide (Ast.kwargs x = [])))
               (compile_error "Arguments cannot be used in the schema modification expression" pos)
           else do_arguments_type_check (EIdentifier (node (Ast.se_name x))) (Ast.se_args x) (Ast.kwargs x) (fn_params (sch_func s)));
      let def_ty_clone := with_instance true def_ty in
      mret (if is_schema def_ty_clone then def_ty_clone else ANY)
  | _ =>
      file ← gets (fun r => cx_filename (ctx r));
      compile_error ("Invalid schema type '" +:+ ty_str def_ty +:+ "'") (mkPosition file (TypeData.line pos) (TypeData.column pos));;
      mret ANY
  end.

Definition walk_check_expr (x : Ast.CheckExpr Expr) : R ty :=
  _ ← (match Ast.ck_msg x with Some msg => must_be_type msg STR | None => mret tt end);
  expr_or_any_type (Ast.ck_if_cond x);;
  expr (Ast.ck_test x).

Definition walk_keyword (x : Ast.Keyword Expr) : R ty :=
  walk_identifier_expr (Ast.kw_arg x);;
  expr_or_any_type (Ast.kw_value x).

(** The parameters: their types are resolved and their defaults, which are indexed, walked. *)
Fixpoint walk_parameters (args : Ast.Arguments_ Expr) (i : nat) (params : list (Node Identifier))
    (values : list (option (Node Expr))) {struct values} : R (list parameter) :=
  match params with
  | [] => mret []
  | arg :: params' =>
      arg_ty ← lift (Ast.get_arg_type args i);
      t ← parse_ty_with_scope arg_ty (get_pos arg);
      match values with
      | [] => panic "index out of bounds"
      | value :: values' =>
          expr_or_any_type value;;
          rest ← walk_parameters args (S i) params' values';
          mret (mkParameter (encode (Ast.get_name (node arg))) t false :: rest)
      end
  end.
Definition walk_arguments (x : Ast.Arguments_ Expr) : R ty :=
  walk_parameters x 0 (Ast.ar_args x) (Ast.defaults x);; mret ANY.

Definition walk_joined_string (x : Ast.JoinedString Expr) : R ty :=
  on_ctx (set_l_value false);;
  exprs (Ast.js_values x);;
  mret STR.

Definition walk_formatted_value (x : Ast.FormattedValue Expr) : R ty :=
  _ ← (match Ast.format_spec x with
       | Some spec =>
           when (negb (bool_decide (map lower spec ∈ VALID_FORMAT_SPEC_SET)))
             (compile_error (encode spec +:+ " is a invalid format spec") (get_pos (Ast.fv_value x)))
       | None => mret tt
       end);
  expr (Ast.fv_value x).
End Methods.
End Walk.
