(* ===== verification/ResolverStmt.v ===== *)
(** * The walk of the resolver over statements

    The statements of [kclvm/sema/src/resolver/node.rs] and the schemas, rules and decorators
    of [schema.rs]; at the end the walk itself, by recursion on the tree. *)

From S2P Require Import Prelude MachineInt State Floats Chars Utf8 StrLiteral TypeData Unify Sup TypeContext.
From S2P Require Import Diagnostic Calculation AstPos Builtins Scope Units TypeParser.
From S2P Require Ast.
Import Ast(Node, node, Expr, Stmt, Stmt_,
  EIdentifier, EUnary, EBinary, EIf, ESelector, ECall, EParen, EQuant, EList, EListIfItem, EListComp, EStarred, EDictComp,
  EConfigIfEntry, ECompClause, ESchema, EConfig, ECheck, ELambda, ESubscript, EKeyword, EArguments, ECompare, ENumberLit,
  EStringLit, ENameConstantLit, EJoinedString, EFormattedValue, EMissing,
  STypeAlias, SExpr, SUnification, SAssign, SAugAssign, SAssert, SIf, SImport, SSchemaAttr, SSchema, SRule,
  Identifier, mkIdentifier).
From S2P Require Import Resolver ResolverWalk.

Section Stmts.
Context `{ResolverEnv}.
Notation R := (st resolver).
Notation "m1 ;; m2" := (m1 ≫= fun _ => m2) (at level 100, right associativity, only parsing).

(** The walk of a name that is assigned. *)
Definition walk_target (target : Node Identifier) : R ty :=
  on_ctx (set_l_value true);;
  t ← walk_identifier_expr target;
  on_ctx (set_l_value false);;
  mret t.

Definition walk_type_alias_stmt (x : Ast.TypeAliasStmt) : R ty :=
  let start := get_pos (Ast.ta_type_name x) in
  let end_ := get_end_pos (Ast.ta_type_name x) in
  t ← parse_ty_with_scope (node (Ast.ta_ty x)) start;
  let t := as_alias (with_instance false t) in
  let ty_str := into_type_annotation_str t in
  let name := encode (Ast.get_name (node (Ast.ta_type_name x))) in
  on_ctx (fun c => set_import_names (im_insert name [(ty_str, "")] (import_names c)) c);;
  add_type_alias name ty_str;;
  _ ← when (bool_decide (name ∈ RESERVED_TYPE_IDENTIFIERS))
    (type_error ("type alias '" +:+ name +:+ "' cannot be the same as the built-in types (" +:+ reserved_debug +:+ ")") start);
  insert_object name (new_object name start end_ t TypeAlias);;
  mret t.

Definition walk_import_stmt (x : Ast.ImportStmt) : R ty := mret ANY.

Section Exprs.
Context (walk_expr : Expr -> R ty).
Notation expr := (expr walk_expr).
Notation exprs := (exprs walk_expr).
Notation expr_or_any_type := (expr_or_any_type walk_expr).

Definition walk_expr_stmt (x : Ast.ExprStmt Expr) : R ty :=
  types ← exprs (Ast.exprs x);
  match last types with
  | Some t =>
      _ ← (match Ast.exprs x with
           | _ :: second :: _ => compile_error "expression statement can only have one expression" (get_pos second)
           | _ => mret tt
           end);
      mret t
  | None => panic "invalid expr statement exprs"
  end.

Definition walk_unification_stmt (x : Ast.UnificationStmt Expr) : R ty :=
  let target := Ast.uni_target x in
  let names := Ast.names (node target) in
  _ ← when (1 <? length names)%nat
    (compile_error "unification identifier can not be selected" (get_pos target));
  let start := get_pos (Ast.uni_value x) in
  let end_ := get_end_pos (Ast.uni_value x) in
  match names with
  | [] => compile_error "missing target in the unification statement" start;; mret ANY
  | first :: _ =>
      let name := encode (node first) in
      expected_ty ← walk_target target;
      t ← with_config_context (new_config_expr_context_item name expected_ty start end_)
            (walk_schema_expr walk_expr (node (Ast.uni_value x)));
      must_assignable_to t expected_ty (get_pos target) None;;
      _ ← when (negb (is_any t) && is_any expected_ty) (set_type_to_scope name t (get_pos target));
      mret expected_ty
  end.

(** The value of an assignment, in the context of the schema that is expected. *)
Definition assigned_value (value : Node Expr) (expected_ty : ty) (start end_ : position) : R ty :=
  match kind expected_ty with
  | KSchema s => with_config_context (new_config_expr_context_item (sch_name s) expected_ty start end_) (expr value)
  | _ => expr value
  end.

(** An attribute that had no type gets that of its value. *)
Definition set_schema_attr (name : string) (value_ty : ty) : R unit :=
  schema ← gets (fun r => cx_schema (ctx r));
  match schema with
  | Some s =>
      t ← lift (infer_to_variable_type value_ty);
      on_ctx (set_schema (Some (set_type_of_attr s name t)))
  | None => mret tt
  end.

Definition is_config_value (n : Node Expr) : bool := match node n with ESchema _ => true | _ => false end.

Definition assign_target (x : Ast.AssignStmt Expr) (start end_ : position) (target : Node Identifier) (first : Node text)
    : R ty :=
  let name := encode (node first) in
  known ← contains_global_name name;
  level ← gets scope_level;
  _ ← when ((is_private_field name || is_config_value (Ast.as_value x) || negb known) && (level =? 0))
    (insert_global_name name (get_pos target));
  match Ast.names (node target) with
  | [_] =>
      expected_ty ← walk_target target;
      value_ty ← assigned_value (Ast.as_value x) expected_ty start end_;
      must_assignable_to value_ty expected_ty (get_pos target) None;;
      _ ← when (negb (is_any value_ty) && is_any expected_ty && negb (bool_decide (is_Some (Ast.as_type_annotation x))))
        (set_type_to_scope name value_ty (get_pos target);; set_schema_attr name value_ty);
      mret value_ty
  | _ =>
      lookup_type_from_scope name (get_pos target);;
      expected_ty ← walk_target target;
      value_ty ← expr (Ast.as_value x);
      must_assignable_to value_ty expected_ty (get_pos target) None;;
      mret value_ty
  end.

(** A target without names is skipped. *)
Fixpoint assign_targets (x : Ast.AssignStmt Expr) (start end_ : position) (value_ty : ty) (targets : list (Node Identifier))
    : R ty :=
  match targets with
  | [] => mret value_ty
  | target :: targets' =>
      match Ast.names (node target) with
      | [] => assign_targets x start end_ value_ty targets'
      | first :: _ =>
          value_ty ← assign_target x start end_ target first;
          assign_targets x start end_ value_ty targets'
      end
  end.

Definition walk_assign_stmt (x : Ast.AssignStmt Expr) : R ty :=
  on_ctx (set_local_vars []);;
  first ← at_index (Ast.targets x) 0;
  assign_targets x (get_pos first) (get_pos (Ast.as_value x)) ANY (Ast.targets x).

(** A global name that is known, not private and not given a schema is immutable. *)
Definition check_immutable (target : Node Identifier) (name : string) (value : Node Expr) : R unit :=
  known ← contains_global_name name;
  if is_private_field name || is_config_value value || negb known then
    level ← gets scope_level;
    when (level =? 0) (insert_global_name name (get_pos target))
  else
    declared ← get_global_name_pos name;
    report (add_error ImmutableError
      (mkMessage (get_pos target) LineAndColumn ("Immutable variable '" +:+ name +:+ "' is modified during compiling") None ::
       match declared with
       | Some p => [mkMessage p LineAndColumn ("The variable '" +:+ name +:+ "' is declared here firstly")
                      (Some ("change the variable name to '_" +:+ name +:+ "' to make it mutable"))]
       | None => []
       end)).

Definition walk_aug_assign_stmt (x : Ast.AugAssignStmt Expr) : R ty :=
  let target := Ast.aug_target x in
  on_ctx (set_l_value false);;
  _ ← (match Ast.names (node target) with
       | first :: _ => check_immutable target (encode (node first)) (Ast.aug_value x)
       | [] => mret tt
       end);
  left_ty ← walk_identifier_expr target;
  right_ty ← expr (Ast.aug_value x);
  op ← (match Ast.aug_into_bin (Ast.aug_op x) with
        | Some op => mret op
        | None => panic "aug assign op can not into bin op"
        end);
  new_target_ty ← report (binary left_ty right_ty op (get_pos target));
  on_ctx (set_l_value true);;
  expected_ty ← walk_identifier_expr target;
  must_assignable_to new_target_ty expected_ty (get_pos target) None;;
  on_ctx (set_l_value false);;
  mret new_target_ty.

Definition walk_assert_stmt (x : Ast.AssertStmt Expr) : R ty :=
  expr (Ast.at_test x);;
  expr_or_any_type (Ast.at_if_cond x);;
  _ ← (match Ast.at_msg x with Some msg => must_be_type walk_expr msg STR | None => mret tt end);
  mret ANY.

(** ** Decorators and attributes *)

Definition decorator_name (func : Expr) : option text :=
  match func with
  | EIdentifier identifier => match Ast.names identifier with [first] => Some (node first) | _ => None end
  | _ => None
  end.

Fixpoint resolve_decorators (decorators : list (Node (Ast.CallExpr Expr))) (target : DecoratorTarget) (key : string)
    : R (list decorator) :=
  match decorators with
  | [] => mret []
  | d :: decorators' =>
      obj ← (match decorator_name (node (Ast.func (node d))) with
             | Some name =>
                 let name := encode name in
                 match im_get name BUILTIN_DECORATORS with
                 | Some t =>
                     match kind t with
                     | KFunction func_ty =>
                         do_arguments_type_check walk_expr (node (Ast.func (node d))) (Ast.args (node d))
                           (Ast.keywords (node d)) (fn_params func_ty);;
                         mret [mkDecorator target name key]
                     | _ => panic "invalid builtin decorator function type"
                     end
                 | None => compile_error ("UnKnown decorator " +:+ name) (get_pos d);; mret []
                 end
             | None => type_error "decorator name must be a single identifier" (get_pos d);; mret []
             end);
      rest ← resolve_decorators decorators' target key;
      mret (obj ++ rest)
  end.

Definition attr_value_check (op : option Ast.BinOrAugOp) (value_ty expected_ty : ty) (pos : position) : R unit :=
  match op with
  | Some (Ast.BaAug Ast.AugBitOr) =>
      value_ty ← report (binary value_ty expected_ty Ast.BBitOr pos);
      must_assignable_to value_ty expected_ty pos None
  | Some _ => must_assignable_to value_ty expected_ty pos None
  | None => panic "invalid ast schema attr op kind"
  end.

Definition walk_schema_attr (x : Ast.SchemaAttr Expr) : R ty :=
  on_ctx (set_local_vars []);;
  let start := get_pos (Ast.sa_name x) in
  let end_ := get_end_pos (Ast.sa_name x) in
  let full_name := encode (node (Ast.sa_name x)) in
  name ← (if str_contains full_name "." then
            compile_error "schema attribute can not be selected" start;;
            mret (default "" (head (split_name full_name)))
          else mret full_name);
  schema ← gets (fun r => cx_schema (ctx r));
  s ← unwrap schema;
  let expected_ty := default ANY (get_type_of_attr s name) in
  let doc_str := im_get name (sch_attrs s) ≫= attr_doc_of in
  resolve_decorators (Ast.sa_decorators x) DAttribute name;;
  insert_object name (mkScopeObject name start end_ expected_ty Scope.Attribute false doc_str);;
  _ ← (match Ast.sa_value x with
       | Some value =>
           value_ty ← assigned_value value expected_ty (get_pos value) (get_end_pos value);
           attr_value_check (Ast.sa_op x) value_ty expected_ty start
       | None => mret tt
       end);
  mret ANY.

(** ** Rules *)

Definition insert_params (params : list parameter) (start end_ : position) : R unit :=
  for_each (fun p => insert_object (param_name p) (new_object (param_name p) start end_ (param_ty p) Parameter_)) params.
Definition walk_checks (checks : list (Node (Ast.CheckExpr Expr))) : R unit :=
  for_each (fun c => walk_check_expr walk_expr (node c);; mret tt) checks.

(** The schema type that a name was declared with, or an error at the statement. *)
Definition declared_schema (name : Node text) (what : string) (stmt_pos : position) : R (ty * option schema_type) :=
  resolve_unique_key (encode (node name)) (get_pos name);;
  t ← lookup_type_from_scope (encode (node name)) (get_pos name);
  if is_schema t then s ← lift (into_schema_type t); mret (t, Some s)
  else
    error_at TypeError stmt_pos ("expected " +:+ what +:+ " type, got " +:+ ty_str t) None;;
    mret (t, None).

Definition resolve_rule_stmt (x : Ast.RuleStmt Expr) : R ty :=
  '(t, scope_ty) ← declared_schema (Ast.ru_name x) "rule" (rule_pos x);
  match scope_ty with
  | None => mret t
  | Some s =>
      on_ctx (set_schema (Some s));;
      do_parameters_check (Ast.ru_args x);;
      enter_scope (rule_pos x) (rule_end_pos x) (SkSchema (encode (node (Ast.ru_name x))));;
      insert_params (fn_params (sch_func s)) (rule_pos x) (rule_end_pos x);;
      walk_checks (Ast.ru_checks x);;
      leave_scope;;
      on_ctx (set_schema None);;
      mret t
  end.

(** ** Blocks *)

Section Blocks.
Context (walk_stmt : Stmt_ Expr -> R ty).

Definition stmt (n : Node (Stmt_ Expr)) : R ty :=
  on_ctx (fun c => set_end_pos (get_end_pos n) (set_start_pos (get_pos n) c));;
  walk_stmt (node n).
Definition stmts (l : list (Node (Stmt_ Expr))) : R ty :=
  types ← map_st stmt l;
  mret (default ANY (last types)).

Definition walk_if_stmt (x : Ast.IfStmt Expr (Stmt_ Expr)) : R ty :=
  expr (Ast.is_cond x);;
  stmts (Ast.is_body x);;
  stmts (Ast.is_orelse x);;
  mret ANY.

(** The name of the index signature, and the names that the body assigns. *)
Definition insert_index_name (ix : option schema_index_signature)
    (ix_node : option (Node (Ast.SchemaIndexSignature Expr))) : R unit :=
  match ix, ix_node with
  | Some ix, Some n =>
      match index_key_name ix with
      | Some key_name => insert_variable key_name (get_pos n) (get_end_pos n) (is_key_ty ix)
      | None => mret tt
      end
  | _, _ => mret tt
  end.
Definition insert_left_identifier (v : Z * Z * text) : R unit :=
  let '(line, column, name) := v in
  let name := encode name in
  known ← contains_object name;
  file ← gets (fun r => cx_filename (ctx r));
  when (negb known) (insert_variable name (mkPosition file line (Some column)) dummy_pos ANY).

Definition resolve_schema_stmt (x : Ast.SchemaStmt Expr (Stmt_ Expr)) : R ty :=
  '(t, scope_ty) ← declared_schema (Ast.sc_name x) "schema" (schema_pos x);
  match scope_ty with
  | None => mret t
  | Some s =>
      on_ctx (set_schema (Some s));;
      do_parameters_check (Ast.sc_args x);;
      enter_scope (schema_pos x) (schema_end_pos x) (SkSchema (encode (node (Ast.sc_name x))));;
      insert_params (fn_params (sch_func s)) (schema_pos x) (schema_end_pos x);;
      insert_index_name (sch_index_signature s) (Ast.sc_index_signature x);;
      for_each insert_left_identifier (Ast.get_left_identifier_list x);;
      stmts (Ast.sc_body x);;
      walk_checks (Ast.sc_checks x);;
      leave_scope;;
      on_ctx (set_schema None);;
      mret t
  end.
End Blocks.

(** [walk_stmt] of the walker. *)
Fixpoint walk_stmt (s : Stmt_ Expr) : R ty :=
  match s with
  | STypeAlias x => walk_type_alias_stmt x
  | SExpr x => walk_expr_stmt x
  | SUnification x => walk_unification_stmt x
  | SAssign x => walk_assign_stmt x
  | SAugAssign x => walk_aug_assign_stmt x
  | SAssert x => walk_assert_stmt x
  | SIf x => walk_if_stmt walk_stmt x
  | SImport x => walk_import_stmt x
  | SSchemaAttr x => walk_schema_attr x
  | SSchema x => resolve_schema_stmt walk_stmt x
  | SRule x => resolve_rule_stmt x
  end.

(** ** Lambdas *)

Definition is_value_stmt (s : Stmt_ Expr) : bool :=
  match s with SExpr _ | SAssign _ | SAugAssign _ => true | _ => false end.

Definition walk_lambda_expr (x : Ast.LambdaExpr Expr (Stmt_ Expr)) : R ty :=
  do_parameters_check (Ast.la_args x);;
  params ← (match Ast.la_args x with
            | Some args => walk_parameters walk_expr (node args) 0 (Ast.ar_args (node args)) (Ast.defaults (node args))
            | None => mret []
            end);
  '(start, end_) ← gets (fun r => (start_pos (ctx r), end_pos (ctx r)));
  ret_ty ← (match Ast.return_ty x with Some t => parse_ty_with_scope (node t) start | None => mret ANY end);
  enter_scope start end_ SkLambda;;
  on_ctx (fun c => set_in_lambda_expr (in_lambda_expr c ++ [true]) c);;
  insert_params params start end_;;
  _ ← (match last (Ast.la_body x) with
       | Some n =>
           when (negb (is_value_stmt (node n)))
             (compile_error "The last statement of the lambda body must be a expression e.g., x, 1, etc." (get_pos n))
       | None => mret tt
       end);
  real_ret_ty ← stmts walk_stmt (Ast.la_body x);
  leave_scope;;
  on_ctx (fun c => set_in_lambda_expr (removelast (in_lambda_expr c)) c);;
  must_assignable_to real_ret_ty ret_ty end_ None;;
  let ret_ty := if negb (is_any real_ret_ty) && is_any ret_ty && negb (bool_decide (is_Some (Ast.return_type_str x)))
                then real_ret_ty else ret_ty in
  mret (function_of None ret_ty params "" false None).
End Exprs.

(** [walk_expr] of the walker. *)
Fixpoint walk_expr (e : Expr) {struct e} : R ty :=
  match e with
  | EIdentifier x => walk_identifier x
  | EUnary x => walk_unary_expr walk_expr x
  | EBinary x => walk_binary_expr walk_expr x
  | EIf x => walk_if_expr walk_expr x
  | ESelector x => walk_selector_expr walk_expr x
  | ECall x => walk_call_expr walk_expr x
  | EParen x => walk_paren_expr walk_expr x
  | EQuant x => walk_quant_expr walk_expr x
  | EList x => walk_list_expr walk_expr x
  | EListIfItem x => walk_list_if_item_expr walk_expr x
  | EListComp x => walk_list_comp walk_expr x
  | EStarred x => walk_starred_expr walk_expr x
  | EDictComp x => walk_dict_comp walk_expr x
  | EConfigIfEntry x => walk_config_if_entry_expr walk_expr x
  | ECompClause x => walk_comp_clause walk_expr x
  | ESchema x => walk_schema_expr walk_expr x
  | EConfig x => walk_config_expr walk_expr x
  | ECheck x => walk_check_expr walk_expr x
  | ELambda x => walk_lambda_expr walk_expr x
  | ESubscript x => walk_subscript walk_expr x
  | EKeyword x => walk_keyword walk_expr x
  | EArguments x => walk_arguments walk_expr x
  | ECompare x => walk_compare walk_expr x
  | ENumberLit x => walk_number_lit x
  | EStringLit x => walk_string_lit x
  | ENameConstantLit x => walk_name_constant_lit x
  | EJoinedString x => walk_joined_string walk_expr x
  | EFormattedValue x => walk_formatted_value walk_expr x
  | EMissing => mret ANY
  end.
End Stmts.
