(* ===== verification/ResolverFrame.v ===== *)
(** * What the walk of the resolver leaves as it was

    A statement is resolved in place: the scope, its level, the stacks of configurations and
    lambdas, the file and the package are afterwards what they were before; scopes are only
    added, names are only added to them, and diagnostics are only appended.  By induction on
    the tree, over a state that is some scopes, configurations and lambdas inside another. *)

From S2P Require Import Prelude MachineInt State Floats Chars Utf8 StrLiteral TypeData Unify Sup TypeContext.
From S2P Require Import Diagnostic Calculation AstPos Builtins Scope Units TypeParser.
From S2P Require Ast.
Import Ast(Node, node, Expr, Stmt, Stmt_, Identifier).
From S2P Require Import Resolver ResolverWalk ResolverStmt.

(** ** Growing arenas *)

(** A package may get files. *)
Definition kind_grows (k k' : ScopeKind) : Prop :=
  match k, k' with
  | SkPackage files, SkPackage files' => files ⊆ files'
  | _, _ => k' = k
  end.
(** A scope may get children and names. *)
Record keeps (s s' : Scope) : Prop := {
  keeps_parent : sc_parent s' = sc_parent s;
  keeps_span : sc_start s' = sc_start s /\ sc_end s' = sc_end s;
  keeps_kind : kind_grows (sc_kind s) (sc_kind s');
  keeps_children : sc_children s `prefix_of` sc_children s';
  keeps_names : forall name, im_contains name (sc_elems s) = true -> im_contains name (sc_elems s') = true }.
Definition grown (a b : arena) : Prop := forall i s, a !! i = Some s -> exists s', b !! i = Some s' /\ keeps s s'.

#[export] Instance kind_grows_preorder : PreOrder kind_grows.
Proof.
  split; [intros []; cbn; (done || set_solver)|]. intros k1 k2 k3 H1 H2. destruct k1, k2; simpl in H1; try done; simplify_eq; try done; destruct k3; simpl in H2; try done; simplify_eq; try done; cbn; set_solver.
Qed.
#[export] Instance keeps_preorder : PreOrder keeps.
Proof.
  split; [by split|]. intros s s' s'' [H1 (H2 & H3) H4 H5 H6] [K1 (K2 & K3) K4 K5 K6].
  split; [congruence|split; congruence|by etrans|by etrans|auto].
Qed.
#[export] Instance grown_preorder : PreOrder grown.
Proof.
  split; [intros a i s Hs; by exists s|].
  intros a b c Hab Hbc i s Hs. destruct (Hab i s Hs) as (s' & Hs' & H1). destruct (Hbc i s' Hs') as (s'' & ? & ?).
  exists s''. split; [done|by etrans].
Qed.

Lemma grown_alter a f i : (forall s, keeps s (f s)) -> grown a (alter f i a).
Proof.
  intros Hf j s Hs. destruct (decide (j = i)) as [->|Hne].
  - rewrite list_lookup_alter_eq, Hs. eexists. split; [done|apply Hf].
  - rewrite list_lookup_alter_ne by done. exists s. done.
Qed.
Lemma im_contains_insert {V} name name' (v : V) m :
  im_contains name m = true -> im_contains name (im_insert name' v m) = true.
Proof.
  rewrite !im_contains_get. intros [w Hw]. destruct (decide (name = name')) as [->|Hne].
  - exists v. apply im_get_insert_eq.
  - exists w. by rewrite im_get_insert_ne.
Qed.
Lemma grown_insert_elem a i name obj : grown a (insert_elem a i name obj).
Proof.
  apply grown_alter. intros s. split; try done. intros n. apply im_contains_insert.
Qed.
Lemma grown_push_scope a i s : grown a (push_scope a i s).
Proof.
  unfold push_scope. etrans; [apply (grown_alter a (fun p => with_child p (length a)) i)|].
  - intros t. split; try done. by eexists.
  - intros j t Ht. exists t. split; [|done]. by apply lookup_app_l_Some.
Qed.

(** The scope [n] levels out. *)
Fixpoint up (a : arena) (n : nat) (i : nat) : option nat :=
  match n with O => Some i | S n' => s ← a !! i; p ← sc_parent s; up a n' p end.
Lemma up_grown a b n i j : grown a b -> up a n i = Some j -> up b n i = Some j.
Proof.
  intros Hg. revert i. induction n as [|n IH]; intros i; [done|]. cbn.
  destruct (a !! i) as [s|] eqn:Hs; [|done]. destruct (Hg i s Hs) as (s' & -> & Hk). cbn.
  rewrite (keeps_parent _ _ Hk). destruct (sc_parent s); [apply IH|done].
Qed.

#[local] Notation R := (st resolver).
#[local] Notation "m1 ;; m2" := (m1 ≫= fun _ => m2) (at level 100, right associativity, only parsing).

(** ** How a walk can panic

    In a function on types, or on a tree that the parser does not build from a valid text: a
    loop without a variable, a key without a name, an index that is out of range. *)
Inductive of_types `{ResolverEnv} : forall A : Type, outcome A -> Prop :=
| of_sup l : of_types _ (sup l)
| of_assignable t u : of_types _ (assignable_to t u)
| of_upper_bound t u : of_types _ (is_upper_bound t u)
| of_infer t : of_types _ (infer_to_variable_type t)
| of_literal_union t : of_types _ (literal_union_type_to_variable_type t)
| of_item t : of_types _ (list_item_ty t)
| of_entry t : of_types _ (dict_entry_ty t)
| of_schema t : of_types _ (into_schema_type t)
| of_key t : of_types _ (config_key_ty t)
| of_val t : of_types _ (config_val_ty t)
| of_annotation t : of_types _ (type_of_ast re_powf t)
| of_type_string s : of_types _ (parse_type re_overflow_checks re_powf s)
| of_members s : of_types _ (get_system_module_members s)
| of_unit v s : of_types _ (cal_num re_powf v s).

Inductive panics `{ResolverEnv} : string -> Prop :=
| panics_types {A} (o : outcome A) e : of_types A o -> o = Panic e -> panics e
| panics_unwrap : panics "called `Option::unwrap()` on a `None` value"
| panics_index : panics "index out of bounds"
| panics_subtract : panics "attempt to subtract with overflow"
| panics_expr_stmt : panics "invalid expr statement exprs"
| panics_aug_op : panics "aug assign op can not into bin op"
| panics_attr_op : panics "invalid ast schema attr op kind".

(** ** Inside a state *)

(** How far: scopes, configurations and lambdas that are open, and whether a name is stored. *)
Record depth := mkDepth { opened : nat; pushed : nat; lambdas : nat; storing : bool }.
Definition open (d : depth) : depth := mkDepth (S (opened d)) (pushed d) (lambdas d) (storing d).
Definition push (n : nat) (d : depth) : depth := mkDepth (opened d) (n + pushed d)%nat (lambdas d) (storing d).
Definition enter_lambda (d : depth) : depth := mkDepth (opened d) (pushed d) (S (lambdas d)) (storing d).
Definition store_to (b : bool) (d : depth) : depth := mkDepth (opened d) (pushed d) (lambdas d) b.

Record inside `{ResolverEnv} (r0 : resolver) (d : depth) (r : resolver) : Prop := {
  inside_arena : arena_ok (scopes r);
  inside_grown : grown (scopes r0) (scopes r);
  inside_scope : is_Some (scopes r !! scope r);
  inside_up : up (scopes r) (opened d) (scope r) = Some (scope r0);
  inside_level : scope_level r = scope_level r0 + Z.of_nat (opened d);
  inside_map : scope_map r = scope_map r0;
  inside_file : cx_filename (ctx r) = cx_filename (ctx r0);
  inside_pkg : cx_pkgpath (ctx r) = cx_pkgpath (ctx r0);
  inside_configs : exists l, config_expr_context (ctx r) = config_expr_context (ctx r0) ++ l /\ length l = pushed d;
  inside_lambdas : exists l, in_lambda_expr (ctx r) = in_lambda_expr (ctx r0) ++ l /\ length l = lambdas d;
  inside_store : l_value (ctx r) = storing d;
  inside_handler : handler r0 `prefix_of` handler r }.

(** A stretch of work that goes from one depth to another. *)
Definition triple `{ResolverEnv} {A} (r0 : resolver) (d : depth) (m : R A) (d' : A -> depth) : Prop :=
  forall r, 0 <= scope_level r0 -> inside r0 d r ->
    match m r with Ok (a, q) => inside r0 (d' a) q | Panic e => panics e end.
(** Work that keeps the depth, whatever it is, and work that stores no name. *)
Definition steady `{ResolverEnv} {A} (m : R A) : Prop := forall r0 d, triple r0 d m (fun _ => d).
Definition balanced `{ResolverEnv} {A} (m : R A) : Prop := forall r0 d, storing d = false -> triple r0 d m (fun _ => d).

Section Rules.
Context `{ResolverEnv}.
Context {A B : Type}.

Lemma triple_bind r0 d (d1 : A -> depth) d2 (m : R A) (f : A -> R B) :
  triple r0 d m d1 -> (forall a, triple r0 (d1 a) (f a) d2) -> triple r0 d (m ≫= f) d2.
Proof.
  intros Hm Hf r Hl Hr. specialize (Hm r Hl Hr). unfold mbind, st_bind. destruct (m r) as [[a q]|e]; [|done].
  by apply Hf.
Qed.
Lemma steady_bind (m : R A) (f : A -> R B) : steady m -> (forall a, steady (f a)) -> steady (m ≫= f).
Proof. intros Hm Hf r0 d. eapply triple_bind; [apply Hm|]. intros a. apply Hf. Qed.
Lemma balanced_bind (m : R A) (f : A -> R B) : balanced m -> (forall a, balanced (f a)) -> balanced (m ≫= f).
Proof. intros Hm Hf r0 d Hd. eapply triple_bind; [by apply Hm|]. intros a. by apply Hf. Qed.
Lemma steady_balanced (m : R A) : steady m -> balanced m.
Proof. intros Hm r0 d _. apply Hm. Qed.

Lemma triple_ret r0 d (d' : A -> depth) a : d = d' a -> triple r0 d (mret a) d'.
Proof. by intros -> r _ Hr. Qed.
Lemma steady_ret (a : A) : steady (mret a).
Proof. by intros r0 d r _ Hr. Qed.
Lemma steady_gets (f : resolver -> A) : steady (gets f).
Proof. by intros r0 d r _ Hr. Qed.
Lemma steady_panic e : panics e -> steady (A := A) (panic e).
Proof. by intros He r0 d r _ Hr. Qed.
Lemma steady_lift (o : outcome A) : (forall e, o = Panic e -> panics e) -> steady (lift o).
Proof. intros Ho r0 d r _ Hr. unfold lift. destruct o; [done|auto]. Qed.
Lemma steady_types (o : outcome A) : of_types A o -> steady (lift o).
Proof. intros Ho. apply steady_lift. intros e. by apply panics_types. Qed.
End Rules.

(** Where a value was read, what is known of it may be used. *)
Lemma triple_gets `{ResolverEnv} {A B} (g : resolver -> A) (f : A -> R B) r0 d d2 :
  (forall r, inside r0 d r -> forall a, a = g r -> triple r0 d (f a) d2) -> triple r0 d (gets g ≫= f) d2.
Proof. intros Hf r Hl Hr. unfold mbind, st_bind, gets. by apply (Hf r Hr). Qed.

Lemma steady_when `{ResolverEnv} b (m : R unit) : steady m -> steady (when b m).
Proof. destruct b; [done|]. intros _. apply steady_ret. Qed.

Section Lists.
Context `{ResolverEnv}.
Context {A B : Type}.
Lemma steady_map (f : A -> R B) l : (forall a, steady (f a)) -> steady (map_st f l).
Proof.
  intros Hf. induction l as [|a l IH]; [apply steady_ret|]. cbn.
  apply steady_bind; [apply Hf|]. intros b. apply steady_bind; [exact IH|]. intros bs. apply steady_ret.
Qed.
Lemma steady_for_each (f : A -> R unit) l : (forall a, steady (f a)) -> steady (for_each f l).
Proof.
  intros Hf. induction l as [|a l IH]; [apply steady_ret|]. cbn. apply steady_bind; [apply Hf|]. intros _. exact IH.
Qed.
(** Over the parts of a tree, with what holds of each. *)
Context (P : A -> Type).
Lemma balanced_map (f : A -> R B) l : Ast.list_all A P l -> (forall a, P a -> balanced (f a)) -> balanced (map_st f l).
Proof.
  intros Hl Hf. induction Hl as [|a Ha l Hl IH]; [apply steady_balanced, steady_ret|]. cbn.
  apply balanced_bind; [by apply Hf|]. intros b. apply balanced_bind; [exact IH|].
  intros bs. apply steady_balanced, steady_ret.
Qed.
Lemma balanced_for_each (f : A -> R unit) l :
  Ast.list_all A P l -> (forall a, P a -> balanced (f a)) -> balanced (for_each f l).
Proof.
  intros Hl Hf. induction Hl as [|a Ha l Hl IH]; [apply steady_balanced, steady_ret|]. cbn.
  apply balanced_bind; [by apply Hf|]. intros _. exact IH.
Qed.
End Lists.
Create HintDb steady.
Create HintDb balanced.
#[export] Hint Resolve steady_ret steady_gets steady_panic steady_lift steady_types steady_when steady_map steady_for_each : steady.
#[export] Hint Constructors panics of_types : steady.

(** The combinators, as far as they go; a condition is a case. *)
Ltac steady_step :=
  lazymatch goal with
  | |- steady (mbind _ _) => apply steady_bind; [|intros ?]
  | |- steady (mbind _ _) => apply steady_bind; [|intros ?]
  | |- steady (let _ := _ in _) => cbv zeta
  | |- steady (when _ _) => apply steady_when
  | |- steady (map_st _ _) => apply steady_map; intros ?
  | |- steady (for_each _ _) => apply steady_for_each; intros ?
  | |- steady (if ?b then _ else _) => destruct b
  | |- steady (match ?x with _ => _ end) => destruct x
  end.
Ltac steady_go := repeat first [solve [eauto with steady] | steady_step].

(** ** The state *)

(** What a step leaves alone, and what it may change. *)
Lemma steady_ctx `{ResolverEnv} f :
  (forall c, cx_filename (f c) = cx_filename c /\ cx_pkgpath (f c) = cx_pkgpath c /\ l_value (f c) = l_value c /\
             config_expr_context (f c) = config_expr_context c /\ in_lambda_expr (f c) = in_lambda_expr c) ->
  steady (on_ctx f).
Proof.
  intros Hf r0 d r _ []. destruct (Hf (ctx r)) as (E1 & E2 & E3 & E4 & E5).
  unfold on_ctx, modify. split; simpl; rewrite ?E1, ?E2, ?E3, ?E4, ?E5; done.
Qed.
Lemma steady_scopes `{ResolverEnv} g :
  (forall r, is_Some (scopes r !! scope r) -> arena_ok (scopes r) -> arena_ok (g r) /\ grown (scopes r) (g r)) ->
  steady (modify (fun r => set_scopes (g r) r)).
Proof.
  intros Hg r0 d r _ [Ha Hr [s Hs] Hu]. destruct (Hg r) as [Ha' Hr']; [by eexists|done|].
  unfold modify. split; simpl; try done.
  - by etrans.
  - destruct (Hr' _ _ Hs) as (s' & -> & _). by eexists.
  - by eapply up_grown.
Qed.
(** A check only appends to the handler. *)
Definition logs `{ResolverEnv} {A} (m : st Handler A) : Prop :=
  forall h, match m h with Ok (_, h') => h `prefix_of` h' | Panic e => panics e end.
Lemma steady_report `{ResolverEnv} {A} (m : st Handler A) : logs m -> steady (report m).
Proof.
  intros Hm r0 d r _ []. unfold report. specialize (Hm (handler r)). destruct (m (handler r)) as [[a h]|e]; [|done].
  split; simpl; try done. by etrans.
Qed.

Section Logs.
Context `{ResolverEnv}.
Context {A B : Type}.
Lemma logs_bind (m : st Handler A) (f : A -> st Handler B) : logs m -> (forall a, logs (f a)) -> logs (m ≫= f).
Proof.
  intros Hm Hf h. specialize (Hm h). unfold mbind, st_bind. destruct (m h) as [[a h']|e]; [|done].
  specialize (Hf a h'). destruct (f a h') as [[b h'']|e]; [|done]. by etrans.
Qed.
Lemma logs_ret (a : A) : logs (mret a).
Proof. intros h. by exists []; rewrite app_nil_r. Qed.
Lemma logs_types (o : outcome A) : of_types A o -> logs (lift o).
Proof. intros Ho h. unfold lift. destruct o eqn:E; [by exists []; rewrite app_nil_r|]. by eapply panics_types. Qed.
End Logs.
Lemma logs_add `{ResolverEnv} d : logs (add_diagnostic d).
Proof. intros h. by destruct (add_diagnostic_spec d h) as (h' & -> & ? & _). Qed.
Lemma logs_when `{ResolverEnv} b (m : st Handler unit) : logs m -> logs (when b m).
Proof. destruct b; [done|]. intros _. apply logs_ret. Qed.
Create HintDb logs.
#[export] Hint Resolve logs_ret logs_add logs_types logs_when : logs.
#[export] Hint Constructors of_types : logs.
#[export] Hint Unfold add_type_error add_compile_error add_error : logs.
Ltac logs_step :=
  lazymatch goal with
  | |- logs (mbind _ _) => apply logs_bind; [|intros ?]
  | |- logs (let _ := _ in _) => cbv zeta
  | |- logs (if ?b then _ else _) => destruct b
  | |- logs (match ?x with _ => _ end) => destruct x
  end.
Ltac logs_go := repeat first [solve [eauto with logs] | logs_step].

Lemma logs_binary `{ResolverEnv} l r op p : logs (binary l r op p).
Proof. unfold binary, binary_table, check_zero. logs_go. Qed.
Lemma logs_unary `{ResolverEnv} t op p : logs (unary t op p).
Proof. unfold unary. logs_go. Qed.
Lemma logs_compare `{ResolverEnv} l r op p : logs (compare l r op p).
Proof. unfold compare. logs_go. Qed.
Lemma logs_all `{ResolverEnv} {A} (f : A -> check bool) l : (forall a, a ∈ l -> logs (f a)) -> logs (all_st f l).
Proof. induction l as [|a l IH]; intros Hf; cbn; [logs_go|]. apply logs_bind; [apply Hf; set_solver|]. intros []; [apply IH; set_solver|logs_go]. Qed.
Lemma logs_any `{ResolverEnv} {A} (f : A -> check bool) l : (forall a, a ∈ l -> logs (f a)) -> logs (any_st f l).
Proof. induction l as [|a l IH]; intros Hf; cbn; [logs_go|]. apply logs_bind; [apply Hf; set_solver|]. intros []; [logs_go|apply IH; set_solver]. Qed.
Lemma logs_dict_assignable `{ResolverEnv} k v s p : logs (dict_assignable_to_schema k v s p).
Proof. unfold dict_assignable_to_schema. logs_go. Qed.
#[export] Hint Resolve logs_binary logs_unary logs_compare logs_dict_assignable : logs.
Lemma logs_check_type `{ResolverEnv} t p u : logs (check_type t p u).
Proof.
  revert u. induction t as [k a f IH] using ty_ind. induction u as [k' a' f' IH'] using ty_ind.
  destruct k; cbn [check_type walk_all] in *.
  all: destruct k'; cbn [walk_all] in *; logs_go.
  all: rewrite ?list.Forall_forall in *.
  all: try (apply logs_all || apply logs_any); auto with logs.
  all: by destruct IH.
Qed.
#[export] Hint Resolve logs_check_type : logs.
#[export] Hint Extern 1 (steady (report _)) => apply steady_report; logs_go : steady.

(** ** Scopes, variables and attributes *)

Lemma steady_insert_elem `{ResolverEnv} (g : resolver -> nat) name (o : resolver -> ScopeObject) :
  steady (modify (fun r => set_scopes (insert_elem (scopes r) (g r) name (o r)) r)).
Proof.
  apply (steady_scopes (fun r => insert_elem (scopes r) (g r) name (o r))). intros r _ Ha. split; [by apply insert_elem_ok|apply grown_insert_elem].
Qed.
Lemma steady_insert_object `{ResolverEnv} name o : steady (insert_object name o).
Proof. apply (steady_insert_elem scope name (fun _ => o)). Qed.
Lemma steady_insert_variable `{ResolverEnv} name s e t : steady (insert_variable name s e t).
Proof. apply steady_insert_object. Qed.
Lemma steady_compile_error `{ResolverEnv} msg pos : steady (compile_error msg pos).
Proof. apply steady_report, logs_add. Qed.
Lemma steady_type_error `{ResolverEnv} msg pos : steady (type_error msg pos).
Proof. apply steady_report, logs_add. Qed.
Lemma steady_error_at `{ResolverEnv} k pos msg note : steady (error_at k pos msg note).
Proof. apply steady_report, logs_add. Qed.
Lemma steady_add_error `{ResolverEnv} k l : steady (report (add_error k l)).
Proof. apply steady_report, logs_add. Qed.
#[export] Hint Resolve steady_insert_object steady_insert_variable steady_compile_error steady_type_error steady_error_at
  steady_add_error : steady.
#[export] Hint Extern 2 (steady (on_ctx _)) => apply steady_ctx; intros ?; done : steady.

Lemma steady_set_type `{ResolverEnv} name t pos : steady (set_type_to_scope name t pos).
Proof.
  unfold set_type_to_scope. steady_go. apply steady_scopes. intros r Hs Ha. unfold set_ty.
  destruct (scopes r !! scope r); [|done]. destruct (im_get _ _); [|done].
  split; [by apply insert_elem_ok|apply grown_insert_elem].
Qed.
Lemma steady_lookup_type `{ResolverEnv} name pos : steady (lookup_type_from_scope name pos).
Proof. unfold lookup_type_from_scope, find_type_in_scope. steady_go. Qed.
Lemma steady_contains_object `{ResolverEnv} name : steady (contains_object name).
Proof. apply steady_gets. Qed.
Lemma steady_contains_global `{ResolverEnv} name : steady (contains_global_name name).
Proof. unfold contains_global_name, get_global_name_pos. steady_go. Qed.
#[export] Hint Resolve steady_set_type steady_lookup_type steady_contains_object steady_contains_global : steady.
Lemma steady_unique_key `{ResolverEnv} name pos : steady (resolve_unique_key name pos).
Proof. unfold resolve_unique_key, insert_global_name, get_global_name_pos. steady_go. Qed.
Lemma steady_type_alias `{ResolverEnv} name alias : steady (add_type_alias name alias).
Proof. unfold add_type_alias. steady_go. Qed.
Lemma steady_built_schema `{ResolverEnv} s : steady (built_schema s).
Proof. apply steady_gets. Qed.
#[export] Hint Resolve steady_unique_key steady_type_alias steady_built_schema : steady.
Lemma steady_check_config_attr `{ResolverEnv} a pos s : steady (check_config_attr a pos s).
Proof. unfold check_config_attr. steady_go. Qed.
#[export] Hint Resolve steady_check_config_attr : steady.
Lemma steady_check_attr_ty `{ResolverEnv} t pos : steady (check_attr_ty t pos).
Proof. unfold check_attr_ty. steady_go. Qed.
Lemma steady_load_attr `{ResolverEnv} t a pos : steady (load_attr t a pos).
Proof. unfold load_attr, attr_of, schema_load_attr, module_load_attr. steady_go. Qed.
#[export] Hint Resolve steady_check_attr_ty steady_load_attr : steady.
Lemma steady_mark_used `{ResolverEnv} name : steady (mark_used name).
Proof.
  intros r0 d r Hl Hr. unfold mark_used, modify. destruct (lookup_obj _ _ name) as [[i o]|]; [|done].
  exact (steady_insert_elem (fun _ => i) name (fun _ => with_used o) r0 d r Hl Hr).
Qed.
Lemma steady_load_attrs `{ResolverEnv} t names pos : steady (load_attrs t names pos).
Proof. revert t. induction names as [|n names IH]; intros t; cbn; steady_go. Qed.
Lemma steady_resolve_name `{ResolverEnv} name pos : steady (resolve_name name pos).
Proof. unfold resolve_name, find_type_in_scope. steady_go. Qed.
#[export] Hint Resolve steady_mark_used steady_load_attrs steady_resolve_name : steady.
Lemma steady_resolve_var `{ResolverEnv} names pkg pos : steady (resolve_var names pkg pos).
Proof. unfold resolve_var, check_update. steady_go. Qed.
#[export] Hint Resolve steady_resolve_var : steady.
Lemma steady_must_assignable `{ResolverEnv} t u pos e : steady (must_assignable_to t u pos e).
Proof. unfold must_assignable_to. steady_go. Qed.
#[export] Hint Resolve steady_must_assignable : steady.
(** ** Opening and closing *)

Lemma triple_enter `{ResolverEnv} r0 d start end_ k : triple r0 d (enter_scope start end_ k) (fun _ => open d).
Proof.
  intros r Hl [Ha Hg Hs Hu Hlv]. unfold enter_scope, modify.
  assert (Hg' := grown_push_scope (scopes r) (scope r) (mkScope (Some (scope r)) [] [] start end_ k)).
  assert (Hnew : push_scope (scopes r) (scope r) (mkScope (Some (scope r)) [] [] start end_ k) !! length (scopes r) =
                 Some (mkScope (Some (scope r)) [] [] start end_ k)).
  { unfold push_scope. rewrite lookup_app_r; rewrite length_alter; [by rewrite Nat.sub_diag|done]. }
  split; simpl; try done; try lia.
  - by apply push_scope_ok.
  - by etrans.
  - rewrite Hnew. unfold mbind, option_bind. simpl. by eapply up_grown.
Qed.
Lemma triple_leave `{ResolverEnv} r0 d : triple r0 (open d) leave_scope (fun _ => d).
Proof.
  intros r Hl [Ha Hg [s Hs] Hu Hlv]. unfold leave_scope, on_ctx, modify, gets, mbind, st_bind. simpl in *.
  rewrite Hs in *. cbn in Hu. destruct (sc_parent s) as [p|] eqn:Hp; [|done]. cbn in Hu.
  rewrite (proj2 (Z.eqb_neq _ _)) by (simpl; lia).
  destruct (parent_older _ _ _ (Ha _ _ Hs) p Hp) as [_ Hps].
  split; simpl; try done; lia.
Qed.
Lemma triple_leave_in_lambda `{ResolverEnv} r0 d : triple r0 (enter_lambda (open d)) leave_scope (fun _ => enter_lambda d).
Proof. exact (triple_leave r0 (enter_lambda d)). Qed.
Lemma triple_store `{ResolverEnv} r0 d b : triple r0 d (on_ctx (set_l_value b)) (fun _ => store_to b d).
Proof. intros r _ []. by split. Qed.
Lemma balanced_load `{ResolverEnv} : balanced (on_ctx (set_l_value false)).
Proof. intros r0 d Hd r _ []. split; simpl; try done. Qed.

Lemma triple_switch `{ResolverEnv} r0 d o : triple r0 d (switch_config_expr_context o) (fun n => push n d).
Proof.
  intros r _ [? ? ? ? ? ? ? ? (l & El & Hl)]. split; simpl; try done.
  exists (l ++ [o]). rewrite El, app_assoc. split; [done|]. rewrite length_app. simpl. lia.
Qed.
Lemma triple_switch_by_name `{ResolverEnv} r0 d name : triple r0 d (switch_config_expr_context_by_name name) (fun n => push n d).
Proof.
  eapply triple_bind; [apply steady_gets|]. intros o. apply triple_switch.
Qed.
Lemma push_push n n' d : push n' (push n d) = push (n + n') d.
Proof. unfold push. simpl. f_equal. lia. Qed.
Lemma push_0 d : push 0 d = d.
Proof. by destruct d. Qed.
(** Pushes that are counted. *)
Lemma triple_switch_by_names `{ResolverEnv} r0 d names : triple r0 d (switch_config_expr_context_by_names names) (fun n => push n d).
Proof.
  revert d. induction names as [|name names IH]; intros d; cbn [switch_config_expr_context_by_names].
  - apply triple_ret. by rewrite push_0.
  - eapply triple_bind; [apply triple_switch_by_name|]. intros n. eapply triple_bind; [apply IH|]. intros n'.
    apply triple_ret, push_push.
Qed.
Lemma triple_switch_by_key `{ResolverEnv} r0 d key : triple r0 d (switch_config_expr_context_by_key key) (fun n => push n d).
Proof.
  assert (H0 : triple r0 d (mret 0%nat) (fun n => push n d)).
  { apply triple_ret. by rewrite push_0. }
  unfold switch_config_expr_context_by_key. destruct key as [key|]; [|done].
  destruct (node key); repeat case_match; auto using triple_switch_by_names.
Qed.
Lemma triple_restore `{ResolverEnv} r0 d : triple r0 (push 1 d) restore_config_expr_context (fun _ => d).
Proof.
  intros r _ [? ? ? ? ? ? ? ? (l & El & Hl)]. split; simpl; try done. simpl in Hl.
  revert El Hl. induction l as [|o l _] using rev_ind; [done|]. intros El Hl. rewrite length_app in Hl. simpl in Hl.
  exists l. rewrite El, app_assoc, removelast_last. split; [done|lia].
Qed.
Lemma triple_clear `{ResolverEnv} r0 d n : triple r0 (push n d) (clear_config_expr_context n false) (fun _ => d).
Proof.
  unfold clear_config_expr_context. induction n as [|n IH]; cbn [restore_times].
  - rewrite push_0. by apply triple_ret.
  - apply triple_bind with (fun _ => push n d); [|intros _; exact IH].
    replace (push (S n) d) with (push 1 (push n d)); [apply triple_restore|]. rewrite push_push. unfold push. do 2 f_equal. lia.
Qed.
Lemma triple_enter_lambda `{ResolverEnv} r0 d :
  triple r0 d (on_ctx (fun c => set_in_lambda_expr (in_lambda_expr c ++ [true]) c)) (fun _ => enter_lambda d).
Proof.
  intros r _ [? ? ? ? ? ? ? ? ? (l & El & Hl)]. split; simpl; try done.
  exists (l ++ [true]). rewrite El, app_assoc. split; [done|]. rewrite length_app. simpl. lia.
Qed.
Lemma triple_leave_lambda `{ResolverEnv} r0 d :
  triple r0 (enter_lambda d) (on_ctx (fun c => set_in_lambda_expr (removelast (in_lambda_expr c)) c)) (fun _ => d).
Proof.
  intros r _ [? ? ? ? ? ? ? ? ? (l & El & Hl)]. split; simpl; try done. simpl in Hl.
  revert El Hl. induction l as [|b l _] using rev_ind; [done|]. intros El Hl. rewrite length_app in Hl. simpl in Hl.
  exists l. rewrite El, app_assoc, removelast_last. split; [done|lia].
Qed.

Lemma use_balanced `{ResolverEnv} {A} (m : R A) r0 d : balanced m -> storing d = false -> triple r0 d m (fun _ => d).
Proof. intros Hm. apply Hm. Qed.
Lemma balanced_when `{ResolverEnv} b (m : R unit) : balanced m -> balanced (when b m).
Proof. destruct b; [done|]. intros _. apply steady_balanced, steady_ret. Qed.

#[export] Hint Resolve balanced_load balanced_when : balanced.
#[export] Hint Extern 3 (balanced _) => apply steady_balanced; solve [eauto with steady] : balanced.

(** A part of the tree: an expression, or a structure with its own parts. *)
Ltac part_of :=
  let Hpart := fresh "Hpart" in intros ? Hpart;
  lazymatch type of Hpart with
  | Ast.Node_all Expr _ _ => idtac
  | Ast.Node_all (Ast.ConfigEntry _) _ _ => idtac
  | Ast.Node_all (Stmt_ _) _ _ => idtac
  | Ast.Node_all _ _ _ => destruct Hpart; simpl node
  | _ => idtac
  end.
Ltac balanced_step :=
  lazymatch goal with
  | |- balanced (mbind _ _) => apply balanced_bind; [|intros ?]
  | |- balanced (let _ := _ in _) => cbv zeta
  | |- balanced (when _ _) => apply balanced_when
  | |- balanced (map_st _ _) => eapply balanced_map; [eassumption|part_of]
  | |- balanced (for_each _ _) => eapply balanced_for_each; [eassumption|part_of]
  | |- balanced (if ?b then _ else _) => destruct b
  | Ho : Ast.option_all _ _ ?x |- balanced (match ?x with _ => _ end) => destruct Ho
  | Ho : Ast.list_all _ _ ?x |- balanced (match ?x with _ => _ end) => destruct Ho
  | |- balanced (match ?x with _ => _ end) => destruct x
  end.
Ltac balanced_go := repeat first [solve [eauto with balanced] | balanced_step].

(** Steps in order: what opens or closes, and else what keeps the depth. *)
Ltac triple_first :=
  first [ apply triple_enter | apply triple_leave | apply triple_leave_in_lambda | apply triple_switch | apply triple_switch_by_name
        | apply triple_switch_by_names | apply triple_switch_by_key | apply triple_clear
        | apply triple_enter_lambda | apply triple_leave_lambda
        | apply use_balanced; [solve [balanced_go]|simpl; assumption] ].
Ltac triple_go :=
  lazymatch goal with
  | |- triple _ _ (mbind _ _) _ => eapply triple_bind; [triple_first|cbv beta; intros ?; triple_go]
  | |- triple _ _ (mret _) _ => apply triple_ret; reflexivity
  | |- triple _ _ (match ?x with _ => _ end) _ => destruct x; triple_go
  | |- triple _ _ (let _ := _ in _) _ => cbv zeta; triple_go
  | |- _ => triple_first
  end.

(** ** Types *)

Lemma balanced_resolve_named `{ResolverEnv} s pos : balanced (resolve_named s pos).
Proof. unfold resolve_named. balanced_go. Qed.
#[export] Hint Resolve balanced_resolve_named : balanced.
Lemma balanced_upgrade `{ResolverEnv} t pos : balanced (upgrade_named_ty_with_scope t pos).
Proof.
  induction t as [k a f IH] using ty_ind. destruct k; cbn [upgrade_named_ty_with_scope walk_all] in *; balanced_go.
  - by destruct IH.
  - by destruct IH.
  - rewrite list.Forall_forall in IH. clear a f. induction types as [|t types IHl]; [balanced_go|]. cbn.
    apply balanced_bind; [apply IH; set_solver|]. intros u. apply balanced_bind; [apply IHl; set_solver|]. intros us. balanced_go.
Qed.
#[export] Hint Resolve balanced_upgrade : balanced.
Lemma balanced_parse_ty `{ResolverEnv} t pos : balanced (parse_ty_with_scope t pos).
Proof. unfold parse_ty_with_scope. balanced_go. Qed.
Lemma balanced_parse_ty_str `{ResolverEnv} s pos : balanced (parse_ty_str_with_scope s pos).
Proof. unfold parse_ty_str_with_scope. balanced_go. Qed.
#[export] Hint Resolve balanced_parse_ty balanced_parse_ty_str : balanced.

(** ** Configurations, loops and parameters *)

Lemma balanced_with_config `{ResolverEnv} {A} o (m : R A) : balanced m -> balanced (with_config_context o m).
Proof. intros Hm r0 d Hd. unfold with_config_context. triple_go. Qed.
#[export] Hint Resolve balanced_with_config : balanced.
Lemma steady_check_by_key_name `{ResolverEnv} name key : steady (check_config_expr_by_key_name name key).
Proof. unfold check_config_expr_by_key_name. steady_go. Qed.
#[export] Hint Resolve steady_check_by_key_name : steady.
Lemma steady_length_minus_one `{ResolverEnv} {A} (l : list A) : steady (lift (length_minus_one l)).
Proof. apply steady_lift. destruct l; [|done]. intros e [= <-]. constructor. Qed.
Lemma steady_unwrap `{ResolverEnv} {A} (o : option A) : steady (unwrap o).
Proof. destruct o; cbn; steady_go. Qed.
Lemma steady_at_index `{ResolverEnv} {A} (l : list A) i : steady (at_index l i).
Proof. unfold at_index. steady_go. Qed.
#[export] Hint Resolve steady_length_minus_one steady_unwrap steady_at_index : steady.
Lemma steady_set_loop_var `{ResolverEnv} name t pos : steady (set_loop_var name t pos).
Proof. unfold set_loop_var. steady_go. Qed.
#[export] Hint Resolve steady_set_loop_var : steady.
Lemma steady_loop_step `{ResolverEnv} n1 n2 p q v t : steady (loop_step n1 n2 p q v t).
Proof. unfold loop_step. steady_go. Qed.
#[export] Hint Resolve steady_loop_step : steady.
Lemma steady_loop_steps `{ResolverEnv} n1 n2 p q v l : steady (loop_steps n1 n2 p q v l).
Proof. revert v. induction l as [|t l IH]; intros v; cbn; steady_go. Qed.
#[export] Hint Resolve steady_loop_steps : steady.
Lemma steady_loop `{ResolverEnv} n n1 n2 t p : steady (do_loop_type_check n n1 n2 t p).
Proof. apply steady_loop_steps. Qed.
Lemma steady_bind_targets `{ResolverEnv} i c n k v l : steady (bind_targets i c n k v l).
Proof. revert i n k v. induction l as [|t l IH]; intros i n k v; cbn; steady_go. Qed.
Lemma steady_check_defaults `{ResolverEnv} b l : steady (check_defaults b l).
Proof. revert b. induction l as [|[d|] l IH]; intros b; cbn; steady_go. Qed.
#[export] Hint Resolve steady_loop steady_bind_targets steady_check_defaults : steady.
Lemma steady_parameters `{ResolverEnv} a : steady (do_parameters_check a).
Proof. unfold do_parameters_check. steady_go. Qed.
#[export] Hint Resolve steady_parameters : steady.

(** ** The walk of expressions *)

Lemma map_m_panics `{ResolverEnv} {A B} (f : A -> outcome B) l e :
  (forall a e, a ∈ l -> f a = Panic e -> panics e) -> TypeParser.map_m f l = Panic e -> panics e.
Proof.
  induction l as [|a l IH]; [done|]. intros Hf. cbn. destruct (f a) as [b|e'] eqn:E; cbn.
  - destruct (TypeParser.map_m f l) eqn:E'; cbn; [done|]. intros [= <-]. apply IH; [|done]. intros a' e' ?. apply Hf. set_solver.
  - intros [= <-]. eapply Hf; [|done]. set_solver.
Qed.
Lemma starred_panics `{ResolverEnv} t e : starred_ty_walk_fn t = Panic e -> panics e.
Proof.
  revert e. induction t as [k a f IH] using ty_ind. intros e. destruct k; try done. cbn in IH. cbn [starred_ty_walk_fn].
  rewrite list.Forall_forall in IH. destruct (TypeParser.map_m _ _) as [a0|] eqn:E; cbn [mbind outcome_bind].
  - destruct (sup (map fst a0)) eqn:E'; cbn [mbind outcome_bind]; [done|]. intros [= <-]. eapply panics_types; [|exact E']. constructor.
  - intros [= <-]. eapply map_m_panics; [|done]. intros t e' Ht. by apply IH.
Qed.
Lemma steady_starred `{ResolverEnv} t : steady (lift (starred_ty_walk_fn t)).
Proof. apply steady_lift, starred_panics. Qed.
Lemma steady_map_types `{ResolverEnv} {A} (f : ty -> outcome A) l : (forall t, of_types _ (f t)) -> steady (lift (TypeParser.map_m f l)).
Proof.
  intros Hf. apply steady_lift. intros e. apply map_m_panics. intros t e' _. by apply panics_types.
Qed.
Lemma steady_arg_type `{ResolverEnv} a i : steady (lift (Ast.get_arg_type a i)).
Proof. apply steady_lift. unfold Ast.get_arg_type. destruct (_ !! _); [done|]. intros e [= <-]. constructor. Qed.
#[export] Hint Resolve steady_starred steady_map_types steady_arg_type : steady.
#[export] Hint Constructors of_types : steady.

Definition walks `{ResolverEnv} (e : Expr) : Prop := balanced (walk_expr e).
#[local] Notation Node_walks := (Ast.Node_all Expr walks).

Lemma balanced_expr `{ResolverEnv} n : Node_walks n -> balanced (expr walk_expr n).
Proof. intros [e He]. unfold expr. cbn [node]. apply balanced_bind; [|done]. balanced_go. Qed.
#[export] Hint Resolve balanced_expr : balanced.
Lemma balanced_exprs `{ResolverEnv} l : Ast.list_all _ Node_walks l -> balanced (exprs walk_expr l).
Proof. intros Hl. unfold exprs. balanced_go. Qed.
Lemma balanced_expr_or_any `{ResolverEnv} o : Ast.option_all _ Node_walks o -> balanced (expr_or_any_type walk_expr o).
Proof. intros Ho. unfold expr_or_any_type. destruct Ho as [n [e He]|]; [done|balanced_go]. Qed.
Lemma balanced_must_be_type `{ResolverEnv} n t : Node_walks n -> balanced (must_be_type walk_expr n t).
Proof. intros Hn. unfold must_be_type. balanced_go. Qed.
#[export] Hint Resolve balanced_exprs balanced_expr_or_any balanced_must_be_type : balanced.

#[local] Notation Keywords := (Ast.list_all _ (Ast.Node_all _ (Ast.Keyword_all Expr walks))).
Lemma balanced_kwargs `{ResolverEnv} f c l : Keywords l -> balanced (walk_kwargs walk_expr f c l).
Proof.
  intros Hl. revert c. induction Hl as [|k [x Hx] l Hl IH]; intros c; cbn [walk_kwargs node]; [balanced_go|].
  destruct Hx. cbn. balanced_go.
Qed.
Lemma steady_positional `{ResolverEnv} f p n i a l : steady (check_positional f p n i a l).
Proof. revert i a. induction l as [|t l IH]; intros i [|a a']; cbn; steady_go. Qed.
Lemma steady_keywords `{ResolverEnv} f p k l : steady (check_keywords f p k l).
Proof. revert k. induction l as [|[n t] l IH]; intros [|k k']; cbn; steady_go. Qed.
#[export] Hint Resolve balanced_kwargs : balanced.
#[export] Hint Resolve steady_positional steady_keywords : steady.
Lemma balanced_arguments `{ResolverEnv} f a k p :
  Ast.list_all _ Node_walks a -> Keywords k -> balanced (do_arguments_type_check walk_expr f a k p).
Proof. intros Ha Hk. unfold do_arguments_type_check. balanced_go. Qed.
#[export] Hint Resolve balanced_arguments : balanced.

Lemma triple_check_names `{ResolverEnv} r0 d key names : storing d = false -> triple r0 d (check_names key names) (fun n => push n d).
Proof.
  revert d. induction names as [|name names IH]; intros d Hd; cbn [check_names].
  - apply triple_ret. by rewrite push_0.
  - eapply triple_bind; [triple_first|]. intros u. cbv beta. eapply triple_bind; [apply triple_switch_by_name|]. intros n.
    eapply triple_bind; [by apply IH|]. intros n'. apply triple_ret, push_push.
Qed.
Lemma balanced_check_entry `{ResolverEnv} k v :
  Ast.option_all _ Node_walks k -> Node_walks v -> balanced (check_config_entry walk_expr k v).
Proof.
  intros Hk Hv. unfold check_config_entry. destruct k as [key|]; [|balanced_go].
  apply balanced_bind; [balanced_go|]. intros top. destruct top; [|balanced_go]. destruct (key_names key) as [[names ix]|]; [|balanced_go].
  intros r0 d Hd. eapply triple_bind; [by apply triple_check_names|]. intros n. cbv beta. triple_go.
Qed.
Lemma balanced_config_key `{ResolverEnv} k v : Node_walks k -> Node_walks v -> balanced (walk_config_key walk_expr k v).
Proof. intros Hk Hv. unfold walk_config_key, insert_attribute. balanced_go. Qed.
Lemma balanced_unpacked `{ResolverEnv} v : Node_walks v -> balanced (walk_unpacked walk_expr v).
Proof. intros Hv. unfold walk_unpacked. balanced_go. Qed.
#[export] Hint Resolve balanced_check_entry balanced_config_key balanced_unpacked : balanced.
#[local] Notation Entries := (Ast.list_all _ (Ast.Node_all _ (Ast.ConfigEntry_all Expr walks))).
Lemma balanced_entry `{ResolverEnv} n : Ast.Node_all _ (Ast.ConfigEntry_all Expr walks) n -> balanced (walk_config_entry walk_expr n).
Proof.
  intros [x [k Hk v Hv]]. unfold walk_config_entry. cbn [node Ast.ce_key Ast.ce_value]. intros r0 d Hd. triple_go.
Qed.
#[export] Hint Resolve balanced_entry : balanced.
Lemma balanced_entries `{ResolverEnv} l : Entries l -> balanced (walk_config_entries walk_expr l).
Proof. intros Hl r0 d Hd. unfold walk_config_entries. triple_go. Qed.
#[export] Hint Resolve balanced_entries : balanced.


Lemma balanced_walk_config_expr `{ResolverEnv} x : Ast.ConfigExpr_all Expr walks x -> balanced (walk_config_expr walk_expr x).
Proof. intros []. unfold walk_config_expr. cbn [Ast.items]. balanced_go. Qed.
Lemma balanced_walk_config_if_entry `{ResolverEnv} x : Ast.ConfigIfEntryExpr_all Expr walks x -> balanced (walk_config_if_entry_expr walk_expr x).
Proof. intros []. unfold walk_config_if_entry_expr. cbn [Ast.ci_if_cond Ast.ci_items Ast.ci_orelse]. balanced_go. Qed.
Lemma balanced_walk_if_expr `{ResolverEnv} x : Ast.IfExpr_all Expr walks x -> balanced (walk_if_expr walk_expr x).
Proof. intros []. unfold walk_if_expr. cbn [Ast.ie_cond Ast.ie_body Ast.ie_orelse]. balanced_go. Qed.
Lemma balanced_walk_unary `{ResolverEnv} x : Ast.UnaryExpr_all Expr walks x -> balanced (walk_unary_expr walk_expr x).
Proof. intros []. unfold walk_unary_expr. cbn [Ast.operand Ast.un_op]. balanced_go. Qed.
Lemma balanced_as_type `{ResolverEnv} i pos : balanced (as_type i pos).
Proof. unfold as_type. balanced_go. Qed.
#[export] Hint Resolve balanced_as_type : balanced.
Lemma balanced_walk_binary `{ResolverEnv} x : Ast.BinaryExpr_all Expr walks x -> balanced (walk_binary_expr walk_expr x).
Proof. intros []. unfold walk_binary_expr. cbn [Ast.left Ast.right Ast.bin_op]. balanced_go. Qed.
Lemma steady_select_attrs `{ResolverEnv} t names pos : steady (select_attrs t names pos).
Proof. revert t. induction names as [|n names IH]; intros t; cbn; steady_go. Qed.
#[export] Hint Resolve steady_select_attrs : steady.
Lemma balanced_walk_selector `{ResolverEnv} x : Ast.SelectorExpr_all Expr walks x -> balanced (walk_selector_expr walk_expr x).
Proof. intros []. unfold walk_selector_expr. cbn [Ast.sel_value Ast.attr Ast.sel_has_question]. balanced_go. Qed.
Lemma balanced_walk_call `{ResolverEnv} x : Ast.CallExpr_all Expr walks x -> balanced (walk_call_expr walk_expr x).
Proof. intros []. unfold walk_call_expr. cbn [Ast.func Ast.args Ast.keywords]. balanced_go. Qed.
Lemma balanced_bound `{ResolverEnv} o : Ast.option_all _ Node_walks o -> balanced (bound_must_be_int walk_expr o).
Proof. intros Ho. unfold bound_must_be_int. balanced_go. Qed.
#[export] Hint Resolve balanced_bound : balanced.
Lemma balanced_walk_subscript `{ResolverEnv} x : Ast.Subscript_all Expr walks x -> balanced (walk_subscript walk_expr x).
Proof.
  intros [v Hv i Hi]. unfold walk_subscript, subscript_entry.
  cbn [Ast.sub_value Ast.sub_index Ast.lower Ast.upper Ast.step]. balanced_go.
Qed.
Lemma balanced_walk_paren `{ResolverEnv} x : Ast.ParenExpr_all Expr walks x -> balanced (walk_paren_expr walk_expr x).
Proof. intros []. unfold walk_paren_expr. cbn [Ast.paren_expr]. balanced_go. Qed.
Lemma steady_compare_rest `{ResolverEnv} t u o c i n : steady (compare_rest t u o c i n).
Proof. revert i. induction n as [|n IH]; intros i; cbn; steady_go. Qed.
#[export] Hint Resolve steady_compare_rest : steady.
Lemma balanced_walk_compare `{ResolverEnv} x : Ast.Compare_all Expr walks x -> balanced (walk_compare walk_expr x).
Proof.
  intros [l Hl o c Hc]. unfold walk_compare. cbn [Ast.cmp_left Ast.ops Ast.comparators].
  apply balanced_bind; [balanced_go|]. intros t1. destruct Hc; balanced_go.
Qed.
Lemma balanced_walk_list `{ResolverEnv} x : Ast.ListExpr_all Expr walks x -> balanced (walk_list_expr walk_expr x).
Proof. intros []. unfold walk_list_expr. cbn [Ast.elts]. balanced_go. Qed.
Lemma balanced_walk_list_if_item `{ResolverEnv} x : Ast.ListIfItemExpr_all Expr walks x -> balanced (walk_list_if_item_expr walk_expr x).
Proof. intros []. unfold walk_list_if_item_expr. cbn [Ast.li_if_cond Ast.li_orelse Ast.li_exprs]. balanced_go. Qed.
Lemma balanced_walk_starred `{ResolverEnv} x : Ast.StarredExpr_all Expr walks x -> balanced (walk_starred_expr walk_expr x).
Proof. intros []. unfold walk_starred_expr. cbn [Ast.star_value]. balanced_go. Qed.
Lemma balanced_walk_comp_clause `{ResolverEnv} x : Ast.CompClause_all Expr walks x -> balanced (walk_comp_clause walk_expr x).
Proof. intros []. unfold walk_comp_clause. cbn [Ast.iter Ast.cc_targets Ast.ifs]. balanced_go. Qed.
#[export] Hint Resolve balanced_walk_comp_clause : balanced.
Lemma balanced_comp_clauses `{ResolverEnv} l :
  Ast.list_all _ (Ast.Node_all _ (Ast.CompClause_all Expr walks)) l -> balanced (walk_comp_clauses walk_expr l).
Proof. intros Hl. unfold walk_comp_clauses. balanced_go. Qed.
#[export] Hint Resolve balanced_comp_clauses : balanced.
Lemma balanced_walk_list_comp `{ResolverEnv} x : Ast.ListComp_all Expr walks x -> balanced (walk_list_comp walk_expr x).
Proof. intros []. unfold walk_list_comp. cbn [Ast.elt Ast.lc_generators]. intros r0 d Hd. triple_go. Qed.
Lemma balanced_walk_dict_comp `{ResolverEnv} x : Ast.DictComp_all Expr walks x -> balanced (walk_dict_comp walk_expr x).
Proof.
  intros [e [k Hk v Hv] g Hg]. unfold walk_dict_comp. cbn [Ast.dc_entry Ast.dc_generators Ast.ce_key Ast.ce_value].
  destruct Hk; [|balanced_go]. cbv zeta. intros r0 d Hd. triple_go.
Qed.
Lemma balanced_walk_quant `{ResolverEnv} x : Ast.QuantExpr_all Expr walks x -> balanced (walk_quant_expr walk_expr x).
Proof.
  intros []. unfold walk_quant_expr. cbn [Ast.target Ast.variables Ast.quant_if_cond Ast.quant_test Ast.quant_op].
  intros r0 d Hd. triple_go.
Qed.
Lemma balanced_walk_schema_expr `{ResolverEnv} x : Ast.SchemaExpr_all Expr walks x -> balanced (walk_schema_expr walk_expr x).
Proof. intros []. unfold walk_schema_expr. cbn [Ast.se_name Ast.se_args Ast.kwargs Ast.se_config]. balanced_go. Qed.
Lemma balanced_walk_check `{ResolverEnv} x : Ast.CheckExpr_all Expr walks x -> balanced (walk_check_expr walk_expr x).
Proof. intros []. unfold walk_check_expr. cbn [Ast.ck_msg Ast.ck_if_cond Ast.ck_test]. balanced_go. Qed.
Lemma balanced_walk_keyword `{ResolverEnv} x : Ast.Keyword_all Expr walks x -> balanced (walk_keyword walk_expr x).
Proof. intros []. unfold walk_keyword. cbn [Ast.kw_arg Ast.kw_value]. balanced_go. Qed.
Lemma balanced_walk_parameters `{ResolverEnv} a i p v :
  Ast.list_all _ (Ast.option_all _ Node_walks) v -> balanced (walk_parameters walk_expr a i p v).
Proof.
  intros Hv. revert i p. induction Hv as [|o Ho v Hv IH]; intros i [|arg p]; cbn; balanced_go.
Qed.
#[export] Hint Resolve balanced_walk_schema_expr balanced_walk_check balanced_walk_parameters : balanced.
Lemma balanced_walk_arguments `{ResolverEnv} x : Ast.Arguments__all Expr walks x -> balanced (walk_arguments walk_expr x).
Proof. intros [a d Hd t]. unfold walk_arguments. cbn [Ast.ar_args Ast.defaults]. balanced_go. Qed.
Lemma balanced_walk_joined_string `{ResolverEnv} x : Ast.JoinedString_all Expr walks x -> balanced (walk_joined_string walk_expr x).
Proof. intros []. unfold walk_joined_string. cbn [Ast.js_values]. balanced_go. Qed.
Lemma balanced_walk_formatted_value `{ResolverEnv} x : Ast.FormattedValue_all Expr walks x -> balanced (walk_formatted_value walk_expr x).
Proof. intros []. unfold walk_formatted_value. cbn [Ast.format_spec Ast.fv_value]. balanced_go. Qed.
Lemma balanced_walk_number `{ResolverEnv} x : balanced (walk_number_lit x).
Proof. unfold walk_number_lit. balanced_go. Qed.


(** ** The walk of statements *)

(** [Stmt], at its own universe. *)
#[local] Notation stmt_ := (Stmt_ Expr).
Definition resolves `{ResolverEnv} (s : stmt_) : Prop := balanced (walk_stmt walk_expr s).
#[local] Notation Stmts_resolve := (Ast.list_all (Node stmt_) (Ast.Node_all stmt_ resolves)).

Lemma triple_walk_target `{ResolverEnv} r0 d target : storing d = false -> triple r0 d (walk_target target) (fun _ => d).
Proof.
  intros Hd. unfold walk_target. eapply triple_bind; [apply triple_store|]. intros u. cbv beta.
  eapply triple_bind; [apply steady_resolve_var|]. intros ty. cbv beta.
  eapply triple_bind; [apply triple_store|]. intros v. apply triple_ret. destruct d. cbn in *. by subst.
Qed.
Lemma balanced_walk_target `{ResolverEnv} target : balanced (walk_target target).
Proof. intros r0 d. apply triple_walk_target. Qed.
#[export] Hint Resolve balanced_walk_target : balanced.
Lemma steady_insert_global `{ResolverEnv} name pos : steady (insert_global_name name pos).
Proof. unfold insert_global_name. steady_go. Qed.
Lemma steady_get_global `{ResolverEnv} name : steady (get_global_name_pos name).
Proof. unfold get_global_name_pos. steady_go. Qed.
#[export] Hint Resolve steady_insert_global steady_get_global : steady.

Lemma balanced_walk_type_alias `{ResolverEnv} x : balanced (walk_type_alias_stmt x).
Proof. unfold walk_type_alias_stmt. balanced_go. Qed.
Lemma balanced_walk_expr_stmt `{ResolverEnv} x : Ast.ExprStmt_all Expr walks x -> balanced (walk_expr_stmt walk_expr x).
Proof. intros []. unfold walk_expr_stmt. cbn [Ast.exprs]. balanced_go. Qed.
Lemma balanced_walk_unification `{ResolverEnv} x : Ast.UnificationStmt_all Expr walks x -> balanced (walk_unification_stmt walk_expr x).
Proof. intros [t v [s Hs]]. unfold walk_unification_stmt. cbn [Ast.uni_target Ast.uni_value node]. balanced_go. Qed.
Lemma balanced_assigned `{ResolverEnv} v t s e : Node_walks v -> balanced (assigned_value walk_expr v t s e).
Proof. intros Hv. unfold assigned_value. balanced_go. Qed.
#[export] Hint Resolve balanced_assigned : balanced.
Lemma steady_set_schema_attr `{ResolverEnv} name t : steady (set_schema_attr name t).
Proof. unfold set_schema_attr. steady_go. Qed.
#[export] Hint Resolve steady_set_schema_attr : steady.
Lemma balanced_assign_target `{ResolverEnv} x s e t n : Node_walks (Ast.as_value x) -> balanced (assign_target walk_expr x s e t n).
Proof. intros Hx. unfold assign_target. balanced_go. Qed.
#[export] Hint Resolve balanced_assign_target : balanced.
Lemma balanced_assign_targets `{ResolverEnv} x s e t l : Node_walks (Ast.as_value x) -> balanced (assign_targets walk_expr x s e t l).
Proof. intros Hx. revert t. induction l as [|n l IH]; intros t; cbn; balanced_go. Qed.
#[export] Hint Resolve balanced_assign_targets : balanced.
Lemma balanced_walk_assign `{ResolverEnv} x : Ast.AssignStmt_all Expr walks x -> balanced (walk_assign_stmt walk_expr x).
Proof. intros []. unfold walk_assign_stmt. balanced_go. Qed.
Lemma steady_check_immutable `{ResolverEnv} t n v : steady (check_immutable t n v).
Proof. unfold check_immutable. steady_go. Qed.
#[export] Hint Resolve steady_check_immutable : steady.
Lemma balanced_walk_aug_assign `{ResolverEnv} x : Ast.AugAssignStmt_all Expr walks x -> balanced (walk_aug_assign_stmt walk_expr x).
Proof.
  intros [o t v Hv]. unfold walk_aug_assign_stmt. cbn [Ast.aug_target Ast.aug_value Ast.aug_op].
  do 6 (apply balanced_bind; [balanced_go|intros ?]). intros r0 d Hd.
  eapply triple_bind; [apply triple_store|]. intros u. cbv beta.
  eapply triple_bind; [apply steady_resolve_var|]. intros ty. cbv beta.
  eapply triple_bind; [apply steady_must_assignable|]. intros v'. cbv beta.
  eapply triple_bind; [apply triple_store|]. intros w. apply triple_ret. destruct d. cbn in *. by subst.
Qed.
Lemma balanced_walk_assert `{ResolverEnv} x : Ast.AssertStmt_all Expr walks x -> balanced (walk_assert_stmt walk_expr x).
Proof. intros []. unfold walk_assert_stmt. cbn [Ast.at_test Ast.at_if_cond Ast.at_msg]. balanced_go. Qed.

#[local] Notation Decorators := (Ast.list_all _ (Ast.Node_all _ (Ast.CallExpr_all Expr walks))).
Lemma decorators_are_functions `{ResolverEnv} name t : im_get name BUILTIN_DECORATORS = Some t -> exists f, kind t = KFunction f.
Proof.
  intros Hin%im_get_In. revert t Hin. enough (Hall : List.Forall (fun p => exists f, kind p.2 = KFunction f) BUILTIN_DECORATORS).
  { intros t Hin. rewrite List.Forall_forall in Hall. exact (Hall _ Hin). }
  repeat constructor; by eexists.
Qed.
Lemma balanced_decorators `{ResolverEnv} l target key : Decorators l -> balanced (resolve_decorators walk_expr l target key).
Proof.
  intros Hl. induction Hl as [|n [x Hx] l Hl IH]; cbn [resolve_decorators node]; [balanced_go|]. destruct Hx.
  cbn [Ast.func Ast.args Ast.keywords].
  apply balanced_bind; [|intros ?; balanced_go]. destruct (decorator_name _) as [name|]; [|balanced_go]. cbv zeta.
  destruct (im_get _ _) as [t|] eqn:E; [|balanced_go].
  destruct (decorators_are_functions _ _ E) as [f ->]. balanced_go.
Qed.
#[export] Hint Resolve balanced_decorators : balanced.
Lemma steady_attr_value_check `{ResolverEnv} o t u pos : steady (attr_value_check o t u pos).
Proof. unfold attr_value_check. steady_go. Qed.
#[export] Hint Resolve steady_attr_value_check : steady.
Lemma balanced_walk_schema_attr `{ResolverEnv} x : Ast.SchemaAttr_all Expr walks x -> balanced (walk_schema_attr walk_expr x).
Proof.
  intros []. unfold walk_schema_attr. cbn [Ast.sa_name Ast.sa_decorators Ast.sa_value Ast.sa_op]. balanced_go.
Qed.
Lemma steady_insert_params `{ResolverEnv} l s e : steady (insert_params l s e).
Proof. unfold insert_params. steady_go. Qed.
#[export] Hint Resolve steady_insert_params : steady.
Lemma balanced_checks `{ResolverEnv} l : Ast.list_all _ (Ast.Node_all _ (Ast.CheckExpr_all Expr walks)) l -> balanced (walk_checks walk_expr l).
Proof. intros Hl. unfold walk_checks. balanced_go. Qed.
#[export] Hint Resolve balanced_checks : balanced.
Lemma steady_declared_schema `{ResolverEnv} n w pos : steady (declared_schema n w pos).
Proof. unfold declared_schema. steady_go. Qed.
#[export] Hint Resolve steady_declared_schema : steady.
Lemma balanced_rule `{ResolverEnv} x : Ast.RuleStmt_all Expr walks x -> balanced (resolve_rule_stmt walk_expr x).
Proof.
  intros []. unfold resolve_rule_stmt. cbn [Ast.ru_name Ast.ru_args Ast.ru_checks]. intros r0 d Hd. triple_go.
Qed.
Lemma steady_insert_index `{ResolverEnv} i n : steady (insert_index_name i n).
Proof. unfold insert_index_name. steady_go. Qed.
Lemma steady_insert_left `{ResolverEnv} v : steady (insert_left_identifier v).
Proof. unfold insert_left_identifier. steady_go. Qed.
#[export] Hint Resolve steady_insert_index steady_insert_left : steady.

Lemma balanced_stmt `{ResolverEnv} n : Ast.Node_all stmt_ resolves n -> balanced (stmt (walk_stmt walk_expr) n).
Proof. intros [s Hs]. unfold stmt. cbn [node]. apply balanced_bind; [balanced_go|done]. Qed.
#[export] Hint Resolve balanced_stmt : balanced.
Lemma balanced_stmts `{ResolverEnv} l : Stmts_resolve l -> balanced (stmts (walk_stmt walk_expr) l).
Proof. intros Hl. unfold stmts. balanced_go. Qed.
#[export] Hint Resolve balanced_stmts : balanced.
Lemma balanced_walk_if `{ResolverEnv} x : Ast.IfStmt_all Expr walks stmt_ resolves x -> balanced (walk_if_stmt walk_expr (walk_stmt walk_expr) x).
Proof. intros []. unfold walk_if_stmt. cbn [Ast.is_cond Ast.is_body Ast.is_orelse]. balanced_go. Qed.
Lemma balanced_schema `{ResolverEnv} x :
  Ast.SchemaStmt_all Expr walks stmt_ resolves x -> balanced (resolve_schema_stmt walk_expr (walk_stmt walk_expr) x).
Proof.
  intros Hx. unfold resolve_schema_stmt. pose proof (fun l => @steady_for_each _ _ insert_left_identifier l steady_insert_left).
  destruct Hx. intros r0 d Hd.
  cbn [Ast.sc_name Ast.sc_args Ast.sc_index_signature Ast.sc_body Ast.sc_checks]. triple_go.
Qed.

(** What holds of the parts of a part. *)
Lemma statements_apply `{ResolverEnv} l :
  Ast.list_all (Node stmt_) (Ast.Node_all stmt_ (fun a => Ast.Stmt__all Expr walks a -> resolves a)) l ->
  Ast.list_all (Node stmt_) (Ast.Node_all stmt_ (Ast.Stmt__all Expr walks)) l -> Stmts_resolve l.
Proof.
  intros Hi Hq. induction Hi as [|n [a Ha] l Hi IH]; [constructor|].
  inversion Hq as [|? Hn ? ?]; subst. constructor; [|by apply IH].
  inversion Hn; subst. constructor. auto.
Qed.
Lemma walk_stmt_resolves `{ResolverEnv} s : Ast.Stmt__all Expr walks s -> resolves s.
Proof.
  induction s as [| | | | | |x Hi| | |x Hi|] using Ast.Stmt__ind; intros Hs; inversion Hs as [
    |? Hx|? Hx|? Hx|? Hx|? Hx|? Hx| |? Hx|? Hx|? Hx]; subst; unfold resolves; simpl.
  7: { apply balanced_walk_if. destruct Hx; inversion Hi; subst. constructor; try assumption;
       by apply statements_apply. }
  9: { apply balanced_schema. destruct Hx; inversion Hi; subst. constructor; try assumption;
       by apply statements_apply. }
  all: auto using balanced_walk_type_alias, balanced_walk_expr_stmt, balanced_walk_unification, balanced_walk_assign,
    balanced_walk_aug_assign, balanced_walk_assert, balanced_walk_schema_attr, balanced_rule, steady_balanced, steady_ret.
  apply steady_balanced, steady_ret.
Qed.
Lemma stmts_resolve `{ResolverEnv} l :
  Ast.list_all (Node stmt_) (Ast.Node_all stmt_ (Ast.Stmt__all Expr walks)) l -> Stmts_resolve l.
Proof. intros Hl. induction Hl as [|n [s Hs] l Hl IH]; constructor; [|done]. constructor. by apply walk_stmt_resolves. Qed.
Lemma balanced_walk_lambda `{ResolverEnv} x :
  Ast.LambdaExpr_all Expr walks stmt_ (Ast.Stmt__all Expr walks) x -> balanced (walk_lambda_expr walk_expr x).
Proof.
  intros [a Ha ty b Hb]. apply stmts_resolve in Hb. unfold walk_lambda_expr.
  cbn [Ast.la_args Ast.la_body Ast.return_ty Ast.return_type_str]. intros r0 d Hd.
  assert (Hps : balanced (match a with
    | Some args => walk_parameters walk_expr (node args) 0 (Ast.ar_args (node args)) (Ast.defaults (node args))
    | None => mret [] end)).
  { destruct Ha as [n [y [ar df Hdf tl]]|]; balanced_go. }
  triple_go.
Qed.

Lemma every_expr_walks `{ResolverEnv} e : walks e.
Proof.
  induction e using Ast.Expr_ind; unfold walks; cbn [walk_expr]; auto using balanced_walk_unary, balanced_walk_binary,
    balanced_walk_if_expr, balanced_walk_selector, balanced_walk_call, balanced_walk_paren, balanced_walk_quant,
    balanced_walk_list, balanced_walk_list_if_item, balanced_walk_list_comp, balanced_walk_starred, balanced_walk_dict_comp,
    balanced_walk_config_if_entry, balanced_walk_comp_clause, balanced_walk_schema_expr, balanced_walk_config_expr,
    balanced_walk_check, balanced_walk_lambda, balanced_walk_subscript, balanced_walk_keyword, balanced_walk_arguments,
    balanced_walk_compare, balanced_walk_joined_string, balanced_walk_formatted_value, balanced_walk_number,
    steady_balanced, steady_ret.
  - apply steady_balanced. unfold walk_identifier. steady_go.
  - apply steady_balanced, steady_ret.
  - apply steady_balanced, steady_ret.
Qed.

(** ** In place *)

(** The resolver between two statements: a scope is current, and no name is being stored. *)
Record ready `{ResolverEnv} (r : resolver) : Prop := {
  ready_arena : arena_ok (scopes r);
  ready_scope : is_Some (scopes r !! scope r);
  ready_level : 0 <= scope_level r;
  ready_load : l_value (ctx r) = false }.

(** Nothing but the tables of names and types, new scopes and new diagnostics. *)
Record in_place `{ResolverEnv} (r q : resolver) : Prop := {
  same_scope : scope q = scope r /\ scope_level q = scope_level r /\ scope_map q = scope_map r;
  same_package : cx_filename (ctx q) = cx_filename (ctx r) /\ cx_pkgpath (ctx q) = cx_pkgpath (ctx r);
  same_stacks : config_expr_context (ctx q) = config_expr_context (ctx r) /\ in_lambda_expr (ctx q) = in_lambda_expr (ctx r);
  scopes_grow : grown (scopes r) (scopes q);
  diagnostics_grow : handler r `prefix_of` handler q }.

Lemma inside_ready `{ResolverEnv} r : ready r -> inside r (mkDepth 0 0 0 false) r.
Proof.
  intros []. split; simpl; try done; try lia; exists []; by rewrite app_nil_r.
Qed.
Lemma inside_in_place `{ResolverEnv} r q : 0 <= scope_level r -> inside r (mkDepth 0 0 0 false) q -> in_place r q /\ ready q.
Proof.
  intros Hl [Ha Hg Hs Hu Hlv Hm Hf Hp (lc & Hc & Ec%nil_length_inv) (ll & Hla & El%nil_length_inv) Hst Hh]. subst.
  rewrite app_nil_r in Hc, Hla. cbn in Hu, Hlv. injection Hu as Hu. rewrite Z.add_0_r in Hlv.
  split; split; try done. by rewrite Hlv.
Qed.
Lemma balanced_in_place `{ResolverEnv} {A} (m : R A) r : balanced m -> ready r ->
  match m r with Ok (_, q) => in_place r q /\ ready q | Panic e => panics e end.
Proof.
  intros Hm Hr. specialize (Hm r (mkDepth 0 0 0 false) eq_refl r (ready_level _ Hr) (inside_ready _ Hr)).
  destruct (m r) as [[a q]|e]; [|done]. apply inside_in_place; [by destruct Hr|done].
Qed.

Lemma balanced_statement `{ResolverEnv} (n : Node Stmt) : balanced (stmt (walk_stmt walk_expr) n).
Proof.
  apply balanced_stmt. destruct n. constructor. apply walk_stmt_resolves, Ast.Stmt__all_forall. apply every_expr_walks.
Qed.

(** C2: Resolving a statement ends in the scope, the level, the file, the package and the
    stacks that it began with, ready for the next; scopes and their names are only added and
    diagnostics only appended.  It panics in a function on types, or for a tree that has no
    name, no element or no schema where the code takes one; never because a scope is left
    that was not entered. *)
Theorem statement_resolved_in_place `{ResolverEnv} (n : Node Stmt) r :
  ready r ->
  match stmt (walk_stmt walk_expr) n r with
  | Ok (_, q) => in_place r q /\ ready q
  | Panic e => panics e
  end.
Proof. apply balanced_in_place, balanced_statement. Qed.

(** ** An instance *)

Module Instances.
#[export] Instance no_type_regexes : TypeRegexes :=
  {| double_quoted_end _ := None; single_quoted_end _ := None; number_multiplier_regex _ := false |}.
#[export] Instance no_doc_regex : DocString.DocRegex := {| DocString.triple_quoted _ := Ok (fun _ => None) |}.
#[export] Instance env : ResolverEnv := {|
  Graph := list string * list (nat * nat); re_overflow_checks := true; re_powf x _ := x; re_unicode := ascii_tables |}.
Definition at_ {T} (x : T) : Node T := Ast.mkNode x (txt "a.k") 1 0 1 5.
Definition name (s : string) : Identifier := Ast.mkIdentifier [at_ (txt s)] [] Ast.Load.
Definition number (z : Z) : Node Expr := at_ (Ast.ENumberLit (Ast.mkNumberLit None (Ast.NlInt z))).
Definition assign (s : string) (v : Node Expr) : Node Stmt := at_ (Ast.SAssign (Ast.mkAssignStmt [at_ (name s)] v None None)).
Definition config (entries : list (string * Node Expr)) : Node Expr :=
  at_ (Ast.EConfig (Ast.mkConfigExpr (map (fun p =>
    at_ (Ast.mkConfigEntry (Some (at_ (Ast.EIdentifier (name p.1)))) p.2 Ast.OpUnion (-1))) entries))).
End Instances.
Import Instances.

Lemma new_ready : ready new_resolver.
Proof.
  split; simpl; try done. intros [|i] s; [|by destruct i]. intros [= <-]. split; [done|]. set_solver.
Qed.

Lemma statement_resolved_in_place_witness :
  ready new_resolver /\
  match stmt (walk_stmt walk_expr) (assign "x" (config [("a", config [("b", number 1)])])) new_resolver with
  | Ok (_, q) => in_place new_resolver q /\ ready q
  | Panic e => panics e
  end.
Proof. split; [exact new_ready|]. apply statement_resolved_in_place. exact new_ready. Defined.

(** The statement opens two scopes and declares its name. *)
Example statement_opens :
  match stmt (walk_stmt walk_expr) (assign "x" (config [("a", config [("b", number 1)])])) new_resolver with
  | Ok (t, q) => ty_str t = "{str(a):{str(b):int(1)}}" /\ length (scopes q) = 3%nat
  | Panic _ => False
  end.
Proof. by vm_compute. Qed.
