(* ===== verification/ResolverGlobal.v ===== *)
(** * Packages, global types and imports

    The types of a package's schemas, rules and variables, built in three scans
    ([kclvm/sema/src/resolver/global.rs]), its imports ([import.rs]) and the check of a
    package ([mod.rs]).  A package is checked once, when it is first imported; [fuel] bounds
    the depth of imports. *)

From S2P Require Import Prelude MachineInt State Floats Chars Utf8 StrLiteral TypeData Unify Sup TypeContext.
From S2P Require Import Diagnostic Calculation AstPos Builtins Scope DocString Units TypeParser.
From S2P Require Ast.
Import Ast(Node, node, Expr, Stmt, Stmt_, STypeAlias, SUnification, SAssign, SIf, SImport, SSchemaAttr, SSchema, SRule,
  Identifier, Module_, mo_filename, mo_pkg, mo_body).
From S2P Require Import Resolver ResolverWalk ResolverStmt.

(** [Program]: the packages, in the order of their iteration. *)
Record Program_ := mkProgram { root : string; pkgs : list (string * list Module_) }.
Definition get_main_files (p : Program_) : list string :=
  match im_get MAIN_PKG (pkgs p) with Some modules => map (fun m => encode (mo_filename m)) modules | None => [] end.

Definition MAX_SCOPE_SCAN_COUNT : nat := 3.
Definition MIXIN_SUFFIX : string := "Mixin".
Definition PROTOCOL_SUFFIX : string := "Protocol".
Definition SCHEMA_SETTINGS_ATTR_NAME : string := "__settings__".

(** [Path::join], as a string. *)
Definition path_join (root path : string) : string :=
  if starts_with "/" path then path
  else if string_eqb root "" || str_ends_with "/" root then root +:+ path
  else root +:+ "/" +:+ path.
(** [replace('.', "/")]. *)
Fixpoint dots_to_slashes (s : string) : string :=
  match s with
  | EmptyString => ""
  | String c s' => String (if bool_decide (c = dot) then "/"%char : Ascii.ascii else c) (dots_to_slashes s')
  end.

Section Global.
Context `{ResolverEnv}.
Notation R := (st resolver).
Notation "m1 ;; m2" := (m1 ≫= fun _ => m2) (at level 100, right associativity, only parsing).

Definition resolve_stmt (n : Node Stmt) : R ty := stmt (walk_stmt walk_expr) n.

(** ** The types of schemas and rules *)

(** A schema that a name stands for and the test accepts, or an error. *)
Definition inherited (n : Node Identifier) (accepts : schema_type -> bool) (msg : string -> string) : R (option schema_type) :=
  t ← walk_identifier (node n);
  let refused := error_at IllegalInheritError (get_pos n) (msg (ty_str t)) None;; mret None in
  match kind t with
  | KSchema s => if accepts s && negb (sch_is_instance s) then mret (Some s) else refused
  | _ => refused
  end.

Definition expect_protocol (got : string) : string := "invalid schema inherit object type, expect protocol, got '" +:+ got +:+ "'".
Definition build_rule_protocol_type (x : Ast.RuleStmt Expr) : R (option schema_type) :=
  match Ast.ru_for_host_name x with
  | Some host_name => inherited host_name sch_is_protocol expect_protocol
  | None => mret None
  end.
Definition build_schema_protocol_type (x : Ast.SchemaStmt Expr Stmt) : R (option schema_type) :=
  match Ast.for_host_name x with
  | Some host_name =>
      if negb (Ast.sc_is_mixin x) then
        error_at IllegalInheritError (get_pos host_name) "only schema mixin can inherit from protocol" None;; mret None
      else inherited host_name sch_is_protocol expect_protocol
  | None => mret None
  end.
Definition build_schema_parent_type (x : Ast.SchemaStmt Expr Stmt) : R (option schema_type) :=
  match Ast.parent_name x with
  | Some parent_name =>
      inherited parent_name (fun s => negb (sch_is_protocol s) && negb (sch_is_mixin s))
        (fun got => "invalid schema inherit object type, expect schema, got '" +:+ got +:+ "'")
  | None => mret None
  end.

(** The parameters; [schema_attr_names] are the names that they may not have. *)
Fixpoint build_params (args : Ast.Arguments_ Expr) (schema_attr_names : list string) (i : nat)
    (params : list (Node Identifier)) : R (list parameter) :=
  match params with
  | [] => mret []
  | para :: params' =>
      let name := encode (Ast.get_name (node para)) in
      _ ← when (bool_decide (name ∈ schema_attr_names))
        (compile_error ("Unexpected parameter name '" +:+ name +:+ "' with the same name as the schema attribute") (get_pos para));
      t ← lift (Ast.get_arg_type args i);
      t ← parse_ty_with_scope t (get_pos para);
      rest ← build_params args schema_attr_names (S i) params';
      mret (mkParameter name t (i <? length (Ast.defaults args))%nat :: rest)
  end.
Definition build_args (args : option (Node (Ast.Arguments_ Expr))) (schema_attr_names : list string) : R (list parameter) :=
  match args with
  | Some args => build_params (node args) schema_attr_names 0 (Ast.ar_args (node args))
  | None => mret []
  end.

(** The edge from a schema to its parent; a cycle of the graph is an error. *)
Definition add_schema_ref (what name : string) (parent : schema_type) (pos : position) : R unit :=
  on_ctx (fun c => set_ty_ctx (add_dependencies (ty_ctx c) (schema_runtime_type name (cx_pkgpath c))
                                 (schema_runtime_type (sch_name parent) (sch_pkgpath parent))) c);;
  cyclic ← gets (fun r => is_cyclic (ty_ctx (ctx r)));
  when (cyclic : bool)
    (compile_error ("There is a circular reference between " +:+ what +:+ " " +:+ name +:+ " and " +:+ sch_name parent) pos).

Definition build_index_signature (x : Ast.SchemaStmt Expr Stmt) (schema_attr_names : list string) (pos : position)
    : R (option schema_index_signature) :=
  match Ast.sc_index_signature x with
  | None => mret None
  | Some n =>
      let ix := node n in
      _ ← (match Ast.si_key_name ix with
           | Some key_name =>
               when (bool_decide (encode key_name ∈ schema_attr_names))
                 (error_at IndexSignatureError (get_pos n)
                    ("index signature attribute name '" +:+ encode key_name +:+ "' cannot have the same name as schema attributes") None)
           | None => mret tt
           end);
      key_ty ← parse_ty_str_with_scope (node (Ast.si_key_type ix)) (get_pos (Ast.si_key_type ix));
      val_ty ← parse_ty_with_scope (node (Ast.si_value_ty ix)) (get_pos (Ast.si_value_type ix));
      _ ← when (negb (is_str_type_or_str_union_type key_ty))
        (error_at IndexSignatureError pos ("invalid index signature key type: '" +:+ ty_str key_ty +:+ "'") None);
      mret (Some (mkIndexSignature (encode <$> Ast.si_key_name ix) key_ty val_ty (Ast.si_any_other ix)))
  end.

(** The attribute that a statement of the body declares: name, type, optional, with a default. *)
Definition declared_attr (s : Stmt) (pos : position) : R (option (string * ty * bool * bool)) :=
  match s with
  | SUnification u =>
      t ← parse_ty_str_with_scope (Ast.get_name (node (Ast.se_name (node (Ast.uni_value u))))) pos;
      mret (Some (encode (Ast.get_name (node (Ast.uni_target u))), t, true, true))
  | SSchemaAttr a =>
      t ← parse_ty_with_scope (node (Ast.sa_ty a)) (get_pos (Ast.sa_ty a));
      mret (Some (encode (node (Ast.sa_name a)), t, Ast.sa_is_optional a, bool_decide (is_Some (Ast.sa_value a))))
  | _ => mret None
  end.

Definition doc_of (d : Doc) (name : string) : option string :=
  (fun a => encode (join_with [10] (at_desc a))) <$> List.find (fun a => string_eqb (encode (at_name a)) name) (doc_attrs d).

(** One declaration: the first of a name is kept, each is checked against it, against the
    parent's attribute and against the index signature. *)
Definition add_attr (parent : option schema_type) (ix : option schema_index_signature) (d : Doc)
    (attrs : list (string * schema_attr)) (n : Node Stmt) : R (list (string * schema_attr)) :=
  let pos := get_pos n in
  decl ← declared_attr (node n) pos;
  match decl with
  | None => mret attrs
  | Some (name, t, is_optional, has_default) =>
      let base_attr_ty := default ANY (p ← parent; get_type_of_attr p name) in
      let attrs :=
        if im_contains name attrs then attrs
        else
          let optional := match (p ← parent; get_obj_of_attr p name) with
                          | Some a => attr_is_optional a
                          | None => is_optional
                          end in
          im_insert name (mkSchemaAttr optional has_default t pos (doc_of d name)) attrs in
      kept ← unwrap (im_get name attrs);
      upper ← lift (is_upper_bound (attr_ty kept) t);
      base_upper ← (if (upper : bool) then lift (is_upper_bound base_attr_ty t) else mret true);
      _ ← when (negb upper || negb base_upper)
        (type_error ("can't change schema field type of '" +:+ name +:+ "' from " +:+ ty_str (attr_ty kept) +:+ " to " +:+ ty_str t) pos);
      _ ← when (is_optional && negb (attr_is_optional kept))
        (type_error ("can't change the required schema attribute of '" +:+ name +:+ "' to optional") pos);
      _ ← (match ix with
           | Some ix =>
               if index_any_other ix then mret tt
               else
                 b ← lift (is_upper_bound (is_val_ty ix) t);
                 when (negb b)
                   (error_at IndexSignatureError pos
                      ("the type '" +:+ ty_str t +:+ "' of schema attribute '" +:+ name +:+
                       "' does not meet the index signature definition " +:+ index_signature_ty_str ix) None)
           | None => mret tt
           end);
      mret attrs
  end.

(** [fold] of a method over a list. *)
Definition fold_st {A B} (f : B -> A -> R B) : B -> list A -> R B :=
  fix go b l := match l with [] => mret b | x :: l' => b ← f b x; go b l' end.

Definition add_missing (attrs : list (string * schema_attr)) (p : string * schema_attr) : list (string * schema_attr) :=
  if im_contains p.1 attrs then attrs else im_insert p.1 p.2 attrs.

(** A mixin adds the attributes that are missing. *)
Definition add_mixin (acc : list schema_type * list (string * schema_attr)) (mixin : Node Identifier)
    : R (list schema_type * list (string * schema_attr)) :=
  let '(mixin_types, attrs) := acc in
  last_name ← (match last (Ast.get_names (node mixin)) with
               | Some n => mret (encode n)
               | None => panic "attempt to subtract with overflow"
               end);
  _ ← when (negb (str_ends_with MIXIN_SUFFIX last_name))
    (error_at NameError (get_pos mixin) ("a valid mixin name should end with 'Mixin', got '" +:+ last_name +:+ "'") None);
  mixin_ty ← inherited mixin (fun s => negb (sch_is_protocol s) && sch_is_mixin s)
    (fun got => "illegal schema mixin object type, expected mixin, got '" +:+ got +:+ "'");
  mret match mixin_ty with
       | Some s => (mixin_types ++ [s], fold_left add_missing (sch_attrs s) attrs)
       | None => acc
       end.

Definition check_schema_name (x : Ast.SchemaStmt Expr Stmt) (parent : option schema_type) (pos : position) : R unit :=
  let name := encode (node (Ast.sc_name x)) in
  _ ← when (bool_decide (name ∈ RESERVED_TYPE_IDENTIFIERS))
    (compile_error ("schema name '" +:+ name +:+ "' cannot be the same as the built-in types (" +:+ reserved_debug +:+ ")") pos);
  _ ← when (Ast.sc_is_protocol x && negb (str_ends_with PROTOCOL_SUFFIX name))
    (error_at CompileError pos ("schema protocol name must end with '" +:+ PROTOCOL_SUFFIX +:+ "'") None);
  _ ← when (Ast.sc_is_protocol x && negb (Ast.has_only_attribute_definitions x))
    (compile_error "a protocol is only allowed to define attributes in it" pos);
  let parent_name := match parent with Some p => sch_name p | None => "" end in
  when (str_ends_with MIXIN_SUFFIX parent_name)
    (error_at IllegalInheritError pos ("mixin inheritance " +:+ parent_name +:+ " is prohibited") None).

Definition build_schema_type (x : Ast.SchemaStmt Expr Stmt) (parent protocol : option schema_type)
    (should_add_schema_ref : bool) : R schema_type :=
  let name := encode (node (Ast.sc_name x)) in
  let pos := get_end_pos (Ast.sc_name x) in
  check_schema_name x parent pos;;
  let schema_attr_names := map (fun v => encode v.2) (Ast.get_left_identifier_list x) in
  ix ← build_index_signature x schema_attr_names pos;
  file ← gets (fun r => cx_filename (ctx r));
  d ← lift (parse_doc_string (Ast.sc_doc x));
  let settings := mkSchemaAttr true false (dict_of STR ANY) (mkPosition file (TypeData.line pos) (TypeData.column pos)) None in
  attrs ← fold_st (add_attr parent ix d) [(SCHEMA_SETTINGS_ATTR_NAME, settings)] (Ast.sc_body x);
  '(mixin_types, attrs) ← fold_st add_mixin ([], attrs) (Ast.sc_mixins x);
  params ← build_args (Ast.sc_args x) schema_attr_names;
  _ ← (match parent with
       | Some p => when should_add_schema_ref (add_schema_ref "schema" name p (schema_pos x))
       | None => mret tt
       end);
  decorators ← resolve_decorators walk_expr (Ast.sc_decorators x) DSchema name;
  '(pkg, file) ← gets (fun r => (cx_pkgpath (ctx r), cx_filename (ctx r)));
  let doc := encode (summary d) in
  let s := mkSchemaType name pkg file doc false (Ast.sc_is_mixin x) (Ast.sc_is_protocol x) false parent protocol
             mixin_types attrs (mkFunctionType doc params None ANY false None) ix decorators in
  on_ctx (fun c => set_schema_mapping (im_insert (schema_runtime_type name pkg) s (schema_mapping c)) c);;
  mret s.

Definition build_rule_type (x : Ast.RuleStmt Expr) (protocol : option schema_type) (should_add_schema_ref : bool)
    : R schema_type :=
  let name := encode (node (Ast.ru_name x)) in
  _ ← when (bool_decide (name ∈ RESERVED_TYPE_IDENTIFIERS))
    (compile_error ("rule name '" +:+ name +:+ "' cannot be the same as the built-in types (" +:+ reserved_debug +:+ ")")
       (get_end_pos (Ast.ru_name x)));
  parents ← map_st (fun rule => inherited rule sch_is_rule (fun got => "illegal rule type '" +:+ got +:+ "'")) (Ast.parent_rules x);
  let parent_types := omap id parents in
  params ← build_args (Ast.ru_args x) [];
  _ ← when should_add_schema_ref (for_each (fun p => add_schema_ref "rule" name p (rule_pos x)) parent_types);
  decorators ← resolve_decorators walk_expr (Ast.ru_decorators x) DSchema name;
  '(pkg, file) ← gets (fun r => (cx_pkgpath (ctx r), cx_filename (ctx r)));
  let doc := encode (Ast.ru_doc x) in
  mret (mkSchemaType name pkg file doc false false false true None protocol parent_types []
          (mkFunctionType doc params None ANY false None) None decorators).

(** ** The variables of a package *)

(** Whether the name is declared already and may not change; the error then. *)
Definition declared_immutable (name : string) (pos : position) (unique_check : bool) : R bool :=
  obj ← gets (fun r => im_get name (current_elems r));
  match obj with
  | Some obj =>
      if negb (is_private_field name) && unique_check then
        report (add_error ImmutableError
          [mkMessage pos LineAndColumn
             ("Can not change the value of '" +:+ name +:+ "', because it was declared immutable") None;
           mkMessage (so_start obj) LineAndColumn ("The variable '" +:+ name +:+ "' is declared here")
             (Some ("change the variable name to '_" +:+ name +:+ "' to make it mutable"))]);;
        mret true
      else mret false
  | None => mret false
  end.

(** The type of a variable: its annotation, which may not contradict an earlier one, or what
    it was. *)
Definition variable_type (x : Ast.AssignStmt Expr) (name : string) (pos : position) : R ty :=
  match Ast.as_ty x with
  | Some annotation =>
      t ← parse_ty_with_scope (node annotation) (get_pos annotation);
      obj ← gets (fun r => im_get name (current_elems r));
      _ ← (match obj with
           | Some obj =>
               b ← lift (is_upper_bound (so_ty obj) t);
               when (negb b)
                 (report (add_error TypeError
                    [mkMessage pos LineAndColumn
                       ("can not change the type of '" +:+ name +:+ "' to " +:+ ty_str (so_ty obj)) None;
                     mkMessage (so_start obj) LineAndColumn ("expected " +:+ ty_str (so_ty obj)) None]))
           | None => mret tt
           end);
      mret t
  | None => gets (fun r => match im_get name (current_elems r) with Some obj => so_ty obj | None => ANY end)
  end.

Definition init_scope_with_assign_stmt (x : Ast.AssignStmt Expr) (unique_check : bool) : R unit :=
  for_each (fun target =>
    match Ast.names (node target) with
    | [] => compile_error "missing target in the assign statement" (get_pos target)
    | first :: _ =>
        let name := encode (node first) in
        immutable ← declared_immutable name (get_pos target) unique_check;
        if (immutable : bool) then mret tt
        else t ← variable_type x name (get_pos target); insert_variable name (get_pos target) (get_end_pos target) t
    end) (Ast.targets x).

Definition init_scope_with_unification_stmt (x : Ast.UnificationStmt Expr) (unique_check : bool) : R unit :=
  let target := Ast.uni_target x in
  match Ast.names (node target) with
  | [] => mret tt
  | first :: _ =>
      let name := encode (node first) in
      immutable ← declared_immutable name (get_pos target) unique_check;
      if (immutable : bool) then mret tt
      else
        t ← walk_identifier (node (Ast.se_name (node (Ast.uni_value x))));
        insert_variable name (get_pos target) (get_end_pos target) t
  end.

Fixpoint init_scope_with_stmt (unique_check : bool) (s : Stmt_ Expr) : R unit :=
  match s with
  | SAssign x => init_scope_with_assign_stmt x unique_check
  | SUnification x => init_scope_with_unification_stmt x unique_check
  | SIf x =>
      for_each (fun n => init_scope_with_stmt unique_check (node n)) (Ast.is_body x);;
      for_each (fun n => init_scope_with_stmt unique_check (node n)) (Ast.is_orelse x)
  | _ => mret tt
  end.
Definition init_scope_with_stmts (l : list (Node Stmt)) (unique_check : bool) : R unit :=
  for_each (fun n => init_scope_with_stmt unique_check (node n)) l.

Section Packages.
Context (program : Program_).

Definition current_modules : R (option (list Module_)) :=
  gets (fun r => im_get (cx_pkgpath (ctx r)) (pkgs program)).

Definition init_global_var_types (unique_check : bool) : R unit :=
  modules ← current_modules;
  match modules with
  | Some modules =>
      for_each (fun m =>
        on_ctx (set_filename (encode (mo_filename m)));;
        for_each (fun n => match node n with STypeAlias _ => resolve_stmt n;; mret tt | _ => mret tt end) (mo_body m);;
        init_scope_with_stmts (mo_body m) unique_check) modules
  | None =>
      '(file, pkg) ← gets (fun r => (cx_filename (ctx r), cx_pkgpath (ctx r)));
      report (add_error CannotFindModule
        [mkMessage (mkPosition file 1 None) StyleLine ("pkgpath " +:+ pkg +:+ " not found in the program") None])
  end.

(** ** The global types *)

(** The name of a schema or rule is declared with an empty schema type. *)
Definition declare_symbol (n : Node Stmt) : R unit :=
  let declare name doc is_mixin is_protocol is_rule :=
    let name := encode name in
    known ← contains_object name;
    if (known : bool)
    then error_at UniqueKeyError (get_pos n) ("unique key error name '" +:+ name +:+ "'") None
    else
      d ← lift (parse_doc_string doc);
      '(pkg, file) ← gets (fun r => (cx_pkgpath (ctx r), cx_filename (ctx r)));
      let doc := encode (summary d) in
      insert_object name (mkScopeObject name (get_pos n) (get_end_pos n)
        (schema_of (mkSchemaType name pkg file doc false is_mixin is_protocol is_rule None None [] []
           (mkFunctionType doc [] None VOID false None) None [])) Definition_ false (Some doc)) in
  match node n with
  | SSchema x => declare (node (Ast.sc_name x)) (Ast.sc_doc x) (Ast.sc_is_mixin x) (Ast.sc_is_protocol x) false
  | SRule x => declare (node (Ast.ru_name x)) (Ast.ru_doc x) false false true
  | _ => mret tt
  end.

(** The type of a schema or rule is built and replaces the one before. *)
Definition build_symbol (should_add_schema_ref : bool) (n : Node Stmt) : R unit :=
  let insert s := insert_object (sch_name s)
    (mkScopeObject (sch_name s) (get_pos n) (get_end_pos n) (schema_of s) Definition_ false (Some (sch_doc s))) in
  match node n with
  | SSchema x =>
      parent ← build_schema_parent_type x;
      protocol ← build_schema_protocol_type x;
      s ← build_schema_type x parent protocol should_add_schema_ref;
      insert s
  | SRule x =>
      protocol ← build_rule_protocol_type x;
      s ← build_rule_type x protocol should_add_schema_ref;
      insert s
  | _ => mret tt
  end.

Definition in_module (f : Node Stmt -> R unit) (m : Module_) : R unit :=
  pkg ← gets (fun r => cx_pkgpath (ctx r));
  change_package_context pkg (encode (mo_filename m));;
  for_each f (mo_body m).

Definition init_global_types : R unit :=
  modules ← current_modules;
  match modules with
  | Some modules =>
      for_each (in_module declare_symbol) modules;;
      init_global_var_types true;;
      for_each (fun i => for_each (in_module (build_symbol (Nat.eqb i (MAX_SCOPE_SCAN_COUNT - 1)))) modules)
        (seq 0 MAX_SCOPE_SCAN_COUNT);;
      init_global_var_types false
  | None => mret tt
  end.

(** ** Imports *)

Definition module_kind_of (path : string) : ModuleKind :=
  if starts_with PLUGIN_MODULE_PREFIX path then Plugin
  else if bool_decide (path ∈ STANDARD_SYSTEM_MODULES) then System else User.

(** The object of an imported package: whether the package is one of the user. *)
Definition import_object (path : string) (n : Node Stmt) : R bool :=
  obj ← gets (fun r => im_get path (current_elems r));
  file ← gets (fun r => cx_filename (ctx r));
  match obj with
  | Some obj =>
      match kind (so_ty obj) with
      | KModule m =>
          insert_object path (with_ty obj (module_of (mod_pkgpath m) (imported m ++ [file]) (mod_kind m)));;
          mret (match mod_kind m with User => true | _ => false end)
      | _ => panic "already mutably borrowed: BorrowError"
      end
  | None =>
      let k := module_kind_of path in
      insert_object path (new_object path (get_pos n) (get_end_pos n) (module_of path [file] k) Scope.Module_);;
      mret (match k with User => true | _ => false end)
  end.

Section Imports.
Context (check : string -> R unit).

Definition init_import (n : Node Stmt) : R unit :=
  match node n with
  | SImport x =>
      let path := encode (Ast.im_path x) in
      on_ctx (fun c => set_import_names (insert_nested (cx_filename c) (encode (Ast.im_name x)) path (import_names c)) c);;
      is_user_module ← import_object path n;
      if negb is_user_module then mret tt
      else
        '(current_pkgpath, current_filename) ← gets (fun r => (cx_pkgpath (ctx r), cx_filename (ctx r)));
        on_ctx (fun c => set_ty_ctx (add_dependencies (ty_ctx c) (cx_pkgpath c) path) c);;
        cyclic ← gets (fun r => is_cyclic (ty_ctx (ctx r)));
        _ ← when (cyclic : bool)
          (compile_error ("There is a circular import reference between module " +:+ current_pkgpath +:+ " and " +:+ path) (get_pos n));
        known ← gets (fun r => im_contains path (scope_map r));
        _ ← when (negb known) (check path);
        change_package_context current_pkgpath current_filename
  | _ => mret tt
  end.

Definition init_import_list : R unit :=
  modules ← current_modules;
  match modules with
  | Some modules =>
      for_each (fun m =>
        on_ctx (fun c => set_pkgpath (encode (mo_pkg m)) (set_filename (encode (mo_filename m)) c));;
        for_each init_import (mo_body m)) modules
  | None => mret tt
  end.

Definition check_import (pkgpath : string) : R unit :=
  on_ctx (set_pkgpath pkgpath);;
  file ← gets (fun r => cx_filename (ctx r));
  change_package_context pkgpath file;;
  init_import_list.
End Imports.

(** ** The check of a package *)

(** The file of a module is one of its package's scope. *)
Definition add_package_file (file : string) : R unit :=
  modify (fun r => set_scopes (alter_scope (scopes r) (fun s =>
    match sc_kind s with
    | SkPackage files => with_kind s (SkPackage (if bool_decide (file ∈ files) then files else files ++ [file]))
    | _ => s
    end) (scope r)) r).

Definition check_modules (pkgpath : string) : R unit :=
  match im_get pkgpath (pkgs program) with
  | Some modules =>
      for_each (fun m =>
        on_ctx (set_filename (encode (mo_filename m)));;
        add_package_file (encode (mo_filename m));;
        for_each (fun n => resolve_stmt n;; mret tt) (mo_body m)) modules
  | None => mret tt
  end.

Fixpoint check (fuel : nat) (pkgpath : string) : R unit :=
  match fuel with
  | O => panic "stack overflow"
  | S fuel' =>
      check_import (check fuel') pkgpath;;
      init_global_types;;
      check_modules pkgpath
  end.

(** [resolve_import]: the errors of imports that cannot be found, before the check. *)
Definition import_error (is_file : string -> bool) (main_files : list string) (m : Module_) (n : Node Stmt) : R unit :=
  match node n with
  | SImport x =>
      let path := encode (Ast.im_path x) in
      if bool_decide (path ∈ STANDARD_SYSTEM_MODULES) || starts_with PLUGIN_MODULE_PREFIX path then mret tt
      else
        let real_path := path_join (root program) (dots_to_slashes path) in
        if negb (im_contains path (pkgs program)) then
          report (add_error CannotFindModule
            [mkMessage (mkPosition (encode (mo_filename m)) (Ast.line n) None) StyleLine
               ("Cannot find the module " +:+ encode (Ast.rawpath x) +:+ " from " +:+ real_path) None])
        else if is_file real_path && bool_decide (real_path ∈ main_files) then
          file ← gets (fun r => cx_filename (ctx r));
          report (add_error CompileError
            [mkMessage (mkPosition file (Ast.line n) None) StyleLine
               ("Cannot import " +:+ real_path +:+ " in the main package") None])
        else mret tt
  | _ => mret tt
  end.
Definition resolve_import (is_file : string -> bool) : R unit :=
  let main_files := get_main_files program in
  for_each (fun p => for_each (fun m => for_each (import_error is_file main_files m) (mo_body m)) p.2) (pkgs program).

(** What the check of a program returns. *)
Record ProgramScope := mkProgramScope {
  ps_scopes : arena; ps_scope_map : list (string * nat); ps_import_names : list (string * list (string * string));
  ps_handler : Handler }.
Definition program_scope (r : resolver) : ProgramScope :=
  mkProgramScope (scopes r) (scope_map r) (import_names (ctx r)) (handler r).
(** [resolve_program], after the preprocessing and without the lints. *)
Definition resolve_program (is_file : string -> bool) (fuel : nat) : outcome ProgramScope :=
  match (resolve_import is_file;; check fuel MAIN_PKG) new_resolver with
  | Ok (_, r) => Ok (program_scope r)
  | Panic e => Panic e
  end.
End Packages.
End Global.
