(* ===== verification/ResolverProgram.v ===== *)
(** * The check of a program ends

    A package is checked when it is first imported, and is in the table of scopes from then
    on, so that the depth of the imports is bounded by their number: with more fuel than that,
    the check of a program does not depend on the fuel.  The global methods leave the resolver
    ready, in a scope that is there, and grow what it knows. *)

From S2P Require Import Prelude MachineInt State Floats Chars Utf8 StrLiteral TypeData Unify Sup TypeContext.
From S2P Require Import Diagnostic Calculation AstPos Builtins Scope DocString Units TypeParser.
From S2P Require Ast.
Import Ast(Node, node, Expr, Stmt, Stmt_, Identifier, Module_, mo_filename, mo_pkg, mo_body, SImport).
From S2P Require Import Resolver ResolverWalk ResolverStmt ResolverGlobal ResolverFrame.
#[local] Notation R := (st resolver).
#[local] Notation "m1 ;; m2" := (m1 ≫= fun _ => m2) (at level 100, right associativity, only parsing).

(** A ready resolver whose scopes of packages are there. *)
Record good `{ResolverEnv} (r : resolver) : Prop := {
  good_ready : ready r;
  good_root : is_Some (scopes r !! 0%nat);
  good_map : forall p i, im_get p (scope_map r) = Some i -> is_Some (scopes r !! i) }.

(** What a global method keeps: the scope, file and package may change. *)
Record passed `{ResolverEnv} (r q : resolver) : Prop := {
  passed_level : scope_level q = scope_level r;
  passed_stacks : config_expr_context (ctx q) = config_expr_context (ctx r) /\ in_lambda_expr (ctx q) = in_lambda_expr (ctx r);
  passed_map : forall p i, im_get p (scope_map r) = Some i -> im_get p (scope_map q) = Some i;
  passed_scopes : grown (scopes r) (scopes q);
  passed_handler : handler r `prefix_of` handler q }.
#[export] Instance passed_preorder `{ResolverEnv} : PreOrder passed.
Proof.
  split; [by split|]. intros r q s [H1 [H2 H3] H4 H5 H6] [K1 [K2 K3] K4 K5 K6].
  split; [congruence|split; congruence|auto|by etrans|by etrans].
Qed.
Lemma in_place_passed `{ResolverEnv} r q : in_place r q -> passed r q.
Proof. intros [(_ & Hl & Hm) _ Hs Hg Hh]. split; try done. by intros p i; rewrite Hm. Qed.
Lemma in_place_good `{ResolverEnv} r q : good r -> in_place r q -> ready q -> good q.
Proof.
  intros [_ [s Hs] Hm] [(_ & _ & Em) _ _ Hg _] Hq. split; [done| |].
  - destruct (Hg _ _ Hs) as (s' & -> & _). by eexists.
  - intros p i. rewrite Em. intros Hp. destruct (Hm _ _ Hp) as [t Ht]. destruct (Hg _ _ Ht) as (t' & -> & _). by eexists.
Qed.

(** How the check of a program can panic, besides a walk: in a documentation string, for a
    name of a package that is not a module, and for a mixin without a name. *)
Inductive program_panics `{ResolverEnv} : string -> Prop :=
| program_walk e : panics e -> program_panics e
| program_doc s e : parse_doc_string s = Panic e -> program_panics e
| program_borrow : program_panics "already mutably borrowed: BorrowError".

(** Two computations that agree on the good states that a test accepts, and end in such states. *)
Definition agree `{ResolverEnv} {A} (P : resolver -> Prop) (m m' : R A) : Prop :=
  forall r, good r -> P r ->
    m r = m' r /\ match m r with Ok (_, q) => good q /\ passed r q | Panic e => program_panics e end.
(** A method that keeps good states good. *)
Definition global `{ResolverEnv} {A} (m : R A) : Prop :=
  forall r, good r -> match m r with Ok (_, q) => good q /\ passed r q | Panic e => program_panics e end.

Lemma global_agree `{ResolverEnv} {A} P (m : R A) : global m -> agree P m m.
Proof. intros Hm r Hr _. split; [done|by apply Hm]. Qed.

Section Rules.
Context `{ResolverEnv} {A B : Type}.

Lemma agree_bind P (m m' : R A) (f f' : A -> R B) :
  (forall r q, passed r q -> P r -> P q) -> agree P m m' -> (forall a, agree P (f a) (f' a)) -> agree P (m ≫= f) (m' ≫= f').
Proof.
  intros HP Hm Hf r Hr Hp. destruct (Hm r Hr Hp) as [E Hq]. unfold mbind, st_bind. rewrite <- E.
  destruct (m r) as [[a q]|e]; [|done]. destruct Hq as [Hq Hpass].
  destruct (Hf a q Hq ltac:(eauto)) as [E' Hq']. split; [done|]. destruct (f a q) as [[b s]|e]; [|done].
  destruct Hq'. split; [done|by etrans].
Qed.
Lemma global_bind (m : R A) (f : A -> R B) : global m -> (forall a, global (f a)) -> global (m ≫= f).
Proof.
  intros Hm Hf r Hr. refine (proj2 (agree_bind (fun _ => True) m m f f _ _ _ r Hr I)); [done|by apply global_agree|].
  intros a. exact (global_agree _ _ (Hf a)).
Qed.
Lemma balanced_global (m : R A) : balanced m -> global m.
Proof.
  intros Hm r Hr. pose proof (balanced_in_place m r Hm (good_ready _ Hr)) as Hq.
  destruct (m r) as [[a q]|e]; [|by constructor]. destruct Hq. split; [by eapply in_place_good|by apply in_place_passed].
Qed.
Lemma agree_gets P (g : resolver -> A) (f f' : A -> R B) :
  (forall r, agree P (f (g r)) (f' (g r))) -> agree P (gets g ≫= f) (gets g ≫= f').
Proof. intros Hf r Hr Hp. exact (Hf r r Hr Hp). Qed.
Lemma global_ret (a : A) : global (mret a).
Proof. apply balanced_global, steady_balanced, steady_ret. Qed.
Lemma global_gets (f : resolver -> A) : global (gets f).
Proof. apply balanced_global, steady_balanced, steady_gets. Qed.
Lemma global_panic e : program_panics e -> global (A := A) (panic e).
Proof. by intros He r _. Qed.
Lemma global_lift (o : outcome A) : (forall e, o = Panic e -> program_panics e) -> global (lift o).
Proof. intros Ho r Hr. unfold lift. destruct o; [done|auto]. Qed.
End Rules.

Section Lists.
Context `{ResolverEnv} {A B : Type}.
Lemma global_for_each (f : A -> R unit) l : (forall a, global (f a)) -> global (for_each f l).
Proof. intros Hf. induction l as [|a l IH]; [apply global_ret|]. cbn. apply global_bind; [apply Hf|]. intros _. exact IH. Qed.
Lemma global_map (f : A -> R B) l : (forall a, global (f a)) -> global (map_st f l).
Proof.
  intros Hf. induction l as [|a l IH]; [apply global_ret|]. cbn. apply global_bind; [apply Hf|]. intros b.
  apply global_bind; [exact IH|]. intros bs. apply global_ret.
Qed.
Lemma global_fold (f : B -> A -> R B) b l : (forall b a, global (f b a)) -> global (fold_st f b l).
Proof.
  intros Hf. revert b. induction l as [|a l IH]; intros b; [apply global_ret|]. cbn. apply global_bind; [apply Hf|]. intros b'. apply IH.
Qed.
Lemma agree_for_each P (f f' : A -> R unit) l :
  (forall r q, passed r q -> P r -> P q) -> (forall a, a ∈ l -> agree P (f a) (f' a)) -> agree P (for_each f l) (for_each f' l).
Proof.
  intros HP. induction l as [|a l IH]; intros Hf; [apply global_agree, global_ret|]. cbn.
  apply agree_bind; [done|apply Hf; set_solver|]. intros _. apply IH. set_solver.
Qed.
End Lists.
Lemma global_when `{ResolverEnv} b (m : R unit) : global m -> global (when b m).
Proof. destruct b; [done|]. intros _. apply global_ret. Qed.

Create HintDb global.
#[export] Hint Resolve global_ret global_gets global_panic global_when global_for_each global_map global_fold : global.
#[export] Hint Constructors program_panics : global.
#[export] Hint Extern 3 (global _) => apply balanced_global; solve [eauto with balanced] : global.
Ltac global_step :=
  lazymatch goal with
  | |- global (mbind _ _) => apply global_bind; [|intros ?]
  | |- global (let _ := _ in _) => cbv zeta
  | |- global (when _ _) => apply global_when
  | |- global (map_st _ _) => apply global_map; intros ?
  | |- global (for_each _ _) => apply global_for_each; intros ?
  | |- global (fold_st _ _ _) => apply global_fold; intros ? ?
  | |- global (if ?b then _ else _) => destruct b
  | |- global (match ?x with _ => _ end) => destruct x
  end.
Ltac global_go := repeat first [solve [eauto with global] | global_step].

(** ** Schemas and rules *)

Lemma global_resolve_stmt `{ResolverEnv} n : global (resolve_stmt n).
Proof. apply balanced_global, balanced_statement. Qed.
#[export] Hint Resolve global_resolve_stmt : global.

Lemma balanced_all_decorators `{ResolverEnv} l target key : balanced (resolve_decorators walk_expr l target key).
Proof.
  apply balanced_decorators. apply Ast.list_all_forall. intros n. apply Ast.Node_all_forall. intros x.
  apply Ast.CallExpr_all_forall, every_expr_walks.
Qed.
Lemma steady_inherited `{ResolverEnv} n t msg : steady (inherited n t msg).
Proof. unfold inherited, walk_identifier. steady_go. Qed.
#[export] Hint Resolve balanced_all_decorators : balanced.
#[export] Hint Resolve steady_inherited : steady.
Lemma balanced_build_args `{ResolverEnv} a names : balanced (build_args a names).
Proof.
  unfold build_args. destruct a as [[x]|]; [|balanced_go]. cbn [node]. generalize 0%nat. generalize (Ast.ar_args x).
  intros l. induction l as [|p l IH]; intros i; cbn [build_params]; balanced_go.
Qed.
Lemma steady_schema_ref `{ResolverEnv} what n p pos : steady (add_schema_ref what n p pos).
Proof. unfold add_schema_ref. steady_go. Qed.
Lemma balanced_index_signature `{ResolverEnv} x names pos : balanced (build_index_signature x names pos).
Proof. unfold build_index_signature. balanced_go. Qed.
Lemma balanced_declared_attr `{ResolverEnv} s pos : balanced (declared_attr s pos).
Proof. unfold declared_attr. balanced_go. Qed.
#[export] Hint Resolve balanced_build_args balanced_index_signature balanced_declared_attr : balanced.
#[export] Hint Resolve steady_schema_ref : steady.
Lemma balanced_add_attr `{ResolverEnv} parent ix d attrs n : balanced (add_attr parent ix d attrs n).
Proof. unfold add_attr. balanced_go. Qed.
Lemma steady_add_mixin `{ResolverEnv} acc m : steady (add_mixin acc m).
Proof. unfold add_mixin. steady_go. Qed.
Lemma steady_check_schema_name `{ResolverEnv} x p pos : steady (check_schema_name x p pos).
Proof. unfold check_schema_name. steady_go. Qed.
#[export] Hint Resolve balanced_add_attr : balanced.
#[export] Hint Resolve steady_add_mixin steady_check_schema_name : steady.
Lemma global_doc `{ResolverEnv} s : global (lift (parse_doc_string s)).
Proof. apply global_lift. intros e. apply program_doc. Qed.
#[export] Hint Resolve global_doc : global.

Lemma global_schema_type `{ResolverEnv} x parent protocol b : global (build_schema_type x parent protocol b).
Proof. unfold build_schema_type. global_go. Qed.
Lemma global_rule_type `{ResolverEnv} x protocol b : global (build_rule_type x protocol b).
Proof. unfold build_rule_type. global_go. Qed.
#[export] Hint Resolve global_schema_type global_rule_type : global.
Lemma global_build_symbol `{ResolverEnv} b n : global (build_symbol b n).
Proof. unfold build_symbol, build_schema_parent_type, build_schema_protocol_type, build_rule_protocol_type. global_go. Qed.
Lemma global_declare_symbol `{ResolverEnv} n : global (declare_symbol n).
Proof. unfold declare_symbol. global_go. Qed.
#[export] Hint Resolve global_build_symbol global_declare_symbol : global.

(** ** Variables *)

Lemma steady_declared_immutable `{ResolverEnv} name pos b : steady (declared_immutable name pos b).
Proof. unfold declared_immutable. steady_go. Qed.
Lemma balanced_variable_type `{ResolverEnv} x name pos : balanced (variable_type x name pos).
Proof. unfold variable_type. balanced_go. Qed.
#[export] Hint Resolve steady_declared_immutable : steady.
#[export] Hint Resolve balanced_variable_type : balanced.
Lemma global_init_assign `{ResolverEnv} x b : global (init_scope_with_assign_stmt x b).
Proof. unfold init_scope_with_assign_stmt. global_go. Qed.
Lemma steady_init_unification `{ResolverEnv} x b : steady (init_scope_with_unification_stmt x b).
Proof. unfold init_scope_with_unification_stmt, walk_identifier. steady_go. Qed.
#[export] Hint Resolve global_init_assign : global.
#[export] Hint Resolve steady_init_unification : steady.
Lemma global_for_each_all `{ResolverEnv} {A} (P : A -> Type) (f : A -> R unit) l :
  Ast.list_all A P l -> (forall a, P a -> global (f a)) -> global (for_each f l).
Proof.
  intros Hl Hf. induction Hl as [|a Ha l Hl IH]; [apply global_ret|]. cbn. apply global_bind; [by apply Hf|]. intros _. exact IH.
Qed.
Lemma global_init_stmt `{ResolverEnv} b (s : Stmt) : global (init_scope_with_stmt b s).
Proof.
  induction s as [| | | | | |x Hi| | |x Hi|] using Ast.Stmt__ind; cbn [init_scope_with_stmt]; try solve [global_go].
  destruct Hi as [body Hb c o Ho]. cbn [Ast.is_body Ast.is_orelse].
  apply global_bind; [|intros _]; (eapply global_for_each_all; [eassumption|]; intros ? []; done).
Qed.
Lemma global_init_stmts `{ResolverEnv} l b : global (init_scope_with_stmts l b).
Proof. unfold init_scope_with_stmts. apply global_for_each. intros n. apply global_init_stmt. Qed.
#[export] Hint Resolve global_init_stmts : global.

(** ** Files and packages *)

Lemma global_on_ctx `{ResolverEnv} f :
  (forall c, l_value (f c) = l_value c /\ config_expr_context (f c) = config_expr_context c /\
             in_lambda_expr (f c) = in_lambda_expr c) -> global (on_ctx f).
Proof.
  intros Hf r [[] Hs Hm]. destruct (Hf (ctx r)) as (E1 & E2 & E3). unfold on_ctx, modify.
  split; [split; [split|..]|split]; simpl; rewrite ?E1, ?E2, ?E3; done.
Qed.
#[export] Hint Extern 2 (global (on_ctx _)) => apply global_on_ctx; intros ?; done : global.

(** Entering the scope of a package that is there. *)
Lemma good_set_scope `{ResolverEnv} r i : good r -> is_Some (scopes r !! i) -> good (set_scope i r) /\ passed r (set_scope i r).
Proof. intros [[] Hs Hm] Hi. split; [split; [split|..]|split]; done. Qed.
(** A new package hangs below the root. *)
Definition new_package `{ResolverEnv} (p : string) (r : resolver) : resolver :=
  set_scope (length (scopes r)) (set_scope_map (im_insert p (length (scopes r)) (scope_map r))
    (set_scopes (scopes r ++ [package_scope]) r)).
Lemma good_new_package `{ResolverEnv} p r :
  good r -> im_contains p (scope_map r) = false -> good (new_package p r) /\ passed r (new_package p r).
Proof.
  intros [[Ha Hsc Hl Hv] [s0 Hs] Hm] Hp.
  assert (Hlast : (scopes r ++ [package_scope]) !! length (scopes r) = Some package_scope).
  { rewrite lookup_app_r by done. by rewrite Nat.sub_diag. }
  assert (Hold : forall i, is_Some (scopes r !! i) -> (scopes r ++ [package_scope]) !! i = scopes r !! i).
  { intros i [t Ht]. apply lookup_app_l. by eapply lookup_lt_Some. }
  unfold new_package. split; [split; [split|..]|split]; simpl; try done.
  - intros i s. destruct (decide (i < length (scopes r))%nat) as [Hlt|Hge].
    + rewrite lookup_app_l by done. intros Hi. destruct (Ha _ _ Hi) as [H1 H2]. split.
      * intros q Hq. destruct (H1 q Hq) as [? Hps]. split; [done|]. rewrite Hold; done.
      * intros c Hc. destruct (H2 c Hc) as [? (cs & Hcs & ?)]. split; [done|]. exists cs. rewrite Hold; [done|by eexists].
    + intros Hi. assert (i = length (scopes r)) as ->.
      { apply lookup_lt_Some in Hi. rewrite length_app in Hi. simpl in Hi. lia. }
      rewrite Hlast in Hi. injection Hi as <-. split; [|set_solver]. intros q [= <-].
      split; [by apply lookup_lt_Some in Hs|]. exists s0. by rewrite Hold.
  - rewrite Hold; by eexists.
  - intros q i. destruct (decide (q = p)) as [->|Hne].
    + rewrite im_get_insert_eq. intros [= <-]. rewrite Hlast. by eexists.
    + rewrite im_get_insert_ne by done. intros Hq. specialize (Hm _ _ Hq). by rewrite Hold.
  - intros q i Hq. rewrite im_get_insert_ne; [done|]. intros ->. unfold im_contains in Hp. by rewrite Hq in Hp.
  - intros i s Hi. exists s. rewrite Hold; [done|by eexists].
Qed.

(** The package is known afterwards. *)
Lemma change_package_spec `{ResolverEnv} p file r : good r ->
  exists q, change_package_context p file r = Ok (tt, q) /\ good q /\ passed r q /\
            (p <> "" -> im_contains p (scope_map q) = true).
Proof.
  intros Hr. unfold change_package_context. destruct (string_eqb p "") eqn:Ep.
  { exists r. split_and!; [done..|]. intros Hne. by apply bool_decide_eq_true in Ep. }
  set (r1 := if im_contains p (scope_map r) then r else new_package p r).
  assert (H1 : good r1 /\ passed r r1 /\ exists i, im_get p (scope_map r1) = Some i).
  { unfold r1. destruct (im_contains p (scope_map r)) eqn:E.
    - split; [done|]. split; [done|]. by apply im_contains_get.
    - destruct (good_new_package p r Hr E). split_and!; [done..|]. eexists. apply im_get_insert_eq. }
  destruct H1 as (Hg1 & Hp1 & i & Hi).
  set (r2 := set_ctx (set_filename file (set_pkgpath p (ctx r1))) r1).
  assert (H2 : good r2 /\ passed r1 r2).
  { destruct Hg1 as [[] Hs Hm]. split; [split; [split|..]|split]; done. }
  destruct H2 as [Hg2 Hp2]. destruct (good_set_scope r2 i Hg2 (good_map _ Hg2 _ _ Hi)) as [Hg3 Hp3].
  exists (set_scope i r2). split; [|split; [done|split; [etrans; [exact Hp1|by etrans]|]]].
  - unfold mbind, st_bind, gets, when, on_ctx, modify. unfold r2, r1 in *. cbn.
    destruct (im_contains p (scope_map r)); cbn in *; by rewrite Hi.
  - intros _. apply im_contains_get. by exists i.
Qed.
Lemma global_change_package `{ResolverEnv} p file : global (change_package_context p file).
Proof. intros r Hr. destruct (change_package_spec p file r Hr) as (q & -> & ? & ? & _). done. Qed.
#[export] Hint Resolve global_change_package : global.

(** ** Global types and the check of a package *)

Section Program.
Context `{ResolverEnv} (program : Program_).

Lemma global_in_module f m : (forall n, global (f n)) -> global (in_module f m).
Proof. intros Hf. unfold in_module. global_go. Qed.
Lemma global_var_types b : global (init_global_var_types program b).
Proof.
  unfold init_global_var_types, current_modules. apply global_bind; [global_go|]. intros [modules|]; [|global_go].
  apply global_for_each. intros m. apply global_bind; [global_go|]. intros _. apply global_bind; [|intros _; global_go].
  apply global_for_each. intros n. global_go.
Qed.
Lemma global_types : global (init_global_types program).
Proof.
  unfold init_global_types, current_modules. apply global_bind; [global_go|]. intros [modules|]; [|global_go].
  apply global_bind; [apply global_for_each; intros m; apply global_in_module; global_go|]. intros _.
  apply global_bind; [apply global_var_types|]. intros _. apply global_bind; [|intros _; apply global_var_types].
  apply global_for_each. intros i. apply global_for_each. intros m. apply global_in_module. global_go.
Qed.

Lemma global_add_file file : global (add_package_file file).
Proof.
  intros r [[Ha [s Hs] Hl Hv] [s0 Hs0] Hm]. unfold add_package_file, modify, alter_scope.
  set (f := fun s => match sc_kind s with SkPackage files => _ | _ => s end).
  assert (Hf : forall s, keeps s (f s)).
  { intros t. unfold f. destruct (sc_kind t) eqn:E; try done. split; try done. rewrite E. cbn. case_bool_decide; set_solver. }
  assert (Hg : grown (scopes r) (alter f (scope r) (scopes r))) by (by apply grown_alter).
  assert (Hex : forall i, is_Some (scopes r !! i) -> is_Some (alter f (scope r) (scopes r) !! i)).
  { intros i [t Ht]. destruct (Hg _ _ Ht) as (t' & -> & _). by eexists. }
  split; [split; [split|..]|split]; simpl; try done.
  - apply arena_ok_alter; [|done]. intros t. unfold f. by destruct (sc_kind t).
  - apply Hex. by eexists.
  - apply Hex. by eexists.
  - intros p i Hp. apply Hex. by eapply Hm.
Qed.
#[local] Hint Resolve global_add_file global_types : global.
Lemma global_check_modules p : global (check_modules program p).
Proof. unfold check_modules. global_go. Qed.
#[local] Hint Resolve global_check_modules : global.
Lemma global_import_object p n : global (import_object p n).
Proof. unfold import_object. global_go. Qed.
#[local] Hint Resolve global_import_object : global.

(** ** Imports end *)

(** The paths that the program imports, once for each import. *)
Definition import_path (n : Node Stmt) : list string :=
  match node n with SImport x => [encode (Ast.im_path x)] | _ => [] end.
Definition imports : list string :=
  concat (map (fun p => concat (map (fun m => concat (map import_path (mo_body m))) p.2)) (pkgs program)).

(** The imports that are still to be checked, and those other than one. *)
Definition unchecked (r : resolver) : nat := length (List.filter (fun p => negb (im_contains p (scope_map r))) imports).
Definition unchecked_but (p : string) (r : resolver) : nat :=
  length (List.filter (fun q => negb (im_contains q (scope_map r)) && negb (bool_decide (q = p))) imports).

Lemma filter_length_mono {A} (f g : A -> bool) l :
  (forall a, f a = true -> g a = true) -> (length (List.filter f l) <= length (List.filter g l))%nat.
Proof.
  intros Hfg. induction l as [|a l IH]; [done|]. cbn. specialize (Hfg a). destruct (f a); [rewrite Hfg by done; cbn; lia|].
  destruct (g a); cbn; lia.
Qed.
Lemma filter_length_lt {A} (f g : A -> bool) l a :
  (forall a, f a = true -> g a = true) -> a ∈ l -> f a = false -> g a = true ->
  (length (List.filter f l) < length (List.filter g l))%nat.
Proof.
  intros Hfg Hin Hf Hg. induction Hin as [a l|a b l Hin IH].
  - cbn. rewrite Hf, Hg. cbn. pose proof (filter_length_mono f g l Hfg). lia.
  - cbn. specialize (IH Hf Hg). pose proof (Hfg b). destruct (f b); [rewrite H0 by done; cbn; lia|]. destruct (g b); cbn; lia.
Qed.

Lemma passed_contains r q p : passed r q -> im_contains p (scope_map r) = true -> im_contains p (scope_map q) = true.
Proof. rewrite !im_contains_get. intros Hp [i Hi]. exists i. by apply Hp. Qed.
Lemma passed_unchecked r q : passed r q -> (unchecked q <= unchecked r)%nat.
Proof.
  intros Hp. apply filter_length_mono. intros p. rewrite !negb_true_iff. intros Hq.
  destruct (im_contains p (scope_map r)) eqn:E; [|done]. by rewrite (passed_contains _ _ _ Hp E) in Hq.
Qed.
(** Once a package is known, its import is checked. *)
Lemma known_unchecked r q p : passed r q -> im_contains p (scope_map q) = true -> (unchecked q <= unchecked_but p r)%nat.
Proof.
  intros Hp Hk. apply filter_length_mono. intros s. rewrite andb_true_iff, !negb_true_iff. intros Hs.
  split; [|apply bool_decide_eq_false_2; intros ->; congruence]. destruct (im_contains s (scope_map r)) eqn:E; [|done].
  by rewrite (passed_contains _ _ _ Hp E) in Hs.
Qed.
Lemma unchecked_import r p : p ∈ imports -> im_contains p (scope_map r) = false -> (unchecked_but p r < unchecked r)%nat.
Proof.
  intros Hin Hp. apply (filter_length_lt _ _ _ p); [|done| |].
  - intros q. rewrite andb_true_iff. tauto.
  - by rewrite bool_decide_eq_true_2, andb_false_r.
  - by rewrite Hp.
Qed.

(** Two checks of imports that agree where there is fuel for what is left. *)
Definition agree_checks (fuel : nat) (c c' : string -> R unit) : Prop :=
  forall p, agree (fun r => (unchecked_but p r < fuel)%nat) (c p) (c' p).
#[local] Notation left_ fuel := (fun r => (unchecked r <= fuel)%nat).
Lemma left_passed fuel r q : passed r q -> left_ fuel r -> left_ fuel q.
Proof. intros Hp%passed_unchecked Hr. cbn in *. lia. Qed.

Lemma agree_unknown fuel c c' path :
  agree_checks fuel c c' -> path ∈ imports ->
  agree (left_ fuel) (known ← gets (fun r => im_contains path (scope_map r)); when (negb known) (c path))
                     (known ← gets (fun r => im_contains path (scope_map r)); when (negb known) (c' path)).
Proof.
  intros Hc Hin r Hr Hl. unfold mbind, st_bind, gets. destruct (im_contains path (scope_map r)) eqn:E; [done|].
  apply Hc; [done|]. pose proof (unchecked_import r path Hin E). cbn in Hl. lia.
Qed.
Lemma agree_import fuel c c' n :
  agree_checks fuel c c' -> (forall p, p ∈ import_path n -> p ∈ imports) -> agree (left_ fuel) (init_import c n) (init_import c' n).
Proof.
  intros Hc Hin. unfold init_import, import_path in *. destruct (node n); try solve [apply global_agree, global_ret].
  cbv zeta. pose proof (left_passed fuel) as HP.
  apply agree_bind; [done|apply global_agree; global_go|intros _].
  apply agree_bind; [done|apply global_agree; global_go|intros user].
  destruct (negb user); [apply global_agree, global_ret|].
  apply agree_bind; [done|apply global_agree; global_go|intros [pkg file]].
  do 3 (apply agree_bind; [done|apply global_agree; global_go|intros ?]).
  refine (agree_bind _ _ _ (fun _ => change_package_context pkg file) (fun _ => change_package_context pkg file) HP
    (agree_unknown fuel c c' _ Hc (Hin _ (list_elem_of_here _ _))) _).
  intros _. apply global_agree, global_change_package.
Qed.
Lemma imports_of pkg modules m n p :
  im_get pkg (pkgs program) = Some modules -> m ∈ modules -> n ∈ mo_body m -> p ∈ import_path n -> p ∈ imports.
Proof.
  intros Hg%im_get_In Hm Hn Hp. unfold imports. rewrite !list_elem_of_In in *.
  apply in_concat. eexists. split; [apply in_map; exact Hg|]. cbn.
  apply in_concat. eexists. split; [apply in_map; exact Hm|].
  apply in_concat. eexists. split; [apply in_map; exact Hn|]. done.
Qed.
Lemma agree_import_list fuel c c' :
  agree_checks fuel c c' -> agree (left_ fuel) (init_import_list program c) (init_import_list program c').
Proof.
  intros Hc. unfold init_import_list, current_modules. apply agree_gets. intros r.
  destruct (im_get _ _) as [modules|] eqn:Hg; [|apply global_agree, global_ret].
  apply agree_for_each; [apply left_passed|]. intros m Hm.
  apply agree_bind; [apply left_passed|apply global_agree; global_go|intros _].
  apply agree_for_each; [apply left_passed|]. intros n Hn. apply agree_import; [done|].
  intros p. by eapply imports_of.
Qed.

(** A step at a state, and the global rest. *)
Lemma agree_then {A B} (m m' : R A) (f : A -> R B) r :
  m r = m' r -> match m r with Ok (_, q) => good q /\ passed r q | Panic e => program_panics e end ->
  (forall a, global (f a)) ->
  (m ≫= f) r = (m' ≫= f) r /\
  match (m ≫= f) r with Ok (_, q) => good q /\ passed r q | Panic e => program_panics e end.
Proof.
  intros E Hm Hf. unfold mbind, st_bind. rewrite <- E. split; [done|]. destruct (m r) as [[a q]|e]; [|done].
  destruct Hm as [Hq Hp]. specialize (Hf a q Hq). destruct (f a q) as [[b s]|e]; [|done]. destruct Hf. split; [done|by etrans].
Qed.

Lemma check_import_agree fuel c c' p r :
  im_get "" (pkgs program) = None -> agree_checks fuel c c' -> good r -> (unchecked_but p r <= fuel)%nat ->
  check_import program c p r = check_import program c' p r /\
  match check_import program c p r with
  | Ok (_, q) => (good q /\ passed r q) /\ (p <> "" -> im_contains p (scope_map q) = true)
  | Panic e => program_panics e
  end.
Proof.
  intros Hempty Hc Hr Hl. set (r1 := set_ctx (set_pkgpath p (ctx r)) r).
  assert (H1 : good r1 /\ passed r r1).
  { destruct Hr as [[] Hs Hm]. split; [split; [split|..]|split]; done. }
  destruct H1 as [Hg1 Hp1]. destruct (change_package_spec p (cx_filename (ctx r1)) r1 Hg1) as (q & Eq & Hq & Hp2 & Hk).
  assert (Hrun : forall d, check_import program d p r = init_import_list program d q).
  { intros d. unfold check_import, mbind, st_bind, on_ctx, modify, gets. fold r1. by rewrite Eq. }
  rewrite !Hrun. assert (Hpq : passed r q) by by etrans. destruct (string_eqb p "") eqn:Ep.
  - (* no package has the empty path *)
    apply bool_decide_eq_true in Ep as ->. injection Eq as <-.
    unfold init_import_list, current_modules, mbind, st_bind, gets. cbn. by rewrite Hempty.
  - apply bool_decide_eq_false in Ep. pose proof (known_unchecked r q p Hpq (Hk Ep)) as Hu.
    destruct (agree_import_list fuel c c' Hc q Hq ltac:(cbn; lia)) as [E Hpost]. split; [done|].
    destruct (init_import_list program c q) as [[[] s]|e]; [|done]. destruct Hpost as [Hs Hps].
    split; [split; [done|by etrans]|]. intros _. exact (passed_contains _ _ _ Hps (Hk Ep)).
Qed.

(** The check of a package, with fuel for its imports: more fuel changes nothing. *)
Lemma check_agree fuel fuel' p :
  im_get "" (pkgs program) = None -> (fuel <= fuel')%nat ->
  agree (fun r => (unchecked_but p r < fuel)%nat) (check program fuel p) (check program fuel' p).
Proof.
  intros Hempty. revert fuel' p. induction fuel as [|fuel IH]; intros fuel' p Hle; [intros r _ Hr; lia|].
  destruct fuel' as [|fuel']; [lia|]. intros r Hr Hl. cbn [check].
  destruct (check_import_agree fuel (check program fuel) (check program fuel') p r) as [E Hpost];
    [done|intros q; apply IH; lia|done|lia|].
  apply agree_then; [done| |].
  - by destruct (check_import _ _ p r) as [[[] q]|e]; [destruct Hpost|].
  - intros _. global_go.
Qed.
Lemma check_known fuel p r :
  im_get "" (pkgs program) = None -> good r -> (unchecked_but p r < fuel)%nat -> p <> "" ->
  match check program fuel p r with Ok (_, q) => im_contains p (scope_map q) = true | Panic _ => True end.
Proof.
  intros Hempty Hr Hl Hp. destruct fuel as [|fuel]; [lia|]. cbn [check]. unfold mbind at 1, st_bind at 1.
  destruct (check_import_agree fuel (check program fuel) (check program fuel) p r) as [_ Hpost];
    [done|intros q; by apply check_agree|done|lia|].
  destruct (check_import _ _ p r) as [[[] q]|e]; [|done]. destruct Hpost as [[Hq _] Hk].
  assert (Hrest : global (init_global_types program;; check_modules program p)) by global_go.
  specialize (Hrest q Hq). destruct ((init_global_types program;; check_modules program p) q) as [[[] s]|e]; [|done].
  destruct Hrest as [_ Hps]. exact (passed_contains _ _ _ Hps (Hk Hp)).
Qed.

Lemma global_import_error is_file files m n : global (import_error program is_file files m n).
Proof. unfold import_error. global_go. Qed.
Lemma global_resolve_import is_file : global (resolve_import program is_file).
Proof.
  unfold resolve_import. do 3 (apply global_for_each; intros ?). apply global_import_error.
Qed.
Lemma new_good : good new_resolver.
Proof.
  split; [|by eexists|done]. split; simpl; try done. intros [|i] s; [|by destruct i]. intros [= <-]. split; [done|]. set_solver.
Qed.

(** C3: with fuel for as many packages as there are imports a program is checked to its end:
    more fuel gives the same result, which has a scope for the main package and for each
    entry of its table, or is a panic of a walk, of a documentation string or of a name that
    is imported and is not a module. *)
Theorem program_check_ends is_file fuel :
  im_get "" (pkgs program) = None -> (length imports < fuel)%nat ->
  (forall fuel', (fuel <= fuel')%nat -> resolve_program program is_file fuel' = resolve_program program is_file fuel) /\
  match resolve_program program is_file fuel with
  | Ok ps => arena_ok (ps_scopes ps) /\ im_contains MAIN_PKG (ps_scope_map ps) = true /\
             forall p i, im_get p (ps_scope_map ps) = Some i -> is_Some (ps_scopes ps !! i)
  | Panic e => program_panics e
  end.
Proof.
  intros Hempty Hf. pose proof (global_resolve_import is_file new_resolver new_good) as Hi.
  unfold resolve_program, mbind, st_bind.
  destruct (resolve_import program is_file new_resolver) as [[[] r]|e]; [|done]. destruct Hi as [Hr _].
  assert (Hl : (unchecked_but MAIN_PKG r < fuel)%nat).
  { eapply Nat.le_lt_trans; [apply filter_length_le|done]. }
  split.
  - intros fuel' Hle. by destruct (check_agree fuel fuel' MAIN_PKG Hempty Hle r Hr Hl) as [<- _].
  - destruct (check_agree fuel fuel MAIN_PKG Hempty (le_n _) r Hr Hl) as [_ Hpost].
    pose proof (check_known fuel MAIN_PKG r Hempty Hr Hl ltac:(done)) as Hk.
    destruct (check program fuel MAIN_PKG r) as [[[] q]|e]; [|done]. destruct Hpost as [[[] _ Hm] _]. done.
Qed.
End Program.

(** Two packages that import each other. *)
Import Instances.
Definition import_of (s : string) : Node Stmt :=
  at_ (Ast.SImport (Ast.mkImportStmt (txt s) (txt s) (txt s) None (txt s))).
Definition module_of_package (pkg : string) (body : list (Node Stmt)) : Module_ :=
  Ast.mkModule (txt (pkg +:+ ".k")) (txt pkg) [] [] body [].
Definition circular : Program_ := mkProgram "/r" [
  (MAIN_PKG, [module_of_package MAIN_PKG [import_of "a"; assign "x" (number 1)]]);
  ("a", [module_of_package "a" [import_of "b"]]); ("b", [module_of_package "b" [import_of "a"]])].

Lemma program_check_ends_witness :
  im_get "" (pkgs circular) = None /\ (length (imports circular) < 4)%nat /\
  (forall fuel', (4 <= fuel')%nat -> resolve_program circular (fun _ => false) fuel' = resolve_program circular (fun _ => false) 4) /\
  match resolve_program circular (fun _ => false) 4 with
  | Ok ps => arena_ok (ps_scopes ps) /\ im_contains MAIN_PKG (ps_scope_map ps) = true /\
             forall p i, im_get p (ps_scope_map ps) = Some i -> is_Some (ps_scopes ps !! i)
  | Panic e => program_panics e
  end.
Proof.
  assert (H0 : im_get "" (pkgs circular) = None) by reflexivity.
  assert (H1 : (length (imports circular) < 4)%nat) by (vm_compute; lia).
  exact (conj H0 (conj H1 (program_check_ends circular (fun _ => false) 4 H0 H1))).
Defined.

(** The cycle is reported once, and each package has its scope. *)
Example circular_checked :
  match resolve_program circular (fun _ => false) 4 with
  | Ok ps => map fst (ps_scope_map ps) = [MAIN_PKG; "a"; "b"] /\ length (ps_handler ps) = 1%nat
  | Panic _ => False
  end.
Proof. by vm_compute. Qed.
