(* ===== verification/Walker.v ===== *)
(** * The mutating walker of the syntax tree ([kclvm/ast/src/walker.rs])

    [MutSelfMutWalker]: a method per construct, each with a default that walks the parts of
    its node through the walker itself, so that a transformer overrides some of them and
    inherits the rest.  A walker gives every method, over the state of the transformer; a method
    takes the node and returns the node as it leaves it.  Dynamic dispatch is open
    recursion: the methods of a transformer call those of the same transformer with one unit
    of fuel less, and [height] of the tree is enough of it. *)

From S2P Require Import Prelude MachineInt State Floats Chars.
From S2P Require Import Ast.

#[export] Instance st_fmap {S} : FMap (st S) := fun A B f m => a ← m; mret (f a).

Definition out_of_fuel : string := "out of fuel".

(** The methods of the trait, each with the node it takes; and an implementation over the
    state [S]: what each method does to the node and the state. *)
Inductive method : Type -> Type :=
| walk_expr_stmt : method (ExprStmt Expr)
| walk_type_alias_stmt : method TypeAliasStmt
| walk_unification_stmt : method (UnificationStmt Expr)
| walk_assign_stmt : method (AssignStmt Expr)
| walk_aug_assign_stmt : method (AugAssignStmt Expr)
| walk_assert_stmt : method (AssertStmt Expr)
| walk_if_stmt : method (IfStmt Expr Stmt)
| walk_import_stmt : method ImportStmt
| walk_schema_attr : method (SchemaAttr Expr)
| walk_schema_stmt : method (SchemaStmt Expr Stmt)
| walk_rule_stmt : method (RuleStmt Expr)
| walk_quant_expr : method (QuantExpr Expr)
| walk_if_expr : method (IfExpr Expr)
| walk_unary_expr : method (UnaryExpr Expr)
| walk_binary_expr : method (BinaryExpr Expr)
| walk_selector_expr : method (SelectorExpr Expr)
| walk_call_expr : method (CallExpr Expr)
| walk_subscript : method (Subscript Expr)
| walk_paren_expr : method (ParenExpr Expr)
| walk_list_expr : method (ListExpr Expr)
| walk_list_comp : method (ListComp Expr)
| walk_list_if_item_expr : method (ListIfItemExpr Expr)
| walk_starred_expr : method (StarredExpr Expr)
| walk_dict_comp : method (DictComp Expr)
| walk_config_if_entry_expr : method (ConfigIfEntryExpr Expr)
| walk_comp_clause : method (CompClause Expr)
| walk_schema_expr : method (SchemaExpr Expr)
| walk_config_expr : method (ConfigExpr Expr)
| walk_check_expr : method (CheckExpr Expr)
| walk_lambda_expr : method (LambdaExpr Expr Stmt)
| walk_keyword : method (Keyword Expr)
| walk_arguments : method (Arguments_ Expr)
| walk_compare : method (Compare Expr)
| walk_identifier : method Identifier
| walk_number_lit : method NumberLit
| walk_string_lit : method StringLit
| walk_name_constant_lit : method NameConstantLit
| walk_joined_string : method (JoinedString Expr)
| walk_formatted_value : method (FormattedValue Expr)
| walk_module : method Module_
| walk_stmt : method Stmt
| walk_expr : method Expr.
Definition MutSelfMutWalker (S : Type) : Type := forall A, method A -> A -> st S A.

(** ** The macros *)

Section Macros.
Context {S A : Type}.
Implicit Types (f : A -> st S A).

(** [self.walk_x(&mut n.node)]: the node is rewritten in place. *)
Definition walk_node f (n : Node A) : st S (Node A) :=
  x ← f (node n); mret (with_node x n).
Fixpoint walk_list_mut f (l : list (Node A)) : st S (list (Node A)) :=
  match l with
  | [] => mret []
  | n :: l => n ← walk_node f n; l ← walk_list_mut f l; mret (n :: l)
  end.
Definition walk_if_mut f (o : option (Node A)) : st S (option (Node A)) :=
  match o with Some n => n ← walk_node f n; mret (Some n) | None => mret None end.
(** [for d in l.iter_mut() { if let Some(d) = d.as_deref_mut() { .. } }]. *)
Fixpoint walk_list_if_mut f (l : list (option (Node A))) : st S (list (option (Node A))) :=
  match l with
  | [] => mret []
  | o :: l => o ← walk_if_mut f o; l ← walk_list_if_mut f l; mret (o :: l)
  end.
End Macros.

(** The entry of a configuration: its key, then its value. *)
Definition walk_config_entry {S} (f : Expr -> st S Expr) (x : ConfigEntry Expr) : st S (ConfigEntry Expr) :=
  k ← walk_if_mut f (ce_key x);
  v ← walk_node f (ce_value x);
  mret (mkConfigEntry k v (operation x) (insert_index x)).

(** ** The default methods *)

Section Defaults.
Context {S : Type} (self : MutSelfMutWalker S).
Notation expr := (self _ walk_expr).
Notation identifier := (self _ walk_identifier).

Definition default_walk_expr_stmt (x : ExprStmt Expr) : st S (ExprStmt Expr) :=
  l ← walk_list_mut expr (exprs x); mret (mkExprStmt l).
Definition default_walk_type_alias_stmt (x : TypeAliasStmt) : st S TypeAliasStmt :=
  n ← walk_node identifier (ta_type_name x); mret (mkTypeAliasStmt n (ta_type_value x) (ta_ty x)).
Definition default_walk_unification_stmt (x : UnificationStmt Expr) : st S (UnificationStmt Expr) :=
  t ← walk_node identifier (uni_target x);
  v ← walk_node (self _ walk_schema_expr) (uni_value x);
  mret (mkUnificationStmt t v).
Definition default_walk_assign_stmt (x : AssignStmt Expr) : st S (AssignStmt Expr) :=
  l ← walk_list_mut identifier (targets x);
  v ← walk_node expr (as_value x);
  mret (mkAssignStmt l v (as_type_annotation x) (as_ty x)).
Definition default_walk_aug_assign_stmt (x : AugAssignStmt Expr) : st S (AugAssignStmt Expr) :=
  t ← walk_node identifier (aug_target x);
  v ← walk_node expr (aug_value x);
  mret (mkAugAssignStmt t v (aug_op x)).
Definition default_walk_assert_stmt (x : AssertStmt Expr) : st S (AssertStmt Expr) :=
  t ← walk_node expr (at_test x);
  c ← walk_if_mut expr (at_if_cond x);
  m ← walk_if_mut expr (at_msg x);
  mret (mkAssertStmt t c m).
Definition default_walk_if_stmt (x : IfStmt Expr Stmt) : st S (IfStmt Expr Stmt) :=
  c ← walk_node expr (is_cond x);
  b ← walk_list_mut (self _ walk_stmt) (is_body x);
  o ← walk_list_mut (self _ walk_stmt) (is_orelse x);
  mret (mkIfStmt b c o).
Definition default_walk_import_stmt (x : ImportStmt) : st S ImportStmt := mret x.
Definition default_walk_schema_attr (x : SchemaAttr Expr) : st S (SchemaAttr Expr) :=
  d ← walk_list_mut (self _ walk_call_expr) (sa_decorators x);
  v ← walk_if_mut expr (sa_value x);
  mret (mkSchemaAttr (sa_doc x) (sa_name x) (sa_type_str x) (sa_op x) v (sa_is_optional x) d (sa_ty x)).
(** Of an index signature, the value. *)
Definition walk_signature_value (x : SchemaIndexSignature Expr) : st S (SchemaIndexSignature Expr) :=
  v ← walk_if_mut expr (si_value x);
  mret (mkSchemaIndexSignature (si_key_name x) (si_key_type x) (si_value_type x) v (si_any_other x) (si_value_ty x)).
Definition default_walk_schema_stmt (x : SchemaStmt Expr Stmt) : st S (SchemaStmt Expr Stmt) :=
  p ← walk_if_mut identifier (parent_name x);
  h ← walk_if_mut identifier (for_host_name x);
  a ← walk_if_mut (self _ walk_arguments) (sc_args x);
  i ← walk_if_mut walk_signature_value (sc_index_signature x);
  m ← walk_list_mut identifier (sc_mixins x);
  d ← walk_list_mut (self _ walk_call_expr) (sc_decorators x);
  c ← walk_list_mut (self _ walk_check_expr) (sc_checks x);
  b ← walk_list_mut (self _ walk_stmt) (sc_body x);
  mret (mkSchemaStmt (sc_doc x) (sc_name x) p h (sc_is_mixin x) (sc_is_protocol x) a m b d c i).
Definition default_walk_rule_stmt (x : RuleStmt Expr) : st S (RuleStmt Expr) :=
  p ← walk_list_mut identifier (parent_rules x);
  d ← walk_list_mut (self _ walk_call_expr) (ru_decorators x);
  c ← walk_list_mut (self _ walk_check_expr) (ru_checks x);
  a ← walk_if_mut (self _ walk_arguments) (ru_args x);
  h ← walk_if_mut identifier (ru_for_host_name x);
  mret (mkRuleStmt (ru_doc x) (ru_name x) p d c a h).
Definition default_walk_quant_expr (x : QuantExpr Expr) : st S (QuantExpr Expr) :=
  t ← walk_node expr (target x);
  v ← walk_list_mut identifier (variables x);
  b ← walk_node expr (quant_test x);
  c ← walk_if_mut expr (quant_if_cond x);
  mret (mkQuantExpr t v (quant_op x) b c (quant_ctx x)).
Definition default_walk_if_expr (x : IfExpr Expr) : st S (IfExpr Expr) :=
  c ← walk_node expr (ie_cond x);
  b ← walk_node expr (ie_body x);
  o ← walk_node expr (ie_orelse x);
  mret (mkIfExpr b c o).
Definition default_walk_unary_expr (x : UnaryExpr Expr) : st S (UnaryExpr Expr) :=
  o ← walk_node expr (operand x); mret (mkUnaryExpr (un_op x) o).
Definition default_walk_binary_expr (x : BinaryExpr Expr) : st S (BinaryExpr Expr) :=
  l ← walk_node expr (left x);
  r ← walk_node expr (right x);
  mret (mkBinaryExpr l (bin_op x) r).
Definition default_walk_selector_expr (x : SelectorExpr Expr) : st S (SelectorExpr Expr) :=
  v ← walk_node expr (sel_value x);
  a ← walk_node identifier (attr x);
  mret (mkSelectorExpr v a (sel_ctx x) (sel_has_question x)).
Definition default_walk_call_expr (x : CallExpr Expr) : st S (CallExpr Expr) :=
  f ← walk_node expr (func x);
  a ← walk_list_mut expr (args x);
  k ← walk_list_mut (self _ walk_keyword) (keywords x);
  mret (mkCallExpr f a k).
Definition default_walk_subscript (x : Subscript Expr) : st S (Subscript Expr) :=
  v ← walk_node expr (sub_value x);
  i ← walk_if_mut expr (sub_index x);
  l ← walk_if_mut expr (lower x);
  u ← walk_if_mut expr (upper x);
  s ← walk_if_mut expr (step x);
  mret (mkSubscript v i l u s (sub_ctx x) (sub_has_question x)).
Definition default_walk_paren_expr (x : ParenExpr Expr) : st S (ParenExpr Expr) :=
  e ← walk_node expr (paren_expr x); mret (mkParenExpr e).
Definition default_walk_list_expr (x : ListExpr Expr) : st S (ListExpr Expr) :=
  l ← walk_list_mut expr (elts x); mret (mkListExpr l (list_ctx x)).
Definition default_walk_list_comp (x : ListComp Expr) : st S (ListComp Expr) :=
  e ← walk_node expr (elt x);
  g ← walk_list_mut (self _ walk_comp_clause) (lc_generators x);
  mret (mkListComp e g).
Definition default_walk_list_if_item_expr (x : ListIfItemExpr Expr) : st S (ListIfItemExpr Expr) :=
  c ← walk_node expr (li_if_cond x);
  l ← walk_list_mut expr (li_exprs x);
  o ← walk_if_mut expr (li_orelse x);
  mret (mkListIfItemExpr c l o).
Definition default_walk_starred_expr (x : StarredExpr Expr) : st S (StarredExpr Expr) :=
  v ← walk_node expr (star_value x); mret (mkStarredExpr v (star_ctx x)).
Definition default_walk_dict_comp (x : DictComp Expr) : st S (DictComp Expr) :=
  e ← walk_config_entry expr (dc_entry x);
  g ← walk_list_mut (self _ walk_comp_clause) (dc_generators x);
  mret (mkDictComp e g).
Definition default_walk_config_if_entry_expr (x : ConfigIfEntryExpr Expr) : st S (ConfigIfEntryExpr Expr) :=
  c ← walk_node expr (ci_if_cond x);
  l ← walk_list_mut (walk_config_entry expr) (ci_items x);
  o ← walk_if_mut expr (ci_orelse x);
  mret (mkConfigIfEntryExpr c l o).
Definition default_walk_comp_clause (x : CompClause Expr) : st S (CompClause Expr) :=
  t ← walk_list_mut identifier (cc_targets x);
  i ← walk_node expr (iter x);
  l ← walk_list_mut expr (ifs x);
  mret (mkCompClause t i l).
Definition default_walk_schema_expr (x : SchemaExpr Expr) : st S (SchemaExpr Expr) :=
  n ← walk_node identifier (se_name x);
  a ← walk_list_mut expr (se_args x);
  k ← walk_list_mut (self _ walk_keyword) (kwargs x);
  c ← walk_node expr (se_config x);
  mret (mkSchemaExpr n a k c).
Definition default_walk_config_expr (x : ConfigExpr Expr) : st S (ConfigExpr Expr) :=
  l ← walk_list_mut (walk_config_entry expr) (items x); mret (mkConfigExpr l).
Definition default_walk_check_expr (x : CheckExpr Expr) : st S (CheckExpr Expr) :=
  t ← walk_node expr (ck_test x);
  c ← walk_if_mut expr (ck_if_cond x);
  m ← walk_if_mut expr (ck_msg x);
  mret (mkCheckExpr t c m).
Definition default_walk_lambda_expr (x : LambdaExpr Expr Stmt) : st S (LambdaExpr Expr Stmt) :=
  a ← walk_if_mut (self _ walk_arguments) (la_args x);
  b ← walk_list_mut (self _ walk_stmt) (la_body x);
  mret (mkLambdaExpr a (return_type_str x) b (return_ty x)).
Definition default_walk_keyword (x : Keyword Expr) : st S (Keyword Expr) :=
  a ← walk_node identifier (kw_arg x);
  v ← walk_if_mut expr (kw_value x);
  mret (mkKeyword a v).
Definition default_walk_arguments (x : Arguments_ Expr) : st S (Arguments_ Expr) :=
  a ← walk_list_mut identifier (ar_args x);
  d ← walk_list_if_mut expr (defaults x);
  mret (mkArguments a d (type_annotation_list x) (ty_list x)).
Definition default_walk_compare (x : Compare Expr) : st S (Compare Expr) :=
  l ← walk_node expr (cmp_left x);
  c ← walk_list_mut expr (comparators x);
  mret (mkCompare l (ops x) c).
Definition default_walk_identifier (x : Identifier) : st S Identifier := mret x.
Definition default_walk_number_lit (x : NumberLit) : st S NumberLit := mret x.
Definition default_walk_string_lit (x : StringLit) : st S StringLit := mret x.
Definition default_walk_name_constant_lit (x : NameConstantLit) : st S NameConstantLit := mret x.
Definition default_walk_joined_string (x : JoinedString Expr) : st S (JoinedString Expr) :=
  l ← walk_list_mut expr (js_values x); mret (mkJoinedString (js_is_long_string x) l (js_raw_value x)).
Definition default_walk_formatted_value (x : FormattedValue Expr) : st S (FormattedValue Expr) :=
  v ← walk_node expr (fv_value x); mret (mkFormattedValue (fv_is_long_string x) v (format_spec x)).
Definition default_walk_module (x : Module_) : st S Module_ :=
  b ← walk_list_mut (self _ walk_stmt) (mo_body x);
  mret (mkModule (mo_filename x) (mo_pkg x) (mo_doc x) (mo_name x) b (mo_comments x)).

(** The dispatch on the constructor.  [walk_missing_expr] does nothing. *)
Definition default_walk_stmt (x : Stmt) : st S Stmt :=
  match x with
  | STypeAlias x => STypeAlias <$> self _ walk_type_alias_stmt x
  | SExpr x => SExpr <$> self _ walk_expr_stmt x
  | SUnification x => SUnification <$> self _ walk_unification_stmt x
  | SAssign x => SAssign <$> self _ walk_assign_stmt x
  | SAugAssign x => SAugAssign <$> self _ walk_aug_assign_stmt x
  | SAssert x => SAssert <$> self _ walk_assert_stmt x
  | SIf x => SIf <$> self _ walk_if_stmt x
  | SImport x => SImport <$> self _ walk_import_stmt x
  | SSchemaAttr x => SSchemaAttr <$> self _ walk_schema_attr x
  | SSchema x => SSchema <$> self _ walk_schema_stmt x
  | SRule x => SRule <$> self _ walk_rule_stmt x
  end.
Definition default_walk_expr (x : Expr) : st S Expr :=
  match x with
  | EIdentifier x => EIdentifier <$> self _ walk_identifier x
  | EUnary x => EUnary <$> self _ walk_unary_expr x
  | EBinary x => EBinary <$> self _ walk_binary_expr x
  | EIf x => EIf <$> self _ walk_if_expr x
  | ESelector x => ESelector <$> self _ walk_selector_expr x
  | ECall x => ECall <$> self _ walk_call_expr x
  | EParen x => EParen <$> self _ walk_paren_expr x
  | EQuant x => EQuant <$> self _ walk_quant_expr x
  | EList x => EList <$> self _ walk_list_expr x
  | EListIfItem x => EListIfItem <$> self _ walk_list_if_item_expr x
  | EListComp x => EListComp <$> self _ walk_list_comp x
  | EStarred x => EStarred <$> self _ walk_starred_expr x
  | EDictComp x => EDictComp <$> self _ walk_dict_comp x
  | EConfigIfEntry x => EConfigIfEntry <$> self _ walk_config_if_entry_expr x
  | ECompClause x => ECompClause <$> self _ walk_comp_clause x
  | ESchema x => ESchema <$> self _ walk_schema_expr x
  | EConfig x => EConfig <$> self _ walk_config_expr x
  | ECheck x => ECheck <$> self _ walk_check_expr x
  | ELambda x => ELambda <$> self _ walk_lambda_expr x
  | ESubscript x => ESubscript <$> self _ walk_subscript x
  | EKeyword x => EKeyword <$> self _ walk_keyword x
  | EArguments x => EArguments <$> self _ walk_arguments x
  | ECompare x => ECompare <$> self _ walk_compare x
  | ENumberLit x => ENumberLit <$> self _ walk_number_lit x
  | EStringLit x => EStringLit <$> self _ walk_string_lit x
  | ENameConstantLit x => ENameConstantLit <$> self _ walk_name_constant_lit x
  | EJoinedString x => EJoinedString <$> self _ walk_joined_string x
  | EFormattedValue x => EFormattedValue <$> self _ walk_formatted_value x
  | EMissing => mret EMissing
  end.
End Defaults.

(** What a method does that is not overridden, through the methods of [self]. *)
Definition default_method {S} (self : MutSelfMutWalker S) : MutSelfMutWalker S := fun A m =>
  match m in method A return A -> st S A with
  | walk_expr_stmt => default_walk_expr_stmt self
  | walk_type_alias_stmt => default_walk_type_alias_stmt self
  | walk_unification_stmt => default_walk_unification_stmt self
  | walk_assign_stmt => default_walk_assign_stmt self
  | walk_aug_assign_stmt => default_walk_aug_assign_stmt self
  | walk_assert_stmt => default_walk_assert_stmt self
  | walk_if_stmt => default_walk_if_stmt self
  | walk_import_stmt => default_walk_import_stmt
  | walk_schema_attr => default_walk_schema_attr self
  | walk_schema_stmt => default_walk_schema_stmt self
  | walk_rule_stmt => default_walk_rule_stmt self
  | walk_quant_expr => default_walk_quant_expr self
  | walk_if_expr => default_walk_if_expr self
  | walk_unary_expr => default_walk_unary_expr self
  | walk_binary_expr => default_walk_binary_expr self
  | walk_selector_expr => default_walk_selector_expr self
  | walk_call_expr => default_walk_call_expr self
  | walk_subscript => default_walk_subscript self
  | walk_paren_expr => default_walk_paren_expr self
  | walk_list_expr => default_walk_list_expr self
  | walk_list_comp => default_walk_list_comp self
  | walk_list_if_item_expr => default_walk_list_if_item_expr self
  | walk_starred_expr => default_walk_starred_expr self
  | walk_dict_comp => default_walk_dict_comp self
  | walk_config_if_entry_expr => default_walk_config_if_entry_expr self
  | walk_comp_clause => default_walk_comp_clause self
  | walk_schema_expr => default_walk_schema_expr self
  | walk_config_expr => default_walk_config_expr self
  | walk_check_expr => default_walk_check_expr self
  | walk_lambda_expr => default_walk_lambda_expr self
  | walk_keyword => default_walk_keyword self
  | walk_arguments => default_walk_arguments self
  | walk_compare => default_walk_compare self
  | walk_identifier => default_walk_identifier
  | walk_number_lit => default_walk_number_lit
  | walk_string_lit => default_walk_string_lit
  | walk_name_constant_lit => default_walk_name_constant_lit
  | walk_joined_string => default_walk_joined_string self
  | walk_formatted_value => default_walk_formatted_value self
  | walk_module => default_walk_module self
  | walk_stmt => default_walk_stmt self
  | walk_expr => default_walk_expr self
  end.

(** An implementation of the trait: its methods, from those that dispatch reaches. *)
Fixpoint dispatch {S} (impl : MutSelfMutWalker S -> MutSelfMutWalker S) (fuel : nat) : MutSelfMutWalker S :=
  match fuel with
  | O => fun A m x => panic out_of_fuel
  | Datatypes.S n => impl (dispatch impl n)
  end.
