(* ===== verification/WalkerLaws.v ===== *)
(** * What every mutating walker does

    The height of a tree, which is enough fuel for its walk, and the structural maps of a
    tree, against which the walkers of the transformers are stated: of a walker whose own
    methods relate what they leave to what they were given, all methods do. *)

From S2P Require Import Prelude MachineInt State Floats Chars.
From S2P Require Import Ast.
From S2P Require Import Walker.

(** ** Heights *)

Definition max_of (l : list nat) : nat := foldr Nat.max 0%nat l.
Definition height_node {A} (h : A -> nat) (n : Node A) : nat := h (node n).
Definition height_opt {A} (h : A -> nat) (o : option (Node A)) : nat :=
  match o with Some n => h (node n) | None => 0%nat end.
Definition height_list {A} (h : A -> nat) (l : list (Node A)) : nat := max_of (map (fun n => h (node n)) l).
Definition height_list_opt {A} (h : A -> nat) (l : list (option (Node A))) : nat :=
  max_of (map (fun o => match o with Some n => h (node n) | None => 0%nat end) l).

(** How many names follow the first of a key. *)
Definition tail_names (e : Expr) : nat :=
  match e with EIdentifier x => pred (length (names x)) | _ => 0%nat end.

Local Open Scope nat_scope.

(** Two calls for each construct: the dispatch on it, and its own method. *)
Section Heights.
Context (h : Expr -> nat).

(** A dotted key stands for a configuration in a configuration for each further name. *)
Definition height_entry (x : ConfigEntry Expr) : nat :=
  Nat.max (height_opt h (ce_key x)) (2 * height_opt tail_names (ce_key x) + height_node h (ce_value x)).

Definition height_keyword (x : Keyword Expr) : nat := 1 + (max_of [ height_opt h (kw_value x)]).
Definition height_arguments (x : Arguments_ Expr) : nat := 1 + (max_of [ height_list_opt h (defaults x)]).
Definition height_call_expr (x : CallExpr Expr) : nat := 1 + (max_of [ height_node h (func x);
     height_list h (args x); height_list height_keyword (keywords x)]).
Definition height_comp_clause (x : CompClause Expr) : nat := 1 + (max_of [ height_node h (iter x);
     height_list h (ifs x)]).
Definition height_unary_expr (x : UnaryExpr Expr) : nat := 1 + (max_of [ height_node h (operand x)]).
Definition height_binary_expr (x : BinaryExpr Expr) : nat := 1 + (max_of [ height_node h (left x);
     height_node h (right x)]).
Definition height_if_expr (x : IfExpr Expr) : nat := 1 + (max_of [ height_node h (ie_body x);
     height_node h (ie_cond x); height_node h (ie_orelse x)]).
Definition height_selector_expr (x : SelectorExpr Expr) : nat := 1 + (max_of [ height_node h (sel_value x)]).
Definition height_paren_expr (x : ParenExpr Expr) : nat := 1 + (max_of [ height_node h (paren_expr x)]).
Definition height_quant_expr (x : QuantExpr Expr) : nat := 1 + (max_of [ height_node h (target x);
     height_node h (quant_test x); height_opt h (quant_if_cond x)]).
Definition height_list_expr (x : ListExpr Expr) : nat := 1 + (max_of [ height_list h (elts x)]).
Definition height_list_if_item_expr (x : ListIfItemExpr Expr) : nat := 1 + (max_of [
     height_node h (li_if_cond x); height_list h (li_exprs x); height_opt h (li_orelse x)]).
Definition height_list_comp (x : ListComp Expr) : nat := 1 + (max_of [ height_node h (elt x);
     height_list height_comp_clause (lc_generators x)]).
Definition height_starred_expr (x : StarredExpr Expr) : nat := 1 + (max_of [ height_node h (star_value x)]).
Definition height_dict_comp (x : DictComp Expr) : nat := 1 + (max_of [ height_entry (dc_entry x);
     height_list height_comp_clause (dc_generators x)]).
Definition height_config_if_entry_expr (x : ConfigIfEntryExpr Expr) : nat := 1 + (max_of [
     height_node h (ci_if_cond x); height_list height_entry (ci_items x); height_opt h (ci_orelse x)]).
Definition height_schema_expr (x : SchemaExpr Expr) : nat := 1 + (max_of [ height_list h (se_args x);
     height_list height_keyword (kwargs x); height_node h (se_config x)]).
Definition height_config_expr (x : ConfigExpr Expr) : nat := 1 + (max_of [ height_list height_entry (items x)]).
Definition height_check_expr (x : CheckExpr Expr) : nat := 1 + (max_of [ height_node h (ck_test x);
     height_opt h (ck_if_cond x); height_opt h (ck_msg x)]).
Definition height_subscript (x : Subscript Expr) : nat := 1 + (max_of [ height_node h (sub_value x);
     height_opt h (sub_index x); height_opt h (lower x); height_opt h (upper x); height_opt h (step x)]).
Definition height_compare (x : Compare Expr) : nat := 1 + (max_of [ height_node h (cmp_left x);
     height_list h (comparators x)]).
Definition height_joined_string (x : JoinedString Expr) : nat := 1 + (max_of [ height_list h (js_values x)]).
Definition height_formatted_value (x : FormattedValue Expr) : nat := 1 + (max_of [ height_node h (fv_value x)]).
Definition height_expr_stmt (x : ExprStmt Expr) : nat := 1 + (max_of [ height_list h (exprs x)]).
Definition height_unification_stmt (x : UnificationStmt Expr) : nat := 1 + (max_of [
     height_node height_schema_expr (uni_value x)]).
Definition height_assign_stmt (x : AssignStmt Expr) : nat := 1 + (max_of [ height_node h (as_value x)]).
Definition height_aug_assign_stmt (x : AugAssignStmt Expr) : nat := 1 + (max_of [ height_node h (aug_value x)]).
Definition height_assert_stmt (x : AssertStmt Expr) : nat := 1 + (max_of [ height_node h (at_test x);
     height_opt h (at_if_cond x); height_opt h (at_msg x)]).
Definition height_signature (x : SchemaIndexSignature Expr) : nat := 1 + (max_of [ height_opt h (si_value x)]).
Definition height_schema_attr (x : SchemaAttr Expr) : nat := 1 + (max_of [ height_opt h (sa_value x);
     height_list height_call_expr (sa_decorators x)]).
Definition height_rule_stmt (x : RuleStmt Expr) : nat := 1 + (max_of [
     height_list height_call_expr (ru_decorators x); height_list height_check_expr (ru_checks x);
     height_opt height_arguments (ru_args x)]).

Section Statements.
Context (hs : Stmt -> nat).
Definition height_lambda_expr (x : LambdaExpr Expr Stmt) : nat := 1 + (max_of [
     height_opt height_arguments (la_args x); height_list hs (la_body x)]).
Definition height_if_stmt (x : IfStmt Expr Stmt) : nat := 1 + (max_of [ height_list hs (is_body x);
     height_node h (is_cond x); height_list hs (is_orelse x)]).
Definition height_schema_stmt (x : SchemaStmt Expr Stmt) : nat := 1 + (max_of [
     height_opt height_arguments (sc_args x); height_list hs (sc_body x);
     height_list height_call_expr (sc_decorators x); height_list height_check_expr (sc_checks x);
     height_opt height_signature (sc_index_signature x)]).
End Statements.

Fixpoint height_stmt (s : Stmt_ Expr) : nat :=
  match s with
  | STypeAlias _ => 2
  | SImport _ => 2
  | SExpr x => 1 + height_expr_stmt x
  | SUnification x => 1 + height_unification_stmt x
  | SAssign x => 1 + height_assign_stmt x
  | SAugAssign x => 1 + height_aug_assign_stmt x
  | SAssert x => 1 + height_assert_stmt x
  | SIf x => 1 + height_if_stmt height_stmt x
  | SSchemaAttr x => 1 + height_schema_attr x
  | SSchema x => 1 + height_schema_stmt height_stmt x
  | SRule x => 1 + height_rule_stmt x
  end.
End Heights.

Fixpoint height (e : Expr) : nat :=
  match e with
  | EIdentifier _ | ENumberLit _ | EStringLit _ | ENameConstantLit _ | EMissing => 2
  | EUnary x => S (height_unary_expr height x)
  | EBinary x => S (height_binary_expr height x)
  | EIf x => S (height_if_expr height x)
  | ESelector x => S (height_selector_expr height x)
  | ECall x => S (height_call_expr height x)
  | EParen x => S (height_paren_expr height x)
  | EQuant x => S (height_quant_expr height x)
  | EList x => S (height_list_expr height x)
  | EListIfItem x => S (height_list_if_item_expr height x)
  | EListComp x => S (height_list_comp height x)
  | EStarred x => S (height_starred_expr height x)
  | EDictComp x => S (height_dict_comp height x)
  | EConfigIfEntry x => S (height_config_if_entry_expr height x)
  | ECompClause x => S (height_comp_clause height x)
  | ESchema x => S (height_schema_expr height x)
  | EConfig x => S (height_config_expr height x)
  | ECheck x => S (height_check_expr height x)
  | ELambda x => S (height_lambda_expr height (height_stmt height) x)
  | ESubscript x => S (height_subscript height x)
  | EKeyword x => S (height_keyword height x)
  | EArguments x => S (height_arguments height x)
  | ECompare x => S (height_compare height x)
  | EJoinedString x => S (height_joined_string height x)
  | EFormattedValue x => S (height_formatted_value height x)
  end.
Definition height_module (m : Module_) : nat := S (height_list (height_stmt height) (mo_body m)).

(** ** Structural maps *)

(** What is done to the leaves, and to the entries of configurations once their parts are
    done; and whether the keys of entries and the conditions among them are visited. *)
Record Changes := mkChanges {
  on_identifier : Identifier -> Identifier;
  on_type : text -> text;
  on_schema_name : text -> text;
  on_rule_name : text -> text;
  on_attr_name : text -> text;
  on_import : ImportStmt -> ImportStmt;
  on_entry : ConfigEntry Expr -> ConfigEntry Expr;
  visits_keys : bool }.

Definition no_changes : Changes := mkChanges id id id id id id id true.

Definition map_node {A B} (f : A -> B) (n : Node A) : Node B := with_node (f (node n)) n.

Section Maps.
Context (K : Changes) (f : Expr -> Expr).

Definition map_parts (x : ConfigEntry Expr) : ConfigEntry Expr :=
  mkConfigEntry (option_map (map_node f) (ce_key x)) (map_node f (ce_value x)) (operation x) (insert_index x).
Definition map_entry (x : ConfigEntry Expr) : ConfigEntry Expr :=
  on_entry K (mkConfigEntry (if visits_keys K then option_map (map_node f) (ce_key x) else ce_key x)
                (map_node f (ce_value x)) (operation x) (insert_index x)).

Definition map_keyword (x : Keyword Expr) : Keyword Expr := mkKeyword
     (map_node (on_identifier K) (kw_arg x)) (option_map (map_node f) (kw_value x)).
Definition map_arguments (x : Arguments_ Expr) : Arguments_ Expr := mkArguments
     (map (map_node (on_identifier K)) (ar_args x)) (map (option_map (map_node f)) (defaults x))
     (map (option_map (map_node (on_type K))) (type_annotation_list x)) (ty_list x).
Definition map_call_expr (x : CallExpr Expr) : CallExpr Expr := mkCallExpr (map_node f (func x))
     (map (map_node f) (args x)) (map (map_node map_keyword) (keywords x)).
Definition map_comp_clause (x : CompClause Expr) : CompClause Expr := mkCompClause
     (map (map_node (on_identifier K)) (cc_targets x)) (map_node f (iter x)) (map (map_node f) (ifs x)).
Definition map_unary_expr (x : UnaryExpr Expr) : UnaryExpr Expr := mkUnaryExpr (un_op x)
     (map_node f (operand x)).
Definition map_binary_expr (x : BinaryExpr Expr) : BinaryExpr Expr := mkBinaryExpr (map_node f (left x))
     (bin_op x) (map_node f (right x)).
Definition map_if_expr (x : IfExpr Expr) : IfExpr Expr := mkIfExpr (map_node f (ie_body x))
     (map_node f (ie_cond x)) (map_node f (ie_orelse x)).
Definition map_selector_expr (x : SelectorExpr Expr) : SelectorExpr Expr := mkSelectorExpr
     (map_node f (sel_value x)) (map_node (on_identifier K) (attr x)) (sel_ctx x) (sel_has_question x).
Definition map_paren_expr (x : ParenExpr Expr) : ParenExpr Expr := mkParenExpr (map_node f (paren_expr x)).
Definition map_quant_expr (x : QuantExpr Expr) : QuantExpr Expr := mkQuantExpr (map_node f (target x))
     (map (map_node (on_identifier K)) (variables x)) (quant_op x) (map_node f (quant_test x))
     (option_map (map_node f) (quant_if_cond x)) (quant_ctx x).
Definition map_list_expr (x : ListExpr Expr) : ListExpr Expr := mkListExpr (map (map_node f) (elts x))
     (list_ctx x).
Definition map_list_if_item_expr (x : ListIfItemExpr Expr) : ListIfItemExpr Expr := mkListIfItemExpr
     (map_node f (li_if_cond x)) (map (map_node f) (li_exprs x)) (option_map (map_node f) (li_orelse x)).
Definition map_list_comp (x : ListComp Expr) : ListComp Expr := mkListComp (map_node f (elt x))
     (map (map_node map_comp_clause) (lc_generators x)).
Definition map_starred_expr (x : StarredExpr Expr) : StarredExpr Expr := mkStarredExpr
     (map_node f (star_value x)) (star_ctx x).
Definition map_dict_comp (x : DictComp Expr) : DictComp Expr := mkDictComp (map_parts (dc_entry x))
     (map (map_node map_comp_clause) (dc_generators x)).
Definition map_config_if_entry_expr (x : ConfigIfEntryExpr Expr) : ConfigIfEntryExpr Expr := mkConfigIfEntryExpr
     (if visits_keys K then map_node f (ci_if_cond x) else ci_if_cond x)
     (map (map_node map_entry) (ci_items x)) (option_map (map_node f) (ci_orelse x)).
Definition map_schema_expr (x : SchemaExpr Expr) : SchemaExpr Expr := mkSchemaExpr
     (map_node (on_identifier K) (se_name x)) (map (map_node f) (se_args x))
     (map (map_node map_keyword) (kwargs x)) (map_node f (se_config x)).
Definition map_config_expr (x : ConfigExpr Expr) : ConfigExpr Expr := mkConfigExpr
     (map (map_node map_entry) (items x)).
Definition map_check_expr (x : CheckExpr Expr) : CheckExpr Expr := mkCheckExpr (map_node f (ck_test x))
     (option_map (map_node f) (ck_if_cond x)) (option_map (map_node f) (ck_msg x)).
Definition map_subscript (x : Subscript Expr) : Subscript Expr := mkSubscript (map_node f (sub_value x))
     (option_map (map_node f) (sub_index x)) (option_map (map_node f) (lower x))
     (option_map (map_node f) (upper x)) (option_map (map_node f) (step x)) (sub_ctx x) (sub_has_question x).
Definition map_compare (x : Compare Expr) : Compare Expr := mkCompare (map_node f (cmp_left x)) (ops x)
     (map (map_node f) (comparators x)).
Definition map_joined_string (x : JoinedString Expr) : JoinedString Expr := mkJoinedString
     (js_is_long_string x) (map (map_node f) (js_values x)) (js_raw_value x).
Definition map_formatted_value (x : FormattedValue Expr) : FormattedValue Expr := mkFormattedValue
     (fv_is_long_string x) (map_node f (fv_value x)) (format_spec x).
Definition map_expr_stmt (x : ExprStmt Expr) : ExprStmt Expr := mkExprStmt (map (map_node f) (exprs x)).
Definition map_unification_stmt (x : UnificationStmt Expr) : UnificationStmt Expr := mkUnificationStmt
     (map_node (on_identifier K) (uni_target x)) (map_node map_schema_expr (uni_value x)).
Definition map_assign_stmt (x : AssignStmt Expr) : AssignStmt Expr := mkAssignStmt
     (map (map_node (on_identifier K)) (targets x)) (map_node f (as_value x))
     (option_map (map_node (on_type K)) (as_type_annotation x)) (as_ty x).
Definition map_aug_assign_stmt (x : AugAssignStmt Expr) : AugAssignStmt Expr := mkAugAssignStmt
     (map_node (on_identifier K) (aug_target x)) (map_node f (aug_value x)) (aug_op x).
Definition map_assert_stmt (x : AssertStmt Expr) : AssertStmt Expr := mkAssertStmt (map_node f (at_test x))
     (option_map (map_node f) (at_if_cond x)) (option_map (map_node f) (at_msg x)).
Definition map_signature (x : SchemaIndexSignature Expr) : SchemaIndexSignature Expr := mkSchemaIndexSignature
     (si_key_name x) (map_node (on_type K) (si_key_type x)) (map_node (on_type K) (si_value_type x))
     (option_map (map_node f) (si_value x)) (si_any_other x) (si_value_ty x).
Definition map_schema_attr (x : SchemaAttr Expr) : SchemaAttr Expr := mkSchemaAttr (sa_doc x)
     (map_node (on_attr_name K) (sa_name x)) (map_node (on_type K) (sa_type_str x)) (sa_op x)
     (option_map (map_node f) (sa_value x)) (sa_is_optional x)
     (map (map_node map_call_expr) (sa_decorators x)) (sa_ty x).
Definition map_rule_stmt (x : RuleStmt Expr) : RuleStmt Expr := mkRuleStmt (ru_doc x)
     (map_node (on_rule_name K) (ru_name x)) (map (map_node (on_identifier K)) (parent_rules x))
     (map (map_node map_call_expr) (ru_decorators x)) (map (map_node map_check_expr) (ru_checks x))
     (option_map (map_node map_arguments) (ru_args x))
     (option_map (map_node (on_identifier K)) (ru_for_host_name x)).

Section Statements.
Context (fs : Stmt -> Stmt).
Definition map_lambda_expr (x : LambdaExpr Expr Stmt) : LambdaExpr Expr Stmt := mkLambdaExpr
     (option_map (map_node map_arguments) (la_args x)) (option_map (on_type K) (return_type_str x))
     (map (map_node fs) (la_body x)) (return_ty x).
Definition map_if_stmt (x : IfStmt Expr Stmt) : IfStmt Expr Stmt := mkIfStmt (map (map_node fs) (is_body x))
     (map_node f (is_cond x)) (map (map_node fs) (is_orelse x)).
Definition map_schema_stmt (x : SchemaStmt Expr Stmt) : SchemaStmt Expr Stmt := mkSchemaStmt (sc_doc x)
     (map_node (on_schema_name K) (sc_name x)) (option_map (map_node (on_identifier K)) (parent_name x))
     (option_map (map_node (on_identifier K)) (for_host_name x)) (sc_is_mixin x) (sc_is_protocol x)
     (option_map (map_node map_arguments) (sc_args x)) (map (map_node (on_identifier K)) (sc_mixins x))
     (map (map_node fs) (sc_body x)) (map (map_node map_call_expr) (sc_decorators x))
     (map (map_node map_check_expr) (sc_checks x))
     (option_map (map_node map_signature) (sc_index_signature x)).
End Statements.

Definition map_type_alias_stmt (x : TypeAliasStmt) : TypeAliasStmt :=
  mkTypeAliasStmt (map_node (on_identifier K) (ta_type_name x)) (ta_type_value x) (ta_ty x).
Fixpoint map_stmt (s : Stmt_ Expr) : Stmt_ Expr :=
  match s with
  | STypeAlias x => STypeAlias (map_type_alias_stmt x)
  | SImport x => SImport (on_import K x)
  | SExpr x => SExpr (map_expr_stmt x)
  | SUnification x => SUnification (map_unification_stmt x)
  | SAssign x => SAssign (map_assign_stmt x)
  | SAugAssign x => SAugAssign (map_aug_assign_stmt x)
  | SAssert x => SAssert (map_assert_stmt x)
  | SIf x => SIf (map_if_stmt map_stmt x)
  | SSchemaAttr x => SSchemaAttr (map_schema_attr x)
  | SSchema x => SSchema (map_schema_stmt map_stmt x)
  | SRule x => SRule (map_rule_stmt x)
  end.
End Maps.

Fixpoint map_expr (K : Changes) (e : Expr) : Expr :=
  match e with
  | EIdentifier x => EIdentifier (on_identifier K x)
  | ENumberLit _ | EStringLit _ | ENameConstantLit _ | EMissing => e
  | EUnary x => EUnary (map_unary_expr (map_expr K) x)
  | EBinary x => EBinary (map_binary_expr (map_expr K) x)
  | EIf x => EIf (map_if_expr (map_expr K) x)
  | ESelector x => ESelector (map_selector_expr K (map_expr K) x)
  | ECall x => ECall (map_call_expr K (map_expr K) x)
  | EParen x => EParen (map_paren_expr (map_expr K) x)
  | EQuant x => EQuant (map_quant_expr K (map_expr K) x)
  | EList x => EList (map_list_expr (map_expr K) x)
  | EListIfItem x => EListIfItem (map_list_if_item_expr (map_expr K) x)
  | EListComp x => EListComp (map_list_comp K (map_expr K) x)
  | EStarred x => EStarred (map_starred_expr (map_expr K) x)
  | EDictComp x => EDictComp (map_dict_comp K (map_expr K) x)
  | EConfigIfEntry x => EConfigIfEntry (map_config_if_entry_expr K (map_expr K) x)
  | ECompClause x => ECompClause (map_comp_clause K (map_expr K) x)
  | ESchema x => ESchema (map_schema_expr K (map_expr K) x)
  | EConfig x => EConfig (map_config_expr K (map_expr K) x)
  | ECheck x => ECheck (map_check_expr (map_expr K) x)
  | ELambda x => ELambda (map_lambda_expr K (map_expr K) (map_stmt K (map_expr K)) x)
  | ESubscript x => ESubscript (map_subscript (map_expr K) x)
  | EKeyword x => EKeyword (map_keyword K (map_expr K) x)
  | EArguments x => EArguments (map_arguments K (map_expr K) x)
  | ECompare x => ECompare (map_compare (map_expr K) x)
  | EJoinedString x => EJoinedString (map_joined_string (map_expr K) x)
  | EFormattedValue x => EFormattedValue (map_formatted_value (map_expr K) x)
  end.
Definition map_module (K : Changes) (m : Module_) : Module_ :=
  mkModule (mo_filename m) (mo_pkg m) (mo_doc m) (mo_name m)
    (map (map_node (map_stmt K (map_expr K))) (mo_body m)) (mo_comments m).
(** ** At a method *)

Definition height_at {A} (m : method A) : A -> nat :=
  match m in method A return A -> nat with
  | walk_keyword => height_keyword height
  | walk_arguments => height_arguments height
  | walk_call_expr => height_call_expr height
  | walk_comp_clause => height_comp_clause height
  | walk_unary_expr => height_unary_expr height
  | walk_binary_expr => height_binary_expr height
  | walk_if_expr => height_if_expr height
  | walk_selector_expr => height_selector_expr height
  | walk_paren_expr => height_paren_expr height
  | walk_quant_expr => height_quant_expr height
  | walk_list_expr => height_list_expr height
  | walk_list_if_item_expr => height_list_if_item_expr height
  | walk_list_comp => height_list_comp height
  | walk_starred_expr => height_starred_expr height
  | walk_dict_comp => height_dict_comp height
  | walk_config_if_entry_expr => height_config_if_entry_expr height
  | walk_schema_expr => height_schema_expr height
  | walk_config_expr => height_config_expr height
  | walk_check_expr => height_check_expr height
  | walk_subscript => height_subscript height
  | walk_compare => height_compare height
  | walk_joined_string => height_joined_string height
  | walk_formatted_value => height_formatted_value height
  | walk_expr_stmt => height_expr_stmt height
  | walk_unification_stmt => height_unification_stmt height
  | walk_assign_stmt => height_assign_stmt height
  | walk_aug_assign_stmt => height_aug_assign_stmt height
  | walk_assert_stmt => height_assert_stmt height
  | walk_schema_attr => height_schema_attr height
  | walk_rule_stmt => height_rule_stmt height
  | walk_lambda_expr => height_lambda_expr height (height_stmt height)
  | walk_if_stmt => height_if_stmt height (height_stmt height)
  | walk_schema_stmt => height_schema_stmt height (height_stmt height)
  | walk_identifier => fun _ => 0
  | walk_type_alias_stmt => fun _ => 1
  | walk_import_stmt => fun _ => 1
  | walk_number_lit => fun _ => 1
  | walk_string_lit => fun _ => 1
  | walk_name_constant_lit => fun _ => 1
  | walk_stmt => height_stmt height
  | walk_expr => height
  | walk_module => height_module
  end.
Definition map_at (K : Changes) {A} (m : method A) : A -> A :=
  match m in method A return A -> A with
  | walk_keyword => map_keyword K (map_expr K)
  | walk_arguments => map_arguments K (map_expr K)
  | walk_call_expr => map_call_expr K (map_expr K)
  | walk_comp_clause => map_comp_clause K (map_expr K)
  | walk_unary_expr => map_unary_expr (map_expr K)
  | walk_binary_expr => map_binary_expr (map_expr K)
  | walk_if_expr => map_if_expr (map_expr K)
  | walk_selector_expr => map_selector_expr K (map_expr K)
  | walk_paren_expr => map_paren_expr (map_expr K)
  | walk_quant_expr => map_quant_expr K (map_expr K)
  | walk_list_expr => map_list_expr (map_expr K)
  | walk_list_if_item_expr => map_list_if_item_expr (map_expr K)
  | walk_list_comp => map_list_comp K (map_expr K)
  | walk_starred_expr => map_starred_expr (map_expr K)
  | walk_dict_comp => map_dict_comp K (map_expr K)
  | walk_config_if_entry_expr => map_config_if_entry_expr K (map_expr K)
  | walk_schema_expr => map_schema_expr K (map_expr K)
  | walk_config_expr => map_config_expr K (map_expr K)
  | walk_check_expr => map_check_expr (map_expr K)
  | walk_subscript => map_subscript (map_expr K)
  | walk_compare => map_compare (map_expr K)
  | walk_joined_string => map_joined_string (map_expr K)
  | walk_formatted_value => map_formatted_value (map_expr K)
  | walk_expr_stmt => map_expr_stmt (map_expr K)
  | walk_unification_stmt => map_unification_stmt K (map_expr K)
  | walk_assign_stmt => map_assign_stmt K (map_expr K)
  | walk_aug_assign_stmt => map_aug_assign_stmt K (map_expr K)
  | walk_assert_stmt => map_assert_stmt (map_expr K)
  | walk_schema_attr => map_schema_attr K (map_expr K)
  | walk_rule_stmt => map_rule_stmt K (map_expr K)
  | walk_lambda_expr => map_lambda_expr K (map_expr K) (map_stmt K (map_expr K))
  | walk_if_stmt => map_if_stmt (map_expr K) (map_stmt K (map_expr K))
  | walk_schema_stmt => map_schema_stmt K (map_expr K) (map_stmt K (map_expr K))
  | walk_identifier => on_identifier K
  | walk_type_alias_stmt => map_type_alias_stmt K
  | walk_import_stmt => on_import K
  | walk_number_lit => id
  | walk_string_lit => id
  | walk_name_constant_lit => id
  | walk_stmt => map_stmt K (map_expr K)
  | walk_expr => map_expr K
  | walk_module => map_module K
  end.

(** ** No changes

    A map that changes nothing is the identity, by induction on the height. *)

Section Unchanged.
Context (n : nat).

(** The map leaves alone what is lower than [n]. *)
Definition keeps {A} (h : A -> nat) (f : A -> A) : Prop := forall a, h a < n -> f a = a.

Lemma keeps_node {A} (h : A -> nat) f : keeps h f -> keeps (height_node h) (map_node f).
Proof. intros Hf [a] Ha. unfold map_node, with_node. simpl. by rewrite Hf. Qed.
Lemma keeps_opt {A} (h : A -> nat) f : keeps h f -> keeps (height_opt h) (option_map (map_node f)).
Proof. intros Hf [x|] Hx; [|done]. simpl. by rewrite (keeps_node h f Hf). Qed.
Lemma keeps_list {A} (h : A -> nat) f : keeps h f -> keeps (height_list h) (map (map_node f)).
Proof.
  intros Hf l. unfold height_list. induction l as [|x l IH]; simpl; intros Hl; [done|].
  rewrite IH, (keeps_node h f Hf) by (unfold height_node; lia). done.
Qed.
Lemma keeps_list_opt {A} (h : A -> nat) f : keeps h f -> keeps (height_list_opt h) (map (option_map (map_node f))).
Proof.
  intros Hf l. unfold height_list_opt. induction l as [|x l IH]; simpl; intros Hl; [done|].
  rewrite IH, (keeps_opt h f Hf) by (unfold height_opt; lia). done.
Qed.

(** Leaves. *)
Lemma node_id {A} (x : Node A) : map_node id x = x.
Proof. by destruct x. Qed.
Lemma option_id {A} (o : option A) : option_map id o = o.
Proof. by destruct o. Qed.
Lemma option_node_id {A} (o : option (Node A)) : option_map (map_node id) o = o.
Proof. destruct o as [x|]; [|done]. simpl. by rewrite node_id. Qed.
Lemma list_id {A} (l : list (Node A)) : map (map_node id) l = l.
Proof. induction l as [|x l IH]; [done|]. simpl. by rewrite IH, node_id. Qed.
Lemma list_option_id {A} (l : list (option (Node A))) : map (option_map (map_node id)) l = l.
Proof. induction l as [|x l IH]; [done|]. simpl. by rewrite IH, option_node_id. Qed.

Context (IH : forall A (m : method A), keeps (height_at m) (map_at no_changes m)).

Lemma keeps_parts : keeps (height_entry height) (map_parts (map_expr no_changes)).
Proof.
  intros [k v op i] Hx. unfold height_entry in Hx. unfold map_parts. simpl in *.
  rewrite (keeps_opt _ _ (IH _ walk_expr)), (keeps_node _ _ (IH _ walk_expr)) by (cbn [height_at]; lia). done.
Qed.
Lemma keeps_entry : keeps (height_entry height) (map_entry no_changes (map_expr no_changes)).
Proof. exact keeps_parts. Qed.
Lemma keeps_signature : keeps (height_signature height) (map_signature no_changes (map_expr no_changes)).
Proof.
  intros [a b c d e g] Hx. unfold height_signature in Hx. unfold map_signature. cbn -[map_node].
  rewrite !node_id, (keeps_opt _ _ (IH _ walk_expr)) by (simpl in *; lia). done.
Qed.
End Unchanged.

Local Ltac head t := lazymatch t with ?f _ => head f | _ => t end.
Local Ltac part_at H := first [ apply H | apply (keeps_node _ _ _ H) | apply (keeps_opt _ _ _ H)
                             | apply (keeps_list _ _ _ H) | apply (keeps_list_opt _ _ _ H) ].
Local Ltac part IH :=
  first [ part_at (IH _ walk_expr) | part_at (IH _ walk_stmt) | part_at (IH _ walk_keyword)
        | part_at (IH _ walk_arguments) | part_at (IH _ walk_call_expr) | part_at (IH _ walk_check_expr)
        | part_at (IH _ walk_comp_clause) | part_at (IH _ walk_schema_expr) | part_at (keeps_entry _ IH)
        | part_at (keeps_parts _ IH) | part_at (keeps_signature _ IH) ].
Local Ltac unchanged IH :=
  intros x Hx; cbn [height_at] in Hx; cbn [map_at];
  lazymatch type of Hx with ?h < _ => let c := head h in try unfold c in Hx end;
  cbn [max_of foldr] in Hx; destruct x;
  lazymatch goal with |- ?a = _ => let c := head a in try unfold c end;
  cbn -[map_node option_map map height_node height_opt height_list height_list_opt map_expr map_stmt] in *;
  rewrite ?node_id, ?option_id, ?option_node_id, ?list_id, ?list_option_id; f_equal;
  try (part IH; cbn [height_at]; unfold Stmt in *; lia).

Local Ltac dispatched IH :=
  intros x Hx; destruct x; cbn [height_at height_stmt height] in Hx; cbn [map_at map_stmt map_expr]; try done; f_equal;
  first [apply (IH _ walk_expr_stmt) | apply (IH _ walk_type_alias_stmt) | apply (IH _ walk_unification_stmt)
    | apply (IH _ walk_assign_stmt) | apply (IH _ walk_aug_assign_stmt) | apply (IH _ walk_assert_stmt)
    | apply (IH _ walk_if_stmt) | apply (IH _ walk_import_stmt) | apply (IH _ walk_schema_attr) | apply
    (IH _ walk_schema_stmt) | apply (IH _ walk_rule_stmt) | apply (IH _ walk_quant_expr) | apply (IH _
    walk_if_expr) | apply (IH _ walk_unary_expr) | apply (IH _ walk_binary_expr) | apply (IH _
    walk_selector_expr) | apply (IH _ walk_call_expr) | apply (IH _ walk_subscript) | apply (IH _
    walk_paren_expr) | apply (IH _ walk_list_expr) | apply (IH _ walk_list_comp) | apply (IH _
    walk_list_if_item_expr) | apply (IH _ walk_starred_expr) | apply (IH _ walk_dict_comp) | apply (IH _
    walk_config_if_entry_expr) | apply (IH _ walk_comp_clause) | apply (IH _ walk_schema_expr) | apply
    (IH _ walk_config_expr) | apply (IH _ walk_check_expr) | apply (IH _ walk_lambda_expr) | apply (IH _
    walk_keyword) | apply (IH _ walk_arguments) | apply (IH _ walk_compare) | apply (IH _
    walk_joined_string) | apply (IH _ walk_formatted_value)];
  cbn [height_at]; lia.

Lemma no_changes_at n : forall A (m : method A), keeps n (height_at m) (map_at no_changes m).
Proof.
  induction n as [|n IH]; [intros A m x Hx; lia|]. intros A m. destruct m.
  all: try done.
  all: try solve [dispatched IH | unchanged IH].
Qed.

Lemma map_at_no_changes {A} (m : method A) x : map_at no_changes m x = x.
Proof. apply (no_changes_at (S (height_at m x))). lia. Qed.
