(* ===== verification/WalkerSound.v ===== *)
(** * What a mutating walker keeps

    Given that the own methods of a transformer relate what they leave to what they were
    given, by two structural maps that agree on the two, so do the default methods; and with
    the height of the tree as fuel they return. *)

From S2P Require Import Prelude MachineInt State Floats Chars.
From S2P Require Import Ast.
From S2P Require Import Walker WalkerLaws.

Local Open Scope nat_scope.

Section Sound.
Context {S : Type} (K1 K2 : Changes) (Inv : S -> Prop) (Rs : S -> S -> Prop) `{!PreOrder Rs}.

(** The method returns on what is lower than [n], leaves what [f1] maps to where [f2] maps
    what it was given, keeps the invariant of the state, and leaves the state related to the
    one before. *)
Definition walks {A} (h : A -> nat) (f1 f2 : A -> A) (n : nat) (m : A -> st S A) : Prop :=
  forall x s, Inv s -> h x < n -> wp (m x) s (fun x' s' => f1 x' = f2 x /\ Inv s' /\ Rs s s').

(** So do all the methods of the walker. *)
Definition Sound (n : nat) (w : MutSelfMutWalker S) : Prop :=
  forall A (m : method A), walks (height_at m) (map_at K1 m) (map_at K2 m) n (w A m).



(** No invariant. *)
Definition any_state {S} (s : S) : Prop := True.

(** ** The macros *)

Section Macros.
Context {A : Type} (h : A -> nat) (f1 f2 : A -> A) (n : nat) (m : A -> st S A).
Context (Hm : walks h f1 f2 n m).

Lemma walks_node : walks (height_node h) (map_node f1) (map_node f2) n (walk_node m).
Proof.
  intros x s HI Hx. unfold walk_node. wp_step. eapply wp_mono; [by apply Hm|].
  intros y s' [Hy Hs]. split; [|done]. unfold map_node. simpl. by rewrite Hy.
Qed.

Lemma walks_if : walks (height_opt h) (option_map (map_node f1)) (option_map (map_node f2)) n (walk_if_mut m).
Proof.
  intros [x|] s HI Hx; unfold walk_if_mut; [|by split].
  wp_step. eapply wp_mono; [by apply walks_node|]. intros y s' [Hy Hs]. split; [|done]. simpl. by rewrite Hy.
Qed.

Lemma walks_list : walks (height_list h) (map (map_node f1)) (map (map_node f2)) n (walk_list_mut m).
Proof.
  intros l. induction l as [|x l IH]; intros s HI Hl; cbn [walk_list_mut]; [by split|].
  unfold height_list in Hl. simpl in Hl. wp_step.
  eapply wp_mono; [apply walks_node; [done|unfold height_node; lia]|].
  intros y s' (Hy & HI' & Hs). wp_step. eapply wp_mono; [apply IH; [done|unfold height_list; lia]|].
  intros l' s'' (Hl' & HI'' & Hs'). split_and!; [simpl; by rewrite Hy, Hl'|done|by etrans].
Qed.

Lemma walks_list_if : walks (height_list_opt h) (map (option_map (map_node f1)))
  (map (option_map (map_node f2))) n (walk_list_if_mut m).
Proof.
  intros l. induction l as [|x l IH]; intros s HI Hl; cbn [walk_list_if_mut]; [by split|].
  unfold height_list_opt in Hl. simpl in Hl. wp_step.
  eapply wp_mono; [apply walks_if; [done|unfold height_opt; lia]|].
  intros y s' (Hy & HI' & Hs). wp_step. eapply wp_mono; [apply IH; [done|unfold height_list_opt; lia]|].
  intros l' s'' (Hl' & HI'' & Hs'). split_and!; [simpl; by rewrite Hy, Hl'|done|by etrans].
Qed.
End Macros.

Lemma height_opt_flat {A} (o : option (Node A)) : height_opt (fun _ => 0) o = 0.
Proof. by destruct o. Qed.
Lemma height_list_flat {A} (l : list (Node A)) : height_list (fun _ => 0) l = 0.
Proof. unfold height_list. induction l; simpl in *; lia. Qed.

Lemma walks_parts n m : walks height (map_expr K1) (map_expr K2) n m ->
  walks (height_entry height) (map_parts (map_expr K1)) (map_parts (map_expr K2)) n (walk_config_entry m).
Proof.
  intros Hm x s HI Hx. unfold walk_config_entry. unfold height_entry in Hx. wp_step.
  eapply wp_mono; [eapply walks_if; [done|done|lia]|]. intros k s' (Hk & HI' & Hs). wp_step.
  eapply wp_mono; [eapply walks_node; [done|done|lia]|]. intros v s'' (Hv & HI'' & Hs').
  split_and!; [unfold map_parts; simpl; by rewrite Hk, Hv|done|by etrans].
Qed.

(** The maps that do nothing more to entries. *)
Definition plain_changes (K : Changes) : Prop := on_entry K = id /\ visits_keys K = true.
Lemma map_entry_plain K f x : plain_changes K -> map_entry K f x = map_parts f x.
Proof. intros [H1 H2]. unfold map_entry. by rewrite H1, H2. Qed.
Lemma walks_entry n m : plain_changes K1 -> plain_changes K2 -> walks height (map_expr K1) (map_expr K2) n m ->
  walks (height_entry height) (map_entry K1 (map_expr K1)) (map_entry K2 (map_expr K2)) n (walk_config_entry m).
Proof.
  intros H1 H2 Hm x s HI Hx. eapply wp_mono; [by eapply walks_parts|].
  intros x' s' [H Hs]. by rewrite !map_entry_plain.
Qed.

(** ** The default methods *)

Section Defaults.
Context (n : nat) (self : MutSelfMutWalker S) (Hself : Sound n self).

Lemma walks_signature : on_type K1 = on_type K2 ->
  walks (height_signature height) (map_signature K1 (map_expr K1)) (map_signature K2 (map_expr K2)) (Datatypes.S n)
    (walk_signature_value self).
Proof.
  intros HT x s HI Hx. unfold walk_signature_value. unfold height_signature in Hx. simpl in Hx. wp_step.
  eapply wp_mono; [eapply walks_if; [apply (Hself _ walk_expr)|done|simpl; lia]|]. intros v s' [Hv Hs]. split; [|done].
  cbn [map_at] in Hv. unfold map_signature. simpl. by rewrite Hv, HT.
Qed.
End Defaults.
End Sound.

(** ** The proof of a method *)

Ltac head t := lazymatch t with ?f _ => head f | _ => t end.
Ltac open_height Hx :=
  cbn [height_at] in Hx;
  lazymatch type of Hx with (?h < _)%nat => let c := head h in try unfold c in Hx end;
  cbn [max_of foldr] in Hx.
Ltac low := cbn [height_at] in *; unfold height_node, Stmt in *; rewrite ?height_opt_flat, ?height_list_flat; lia.
(** One part of a node after the other, by the soundness of the methods that are called. *)
Ltac walk_part Hself :=
  eapply wp_mono;
    [first [eapply walks_node | eapply walks_if | eapply walks_list | eapply walks_list_if | eapply walks_parts];
       first [exact (Hself _ _) | exact (Hself _ walk_expr)
             | solve [refine (walks_signature _ _ _ _ _ _ Hself _); done]
             | solve [refine (walks_entry _ _ _ _ _ _ _ _ (Hself _ walk_expr)); done] | idtac];
       first [typeclasses eauto | eassumption | low]
    | intros ? ? (? & ? & ?); cbn [map_at] in *].
Ltac same_state := solve [repeat first [done | eassumption | etrans; [eassumption|]]].
Ltac same_node :=
  cbn [map_at];
  lazymatch goal with |- ?a = _ => let c := head a in unfold c end; simpl;
  repeat match goal with H : plain_changes _ |- _ => destruct H as [_ H]; rewrite ?H end;
  simpl in *; rewrite ?node_id; unfold Stmt in *; congruence.
Ltac method_sound Hself :=
  intros x s HI Hx; open_height Hx;
  lazymatch goal with |- wp ?m _ _ => let c := head m in unfold c end;
  repeat (wp_step; walk_part Hself); apply wp_ret; split; [same_node|split; [done|same_state]].
Ltac dispatch_sound Hself :=
  intros x s HI Hx; destruct x; cbn [height_at height_stmt height] in Hx;
  cbn [default_walk_stmt default_walk_expr];
  try (by split; [|done]); unfold fmap, st_fmap; wp_step;
  (eapply wp_mono; [apply (Hself _ _); [done|cbn [height_at]; lia]|]); intros ? ? [E ?]; (split; [|done]);
  cbn [map_at] in *; simpl; first [by rewrite E | unfold id in E; by rewrite E].
Ltac untouched := intros x s HI _; (split; [cbn [map_at]; congruence|done]).

Section Inherited.
Context {S : Type} (K1 K2 : Changes) (Inv : S -> Prop) (Rs : S -> S -> Prop) `{!PreOrder Rs}.
Notation Sound := (Sound K1 K2 Inv Rs).

(** What the maps must agree on for a method to be inherited. *)
Definition inheritable {A} (m : method A) : Prop :=
  match m with
  | walk_identifier => on_identifier K1 = on_identifier K2
  | walk_import_stmt => on_import K1 = on_import K2
  | walk_config_expr => plain_changes K1 /\ plain_changes K2
  | walk_config_if_entry_expr => plain_changes K1 /\ plain_changes K2
  | walk_schema_attr => on_attr_name K1 = on_attr_name K2 /\ on_type K1 = on_type K2
  | walk_schema_stmt => on_schema_name K1 = on_schema_name K2 /\ on_type K1 = on_type K2
  | walk_rule_stmt => on_rule_name K1 = on_rule_name K2
  | walk_lambda_expr => on_type K1 = on_type K2
  | walk_arguments => on_type K1 = on_type K2
  | walk_assign_stmt => on_type K1 = on_type K2
  | _ => True
  end.
Lemma default_method_sound n self (Hself : Sound n self) A (m : method A) :
  inheritable m -> walks Inv Rs (height_at m) (map_at K1 m) (map_at K2 m) (Datatypes.S n) (default_method self A m).
Proof.
  destruct m; cbn [inheritable default_method]; intros Hi; try match type of Hi with _ /\ _ => destruct Hi as [? ?] end;
    first [dispatch_sound Hself | method_sound Hself | untouched].
Qed.
(** A walker all of whose methods are sound when those it calls are, with less fuel. *)
Lemma dispatch_sound (impl : MutSelfMutWalker S -> MutSelfMutWalker S) :
  (forall n self, Sound n self -> Sound (Datatypes.S n) (impl self)) -> forall n, Sound n (dispatch impl n).
Proof. intros Hi n. induction n as [|n IH]; [intros A m x s _ Hx; lia|]. by apply Hi. Qed.
End Inherited.
