(* ===== verification/PreIdentifier.v ===== *)
(** * Qualified and raw identifiers

    [kclvm/sema/src/pre_process/identifier.rs]: the package path of identifiers that begin
    with the name of an import, and identifiers without their prefix [$].  Names are texts;
    the keys of the tables are their UTF-8 encodings. *)

From S2P Require Import Prelude MachineInt State Floats Chars Utf8 TypeData AstPos.
From S2P Require Import Ast Resolver.
From S2P Require Import Walker WalkerLaws WalkerSound.

Definition RAW_IDENTIFIER_PREFIX : text := txt "$".

Notation "m1 ;; m2" := (m1 ≫= fun _ => m2) (at level 100, right associativity, only parsing).

(** ** Qualified identifiers *)

Record QualifiedIdentifierTransformer := mkQualified {
  import_names : list (string * text);
  global_names : list (string * position);
  local_vars : list string;
  q_scope_level : nat }.

Local Abbreviation Q := (st QualifiedIdentifierTransformer).

Definition set_global_names g (q : QualifiedIdentifierTransformer) :=
  mkQualified (import_names q) g (local_vars q) (q_scope_level q).
Definition set_local_vars l (q : QualifiedIdentifierTransformer) :=
  mkQualified (import_names q) (global_names q) l (q_scope_level q).
Definition set_q_scope_level n (q : QualifiedIdentifierTransformer) :=
  mkQualified (import_names q) (global_names q) (local_vars q) n.


(** A name is global from its first definition at the top level on; [again] says whether a
    later one replaces its position. *)
Definition insert_global (again : bool) (name : text) (pos : position) : Q unit :=
  known ← gets (fun q => im_contains (encode name) (global_names q));
  level ← gets q_scope_level;
  when ((again || negb known) && (level =? 0)%nat)
    (modify (fun q => set_global_names (im_insert (encode name) pos (global_names q)) q)).

(** [IndexSet::insert]. *)
Definition insert_local (name : text) (l : list string) : list string :=
  if bool_decide (encode name ∈ l) then l else l ++ [encode name].
Definition insert_locals (l : list (Node Identifier)) : Q unit :=
  modify (fun q => set_local_vars
    (fold_left (fun l t => match names (node t) with n :: _ => insert_local (node n) l | [] => l end) l (local_vars q)) q).
Definition clear_locals : Q unit := modify (set_local_vars []).

(** One level deeper. *)
Definition nested {A} (m : Q A) : Q A :=
  modify (fun q => set_q_scope_level (S (q_scope_level q)) q);;
  a ← m;
  modify (fun q => set_q_scope_level (pred (q_scope_level q)) q);;
  mret a.

Section Qualified.
Context (self : MutSelfMutWalker QualifiedIdentifierTransformer).
Notation expr := (self _ walk_expr).
Notation identifier := (self _ walk_identifier).

Definition qualified_rule_stmt (x : RuleStmt Expr) : Q (RuleStmt Expr) :=
  insert_global false (node (ru_name x)) (get_pos (ru_name x));;
  p ← walk_list_mut identifier (parent_rules x);
  d ← walk_list_mut (self _ walk_call_expr) (ru_decorators x);
  a ← walk_if_mut (self _ walk_arguments) (ru_args x);
  h ← walk_if_mut identifier (ru_for_host_name x);
  c ← nested (walk_list_mut (self _ walk_check_expr) (ru_checks x));
  mret (mkRuleStmt (ru_doc x) (ru_name x) p d c a h).

Definition qualified_schema_stmt (x : SchemaStmt Expr Stmt) : Q (SchemaStmt Expr Stmt) :=
  insert_global false (node (sc_name x)) (get_pos (sc_name x));;
  p ← walk_if_mut identifier (parent_name x);
  h ← walk_if_mut identifier (for_host_name x);
  a ← walk_if_mut (self _ walk_arguments) (sc_args x);
  nested
    (i ← walk_if_mut (walk_signature_value self) (sc_index_signature x);
     m ← walk_list_mut identifier (sc_mixins x);
     d ← walk_list_mut (self _ walk_call_expr) (sc_decorators x);
     b ← walk_list_mut (self _ walk_stmt) (sc_body x);
     c ← walk_list_mut (self _ walk_check_expr) (sc_checks x);
     mret (mkSchemaStmt (sc_doc x) (sc_name x) p h (sc_is_mixin x) (sc_is_protocol x) a m b d c i)).

Definition is_schema_value (e : Node Expr) : bool := match node e with ESchema _ => true | _ => false end.

(** The names that an assignment defines. *)
Fixpoint insert_targets (is_config : bool) (l : list (Node Identifier)) : Q unit :=
  match l with
  | [] => mret tt
  | t :: l =>
      match names (node t) with
      | n :: _ => insert_global (is_private_field (encode (node n)) || is_config) (node n) (get_pos t)
      | [] => mret tt
      end;;
      insert_targets is_config l
  end.
Definition qualified_assign_stmt (x : AssignStmt Expr) : Q (AssignStmt Expr) :=
  insert_targets (is_schema_value (as_value x)) (targets x);;
  v ← walk_node expr (as_value x);
  mret (mkAssignStmt (targets x) v (as_type_annotation x) (as_ty x)).
Definition qualified_aug_assign_stmt (x : AugAssignStmt Expr) : Q (AugAssignStmt Expr) :=
  match names (node (aug_target x)) with
  | [] => mret x
  | n :: _ =>
      insert_global (is_private_field (encode (node n)) || is_schema_value (aug_value x)) (node n) (get_pos (aug_target x));;
      v ← walk_node expr (aug_value x);
      mret (mkAugAssignStmt (aug_target x) v (aug_op x))
  end.

Definition qualified_schema_expr (x : SchemaExpr Expr) : Q (SchemaExpr Expr) :=
  n ← walk_node identifier (se_name x);
  a ← walk_list_mut expr (se_args x);
  k ← walk_list_mut (self _ walk_keyword) (kwargs x);
  c ← walk_node expr (se_config x);
  mret (mkSchemaExpr n a k c).
Definition qualified_lambda_expr (x : LambdaExpr Expr Stmt) : Q (LambdaExpr Expr Stmt) :=
  a ← walk_if_mut (self _ walk_arguments) (la_args x);
  b ← nested (walk_list_mut (self _ walk_stmt) (la_body x));
  mret (mkLambdaExpr a (return_type_str x) b (return_ty x)).

(** The variables of a comprehension are known until its end; at the end all are forgotten. *)
Definition clause_targets (l : list (Node (CompClause Expr))) : list (Node Identifier) :=
  concat (map (fun g => cc_targets (node g)) l).
Definition qualified_list_comp (x : ListComp Expr) : Q (ListComp Expr) :=
  insert_locals (clause_targets (lc_generators x));;
  e ← walk_node expr (elt x);
  g ← walk_list_mut (self _ walk_comp_clause) (lc_generators x);
  clear_locals;;
  mret (mkListComp e g).
Definition qualified_dict_comp (x : DictComp Expr) : Q (DictComp Expr) :=
  insert_locals (clause_targets (dc_generators x));;
  e ← walk_config_entry expr (dc_entry x);
  g ← walk_list_mut (self _ walk_comp_clause) (dc_generators x);
  clear_locals;;
  mret (mkDictComp e g).
Definition qualified_quant_expr (x : QuantExpr Expr) : Q (QuantExpr Expr) :=
  insert_locals (variables x);;
  t ← walk_node expr (target x);
  b ← walk_node expr (quant_test x);
  c ← walk_if_mut expr (quant_if_cond x);
  clear_locals;;
  mret (mkQuantExpr t (variables x) (quant_op x) b c (quant_ctx x)).

Definition set_pkgpath (p : text) (x : Identifier) : Identifier := mkIdentifier (names x) p (id_ctx x).

(** A name of at least two parts whose first is neither global nor a variable. *)
Definition qualified_identifier (x : Identifier) : Q Identifier :=
  match names x with
  | n :: _ :: _ =>
      q ← gets id;
      let name := encode (node n) in
      mret (if negb (im_contains name (global_names q)) && negb (bool_decide (name ∈ local_vars q)) then
              match im_get name (import_names q) with Some p => set_pkgpath p x | None => x end
            else x)
  | _ => mret x
  end.
End Qualified.

(** [impl MutSelfMutWalker for QualifiedIdentifierTransformer]. *)
Definition qualified_transformer (self : MutSelfMutWalker QualifiedIdentifierTransformer) :
    MutSelfMutWalker QualifiedIdentifierTransformer := fun A m =>
  match m in method A return A -> Q A with
  | walk_rule_stmt => qualified_rule_stmt self
  | walk_schema_stmt => qualified_schema_stmt self
  | walk_assign_stmt => qualified_assign_stmt self
  | walk_aug_assign_stmt => qualified_aug_assign_stmt self
  | walk_schema_expr => qualified_schema_expr self
  | walk_import_stmt => mret
  | walk_lambda_expr => qualified_lambda_expr self
  | walk_list_comp => qualified_list_comp self
  | walk_dict_comp => qualified_dict_comp self
  | walk_quant_expr => qualified_quant_expr self
  | walk_identifier => qualified_identifier
  | m => default_method self _ m
  end.

(** The fuel of a walk: the height of the module. *)
Definition walk_fuel (m : Module_) : nat := S (height_module m).
Definition run_walker {S} (impl : MutSelfMutWalker S -> MutSelfMutWalker S) (s : S) (m : Module_) : outcome (Module_ * S) :=
  dispatch impl (walk_fuel m) _ walk_module m s.

Definition imports_of (m : Module_) (names : list (string * text)) : list (string * text) :=
  fold_left (fun names s => match node s with
                            | SImport i => im_insert (encode (im_name i)) (im_path i) names
                            | _ => names
                            end) (mo_body m) names.

(** The module, and the import names with its own. *)
Definition fix_qualified_identifier (m : Module_) (names : list (string * text))
    : outcome (Module_ * list (string * text)) :=
  let names := imports_of m names in
  '(m, _) ← run_walker qualified_transformer (mkQualified names [] [] 0) m;
  mret (m, names).

(** ** Raw identifiers *)

Definition remove_raw_ident_prefix (name : text) : text :=
  if bool_decide (take 1 name = RAW_IDENTIFIER_PREFIX) then drop 1 name else name.

Section Raw.
Context (self : MutSelfMutWalker unit).
Notation expr := (self _ walk_expr).
Notation identifier := (self _ walk_identifier).

(** A name in place. *)
Notation raw_node := (map_node remove_raw_ident_prefix).
Definition raw_identifier (x : Identifier) : st unit Identifier :=
  mret (mkIdentifier (map (fun n => node_with_pos (remove_raw_ident_prefix (node n)) (node_pos n)) (names x))
          (pkgpath x) (id_ctx x)).
Definition raw_schema_attr (x : SchemaAttr Expr) : st unit (SchemaAttr Expr) :=
  d ← walk_list_mut (self _ walk_call_expr) (sa_decorators x);
  v ← walk_if_mut expr (sa_value x);
  mret (mkSchemaAttr (sa_doc x) (raw_node (sa_name x)) (sa_type_str x) (sa_op x) v (sa_is_optional x) d (sa_ty x)).
Definition raw_schema_stmt (x : SchemaStmt Expr Stmt) : st unit (SchemaStmt Expr Stmt) :=
  p ← walk_if_mut identifier (parent_name x);
  h ← walk_if_mut identifier (for_host_name x);
  a ← walk_if_mut (self _ walk_arguments) (sc_args x);
  i ← walk_if_mut (walk_signature_value self) (sc_index_signature x);
  m ← walk_list_mut identifier (sc_mixins x);
  d ← walk_list_mut (self _ walk_call_expr) (sc_decorators x);
  c ← walk_list_mut (self _ walk_check_expr) (sc_checks x);
  b ← walk_list_mut (self _ walk_stmt) (sc_body x);
  mret (mkSchemaStmt (sc_doc x) (raw_node (sc_name x)) p h (sc_is_mixin x) (sc_is_protocol x) a m b d c i).
Definition raw_rule_stmt (x : RuleStmt Expr) : st unit (RuleStmt Expr) :=
  p ← walk_list_mut identifier (parent_rules x);
  d ← walk_list_mut (self _ walk_call_expr) (ru_decorators x);
  c ← walk_list_mut (self _ walk_check_expr) (ru_checks x);
  a ← walk_if_mut (self _ walk_arguments) (ru_args x);
  h ← walk_if_mut identifier (ru_for_host_name x);
  mret (mkRuleStmt (ru_doc x) (raw_node (ru_name x)) p d c a h).
Definition raw_import_stmt (x : ImportStmt) : st unit ImportStmt :=
  mret (mkImportStmt (remove_raw_ident_prefix (im_path x)) (rawpath x) (remove_raw_ident_prefix (im_name x))
          (option_map remove_raw_ident_prefix (asname x)) (pkg_name x)).
End Raw.

(** [impl MutSelfMutWalker for RawIdentifierTransformer]. *)
Definition raw_transformer (self : MutSelfMutWalker unit) : MutSelfMutWalker unit := fun A m =>
  match m in method A return A -> st unit A with
  | walk_identifier => raw_identifier
  | walk_schema_attr => raw_schema_attr self
  | walk_schema_stmt => raw_schema_stmt self
  | walk_rule_stmt => raw_rule_stmt self
  | walk_import_stmt => raw_import_stmt
  | m => default_method self _ m
  end.

Definition fix_raw_identifier_prefix (m : Module_) : outcome Module_ := fst <$> run_walker raw_transformer tt m.

(** ** What the transformers do *)

(** *** Raw identifiers: a structural map *)

Definition strip_identifier (x : Identifier) : Identifier :=
  mkIdentifier (map (map_node remove_raw_ident_prefix) (names x)) (pkgpath x) (id_ctx x).
Definition strip_import (x : ImportStmt) : ImportStmt :=
  mkImportStmt (remove_raw_ident_prefix (im_path x)) (rawpath x) (remove_raw_ident_prefix (im_name x))
    (option_map remove_raw_ident_prefix (asname x)) (pkg_name x).
(** Every identifier, every name of a schema, rule or attribute and every import without its
    prefix, and nothing else. *)
Definition stripped : Changes := {|
  on_identifier := strip_identifier; on_type := id; on_schema_name := remove_raw_ident_prefix;
  on_rule_name := remove_raw_ident_prefix; on_attr_name := remove_raw_ident_prefix; on_import := strip_import;
  on_entry := id; visits_keys := true |}.

Lemma raw_sound n self : Sound no_changes stripped any_state eq n self -> Sound no_changes stripped any_state eq (S n) (raw_transformer self).
Proof.
  intros Hself A m. destruct m; cbn [raw_transformer].
  all: try (apply default_method_sound; [typeclasses eauto|done|by cbn]).
  all: try solve [method_sound Hself].
  - intros x s _ _. unfold raw_import_stmt. apply wp_ret. cbv beta. split; [|done]. reflexivity.
  - intros x s _ _. unfold raw_identifier. apply wp_ret. split; [|done]. cbn. unfold strip_identifier. by f_equal.
Qed.

Lemma run_raw m : fix_raw_identifier_prefix m = Ok (map_module stripped m).
Proof.
  pose proof (dispatch_sound no_changes stripped any_state eq raw_transformer raw_sound (walk_fuel m) _ walk_module m tt I) as H.
  cbn [height_at] in H. unfold walk_fuel in H. specialize (H ltac:(lia)). apply wp_ok in H as (m' & [] & E & Hm & _).
  unfold fix_raw_identifier_prefix, run_walker, walk_fuel. rewrite E. simpl. rewrite map_at_no_changes in Hm. by rewrite Hm.
Qed.

(** *** Qualified identifiers: nothing but package paths of dotted names *)

(** Every dotted name that begins with an import qualified. *)
Definition qualify (imports : list (string * text)) (x : Identifier) : Identifier :=
  match names x with
  | n :: _ :: _ => match im_get (encode (node n)) imports with Some p => set_pkgpath p x | None => x end
  | _ => x
  end.
Definition all_qualified (imports : list (string * text)) : Changes := {|
  on_identifier := qualify imports; on_type := id; on_schema_name := id; on_rule_name := id; on_attr_name := id;
  on_import := id; on_entry := id; visits_keys := true |}.

Definition imports_are (imports : list (string * text)) (q : QualifiedIdentifierTransformer) : Prop :=
  import_names q = imports.
(** The level is the same, and below the top level no name becomes global. *)
Record same_level (q q' : QualifiedIdentifierTransformer) : Prop := {
  same_depth : q_scope_level q' = q_scope_level q;
  same_globals : q_scope_level q <> 0%nat -> global_names q' = global_names q }.
#[export] Instance same_level_preorder : PreOrder same_level.
Proof.
  split; [by split|]. intros q q' q'' [H2 H3] [H2' H3']. split; [congruence|].
  intros Hq. rewrite H3' by congruence. auto.
Qed.

Section QualifiedSound.
Context (imports : list (string * text)).
Notation Sound := (Sound (all_qualified imports) (all_qualified imports) (imports_are imports) same_level).
Notation leaves m s Q := (wp m s (fun a s' => Q a /\ imports_are imports s' /\ same_level s s')).

Lemma insert_global_leaves again name pos s :
  imports_are imports s -> leaves (insert_global again name pos) s (fun _ => True).
Proof.
  intros Hs. unfold insert_global. do 2 (wp_step; wp_step). unfold when. wp_step; wp_step; split_and!; try done.
  split; [done|]. intros Hl. by destruct (q_scope_level s); rewrite ?andb_false_r in *.
Qed.
Lemma insert_targets_leaves b l : forall s,
  imports_are imports s -> leaves (insert_targets b l) s (fun _ => True).
Proof.
  induction l as [|t l IH]; intros s Hs; cbn [insert_targets]; [by wp_step|]. wp_step.
  eapply (wp_mono _ _ (fun _ s' => imports_are imports s' /\ same_level s s')).
  - destruct (names (node t)); [by wp_step|]. eapply wp_mono; [by apply insert_global_leaves|]. naive_solver.
  - intros _ s' [Hs' Hl]. eapply wp_mono; [by apply IH|]. intros ? s'' (_ & ? & ?). split_and!; [done..|by etrans].
Qed.
Lemma nested_leaves {A} (m : Q A) s (P : A -> Prop) :
  imports_are imports s ->
  (forall s, imports_are imports s -> leaves m s P) -> leaves (nested m) s P.
Proof.
  intros Hs Hm. unfold nested. do 2 wp_step. wp_step. eapply wp_mono; [by apply Hm|].
  intros a s' (Ha & Hs' & [Hd Hg]). do 3 wp_step. split_and!; [done..|].
  simpl in *. split; simpl; [by rewrite Hd|]. intros Hl. by apply Hg.
Qed.
Lemma locals_leaves f s : imports_are imports s ->
  leaves (modify (fun q => set_local_vars (f q) q)) s (fun _ => True).
Proof. intros Hs. wp_step. by split_and!. Qed.

Lemma nested_list {A} (h : A -> nat) f1 f2 n (m : A -> Q A) l s :
  imports_are imports s -> walks (imports_are imports) same_level h f1 f2 n m -> (height_list h l < n)%nat ->
  leaves (nested (walk_list_mut m l)) s (fun l' => map (map_node f1) l' = map (map_node f2) l).
Proof. intros Hs Hm Hl. apply nested_leaves; [done|]. intros s' Hs'. by eapply (walks_list _ _ h f1 f2 n m). Qed.

Local Ltac part Hself :=
  first [ walk_part Hself
        | eapply wp_mono; [first [by apply insert_global_leaves | by apply insert_targets_leaves | by apply locals_leaves]
                          |intros [] ? (_ & ? & ?)]
        | eapply wp_mono; [eapply nested_list; [eassumption|exact (Hself _ _)|low]
                          |intros ? ? (? & ? & ?); cbn [map_at] in *] ].
Local Ltac own_method Hself :=
  intros x s HI Hx; open_height Hx;
  lazymatch goal with |- wp ?m _ _ => let c := head m in unfold c end;
  repeat (wp_step; part Hself); apply wp_ret; split; [same_node|split; [done|same_state]].

Lemma qualified_sound n self : Sound n self -> Sound (S n) (qualified_transformer self).
Proof.
  intros Hself A m. destruct m; cbn [qualified_transformer].
  all: try (apply default_method_sound; [typeclasses eauto|done|by cbn]).
  all: try solve [own_method Hself].
  - intros x s HI Hx. unfold qualified_aug_assign_stmt. destruct (names (node (aug_target x))); [by apply wp_ret|].
    open_height Hx. repeat (wp_step; part Hself). apply wp_ret. split; [same_node|split; [done|same_state]].
  - intros x s HI Hx. unfold qualified_schema_stmt. open_height Hx. do 4 (wp_step; part Hself).
    eapply wp_mono.
    + eapply (nested_leaves _ _ (fun x' => map_at (all_qualified imports) walk_schema_stmt x' =
        map_at (all_qualified imports) walk_schema_stmt x)); [done|]. intros s0 Hs0.
      repeat (wp_step; part Hself). apply wp_ret. split; [same_node|split; [done|same_state]].
    + intros x' q' (Hx' & Hs' & Hl). split_and!; [done..|]. same_state.
  - intros x s HI _. unfold qualified_identifier. cbn [map_at on_identifier all_qualified].
    destruct (names x) as [|n1 [|n2 l]] eqn:En; [by apply wp_ret|by apply wp_ret|]. do 3 wp_step. split_and!; [|done..].
    unfold qualify, id. unfold imports_are in HI. rewrite HI, En.
    destruct (_ && _); [|by rewrite En].
    destruct (im_get (encode (node n1)) imports) as [p|] eqn:Ep; simpl; by rewrite En, Ep.
Qed.
End QualifiedSound.

Lemma run_qualified m imports : exists m' imports',
  imports' = imports_of m imports /\ fix_qualified_identifier m imports = Ok (m', imports') /\
  map_module (all_qualified imports') m' = map_module (all_qualified imports') m.
Proof.
  set (imports' := imports_of m imports).
  pose proof (dispatch_sound _ _ _ _ _ (qualified_sound imports') (walk_fuel m) _ walk_module m
    (mkQualified imports' [] [] 0) eq_refl) as H.
  cbn [height_at] in H. unfold walk_fuel in H. specialize (H ltac:(lia)). apply wp_ok in H as (m' & q & E & Hm & _).
  exists m', imports'. split_and!; [done| |done].
  unfold fix_qualified_identifier, run_walker, walk_fuel. fold imports'. cbv zeta. by rewrite E.
Qed.
