(* ===== verification/PreConfig.v ===== *)
(** * Configurations before the resolution

    [kclvm/sema/src/pre_process/config.rs]: dotted keys as nested configurations, and the
    merge of the configurations that the main package declares under one name. *)

From S2P Require Import Prelude MachineInt State Floats Chars Utf8 TypeData.
From S2P Require Import Ast Resolver ResolverGlobal.
From S2P Require Import Walker WalkerLaws WalkerSound PreIdentifier.

Definition NAME_NONE_BUCKET_KEY : text := txt "$name_none".

(** ** Dotted keys *)

(** One configuration for each name, from the last to the second; the operation of the entry
    is that of the last name. *)
Fixpoint nest_names (key : Node Expr) (op : ConfigEntryOperation) (is_last_item : bool) (l : list (Node text))
    (value : Node Expr) : Node Expr :=
  match l with
  | [] => value
  | name :: l =>
      let entry_value := mkConfigEntry (Some (with_node (EIdentifier (mkIdentifier [name] [] Load)) key)) value
        (if is_last_item then op else OpUnion) (-1) in
      nest_names key op false l (with_node (EConfig (mkConfigExpr [with_node entry_value key])) value)
  end.
(** [ConfigNestAttrTransformer::walk_config_entry]. *)
Definition nest_config_entry (x : ConfigEntry Expr) : ConfigEntry Expr :=
  match ce_key x with
  | Some key =>
      match node key with
      | EIdentifier identifier =>
          match names identifier with
          | first :: (_ :: _) as rest =>
              mkConfigEntry (Some (with_node (EIdentifier (mkIdentifier [first] (pkgpath identifier) (id_ctx identifier))) key))
                (nest_names key (operation x) true (rev rest) (ce_value x)) OpUnion (insert_index x)
          | _ => x
          end
      | _ => x
      end
  | None => x
  end.

Section Nest.
Context (self : MutSelfMutWalker unit).
Notation expr := (self _ walk_expr).

Definition nest_entry_value (x : ConfigEntry Expr) : st unit (ConfigEntry Expr) :=
  let x := nest_config_entry x in
  v ← walk_node expr (ce_value x);
  mret (mkConfigEntry (ce_key x) v (operation x) (insert_index x)).
Definition nest_config_expr (x : ConfigExpr Expr) : st unit (ConfigExpr Expr) :=
  l ← walk_list_mut nest_entry_value (items x); mret (mkConfigExpr l).
Definition nest_config_if_entry_expr (x : ConfigIfEntryExpr Expr) : st unit (ConfigIfEntryExpr Expr) :=
  l ← walk_list_mut nest_entry_value (ci_items x);
  o ← walk_if_mut expr (ci_orelse x);
  mret (mkConfigIfEntryExpr (ci_if_cond x) l o).
End Nest.

(** [impl MutSelfMutWalker for ConfigNestAttrTransformer]. *)
Definition nest_transformer (self : MutSelfMutWalker unit) : MutSelfMutWalker unit := fun A m =>
  match m in method A return A -> st unit A with
  | walk_config_expr => nest_config_expr self
  | walk_config_if_entry_expr => nest_config_if_entry_expr self
  | m => default_method self _ m
  end.
Definition fix_config_expr_nest_attr (m : Module_) : outcome Module_ := fst <$> run_walker nest_transformer tt m.

(** ** The merge *)

Notation Entry := (Node (ConfigEntry Expr)).

(** The name under which an entry is collected. *)
Definition bucket_name (x : ConfigEntry Expr) : text :=
  match ce_key x with
  | Some key => match node key with
                | EIdentifier identifier => get_name identifier
                | EStringLit string_lit => sl_value string_lit
                | _ => NAME_NONE_BUCKET_KEY
                end
  | None => NAME_NONE_BUCKET_KEY
  end.
Definition is_override (x : ConfigEntry Expr) : bool := match operation x with OpOverride => true | _ => false end.
(** An entry that overrides clears those before it. *)
Definition into_bucket (bucket : list (string * list Entry)) (entry : Entry) : list (string * list Entry) :=
  let name := encode (bucket_name (node entry)) in
  match im_get name bucket with
  | Some values => im_insert name ((if is_override (node entry) then [] else values) ++ [entry]) bucket
  | None => im_insert name [entry] bucket
  end.
Definition bucketed (entries : list Entry) : list Entry := concat (map snd (fold_left into_bucket entries [])).

(** The items of a configuration, and of the configuration of a schema, replaced. *)
Definition with_config (x : SchemaExpr Expr) (c : Node Expr) : SchemaExpr Expr :=
  mkSchemaExpr (se_name x) (se_args x) (kwargs x) c.
Definition with_value (x : ConfigEntry Expr) (v : Node Expr) : ConfigEntry Expr :=
  mkConfigEntry (ce_key x) v (operation x) (insert_index x).
Definition update_config (f : list Entry -> outcome (list Entry)) (e : Node Expr) : outcome (Node Expr) :=
  match node e with
  | EConfig c => l ← f (items c); mret (with_node (EConfig (mkConfigExpr l)) e)
  | _ => mret e
  end.
Definition update_value (f : list Entry -> outcome (list Entry)) (v : Node Expr) : outcome (Node Expr) :=
  match node v with
  | ESchema s => c ← update_config f (se_config s); mret (with_node (ESchema (with_config s c)) v)
  | _ => update_config f v
  end.

(** With fuel for the nesting of the configurations. *)
Fixpoint unify_config_entries (fuel : nat) (entries : list Entry) : outcome (list Entry) :=
  match fuel with
  | O => Panic out_of_fuel
  | S fuel =>
      mapM (fun entry =>
        v ← update_value (unify_config_entries fuel) (ce_value (node entry));
        mret (with_node (with_value (node entry) v) entry)) (bucketed entries)
  end.
Definition height_values (entries : list Entry) : nat :=
  max_of (map (fun e => height (node (ce_value (node e)))) entries).
Definition unify_entries (entries : list Entry) : outcome (list Entry) :=
  unify_config_entries (S (height_values entries)) entries.

(** *** Step 1: the declarations of each name *)

Inductive ConfigMergeKind := MergeOverride | MergeUnion.
(** The file, the index of its module in the main package, that of the statement in the
    module, and the kind. *)
Notation declaration := (text * nat * nat * ConfigMergeKind)%type.
Definition declarations := list (string * list declaration).

Definition enumerate {A} (l : list A) : list (nat * A) := imap pair l.

Definition declare_union (name : text) (d : declaration) (m : declarations) : declarations :=
  match im_get (encode name) m with
  | Some ds => im_insert (encode name) (ds ++ [d]) m
  | None => im_insert (encode name) [d] m
  end.
(** Only a private name is declared again. *)
Definition declare_override (name : text) (d : declaration) (m : declarations) : declarations :=
  match im_get (encode name) m with
  | Some ds => if is_private_field (encode name) then im_insert (encode name) [d] m else m
  | None => im_insert (encode name) [d] m
  end.
Definition collect_stmt (file : text) (id : nat) (m : declarations) (s : nat * Node Stmt) : declarations :=
  match node s.2 with
  | SUnification x =>
      match names (node (uni_target x)) with
      | name :: _ => declare_union (node name) (file, id, s.1, MergeUnion) m
      | [] => m
      end
  | SAssign x =>
      if is_schema_value (as_value x) then
        fold_left (fun m target =>
          match names (node target) with
          | [name] => declare_override (node name) (file, id, s.1, MergeOverride) m
          | _ => m
          end) (targets x) m
      else m
  | _ => m
  end.
Definition collect_module (m : declarations) (x : nat * Module_) : declarations :=
  fold_left (collect_stmt (mo_filename x.2) x.1) (enumerate (mo_body x.2)) m.
Definition collect_declarations (modules : list Module_) : declarations :=
  fold_left collect_module (enumerate modules) [].

(** *** Step 2: the merge into the last one *)

Definition mismatch : string := "mismatch ast node and config merge kind".
Definition config_items (e : Node Expr) : list Entry := match node e with EConfig c => items c | _ => [] end.
Definition set_config_items (l : list Entry) (e : Node Expr) : Node Expr :=
  match node e with EConfig _ => with_node (EConfig (mkConfigExpr l)) e | _ => e end.

Definition items_of (kind : ConfigMergeKind) (s : Node Stmt) : outcome (list Entry) :=
  match node s, kind with
  | SUnification x, MergeUnion => mret (config_items (se_config (node (uni_value x))))
  | SAssign x, MergeOverride =>
      mret (match node (as_value x) with ESchema schema_expr => config_items (se_config schema_expr) | _ => [] end)
  | _, _ => Panic mismatch
  end.
(** [unify_config_entries(&items)] is called where there is a configuration. *)
Definition store_items (kind : ConfigMergeKind) (l : list Entry) (s : Node Stmt) : outcome (Node Stmt) :=
  match node s, kind with
  | SUnification x, MergeUnion =>
      c ← update_config (fun _ => unify_entries l) (se_config (node (uni_value x)));
      mret (with_node (SUnification (mkUnificationStmt (uni_target x)
        (with_node (with_config (node (uni_value x)) c) (uni_value x)))) s)
  | SAssign x, MergeOverride =>
      match node (as_value x) with
      | ESchema schema_expr =>
          c ← update_config (fun _ => unify_entries l) (se_config schema_expr);
          mret (with_node (SAssign (mkAssignStmt (targets x)
            (with_node (ESchema (with_config schema_expr c)) (as_value x)) (as_type_annotation x) (as_ty x))) s)
      | _ => mret s
      end
  | _, _ => Panic mismatch
  end.

Definition set_body (b : list (Node Stmt)) (m : Module_) : Module_ :=
  mkModule (mo_filename m) (mo_pkg m) (mo_doc m) (mo_name m) b (mo_comments m).
Definition is_module (file : text) (id : nat) (module_id : nat) (m : Module_) : bool :=
  bool_decide (mo_filename m = file) && (module_id =? id)%nat.

Definition declared_items (modules : list Module_) (d : declaration) : outcome (list Entry) :=
  let '(file, id, index, kind) := d in
  ls ← mapM (fun x =>
    if is_module file id x.1 x.2 then
      match mo_body x.2 !! index with
      | Some stmt => items_of kind stmt
      | None => Panic "called `Option::unwrap()` on a `None` value"
      end
    else mret []) (enumerate modules);
  mret (concat ls).
(** The first such module. *)
Fixpoint store_declared (d : declaration) (l : list Entry) (modules : list (nat * Module_)) : outcome (list Module_) :=
  let '(file, id, index, kind) := d in
  match modules with
  | [] => mret []
  | x :: modules =>
      if is_module file id x.1 x.2 then
        match mo_body x.2 !! index with
        | Some stmt => stmt ← store_items kind l stmt; mret (set_body (<[index := stmt]> (mo_body x.2)) x.2 :: map snd modules)
        | None => mret (x.2 :: map snd modules)
        end
      else modules ← store_declared d l modules; mret (x.2 :: modules)
  end.
Definition merge_name (modules : list Module_) (index_list : list declaration) : outcome (list Module_) :=
  match last index_list with
  | Some d =>
      if (1 <? length index_list)%nat then
        ls ← mapM (declared_items modules) index_list;
        store_declared d (concat ls) (enumerate modules)
      else mret modules
  | None => mret modules
  end.
Fixpoint merge_names (m : declarations) (modules : list Module_) : outcome (list Module_) :=
  match m with
  | [] => mret modules
  | (_, index_list) :: m => modules ← merge_name modules index_list; merge_names m modules
  end.

(** *** Step 3: the others deleted *)

Definition delete_indices (m : declarations) (x : nat * Module_) : list nat :=
  concat (map (fun p : string * list declaration =>
    concat (map (fun d : declaration =>
      let '(file, id, index, _) := d in if is_module file id x.1 x.2 then [index] else [])
      (removelast p.2))) m).
Definition delete_redundant (m : declarations) (modules : list Module_) : list Module_ :=
  map (fun x => set_body (map snd (filter (fun s => s.1 ∉ delete_indices m x) (enumerate (mo_body x.2)))) x.2)
    (enumerate modules).

(** [ConfigMergeTransformer::merge]. *)
Definition merge_program (program : Program_) : outcome Program_ :=
  match im_get MAIN_PKG (pkgs program) with
  | Some modules =>
      let m := collect_declarations modules in
      modules ← merge_names m modules;
      mret (mkProgram (root program) (im_insert MAIN_PKG (delete_redundant m modules) (pkgs program)))
  | None => mret program
  end.
