(* ===== verification/PreConfigLaws.v ===== *)
(** * What the preprocessing of configurations does

    Dotted keys are nested in place, by a structural map; the merge of the main package is
    specified by position. *)

From S2P Require Import Prelude MachineInt State Floats Chars Utf8 TypeData.
From S2P Require Import Ast Resolver ResolverGlobal.
From S2P Require Import Walker WalkerLaws WalkerSound PreIdentifier PreConfig.

(** ** Dotted keys: a structural map *)

(** Every entry of a configuration nested, and nothing else. *)
Definition nested_keys : Changes := {|
  on_identifier := id; on_type := id; on_schema_name := id; on_rule_name := id; on_attr_name := id; on_import := id;
  on_entry := nest_config_entry; visits_keys := false |}.

Lemma height_pos e : (2 <= height e)%nat.
Proof.
  destruct e; cbn [height]; try lia; apply le_n_S;
    lazymatch goal with |- (1 <= ?t)%nat => let c := head t in unfold c end; lia.
Qed.

Section NestNames.
Context (key : Node Expr).

Lemma nest_names_height l : forall op b v,
  height (node (nest_names key op b l v)) = (2 * length l + height (node v))%nat.
Proof.
  induction l as [|n l IH]; intros op b v; cbn [nest_names]; [done|]. rewrite IH. cbn [with_node node length height].
  unfold height_config_expr. cbn [items height_list map node max_of foldr height_list]. unfold height_list, height_entry.
  cbn. pose proof (height_pos (node v)). unfold height_node. lia.
Qed.

(** What is nested is walked as a whole; the names in between are left alone. *)
Lemma map_nest_names l : forall op b v,
  map_node (map_expr nested_keys) (nest_names key op b l v) = nest_names key op b l (map_node (map_expr nested_keys) v).
Proof. induction l as [|n l IH]; intros op b v; cbn [nest_names]; [done|]. by rewrite IH. Qed.
End NestNames.

Lemma nest_config_entry_walked x :
  let y := nest_config_entry x in
  mkConfigEntry (ce_key y) (map_node (map_expr nested_keys) (ce_value y)) (operation y) (insert_index y) =
  map_entry nested_keys (map_expr nested_keys) x.
Proof.
  unfold map_entry. cbn [on_entry visits_keys nested_keys]. destruct x as [k v op i]. unfold nest_config_entry.
  cbn [ce_key ce_value operation insert_index].
  destruct k as [k|]; [|done]. destruct (node k) as [x| | | | | | | | | | | | | | | | | | | | | | | | | | | |]; try done.
  destruct (names x) as [|n1 [|n2 l]]; [done..|]. cbn [ce_key ce_value operation insert_index].
  by rewrite map_nest_names.
Qed.

Lemma nest_config_entry_height x : (height (node (ce_value (nest_config_entry x))) <= height_entry height x)%nat.
Proof.
  unfold height_entry, nest_config_entry, height_node, height_opt. destruct x as [k v op i]. cbn [ce_key ce_value].
  destruct k as [k|]; cbn [ce_value]; [|lia]. destruct (node k) as [x| | | | | | | | | | | | | | | | | | | | | | | | | | | |] eqn:E; cbn [ce_value]; try lia.
  destruct (names x) as [|n1 [|n2 l]] eqn:En; cbn [ce_value]; try lia.
  rewrite nest_names_height, length_rev. unfold tail_names. rewrite ?E, En. cbn [length pred]. lia.
Qed.

Lemma nest_entry_sound n self : Sound no_changes nested_keys any_state eq n self ->
  walks any_state eq (height_entry height) id (map_entry nested_keys (map_expr nested_keys)) n (nest_entry_value self).
Proof.
  intros Hself x s HI Hx. unfold nest_entry_value. cbv zeta. wp_step. unfold walk_node. wp_step.
  eapply wp_mono; [apply (Hself _ walk_expr); [done|cbn [height_at]; pose proof (nest_config_entry_height x); lia]|].
  intros v s' (Hv & HI' & Hs). cbn [map_at] in Hv.
  do 2 wp_step. split; [|done]. unfold id. rewrite <- nest_config_entry_walked. cbv zeta. f_equal.
  unfold map_node. f_equal. rewrite <- Hv. symmetry. apply (map_at_no_changes walk_expr).
Qed.

Lemma option_no_changes (o : option (Node Expr)) : option_map (map_node (map_expr no_changes)) o = o.
Proof. apply (keeps_opt (S (height_opt height o)) height); [intros e _; apply (map_at_no_changes walk_expr)|lia]. Qed.

Lemma nest_sound n self : Sound no_changes nested_keys any_state eq n self ->
  Sound no_changes nested_keys any_state eq (S n) (nest_transformer self).
Proof.
  intros Hself A m. destruct m; cbn [nest_transformer].
  all: try (apply default_method_sound; [typeclasses eauto|done|by cbn]).
  - intros x s HI Hx. open_height Hx. unfold nest_config_if_entry_expr. wp_step.
    eapply wp_mono; [eapply (walks_list _ _ (height_entry height)); [by apply nest_entry_sound|done|lia]|].
    intros l s' (Hl & HI' & Hs). wp_step. walk_part Hself. apply wp_ret. split; [|split; [done|same_state]].
    etrans; [apply (map_at_no_changes walk_config_if_entry_expr)|]. cbn [map_at]. unfold map_config_if_entry_expr.
    rewrite list_id in Hl. cbn [visits_keys nested_keys]. f_equal; [done|].
    by rewrite option_no_changes in H.
  - intros x s HI Hx. open_height Hx. unfold nest_config_expr. wp_step.
    eapply wp_mono; [eapply (walks_list _ _ (height_entry height)); [by apply nest_entry_sound|done|lia]|].
    intros l s' (Hl & HI' & Hs). wp_step. split; [|done].
    etrans; [apply (map_at_no_changes walk_config_expr)|]. cbn [map_at]. unfold map_config_expr. by rewrite list_id in Hl; f_equal.
  Unshelve. all: typeclasses eauto.
Qed.

Lemma run_nest m : fix_config_expr_nest_attr m = Ok (map_module nested_keys m).
Proof.
  pose proof (dispatch_sound no_changes nested_keys any_state eq nest_transformer nest_sound (walk_fuel m) _ walk_module m tt I) as H.
  cbn [height_at] in H. unfold walk_fuel in H. specialize (H ltac:(lia)). apply wp_ok in H as (m' & [] & E & Hm & _).
  unfold fix_config_expr_nest_attr, run_walker, walk_fuel. rewrite E. simpl. rewrite map_at_no_changes in Hm. by rewrite Hm.
Qed.
