(* ===== verification/MergeLaws.v ===== *)
(** * The entries of a merged configuration

    The entries of each name stay together, in the order of the first ones; of a name that is
    overridden those from the last override on stay.  So do those of the configurations
    within. *)

From S2P Require Import Prelude MachineInt State Floats Chars Utf8 TypeData.
From S2P Require Import Ast Resolver ResolverGlobal.
From S2P Require Import Walker WalkerLaws PreIdentifier PreConfig PreConfigLaws.

(** ** Tables by name *)

(** The names in the order of their first occurrence. *)
Fixpoint first_names (l : list string) : list string :=
  match l with [] => [] | n :: l => n :: filter (.≠ n) (first_names l) end.

Lemma elem_of_first_names n l : n ∈ first_names l <-> n ∈ l.
Proof.
  induction l as [|x l IH]; cbn [first_names]; [done|]. rewrite !elem_of_cons, list_elem_of_filter, IH.
  destruct (decide (n = x)); naive_solver.
Qed.
Lemma NoDup_first_names l : NoDup (first_names l).
Proof.
  induction l as [|x l IH]; cbn [first_names]; constructor; [rewrite list_elem_of_filter; naive_solver|].
  by apply NoDup_filter.
Qed.
Lemma first_names_snoc l x :
  first_names (l ++ [x]) = if decide (x ∈ l) then first_names l else first_names l ++ [x].
Proof.
  induction l as [|y l IH]; cbn [app first_names]; [by rewrite decide_False by set_solver|]. rewrite IH.
  destruct (decide (x = y)) as [->|Hxy].
  - rewrite (decide_True (P := y ∈ y :: l)) by set_solver. case_decide; [done|].
    by rewrite filter_app, filter_cons_False, filter_nil, app_nil_r by naive_solver.
  - destruct (decide (x ∈ l)); [rewrite decide_True by set_solver|rewrite decide_False by set_solver].
    + done.
    + by rewrite filter_app, filter_cons_True, filter_nil by done.
Qed.

(** A table over the names. *)
Section Tables.
Context {V : Type}.
Implicit Types (f : string -> V).

Lemma im_get_map f k l : im_get k (map (fun n => (n, f n)) l) = if decide (k ∈ l) then Some (f k) else None.
Proof.
  induction l as [|n l IH]; simpl; [done|]. case_bool_decide as E.
  - subst. by rewrite decide_True by set_solver.
  - rewrite IH. do 2 case_decide; set_solver.
Qed.
Lemma im_insert_map f g k v l :
  NoDup l -> g k = v -> (forall n, n ∈ l -> n <> k -> g n = f n) ->
  im_insert k v (map (fun n => (n, f n)) l) = map (fun n => (n, g n)) (if decide (k ∈ l) then l else l ++ [k]).
Proof.
  induction l as [|n l IH]; intros Hl Hk Hf; simpl; [by rewrite Hk|].
  apply NoDup_cons in Hl as [Hn Hl']. case_bool_decide as E.
  - subst. rewrite decide_True by set_solver. simpl. f_equal.
    apply map_ext_in. intros n' Hn'%list_elem_of_In. rewrite Hf; [done|by right|congruence].
  - rewrite IH by set_solver. case_decide.
    + rewrite decide_True by set_solver. simpl. by rewrite Hf by set_solver.
    + rewrite decide_False by set_solver. simpl. by rewrite Hf by set_solver.
Qed.
End Tables.

(** ** The entries that stay *)

(** From the last override on. *)
Fixpoint survivors {A} (overrides : A -> bool) (l : list A) : list A :=
  match l with [] => [] | x :: l => if existsb overrides l then survivors overrides l else x :: l end.

Lemma survivors_snoc {A} (o : A -> bool) l x :
  survivors o (l ++ [x]) = if o x then [x] else survivors o l ++ [x].
Proof.
  induction l as [|y l IH]; cbn [app survivors existsb]; [by destruct (o x)|].
  rewrite existsb_app, IH. cbn [existsb]. rewrite orb_false_r. destruct (o x); [by rewrite orb_true_r|].
  rewrite orb_false_r. by destruct (existsb o l).
Qed.
Lemma survivors_nil {A} (o : A -> bool) l : survivors o l = [] -> l = [].
Proof.
  induction l as [|x l IH]; cbn [survivors]; [done|]. destruct (existsb o l) eqn:E; [|done].
  intros H. by rewrite (IH H) in E.
Qed.

Definition entry_key (e : Entry) : string := encode (bucket_name (node e)).
Definition entry_overrides (e : Entry) : bool := is_override (node e).
Definition entries_named (n : string) (l : list Entry) : list Entry := filter (fun e => entry_key e = n) l.
Definition grouped (l : list Entry) : list Entry :=
  concat (map (fun n => survivors entry_overrides (entries_named n l)) (first_names (map entry_key l))).

Lemma buckets_spec l :
  fold_left into_bucket l [] =
  map (fun n => (n, survivors entry_overrides (entries_named n l))) (first_names (map entry_key l)).
Proof.
  induction l as [|e l IH] using rev_ind; [done|].
  rewrite fold_left_app. cbn [fold_left]. rewrite IH. unfold into_bucket. fold (entry_key e).
  rewrite im_get_map, map_app. cbn [map]. rewrite first_names_snoc.
  assert (Hother : forall n, n <> entry_key e -> entries_named n (l ++ [e]) = entries_named n l).
  { intros n Hn. unfold entries_named. by rewrite filter_app, filter_cons_False, filter_nil, app_nil_r by congruence. }
  assert (Hown : entries_named (entry_key e) (l ++ [e]) = entries_named (entry_key e) l ++ [e]).
  { unfold entries_named. by rewrite filter_app, filter_cons_True, filter_nil by done. }
  assert (Hin : entry_key e ∈ first_names (map entry_key l) <-> entry_key e ∈ map entry_key l)
    by apply elem_of_first_names.
  destruct (decide (entry_key e ∈ map entry_key l)) as [H|H].
  - rewrite decide_True by tauto. rewrite (im_insert_map _ (fun n => survivors entry_overrides (entries_named n (l ++ [e])))).
    + by rewrite decide_True by tauto.
    + apply NoDup_first_names.
    + rewrite Hown, survivors_snoc. unfold entry_overrides at 1. by destruct (is_override (node e)).
    + intros n _ Hn. by rewrite Hother.
  - rewrite decide_False by tauto. rewrite (im_insert_map _ (fun n => survivors entry_overrides (entries_named n (l ++ [e])))).
    + by rewrite decide_False by tauto.
    + apply NoDup_first_names.
    + rewrite Hown. assert (entries_named (entry_key e) l = []) as ->; [|done].
      unfold entries_named.
      destruct (filter _ l) as [|e' l'] eqn:E; [done|]. exfalso. apply H.
      assert (e' ∈ filter (fun e0 => entry_key e0 = entry_key e) l) as [He Hl]%list_elem_of_filter by (rewrite E; set_solver).
      rewrite <- He. by apply list_elem_of_fmap_2.
    + intros n _ Hn. by rewrite Hother.
Qed.
Lemma bucketed_grouped l : bucketed l = grouped l.
Proof. unfold bucketed, grouped. by rewrite buckets_spec, map_map. Qed.

Lemma survivors_elem {A} (o : A -> bool) x l : x ∈ survivors o l -> x ∈ l.
Proof.
  induction l as [|y l IH]; cbn [survivors]; [done|]. destruct (existsb o l); [|done]. intros H. right. auto.
Qed.
Lemma grouped_elem e l : e ∈ grouped l -> e ∈ l.
Proof.
  intros He. apply list_elem_of_In, in_concat in He as (es & Hes & He).
  apply in_map_iff in Hes as (n & <- & _). apply list_elem_of_In, survivors_elem, list_elem_of_filter in He. apply He.
Qed.

(** ** Unified configurations *)

(** The entries grouped, and so those of the configuration that an entry has for its value,
    or for that of its schema. *)
Inductive Unified : list Entry -> list Entry -> Prop :=
| unified_entries l l' : Forall2 UnifiedEntry (grouped l) l' -> Unified l l'
with UnifiedEntry : Entry -> Entry -> Prop :=
| unified_entry e v : UnifiedValue (ce_value (node e)) v -> UnifiedEntry e (with_node (with_value (node e) v) e)
with UnifiedValue : Node Expr -> Node Expr -> Prop :=
| unified_schema v s c :
    node v = ESchema s -> UnifiedConfig (se_config s) c -> UnifiedValue v (with_node (ESchema (with_config s c)) v)
| unified_other v v' : (forall s, node v <> ESchema s) -> UnifiedConfig v v' -> UnifiedValue v v'
with UnifiedConfig : Node Expr -> Node Expr -> Prop :=
| unified_config v c l :
    node v = EConfig c -> Unified (items c) l -> UnifiedConfig v (with_node (EConfig (mkConfigExpr l)) v)
| unified_plain v : (forall c, node v <> EConfig c) -> UnifiedConfig v v.

Lemma mapM_total {A B} (f : A -> outcome B) (P : A -> B -> Prop) l :
  (forall x, x ∈ l -> exists y, f x = Ok y /\ P x y) -> exists l', mapM f l = Ok l' /\ Forall2 P l l'.
Proof.
  induction l as [|x l IH]; intros H; [by exists []|].
  destruct (H x) as (y & Hy & HP); [by left|]. destruct IH as (l' & Hl' & HF); [intros z Hz; apply H; by right|].
  exists (y :: l'). simpl. by rewrite Hy; simpl; rewrite Hl'; repeat constructor.
Qed.

Lemma height_values_elem e l : e ∈ l -> (height (node (ce_value (node e))) <= height_values l)%nat.
Proof.
  unfold height_values. induction l as [|x l IH]; [by intros ?%elem_of_nil|].
  intros [->|He]%elem_of_cons; simpl; [lia|]. apply IH in He. lia.
Qed.
Lemma height_items c : (S (height_values (items c)) < height (EConfig c))%nat.
Proof.
  cbn [height]. unfold height_config_expr. cbn [max_of foldr].
  assert (height_values (items c) <= height_list (height_entry height) (items c))%nat; [|lia].
  unfold height_values, height_list. induction (items c) as [|e l IH]; simpl; [done|].
  unfold height_entry at 1, height_node. lia.
Qed.

Section UnifyValue.
Context (fuel : nat) (IH : forall l, (height_values l < fuel)%nat ->
  exists l', unify_config_entries fuel l = Ok l' /\ Unified l l').

Lemma update_config_total v : (height (node v) <= fuel)%nat ->
  exists v', update_config (unify_config_entries fuel) v = Ok v' /\ UnifiedConfig v v'.
Proof.
  intros Hv. unfold update_config. destruct (node v) as [| | | | | | | | | | | | | | | |c| | | | | | | | | | | |] eqn:E;
    try (eexists; split; [done|]; apply unified_plain; congruence).
  pose proof (height_items c). destruct (IH (items c)) as (l & Hl & HU); [lia|]. rewrite Hl. simpl.
  eexists. split; [done|]. by eapply unified_config.
Qed.
Lemma update_value_total v : (height (node v) <= fuel)%nat ->
  exists v', update_value (unify_config_entries fuel) v = Ok v' /\ UnifiedValue v v'.
Proof.
  intros Hv. unfold update_value. pose proof (update_config_total v Hv) as (v' & Hv' & HU).
  destruct (node v) as [| | | | | | | | | | | | | | |s| | | | | | | | | | | | |] eqn:E;
    try (exists v'; split; [done|]; apply unified_other; [congruence|done]).
  destruct (update_config_total (se_config s)) as (c & Hc & HC).
  { cbn [height] in Hv. unfold height_schema_expr, height_node in Hv. cbn [max_of foldr] in Hv. lia. }
  rewrite Hc. simpl. eexists. split; [done|]. by eapply unified_schema.
Qed.
End UnifyValue.

Lemma unify_total fuel : forall l, (height_values l < fuel)%nat ->
  exists l', unify_config_entries fuel l = Ok l' /\ Unified l l'.
Proof.
  induction fuel as [|fuel IH]; intros l Hl; [lia|]. cbn [unify_config_entries].
  rewrite bucketed_grouped. destruct (mapM_total (fun entry =>
    v ← update_value (unify_config_entries fuel) (ce_value (node entry));
    mret (with_node (with_value (node entry) v) entry)) UnifiedEntry (grouped l)) as (l' & Hl' & HF).
  - intros e He%grouped_elem%height_values_elem.
    destruct (update_value_total fuel IH (ce_value (node e))) as (v & Hv & HU); [lia|].
    eexists. rewrite Hv. split; [done|]. by constructor.
  - exists l'. split; [done|]. by constructor.
Qed.
Lemma unify_entries_total l : exists l', unify_entries l = Ok l' /\ Unified l l'.
Proof. apply unify_total. lia. Qed.
