(* ===== verification/MergeSpec.v ===== *)
(** * The merge of the main package, by position

    Which declarations of a name stand, which of them are superseded, and what becomes of each
    statement. *)

From S2P Require Import Prelude MachineInt State Floats Chars Utf8 TypeData.
From S2P Require Import Ast Resolver ResolverGlobal.
From S2P Require Import Walker WalkerLaws PreIdentifier PreConfig PreConfigLaws MergeLaws.

(** ** Declarations *)

(** The names that a statement declares, with the declarations. *)
Definition events_stmt (file : text) (id : nat) (s : nat * Node Stmt) : list (string * declaration) :=
  match node s.2 with
  | SUnification x =>
      match names (node (uni_target x)) with
      | name :: _ => [(encode (node name), (file, id, s.1, MergeUnion))]
      | [] => []
      end
  | SAssign x =>
      if is_schema_value (as_value x) then
        concat (map (fun target => match names (node target) with
                                   | [name] => [(encode (node name), (file, id, s.1, MergeOverride))]
                                   | _ => []
                                   end) (targets x))
      else []
  | _ => []
  end.
Definition events_module (x : nat * Module_) : list (string * declaration) :=
  concat (map (events_stmt (mo_filename x.2) x.1) (enumerate (mo_body x.2))).
Definition events (modules : list Module_) : list (string * declaration) := concat (map events_module (enumerate modules)).

Definition kind_of (d : declaration) : ConfigMergeKind := d.2.
Definition is_union (d : declaration) : bool := match kind_of d with MergeUnion => true | MergeOverride => false end.

(** Those of a private name from the last assignment on; those of another name but for the
    assignments after the first declaration. *)
Definition standing (n : string) (l : list declaration) : list declaration :=
  if is_private_field n then survivors (fun d => negb (is_union d)) l
  else match l with [] => [] | d :: l => d :: filter is_union l end.
Definition events_named (n : string) (l : list (string * declaration)) : list declaration :=
  map snd (filter (fun e => e.1 = n) l).
(** The declarations of a name that are merged. *)
Definition declared (modules : list Module_) (n : string) : list declaration := standing n (events_named n (events modules)).
Definition declared_names (modules : list Module_) : list string := first_names (map fst (events modules)).

Lemma standing_snoc n l d :
  standing n (l ++ [d]) = if is_union d then standing n l ++ [d]
                          else match l with [] => [d] | _ => if is_private_field n then [d] else standing n l end.
Proof.
  unfold standing. destruct (is_private_field n) eqn:Hn.
  - rewrite survivors_snoc. destruct (is_union d); simpl; [done|]. by destruct l.
  - destruct l as [|d0 l]; simpl; [by destruct (is_union d)|]. rewrite filter_app.
    destruct (is_union d) eqn:E.
    + rewrite filter_cons_True, filter_nil; [done|by rewrite E].
    + rewrite filter_cons_False, filter_nil, app_nil_r; [done|rewrite E; by intros []].
Qed.
Lemma standing_nil n l : standing n l = [] <-> l = [].
Proof.
  unfold standing. destruct (is_private_field n); [|by destruct l]. split; [apply survivors_nil|by intros ->].
Qed.
(** Only the first one may be an assignment. *)
Lemma standing_tail n l : Forall is_union (tail (standing n l)).
Proof.
  induction l as [|d l IH] using rev_ind; [by destruct (is_private_field n) eqn:E; unfold standing; rewrite E|].
  rewrite standing_snoc. destruct (is_union d) eqn:Hd.
  - destruct (standing n l); simpl in *; [done|]. apply Forall_app. split; [done|]. constructor; [by rewrite Hd|done].
  - destruct l; [done|]. by destruct (is_private_field n).
Qed.
Lemma standing_last n l l' d : standing n l = l' ++ [d] -> l' <> [] -> is_union d = true.
Proof.
  intros E Hl'. pose proof (standing_tail n l) as H. rewrite E in H. destruct l' as [|d0 l']; [done|].
  simpl in H. apply Forall_app in H as [_ H]. rewrite Forall_singleton in H. by destruct (is_union d).
Qed.
Lemma standing_elem n l d : d ∈ standing n l -> d ∈ l.
Proof.
  unfold standing. destruct (is_private_field n); [apply survivors_elem|]. destruct l as [|d0 l]; [done|].
  rewrite !elem_of_cons, list_elem_of_filter. tauto.
Qed.

(** ** Step 1 *)

Definition declare (m : declarations) (e : string * declaration) : declarations :=
  match im_get e.1 m with
  | Some ds =>
      if is_union e.2 then im_insert e.1 (ds ++ [e.2]) m
      else if is_private_field e.1 then im_insert e.1 [e.2] m else m
  | None => im_insert e.1 [e.2] m
  end.

Lemma fold_left_concat {A B} (f : A -> B -> A) (ls : list (list B)) a :
  fold_left f (concat ls) a = fold_left (fun a l => fold_left f l a) ls a.
Proof. revert a. induction ls as [|l ls IH]; intros a; simpl; [done|]. by rewrite fold_left_app. Qed.
Lemma fold_left_map_ext {A B C} (f : A -> B -> A) (g : A -> C -> A) (h : C -> B) l :
  (forall a c, g a c = f a (h c)) -> forall a, fold_left g l a = fold_left f (map h l) a.
Proof. intros H. induction l as [|c l IH]; intros a; simpl; [done|]. by rewrite H, IH. Qed.

Lemma collect_stmt_events file id m s : collect_stmt file id m s = fold_left declare (events_stmt file id s) m.
Proof.
  unfold collect_stmt, events_stmt. destruct (node s.2) as [| |x|x| | | | | | |]; try done.
  - by destruct (names (node (uni_target x))).
  - destruct (is_schema_value (as_value x)); [|done]. rewrite fold_left_concat. apply fold_left_map_ext.
    intros m' t. by destruct (names (node t)) as [|n [|]].
Qed.
Lemma collect_events modules : collect_declarations modules = fold_left declare (events modules) [].
Proof.
  unfold collect_declarations, events. rewrite fold_left_concat. apply fold_left_map_ext. intros m x.
  unfold collect_module, events_module. rewrite fold_left_concat. apply fold_left_map_ext. intros m' s.
  apply collect_stmt_events.
Qed.

Lemma events_named_snoc n l e :
  events_named n (l ++ [e]) = if decide (e.1 = n) then events_named n l ++ [e.2] else events_named n l.
Proof.
  unfold events_named. rewrite filter_app, map_app. case_decide.
  - by rewrite filter_cons_True, filter_nil by done.
  - by rewrite filter_cons_False, filter_nil, app_nil_r by done.
Qed.
Lemma events_named_nil n l : events_named n l = [] <-> n ∉ map fst l.
Proof.
  unfold events_named. induction l as [|e l IH]; [set_solver|]. rewrite filter_cons. case_decide; simpl; [set_solver|].
  rewrite IH, not_elem_of_cons. naive_solver.
Qed.

Lemma declare_all l : fold_left declare l [] = map (fun n => (n, standing n (events_named n l))) (first_names (map fst l)).
Proof.
  induction l as [|e l IH] using rev_ind; [done|]. rewrite fold_left_app. cbn [fold_left]. rewrite IH. unfold declare.
  rewrite im_get_map, map_app. cbn [map]. rewrite first_names_snoc.
  pose proof (elem_of_first_names e.1 (map fst l)) as Hin.
  assert (Hother : forall n, n <> e.1 -> events_named n (l ++ [e]) = events_named n l)
    by (intros n Hn; by rewrite events_named_snoc, decide_False).
  assert (Hown : events_named e.1 (l ++ [e]) = events_named e.1 l ++ [e.2])
    by by rewrite events_named_snoc, decide_True.
  set (g := fun n => standing n (events_named n (l ++ [e]))).
  destruct (decide (e.1 ∈ map fst l)) as [H|H].
  - rewrite decide_True by tauto. assert (Hne : events_named e.1 l <> []) by (by intros Hn%events_named_nil; apply Hn).
    assert (Hg : forall v, g e.1 = v -> im_insert e.1 v
      (map (fun n => (n, standing n (events_named n l))) (first_names (map fst l))) =
      map (fun n => (n, g n)) (first_names (map fst l))).
    { intros v Hv. rewrite (im_insert_map _ g).
      - by rewrite decide_True by tauto. - apply NoDup_first_names. - done.
      - intros n _ Hn. unfold g. by rewrite Hother. }
    assert (Hv : g e.1 = if is_union e.2 then standing e.1 (events_named e.1 l) ++ [e.2]
                         else if is_private_field e.1 then [e.2] else standing e.1 (events_named e.1 l)).
    { unfold g. rewrite Hown, standing_snoc. by destruct (is_union e.2), (events_named e.1 l), (is_private_field e.1). }
    destruct (is_union e.2); [by apply Hg|]. destruct (is_private_field e.1); [by apply Hg|].
    apply map_ext_in. intros n Hn. f_equal. destruct (decide (n = e.1)) as [->|Hne']; [done|].
    unfold g. rewrite Hother by done. done.
  - rewrite decide_False by tauto. rewrite (im_insert_map _ g).
    + by rewrite decide_False by tauto.
    + apply NoDup_first_names.
    + unfold g. rewrite Hown. apply events_named_nil in H. rewrite H. unfold standing. by destruct (is_private_field e.1).
    + intros n _ Hn. unfold g. by rewrite Hother.
Qed.
Lemma collected modules :
  collect_declarations modules = map (fun n => (n, declared modules n)) (declared_names modules).
Proof. by rewrite collect_events, declare_all. Qed.
