(* ===== verification/MergeSound.v ===== *)
(** * The merge meets its specification

    Every declaration that stands is found where it was declared; the last of several is given
    the unified entries of all, and the others are deleted. *)

From S2P Require Import Prelude MachineInt State Floats Chars Utf8 TypeData.
From S2P Require Import Ast Resolver ResolverGlobal.
From S2P Require Import Walker WalkerLaws PreIdentifier PreConfig PreConfigLaws MergeLaws MergeSpec.

(** ** Lists with their indices *)

Lemma enumerate_lookup {A} (l : list A) k : enumerate l !! k = pair k <$> l !! k.
Proof. apply list_lookup_imap. Qed.
Lemma elem_of_enumerate {A} (l : list A) x : x ∈ enumerate l <-> l !! x.1 = Some x.2.
Proof.
  rewrite list_elem_of_lookup. split.
  - intros [k Hk]. rewrite enumerate_lookup in Hk. apply fmap_Some in Hk as (a & Ha & ->). done.
  - intros H. exists x.1. rewrite enumerate_lookup, H. by destruct x.
Qed.
Lemma enumerate_snd {A} (l : list A) : map snd (enumerate l) = l.
Proof.
  apply list_eq. intros k. change (map snd (enumerate l)) with (snd <$> enumerate l).
  rewrite list_lookup_fmap, enumerate_lookup. by destruct (l !! k).
Qed.
(** The list around an index. *)
Lemma enumerate_middle {A} (l : list A) k a : l !! k = Some a -> exists l1 l2,
  enumerate l = l1 ++ (k, a) :: l2 /\ map snd l1 = take k l /\ map snd l2 = drop (S k) l /\
  (forall x, x ∈ l1 \/ x ∈ l2 -> x.1 <> k /\ l !! x.1 = Some x.2).
Proof.
  intros Ha. assert (Hk : enumerate l !! k = Some (k, a)) by by rewrite enumerate_lookup, Ha.
  exists (take k (enumerate l)), (drop (S k) (enumerate l)). split_and!.
  - by rewrite take_drop_middle.
  - by rewrite <- firstn_map, enumerate_snd.
  - by rewrite <- skipn_map, enumerate_snd.
  - intros x [Hx|Hx]; apply list_elem_of_lookup in Hx as [j Hj].
    + apply lookup_take_Some in Hj as [Hj Hlt]. rewrite enumerate_lookup in Hj.
      apply fmap_Some in Hj as (b & Hb & ->). simpl. split; [lia|done].
    + rewrite lookup_drop, enumerate_lookup in Hj. apply fmap_Some in Hj as (b & Hb & ->). simpl. split; [lia|done].
Qed.

Lemma mapM_app {A B} (f : A -> outcome B) l1 l2 :
  mapM f (l1 ++ l2) = (k1 ← mapM f l1; k2 ← mapM f l2; mret (k1 ++ k2)).
Proof.
  induction l1 as [|x l1 IH]; simpl.
  - by destruct (mapM f l2).
  - rewrite IH. destruct (f x); simpl; [|done]. destruct (mapM f l1); simpl; [|done]. by destruct (mapM f l2).
Qed.
Lemma mapM_nothing {A B} (f : A -> outcome (list B)) l :
  (forall x, x ∈ l -> f x = Ok []) -> exists ks, mapM f l = Ok ks /\ concat ks = [].
Proof.
  induction l as [|x l IH]; intros H; [by exists []|]. simpl. rewrite (H x) by left. simpl.
  destruct IH as (ks & -> & Hks); [intros y Hy; apply H; by right|]. exists ([] :: ks). done.
Qed.

(** ** Declarations and statements *)

Definition d_file (d : declaration) : text := d.1.1.1.
Definition d_module (d : declaration) : nat := d.1.1.2.
Definition d_index (d : declaration) : nat := d.1.2.

Definition stmt_at (modules : list Module_) (id i : nat) : option (Node Stmt) := m ← modules !! id; mo_body m !! i.
(** The entries that a statement configures. *)
Definition stmt_items (s : Node Stmt) : list Entry :=
  match node s with
  | SUnification x => config_items (se_config (node (uni_value x)))
  | SAssign x => match node (as_value x) with ESchema e => config_items (se_config e) | _ => [] end
  | _ => []
  end.
Definition items_at (modules : list Module_) (d : declaration) : list Entry :=
  match stmt_at modules (d_module d) (d_index d) with Some s => stmt_items s | None => [] end.
(** The declaration with other entries. *)
Definition with_items (l : list Entry) (s : Node Stmt) : Node Stmt :=
  match node s with
  | SUnification x =>
      with_node (SUnification (mkUnificationStmt (uni_target x)
        (with_node (with_config (node (uni_value x)) (set_config_items l (se_config (node (uni_value x))))) (uni_value x)))) s
  | _ => s
  end.

Section Merge.
Context (modules : list Module_).
Notation declared := (declared modules).

Lemma declared_event n d : d ∈ declared n -> exists m s,
  modules !! d_module d = Some m /\ mo_filename m = d_file d /\ mo_body m !! d_index d = Some s /\
  (n, d) ∈ events_stmt (d_file d) (d_module d) (d_index d, s).
Proof.
  intros Hd%standing_elem. unfold events_named in Hd. apply list_elem_of_In, in_map_iff in Hd as ([n' d'] & E & He).
  simpl in E. subst d'. apply list_elem_of_In, list_elem_of_filter in He as [En He]. simpl in En. subst n'.
  unfold events in He. apply list_elem_of_In, in_concat in He as (es & Hes & He).
  apply in_map_iff in Hes as ([id m] & <- & Hm). apply list_elem_of_In, elem_of_enumerate in Hm. simpl in Hm.
  unfold events_module in He. simpl in He. apply in_concat in He as (es & Hes & He).
  apply in_map_iff in Hes as ([i s] & <- & Hs). apply list_elem_of_In, elem_of_enumerate in Hs. simpl in Hs.
  apply list_elem_of_In in He.
  assert (Hp : d_file d = mo_filename m /\ d_module d = id /\ d_index d = i).
  { revert He. unfold events_stmt. destruct (node (i, s).2) as [| |x|x| | | | | | |]; try by intros ?%elem_of_nil.
    - destruct (names _) as [|n0 l]; [by intros ?%elem_of_nil|]. intros H%list_elem_of_singleton. by injection H as _ ->.
    - destruct (is_schema_value _); [|by intros ?%elem_of_nil]. intros H%list_elem_of_In%in_concat.
      destruct H as (es & Hes & H). apply in_map_iff in Hes as (t & <- & _).
      destruct (names _) as [|n0 [|]]; try done. destruct H as [H|[]]. by injection H as _ <-. }
  destruct Hp as (-> & -> & ->). by exists m, s.
Qed.

(** A statement that unifies declares one name; another declaration is an assignment. *)
Lemma event_union n d s x : (n, d) ∈ events_stmt (d_file d) (d_module d) (d_index d, s) -> node s = SUnification x ->
  is_union d = true /\ (fun n => encode (node n)) <$> head (names (node (uni_target x))) = Some n.
Proof.
  unfold events_stmt. intros H E. simpl in H. rewrite E in H.
  destruct (names (node (uni_target x))) as [|n0 l]; [by apply elem_of_nil in H|].
  apply list_elem_of_singleton in H. injection H as -> ->. done.
Qed.
Lemma event_kind n d s : (n, d) ∈ events_stmt (d_file d) (d_module d) (d_index d, s) ->
  if is_union d then exists x, node s = SUnification x else exists x, node s = SAssign x.
Proof.
  unfold events_stmt. simpl. destruct (node s) as [| |x|x| | | | | | |] eqn:E; try by intros ?%elem_of_nil.
  - destruct (names (node (uni_target x))) as [|n0 l]; [by intros ?%elem_of_nil|].
    intros H%list_elem_of_singleton. injection H as -> ->. by exists x.
  - destruct (is_schema_value _); [|by intros ?%elem_of_nil]. intros H%list_elem_of_In%in_concat.
    destruct H as (es & Hes & H). apply in_map_iff in Hes as (t & <- & _).
    destruct (names _) as [|n0 [|]]; try done. destruct H as [H|[]]. injection H as _ <-. by exists x.
Qed.
Lemma event_items n d s : (n, d) ∈ events_stmt (d_file d) (d_module d) (d_index d, s) ->
  items_of (kind_of d) s = Ok (stmt_items s).
Proof.
  intros H. pose proof (event_kind n d s H) as Hk. unfold is_union in Hk. unfold items_of, stmt_items.
  destruct (kind_of d); destruct Hk as [x Hx]; by rewrite Hx.
Qed.

(** ** Step 2 *)

(** What becomes of a statement by the merge of the names: the last of several declarations
    of one of them gets the unified entries of all. *)
Definition merged_stmt (ns : list string) (id i : nat) (s s' : Node Stmt) : Prop :=
  (exists n l d es, n ∈ ns /\ declared n = l ++ [d] /\ l <> [] /\ d_module d = id /\ d_index d = i /\
     Unified (concat (map (items_at modules) (declared n))) es /\ s' = with_items es s) \/
  ((forall n l d, n ∈ ns -> declared n = l ++ [d] -> l <> [] -> d_module d = id -> d_index d = i -> False) /\ s' = s).
Record merged_modules (ns : list string) (modules' : list Module_) : Prop := {
  merged_length : length modules' = length modules;
  merged_module id m : modules !! id = Some m -> exists b, modules' !! id = Some (set_body b m) /\
    length b = length (mo_body m) /\
    forall i s, mo_body m !! i = Some s -> exists s', b !! i = Some s' /\ merged_stmt ns id i s s' }.

Lemma merged_start : merged_modules [] modules.
Proof.
  split; [done|]. intros id m Hm. exists (mo_body m). split_and!; [by destruct m|done|]. intros i s Hs. exists s.
  split; [done|]. right. split; [|done]. intros n l d Hn. by apply elem_of_nil in Hn.
Qed.

(** The declarations of a name that is still to come are as they were. *)
Lemma still_there ns modules' n d : merged_modules ns modules' -> n ∉ ns -> d ∈ declared n -> exists m b s,
  modules' !! d_module d = Some (set_body b m) /\ modules !! d_module d = Some m /\ mo_filename m = d_file d /\
  mo_body m !! d_index d = Some s /\ b !! d_index d = Some s /\ (n, d) ∈ events_stmt (d_file d) (d_module d) (d_index d, s).
Proof.
  intros [_ HM] Hn Hd. destruct (declared_event n d Hd) as (m & s & Hm & Hf & Hs & He).
  destruct (HM _ _ Hm) as (b & Hb & _ & HS). destruct (HS _ _ Hs) as (s' & Hs' & [H|[_ ->]]); [exfalso|by exists m, b, s].
  destruct H as (n2 & l & d2 & es & Hn2 & E2 & Hl & Hid & Hi & _).
  assert (Hd2 : d2 ∈ declared n2) by (rewrite E2; set_solver).
  destruct (declared_event n2 d2 Hd2) as (m2 & s2 & Hm2 & Hf2 & Hs2 & He2). simplify_eq.
  assert (m2 = m) as -> by congruence. assert (s2 = s) as -> by congruence.
  pose proof (event_kind _ _ _ He2) as Hk. rewrite (standing_last _ _ _ _ E2 Hl) in Hk. destruct Hk as [x Hx].
  destruct (event_union _ _ _ _ He Hx) as [_ H1]. destruct (event_union _ _ _ _ He2 Hx) as [_ H2]. congruence.
Qed.

Lemma other_module file id k m : k <> id -> is_module file id k m = false.
Proof. intros H. unfold is_module. apply andb_false_iff. right. by apply Nat.eqb_neq. Qed.
Lemma this_module file id m : mo_filename m = file -> is_module file id id m = true.
Proof. intros <-. unfold is_module. by rewrite bool_decide_true, Nat.eqb_refl. Qed.

Lemma items_found ns modules' n d : merged_modules ns modules' -> n ∉ ns -> d ∈ declared n ->
  declared_items modules' d = Ok (items_at modules d).
Proof.
  intros HM Hn Hd. destruct (still_there _ _ _ _ HM Hn Hd) as (m & b & s & Hm' & Hm & Hf & Hs & Hb & He).
  unfold items_at, stmt_at. rewrite Hm. simpl. rewrite Hs. pose proof (event_items _ _ _ He) as Hi.
  destruct (enumerate_middle _ _ _ Hm') as (l1 & l2 & El & _ & _ & Hother).
  destruct d as [[[file id] i] k]. cbn [d_file d_module d_index fst snd kind_of] in *. unfold declared_items.
  rewrite El, mapM_app.
  set (f := fun x : nat * Module_ => _).
  assert (H0 : forall x, x ∈ l1 \/ x ∈ l2 -> f x = Ok []).
  { intros x Hx. unfold f. by rewrite other_module by (by destruct (Hother x Hx)). }
  destruct (mapM_nothing f l1) as (k1 & -> & Hk1); [auto|].
  destruct (mapM_nothing f l2) as (k2 & E2 & Hk2); [auto|].
  simpl. assert (f (id, set_body b m) = Ok (stmt_items s)) as ->.
  { unfold f. simpl. rewrite this_module by done. by rewrite Hb. }
  simpl. rewrite E2. simpl. by rewrite concat_app, Hk1; simpl; rewrite Hk2, app_nil_r.
Qed.

Lemma store_skip d l xs1 xs2 : (forall x, x ∈ xs1 -> is_module (d_file d) (d_module d) x.1 x.2 = false) ->
  store_declared d l (xs1 ++ xs2) = (ms ← store_declared d l xs2; mret (map snd xs1 ++ ms)).
Proof.
  destruct d as [[[file id] i] k]. cbn [d_file d_module fst snd].
  induction xs1 as [|x xs1 IH]; intros H; cbn [app map store_declared].
  - by destruct (store_declared _ _ _).
  - rewrite (H x) by left. rewrite IH by (intros y Hy; apply H; by right).
    by destruct (store_declared (file, id, i, k) l xs2).
Qed.

Lemma store_unified l s x : node s = SUnification x -> exists es,
  store_items MergeUnion l s = Ok (with_items es s) /\ Unified l es.
Proof.
  intros Hx. destruct (unify_entries_total l) as (es & Hes & HU). exists es. split; [|done].
  destruct s as [s0]. cbn [node] in Hx. subst s0. cbn [store_items with_items node]. unfold update_config, set_config_items.
  destruct (node (se_config (node (uni_value x)))); try done. rewrite Hes. done.
Qed.

Lemma set_body_twice b b' m : set_body b' (set_body b m) = set_body b' m.
Proof. done. Qed.

Lemma merged_stmt_more ns n id i s s' : merged_stmt ns id i s s' ->
  (forall l d, declared n = l ++ [d] -> l <> [] -> d_module d = id -> d_index d = i -> False) ->
  merged_stmt (n :: ns) id i s s'.
Proof.
  intros [(n2 & l & d & es & Hn2 & H)|[H ->]] Hn.
  - left. exists n2, l, d, es. split; [by right|done].
  - right. split; [|done]. intros n2 l d [->|Hn2]%elem_of_cons; eauto.
Qed.

Lemma merged_modules_more ns n modules' : merged_modules ns modules' ->
  (forall l d, declared n = l ++ [d] -> l = []) -> merged_modules (n :: ns) modules'.
Proof.
  intros [HL HM] Hn. split; [done|]. intros id m Hm. destruct (HM id m Hm) as (b & Hb & Hlen & HS). exists b.
  split_and!; [done..|]. intros i s Hs. destruct (HS i s Hs) as (s' & Hs' & H). exists s'. split; [done|].
  apply merged_stmt_more; [done|]. eauto.
Qed.

(** The last of several declarations of a name. *)
Lemma store_last ns modules' n l d : merged_modules ns modules' -> n ∉ ns -> declared n = l ++ [d] -> l <> [] ->
  exists modules'', store_declared d (concat (map (items_at modules) (declared n))) (enumerate modules') = Ok modules'' /\
    merged_modules (n :: ns) modules''.
Proof.
  intros HM Hn E Hl. assert (Hd : d ∈ declared n) by (rewrite E; set_solver).
  destruct (still_there _ _ _ _ HM Hn Hd) as (m & b & s & Hm' & Hm & Hf & Hs & Hb & He).
  pose proof (standing_last _ _ _ _ E Hl) as Hu. pose proof (event_kind _ _ _ He) as Hk. rewrite Hu in Hk.
  destruct Hk as [x Hx]. set (es := concat _). destruct (store_unified es s x Hx) as (es' & Hes & HU).
  destruct (enumerate_middle _ _ _ Hm') as (l1 & l2 & El & E1 & E2 & Hother).
  exists (<[d_module d := set_body (<[d_index d := with_items es' s]> b) m]> modules'). split.
  - rewrite El, store_skip; [|intros y Hy; apply other_module; destruct (Hother y); auto].
    destruct d as [[[file id] i] k]. unfold is_union, kind_of in Hu. cbn [d_file d_module d_index fst snd] in *.
    destruct k; [done|]. cbn [store_declared fst snd]. rewrite this_module by done. cbn [set_body mo_body].
    rewrite Hb, Hes. simpl. rewrite E1, E2. rewrite (insert_take_drop modules'); [done|by eapply lookup_lt_Some].
  - destruct HM as [HL HM]. split; [by rewrite length_insert|]. intros id m1 Hm1.
    destruct (HM id m1 Hm1) as (b1 & Hb1 & Hlen1 & HS). destruct (decide (id = d_module d)) as [->|Hid].
    + assert (m1 = m) as -> by congruence. assert (b1 = b) as -> by (rewrite Hm' in Hb1; by injection Hb1). exists (<[d_index d := with_items es' s]> b).
      split_and!; [by apply list_lookup_insert_eq; eapply lookup_lt_Some|by rewrite length_insert|].
      intros i s1 Hs1. destruct (decide (i = d_index d)) as [->|Hi].
      * assert (s1 = s) as -> by congruence. exists (with_items es' s). split; [by apply list_lookup_insert_eq; eapply lookup_lt_Some|].
        left. exists n, l, d, es'. split_and!; [by left|done..].
      * destruct (HS i s1 Hs1) as (s' & Hs' & H). exists s'. rewrite list_lookup_insert_ne by done. split; [done|].
        apply merged_stmt_more; [done|]. intros l0 d0 E0 _ _ Hi0. rewrite E in E0. apply app_inj_tail in E0 as [_ ->]. done.
    + exists b1. rewrite list_lookup_insert_ne by done. split_and!; [done..|]. intros i s1 Hs1.
      destruct (HS i s1 Hs1) as (s' & Hs' & H). exists s'. split; [done|].
      apply merged_stmt_more; [done|]. intros l0 d0 E0 _ Hi0 _. rewrite E in E0. apply app_inj_tail in E0 as [_ ->]. done.
Qed.

Lemma merge_name_sound ns modules' n : merged_modules ns modules' -> n ∉ ns -> exists modules'',
  merge_name modules' (declared n) = Ok modules'' /\ merged_modules (n :: ns) modules''.
Proof.
  intros HM Hn. unfold merge_name.
  assert (H : declared n = [] \/ exists l d, declared n = l ++ [d]).
  { induction (declared n) as [|d l _] using rev_ind; eauto. }
  destruct H as [E|(l & d & E)].
  - rewrite E. exists modules'. split; [done|]. apply merged_modules_more; [done|]. intros l d E'.
    rewrite E in E'. by destruct l.
  - rewrite E, last_snoc, length_app. destruct (decide (l = [])) as [->|Hl].
    + exists modules'. split; [done|]. apply merged_modules_more; [done|]. intros l d' E'. rewrite E in E'.
      by destruct l as [|? []].
    + assert ((1 <? length l + length [d])%nat = true) as -> by (apply Nat.ltb_lt; destruct l; [done|simpl; lia]).
      assert (mapM (declared_items modules') (l ++ [d]) = Ok (map (items_at modules) (l ++ [d]))) as ->.
      { rewrite <- E. assert (Hall : forall d, d ∈ declared n -> declared_items modules' d = Ok (items_at modules d))
          by (intros d' Hd'; by eapply items_found).
        induction (declared n) as [|d' l' IH] in Hall |- *; [done|]. simpl. rewrite Hall by left. simpl.
        by rewrite IH by (intros d0 Hd0; apply Hall; by right). }
      simpl. rewrite <- E. by eapply store_last.
Qed.

Lemma merge_names_sound names : forall ns modules', merged_modules ns modules' -> NoDup (names ++ ns) -> exists modules'',
  merge_names (map (fun n => (n, declared n)) names) modules' = Ok modules'' /\ merged_modules (rev names ++ ns) modules''.
Proof.
  induction names as [|n names IH]; intros ns modules' HM Hnd; [by exists modules'|].
  simpl in Hnd. apply NoDup_cons in Hnd as [Hn Hnd]. simpl.
  destruct (merge_name_sound ns modules' n HM) as (m1 & -> & HM1); [set_solver|]. simpl.
  destruct (IH (n :: ns) m1 HM1) as (m2 & -> & HM2).
  - apply NoDup_app in Hnd as (H1 & H2 & H3). apply NoDup_app. split_and!; [done| |constructor; set_solver].
    intros x Hx. rewrite not_elem_of_cons. split; [set_solver|auto].
  - exists m2. split; [done|]. by rewrite <- app_assoc.
Qed.

(** ** Step 3 *)

(** Another declaration of a name comes after this one. *)
Definition superseded (id i : nat) : bool :=
  existsb (fun n => existsb (fun d => (d_module d =? id)%nat && (d_index d =? i)%nat) (removelast (declared n)))
    (declared_names modules).
Definition kept (id : nat) (m : Module_) : list (nat * Node Stmt) :=
  filter (fun s => superseded id s.1 = false) (enumerate (mo_body m)).

Lemma removelast_elem {A} (x : A) l : x ∈ removelast l -> x ∈ l.
Proof.
  induction l as [|y [|z l] IH]; [done|by intros ?%elem_of_nil|]. change (removelast (y :: z :: l)) with (y :: removelast (z :: l)).
  rewrite !(elem_of_cons _ x y). intros [->|H]; [by left|right; auto].
Qed.

Lemma deleted_superseded id m m' i : modules !! id = Some m -> mo_filename m' = mo_filename m ->
  i ∈ delete_indices (collect_declarations modules) (id, m') <-> superseded id i = true.
Proof.
  intros Hm Hf. rewrite collected. unfold delete_indices, superseded. rewrite map_map. cbn [fst snd].
  rewrite list_elem_of_In, in_concat, existsb_exists. split.
  - intros (js & His & Hi). apply in_map_iff in His as (n & <- & Hn). exists n. split; [done|]. apply existsb_exists.
    apply in_concat in Hi as (js & His & Hi). apply in_map_iff in His as ([[[file id'] i'] k] & <- & Hd).
    eexists. split; [done|]. unfold is_module in Hi. case_bool_decide; [|done]. simpl in Hi.
    destruct (Nat.eqb_spec id id') as [->|]; [|done]. destruct Hi as [->|[]]. unfold d_module, d_index. simpl.
    by rewrite !Nat.eqb_refl.
  - intros (n & Hn & (d & Hd & Hp)%existsb_exists). apply andb_true_iff in Hp as [Hid%Nat.eqb_eq Hi%Nat.eqb_eq].
    eexists. split; [apply in_map_iff; exists n; by split|]. apply in_concat. exists [i].
    split; [|by left]. apply in_map_iff. exists d. split; [|done].
    destruct (declared_event n d) as (m1 & s & Hm1 & Hf1 & _); [by apply removelast_elem, list_elem_of_In|].
    destruct d as [[[file id'] i'] k]. unfold d_module, d_index, d_file in *. simpl in *. subst id' i'.
    by rewrite this_module by congruence.
Qed.

Lemma Forall2_filter {A B} (R : A -> B -> Prop) (P : A -> Prop) (Q : B -> Prop)
    `{!forall x, Decision (P x), !forall y, Decision (Q y)} l k :
  (forall x y, R x y -> P x <-> Q y) -> Forall2 R l k -> Forall2 R (filter P l) (filter Q k).
Proof.
  intros HPQ. induction 1 as [|x y l k Hxy _ IH]; [by constructor|]. rewrite !filter_cons. pose proof (HPQ x y Hxy).
  do 2 case_decide; try tauto. by constructor.
Qed.

(** The main package after the merge. *)
Definition merged (modules' : list Module_) : Prop :=
  length modules' = length modules /\
  forall id m, modules !! id = Some m -> exists b, modules' !! id = Some (set_body b m) /\
    Forall2 (fun s s' => merged_stmt (declared_names modules) id s.1 s.2 s') (kept id m) b.

Lemma merged_stmt_names ns ns' id i s s' : (forall n, n ∈ ns <-> n ∈ ns') -> merged_stmt ns id i s s' -> merged_stmt ns' id i s s'.
Proof.
  intros Hns [(n & l & d & es & Hn & H)|[H ->]].
  - left. exists n, l, d, es. split; [by apply Hns|done].
  - right. split; [|done]. intros n l d Hn. apply H. by apply Hns.
Qed.

Lemma deleted_merged modules' : merged_modules (declared_names modules) modules' ->
  merged (delete_redundant (collect_declarations modules) modules').
Proof.
  intros [HL HM]. unfold delete_redundant. split.
  { by rewrite length_map; unfold enumerate; rewrite length_imap. }
  intros id m Hm. destruct (HM id m Hm) as (b & Hb & Hlen & HS).
  eexists. change (map ?f (enumerate modules')) with (f <$> enumerate modules').
  rewrite list_lookup_fmap, enumerate_lookup, Hb. split; [done|]. cbn [fst snd set_body mo_body].
  change (map snd ?l) with (snd <$> l). apply Forall2_fmap_r. unfold kept.
  eapply Forall2_impl; [apply (Forall2_filter (fun x y => x.1 = y.1 /\ merged_stmt (declared_names modules) id x.1 x.2 y.2))|].
  - intros x y [-> _]. rewrite (deleted_superseded id m) by done. by destruct (superseded id y.1).
  - apply Forall2_same_length_lookup. split; [by unfold enumerate; rewrite !length_imap|].
    intros i x y Hx Hy. rewrite enumerate_lookup in Hx, Hy. apply fmap_Some in Hx as (s & Hs & ->).
    apply fmap_Some in Hy as (s' & Hs' & ->). simpl. split; [done|]. destruct (HS i s Hs) as (s2 & Hs2 & H).
    by simplify_eq.
  - by intros x y [_ H].
Qed.
End Merge.

Lemma merge_program_merged program modules : im_get MAIN_PKG (pkgs program) = Some modules -> exists modules',
  merge_program program = Ok (mkProgram (root program) (im_insert MAIN_PKG modules' (pkgs program))) /\ merged modules modules'.
Proof.
  intros Hm. unfold merge_program. rewrite Hm. cbv zeta.
  destruct (merge_names_sound modules (declared_names modules) [] modules (merged_start modules)) as (m1 & E & HM).
  { rewrite app_nil_r. apply NoDup_first_names. }
  rewrite <- collected in E. rewrite E. simpl. eexists. split; [done|]. apply deleted_merged.
  destruct HM as [HL HM]. split; [done|]. intros id m Hid. destruct (HM id m Hid) as (b & Hb & Hlen & HS). exists b.
  split_and!; [done..|]. intros i s Hs. destruct (HS i s Hs) as (s' & Hs' & H). exists s'. split; [done|].
  eapply merged_stmt_names; [|done]. intros n. by rewrite app_nil_r, !list_elem_of_In, <- in_rev.
Qed.
