(* ===== verification/PreProcess.v ===== *)
(** * The preprocessing of a program

    [kclvm/sema/src/pre_process/mod.rs]: raw identifiers, qualified identifiers and dotted
    keys in each module, then the merge of the main package. *)

From S2P Require Import Prelude MachineInt State Floats Chars Utf8 TypeData.
From S2P Require Import Ast Resolver ResolverGlobal.
From S2P Require Import Walker WalkerLaws WalkerSound PreIdentifier PreConfig PreConfigLaws MergeLaws MergeSpec MergeSound.

(** ** Programs *)

Definition pre_process_module (m : Module_) (import_names : list (string * text))
    : outcome (Module_ * list (string * text)) :=
  m ← fix_raw_identifier_prefix m;
  '(m, import_names) ← fix_qualified_identifier m import_names;
  m ← fix_config_expr_nest_attr m;
  mret (m, import_names).
(** The names of the imports are those of the module, in the main package those of the
    modules before too. *)
Fixpoint pre_process_modules (is_main : bool) (import_names : list (string * text)) (modules : list Module_)
    : outcome (list Module_) :=
  match modules with
  | [] => mret []
  | m :: modules =>
      '(m, import_names) ← pre_process_module m (if is_main then import_names else []);
      modules ← pre_process_modules is_main import_names modules;
      mret (m :: modules)
  end.
Definition is_main_package (pkgpath : string) : bool := bool_decide (pkgpath = MAIN_PKG).
Definition initial_imports (p : string * list Module_) : list (string * text) :=
  if is_main_package p.1 then fold_left (fun import_names m => imports_of m import_names) p.2 [] else [].
Definition pre_process_package (p : string * list Module_) : outcome (string * list Module_) :=
  modules ← pre_process_modules (is_main_package p.1) (initial_imports p) p.2;
  mret (p.1, modules).
Definition pre_process_program (program : Program_) : outcome Program_ :=
  packages ← mapM pre_process_package (pkgs program);
  merge_program (mkProgram (root program) packages).

(** *** What it does *)

(** A module without raw identifiers, with other package paths in dotted names that begin
    with an import at most, and with nested keys. *)
Definition pre_processed_module (import_names : list (string * text)) (m m' : Module_) : Prop :=
  exists q, map_module (all_qualified import_names) q = map_module (all_qualified import_names) (map_module stripped m) /\
            m' = map_module nested_keys q.
Fixpoint pre_processed_modules (is_main : bool) (import_names : list (string * text)) (modules modules' : list Module_) : Prop :=
  match modules, modules' with
  | [], [] => True
  | m :: modules, m' :: modules' =>
      let import_names := imports_of (map_module stripped m) (if is_main then import_names else []) in
      pre_processed_module import_names m m' /\ pre_processed_modules is_main import_names modules modules'
  | _, _ => False
  end.
Definition pre_processed_package (p p' : string * list Module_) : Prop :=
  p'.1 = p.1 /\ pre_processed_modules (is_main_package p.1) (initial_imports p) p.2 p'.2.
(** The packages, and of the main one the merged modules. *)
Definition merged_main (packages packages' : list (string * list Module_)) : Prop :=
  match im_get MAIN_PKG packages with
  | Some modules => exists modules', merged modules modules' /\ packages' = im_insert MAIN_PKG modules' packages
  | None => packages' = packages
  end.

Lemma pre_process_module_ok m import_names : exists m',
  pre_process_module m import_names = Ok (m', imports_of (map_module stripped m) import_names) /\
  pre_processed_module (imports_of (map_module stripped m) import_names) m m'.
Proof.
  unfold pre_process_module. rewrite run_raw. simpl.
  destruct (run_qualified (map_module stripped m) import_names) as (q & names' & -> & E & Hq). rewrite E. simpl.
  rewrite run_nest. simpl. eexists. split; [done|]. by exists q.
Qed.
Lemma pre_process_modules_ok is_main modules : forall import_names, exists modules',
  pre_process_modules is_main import_names modules = Ok modules' /\
  pre_processed_modules is_main import_names modules modules'.
Proof.
  induction modules as [|m modules IH]; intros import_names; [by exists []|]. cbn [pre_process_modules].
  destruct (pre_process_module_ok m (if is_main then import_names else [])) as (m' & -> & Hm). simpl.
  destruct (IH (imports_of (map_module stripped m) (if is_main then import_names else []))) as (modules' & -> & H).
  by exists (m' :: modules').
Qed.

(** C0: preprocessing never panics. It leaves each module without the prefixes of raw
    identifiers and with nested configurations for dotted keys, and changes nothing else but
    the package paths of dotted names that begin with an import; in the main package the last
    of the declarations of a name has the entries of all, grouped by key from the last
    override on, and the other declarations are gone. *)
Theorem program_pre_processed program : exists packages packages',
  pre_process_program program = Ok (mkProgram (root program) packages') /\
  Forall2 pre_processed_package (pkgs program) packages /\ merged_main packages packages'.
Proof.
  unfold pre_process_program.
  destruct (mapM_total pre_process_package pre_processed_package (pkgs program)) as (packages & -> & HF).
  { intros p _. unfold pre_process_package.
    destruct (pre_process_modules_ok (is_main_package p.1) p.2 (initial_imports p)) as (ms & -> & H). simpl.
    by exists (p.1, ms). }
  simpl. unfold merge_program. cbn [pkgs root].
  destruct (im_get MAIN_PKG packages) as [modules|] eqn:E.
  - destruct (merge_program_merged (mkProgram (root program) packages) modules E) as (modules' & E' & HM).
    exists packages, (im_insert MAIN_PKG modules' packages). unfold merge_program in E'. cbn [pkgs root] in E'.
    rewrite E in E'. split_and!; [done..|]. unfold merged_main. rewrite E. by exists modules'.
  - exists packages, packages. split_and!; [done..|]. unfold merged_main. by rewrite E.
Qed.

(** ** Examples *)

Module Examples.
Definition at_ {A} (x : A) : Node A := mkNode x [] 1 0 1 0.
Definition dotted (l : list string) : Identifier := mkIdentifier (map (fun s => at_ (txt s)) l) [] Load.
Definition number (z : Z) : Node Expr := at_ (ENumberLit (mkNumberLit None (NlInt z))).
Definition entry (key : list string) (op : ConfigEntryOperation) (v : Node Expr) : Entry :=
  at_ (mkConfigEntry (Some (at_ (EIdentifier (dotted key)))) v op (-1)).
Definition schema (entries : list Entry) : SchemaExpr Expr :=
  mkSchemaExpr (at_ (dotted ["C"])) [] [] (at_ (EConfig (mkConfigExpr entries))).
Definition assigned (l : list string) (v : Node Expr) : Node Stmt :=
  at_ (SAssign (mkAssignStmt (map (fun s => at_ (dotted [s])) l) v None None)).
Definition unified (s : string) (entries : list Entry) : Node Stmt :=
  at_ (SUnification (mkUnificationStmt (at_ (dotted [s])) (at_ (schema entries)))).
Definition module_of (body : list (Node Stmt)) : Module_ := mkModule [] [] [] [] body [].
Definition bodies (program : Program_) : list (list (Node Stmt)) :=
  match im_get MAIN_PKG (pkgs program) with Some l => map mo_body l | None => [] end.
Definition main_of (modules : list (list (Node Stmt))) : Program_ := mkProgram "" [(MAIN_PKG, map module_of modules)].

(** Declarations of one name in two modules: the key [a.b] is nested, the override of [x] drops
    the entry before it. *)
Example merged_modules_example :
  bodies <$> pre_process_program (main_of
    [[unified "c" [entry ["x"] OpUnion (number 1); entry ["$y"] OpUnion (number 2)]];
     [unified "c" [entry ["x"] OpOverride (number 3); entry ["a"; "b"] OpOverride (number 4)]]]) =
  Ok [[]; [unified "c" [entry ["x"] OpOverride (number 3); entry ["y"] OpUnion (number 2);
    entry ["a"] OpUnion (at_ (EConfig (mkConfigExpr [entry ["b"] OpOverride (number 4)])))]]].
Proof. by vm_compute. Qed.

(** An assignment of two targets is deleted when one of them is declared again. *)
Example other_target_deleted :
  bodies <$> pre_process_program (main_of
    [[assigned ["a"; "b"] (at_ (ESchema (schema []))); unified "a" [entry ["x"] OpUnion (number 1)]]]) =
  Ok [[unified "a" [entry ["x"] OpUnion (number 1)]]].
Proof. by vm_compute. Qed.

(** Without a name an entry is collected with the others that have none: an override of one
    expression key clears the entries of the others. *)
Definition keyed (z : Z) (op : ConfigEntryOperation) : Entry := at_ (mkConfigEntry (Some (number z)) (number 0) op (-1)).
Example nameless_override :
  bodies <$> pre_process_program (main_of [[unified "c" [keyed 1 OpUnion]; unified "c" [keyed 2 OpOverride]]]) =
  Ok [[unified "c" [keyed 2 OpOverride]]].
Proof. by vm_compute. Qed.

(** The variables of an outer comprehension are forgotten at the end of an inner one: in
    [[[[y for y in z], p.a] for p in z]] the variable [p] is taken for the import. *)
Definition name (l : list string) : Node Expr := at_ (EIdentifier (dotted l)).
Definition comprehension (e : Node Expr) (v : string) : Node Expr :=
  at_ (EListComp (mkListComp e [at_ (mkCompClause [at_ (dotted [v])] (name ["z"]) [])])).
Definition qualified (e : Node Expr) : outcome (Node Expr) :=
  match fix_qualified_identifier (module_of [at_ (SExpr (mkExprStmt [e]))]) [("p", txt "pkg")] with
  | Ok (m, _) => match mo_body m with
                 | [s] => match node s with SExpr x => match exprs x with [e] => Ok e | _ => Panic "" end | _ => Panic "" end
                 | _ => Panic ""
                 end
  | Panic e => Panic e
  end.
Definition list_of (l : list (Node Expr)) : Node Expr := at_ (EList (mkListExpr l Load)).
Definition package_name : Node Expr := at_ (EIdentifier (mkIdentifier (names (dotted ["p"; "a"])) (txt "pkg") Load)).
Example variable_known :
  qualified (comprehension (list_of [name ["p"; "a"]]) "p") = Ok (comprehension (list_of [name ["p"; "a"]]) "p").
Proof. by vm_compute. Qed.
Example variable_forgotten :
  qualified (comprehension (list_of [comprehension (name ["y"]) "y"; name ["p"; "a"]]) "p") =
  Ok (comprehension (list_of [comprehension (name ["y"]) "y"; package_name]) "p").
Proof. by vm_compute. Qed.
End Examples.
