(* ===== verification/MultiAssign.v ===== *)
(** * Assignments of several targets

    [kclvm/sema/src/pre_process/multi_assign.rs]: an assignment of several targets at the top
    level becomes several assignments.  The statements are counted as they are walked, and a
    map keeps the assignments to insert after each; the order in which a [HashMap] is iterated
    is a parameter. *)

From S2P Require Import Prelude MachineInt State Floats Chars.
From S2P Require Import Ast.
From S2P Require Import Walker WalkerLaws PreIdentifier PreConfig.

Record MultiAssignTransformer := mkMultiAssign {
  multi_assign_mapping : list (nat * list (AssignStmt Expr)); index : nat }.

Definition with_targets (x : AssignStmt Expr) (l : list (Node Identifier)) : AssignStmt Expr :=
  mkAssignStmt l (as_value x) (as_type_annotation x) (as_ty x).

Section MultiAssign.
Context (self : MutSelfMutWalker MultiAssignTransformer).

Definition multi_assign_stmt (x : AssignStmt Expr) : st MultiAssignTransformer (AssignStmt Expr) :=
  match targets x with
  | first :: (_ :: _) as rest =>
      modify (fun t => mkMultiAssign (multi_assign_mapping t ++ [(index t, map (fun target => with_targets x [target]) rest)]) (index t));;
      mret (with_targets x [first])
  | _ => mret x
  end.
Definition multi_stmt (x : Stmt) : st MultiAssignTransformer Stmt :=
  x ← match x with SAssign x => SAssign <$> self _ walk_assign_stmt x | _ => mret x end;
  modify (fun t => mkMultiAssign (multi_assign_mapping t) (S (index t)));;
  mret x.
End MultiAssign.

(** [impl MutSelfMutWalker for MultiAssignTransformer]. *)
Definition multi_assign_transformer (self : MutSelfMutWalker MultiAssignTransformer) :
    MutSelfMutWalker MultiAssignTransformer := fun A m =>
  match m in method A return A -> st MultiAssignTransformer A with
  | walk_stmt => multi_stmt self
  | walk_assign_stmt => multi_assign_stmt
  | walk_if_stmt => mret
  | walk_schema_stmt => mret
  | walk_lambda_expr => mret
  | m => default_method self _ m
  end.

(** [Vec::insert]. *)
Definition vec_insert {A} (i : nat) (x : A) (l : list A) : outcome (list A) :=
  if (i <=? length l)%nat then Ok (take i l ++ x :: drop i l) else Panic "insertion index is out of bounds".
Definition assign_node (pos : PosTuple) (x : AssignStmt Expr) : Node Stmt := node_with_pos (SAssign x) pos.
(** Behind the statement, one after the other. *)
Fixpoint insert_assigns (pos : PosTuple) (i : nat) (l : list (AssignStmt Expr)) (body : list (Node Stmt)) : outcome (list (Node Stmt)) :=
  match l with
  | [] => mret body
  | x :: l => body ← vec_insert (S i) (assign_node pos x) body; insert_assigns pos (S i) l body
  end.
Fixpoint insert_all (mapping : list (nat * list (AssignStmt Expr))) (insert_count : nat) (body : list (Node Stmt))
    : outcome (list (Node Stmt)) :=
  match mapping with
  | [] => mret body
  | (index, l) :: mapping =>
      match body !! (index + insert_count)%nat with
      | Some stmt =>
          body ← insert_assigns (node_pos stmt) (index + insert_count) l body;
          insert_all mapping (insert_count + length l) body
      | None => Panic "AST module body index out of bound"
      end
  end.
(** [order]: the iteration of the map. *)
Definition transform_multi_assign
    (order : list (nat * list (AssignStmt Expr)) -> list (nat * list (AssignStmt Expr))) (m : Module_) : outcome Module_ :=
  '(m, t) ← run_walker multi_assign_transformer (mkMultiAssign [] 0) m;
  body ← insert_all (order (multi_assign_mapping t)) 0 (mo_body m);
  mret (set_body body m).

(** ** In the order of the statements it splits each of them *)

Definition split_stmt (s : Node Stmt) : list (Node Stmt) :=
  match node s with
  | SAssign x =>
      match targets x with
      | first :: (_ :: _) as rest => map (fun target => with_node (SAssign (with_targets x [target])) s) (first :: rest)
      | _ => [s]
      end
  | _ => [s]
  end.
(** The statement that stays, and those to insert. *)
Definition first_stmt (s : Node Stmt) : Node Stmt :=
  match node s with
  | SAssign x => match targets x with first :: _ :: _ => with_node (SAssign (with_targets x [first])) s | _ => s end
  | _ => s
  end.
Definition other_assigns (s : Node Stmt) : list (AssignStmt Expr) :=
  match node s with SAssign x => map (fun target => with_targets x [target]) (tail (targets x)) | _ => [] end.
Fixpoint assigns_from (i : nat) (l : list (Node Stmt)) : list (nat * list (AssignStmt Expr)) :=
  match l with
  | [] => []
  | s :: l => match other_assigns s with [] => [] | o => [(i, o)] end ++ assigns_from (S i) l
  end.

Lemma split_stmt_first s :
  split_stmt s = first_stmt s :: map (assign_node (node_pos (first_stmt s))) (other_assigns s).
Proof.
  unfold split_stmt, first_stmt, other_assigns. destruct (node s) as [| | |x| | | | | | |]; try done.
  destruct (targets x) as [|t1 [|t2 l]]; try done. simpl. by rewrite map_map.
Qed.

Lemma walk_statements n l : forall t, (forall s, s ∈ l -> (height_stmt height (node s) <= n)%nat) ->
  walk_list_mut (multi_stmt (dispatch multi_assign_transformer n)) l t =
  Ok (map first_stmt l, mkMultiAssign (multi_assign_mapping t ++ assigns_from (index t) l) (index t + length l)).
Proof.
  induction l as [|s l IH]; intros t Hl; cbn [walk_list_mut map length assigns_from].
  - rewrite app_nil_r, Nat.add_0_r. by destruct t.
  - assert (Hs : walk_node (multi_stmt (dispatch multi_assign_transformer n)) s t =
      Ok (first_stmt s, mkMultiAssign (multi_assign_mapping t ++ match other_assigns s with [] => [] | o => [(index t, o)] end)
                          (S (index t)))).
    { pose proof (Hl s) as Hh. unfold walk_node, multi_stmt, first_stmt, other_assigns.
      destruct s as [s f l1 c el ec]. cbn [node] in *.
      destruct s as [| | |x| | | | | | |]; try (cbn; by rewrite app_nil_r).
      destruct n as [|n]; [specialize (Hh ltac:(left)); cbn [height_stmt] in Hh; lia|].
      cbn [dispatch multi_assign_transformer]. unfold multi_assign_stmt.
      destruct (targets x) as [|t1 [|t2 ts]]; cbn; try (by rewrite app_nil_r); done. }
    unfold mbind, st_bind. rewrite Hs, IH by (intros s' Hs'; apply Hl; by right). cbn [multi_assign_mapping index].
    rewrite <- app_assoc. simpl. by rewrite <- plus_n_Sm.
Qed.

Lemma vec_insert_at {A} (x : A) k pre rest : length pre = k -> vec_insert k x (pre ++ rest) = Ok (pre ++ x :: rest).
Proof.
  intros <-. unfold vec_insert. rewrite take_app_length, drop_app_length, (proj2 (Nat.leb_le _ _)); [done|].
  rewrite length_app. lia.
Qed.

Lemma insert_assigns_at pos l : forall i pre rest, length pre = S i ->
  insert_assigns pos i l (pre ++ rest) = Ok (pre ++ map (assign_node pos) l ++ rest).
Proof.
  induction l as [|x l IH]; intros i pre rest Hi; [done|]. cbn [insert_assigns map]. rewrite vec_insert_at by done. simpl.
  replace (pre ++ assign_node pos x :: rest) with ((pre ++ [assign_node pos x]) ++ rest)
    by by rewrite <- app_assoc.
  rewrite IH by (rewrite length_app; simpl; lia). by rewrite <- app_assoc.
Qed.

Lemma insert_all_at l : forall i c pre, length pre = (i + c)%nat ->
  insert_all (assigns_from i l) c (pre ++ map first_stmt l) = Ok (pre ++ concat (map split_stmt l)).
Proof.
  induction l as [|s l IH]; intros i c pre Hi; [done|]. cbn [assigns_from map concat]. rewrite (split_stmt_first s).
  destruct (other_assigns s) as [|x o] eqn:Eo.
  - simpl. replace (pre ++ first_stmt s :: map first_stmt l) with ((pre ++ [first_stmt s]) ++ map first_stmt l)
      by by rewrite <- app_assoc.
    rewrite IH by (rewrite length_app; simpl; lia). by rewrite <- app_assoc.
  - cbn [app insert_all]. rewrite <- Hi, list_lookup_middle by done.
    replace (pre ++ first_stmt s :: map first_stmt l) with ((pre ++ [first_stmt s]) ++ map first_stmt l)
      by by rewrite <- app_assoc.
    rewrite insert_assigns_at by (rewrite length_app; simpl; lia). cbn [mbind outcome_bind].
    rewrite app_assoc, IH by (rewrite !length_app, length_map; simpl; lia). f_equal. by rewrite <- !app_assoc.
Qed.

Lemma walk_module_statements m t : run_walker multi_assign_transformer t m =
  Ok (set_body (map first_stmt (mo_body m)) m,
      mkMultiAssign (multi_assign_mapping t ++ assigns_from (index t) (mo_body m)) (index t + length (mo_body m))).
Proof.
  unfold run_walker, walk_fuel, height_module. set (n := height_list (height_stmt height) (mo_body m)).
  change (default_walk_module (dispatch multi_assign_transformer (S n)) m t = Ok
    (set_body (map first_stmt (mo_body m)) m,
     mkMultiAssign (multi_assign_mapping t ++ assigns_from (index t) (mo_body m)) (index t + length (mo_body m)))).
  unfold default_walk_module, mbind, st_bind.
  change (dispatch multi_assign_transformer (S n) Stmt walk_stmt) with (multi_stmt (dispatch multi_assign_transformer n)).
  rewrite walk_statements; [done|]. intros s Hs. subst n. unfold height_list.
  induction (mo_body m) as [|s' l IH]; [by apply elem_of_nil in Hs|].
  simpl. apply elem_of_cons in Hs as [->|Hs]; [lia|]. apply IH in Hs. lia.
Qed.

Lemma multi_assign_split m : transform_multi_assign id m = Ok (set_body (concat (map split_stmt (mo_body m))) m).
Proof.
  unfold transform_multi_assign. rewrite walk_module_statements. cbn [mbind outcome_bind multi_assign_mapping index].
  pose proof (insert_all_at (mo_body m) 0 0 [] eq_refl) as H. simpl in H. cbn [mo_body set_body app id]. by rewrite H.
Qed.
