(* ===== verification/TypeAlias.v ===== *)
(** * Type aliases in the tree

    [kclvm/sema/src/resolver/ty_alias.rs]: after the resolution, the types that aliases stand
    for in the type strings and the identifiers of a program. *)

From S2P Require Import Prelude MachineInt State Floats Chars Utf8 TypeData.
From S2P Require Import Ast Resolver ResolverGlobal.
From S2P Require Import Walker WalkerLaws WalkerSound PreIdentifier MergeLaws PreProcess.

Record TypeAliasTransformer := mkTypeAlias { ta_pkgpath : text; aliases : list (string * string) }.

Local Abbreviation T := (st TypeAliasTransformer).

Definition alias_of (name : text) : T (option string) := gets (fun t => im_get (encode name) (aliases t)).
(** A type string, or the one that it is an alias of. *)
Definition replace_alias (name : text) : T text :=
  alias ← alias_of name; mret (match alias with Some alias => chars alias | None => name end).
Definition replace_node (n : Node text) : T (Node text) := walk_node replace_alias n.

Section Alias.
Context (self : MutSelfMutWalker TypeAliasTransformer).
Notation expr := (self _ walk_expr).
Notation identifier := (self _ walk_identifier).

Definition alias_rule_stmt (x : RuleStmt Expr) : T (RuleStmt Expr) :=
  a ← walk_if_mut (self _ walk_arguments) (ru_args x);
  h ← walk_if_mut identifier (ru_for_host_name x);
  c ← walk_list_mut (self _ walk_check_expr) (ru_checks x);
  mret (mkRuleStmt (ru_doc x) (ru_name x) (parent_rules x) (ru_decorators x) c a h).
Definition alias_signature (x : SchemaIndexSignature Expr) : T (SchemaIndexSignature Expr) :=
  k ← replace_node (si_key_type x);
  t ← replace_node (si_value_type x);
  v ← walk_if_mut expr (si_value x);
  mret (mkSchemaIndexSignature (si_key_name x) k t v (si_any_other x) (si_value_ty x)).
Definition alias_schema_stmt (x : SchemaStmt Expr Stmt) : T (SchemaStmt Expr Stmt) :=
  a ← walk_if_mut (self _ walk_arguments) (sc_args x);
  i ← walk_if_mut alias_signature (sc_index_signature x);
  m ← walk_list_mut identifier (sc_mixins x);
  b ← walk_list_mut (self _ walk_stmt) (sc_body x);
  c ← walk_list_mut (self _ walk_check_expr) (sc_checks x);
  mret (mkSchemaStmt (sc_doc x) (sc_name x) (parent_name x) (for_host_name x) (sc_is_mixin x) (sc_is_protocol x) a m b
          (sc_decorators x) c i).
Definition alias_schema_attr (x : SchemaAttr Expr) : T (SchemaAttr Expr) :=
  t ← replace_node (sa_type_str x);
  v ← walk_if_mut expr (sa_value x);
  mret (mkSchemaAttr (sa_doc x) (sa_name x) t (sa_op x) v (sa_is_optional x) (sa_decorators x) (sa_ty x)).
Definition alias_assign_stmt (x : AssignStmt Expr) : T (AssignStmt Expr) :=
  t ← walk_if_mut replace_alias (as_type_annotation x);
  v ← walk_node expr (as_value x);
  mret (mkAssignStmt (targets x) v t (as_ty x)).
Definition alias_unification_stmt (x : UnificationStmt Expr) : T (UnificationStmt Expr) :=
  v ← walk_node (self _ walk_schema_expr) (uni_value x); mret (mkUnificationStmt (uni_target x) v).
Definition alias_lambda_expr (x : LambdaExpr Expr Stmt) : T (LambdaExpr Expr Stmt) :=
  a ← walk_if_mut (self _ walk_arguments) (la_args x);
  b ← walk_list_mut (self _ walk_stmt) (la_body x);
  t ← match return_type_str x with Some t => t ← replace_alias t; mret (Some t) | None => mret None end;
  mret (mkLambdaExpr a t b (return_ty x)).
Definition alias_arguments (x : Arguments_ Expr) : T (Arguments_ Expr) :=
  a ← walk_list_mut identifier (ar_args x);
  t ← walk_list_if_mut replace_alias (type_annotation_list x);
  d ← walk_list_if_mut expr (defaults x);
  mret (mkArguments a d t (ty_list x)).
End Alias.

(** A type of another package by its path and name; other names one by one, as many as the
    identifier has. *)
Definition alias_identifier (x : Identifier) : T Identifier :=
  alias ← alias_of (get_name x);
  match alias with
  | Some alias =>
      match (if starts_with "@" alias then rsplit_dot alias else None) with
      | Some (before, after) =>
          pkg ← gets ta_pkgpath;
          if bool_decide (pkg = chars (str_drop 1 before)) then mret x
          else match names x with
               | n :: _ => mret (mkIdentifier [with_node (chars before) n; with_node (chars after) n] (chars before) (id_ctx x))
               | [] => panic "index out of bounds"
               end
      | None =>
          mret (mkIdentifier (zip_with (fun name n => with_node (chars name) n) (split_name alias) (names x)) (pkgpath x) (id_ctx x))
      end
  | None => mret x
  end.

(** [impl MutSelfMutWalker for TypeAliasTransformer]. *)
Definition alias_transformer (self : MutSelfMutWalker TypeAliasTransformer) :
    MutSelfMutWalker TypeAliasTransformer := fun A m =>
  match m in method A return A -> T A with
  | walk_rule_stmt => alias_rule_stmt self
  | walk_schema_stmt => alias_schema_stmt self
  | walk_schema_attr => alias_schema_attr self
  | walk_assign_stmt => alias_assign_stmt self
  | walk_unification_stmt => alias_unification_stmt self
  | walk_import_stmt => mret
  | walk_lambda_expr => alias_lambda_expr self
  | walk_arguments => alias_arguments self
  | walk_identifier => alias_identifier
  | m => default_method self _ m
  end.

Definition fix_type_alias_identifier (m : Module_) (type_alias_mapping : list (string * string)) : outcome Module_ :=
  fst <$> run_walker alias_transformer (mkTypeAlias (mo_pkg m) type_alias_mapping) m.
Definition fix_package (type_alias_mapping : list (string * list (string * string))) (p : string * list Module_)
    : outcome (string * list Module_) :=
  modules ← mapM (fun m => match im_get p.1 type_alias_mapping with
                           | Some type_alias_mapping => fix_type_alias_identifier m type_alias_mapping
                           | None => mret m
                           end) p.2;
  mret (p.1, modules).
Definition process_program_type_alias (program : Program_) (type_alias_mapping : list (string * list (string * string)))
    : outcome Program_ :=
  packages ← mapM (fix_package type_alias_mapping) (pkgs program);
  mret (mkProgram (root program) packages).

(** ** What it changes: identifiers and type strings *)

Definition no_identifier : Identifier := mkIdentifier [] [] Load.
Definition but_types : Changes := {|
  on_identifier := fun _ => no_identifier; on_type := fun _ => []; on_schema_name := id; on_rule_name := id;
  on_attr_name := id; on_import := id; on_entry := id; visits_keys := true |}.

(** No alias of the empty name. *)
Definition named_aliases (t : TypeAliasTransformer) : Prop := im_get "" (aliases t) = None.

Section AliasSound.
Notation Sound := (Sound but_types but_types named_aliases eq).

Lemma replace_alias_walks n : walks named_aliases eq (fun _ => 0%nat) (on_type but_types) (on_type but_types) (S n) replace_alias.
Proof. intros x s HI _. unfold replace_alias, alias_of. do 2 wp_step. by wp_step. Qed.

Lemma alias_identifier_sound n : walks named_aliases eq (fun _ => 0%nat) (on_identifier but_types) (on_identifier but_types) (S n) alias_identifier.
Proof.
  intros x s HI _. unfold alias_identifier, alias_of. do 2 wp_step.
  destruct (im_get (encode (get_name x)) (aliases s)) as [alias|] eqn:E; [|by wp_step].
  destruct (if starts_with "@" alias then _ else _) as [[before after]|]; [|by wp_step].
  do 3 wp_step; [by wp_step|]. destruct (names x) as [|n0 l] eqn:En; [exfalso|by wp_step].
  unfold get_name, get_names in E. rewrite En in E. simpl in E. unfold named_aliases in HI. congruence.
Qed.

Lemma height_list_opt_flat {A} (l : list (option (Node A))) : height_list_opt (fun _ => 0%nat) l = 0%nat.
Proof. unfold height_list_opt. induction l as [|[x|] l IH]; simpl in *; lia. Qed.

Local Ltac alias_part Hself :=
  first [ walk_part Hself
        | eapply wp_mono;
            [first [eapply (walks_node _ _ (fun _ => 0%nat)) | eapply (walks_if _ _ (fun _ => 0%nat))
                   | eapply (walks_list_if _ _ (fun _ => 0%nat))];
               [apply (replace_alias_walks 0)|eassumption|rewrite ?height_list_opt_flat; low]
            |intros ? ? (? & ? & ?); cbn [map_at] in *] ].
Local Ltac alias_method Hself :=
  intros x s HI Hx; open_height Hx;
  lazymatch goal with |- wp ?m _ _ => let c := head m in unfold c end;
  unfold replace_node; repeat (wp_step; alias_part Hself); apply wp_ret; split; [same_node|split; [done|same_state]].

Lemma alias_signature_sound n self : Sound n self ->
  walks named_aliases eq (height_signature height) (map_signature but_types (map_expr but_types))
    (map_signature but_types (map_expr but_types)) (S n) (alias_signature self).
Proof.
  intros Hself. alias_method Hself.
Qed.

Lemma alias_sound n self : Sound n self -> Sound (S n) (alias_transformer self).
Proof.
  intros Hself A m. destruct m; cbn [alias_transformer].
  all: try (apply default_method_sound; [typeclasses eauto|done|by cbn]).
  all: try solve [alias_method Hself].
  - intros x s HI Hx. unfold alias_schema_stmt. open_height Hx. wp_step. walk_part Hself. wp_step.
    eapply wp_mono; [eapply (walks_if _ _ (height_signature height)); [by apply alias_signature_sound|done|low]|].
    intros ? ? (? & ? & ?). repeat (wp_step; walk_part Hself). apply wp_ret. split; [same_node|split; [done|same_state]].
  - intros x s HI Hx. unfold alias_lambda_expr. open_height Hx. do 2 (wp_step; walk_part Hself). wp_step.
    destruct x as [la rt lb rty]; cbn [la_args return_type_str la_body return_ty] in *. destruct rt as [t|].
    + wp_step. eapply wp_mono; [apply (replace_alias_walks 0); [done|lia]|]. intros ? ? (? & ? & ?). do 2 wp_step.
      split; [same_node|split; [done|same_state]].
    + do 2 wp_step. split; [same_node|split; [done|same_state]].
  - intros x s HI Hx. by apply (alias_identifier_sound n).
  Unshelve. all: typeclasses eauto.
Qed.
End AliasSound.

Lemma run_alias m mapping : im_get "" mapping = None -> exists m',
  fix_type_alias_identifier m mapping = Ok m' /\ map_module but_types m' = map_module but_types m.
Proof.
  intros Hm. pose proof (dispatch_sound _ _ _ _ _ alias_sound (walk_fuel m) _ walk_module m (mkTypeAlias (mo_pkg m) mapping) Hm) as H.
  cbn [height_at] in H. unfold walk_fuel in H. specialize (H ltac:(lia)). apply wp_ok in H as (m' & t & E & Hm' & _).
  exists m'. split; [|done]. unfold fix_type_alias_identifier, run_walker, walk_fuel. by rewrite E.
Qed.

(** Without an alias of the empty name the rewriting returns; it changes nothing but
    identifiers and type strings. *)
Lemma aliases_rewritten program mapping :
  (forall p m, im_get p mapping = Some m -> im_get "" m = None) -> exists packages,
  process_program_type_alias program mapping = Ok (mkProgram (root program) packages) /\
  Forall2 (fun p p' => p'.1 = p.1 /\ map (map_module but_types) p'.2 = map (map_module but_types) p.2) (pkgs program) packages.
Proof.
  intros Ha. unfold process_program_type_alias.
  destruct (mapM_total (fix_package mapping) (fun p p' : string * list Module_ =>
    p'.1 = p.1 /\ map (map_module but_types) p'.2 = map (map_module but_types) p.2) (pkgs program)) as (ps & -> & HF); [|by exists ps].
  intros p _. unfold fix_package.
  edestruct (mapM_total (fun m => match im_get p.1 mapping with
                           | Some type_alias_mapping => fix_type_alias_identifier m type_alias_mapping
                           | None => mret m
                           end) (fun m m' => map_module but_types m' = map_module but_types m) p.2) as (ms' & -> & HF).
  - intros m _. destruct (im_get p.1 mapping) as [a|] eqn:E; [|by exists m]. by apply run_alias, (Ha p.1).
  - exists (p.1, ms'). split_and!; [done..|]. cbn [snd]. induction HF as [|m m' ms ms' H _ IH]; [done|]. simpl. by rewrite H, IH.
Qed.

(** ** The resolution of a program

    [resolve_program], but for the lints: the program preprocessed, its check, and the program
    with the types of its aliases. *)
Section Pipeline.
Context `{ResolverEnv}.

Definition resolve_processed (program : Program_) (is_file : string -> bool) (fuel : nat) : outcome (ProgramScope * Program_) :=
  program ← pre_process_program program;
  match (resolve_import program is_file;; check program fuel MAIN_PKG) new_resolver with
  | Ok (_, r) =>
      program ← process_program_type_alias program (Resolver.type_alias_mapping (ctx r));
      mret (program_scope r, program)
  | Panic e => Panic e
  end.

(** The check is that of [resolve_program] on the preprocessed program. *)
Lemma resolve_processed_scope program is_file fuel scope program' :
  resolve_processed program is_file fuel = Ok (scope, program') -> exists program0,
  pre_process_program program = Ok program0 /\ resolve_program program0 is_file fuel = Ok scope.
Proof.
  unfold resolve_processed. destruct (pre_process_program program) as [program0|] eqn:E; [|done]. simpl.
  intros H0. exists program0. split; [done|]. unfold resolve_program.
  destruct ((resolve_import program0 is_file;; check program0 fuel MAIN_PKG) new_resolver) as [[[] r]|]; [|done].
  destruct (process_program_type_alias _ _); [|done]. by injection H0 as <- _.
Qed.
End Pipeline.
